(* ===== verification/_CoqProject ===== *)
-Q . S2P
Prelude.v
HsPerf.v
Text.v
OrdSet.v
Defer.v
Sysutil.v
StackTrace.v
Report.v
CondVar.v
ZQueue.v
ChannelSpec.v
Channel.v
Unbuffered.v
Rendezvous.v
Collector.v
Server.v
Dump.v
Service.v
Tt.v
Backtrace.v
MemChecker.v
Hook.v
OldHook.v
Mm.v
TraceUtil.v
Agent.v
JvmInner.v
GcAgent.v
OldAgent.v
RawMonitor.v
Safepoint.v
Inject.v
Sketch.v
