(* ===== verification/Prelude.v ===== *)
(** * A verification library for the JVM memory-tracing tools

    The repository is a set of tools that find out where the memory of a JVM goes: malloc hooks that
    account for every block, a library (from ThreadStacks) that collects the stacks of all threads of a
    process, an injector that makes a running process call a function, a reader of the JVM's performance
    data, and a JVMTI agent that ties them together. This development models the parts below as executable
    definitions and proves what makes each of them correct, or what it does instead.

    ** Files

    - [Prelude.v] (this file): machine integers as [Z] with their wrap-around, little-endian fields,
      C strings, the outcomes of C++ code ([flow], and the logging computations [prog]), the class
      [Machine] of concurrent components with explicit schedules, and the lemmas and tactics all share.
    - [Text.v]: decimal and hexadecimal printing, [std::stoll], and their round trip.
    - [OrdSet.v]: [std::set] and [std::map] over a comparator, with the comparator's laws as classes.
    - [CondVar.v]: condition variables over a pool of threads.
    - [Defer.v]: [src/ts/common/defer.h], deferred statements as blocks with objects to destroy.
    - [HsPerf.v]: [src/hsperfdata_parser.h], the parser of performance-data files.
    - [ZQueue.v]: [src/zqueue.h], the blocking queue of the agent.
    - [ChannelSpec.v]: [src/ts/common/channel.h], the interface of channels: the class [ChannelOps] of what one sees of an
      implementation, and its contract, the class [ChannelLaws].
    - [Channel.v]: [src/ts/common/unbuffered_channel.h], the rendezvous channel.
    - [Unbuffered.v]: the rendezvous channel as an instance of both classes.
    - [Rendezvous.v]: an abstract rendezvous of calls in progress, which [Channel.v] refines.
    - [Sysutil.v]: [src/ts/common/sysutil.cc], the list of the threads of the process.
    - [StackTrace.v]: [src/ts/signal_handler.cc], the forms, the signal handler of a thread, the grouping
      of equal stacks and the printed report.
    - [Report.v]: a reader of the report that [ToPrettyString] prints, with its round trip.
    - [Collector.v]: [src/ts/signal_handler.cc], the protocol of [StackTraceCollector::Collect] with the
      handlers of the threads it signals. It uses [StackTrace.v] for what a handler does to its form and
      for the results, and the list [Sysutil.v] computes is its argument.
    - [Server.v]: [src/ts/signal_handler.cc], the requests to the service thread and its loop, whose body is a
      block of [Defer.v], as the descriptors of [Collector.v] are; the results of [Collect] are its argument.
    - [Dump.v]: [Sysutil.v], [Collector.v], [StackTrace.v], [Report.v] and [Server.v] put together: a dump from
      the request to what is printed, and sessions of dumps, in which the handlers that a collection which gave up left
      behind go on during the later ones.
    - [Service.v]: [src/ts/signal_handler.cc], the start of the service thread behind a static object, the installers of
      the handlers, and the processes that share the server; the events are those of [Server.v].
    - [Tt.v]: [src/tt.cpp], the injector, on a model of a 32-bit tracee.
    - [Inject.v]: [src/tt.cpp], the injector's [main] on top of [Tt.v], and the search in the relocations.
    - [Sketch.v]: [src/trace.h], a draft of an injector for 64-bit programs, on the functions it uses and the
      repository does not have: the class [Ptrace].
    - [Backtrace.v]: [src/trace_backtrace.h] and the report of [src/mem_checker.cpp], on the answers of libunwind.
    - [MemChecker.v]: [src/mem_checker.cpp], the accounting, its lock, and the unwinding of [Backtrace.v] in each [add].
    - [Hook.v]: [src/hook.cpp], the malloc hooks on top of [MemChecker.v], with the unwinding, and of a libc allocator that
      is an instance of the class [Libc], with the laws [LibcLaws].
    - [OldHook.v]: [src/__hook.cpp__], earlier malloc hooks that the build does not use, with the allocator that
      serves [dlsym]; libc, [mmap] and [dlsym] are an instance of the class [Real], with the laws [RealLaws].
    - [Mm.v]: [src/mm.cpp], the mmap hooks, as a machine.
    - [TraceUtil.v]: [src/trace_util.h], [get_tid] and [mem_fuller::instance].
    - [Agent.v]: [src/trace_agent.h] and [src/main.cpp], the code of the JVMTI agent that talks to the JVM, which is
      an instance of the class [Jvmti].
    - [Safepoint.v]: [src/trace_agent.h] and [src/trace_util.h], the threads of the agent: [worker],
      [safepoint_worker], its helper, and the threads that are [pending]. Its queues are the abstract queue of
      [ZQueue.v]. The JVM answers [GetAllStackTraces] when it can stop the threads it has to stop.
    - [JvmInner.v]: [src/jvm_inner.h] as compiled inside a JVM; the functions of HotSpot are an instance of the class
      [Hotspot].
    - [GcAgent.v]: [agent.cpp], the agent that prints the times of collections, on the same JVM as [Agent.v].
    - [OldAgent.v] and [RawMonitor.v]: [src/__trace_agent.h], the first version of the agent, which the build does not
      use: its callbacks on the JVM of [Agent.v], and its worker with the raw monitor.

    ** How the code is represented

    Sequential code is a function of its inputs. Reads of files, system calls, libunwind, the symbolizer
    and libc's allocator are arguments: what they answer is given, the theorems quantify over it. Code that
    prints, allocates or can be undefined is a [prog]: the list of its effects and how it ends. A state is a
    record with the fields of the class or the variables of the function.

    The agent's code depends on a JVM that answers: its computations ([Agent.agent]) take the history of what
    happened and log what they do, and they are equal when they do the same after every history, an equivalence
    that [bind] respects and the proofs rewrite with.

    Concurrent code is a [Machine]: an action names the thread that moves and the choices of the
    environment (which waiter a notification wakes, whether a wait times out, what [select] reports), and
    the step function gives the next state, or none when the action is not enabled. For code that holds a
    mutex a step goes from one point where the mutex is free to the next ([ZQueue.v], [Channel.v], [Safepoint.v]); for
    code without an effective lock a step is one access to the shared variables ([MemChecker.v]), and for
    the signal handlers one call on the form or on the pipe ([Collector.v]). [reachable] quantifies over
    every schedule, and invariants are proved by the rule [reachable_invariant].

    ** What the theorems show

    - Parser: a round trip with the file format written as an encoder; the answer to every header it
      refuses; where it reads out of bounds; what it prints; when it leaks its buffer.
    - End to end: when the descriptor of a request is closed, its report is out, and one reads from it exactly the threads
      that were listed and could be signalled, with their frames; in sessions of any number of collections, up
      to the point where a late handler uses a form of one that is over.
    - Channel and queue: exactly-once and FIFO delivery in every interleaving, absence of lost wakeups,
      refinement of an abstract rendezvous (every trace of calls, answers and crashes is one of its traces) and of
      an abstract queue; and the schedule in which [try_pop] loses a wakeup. The channel keeps the contract of
      its interface, time limits of [Write] apart, from which alone a client that reads to the end knows that it has
      received all that was sent.
    - Collector: a successful collection is complete and leaves nothing behind, whatever the interleaving;
      what it waits for; that it can always be brought to succeed while no handler gave up (a measure for the rule
      [can_reach_by]); its errors; and the use after free that follows a timeout.
    - Forms and report: the handler never overruns its form and records the first frames; the grouping
      with a comparator on trees equals its reference definition; no thread is lost in the report, which can be read
      back.
    - Server: descriptors are closed exactly once across requesters and server, after the output is
      flushed. One service thread starts, whoever asks first, and the signal handler never waits for it; across forks the
      server closes nothing but requests, unless a child calls [backtrace].
    - Deferred statements: a block does what nested [try ... finally] statements do, as long as no object is moved.
    - Injector: reading, writing and pushing on the tracee with the effect of whole words; strings; the
      symbol search as a lookup; stale variables and a division by zero; the wait that never ends.
    - Injector's program: from the ELF header to the call, against a reference on the list of libraries, with the
      state it leaves the tracee in and the wait it never leaves.
    - Agent: the outcome of loading, with the calls made; what [stack_trace] prints, frees and leaks; who can move
      among the agent's threads, and whom the JVM waits for; the life of the queue of a dump, that a dump can end as
      long as nobody calls [notify(true)]; one stack trace per garbage collection; the threads that nobody
      wakes, and the mutex that stays locked.
    - The other agents: the ways loading can end; the coalescing of collections, and the deadlock of the worker that
      holds its monitor while it needs the VM.
    - Draft of the 64-bit injector: the search for symbols reads out of step and has no end of its own, the search in the
      relocations writes out of its block.
    - Lazy initialisation ([mem_fuller::instance], the mmap hooks): what every interleaving keeps, and the races.
    - Accounting: the exact total after any history of calls; that the lock neither blocks nor
      excludes anybody, with the lost update that follows; the hooks' total as the sum of the sizes the
      program owns, with libc's heap, and the two ways it drifts; that a call ends when libunwind comes to the end
      of the stack, and does not when it never does; the first version of the hooks, in which no allocation
      returns.

    ** Bounds and fuel

    Loops over data that shrinks are structural. [free] takes the depth of its recursion as a fuel, and one
    more than the number of recorded blocks is always enough ([free_terminates]). [print_nat] uses the number of
    bits of its argument, which bounds the number of digits. [ptrace_readstr] has one turn more than
    its buffer has bytes, which suffices for the loop to end or to leave the buffer. The loop on the frames of a stack
    takes a fuel, too: the theorems say that some fuel is enough when libunwind comes to the end of the stack, and that
    none is when it never does. The loops of the injector over structures of the tracee have no bound
    in the code: they take a fuel, and [get_sym_info_section] says that the length of the section is enough. The
    wait loops consume the answers of [waitpid].

    [Inject.v]'s theorems ask for a fuel above the number of headers, of dynamic entries and of libraries. The agent's
    machine has no fuel: its loops are steps.

    ** What is not modelled

    [make.sh], the build script; a channel with a buffer, which [src/ts/common/channel.h] speaks of and the repository
    does not have; what the programs print for debugging, unless a theorem is about it.
    [src/__hook.cpp__mem] is the text of [src/hook.cpp]. *)

From coqutil Require Export Byte LittleEndianList.
From stdpp Require Export base gmap sets list strings numbers pretty.
From Stdlib Require Export ZArith Lia.

#[global] Open Scope Z_scope.

#[export] Instance byte_eq_decision : EqDecision byte := Byte.byte_eq_dec.

(** ** Machine integers *)

(** A value converted to an unsigned type of [w] bits. *)
Definition wrapU (w z : Z) : Z := z mod 2 ^ w.

(** A value converted to a two's complement signed type of [w] bits. *)
Definition wrapS (w z : Z) : Z := (z + 2 ^ (w - 1)) mod 2 ^ w - 2 ^ (w - 1).

(** The range of a signed type of [w] bits. *)
Definition in_sint (w z : Z) : bool := (- 2 ^ (w - 1) <=? z) && (z <? 2 ^ (w - 1)).

(** ** Packed little-endian fields *)

(** One unsigned field of [n] bytes at the front of a byte list, and what follows it. *)
Definition get_u (n : nat) (bs : list byte) : Z * list byte := (le_combine (take n bs), drop n bs).

(** The same for a signed field. *)
Definition get_s (n : nat) (bs : list byte) : Z * list byte :=
  (wrapS (8 * Z.of_nat n) (le_combine (take n bs)), drop n bs).

(** The [n] bytes at offset [off] of a buffer, when they all lie inside it. *)
Definition peek (buf : list byte) (off n : Z) : option (list byte) :=
  if (0 <=? off) && (0 <=? n) && (off + n <=? Z.of_nat (length buf))
  then Some (take (Z.to_nat n) (drop (Z.to_nat off) buf))
  else None.

(** What [printf("%s")] prints of a byte string: the bytes before the first NUL. *)
Fixpoint c_str (bs : list byte) : list byte :=
  match bs with
  | [] => []
  | b :: bs' => if byte.unsigned b =? 0 then [] else b :: c_str bs'
  end.

(** ** Outcomes of C++ code *)

(** The kinds of undefined behaviour the models distinguish. *)
Inductive ub_kind : Type :=
| Out_of_bounds
| Signed_overflow
| Dangling_pointer
| Division_by_zero
| Uninitialised
| Null_pointer
| Missing_return.

(** The exceptions the models raise: the standard ones, and [agent_exception] of [trace_agent.h]. *)
Inductive exn_kind : Type :=
| Bad_array_new_length
| Length_error
| Invalid_argument
| Out_of_range
| Agent_exception (err_ : Z).

(** How a piece of code ends: with a value, in undefined behaviour, or by an exception that
    leaves it. *)
Inductive flow (A : Type) : Type :=
| Done (a : A)
| Undefined (u : ub_kind)
| Raised (e : exn_kind).
Arguments Done {A} a.
Arguments Undefined {A} u.
Arguments Raised {A} e.

(** A computation that logs effects of type [L] (prints, allocations) before it ends. *)
Definition prog (L A : Type) : Type := list L * flow A.

#[export] Instance prog_ret {L} : MRet (prog L) := fun A a => ([], Done a).

#[export] Instance prog_bind {L} : MBind (prog L) := fun A B k m =>
  match m with
  | (l, Done a) => let '(l', r) := k a in (l ++ l', r)
  | (l, Undefined u) => (l, Undefined u)
  | (l, Raised e) => (l, Raised e)
  end.

(** Emits one effect. *)
Definition emit {L} (e : L) : prog L unit := ([e], Done tt).

(** Emits an effect when the flag is set. *)
Definition emit_if {L} (b : bool) (e : L) : prog L unit := if b then emit e else mret tt.

(** Ends in undefined behaviour. *)
Definition undef {L A} (u : ub_kind) : prog L A := ([], Undefined u).

(** Ends with an exception. *)
Definition raise {L A} (e : exn_kind) : prog L A := ([], Raised e).

(** The value of an option, or undefined behaviour. *)
Definition or_undef {L A} (u : ub_kind) (o : option A) : prog L A :=
  match o with Some a => mret a | None => undef u end.

(** Addition on a 32-bit signed type: overflow is undefined. *)
Definition add_int32 {L} (a b : Z) : prog L Z :=
  if in_sint 32 (a + b) then mret (a + b) else undef Signed_overflow.

(** ** State machines with explicit schedules

    A concurrent component is an executable machine: an action names a thread and the choices the
    environment makes (which waiter a notification wakes, whether a wait times out), and [m_exec]
    gives the next state, or [None] when the action is not enabled. *)
Class Machine (St Act : Type) : Type := {
  m_init : St -> Prop;
  m_exec : Act -> St -> option St;
}.

(** Runs a schedule. *)
Fixpoint run {St Act} `{Machine St Act} (acts : list Act) (s : St) : option St :=
  match acts with
  | [] => Some s
  | a :: acts' => match m_exec a s with Some s' => run acts' s' | None => None end
  end.

(** The states some schedule reaches from an initial state. *)
Definition reachable {St Act} `{Machine St Act} (s : St) : Prop :=
  exists s0 acts, m_init s0 /\ run acts s0 = Some s.

(** ** Lemmas on machine integers *)

Lemma wrapU_range w z : 0 <= w -> 0 <= wrapU w z < 2 ^ w.
Proof. intros. unfold wrapU. apply Z.mod_pos_bound. lia. Qed.

Lemma wrapU_small w z : 0 <= z < 2 ^ w -> wrapU w z = z.
Proof. intros. unfold wrapU. by apply Z.mod_small. Qed.

Lemma wrapU_add_l w a b : wrapU w (wrapU w a + b) = wrapU w (a + b).
Proof. unfold wrapU. apply Zplus_mod_idemp_l. Qed.

Lemma wrapU_sub_l w a b : wrapU w (wrapU w a - b) = wrapU w (a - b).
Proof. unfold wrapU. apply Zminus_mod_idemp_l. Qed.

Lemma wrapS_small w z : 0 < w -> in_sint w z = true -> wrapS w z = z.
Proof.
  unfold wrapS, in_sint. intros Hw [H1 H2]%andb_true_iff.
  apply Z.leb_le in H1. apply Z.ltb_lt in H2.
  assert (2 ^ w = 2 * 2 ^ (w - 1)) by (rewrite <- Z.pow_succ_r by lia; f_equal; lia).
  rewrite Z.mod_small; lia.
Qed.

Lemma wrapS_range w z : 0 < w -> in_sint w (wrapS w z) = true.
Proof.
  intros Hw. unfold in_sint, wrapS.
  assert (2 ^ w = 2 * 2 ^ (w - 1)) by (rewrite <- Z.pow_succ_r by lia; f_equal; lia).
  pose proof (Z.mod_pos_bound (z + 2 ^ (w - 1)) (2 ^ w) ltac:(lia)).
  apply andb_true_iff. rewrite Z.leb_le, Z.ltb_lt. lia.
Qed.

Lemma wrapS_mod w z : 0 < w -> wrapS w (z mod 2 ^ w) = wrapS w z.
Proof. intros. unfold wrapS. by rewrite Zplus_mod_idemp_l. Qed.

(** The signed and the unsigned reading of a value are congruent. *)
Lemma wrapU_wrapS_l w a b : 0 < w -> wrapU w (wrapS w a + b) = wrapU w (a + b).
Proof.
  intros. unfold wrapU, wrapS.
  replace ((a + 2 ^ (w - 1)) mod 2 ^ w - 2 ^ (w - 1) + b)
    with ((a + 2 ^ (w - 1)) mod 2 ^ w + (b - 2 ^ (w - 1))) by lia.
  rewrite Zplus_mod_idemp_l. f_equal. lia.
Qed.

Lemma wrapU_sub_wrapS w a b : 0 < w -> wrapU w (a - wrapS w b) = wrapU w (a - b).
Proof.
  intros. unfold wrapU, wrapS.
  replace (a - ((b + 2 ^ (w - 1)) mod 2 ^ w - 2 ^ (w - 1)))
    with (a + 2 ^ (w - 1) - (b + 2 ^ (w - 1)) mod 2 ^ w) by lia.
  rewrite Zminus_mod_idemp_r. f_equal. lia.
Qed.

(** ** Lemmas on fields and buffers *)

Lemma get_u_app n z tl :
  0 <= z < 2 ^ (8 * Z.of_nat n) -> get_u n (le_split n z ++ tl) = (z, tl).
Proof.
  intros Hz. unfold get_u.
  rewrite take_app_length', drop_app_length' by (by rewrite length_le_split).
  rewrite le_combine_split, Z.mod_small; [done|]. by rewrite Z.mul_comm.
Qed.

Lemma get_s_app n z tl :
  (0 < n)%nat -> in_sint (8 * Z.of_nat n) z = true -> get_s n (le_split n z ++ tl) = (z, tl).
Proof.
  intros Hn Hz. unfold get_s.
  rewrite take_app_length', drop_app_length' by (by rewrite length_le_split).
  rewrite le_combine_split, (Z.mul_comm (Z.of_nat n)), wrapS_mod by lia.
  rewrite wrapS_small; [done|lia|done].
Qed.

(** A concatenation as a sum. *)
Lemma le_combine_app_add a b : le_combine (a ++ b) = le_combine a + le_combine b * 2 ^ (8 * Z.of_nat (length a)).
Proof.
  rewrite le_combine_app. pose proof (le_combine_bound a) as Ha.
  rewrite <- Z.shiftl_mul_pow2 by lia. rewrite (Z.mul_comm 8).
  set (n := Z.of_nat (length a) * 8) in *. assert (Hn : 0 <= n) by lia.
  replace (8 * Z.of_nat (length a)) with n in Ha by lia.
  assert (Hl : Z.land (le_combine a) (Z.shiftl (le_combine b) n) = 0).
  { apply Z.bits_inj_0. intros i. rewrite Z.land_spec. destruct (Z.ltb_spec i n).
    - rewrite Z.shiftl_spec_low by done. apply andb_false_r.
    - rewrite <- (Z.mod_small (le_combine a) (2 ^ n)) by done.
      rewrite Z.mod_pow2_bits_high by lia. done. }
  rewrite (Z.add_nocarry_lxor _ _ Hl). symmetry. by apply Z.lxor_lor.
Qed.

Lemma get_u_byte b tl : get_u 1 (b :: tl) = (byte.unsigned b, tl).
Proof. unfold get_u. simpl. by rewrite take_0, drop_0, le_combine_1. Qed.

Lemma peek_app a b c off n :
  off = Z.of_nat (length a) -> n = Z.of_nat (length b) -> peek (a ++ b ++ c) off n = Some b.
Proof.
  intros -> ->. unfold peek. rewrite !length_app.
  replace (_ && _) with true by (symmetry; rewrite !andb_true_iff, !Z.leb_le; lia).
  rewrite !Nat2Z.id. by rewrite drop_app_length, take_app_length.
Qed.

Lemma peek_Some buf off n bs :
  peek buf off n = Some bs ->
  0 <= off /\ off + n <= Z.of_nat (length buf) /\ Z.of_nat (length bs) = n.
Proof.
  unfold peek. case_match eqn:E; [|done]. intros [= <-].
  rewrite !andb_true_iff, !Z.leb_le in E. rewrite length_take, length_drop. lia.
Qed.

Lemma peek_None buf off n : Z.of_nat (length buf) < off + n -> peek buf off n = None.
Proof. intros. unfold peek. case_match eqn:E; [|done]. rewrite !andb_true_iff, !Z.leb_le in E. lia. Qed.

Lemma c_str_app_nul a b :
  Forall (fun x => byte.unsigned x <> 0) a -> c_str (a ++ Byte.x00 :: b) = a.
Proof.
  induction 1 as [|x a Hx _ IH]; [done|]. simpl.
  destruct (Z.eqb_spec (byte.unsigned x) 0); [done|]. by rewrite IH.
Qed.

Lemma c_str_id a : Forall (fun x => byte.unsigned x <> 0) a -> c_str a = a.
Proof.
  induction 1 as [|x a Hx _ IH]; [done|]. simpl.
  destruct (Z.eqb_spec (byte.unsigned x) 0); [done|]. by rewrite IH.
Qed.

Lemma c_str_no_nul a : Forall (fun x => byte.unsigned x <> 0) (c_str a).
Proof.
  induction a as [|x a IH]; simpl; [constructor|].
  destruct (Z.eqb_spec (byte.unsigned x) 0); by constructor.
Qed.

(** ** Lemmas on computations *)

Lemma bind_done {L A B} (l : list L) (a : A) (k : A -> prog L B) :
  ((l, Done a) ≫= k) = let '(l', r) := k a in (l ++ l', r).
Proof. done. Qed.

Lemma bind_emit {L B} (e : L) (k : unit -> prog L B) :
  (emit e ≫= k) = let '(l, r) := k tt in (e :: l, r).
Proof. done. Qed.

Lemma bind_ret_l {L A B} (a : A) (k : A -> prog L B) : (mret a ≫= k) = k a.
Proof. cbv [mret prog_ret mbind prog_bind]. by destruct (k a). Qed.

Lemma bind_ret_r {L A} (m : prog L A) : (m ≫= mret) = m.
Proof. destruct m as [l []]; [|done..]. cbv [mret prog_ret mbind prog_bind]. by rewrite app_nil_r. Qed.

Lemma bind_assoc {L A B C} (m : prog L A) (f : A -> prog L B) (g : B -> prog L C) :
  ((m ≫= f) ≫= g) = (m ≫= fun a => f a ≫= g).
Proof.
  destruct m as [l []]; [|done..]. cbv [mbind prog_bind].
  destruct (f a) as [l1 []]; [|done..]. destruct (g a0) as [l2 r]. by rewrite app_assoc.
Qed.

Lemma add_int32_ok {L} a b : in_sint 32 (a + b) = true -> add_int32 (L := L) a b = mret (a + b).
Proof. unfold add_int32. by intros ->. Qed.

(** ** Lemmas on machines *)

Section machine.
Context {St Act : Type} `{M : Machine St Act}.

Lemma run_app acts1 acts2 s :
  run (acts1 ++ acts2) s = match run acts1 s with Some s' => run acts2 s' | None => None end.
Proof. revert s. induction acts1 as [|a acts1 IH]; intros s; simpl; [done|]. by case_match. Qed.

Lemma reachable_step a s s' : reachable s -> m_exec a s = Some s' -> reachable s'.
Proof.
  intros (s0 & acts & Hi & Hr) Hs. exists s0, (acts ++ [a]). split; [done|].
  rewrite run_app, Hr. simpl. by rewrite Hs.
Qed.

Lemma run_invariant (I : St -> Prop) :
  (forall a s s', I s -> m_exec a s = Some s' -> I s') ->
  forall acts s s', I s -> run acts s = Some s' -> I s'.
Proof.
  intros Hstep. induction acts as [|a acts IH]; intros s s' HI Hr; simpl in Hr; [naive_solver|].
  destruct (m_exec a s) as [s1|] eqn:E; [|done]. eauto.
Qed.

(** The rule of invariants: what holds initially and is kept by each action holds in every
    reachable state. *)
Lemma reachable_invariant (I : St -> Prop) :
  (forall s, m_init s -> I s) ->
  (forall a s s', I s -> m_exec a s = Some s' -> I s') ->
  forall s, reachable s -> I s.
Proof. intros Hi Hstep s (s0 & acts & H0 & Hr). eapply run_invariant; eauto. Qed.

(** The rule of termination: a schedule of actions in [P], no longer than the measure, leads to [Q] when [I] gives an
    action in [P] that gets there or keeps [I], and that makes the measure smaller. *)
Lemma can_reach_by (I Q : St -> Prop) (P : Act -> Prop) (measure : St -> nat) :
  (forall s, I s -> exists a s', m_exec a s = Some s' /\ P a /\ (Q s' \/ I s') /\ (measure s' < measure s)%nat) ->
  forall s, I s ->
  exists acts s', run acts s = Some s' /\ Q s' /\ Forall P acts /\ (length acts <= measure s)%nat.
Proof.
  intros Hstep s. induction (Nat.lt_wf_0_projected measure s) as [s _ IH]. intros Hi.
  destruct (Hstep s Hi) as (a & s1 & Ha & Hp & [Hq|Hi1] & Hlt).
  - exists [a], s1. simpl. rewrite Ha. split_and!; [done|done|by repeat constructor|lia].
  - destruct (IH s1 Hlt Hi1) as (acts & s2 & Hr & Hq & Hps & Hle). exists (a :: acts), s2. simpl. rewrite Ha.
    split_and!; [done|done|by constructor|lia].
Qed.

End machine.

(** ** Automation *)

Create Rewrite HintDb cfields.
#[export] Hint Rewrite @get_u_byte : cfields.
#[export] Hint Rewrite length_le_split : cfields.
#[export] Hint Rewrite @length_app @length_cons @length_nil : cfields.

(** Splits boolean conjunctions and turns boolean comparisons into propositions. *)
Ltac bool_solve :=
  repeat match goal with
  | H : (_ && _) = true |- _ => apply andb_true_iff in H; destruct H
  | H : (_ =? _) = true |- _ => apply Z.eqb_eq in H
  | H : (_ <=? _) = true |- _ => apply Z.leb_le in H
  | H : (_ <? _) = true |- _ => apply Z.ltb_lt in H
  | H : (_ =? _) = false |- _ => apply Z.eqb_neq in H
  | H : (_ <=? _) = false |- _ => apply Z.leb_gt in H
  | H : (_ <? _) = false |- _ => apply Z.ltb_ge in H
  | |- (_ && _) = true => apply andb_true_iff; split
  | |- (_ =? _) = true => apply Z.eqb_eq
  | |- (_ <=? _) = true => apply Z.leb_le
  | |- (_ <? _) = true => apply Z.ltb_lt
  end.

(** Proves that two concatenations differ only by associativity. *)
Ltac app_norm := repeat (progress (rewrite <- ?app_assoc; cbn [app])); done.
