(* ===== verification/HsPerf.v ===== *)
(** * The hsperfdata snapshot parser ([src/src/hsperfdata_parser.h])

    [hsperfdata_parser::parse] reads a JVM performance-data file into a buffer and walks the
    packed little-endian structures in it, printing the entries whose name mentions
    [sun.gc.generation]. The model keeps the buffer as bytes, every [memcpy] and every buffer access
    with its bounds, the [int] arithmetic on offsets with its overflow, and logs one event per
    [fprintf] (with the arguments it prints) and per allocation or release of the buffer.

    The second half gives the file format as an encoder, and proves that the parser decodes what
    the encoder writes, what it answers on every header it refuses, and what it does on files that
    are too short (it reads out of bounds: the code never compares an offset with the length). *)

From S2P Require Import Prelude.
From Stdlib Require String.
#[local] Open Scope list_scope.

(** ** The packed structures *)

Record perfdata_header : Type := {
  magic_ : Z;
  byte_order_ : Z;
  major_ : Z;
  minor_ : Z;
}.

Record buffer_prologue : Type := {
  accessible_ : Z;
  used_ : Z;
  overflow_ : Z;
  modify_time_ : Z;
  entry_offset_ : Z;
  num_entries_ : Z;
}.

Record entry_header : Type := {
  entry_length_ : Z;
  name_offset_ : Z;
  vector_length_ : Z;
  data_type_ : Z;
  flags_ : Z;
  data_units_ : Z;
  data_var_ : Z;
  data_offset_ : Z;
}.

(** [sizeof] of the three packed structures. *)
Definition sizeof_header : Z := 7.

Definition sizeof_prologue : Z := 25.

Definition sizeof_entry : Z := 20.

(** [memcpy(&header, ...)]: the fields in declaration order, without padding. *)
Definition header_of (bs : list byte) : perfdata_header :=
  let '(magic, bs) := get_u 4 bs in
  let '(byte_order, bs) := get_u 1 bs in
  let '(major, bs) := get_u 1 bs in
  let '(minor, _) := get_u 1 bs in
  {| magic_ := magic; byte_order_ := byte_order; major_ := major; minor_ := minor |}.

Definition prologue_of (bs : list byte) : buffer_prologue :=
  let '(accessible, bs) := get_u 1 bs in
  let '(used, bs) := get_s 4 bs in
  let '(overflow, bs) := get_s 4 bs in
  let '(modify_time, bs) := get_s 8 bs in
  let '(entry_offset, bs) := get_s 4 bs in
  let '(num_entries, _) := get_s 4 bs in
  {| accessible_ := accessible; used_ := used; overflow_ := overflow;
     modify_time_ := modify_time; entry_offset_ := entry_offset; num_entries_ := num_entries |}.

Definition entry_of (bs : list byte) : entry_header :=
  let '(entry_length, bs) := get_s 4 bs in
  let '(name_offset, bs) := get_s 4 bs in
  let '(vector_length, bs) := get_s 4 bs in
  let '(data_type, bs) := get_u 1 bs in
  let '(flags, bs) := get_u 1 bs in
  let '(data_units, bs) := get_u 1 bs in
  let '(data_var, bs) := get_u 1 bs in
  let '(data_offset, _) := get_s 4 bs in
  {| entry_length_ := entry_length; name_offset_ := name_offset;
     vector_length_ := vector_length; data_type_ := data_type; flags_ := flags;
     data_units_ := data_units; data_var_ := data_var; data_offset_ := data_offset |}.

(** ** Effects of the parser *)

(** One constructor per [fprintf] of the code, with what it prints, and the two heap operations. *)
Inductive event : Type :=
| Err_open (filepath : list byte)
| New_buf (len : Z)
| Delete_buf
| Err_magic (magic : Z)
| Err_version (major minor : Z)
| Err_bigendian
| Print_name (name : list byte)
| Err_monitor (data_type : Z)
| Print_int (value : Z)
| Err_vector (data_type data_units data_var : Z)
| Print_str (value : list byte).

(** ** The name filter *)

Fixpoint starts_with (pat s : list byte) : bool :=
  match pat, s with
  | [], _ => true
  | p :: pat', c :: s' => Byte.eqb p c && starts_with pat' s'
  | _ :: _, [] => false
  end.

(** [std::string::find]: the first index of the pattern, or [npos] = 2^64 - 1. *)
Fixpoint find_from (pat s : list byte) (i : Z) : Z :=
  if starts_with pat s then i
  else match s with
       | [] => 2 ^ 64 - 1
       | _ :: s' => find_from pat s' (i + 1)
       end.

Definition generation_key : list byte := String.list_byte_of_string "sun.gc.generation".

Definition is_generation (name : list byte) : bool :=
  let pos := wrapS 32 (find_from generation_key name 0) in
  if pos <? 0 then false else true.

(** [mem_area], and the two functions for it: their bodies are empty, although they return a [bool]. *)
Record mem_area : Type := {
  max_ : Z;
  size_ : Z;
  area_used_ : Z;
}.

Definition parse_generation_eden (name : list byte) (value : Z) : prog event bool := undef Missing_return.

Definition parse_generation_old (name : list byte) (value : Z) : prog event bool := undef Missing_return.

(** ** The parser *)

(** [buf[n]] *)
Definition byte_at (buf : list byte) (n : Z) : option byte :=
  if 0 <=? n then buf !! Z.to_nat n else None.

(** The loop that measures a name: [k] is the number of indices left before [len]. *)
Fixpoint scan_name (buf : list byte) (k : nat) (n nlen : Z) : prog event Z :=
  match k with
  | O => mret nlen
  | S k' =>
      tmp ← or_undef Out_of_bounds (byte_at buf n);
      if byte.unsigned tmp =? 0 then mret nlen else scan_name buf k' (n + 1) (nlen + 1)
  end.

(** One iteration of the entry loop: [Some pos'] goes on at [pos'], [None] is the early [return]. *)
Definition parse_entry (buf : list byte) (len pos : Z) : prog event (option Z) :=
  raw ← or_undef Out_of_bounds (peek buf pos sizeof_entry);
  let entry := entry_of raw in
  nameStart ← add_int32 pos (name_offset_ entry);
  nlen ← scan_name buf (Z.to_nat (len - nameStart)) nameStart 0;
  name ← or_undef Out_of_bounds (peek buf nameStart nlen);
  _ ← emit_if (is_generation name) (Print_name (c_str name));
  dataStart ← add_int32 pos (data_offset_ entry);
  if vector_length_ entry =? 0 then
    if negb (data_type_ entry =? 74) then
      _ ← emit (Err_monitor (data_type_ entry));
      mret None
    else
      value ← or_undef Out_of_bounds (peek buf dataStart 8);
      _ ← emit_if (is_generation name) (Print_int (fst (get_s 8 value)));
      pos' ← add_int32 pos (entry_length_ entry);
      mret (Some pos')
  else
    if negb (data_type_ entry =? 66) || negb (data_units_ entry =? 5)
       || (negb (data_var_ entry =? 1) && negb (data_var_ entry =? 3)) then
      _ ← emit (Err_vector (data_type_ entry) (data_units_ entry) (data_var_ entry));
      mret None
    else
      if vector_length_ entry <? 0 then raise Length_error
      else
        value ← or_undef Out_of_bounds (peek buf dataStart (vector_length_ entry));
        _ ← emit_if (is_generation name) (Print_str (c_str value));
        pos' ← add_int32 pos (entry_length_ entry);
        mret (Some pos').

(** The entry loop, with [k] iterations left; [false] when it returned early. *)
Fixpoint parse_entries (buf : list byte) (len : Z) (k : nat) (pos : Z) : prog event bool :=
  match k with
  | O => mret true
  | S k' =>
      r ← parse_entry buf len pos;
      match r with
      | Some pos' => parse_entries buf len k' pos'
      | None => mret false
      end
  end.

(** [hsperfdata_parser::parse]; [file] is what [fopen] finds at [filepath]. *)
Definition parse (filepath : list byte) (file : option (list byte)) : prog event unit :=
  match file with
  | None => emit (Err_open (c_str filepath))
  | Some contents =>
      let len := wrapS 32 (Z.of_nat (length contents)) in
      if len <? 0 then raise Bad_array_new_length
      else
        _ ← emit (New_buf len);
        let buf := take (Z.to_nat len) contents in
        raw ← or_undef Out_of_bounds (peek buf 0 sizeof_header);
        let header := header_of raw in
        if negb (magic_ header =? 0xc0c0feca) then emit (Err_magic (magic_ header))
        else if negb ((major_ header =? 2) && (minor_ header =? 0)) then
          emit (Err_version (major_ header) (minor_ header))
        else if negb (byte_order_ header =? 1) then emit Err_bigendian
        else
          raw2 ← or_undef Out_of_bounds (peek buf sizeof_header sizeof_prologue);
          let prologue := prologue_of raw2 in
          completed ← parse_entries buf len (Z.to_nat (num_entries_ prologue))
                        (entry_offset_ prologue);
          emit_if completed Delete_buf
  end.

(** ** The file format, as an encoder *)

Definition enc_header (h : perfdata_header) : list byte :=
  le_split 4 (magic_ h) ++ le_split 1 (byte_order_ h) ++ le_split 1 (major_ h)
  ++ le_split 1 (minor_ h).

Definition enc_prologue (p : buffer_prologue) : list byte :=
  le_split 1 (accessible_ p) ++ le_split 4 (used_ p) ++ le_split 4 (overflow_ p)
  ++ le_split 8 (modify_time_ p) ++ le_split 4 (entry_offset_ p) ++ le_split 4 (num_entries_ p).

Definition enc_entry_header (e : entry_header) : list byte :=
  le_split 4 (entry_length_ e) ++ le_split 4 (name_offset_ e) ++ le_split 4 (vector_length_ e)
  ++ le_split 1 (data_type_ e) ++ le_split 1 (flags_ e) ++ le_split 1 (data_units_ e)
  ++ le_split 1 (data_var_ e) ++ le_split 4 (data_offset_ e).

(** The data of an entry: the 8 bytes of a scalar, or the bytes of a vector. *)
Inductive item : Type :=
| Scalar (data : list byte)
| Vector (data : list byte).

(** An entry as the JVM writes it: header, name with its NUL, padding, data, padding. *)
Record pd_entry : Type := {
  pe_name : list byte;
  pe_type : Z;
  pe_flags : Z;
  pe_units : Z;
  pe_var : Z;
  pe_pad : list byte;
  pe_item : item;
  pe_tail : list byte;
}.

Definition item_bytes (i : item) : list byte :=
  match i with Scalar d | Vector d => d end.

Definition item_vlen (i : item) : Z :=
  match i with Scalar _ => 0 | Vector d => Z.of_nat (length d) end.

(** What follows an entry's header. *)
Definition enc_body (e : pd_entry) : list byte :=
  pe_name e ++ Byte.x00 :: pe_pad e ++ item_bytes (pe_item e) ++ pe_tail e.

Definition pd_data_offset (e : pd_entry) : Z :=
  sizeof_entry + Z.of_nat (length (pe_name e)) + 1 + Z.of_nat (length (pe_pad e)).

Definition pd_header (e : pd_entry) : entry_header :=
  {| entry_length_ := sizeof_entry + Z.of_nat (length (enc_body e));
     name_offset_ := sizeof_entry;
     vector_length_ := item_vlen (pe_item e);
     data_type_ := pe_type e; flags_ := pe_flags e;
     data_units_ := pe_units e; data_var_ := pe_var e;
     data_offset_ := pd_data_offset e |}.

Definition enc_entry (e : pd_entry) : list byte := enc_entry_header (pd_header e) ++ enc_body e.

(** A whole file: the prologue's own numbers are free, the offset and the count are computed. *)
Record pd_file : Type := {
  pf_accessible : Z;
  pf_used : Z;
  pf_overflow : Z;
  pf_modify_time : Z;
  pf_gap : list byte;
  pf_entries : list pd_entry;
  pf_rest : list byte;
}.

Definition pf_header : perfdata_header :=
  {| magic_ := 0xc0c0feca; byte_order_ := 1; major_ := 2; minor_ := 0 |}.

Definition pf_prologue (f : pd_file) : buffer_prologue :=
  {| accessible_ := pf_accessible f; used_ := pf_used f; overflow_ := pf_overflow f;
     modify_time_ := pf_modify_time f;
     entry_offset_ := sizeof_header + sizeof_prologue + Z.of_nat (length (pf_gap f));
     num_entries_ := Z.of_nat (length (pf_entries f)) |}.

Definition enc_file (f : pd_file) : list byte :=
  enc_header pf_header ++ enc_prologue (pf_prologue f) ++ pf_gap f
  ++ concat (map enc_entry (pf_entries f)) ++ pf_rest f.

(** *** Well-formedness *)

Definition is_u8 (z : Z) : Prop := 0 <= z < 2 ^ 8.

Definition wf_item (ty : Z) (i : item) : Prop :=
  match i with
  | Scalar d => ty = 74 -> length d = 8%nat
  | Vector d => (0 < length d)%nat
  end.

Definition wf_entry (e : pd_entry) : Prop :=
  Forall (fun b => byte.unsigned b <> 0) (pe_name e)
  /\ is_u8 (pe_type e) /\ is_u8 (pe_flags e) /\ is_u8 (pe_units e) /\ is_u8 (pe_var e)
  /\ wf_item (pe_type e) (pe_item e).

Definition wf_header (h : perfdata_header) : Prop :=
  0 <= magic_ h < 2 ^ 32 /\ is_u8 (byte_order_ h) /\ is_u8 (major_ h) /\ is_u8 (minor_ h).

Definition wf_file (f : pd_file) : Prop :=
  is_u8 (pf_accessible f) /\ in_sint 32 (pf_used f) = true
  /\ in_sint 32 (pf_overflow f) = true /\ in_sint 64 (pf_modify_time f) = true
  /\ Forall wf_entry (pf_entries f)
  /\ Z.of_nat (length (enc_file f)) < 2 ^ 31.

(** ** What the parser should print *)

(** The entries it understands: 64-bit scalars, and constant or variable strings of bytes. *)
Definition supported (e : pd_entry) : bool :=
  match pe_item e with
  | Scalar _ => pe_type e =? 74
  | Vector _ => (pe_type e =? 66) && (pe_units e =? 5) && ((pe_var e =? 1) || (pe_var e =? 3))
  end.

Definition when_gen (e : pd_entry) (ev : event) : list event :=
  if is_generation (pe_name e) then [ev] else [].

Definition entry_events (e : pd_entry) : list event :=
  when_gen e (Print_name (pe_name e)) ++
  match pe_item e with
  | Scalar d =>
      if supported e then when_gen e (Print_int (wrapS 64 (le_combine d)))
      else [Err_monitor (pe_type e)]
  | Vector d =>
      if supported e then when_gen e (Print_str (c_str d))
      else [Err_vector (pe_type e) (pe_units e) (pe_var e)]
  end.

(** The events of a list of entries, which stop with the first unsupported one. *)
Fixpoint spec_events (es : list pd_entry) : list event :=
  match es with
  | [] => [Delete_buf]
  | e :: es' => entry_events e ++ (if supported e then spec_events es' else [])
  end.

(** The message for the first check a header fails, if any. *)
Definition header_error (h : perfdata_header) : option event :=
  if negb (magic_ h =? 0xc0c0feca) then Some (Err_magic (magic_ h))
  else if negb ((major_ h =? 2) && (minor_ h =? 0)) then Some (Err_version (major_ h) (minor_ h))
  else if negb (byte_order_ h =? 1) then Some Err_bigendian
  else None.

(** ** Lemmas: decoding what was encoded *)

Ltac decode_fields :=
  repeat (rewrite <- ?app_assoc; cbn -[le_split get_u get_s];
    first [ rewrite get_u_app by (simpl; unfold is_u8 in *; lia)
          | rewrite get_s_app by (done || lia) ]).

Lemma header_of_enc h tl : wf_header h -> header_of (enc_header h ++ tl) = h.
Proof.
  intros (? & ? & ? & ?). destruct h; cbn in * |-.
  unfold header_of, enc_header. decode_fields. done.
Qed.

Lemma prologue_of_enc p tl :
  is_u8 (accessible_ p) -> in_sint 32 (used_ p) = true -> in_sint 32 (overflow_ p) = true ->
  in_sint 64 (modify_time_ p) = true -> in_sint 32 (entry_offset_ p) = true ->
  in_sint 32 (num_entries_ p) = true ->
  prologue_of (enc_prologue p ++ tl) = p.
Proof.
  intros. destruct p; cbn in * |-.
  unfold prologue_of, enc_prologue. decode_fields. done.
Qed.

Lemma entry_of_enc e tl :
  in_sint 32 (entry_length_ e) = true -> in_sint 32 (name_offset_ e) = true ->
  in_sint 32 (vector_length_ e) = true -> is_u8 (data_type_ e) -> is_u8 (flags_ e) ->
  is_u8 (data_units_ e) -> is_u8 (data_var_ e) -> in_sint 32 (data_offset_ e) = true ->
  entry_of (enc_entry_header e ++ tl) = e.
Proof.
  intros. destruct e; cbn in * |-.
  unfold entry_of, enc_entry_header. decode_fields. done.
Qed.

Lemma length_enc_header h : length (enc_header h) = 7%nat.
Proof. done. Qed.

Lemma length_enc_prologue p : length (enc_prologue p) = 25%nat.
Proof. done. Qed.

Lemma length_enc_entry_header e : length (enc_entry_header e) = 20%nat.
Proof. done. Qed.

#[export] Hint Rewrite length_enc_header length_enc_prologue length_enc_entry_header : cfields.

Ltac len_solve :=
  unfold in_sint, pd_data_offset, enc_entry, enc_body, enc_file, sizeof_header, sizeof_prologue,
    sizeof_entry in *;
  autorewrite with cfields in *; cbn [length] in *; bool_solve; lia.

(** ** Lemmas: the name filter *)

Lemma starts_with_spec pat s : starts_with pat s = true <-> exists tl, s = pat ++ tl.
Proof.
  revert s. induction pat as [|p pat IH]; intros s; simpl.
  - split; [eauto|done].
  - destruct s as [|c s]; [split; [done|by intros [? ?]]|].
    rewrite andb_true_iff, IH. split.
    + intros [Hp%Byte.byte_dec_bl [tl ->]]. subst. by exists tl.
    + intros [tl [= -> ->]]. split; [by apply Byte.byte_dec_lb|eauto].
Qed.

Lemma find_from_spec pat s i :
  find_from pat s i = 2 ^ 64 - 1 \/ i <= find_from pat s i <= i + Z.of_nat (length s).
Proof.
  revert i. induction s as [|c s IH]; intros i; simpl; case_match; try lia.
  specialize (IH (i + 1)). lia.
Qed.

Lemma find_from_found pat s i :
  (exists pre tl, s = pre ++ pat ++ tl) -> i <= find_from pat s i <= i + Z.of_nat (length s).
Proof.
  revert i. induction s as [|c s IH]; intros i (pre & tl & Hs); simpl; case_match eqn:E; try lia.
  - destruct pre; [|done]. apply not_true_iff_false in E. destruct E.
    apply starts_with_spec. eauto.
  - destruct pre as [|c' pre]; simplify_eq/=.
    + apply not_true_iff_false in E. destruct E. apply starts_with_spec. eauto.
    + specialize (IH (i + 1) ltac:(eauto)). lia.
Qed.

Lemma find_from_sound pat s i :
  find_from pat s i <> 2 ^ 64 - 1 -> exists pre tl, s = pre ++ pat ++ tl.
Proof.
  revert i. induction s as [|c s IH]; intros i; simpl; case_match eqn:E.
  - intros _. apply starts_with_spec in E as [tl ->]. by exists [], tl.
  - done.
  - intros _. apply starts_with_spec in E as [tl ->]. by exists [], tl.
  - intros (pre & tl & ->)%IH. by exists (c :: pre), tl.
Qed.

(** ** Lemmas: one entry *)

Lemma byte_at_app a b c n : n = Z.of_nat (length a) -> byte_at (a ++ b :: c) n = Some b.
Proof.
  intros ->. unfold byte_at. rewrite (proj2 (Z.leb_le _ _)), Nat2Z.id by lia.
  rewrite lookup_app_r, Nat.sub_diag by lia. done.
Qed.

Lemma scan_name_spec a name c k m :
  Forall (fun b => byte.unsigned b <> 0) name -> (length name < k)%nat ->
  scan_name (a ++ name ++ Byte.x00 :: c) k (Z.of_nat (length a)) m
  = mret (m + Z.of_nat (length name)).
Proof.
  intros Hn. revert a k m. induction Hn as [|b name Hb _ IH]; intros a k m Hk;
    (destruct k as [|k]; [simpl in Hk; lia|]); simpl; rewrite byte_at_app by done;
    unfold or_undef; rewrite bind_ret_l.
  - simpl. f_equal. lia.
  - rewrite (proj2 (Z.eqb_neq _ _)) by done.
    specialize (IH (a ++ [b]) k (m + 1) ltac:(simpl in Hk; lia)).
    rewrite <- app_assoc in IH. simpl in IH.
    replace (Z.of_nat (length a) + 1) with (Z.of_nat (length (a ++ [b])))
      by (rewrite length_app; simpl; lia).
    rewrite IH. f_equal. lia.
Qed.

Lemma emit_if_bind {A} (b : bool) e (k : unit -> prog event A) :
  (emit_if b e ≫= k) = let '(l, r) := k tt in ((if b then [e] else []) ++ l, r).
Proof. destruct b; cbn; by destruct (k tt). Qed.

Lemma entry_of_pd e tl :
  wf_entry e -> Z.of_nat (length (enc_entry e)) < 2 ^ 31 ->
  entry_of (enc_entry_header (pd_header e) ++ tl) = pd_header e.
Proof.
  intros (_ & ? & ? & ? & ? & ?) Hlen.
  assert (item_vlen (pe_item e) <= Z.of_nat (length (item_bytes (pe_item e))))
    by (destruct (pe_item e); simpl; lia).
  assert (0 <= item_vlen (pe_item e)) by (destruct (pe_item e); simpl; lia).
  apply entry_of_enc; cbn [entry_length_ name_offset_ vector_length_ data_type_ flags_ data_units_
    data_var_ data_offset_ pd_header]; try done; len_solve.
Qed.

(** Where the parts of an entry are, in a buffer that holds it after [pre]. *)
Section entry_layout.
Context (pre post : list byte) (e : pd_entry).
Context (Hwf : wf_entry e).
Let buf := pre ++ enc_entry e ++ post.
Let pos := Z.of_nat (length pre).
Context (Hlen : Z.of_nat (length buf) < 2 ^ 31).

Lemma buf_bounds :
  Z.of_nat (length pre) + Z.of_nat (length (enc_entry e)) <= Z.of_nat (length buf).
Proof. subst buf. rewrite !length_app. lia. Qed.

Lemma layout_header : peek buf pos sizeof_entry = Some (enc_entry_header (pd_header e)).
Proof. subst buf. unfold enc_entry. rewrite <- app_assoc. by apply peek_app. Qed.

Lemma layout_name : peek buf (pos + sizeof_entry) (Z.of_nat (length (pe_name e))) = Some (pe_name e).
Proof.
  subst buf. unfold enc_entry, enc_body. rewrite <- !app_assoc, app_assoc.
  apply peek_app; [|done]. len_solve.
Qed.

Lemma layout_data d :
  (d = item_bytes (pe_item e)) ->
  peek buf (pos + pd_data_offset e) (Z.of_nat (length d)) = Some d.
Proof.
  intros ->. subst buf. unfold enc_entry, enc_body.
  replace (pre ++ _) with
    ((pre ++ enc_entry_header (pd_header e) ++ pe_name e ++ Byte.x00 :: pe_pad e)
     ++ item_bytes (pe_item e) ++ (pe_tail e ++ post))
    by app_norm.
  apply peek_app; [|done]. len_solve.
Qed.

Lemma layout_scan :
  scan_name buf (Z.to_nat (Z.of_nat (length buf) - (pos + sizeof_entry))) (pos + sizeof_entry) 0
  = mret (Z.of_nat (length (pe_name e))).
Proof.
  pose proof buf_bounds as Hb.
  assert (Z.of_nat (length (pe_name e)) + 21 <= Z.of_nat (length (enc_entry e))) by len_solve.
  replace buf with ((pre ++ enc_entry_header (pd_header e)) ++ pe_name e ++ Byte.x00 ::
    ((pe_pad e ++ item_bytes (pe_item e) ++ pe_tail e) ++ post)) at 1
    by (subst buf; unfold enc_entry, enc_body; app_norm).
  replace (pos + sizeof_entry) with (Z.of_nat (length (pre ++ enc_entry_header (pd_header e)))) at 2
    by len_solve.
  rewrite scan_name_spec; [done|apply Hwf|unfold sizeof_entry; lia].
Qed.

Lemma parse_entry_enc :
  parse_entry buf (Z.of_nat (length buf)) pos
  = (entry_events e,
     Done (if supported e then Some (pos + Z.of_nat (length (enc_entry e))) else None)).
Proof.
  pose proof buf_bounds as Hb. pose proof layout_data as Hdata.
  assert (Hel : Z.of_nat (length (enc_entry e)) = sizeof_entry + Z.of_nat (length (enc_body e)))
    by len_solve.
  assert (Hdo : 0 <= pd_data_offset e <= Z.of_nat (length (enc_entry e))) by len_solve.
  unfold parse_entry. rewrite layout_header. cbn [or_undef]. rewrite bind_ret_l.
  rewrite <- (app_nil_r (enc_entry_header _)), entry_of_pd by (done || lia).
  cbn [name_offset_ pd_header data_offset_ vector_length_ data_type_ data_units_ data_var_
       entry_length_].
  rewrite (add_int32_ok pos sizeof_entry), bind_ret_l by len_solve.
  rewrite layout_scan, bind_ret_l, layout_name. cbn [or_undef]. rewrite bind_ret_l.
  rewrite emit_if_bind, c_str_id by apply Hwf.
  rewrite (add_int32_ok pos (pd_data_offset e)), bind_ret_l by len_solve.
  unfold entry_events, supported, when_gen.
  destruct Hwf as (_ & _ & _ & _ & _ & Hit).
  destruct (pe_item e) as [d|d]; cbn [item_vlen item_bytes wf_item] in *.
  - destruct (Z.eqb_spec (pe_type e) 74) as [Ht|Ht]; cbn [negb Z.eqb]; [|done].
    change 8 with (Z.of_nat 8). rewrite <- (Hit Ht), (Hdata d) by done.
    cbn [or_undef]. rewrite bind_ret_l, emit_if_bind, add_int32_ok by len_solve.
    rewrite bind_ret_l, Hel. unfold get_s. rewrite take_ge, (Hit Ht) by lia.
    cbn [fst mret prog_ret]. by rewrite app_nil_r.
  - rewrite (proj2 (Z.eqb_neq (Z.of_nat (length d)) 0)) by lia.
    rewrite (proj2 (Z.ltb_ge (Z.of_nat (length d)) 0)) by lia.
    rewrite <- !negb_orb, <- !negb_andb.
    destruct (_ && _); cbn [negb]; [|done].
    rewrite (Hdata d) by done. cbn [or_undef].
    rewrite bind_ret_l, emit_if_bind, add_int32_ok by len_solve.
    rewrite bind_ret_l, Hel. cbn [mret prog_ret]. by rewrite app_nil_r.
Qed.

End entry_layout.

(** ** Lemmas: the whole file *)

Lemma parse_entries_enc es : forall pre post,
  Forall wf_entry es ->
  Z.of_nat (length (pre ++ concat (map enc_entry es) ++ post)) < 2 ^ 31 ->
  (let '(l, r) := parse_entries (pre ++ concat (map enc_entry es) ++ post)
       (Z.of_nat (length (pre ++ concat (map enc_entry es) ++ post))) (length es)
       (Z.of_nat (length pre)) in
   (l ++ (match r with Done true => [Delete_buf] | _ => [] end), r))
  = (spec_events es, Done (forallb supported es)).
Proof.
  induction es as [|e es IH]; intros pre post Hwf Hlen; [done|].
  inversion_clear Hwf as [|? ? He Hes]. cbn [map concat length] in *.
  replace (pre ++ (enc_entry e ++ concat (map enc_entry es)) ++ post)
    with (pre ++ enc_entry e ++ (concat (map enc_entry es) ++ post)) in * by app_norm.
  cbn [parse_entries spec_events forallb]. rewrite parse_entry_enc by done.
  rewrite bind_done. destruct (supported e); cbn [andb mret prog_ret]; [|by rewrite !app_nil_r].
  specialize (IH (pre ++ enc_entry e) post Hes).
  rewrite <- !app_assoc, (length_app pre (enc_entry e)), Nat2Z.inj_add in IH.
  specialize (IH Hlen).
  destruct (parse_entries _ _ _ _) as [l r]. injection IH as <- ->.
  by rewrite <- app_assoc.
Qed.

(** Every event a computation logs satisfies [P]. *)
Definition logs_only {A} (P : event -> Prop) (m : prog event A) : Prop := Forall P (fst m).

Lemma logs_only_bind {A B} P (m : prog event A) (k : A -> prog event B) :
  logs_only P m -> (forall a, snd m = Done a -> logs_only P (k a)) -> logs_only P (m ≫= k).
Proof.
  destruct m as [l [a|u|e]]; intros Hm Hk; [|done..].
  unfold logs_only in *. rewrite bind_done. specialize (Hk a eq_refl).
  destruct (k a). by apply Forall_app.
Qed.

Lemma logs_only_silent {A} P (m : prog event A) : fst m = [] -> logs_only P m.
Proof. unfold logs_only. by intros ->. Qed.

(** Names are printed only when they contain the key. *)
Definition name_filtered (ev : event) : Prop :=
  match ev with
  | Print_name n => exists pre tl, n = pre ++ generation_key ++ tl
  | _ => True
  end.

Lemma is_generation_sound name : is_generation name = true -> exists pre tl, name = pre ++ generation_key ++ tl.
Proof.
  unfold is_generation. case_match eqn:E; [done|]. intros _. apply (find_from_sound _ _ 0).
  intros Hf. rewrite Hf in E. vm_compute in E. done.
Qed.

Lemma is_generation_complete name :
  Z.of_nat (length name) < 2 ^ 31 ->
  (exists pre tl, name = pre ++ generation_key ++ tl) -> is_generation name = true.
Proof.
  intros Hlen Hex%(find_from_found _ _ 0). unfold is_generation.
  rewrite wrapS_small; [|lia|unfold in_sint; bool_solve; lia].
  case_match; [bool_solve; lia|done].
Qed.

Lemma scan_name_silent buf k : forall n m, fst (scan_name buf k n m) = [].
Proof.
  induction k as [|k IH]; intros n m; simpl; [done|].
  destruct (byte_at buf n) as [b|]; [|done]. unfold or_undef. rewrite bind_ret_l.
  case_match; [done|apply IH].
Qed.

(** What the scan counts: the bytes of the buffer from [n] on, none of them NUL. *)
Lemma scan_name_no_nul buf k : forall n m r,
  snd (scan_name buf k n m) = Done r -> 0 <= n ->
  0 <= r - m /\ Forall (fun b => byte.unsigned b <> 0) (take (Z.to_nat (r - m)) (drop (Z.to_nat n) buf)).
Proof.
  induction k as [|k IH]; intros n m r; simpl.
  { intros [= ->] _. rewrite Z.sub_diag. split; [lia|constructor]. }
  destruct (byte_at buf n) as [b|] eqn:Hb; [|done]. unfold or_undef. rewrite bind_ret_l.
  case_match eqn:Hz; intros Hr Hn.
  { injection Hr as ->. rewrite Z.sub_diag. split; [lia|constructor]. }
  apply IH in Hr as [Hle Hf]; [|lia]. split; [lia|].
  unfold byte_at in Hb. rewrite (proj2 (Z.leb_le _ _)) in Hb by lia.
  rewrite (drop_S _ _ _ Hb).
  replace (Z.to_nat (r - m)) with (S (Z.to_nat (r - (m + 1)))) by lia.
  replace (Z.to_nat (n + 1)) with (S (Z.to_nat n)) in Hf by lia.
  constructor; [by apply Z.eqb_neq|done].
Qed.

Lemma or_undef_done {A} u (o : option A) a : snd (or_undef (L := event) u o) = Done a -> o = Some a.
Proof. destruct o; simpl; congruence. Qed.

Lemma scanned_name_c_str buf k n r name :
  snd (scan_name buf k n 0) = Done r -> peek buf n r = Some name -> c_str name = name.
Proof.
  intros Hr Hp. pose proof (peek_Some _ _ _ _ Hp) as (Hn & _ & _).
  apply scan_name_no_nul in Hr as [_ Hf]; [|done]. rewrite Z.sub_0_r in Hf.
  unfold peek in Hp. case_match; [|done]. injection Hp as <-. by apply c_str_id.
Qed.

Lemma logs_or_undef {A} P u (o : option A) : logs_only P (or_undef u o).
Proof. apply logs_only_silent. by destruct o. Qed.

Lemma logs_add_int32 P a b : logs_only P (add_int32 a b).
Proof. apply logs_only_silent. unfold add_int32. by case_match. Qed.

Lemma logs_emit_if P b ev : P ev -> logs_only P (emit_if b ev).
Proof. intros. unfold logs_only. destruct b; by repeat constructor. Qed.

(** One step of a proof that a computation logs only events satisfying a predicate. *)
Ltac logs_step :=
  lazymatch goal with
  | |- logs_only _ (or_undef _ _) => apply logs_or_undef
  | |- logs_only _ (add_int32 _ _) => apply logs_add_int32
  | |- logs_only _ (emit_if _ _) => apply logs_emit_if
  | |- logs_only _ (emit _) => constructor; [|constructor]
  | |- logs_only _ (mret _) => constructor
  | |- logs_only _ (raise _) => constructor
  | |- logs_only _ (_ ≫= _) => apply logs_only_bind; [|intros ? ?]
  | |- logs_only _ (if ?b then _ else _) => destruct b
  end.

Lemma parse_entry_filtered buf len pos : logs_only name_filtered (parse_entry buf len pos).
Proof.
  unfold parse_entry. logs_step; [logs_step|]. logs_step; [logs_step|].
  apply logs_only_bind; [by apply logs_only_silent, scan_name_silent|intros nlen Hn].
  apply logs_only_bind; [logs_step|intros name Hname%or_undef_done].
  apply logs_only_bind.
  { unfold emit_if. case_match eqn:Hg; [|constructor]. constructor; [|constructor].
    simpl. rewrite (scanned_name_c_str _ _ _ _ _ Hn Hname). by apply is_generation_sound. }
  intros _ _. by repeat logs_step.
Qed.

Lemma parse_entries_filtered buf len k : forall pos,
  logs_only name_filtered (parse_entries buf len k pos).
Proof.
  induction k as [|k IH]; intros pos; simpl; [constructor|].
  apply logs_only_bind; [apply parse_entry_filtered|]. intros [pos'|] _; [apply IH|constructor].
Qed.

Lemma parse_peek_header f : peek (enc_file f) 0 sizeof_header = Some (enc_header pf_header).
Proof. by apply (peek_app [] (enc_header pf_header)). Qed.

Lemma parse_peek_prologue f :
  peek (enc_file f) sizeof_header sizeof_prologue = Some (enc_prologue (pf_prologue f)).
Proof. by apply (peek_app (enc_header pf_header) (enc_prologue (pf_prologue f))). Qed.

Lemma parse_header_done h rest :
  wf_header h -> peek (enc_header h ++ rest) 0 sizeof_header = Some (enc_header h).
Proof. intros. by apply (peek_app [] (enc_header h) rest). Qed.

(** What [parse] does first on a file whose size fits an [int]. *)
Lemma parse_start (contents : list byte) :
  Z.of_nat (length contents) < 2 ^ 31 ->
  wrapS 32 (Z.of_nat (length contents)) = Z.of_nat (length contents)
  /\ (Z.of_nat (length contents) <? 0) = false
  /\ take (Z.to_nat (Z.of_nat (length contents))) contents = contents.
Proof.
  intros Hlen. split; [apply wrapS_small; [lia|]|split].
  - unfold in_sint. bool_solve; lia.
  - apply Z.ltb_ge. lia.
  - rewrite Nat2Z.id. by apply take_ge.
Qed.

Lemma length_entries_le es : (length es <= length (concat (map enc_entry es)))%nat.
Proof. induction es as [|e es IH]; simpl; [lia|]. rewrite length_app. lia. Qed.

Lemma spec_events_release es : Delete_buf ∈ spec_events es <-> forallb supported es = true.
Proof.
  assert (Hno : forall e, Delete_buf ∉ entry_events e).
  { intros e. unfold entry_events, when_gen. rewrite list_elem_of_In.
    repeat case_match; simpl; intuition discriminate. }
  induction es as [|e es IH]; simpl; [by rewrite list_elem_of_singleton|].
  rewrite elem_of_app, andb_true_iff. specialize (Hno e).
  destruct (supported e); [tauto|]. rewrite elem_of_nil. intuition discriminate.
Qed.

Lemma parse_wf (filepath : list byte) (f : pd_file) :
  wf_file f ->
  parse filepath (Some (enc_file f))
  = (New_buf (Z.of_nat (length (enc_file f))) :: spec_events (pf_entries f), Done tt).
Proof.
  intros (Hacc & Husd & Hovf & Hmod & Hes & Hlen).
  pose proof (length_entries_le (pf_entries f)) as Hcount.
  pose proof (parse_entries_enc (pf_entries f)
    (enc_header pf_header ++ enc_prologue (pf_prologue f) ++ pf_gap f) (pf_rest f) Hes) as Hloop.
  replace ((enc_header _ ++ _ ++ _) ++ _) with (enc_file f) in Hloop
    by (unfold enc_file; app_norm).
  specialize (Hloop Hlen).
  assert (Z.of_nat (length (pf_entries f)) < 2 ^ 31)
    by (unfold enc_file in Hlen; rewrite !length_app in Hlen; lia).
  clear Hcount. unfold parse.
  destruct (parse_start (enc_file f) Hlen) as (-> & -> & ->).
  rewrite bind_emit, parse_peek_header, parse_peek_prologue. cbn [or_undef].
  rewrite bind_ret_l, <- (app_nil_r (enc_header _)), header_of_enc by done.
  cbn [magic_ major_ minor_ byte_order_ pf_header negb andb Z.eqb Pos.eqb].
  rewrite bind_ret_l, <- (app_nil_r (enc_prologue _)), prologue_of_enc
    by (cbn [pf_prologue accessible_ used_ overflow_ modify_time_ entry_offset_ num_entries_];
        done || (clear Hloop; len_solve)).
  cbn [num_entries_ entry_offset_ pf_prologue]. rewrite Nat2Z.id.
  rewrite !(length_app (enc_header _)), (length_app (enc_prologue _)), length_enc_header,
    length_enc_prologue, !Nat2Z.inj_add, Z.add_assoc in Hloop.
  change (Z.of_nat 7 + Z.of_nat 25) with (sizeof_header + sizeof_prologue) in Hloop.
  destruct (parse_entries _ _ _ _) as [l r]. injection Hloop as <- ->.
  rewrite bind_done. by destruct (forallb _ _).
Qed.


(** ** Properties *)

(** C6. Round trip: on every well-formed performance-data file, [parse] stays inside the buffer,
    terminates normally, and logs exactly the events of the entries written, in their order, up to
    the first unsupported entry; the buffer is released exactly when none is unsupported. *)
Theorem parse_encoded (filepath : list byte) (f : pd_file) :
  wf_file f ->
  parse filepath (Some (enc_file f))
  = (New_buf (Z.of_nat (length (enc_file f))) :: spec_events (pf_entries f), Done tt).
Proof. apply parse_wf. Qed.

(** C40. Every header check answers as the code writes it: on a file that starts with a header the
    parser refuses, [parse] logs the message of the first failed check (magic, then version, then
    byte order) and nothing after it; the buffer it allocated is not released. *)
Theorem parse_rejects (filepath : list byte) (h : perfdata_header) (rest : list byte) (ev : event) :
  wf_header h -> header_error h = Some ev ->
  Z.of_nat (length (enc_header h ++ rest)) < 2 ^ 31 ->
  parse filepath (Some (enc_header h ++ rest))
  = ([New_buf (Z.of_nat (length (enc_header h ++ rest))); ev], Done tt).
Proof.
  intros Hwf Herr Hlen. unfold parse.
  destruct (parse_start _ Hlen) as (-> & -> & ->).
  rewrite bind_emit, parse_header_done by done. cbn [or_undef].
  rewrite bind_ret_l, <- (app_nil_r (enc_header h)), header_of_enc by done.
  unfold header_error in Herr.
  destruct (negb (magic_ h =? _)); [by simplify_eq|].
  destruct (negb (_ && _)); [by simplify_eq|].
  destruct (negb (byte_order_ h =? 1)); by simplify_eq.
Qed.

(** No offset is compared with the length of the file: [parse] reads out of bounds on every
    file shorter than a header, and on every file with an accepted header that is shorter than a
    header and a prologue. *)
Theorem parse_truncated (filepath contents : list byte) :
  (length contents < 7)%nat
  \/ (exists h rest, contents = enc_header h ++ rest /\ wf_header h /\ header_error h = None
       /\ (length contents < 32)%nat) ->
  parse filepath (Some contents)
  = ([New_buf (Z.of_nat (length contents))], Undefined Out_of_bounds).
Proof.
  intros Hshort.
  assert (Hlen : Z.of_nat (length contents) < 2 ^ 31) 
    by (destruct Hshort as [?|(? & ? & -> & ? & ? & ?)]; lia).
  unfold parse. destruct (parse_start _ Hlen) as (-> & -> & ->). rewrite bind_emit.
  destruct Hshort as [Hs | (h & rest & -> & Hwf & Herr & Hs)].
  - by rewrite (peek_None contents 0) by (unfold sizeof_header; lia).
  - rewrite parse_header_done by done. cbn [or_undef].
    rewrite bind_ret_l, <- (app_nil_r (enc_header h)), header_of_enc by done.
    unfold header_error in Herr.
    destruct (negb (magic_ h =? _)); [done|].
    destruct (negb (_ && _)); [done|].
    destruct (negb (byte_order_ h =? 1)); [done|].
    rewrite app_nil_r, peek_None by (unfold sizeof_header, sizeof_prologue; lia). done.
Qed.

(** Whatever bytes the file holds, and even when the run ends in undefined behaviour or by an
    exception, every name printed contains [sun.gc.generation]. *)
Theorem parse_prints_filtered (filepath : list byte) (file : option (list byte)) (name : list byte) :
  Print_name name ∈ fst (parse filepath file) ->
  exists pre tl, name = pre ++ generation_key ++ tl.
Proof.
  intros Hin. assert (Hf : logs_only name_filtered (parse filepath file)).
  { unfold parse. destruct file as [contents|]; [|by repeat constructor].
    repeat first [apply parse_entries_filtered | logs_step]; done. }
  unfold logs_only in Hf. rewrite Forall_forall in Hf. exact (Hf _ Hin).
Qed.

(** The early returns of the entry loop leak the buffer: on a well-formed file, the buffer is
    released if and only if the file has no unsupported entry. *)
Theorem parse_releases_iff (filepath : list byte) (f : pd_file) :
  wf_file f ->
  (Delete_buf ∈ fst (parse filepath (Some (enc_file f))) <-> forallb supported (pf_entries f) = true).
Proof.
  intros Hwf. rewrite parse_wf by done. cbn [fst].
  rewrite elem_of_cons, <- spec_events_release. intuition discriminate.
Qed.

(** ** Witnesses *)

Definition bytes_of (s : String.string) : list byte := String.list_byte_of_string s.

(** A two-entry file: a string entry the filter keeps and a scalar it drops. *)
Definition sample_entries : list pd_entry :=
  [ {| pe_name := bytes_of "sun.gc.generation.0.name"; pe_type := 66; pe_flags := 0;
       pe_units := 5; pe_var := 1; pe_pad := [];
       pe_item := Vector (bytes_of "new" ++ [Byte.x00; Byte.x00]); pe_tail := [Byte.x00] |};
    {| pe_name := bytes_of "sun.gc.generation.1.spaces"; pe_type := 74; pe_flags := 1;
       pe_units := 4; pe_var := 2; pe_pad := [Byte.x00];
       pe_item := Scalar (le_split 8 (-1)); pe_tail := [] |};
    {| pe_name := bytes_of "java.cls.loadedClasses"; pe_type := 74; pe_flags := 1;
       pe_units := 4; pe_var := 2; pe_pad := [];
       pe_item := Scalar (le_split 8 77); pe_tail := [] |} ].

(** An entry of a type the parser does not know (an [int] scalar). *)
Definition sample_unsupported : pd_entry :=
  {| pe_name := bytes_of "x"; pe_type := 73; pe_flags := 0; pe_units := 1; pe_var := 1;
     pe_pad := []; pe_item := Scalar (le_split 4 5); pe_tail := [] |}.

Definition sample_file (es : list pd_entry) : pd_file :=
  {| pf_accessible := 1; pf_used := 200; pf_overflow := 0; pf_modify_time := 123456789;
     pf_gap := []; pf_entries := es; pf_rest := [Byte.xff] |}.

Ltac wf_sample :=
  repeat split; repeat constructor; try (vm_compute; congruence); try done.

Lemma parse_encoded_witness :
  wf_file (sample_file sample_entries)
  /\ parse [] (Some (enc_file (sample_file sample_entries)))
     = ([New_buf 191; Print_name (bytes_of "sun.gc.generation.0.name"); Print_str (bytes_of "new");
         Print_name (bytes_of "sun.gc.generation.1.spaces"); Print_int (-1); Delete_buf], Done tt).
Proof.
  assert (Hwf : wf_file (sample_file sample_entries)) by wf_sample.
  split; [exact Hwf|]. rewrite (parse_encoded [] _ Hwf). vm_compute. reflexivity.
Defined.

Lemma parse_rejects_witness :
  wf_header {| magic_ := 0xc0c0feca; byte_order_ := 0; major_ := 1; minor_ := 0 |}
  /\ parse [] (Some (enc_header {| magic_ := 0xc0c0feca; byte_order_ := 0; major_ := 1; minor_ := 0 |}))
     = ([New_buf 7; Err_version 1 0], Done tt).
Proof.
  assert (Hwf : wf_header {| magic_ := 0xc0c0feca; byte_order_ := 0; major_ := 1; minor_ := 0 |})
    by (repeat split; done).
  split; [exact Hwf|]. apply (parse_rejects [] _ [] (Err_version 1 0) Hwf); reflexivity.
Defined.

Lemma parse_truncated_witness :
  parse [] (Some (enc_header pf_header ++ [Byte.x01]))
  = ([New_buf 8], Undefined Out_of_bounds).
Proof.
  apply (parse_truncated [] (enc_header pf_header ++ [Byte.x01])).
  right. exists pf_header, [Byte.x01]. repeat split; try done. vm_compute. lia.
Defined.

Lemma parse_prints_filtered_witness :
  exists pre tl, bytes_of "sun.gc.generation.0.name" = pre ++ generation_key ++ tl.
Proof.
  apply (parse_prints_filtered [] (Some (enc_file (sample_file sample_entries)))).
  apply list_elem_of_In. vm_compute. tauto.
Defined.

Lemma parse_releases_iff_witness :
  wf_file (sample_file (sample_unsupported :: sample_entries))
  /\ ~ (Delete_buf ∈ fst (parse [] (Some (enc_file (sample_file (sample_unsupported :: sample_entries)))))).
Proof.
  assert (Hwf : wf_file (sample_file (sample_unsupported :: sample_entries))) by wf_sample.
  split; [exact Hwf|]. intros Hin. apply (parse_releases_iff [] _ Hwf) in Hin.
  vm_compute in Hin. discriminate Hin.
Defined.
