(* ===== verification/Text.v ===== *)
(** * Numbers as text

    The C++ standard library's conversions the repository uses: [std::to_string] and [operator<<] on
    integers, [std::hex], [std::setw] and [std::stoll], on strings of bytes; and the round trip between
    printing and parsing decimal numbers. *)

From S2P Require Import Prelude.
From Stdlib Require String.
#[local] Open Scope list_scope.

(** A string literal. *)
Definition lit (s : String.string) : list byte := String.list_byte_of_string s.

(** [strncmp(s, t, n) == 0] with [n] the length of [s]. *)
Fixpoint strncmp_prefix (s t : list byte) : bool :=
  match s, t with
  | [], _ => true
  | b :: s', c :: t' => Byte.eqb b c && strncmp_prefix s' t'
  | _ :: _, [] => false
  end.

Lemma strncmp_prefix_spec s t : strncmp_prefix s t = true <-> s `prefix_of` t.
Proof.
  revert t. induction s as [|b s IH]; intros [|c t]; cbn; [by split; auto using prefix_nil..| |].
  - split; [done|]. by intros H%prefix_nil_not.
  - rewrite andb_true_iff, IH. destruct (Byte.eqb b c) eqn:E.
    + apply Byte.byte_dec_bl in E as ->. split; [intros [_ ?]; by apply prefix_cons|]. intros H. split; [done|].
      by apply prefix_cons_inv_2 in H.
    + split; [by intros [? _]|]. intros H. apply prefix_cons_inv_1 in H as ->.
      by rewrite (Byte.byte_dec_lb eq_refl) in E.
Qed.

(** The character of a digit. *)
Definition digit_char (d : Z) : byte := byte.of_Z (if d <? 10 then 48 + d else 87 + d).

(** The digits of [n] in a base, most significant first; [fuel] bounds their number. *)
Fixpoint digits (base : Z) (fuel : nat) (n : Z) : list Z :=
  match fuel with
  | O => []
  | S fuel' => if n <? base then [n] else digits base fuel' (n / base) ++ [n mod base]
  end.

(** A number has at most as many digits as bits. *)
Definition print_nat (base n : Z) : list byte :=
  map digit_char (digits base (S (Z.to_nat (Z.log2 n))) n).

(** [std::to_string], and [ss << n] without manipulators. *)
Definition to_string (z : Z) : list byte :=
  if z <? 0 then byte.of_Z 45 :: print_nat 10 (- z) else print_nat 10 z.

(** [ss << std::hex << n] on an [int64_t]: the digits of its two's complement. *)
Definition to_hex (z : Z) : list byte := print_nat 16 (wrapU 64 z).

(** [std::setw(w)]: pads on the left. *)
Definition setw (w : nat) (s : list byte) : list byte := repeat (byte.of_Z 32) (w - length s) ++ s.

(** ** [std::stoll] *)

Definition is_space (b : byte) : bool :=
  (byte.unsigned b =? 32) || ((9 <=? byte.unsigned b) && (byte.unsigned b <=? 13)).

Definition is_digit (b : byte) : bool := (48 <=? byte.unsigned b) && (byte.unsigned b <=? 57).

Fixpoint skip_spaces (s : list byte) : list byte :=
  match s with
  | b :: s' => if is_space b then skip_spaces s' else s
  | [] => []
  end.

(** The value of the longest prefix of digits. *)
Fixpoint read_digits (s : list byte) (acc : Z) : Z :=
  match s with
  | b :: s' => if is_digit b then read_digits s' (acc * 10 + (byte.unsigned b - 48)) else acc
  | [] => acc
  end.

(** White space, an optional sign, at least one digit; what follows is ignored. *)
Definition stoll (s : list byte) : exn_kind + Z :=
  let s := skip_spaces s in
  let '(neg, s) :=
    match s with
    | b :: s' => if byte.unsigned b =? 45 then (true, s') else if byte.unsigned b =? 43 then (false, s') else (false, s)
    | [] => (false, s)
    end in
  match s with
  | b :: _ =>
      if is_digit b then
        let v := read_digits s 0 in
        let v := if (neg : bool) then - v else v in
        if in_sint 64 v then inr v else inl Out_of_range
      else inl Invalid_argument
  | [] => inl Invalid_argument
  end.

(** ** Lemmas *)

Lemma digits_range base fuel n :
  0 <= n -> 1 < base -> Forall (fun d => 0 <= d < base) (digits base fuel n).
Proof.
  intros Hn Hb. revert n Hn. induction fuel as [|fuel IH]; intros n Hn; cbn; [constructor|].
  destruct (Z.ltb_spec n base); [by constructor|]. apply Forall_app. split.
  - apply IH. by apply Z.div_pos; lia.
  - constructor; [|done]. apply Z.mod_pos_bound. lia.
Qed.

Lemma digit_char_dec d : 0 <= d < 10 -> byte.unsigned (digit_char d) = 48 + d.
Proof.
  intros Hd. unfold digit_char. destruct (Z.ltb_spec d 10); [|lia].
  rewrite byte.unsigned_of_Z. unfold byte.wrap. apply Z.mod_small. lia.
Qed.

Lemma is_digit_char d : 0 <= d < 10 -> is_digit (digit_char d) = true.
Proof. intros Hd. unfold is_digit. rewrite digit_char_dec by done. bool_solve; lia. Qed.

(** Reading the digits back. *)
Lemma read_digits_map l acc :
  Forall (fun d => 0 <= d < 10) l ->
  read_digits (map digit_char l) acc = fold_left (fun a d => a * 10 + d) l acc.
Proof.
  intros Hl. revert acc. induction Hl as [|d l Hd _ IH]; intros acc; cbn; [done|].
  rewrite is_digit_char, digit_char_dec, IH by done. do 2 f_equal. lia.
Qed.

Lemma digits_value base fuel n acc :
  2 <= base -> 0 <= n < 2 ^ Z.of_nat fuel ->
  fold_left (fun a d => a * base + d) (digits base fuel n) acc
  = acc * base ^ Z.of_nat (length (digits base fuel n)) + n.
Proof.
  intros Hb. revert n acc. induction fuel as [|fuel IH]; intros n acc Hn; cbn [digits].
  { cbn in *. lia. }
  destruct (Z.ltb_spec n base); [cbn; lia|].
  rewrite fold_left_app, length_app. cbn [fold_left length]. rewrite IH.
  - rewrite Nat2Z.inj_add, Z.pow_add_r by lia.
    change (base ^ Z.of_nat 1) with (Z.pow_pos base 1). replace (Z.pow_pos base 1) with base by (cbn; lia).
    pose proof (Z.div_mod n base ltac:(lia)). nia.
  - rewrite Nat2Z.inj_succ, Z.pow_succ_r in Hn by lia. split; [by apply Z.div_pos; lia|].
    apply Z.div_lt_upper_bound; [lia|]. nia.
Qed.

(** The digits of a number give it back. *)
Lemma digits_all base n :
  2 <= base -> 0 <= n -> fold_left (fun a d => a * base + d) (digits base (S (Z.to_nat (Z.log2 n))) n) 0 = n.
Proof.
  intros Hb Hn. rewrite digits_value; [lia|done|]. split; [done|].
  rewrite Nat2Z.inj_succ, Z2Nat.id by apply Z.log2_nonneg.
  destruct (Z.eq_dec n 0) as [->|]; [cbn; lia|]. by apply Z.log2_spec; lia.
Qed.

Lemma digits_nonempty base fuel n : exists d l, digits base (S fuel) n = d :: l.
Proof.
  cbn. destruct (n <? base); [eauto|]. destruct (digits base fuel (n / base)); cbn; eauto.
Qed.

Lemma print_nat_value n : 0 <= n -> read_digits (print_nat 10 n) 0 = n.
Proof.
  intros Hn. unfold print_nat. rewrite read_digits_map by (apply digits_range; lia). apply digits_all; lia.
Qed.

Lemma print_nat_head n : 0 <= n -> exists b s, print_nat 10 n = b :: s /\ is_digit b = true.
Proof.
  intros Hn. unfold print_nat.
  destruct (digits_nonempty 10 (Z.to_nat (Z.log2 n)) n) as (d & l & E).
  pose proof (digits_range 10 (S (Z.to_nat (Z.log2 n))) n Hn ltac:(lia)) as Hd.
  rewrite E in *. inversion Hd; subst. exists (digit_char d), (map digit_char l).
  split; [done|]. by apply is_digit_char.
Qed.

(** Parsing what was printed. *)
Lemma stoll_to_string z : in_sint 64 z = true -> stoll (to_string z) = inr z.
Proof.
  intros Hz. unfold to_string, stoll. destruct (Z.ltb_spec z 0).
  - destruct (print_nat_head (- z)) as (b & s & E & Hb); [lia|].
    pose proof (print_nat_value (- z) ltac:(lia)) as Hv. rewrite E in *.
    cbn [skip_spaces]. change (is_space (byte.of_Z 45)) with false. cbv beta iota.
    change (byte.unsigned (byte.of_Z 45) =? 45) with true. cbv beta iota zeta.
    rewrite Hb, Hv, Z.opp_involutive. by rewrite Hz.
  - destruct (print_nat_head z) as (b & s & E & Hb); [lia|].
    pose proof (print_nat_value z ltac:(lia)) as Hv. rewrite E in *.
    assert (Hd : 48 <= byte.unsigned b <= 57) by (unfold is_digit in Hb; bool_solve; lia).
    cbn [skip_spaces]. unfold is_space.
    replace (_ || _) with false by (symmetry; apply orb_false_iff; rewrite andb_false_iff, Z.eqb_neq, !Z.leb_gt; lia).
    destruct (Z.eqb_spec (byte.unsigned b) 45); [lia|].
    destruct (Z.eqb_spec (byte.unsigned b) 43); [lia|]. by rewrite Hb, Hv, Hz.
Qed.
