(* ===== verification/OrdSet.v ===== *)
(** * Ordered containers

    [std::set] and [std::map] as the repository uses them ([ts/common/sysutil.cc],
    [ts/signal_handler.cc]): sorted lists without equivalent elements, ordered by a comparator. The
    comparator is an instance of [Ltb]; the laws the C++ containers require of it are the class
    [StrictWeakOrder], and [StrictTotalOrder] adds that equivalent elements are equal. *)

From S2P Require Import Prelude.
From Stdlib Require Import Sorted.

Class Ltb (A : Type) : Type := ltb : A -> A -> bool.

Class StrictWeakOrder (A : Type) `{Ltb A} : Prop := {
  ltb_irrefl : forall x, ltb x x = false;
  ltb_trans : forall x y z, ltb x y = true -> ltb y z = true -> ltb x z = true;
  ltb_weak : forall x y z, ltb x z = true -> ltb x y = true \/ ltb y z = true;
}.

Class StrictTotalOrder (A : Type) `{Ltb A} : Prop := {
  sto_swo :: StrictWeakOrder A;
  ltb_total : forall x y, ltb x y = false -> ltb y x = false -> x = y;
}.

(** Neither is smaller. *)
Definition equivb {A} `{Ltb A} (x y : A) : bool := negb (ltb x y) && negb (ltb y x).

(** ** [std::set] *)

Section set.
Context {A : Type} `{Ltb A}.

(** [set.insert(x)] *)
Fixpoint set_insert (x : A) (l : list A) : list A :=
  match l with
  | [] => [x]
  | y :: l' => if ltb x y then x :: l else if ltb y x then y :: set_insert x l' else l
  end.

(** The set of the elements of a range. *)
Definition set_of (xs : list A) : list A := fold_left (fun l x => set_insert x l) xs [].

(** [std::set_difference] on two sorted ranges. *)
Fixpoint set_difference (l1 : list A) : list A -> list A :=
  fix inner (l2 : list A) : list A :=
    match l1, l2 with
    | [], _ => []
    | _, [] => l1
    | x :: l1', y :: l2' =>
        if ltb x y then x :: set_difference l1' l2
        else if ltb y x then inner l2'
        else set_difference l1' l2'
    end.

Definition sorted (l : list A) : Prop := StronglySorted (fun x y => ltb x y = true) l.

End set.

(** ** [std::map], with vectors as values *)

Section map.
Context {K V : Type} `{Ltb K}.

(** [map.find(k)] *)
Fixpoint map_find (k : K) (m : list (K * list V)) : option (list V) :=
  match m with
  | [] => None
  | (k', vs) :: m' => if ltb k' k then map_find k m' else if ltb k k' then None else Some vs
  end.

(** [map[k].push_back(v)]: a key that is absent is inserted, one that is present stays. *)
Fixpoint map_push (k : K) (v : V) (m : list (K * list V)) : list (K * list V) :=
  match m with
  | [] => [(k, [v])]
  | (k', vs) :: m' =>
      if ltb k' k then (k', vs) :: map_push k v m'
      else if ltb k k' then (k, [v]) :: m else (k', vs ++ [v]) :: m'
  end.

(** The map a sequence of [push_back]s builds. *)
Definition group_by (l : list (K * V)) : list (K * list V) :=
  fold_left (fun m kv => map_push kv.1 kv.2 m) l [].

Definition map_sorted (m : list (K * list V)) : Prop :=
  StronglySorted (fun a b => ltb a.1 b.1 = true) m.

End map.

(** ** Instances *)

#[global] Instance Z_ltb : Ltb Z := Z.ltb.

#[global] Instance Z_sto : StrictTotalOrder Z.
Proof. split; [split|]; unfold ltb, Z_ltb; lia. Qed.

#[global] Instance byte_ltb : Ltb byte := fun a b => byte.unsigned a <? byte.unsigned b.

#[global] Instance byte_sto : StrictTotalOrder byte.
Proof.
  split; [split|]; unfold ltb, byte_ltb; [lia..|]. intros x y ? ?.
  rewrite <- (byte.of_Z_unsigned x), <- (byte.of_Z_unsigned y). f_equal. lia.
Qed.

(** Lexicographic order, that of [std::string] on bytes. *)
Fixpoint lex_ltb {A} `{Ltb A} (s t : list A) : bool :=
  match s, t with
  | _, [] => false
  | [], _ :: _ => true
  | x :: s', y :: t' => if ltb x y then true else if ltb y x then false else lex_ltb s' t'
  end.

#[global] Instance list_ltb {A} `{Ltb A} : Ltb (list A) := lex_ltb.

(** ** Lemmas on comparators *)

Section order.
Context {A : Type} `{StrictWeakOrder A}.

Lemma ltb_asym x y : ltb x y = true -> ltb y x = false.
Proof.
  intros Hxy. destruct (ltb y x) eqn:Hyx; [|done].
  pose proof (ltb_trans _ _ _ Hxy Hyx). by rewrite ltb_irrefl in *.
Qed.

Lemma equivb_spec x y : equivb x y = true <-> ltb x y = false /\ ltb y x = false.
Proof. unfold equivb. by rewrite andb_true_iff, !negb_true_iff. Qed.

Lemma equivb_refl x : equivb x x = true.
Proof. apply equivb_spec. by rewrite !ltb_irrefl. Qed.

Lemma equivb_sym x y : equivb x y = equivb y x.
Proof. unfold equivb. apply andb_comm. Qed.

(** Equivalent elements compare alike. *)
Lemma ltb_equiv_l x y z : equivb x y = true -> ltb x z = ltb y z.
Proof.
  intros [E1 E2]%equivb_spec. apply eq_true_iff_eq. split; intros Hz.
  - destruct (ltb_weak _ y _ Hz); congruence.
  - destruct (ltb_weak _ x _ Hz); congruence.
Qed.

Lemma ltb_equiv_r x y z : equivb x y = true -> ltb z x = ltb z y.
Proof.
  intros [E1 E2]%equivb_spec. apply eq_true_iff_eq. split; intros Hz.
  - destruct (ltb_weak _ y _ Hz); congruence.
  - destruct (ltb_weak _ x _ Hz); congruence.
Qed.

Lemma equivb_trans x y z : equivb x y = true -> equivb y z = true -> equivb x z = true.
Proof.
  intros Hxy Hyz. apply equivb_spec in Hyz as [? ?]. apply equivb_spec.
  by rewrite (ltb_equiv_l x y z), (ltb_equiv_r x y z).
Qed.

End order.

#[global] Instance list_sto {A} `{StrictTotalOrder A} : StrictTotalOrder (list A).
Proof.
  split; [split|]; unfold ltb, list_ltb.
  - induction x as [|x s IH]; cbn; [done|]. by rewrite ltb_irrefl.
  - induction x as [|x s IH]; intros [|y t] [|z u]; cbn; try done.
    destruct (ltb x y) eqn:E1, (ltb y z) eqn:E2.
    + by rewrite (ltb_trans _ _ _ E1 E2).
    + destruct (ltb z y) eqn:E3; [done|]. pose proof (ltb_total _ _ E2 E3) as ->. by rewrite E1.
    + destruct (ltb y x) eqn:E3; [done|]. pose proof (ltb_total _ _ E1 E3) as ->. by rewrite E2.
    + destruct (ltb y x) eqn:E3; [done|]. pose proof (ltb_total _ _ E1 E3) as ->. rewrite E2.
      destruct (ltb z y); [done|]. apply IH.
  - induction x as [|x s IH]; intros [|y t] [|z u]; cbn; try done; try by auto.
    + destruct (ltb x z) eqn:E; intros Hs.
      * destruct (ltb_weak _ y _ E) as [E'|E']; rewrite E'; auto.
      * destruct (ltb z x) eqn:E'; [done|]. pose proof (ltb_total _ _ E E') as ->.
        destruct (ltb z y) eqn:E1, (ltb y z) eqn:E2; auto.
  - induction x as [|x s IH]; intros [|y t]; cbn; try done.
    destruct (ltb x y) eqn:E1, (ltb y x) eqn:E2; try done.
    intros. f_equal; [by apply ltb_total|by apply IH].
Qed.

(** ** Lemmas on sets *)

Section set_lemmas.
Context {A : Type} `{StrictTotalOrder A}.

Lemma elem_of_set_insert x y l : y ∈ set_insert x l <-> y = x \/ y ∈ l.
Proof.
  induction l as [|z l IH]; cbn; [set_solver|].
  destruct (ltb x z) eqn:E1; [set_solver|]. destruct (ltb z x) eqn:E2; [set_solver|].
  rewrite (ltb_total _ _ E1 E2). set_solver.
Qed.

Lemma set_insert_sorted x l : sorted l -> sorted (set_insert x l).
Proof.
  induction 1 as [|z l Hl IH Hz]; cbn; [by repeat constructor|].
  destruct (ltb x z) eqn:E1; [|destruct (ltb z x) eqn:E2].
  - constructor; [by constructor|]. constructor; [done|].
    eapply Forall_impl; [exact Hz|]. intros y Hy. by eapply ltb_trans.
  - constructor; [done|]. apply Forall_forall. intros y [->|Hy]%elem_of_set_insert; [done|].
    rewrite Forall_forall in Hz. auto.
  - by constructor.
Qed.

Lemma fold_insert_spec xs l :
  sorted l -> sorted (fold_left (fun l x => set_insert x l) xs l)
  /\ forall y, y ∈ fold_left (fun l x => set_insert x l) xs l <-> y ∈ xs \/ y ∈ l.
Proof.
  revert l. induction xs as [|x xs IH]; intros l Hl; cbn; [set_solver|].
  destruct (IH (set_insert x l)) as [Hs He]; [by apply set_insert_sorted|]. split; [done|].
  intros y. rewrite He, elem_of_set_insert. set_solver.
Qed.

Lemma set_of_sorted xs : sorted (set_of xs).
Proof. apply fold_insert_spec. constructor. Qed.

Lemma elem_of_set_of xs y : y ∈ set_of xs <-> y ∈ xs.
Proof. unfold set_of. rewrite (proj2 (fold_insert_spec xs [] ltac:(constructor))). set_solver. Qed.

Lemma sorted_NoDup l : sorted l -> NoDup l.
Proof.
  induction 1 as [|x l Hl IH Hx]; constructor; [|done].
  intros Hin. rewrite Forall_forall in Hx. specialize (Hx _ Hin). by rewrite ltb_irrefl in Hx.
Qed.

Lemma set_of_Permutation xs : NoDup xs -> set_of xs ≡ₚ xs.
Proof.
  intros Hn. apply NoDup_Permutation; [apply sorted_NoDup, set_of_sorted|done|].
  intros y. apply elem_of_set_of.
Qed.

(** A sorted list is the set of its elements. *)
Lemma set_of_id l : sorted l -> set_of l = l.
Proof.
  intros Hl. unfold set_of.
  assert (Hg : forall acc, (forall x y, x ∈ acc -> y ∈ l -> ltb x y = true) ->
    fold_left (fun l x => set_insert x l) l acc = acc ++ l); [|by apply (Hg []); set_solver].
  induction Hl as [|x l Hl IH Hx]; intros acc Hacc; cbn; [by rewrite app_nil_r|].
  assert (set_insert x acc = acc ++ [x]) as ->.
  { assert (Hx' : forall y, y ∈ acc -> ltb y x = true) by (intros; apply Hacc; set_solver).
    clear -Hx' H0. induction acc as [|y acc IHa]; cbn; [done|].
    assert (Hyx := Hx' y ltac:(set_solver)). rewrite (ltb_asym _ _ Hyx), Hyx. f_equal.
    apply IHa. intros z Hz. apply Hx'. set_solver. }
  rewrite IH; [by rewrite <- app_assoc|].
  intros y z [Hy|Hy%list_elem_of_singleton]%elem_of_app Hz; [apply Hacc; set_solver|].
  subst y. rewrite Forall_forall in Hx. auto.
Qed.

End set_lemmas.

(** [std::set_difference] of two sorted sets is the sorted set of the elements of the first that are not
    in the second. *)
Section difference.
Context {A : Type} `{StrictTotalOrder A}.

Lemma sorted_cons x l : sorted (x :: l) <-> sorted l /\ forall y, y ∈ l -> ltb x y = true.
Proof.
  split.
  - intros [? Hx]%StronglySorted_inv. split; [done|]. by apply Forall_forall.
  - intros [? Hx]. constructor; [done|]. by apply Forall_forall.
Qed.

Lemma set_difference_spec l1 l2 :
  sorted l1 -> sorted l2 ->
  sorted (set_difference l1 l2)
  /\ forall y, y ∈ set_difference l1 l2 <-> y ∈ l1 /\ y ∉ l2.
Proof.
  revert l2. induction l1 as [|x l1 IH1]; intros l2 Hs1 Hs2.
  { destruct l2; cbn; set_solver. }
  induction l2 as [|z l2 IH2]; [cbn; set_solver|].
  pose proof Hs1 as [Hs1' Hx]%sorted_cons. pose proof Hs2 as [Hs2' Hz]%sorted_cons.
  cbn. destruct (ltb x z) eqn:E1; [|destruct (ltb z x) eqn:E2].
  - destruct (IH1 (z :: l2) Hs1' Hs2) as [Hs He]. split.
    + apply sorted_cons. split; [done|]. intros y [Hy _]%He. auto.
    + intros y. rewrite !elem_of_cons, He.
      assert (x <> z) by (intros ->; by rewrite ltb_irrefl in E1).
      assert (x ∉ l2).
      { intros Hin%Hz. pose proof (ltb_trans _ _ _ E1 Hin) as E. by rewrite ltb_irrefl in E. }
      set_solver.
  - destruct (IH2 Hs2') as [Hs He]. split; [done|].
    intros y. rewrite (He y), !elem_of_cons.
    assert (x <> z) by (intros ->; by rewrite ltb_irrefl in E2).
    assert (z ∉ l1).
    { intros Hin%Hx. pose proof (ltb_trans _ _ _ E2 Hin) as E. by rewrite ltb_irrefl in E. }
    set_solver.
  - pose proof (ltb_total _ _ E1 E2) as <-. destruct (IH1 l2 Hs1' Hs2') as [Hs He]. split; [done|].
    intros y. rewrite He, !elem_of_cons.
    assert (x ∉ l1) by (intros Hin%Hx; by rewrite ltb_irrefl in Hin). set_solver.
Qed.

End difference.

(** ** Lemmas on maps *)

Section map_lemmas.
Context {K V : Type} `{StrictWeakOrder K}.
Implicit Types (m : list (K * list V)) (k : K).

Lemma map_push_keys k v m kvs :
  kvs ∈ map_push k v m -> kvs.1 = k \/ exists vs, (kvs.1, vs) ∈ m.
Proof.
  induction m as [|[k' vs] m IH]; cbn; [intros ->%list_elem_of_singleton; auto|].
  destruct (ltb k' k); [|destruct (ltb k k')].
  - intros [->|[?|[vs' ?]]%IH]%elem_of_cons; cbn; eauto using list_elem_of_here, list_elem_of_further.
  - intros [->|Hin]%elem_of_cons; cbn; auto. right. exists kvs.2. by destruct kvs.
  - intros [->|Hin]%elem_of_cons; cbn; right; [eauto using list_elem_of_here|].
    exists kvs.2. destruct kvs. by apply list_elem_of_further.
Qed.

Lemma map_push_sorted k v m : map_sorted m -> map_sorted (map_push k v m).
Proof.
  induction 1 as [|[k' vs] m Hm IH Hk]; cbn; [by repeat constructor|].
  rewrite Forall_forall in Hk. cbn in Hk.
  destruct (ltb k' k) eqn:E1; [|destruct (ltb k k') eqn:E2].
  - constructor; [done|]. apply Forall_forall. intros kvs [->|[vs' Hin]]%map_push_keys; [done|].
    apply (Hk _ Hin).
  - constructor; [constructor; [done|by apply Forall_forall]|]. constructor; [done|].
    apply Forall_forall. intros kvs Hin. cbn. by eapply ltb_trans; [|apply Hk].
  - constructor; [done|]. by apply Forall_forall.
Qed.

(** Looking a key up after a [push_back]. *)
Lemma map_find_push k k' v m :
  map_sorted m ->
  map_find k' (map_push k v m)
  = if equivb k' k then Some (default [] (map_find k m) ++ [v]) else map_find k' m.
Proof.
  induction 1 as [|[k1 vs] m Hm IH Hk]; cbn.
  - unfold equivb. by destruct (ltb k k'), (ltb k' k).
  - destruct (ltb k1 k) eqn:E1; [|destruct (ltb k k1) eqn:E2]; cbn.
    + destruct (equivb k' k) eqn:E.
      * rewrite (ltb_equiv_r k' k k1 E), E1. by rewrite IH.
      * destruct (ltb k1 k'); [|done]. by rewrite IH.
    + unfold equivb. destruct (ltb k k') eqn:E3, (ltb k' k) eqn:E4; cbn; try done.
      rewrite (ltb_asym k' k1); [by rewrite (ltb_trans k' k k1)|by eapply ltb_trans].
    + assert (Hk1 : equivb k k1 = true) by by apply equivb_spec. destruct (equivb k' k) eqn:E.
      * assert (Hk' : equivb k' k1 = true) by by eapply equivb_trans.
        apply equivb_spec in Hk' as [-> ->]. done.
      * assert (Hk' : equivb k' k1 = false).
        { apply not_true_is_false. intros E'. assert (equivb k' k = true); [|congruence].
          eapply equivb_trans; [exact E'|by rewrite equivb_sym]. }
        unfold equivb in Hk'. by destruct (ltb k1 k'), (ltb k' k1).
Qed.

Lemma map_find_elem k vs m : map_sorted m -> (k, vs) ∈ m -> map_find k m = Some vs.
Proof.
  induction 1 as [|[k1 vs1] m Hm IH Hk]; [by intros ?%elem_of_nil|].
  rewrite Forall_forall in Hk. intros [[= -> ->]|Hin]%elem_of_cons; cbn.
  - by rewrite ltb_irrefl.
  - specialize (Hk _ Hin). cbn in Hk. rewrite Hk. auto.
Qed.

Lemma map_find_equiv k k' m : equivb k k' = true -> map_find k m = map_find k' m.
Proof.
  intros E. induction m as [|[k1 vs] m IH]; cbn; [done|].
  by rewrite (ltb_equiv_l k k' k1 E), (ltb_equiv_r k k' k1 E), IH.
Qed.

Lemma group_by_snoc (l : list (K * V)) k v : group_by (l ++ [(k, v)]) = map_push k v (group_by l).
Proof. unfold group_by. by rewrite fold_left_app. Qed.

Lemma group_by_sorted (l : list (K * V)) : map_sorted (group_by l).
Proof.
  induction l as [|[k v] l IH] using rev_ind; [constructor|]. rewrite group_by_snoc.
  by apply map_push_sorted.
Qed.

(** What [group_by] groups: a key finds the values of the equivalent keys, in order. *)
Lemma group_by_find (l : list (K * V)) k :
  map_find k (group_by l)
  = match filter (fun kv => equivb k kv.1 = true) l with
    | [] => None
    | l' => Some (map snd l')
    end.
Proof.
  induction l as [|[k1 v] l IH] using rev_ind; [done|].
  rewrite group_by_snoc, map_find_push by apply group_by_sorted.
  rewrite filter_app, filter_cons, filter_nil. cbn. destruct (equivb k k1) eqn:E.
  - rewrite decide_True by done. rewrite <- (map_find_equiv k k1) by done. rewrite IH.
    destruct (filter _ l) as [|kv l']; cbn; [done|]. by rewrite map_app.
  - rewrite decide_False by done. by rewrite app_nil_r.
Qed.

(** Every bucket lies under the key of one of the grouped pairs. *)
Lemma group_by_keys (l : list (K * V)) k vs : (k, vs) ∈ group_by l -> exists v, (k, v) ∈ l.
Proof.
  revert vs. induction l as [|[k1 v] l IH] using rev_ind; intros vs; [by intros ?%elem_of_nil|].
  rewrite group_by_snoc. intros [E|[vs' Hin]]%map_push_keys; cbn in *.
  - subst. exists v. apply elem_of_app. right. by apply list_elem_of_singleton.
  - destruct (IH _ Hin) as [v' ?]. exists v'. apply elem_of_app. by left.
Qed.

(** No value is lost or duplicated. *)
Lemma group_by_values (l : list (K * V)) : concat (map snd (group_by l)) ≡ₚ map snd l.
Proof.
  induction l as [|[k v] l IH] using rev_ind; [done|].
  rewrite group_by_snoc, map_app. cbn. rewrite <- IH. clear IH.
  induction (group_by l) as [|[k1 vs] m IH]; cbn; [done|].
  destruct (ltb k1 k); [|destruct (ltb k k1)]; cbn.
  - by rewrite IH, app_assoc.
  - by rewrite (Permutation_app_comm _ [v]).
  - rewrite <- !app_assoc. by rewrite (Permutation_app_comm [v]).
Qed.

End map_lemmas.
