(* ===== verification/Defer.v ===== *)
(** * Deferred statements ([src/src/ts/common/defer.h])

    A [ScopedLambda] is an object with a function that its destructor runs if the object is active; [DEFER]
    and [NAMED_DEFER] make one in the current block, so that the function runs when the block is left. The
    functions capture by reference: a function of this file maps the state of the program to the state
    and the way it ends.

    [exec] runs a block the way C++ does, with the objects that were constructed on a stack, and their destructors
    run from the last to the first when the block is left, whether at its end, by a [return] or by an exception.
    A destructor that throws ends the program ([std::terminate]). [denote] is the reference, with variables and
    [try ... finally] instead of objects. *)

From S2P Require Import Prelude.

Section defer.

(** What the program's functions act on. *)
Context {St : Type}.

Definition action : Type := St -> St * flow unit.

(** ** [ScopedLambda] *)

Record ScopedLambda : Type := Scoped {
  fn_ : action;
  active_ : bool;
}.

(** The constructor. *)
Definition make (fn : action) : ScopedLambda := Scoped fn true.

Definition activate (o : ScopedLambda) : ScopedLambda := Scoped (fn_ o) true.

Definition deactivate (o : ScopedLambda) : ScopedLambda := Scoped (fn_ o) false.

(** [if (active_) fn_();], what the destructor and [run_and_expire] have in common. *)
Definition run_fn (o : ScopedLambda) : action := fun st =>
  if active_ o then fn_ o st else (st, Done ()).

(** The object is left as it was when [fn_] throws. *)
Definition run_and_expire (o : ScopedLambda) (st : St) : ScopedLambda * (St * flow unit) :=
  let '(st', r) := run_fn o st in
  match r with
  | Done _ => (deactivate o, (st', r))
  | _ => (o, (st', r))
  end.

(** The default move constructor: it copies [active_], and a closure that captures by reference is copied
    too. The new object, then the old one. *)
Definition move (o : ScopedLambda) : ScopedLambda * ScopedLambda := (Scoped (fn_ o) (active_ o), o).

(** ** Blocks *)

(** How a block is left: at its end, by a [return] (or [break], or [continue]), by an exception, in undefined
    behaviour, or by the end of the program. *)
Inductive leave : Type :=
| Falls
| Returns
| Throws (e : exn_kind)
| Broken (u : ub_kind)
| Terminates.

Definition leave_of (r : flow unit) : leave :=
  match r with Done _ => Falls | Undefined u => Broken u | Raised e => Throws e end.

(** Statements of a block; objects are named, [DEFER] gives a name that is not used again. *)
Inductive stmt : Type :=
| Do (f : action)
| Return_if (test : St -> bool)
| Named_defer (name : nat) (fn : action)
| Run_and_expire (name : nat)
| Activate (name : nat)
| Deactivate (name : nat).

(** The objects of the block, the last one first. *)
Definition objects : Type := list (nat * ScopedLambda).

Fixpoint update (f : ScopedLambda -> ScopedLambda) (name : nat) (os : objects) : objects :=
  match os with
  | [] => []
  | (n, o) :: os' => if (n =? name)%nat then (n, f o) :: os' else (n, o) :: update f name os'
  end.

Fixpoint find (name : nat) (os : objects) : option ScopedLambda :=
  match os with
  | [] => None
  | (n, o) :: os' => if (n =? name)%nat then Some o else find name os'
  end.

(** A destructor, after the block was left by [l]: a destructor does not throw. *)
Definition destroy (o : ScopedLambda) (st : St) (l : leave) : St * leave :=
  match run_fn o st with
  | (st', Done _) => (st', l)
  | (st', Undefined u) => (st', Broken u)
  | (st', Raised _) => (st', Terminates)
  end.

(** The destructors of the objects, from the last to the first; nothing runs after undefined behaviour or the
    end of the program. *)
Fixpoint unwind (os : objects) (st : St) (l : leave) : St * leave :=
  match l with
  | Broken _ | Terminates => (st, l)
  | _ =>
      match os with
      | [] => (st, l)
      | (_, o) :: os' => let '(st', l') := destroy o st l in unwind os' st' l'
      end
  end.

(** [MakeScopedLambda] returns by value and [DEFER] initialises a variable with the result: two places where
    the compiler may move the object, or build it in place. Each move leaves an object to destroy. *)
Fixpoint MakeScopedLambda (moves : nat) (o : ScopedLambda) (st : St) : ScopedLambda * (St * leave) :=
  match moves with
  | O => (o, (st, Falls))
  | S k =>
      let '(new, old) := move o in
      match destroy old st Falls with
      | (st', Falls) => MakeScopedLambda k new st'
      | (st', l) => (new, (st', l))
      end
  end.

(** A block from a point where the objects [os] are constructed; [moves] are the moves at each declaration. *)
Fixpoint exec (moves : nat) (b : list stmt) (os : objects) (st : St) : St * leave :=
  match b with
  | [] => unwind os st Falls
  | Do f :: b' =>
      match f st with
      | (st', Done _) => exec moves b' os st'
      | (st', r) => unwind os st' (leave_of r)
      end
  | Return_if test :: b' => if test st then unwind os st Returns else exec moves b' os st
  | Named_defer name fn :: b' =>
      match MakeScopedLambda moves (make fn) st with
      | (o, (st', Falls)) => exec moves b' ((name, o) :: os) st'
      | (_, (st', l)) => unwind os st' l
      end
  | Run_and_expire name :: b' =>
      match find name os with
      | None => exec moves b' os st
      | Some o =>
          match run_and_expire o st with
          | (o', (st', Done _)) => exec moves b' (update (fun _ => o') name os) st'
          | (o', (st', r)) => unwind (update (fun _ => o') name os) st' (leave_of r)
          end
      end
  | Activate name :: b' => exec moves b' (update activate name os) st
  | Deactivate name :: b' => exec moves b' (update deactivate name os) st
  end.

Definition run_block (moves : nat) (b : list stmt) (st : St) : St * leave := exec moves b [] st.

(** ** The reference

    A language with [try ... finally] and variables instead of objects: a declaration is
    [flag = true; try { rest } finally { if (flag) fn(); }], and the other operations on the name assign its flag, or
    call the function first. Nothing here is a [ScopedLambda]. *)

(** The functions in scope, by name, and the values of the flags. *)
Definition scope : Type := nat -> option action.

Definition flags : Type := nat -> bool.

Definition assign {A} (name : nat) (x : A) (e : nat -> A) : nat -> A := fun n => if (n =? name)%nat then x else e n.

(** [finally { if (flag) fn(); }] around a statement that was left by [l]: what [fn] throws has nobody to catch it. *)
Definition finally (fn : action) (flag : bool) (st : St) (l : leave) : St * leave :=
  match l with
  | Broken _ | Terminates => (st, l)
  | _ =>
      if flag then
        match fn st with
        | (st', Done _) => (st', l)
        | (st', Undefined u) => (st', Broken u)
        | (st', Raised _) => (st', Terminates)
        end
      else (st, l)
  end.

Fixpoint denote (b : list stmt) (fns : scope) (fl : flags) (st : St) : flags * (St * leave) :=
  match b with
  | [] => (fl, (st, Falls))
  | Do f :: b' =>
      match f st with
      | (st', Done _) => denote b' fns fl st'
      | (st', r) => (fl, (st', leave_of r))
      end
  | Return_if test :: b' => if test st then (fl, (st, Returns)) else denote b' fns fl st
  | Named_defer name fn :: b' =>
      let '(fl', (st', l)) := denote b' (assign name (Some fn) fns) (assign name true fl) st in
      (fl', finally fn (fl' name) st' l)
  | Run_and_expire name :: b' =>
      match fns name with
      | None => denote b' fns fl st
      | Some fn =>
          match (if fl name then fn st else (st, Done ())) with
          | (st', Done _) => denote b' fns (assign name false fl) st'
          | (st', r) => (fl, (st', leave_of r))
          end
      end
  | Activate name :: b' => denote b' fns (assign name true fl) st
  | Deactivate name :: b' => denote b' fns (assign name false fl) st
  end.

(** The names a block declares. *)
Definition declared (b : list stmt) : list nat :=
  omap (fun s => match s with Named_defer n _ => Some n | _ => None end) b.

End defer.

#[global] Arguments stmt St : clear implicits.

(** ** Lemmas *)

Section lemmas.
Context {St : Type}.
Implicit Types (st : St) (os : @objects St) (fns : @scope St) (fl : flags) (b : list (stmt St)).

Definition names os : list nat := map fst os.

(** The objects with the flags that the variables have. *)
Definition reflag fl os : objects := map (fun '(n, o) => (n, Scoped (fn_ o) (fl n))) os.

(** The variables are the objects: same names, same functions, same flags. *)
Definition agree fns fl os : Prop :=
  NoDup (names os) /\ reflag fl os = os /\ forall n, fns n = fn_ <$> find n os.

Lemma names_update f n os : names (update f n os) = names os.
Proof. induction os as [|[m o] os IH]; [done|]. cbn. destruct (m =? n)%nat; cbn; [done|]. by f_equal. Qed.

Lemma find_names n os : find n os = None <-> n ∉ names os.
Proof.
  induction os as [|[m o] os IH]; cbn; [by rewrite elem_of_nil; tauto|].
  rewrite elem_of_cons. fold (names os). destruct (Nat.eqb_spec m n) as [->|]; [by split; [|tauto]|].
  rewrite IH. split; [|tauto]. intros H [->|?]; done.
Qed.

(** Changing a flag keeps the functions, and the flags of the others. *)
Definition sets_flag (f : ScopedLambda -> ScopedLambda) (x : bool) : Prop := forall o : @ScopedLambda St, f o = Scoped (fn_ o) x.

Lemma reflag_cons fl n o os : reflag fl ((n, o) :: os) = (n, Scoped (fn_ o) (fl n)) :: reflag fl os.
Proof. done. Qed.

Lemma reflag_update f x n fl os : sets_flag f x -> reflag fl (update f n os) = reflag fl os.
Proof.
  intros Hf. induction os as [|[m o] os IH]; [done|]. cbn. destruct (m =? n)%nat; cbn; [by rewrite Hf|]. by f_equal.
Qed.

Lemma reflag_assign n x fl os : n ∉ names os -> reflag (assign n x fl) os = reflag fl os.
Proof.
  induction os as [|[m o] os IH]; [done|]. rewrite !reflag_cons. cbn [names map fst].
  intros [Hne Hn]%not_elem_of_cons. rewrite IH by done. unfold assign. by rewrite (proj2 (Nat.eqb_neq m n)).
Qed.

Lemma update_flag f x n fl os :
  NoDup (names os) -> sets_flag f x -> reflag fl os = os -> reflag (assign n x fl) os = update f n os.
Proof.
  intros Hd Hf. induction os as [|[m o] os IH]; [done|]. rewrite !reflag_cons. cbn [names map fst update] in *.
  apply NoDup_cons in Hd as [Hm Hd]. intros [= Ho Hr]. destruct (Nat.eqb_spec m n) as [->|Hne].
  - rewrite reflag_assign, Hr, Hf by done. unfold assign. by rewrite Nat.eqb_refl.
  - rewrite IH by done. unfold assign. rewrite (proj2 (Nat.eqb_neq m n)) by done. by rewrite Ho.
Qed.

Lemma find_update f x n k os : sets_flag f x -> fn_ <$> find k (update f n os) = fn_ <$> find k os.
Proof.
  intros Hf. induction os as [|[m o] os IH]; [done|]. cbn.
  destruct (m =? n)%nat; cbn; destruct (m =? k)%nat; cbn; [by rewrite Hf|done..].
Qed.

Lemma agree_update f x n fns fl os :
  sets_flag f x -> agree fns fl os -> agree fns (assign n x fl) (update f n os).
Proof.
  intros Hf (Hd & Hr & Hn). split_and!; [by rewrite names_update| |intros k; by rewrite (find_update f x n k)].
  by rewrite (reflag_update f x), (update_flag f x).
Qed.

Lemma agree_declare n fn fns fl os :
  n ∉ names os -> agree fns fl os -> agree (assign n (Some fn) fns) (assign n true fl) ((n, make fn) :: os).
Proof.
  intros Hn (Hd & Hr & Hf). split_and!; [by apply NoDup_cons| |].
  - rewrite reflag_cons, reflag_assign, Hr by done. unfold assign. by rewrite Nat.eqb_refl.
  - intros k. unfold assign. cbn. rewrite (Nat.eqb_sym k n). by destruct (n =? k)%nat.
Qed.

(** What the objects and the variables say of one name. *)
Lemma agree_find n fns fl os : agree fns fl os -> find n os = (fun fn => Scoped fn (fl n)) <$> fns n.
Proof.
  intros (Hd & Hr & Hf). rewrite Hf. clear Hf fns. induction os as [|[m o] os IH]; [done|].
  rewrite reflag_cons in Hr. cbn in *. apply NoDup_cons in Hd as [_ Hd]. injection Hr as Ho Hr.
  destruct (Nat.eqb_spec m n) as [->|]; cbn; [by rewrite Ho|by apply IH].
Qed.

Lemma update_id n os : update (fun o => o) n os = os.
Proof. induction os as [|[m o] os IH]; [done|]. cbn. destruct (m =? n)%nat; [done|]. by rewrite IH. Qed.

Lemma update_known f n o os : find n os = Some o -> update (fun _ => f o) n os = update f n os.
Proof.
  induction os as [|[m o'] os IH]; [done|]. cbn. destruct (m =? n)%nat; [by intros [= ->]|]. intros H. by rewrite IH.
Qed.

(** Leaving a block destroys an object as [finally] does. *)
Lemma unwind_cons n fn x os st l :
  unwind ((n, Scoped fn x) :: os) st l = let '(st', l') := finally fn x st l in unwind os st' l'.
Proof.
  destruct l; cbn; unfold destroy, run_fn; cbn; try (destruct x; [destruct (fn st) as [? []]|]; done);
    by destruct os as [|[]].
Qed.

Lemma sets_activate : sets_flag activate true.
Proof. done. Qed.

Lemma sets_deactivate : sets_flag deactivate false.
Proof. done. Qed.

Hint Resolve sets_activate sets_deactivate : core.

(** The stack of objects and the nested [try ... finally] agree from any point of a block. *)
Lemma exec_denote b os fns fl st :
  NoDup (names os ++ declared b) -> agree fns fl os ->
  exec 0 b os st = let '(fl', (st', l)) := denote b fns fl st in unwind (reflag fl' os) st' l.
Proof.
  revert os fns fl st. induction b as [|s b IH]; intros os fns fl st Hd He; [by cbn; rewrite (proj1 (proj2 He))|].
  assert (Hflag : forall f x m st', sets_flag f x -> declared (s :: b) = declared b ->
    exec 0 b (update f m os) st' = let '(fl', (st'', l)) := denote b fns (assign m x fl) st' in unwind (reflag fl' os) st'' l).
  { intros f x m st' Hf Hs. rewrite (IH _ fns (assign m x fl)).
    - destruct (denote b _ _ st') as [fl' [st'' l]]. by rewrite (reflag_update f x).
    - by rewrite names_update, <- Hs.
    - by apply agree_update. }
  destruct s as [f|test|m fn|m|m|m]; cbn [exec denote]; [..|by apply Hflag|by apply Hflag].
  - destruct (f st) as [st' []]; [by apply IH|by rewrite (proj1 (proj2 He))..].
  - destruct (test st); [by rewrite (proj1 (proj2 He))|by apply IH].
  - cbn [MakeScopedLambda]. cbn [declared omap list_omap] in Hd. fold (declared b) in Hd.
    assert (Hm : m ∉ names os) by (intros Hin; apply NoDup_app in Hd as (_ & Hd & _); apply (Hd m Hin); by left).
    rewrite (IH ((m, make fn) :: os) (assign m (Some fn) fns) (assign m true fl)).
    + destruct (denote b _ _ st) as [fl' [st' l]]. cbn [reflag map]. fold (reflag fl' os). cbn [fn_ make].
      rewrite unwind_cons. by destruct (finally fn (fl' m) st' l).
    + cbn. fold (names os). by rewrite Permutation_middle.
    + by apply agree_declare.
  - pose proof (agree_find m fns fl os He) as Ef. destruct (fns m) as [fn|]; cbn in Ef; rewrite Ef; [|by apply IH].
    unfold run_and_expire, run_fn. cbn [active_ fn_]. destruct (if fl m then fn st else (st, Done ())) as [st' [[]|u|e]].
    + rewrite (update_known deactivate m _ os Ef). by apply (Hflag deactivate false).
    + rewrite (update_known (fun o => o) m _ os Ef), update_id. by rewrite (proj1 (proj2 He)).
    + rewrite (update_known (fun o => o) m _ os Ef), update_id. by rewrite (proj1 (proj2 He)).
Qed.

(** ** Moves *)

(** Every function of a declaration ends normally. *)
Definition quiet b : Prop := forall n fn st, Named_defer n fn ∈ b -> (fn st).2 = Done ().

(** A block in which each declaration comes after [k] executions of its function. *)
Definition spread (k : nat) b : list (stmt St) :=
  b ≫= fun s => match s with Named_defer n fn => replicate k (Do fn) ++ [s] | _ => [s] end.

Lemma make_spread k fn os b st :
  (forall st', (fn st').2 = Done ()) ->
  exec 0 (replicate k (Do fn) ++ b) os st
  = exec 0 b os (MakeScopedLambda k (make fn) st).2.1
  /\ MakeScopedLambda k (make fn) st = (make fn, ((MakeScopedLambda k (make fn) st).2.1, Falls)).
Proof.
  intros Hf. revert st. induction k as [|k IH]; intros st; [done|].
  cbn. specialize (Hf st). unfold destroy, run_fn. cbn. destruct (fn st) as [st' r]; cbn in Hf. subst r.
  exact (IH st').
Qed.

End lemmas.

(** ** Properties *)

(** C26. A block with deferred statements whose objects the compiler builds in place (no moves, as the language
    guarantees since C++17), left at its end, by a [return] or by an exception, does what the nested
    [try ... finally] statements with a flag each do: the deferred functions run from the last to the first, those
    whose flag is set by then, and one that throws while the block is left ends the program. *)
Theorem block_is_try_finally {St : Type} (b : list (stmt St)) (st : St) :
  NoDup (declared b) -> run_block 0 b st = (denote b (fun _ => None) (fun _ => false) st).2.
Proof.
  intros Hd. unfold run_block. rewrite (exec_denote b [] (fun _ => None) (fun _ => false)); [|done|].
  - destruct (denote b _ _ st) as [e [st' []]]; done.
  - split_and!; [constructor|done|done].
Qed.

(** A [ScopedLambda] that is moved stays active. So a deferred statement runs at the end of its block and
    only there just when the compiler builds the object in place: with [k] moves at each declaration, every
    deferred statement runs [k] times before its time as well. *)
Theorem moved_defer_runs_early {St : Type} (k : nat) (b : list (stmt St)) (st : St) :
  quiet b -> run_block k b st = run_block 0 (spread k b) st.
Proof.
  unfold run_block. generalize (@nil (nat * @ScopedLambda St)) as os. revert st.
  induction b as [|s b IH]; intros st os Hq; [done|].
  assert (Hq' : quiet b) by (intros n fn st' Hin; apply (Hq n); by right).
  unfold spread. cbn [mbind list_bind]. fold (spread k b).
  destruct s as [f|test|n fn|n|n|n]; cbn [app exec].
  - destruct (f st) as [st' []]; auto.
  - destruct (test st); auto.
  - rewrite <- app_assoc. destruct (make_spread k fn os ([Named_defer n fn] ++ spread k b) st) as [-> ->].
    { intros st'. apply (Hq n). by left. }
    cbn [app exec MakeScopedLambda]. auto.
  - destruct (find n os) as [o|]; [|auto]. destruct (run_and_expire o st) as [o' [st' []]]; auto.
  - auto.
  - auto.
Qed.

(** [run_and_expire] makes the object inactive only after its function returned: one that throws runs a second
    time when the block is left. *)
Theorem expire_that_throws {St : Type} (fn : @action St) (n : nat) (st st1 st2 : St) (e : exn_kind) (r : flow unit) :
  fn st = (st1, Raised e) -> fn st1 = (st2, r) ->
  run_block 0 [Named_defer n fn; Run_and_expire n] st
  = (st2, match r with Done _ => Throws e | Undefined u => Broken u | Raised _ => Terminates end).
Proof.
  intros H1 H2. unfold run_block. cbn. rewrite Nat.eqb_refl. unfold run_and_expire, run_fn. cbn. rewrite H1. cbn.
  unfold destroy, run_fn. cbn. rewrite H2. by destruct r.
Qed.

(** ** Witnesses *)

(** A function that adds a number to a log. *)
Definition note (k : nat) : @action (list nat) := fun st => (st ++ [k], Done ()).

(** A block that defers 1, 2 and 3, gives up 2, and is left by an exception. *)
Definition demo_block : list (stmt (list nat)) :=
  [Named_defer 1 (note 1); Named_defer 2 (note 2); Do (note 10); Named_defer 3 (note 3); Deactivate 2;
   Do (fun st => (st, Raised Out_of_range)); Do (note 11)].

Lemma block_is_try_finally_witness :
  run_block 0 demo_block [] = ([10; 3; 1]%nat, Throws Out_of_range)
  /\ run_block 0 demo_block [] = (denote demo_block (fun _ => None) (fun _ => false) []).2.
Proof. split; [done|]. apply block_is_try_finally. by apply (bool_decide_unpack (NoDup _)). Defined.

Lemma moved_defer_runs_early_witness :
  run_block 2 [Named_defer 1 (note 1); Do (note 10)] [] = ([1; 1; 10; 1]%nat, Falls)
  /\ run_block 2 [Named_defer 1 (note 1); Do (note 10)] []
     = run_block 0 (spread 2 [Named_defer 1 (note 1); Do (note 10)]) [].
Proof.
  split; [done|]. apply moved_defer_runs_early. intros n fn st H. apply list_elem_of_In in H.
  destruct H as [[= <- <-]|[[=]|[]]]. done.
Defined.

Lemma expire_that_throws_witness :
  run_block 0 [Named_defer 0 (fun st : list nat => (st ++ [7]%nat, Raised Out_of_range)); Run_and_expire 0] []
  = ([7; 7]%nat, Terminates).
Proof. exact (expire_that_throws _ 0 [] [7]%nat [7; 7]%nat Out_of_range (Raised Out_of_range) eq_refl eq_refl). Defined.
