(* ===== verification/Sysutil.v ===== *)
(** * Listing the threads of the process ([src/src/ts/common/sysutil.cc])

    [GetDirectoryContents] reads a directory into a [std::set<std::string>], [Sysutil::ListThreads] turns
    the names of [/proc/self/task] into thread identifiers. The directory is an argument of the model:
    what [opendir] finds, as the successive [d_name]s and the status of the last [readdir_r]. *)

From S2P Require Import Prelude.
From S2P Require Import Text.
From S2P Require Import OrdSet.
From Stdlib Require String.
Import String.StringSyntax.
#[local] Open Scope list_scope.

Definition kSelfTaskDir : list byte := lit "/proc/self/task"%string.

(** An open directory: its entries, each a [d_name] buffer, and the [posix_error] of the call of
    [readdir_r] that follows the last one, 0 at the end of the directory. *)
Record dir : Type := Dir { d_names : list (list byte); d_status : Z }.

(** The loop on [readdir_r]. *)
Definition read_children (names : list (list byte)) : list (list byte) :=
  fold_left
    (fun children d_name =>
       let child := c_str d_name in
       if decide (child = lit "."%string \/ child = lit ".."%string) then children
       else set_insert child children)
    names [].

(** [GetDirectoryContents]: the result, [*children] and [*error] (empty when it is not assigned). *)
Definition GetDirectoryContents (directory : list byte) (opened : option dir)
    : bool * list (list byte) * list byte :=
  match opened with
  | None => (false, [], lit "Failed to open directory: "%string ++ directory)
  | Some d =>
      let children := read_children (d_names d) in
      if d_status d =? 0 then (true, children, [])
      else (false, [], lit "Error reading directory: "%string ++ to_string (d_status d))
  end.

(** [pids.push_back(stoll(child))]: a [long long] converted to [pid_t]; exceptions skip the name. *)
Definition child_pids (children : list (list byte)) : list Z :=
  fold_left
    (fun pids child =>
       match stoll child with
       | inr v => pids ++ [wrapS 32 v]
       | inl _ => pids
       end)
    children [].

(** [Sysutil::ListThreads]: the identifiers, and what it writes on [stderr]. *)
Definition ListThreads (opened : option dir) : list Z * list byte :=
  match GetDirectoryContents kSelfTaskDir opened with
  | (true, children, _) => (child_pids children, [])
  | (false, _, error) =>
      ([], lit "Unable to list threads in current process. Error: "%string ++ error ++ [byte.of_Z 10])
  end.

(** [/proc/self/task] of a process with the threads [tids]. *)
Definition task_dir (tids : list Z) : dir :=
  Dir (lit "."%string :: lit ".."%string :: map to_string tids) 0.

(** A name other than the two dots. *)
Definition not_dots (c : list byte) : Prop := ~ (c = lit "."%string \/ c = lit ".."%string).

#[global] Instance not_dots_dec c : Decision (not_dots c).
Proof. unfold not_dots. apply _. Defined.

(** ** Lemmas *)

Lemma read_children_set names : read_children names = set_of (filter not_dots (map c_str names)).
Proof.
  unfold read_children, set_of. generalize (@nil (list byte)).
  induction names as [|n names IH]; intros acc; cbn [fold_left map]; [done|].
  rewrite IH, filter_cons. unfold not_dots at 2. cbv zeta. repeat case_decide; tauto || done.
Qed.

Lemma child_pids_omap children :
  child_pids children = omap (fun c => match stoll c with inr v => Some (wrapS 32 v) | inl _ => None end) children.
Proof.
  induction children as [|c cs IH] using rev_ind; [done|].
  unfold child_pids in *. rewrite fold_left_app, IH, omap_app. cbn.
  destruct (stoll c); cbn; [by rewrite app_nil_r|done].
Qed.

(** Printed numbers are C strings, and none is the name of a directory. *)
Lemma to_string_c_str z : in_sint 64 z = true -> c_str (to_string z) = to_string z.
Proof.
  intros _. apply c_str_id. unfold to_string.
  assert (Hd : forall n, 0 <= n -> Forall (fun x => byte.unsigned x <> 0) (print_nat 10 n)).
  { intros n Hn. unfold print_nat. apply Forall_map.
    eapply Forall_impl; [apply (digits_range 10); lia|]. cbn. intros d Hd.
    rewrite digit_char_dec by done. lia. }
  destruct (Z.ltb_spec z 0); [constructor; [done|]|]; apply Hd; lia.
Qed.

Lemma stoll_not_dots z c :
  stoll c = inr z -> not_dots c.
Proof. by intros Hc [-> | ->]. Qed.

(** The names of threads are kept as they are, and read back. *)
Lemma thread_names tids :
  (forall z, z ∈ tids -> in_sint 64 z = true) ->
  filter not_dots (map c_str (map to_string tids)) = map to_string tids.
Proof.
  induction tids as [|z tids IH]; intros H64; cbn [map]; [done|].
  rewrite to_string_c_str by (apply H64; set_solver). rewrite filter_cons, decide_True.
  - f_equal. apply IH. intros. apply H64. set_solver.
  - eapply stoll_not_dots, stoll_to_string, H64. set_solver.
Qed.

Lemma thread_pids tids :
  (forall z, z ∈ tids -> in_sint 64 z = true) -> Forall (fun t => in_sint 32 t = true) tids ->
  omap (fun c => match stoll c with inr v => Some (wrapS 32 v) | inl _ => None end) (map to_string tids) = tids.
Proof.
  intros H64. induction 1 as [|z tids Hz _ IH]; cbn [map omap list_omap]; [done|].
  rewrite stoll_to_string by (apply H64; set_solver). rewrite wrapS_small by (done || lia).
  f_equal. apply IH. intros. apply H64. set_solver.
Qed.

(** ** Properties *)

(** [GetDirectoryContents] returns the entries other than [.] and [..], sorted and without
    repetition, exactly when the directory opens and reads to its end; otherwise it leaves [*children]
    empty and describes the error. *)
Theorem directory_contents (directory : list byte) (opened : option dir) (ok : bool)
    (children : list (list byte)) (error : list byte) :
  GetDirectoryContents directory opened = (ok, children, error) ->
  sorted children
  /\ (ok = true <-> exists d, opened = Some d /\ d_status d = 0)
  /\ (ok = true -> error = [] /\ forall d, opened = Some d -> forall c,
        c ∈ children <-> c ∈ map c_str (d_names d) /\ c <> lit "."%string /\ c <> lit ".."%string)
  /\ (ok = false -> children = [] /\ error <> []).
Proof.
  unfold GetDirectoryContents. destruct opened as [d|].
  - destruct (Z.eqb_spec (d_status d) 0); intros [= <- <- <-].
    + rewrite read_children_set.
      split; [apply set_of_sorted|]. split; [by split; eauto|]. split; [|done].
      intros _. split; [done|]. intros d' [= <-] c.
      rewrite elem_of_set_of, list_elem_of_filter. unfold not_dots. tauto.
    + split; [constructor|]. split; [split; [done|]|]; [|by split].
      intros (d' & [= <-] & ?). done.
  - intros [= <- <- <-]. split; [constructor|]. split; [split; [done|]|by split].
    by intros (d' & ? & _).
Qed.

(** C34. On the directory the kernel presents, one decimal name per thread and the two dots, in any order,
    [ListThreads] returns exactly the identifiers of the threads, each once and unchanged by the conversions, and
    prints nothing. *)
Theorem list_threads_complete (tids : list Z) (names : list (list byte)) :
  NoDup tids -> Forall (fun t => in_sint 32 t = true) tids ->
  names ≡ₚ lit "."%string :: lit ".."%string :: map to_string tids ->
  (ListThreads (Some (Dir names 0))).1 ≡ₚ tids /\ (ListThreads (Some (Dir names 0))).2 = [].
Proof.
  intros Hnd Hr Hp. unfold ListThreads, GetDirectoryContents. cbn [d_names d_status Z.eqb fst snd]. split; [|done].
  assert (H64 : forall z, z ∈ tids -> in_sint 64 z = true).
  { intros z Hz. rewrite Forall_forall in Hr. specialize (Hr _ Hz). unfold in_sint in *. bool_solve; lia. }
  rewrite read_children_set, child_pids_omap.
  assert (E : filter not_dots (map c_str names) ≡ₚ map to_string tids).
  { rewrite Hp. cbn [map]. rewrite !filter_cons, !decide_False by (unfold not_dots; cbn; tauto).
    by rewrite thread_names. }
  rewrite set_of_Permutation.
  - rewrite E. by rewrite thread_pids.
  - rewrite E. apply NoDup_fmap_2_strong; [|done]. intros x y Hx Hy Exy.
    assert (Ex := stoll_to_string x (H64 _ Hx)). rewrite Exy, (stoll_to_string y (H64 _ Hy)) in Ex. congruence.
Qed.

(** ** Witnesses *)

Lemma directory_contents_witness :
  let r := GetDirectoryContents (lit "d"%string)
             (Some (Dir [lit "b"%string; lit "."%string; lit "a"%string; lit "b"%string] 0)) in
  r = (true, [lit "a"%string; lit "b"%string], []) /\ sorted (r.1.2).
Proof.
  split; [by vm_compute|].
  exact (proj1 (directory_contents (lit "d"%string)
    (Some (Dir [lit "b"%string; lit "."%string; lit "a"%string; lit "b"%string] 0)) _ _ _ eq_refl)).
Defined.

(** The order is that of the names: thread 10 comes before thread 9. *)
Lemma list_threads_complete_witness :
  let d := Dir [to_string 9; lit ".."%string; to_string 10; lit "."%string] 0 in
  ListThreads (Some d) = ([10; 9], []) /\ (ListThreads (Some d)).1 ≡ₚ [10; 9].
Proof.
  split; [by vm_compute|]. apply (list_threads_complete [10; 9]).
  - repeat constructor; set_solver.
  - by repeat constructor.
  - by apply (bool_decide_unpack (_ ≡ₚ _)).
Defined.
