(* ===== verification/StackTrace.v ===== *)
(** * Stack traces ([src/src/ts/signal_handler.cc], [src/src/ts/signal_handler.h])

    The sequential parts of the collector: the form a thread fills in from its signal handler
    ([ThreadStack], [StackTraceForm], [InternalHandler]), the grouping of equal stacks that ends
    [StackTraceCollector::Collect], and [ToPrettyString]. The protocol between the collector and the
    threads is in [Collector.v].

    What libunwind finds, what [google::Symbolize] answers and what [write] returns are arguments. *)

From S2P Require Import Prelude.
From S2P Require Import Text.
From S2P Require Import OrdSet.
From Stdlib Require Import Sorted.
From Stdlib Require String.
Import String.StringSyntax.
#[local] Open Scope list_scope.

(** ** Forms *)

Definition kMaxDepth : Z := 100.

(** [address] is an array of [kMaxDepth] elements, [depth] of which are set. *)
Record ThreadStack : Type := Stack { tid : Z; address : list Z; depth : Z }.

(** [StackTraceForm(tid, ack_fd)]: [garbage] is the initial content of the array. *)
Definition new_form (t : Z) (garbage : list Z) : ThreadStack := Stack t garbage 0.

(** [StackTraceForm::AddAddress]. *)
Definition AddAddress (a : Z) (s : ThreadStack) : bool * ThreadStack :=
  if kMaxDepth <=? depth s then (false, s)
  else (true, Stack (tid s) (<[Z.to_nat (depth s) := a]> (address s)) (depth s + 1)).

(** The addresses that are set. *)
Definition recorded (s : ThreadStack) : list Z := take (Z.to_nat (depth s)) (address s).

(** ** The signal handler of a thread *)

(** libunwind on one thread: the statuses of [unw_getcontext] and [unw_init_local], and the frames
    [unw_step] reaches, each with the instruction pointer [unw_get_reg] reads, if it succeeds. *)
Record unwinder : Type := Unwinder {
  getcontext : Z;
  init_local : Z;
  frames : list (option Z);
}.

(** The messages of [ErrLog]. *)
Inductive complaint : Type :=
| Outsider_pid
| No_form
| No_context
| No_cursor
| No_ip
| Not_submitted.

(** The loop on [unw_step]. *)
Fixpoint add_frames (fs : list (option Z)) (s : ThreadStack) : list complaint * ThreadStack :=
  match fs with
  | [] => ([], s)
  | Some ip :: fs' =>
      let '(ok, s') := AddAddress ip s in if ok then add_frames fs' s' else ([], s')
  | None :: fs' => let '(l, s') := add_frames fs' s in (No_ip :: l, s')
  end.

(** [InternalHandler]: what it logs, the form it leaves, and whether the acknowledgement was written.
    [written] is what [write] returns for the byte. *)
Definition InternalHandler (si_pid pid : Z) (form : option ThreadStack) (u : unwinder) (written : Z)
    : list complaint * option ThreadStack * bool :=
  if negb (si_pid =? pid) then ([Outsider_pid], form, false)
  else
    match form with
    | None => ([No_form], None, false)
    | Some s =>
        if negb (getcontext u =? 0) then ([No_context], Some s, false)
        else if negb (init_local u =? 0) then ([No_cursor], Some s, false)
        else
          let '(l, s') := add_frames (tail (frames u)) s in
          if written =? 1 then (l, Some s', true) else (l ++ [Not_submitted], Some s', false)
    end.

(** ** Comparing stacks *)

(** The loop of [StackComparator], [k] indices before [depth]. *)
Fixpoint cmp_from (a b : list Z) (k : nat) (i : nat) : bool :=
  match k with
  | O => false
  | S k' =>
      let x := nth i a 0 in let y := nth i b 0 in
      if negb (x =? y) then x <? y else cmp_from a b k' (S i)
  end.

(** [StackComparator::operator()]. *)
#[global] Instance stack_ltb : Ltb ThreadStack := fun a b =>
  if negb (depth a =? depth b) then depth a <? depth b
  else cmp_from (address a) (address b) (Z.to_nat (depth a)) 0.

(** ** The end of [Collect] *)

Record Result : Type := MkResult { trace : list (Z * list byte); tids : list Z }.

Definition kUnknown : list byte := lit "(unknown)"%string.

(** [buffer] as [Symbolize] fills it, or [kUnknown]. *)
Definition symbolized (symbolize : Z -> option (list byte)) (a : Z) : Z * list byte :=
  (a, match symbolize a with Some buffer => c_str buffer | None => kUnknown end).

Definition unique_traces (slot : list ThreadStack) : list (ThreadStack * list Z) :=
  group_by (map (fun e => (e, tid e)) slot).

(** From the forms in [slot] to the results. *)
Definition post_process (symbolize : Z -> option (list byte)) (slot : list ThreadStack) : list Result :=
  map (fun e => MkResult (map (symbolized symbolize) (recorded e.1)) e.2) (unique_traces slot).

(** ** [ToPrettyString] *)

Definition endl : list byte := [byte.of_Z 10].

(** [ss << tid << ", "] for each but the last. *)
Fixpoint join_tids (ts : list Z) : list byte :=
  match ts with
  | [] => []
  | [t] => to_string t
  | t :: ts' => to_string t ++ lit ", "%string ++ join_tids ts'
  end.

Definition pretty_frame (f : Z * list byte) : list byte :=
  setw 16 (lit "0x"%string ++ to_hex f.1) ++ lit " : "%string ++ f.2 ++ endl.

Definition pretty_result (r : Result) : list byte :=
  match tids r with
  | [] => lit "No Threads"%string ++ endl
  | _ =>
      lit "Threads: "%string ++ join_tids (tids r) ++ endl ++ lit "Stack trace:"%string ++ endl
      ++ concat (map pretty_frame (trace r)) ++ endl
  end.

(** The string, and the argument of the callback, called when one is set. *)
Definition ToPrettyString (callback : bool) (rs : list Result) : list byte * option (list Z) :=
  (concat (map pretty_result rs), if callback then Some (concat (map tids rs)) else None).

(** ** Reference definitions *)

(** A sequence of addresses, ordered by length first. *)
Definition trace_key : Type := list Z.

#[global] Typeclasses Opaque trace_key.

#[global] Instance key_ltb : Ltb trace_key := fun a b =>
  if (length a <? length b)%nat then true
  else if (length b <? length a)%nat then false else lex_ltb (A := Z) a b.

(** One result per distinct sequence of recorded addresses, in order, with the threads that recorded it. *)
Definition grouped (symbolize : Z -> option (list byte)) (slot : list ThreadStack) : list Result :=
  map (fun k : list Z =>
         MkResult (map (symbolized symbolize) k)
           (map tid (filter (fun s => recorded s = k) slot)))
    (set_of (A := trace_key) (map recorded slot)).

(** The array is never overrun. *)
Definition form_ok (s : ThreadStack) : Prop :=
  length (address s) = Z.to_nat kMaxDepth /\ 0 <= depth s <= kMaxDepth.

(** ** Lemmas: forms *)

Lemma recorded_length s : form_ok s -> Z.of_nat (length (recorded s)) = depth s.
Proof. intros [Hl Hd]. unfold recorded, kMaxDepth in *. rewrite length_take. lia. Qed.

Lemma AddAddress_spec a s :
  form_ok s ->
  let '(ok, s') := AddAddress a s in
  form_ok s' /\ tid s' = tid s
  /\ ok = (length (recorded s) <? 100)%nat
  /\ recorded s' = if ok then recorded s ++ [a] else recorded s.
Proof.
  intros Hok. pose proof (recorded_length s Hok) as Hr. unfold AddAddress. destruct Hok as [Hl Hd].
  unfold kMaxDepth in *.
  destruct (Z.leb_spec 100 (depth s)).
  - split; [done|]. split; [done|]. split; [|done]. symmetry. apply Nat.ltb_ge. lia.
  - split; [split; cbn; [by rewrite length_insert|unfold kMaxDepth; lia]|]. split; [done|].
    split; [symmetry; apply Nat.ltb_lt; lia|].
    unfold recorded. cbn. replace (Z.to_nat (depth s + 1)) with (S (Z.to_nat (depth s))) by lia.
    erewrite take_S_r by (apply list_lookup_insert_eq; lia). f_equal.
    by rewrite take_insert, decide_False by lia.
Qed.

(** The loop records the first readable addresses, up to the capacity of the form. *)
Lemma add_frames_spec fs s :
  form_ok s ->
  form_ok (add_frames fs s).2 /\ tid (add_frames fs s).2 = tid s
  /\ recorded (add_frames fs s).2 = take 100 (recorded s ++ omap id fs).
Proof.
  revert s. induction fs as [|[ip|] fs IH]; intros s Hok; cbn.
  - split; [done|]. split; [done|]. rewrite app_nil_r, take_ge; [done|].
    pose proof (recorded_length s Hok). destruct Hok. unfold kMaxDepth in *. lia.
  - pose proof (AddAddress_spec ip s Hok) as Ha. destruct (AddAddress ip s) as [ok s'].
    destruct Ha as (Hok' & Ht & Eok & Hr).
    destruct ok; cbn.
    + destruct (IH s' Hok') as (? & Ht2 & Hr2). split; [done|]. split; [congruence|].
      by rewrite Hr2, Hr, <- app_assoc.
    + symmetry in Eok. apply Nat.ltb_ge in Eok. split; [done|]. split; [done|].
      rewrite Hr, take_app_le by done.
      rewrite take_ge; [done|]. pose proof (recorded_length s Hok). destruct Hok. unfold kMaxDepth in *. lia.
  - destruct (IH s Hok) as (? & ? & ?). by destruct (add_frames fs s) as [l s'].
Qed.

(** ** Lemmas: the comparator *)

#[global] Instance key_sto : StrictTotalOrder trace_key.
Proof.
  assert (Hs : StrictTotalOrder (list Z)) by apply _. destruct Hs as [[Hi Ht Hw] He].
  unfold ltb, list_ltb in *.
  split; [split|]; unfold ltb, key_ltb.
  - intros x. rewrite Nat.ltb_irrefl. apply Hi.
  - intros x y z. repeat case_match; rewrite ?Nat.ltb_lt, ?Nat.ltb_ge in *; try lia; try done. by apply Ht.
  - intros x y z. repeat case_match; rewrite ?Nat.ltb_lt, ?Nat.ltb_ge in *; try lia; auto.
  - intros x y. repeat case_match; rewrite ?Nat.ltb_lt, ?Nat.ltb_ge in *; try lia; try done. by apply He.
Qed.

(** The indices the comparator looks at. *)
Definition compared (s : ThreadStack) (i k : nat) : list Z := map (fun j => nth j (address s) 0) (seq i k).

Lemma cmp_from_lex a b k i :
  cmp_from (address a) (address b) k i = lex_ltb (A := Z) (compared a i k) (compared b i k).
Proof.
  revert i. induction k as [|k IH]; intros i; [done|].
  cbn [cmp_from compared seq map lex_ltb]. unfold ltb, Z_ltb.
  destruct (Z.eqb_spec (nth i (address a) 0) (nth i (address b) 0)) as [E|]; cbn.
  - rewrite E, Z.ltb_irrefl. apply IH.
  - destruct (Z.ltb_spec (nth i (address a) 0) (nth i (address b) 0)),
      (Z.ltb_spec (nth i (address b) 0) (nth i (address a) 0)); try done; lia.
Qed.

(** The comparator satisfies what [std::map] requires of it, whatever the forms hold. *)
#[global] Instance stack_swo : StrictWeakOrder ThreadStack.
Proof.
  assert (Hs : StrictWeakOrder (list Z)) by apply list_sto. destruct Hs as [Hi Ht Hw].
  unfold ltb, list_ltb in Hi, Ht, Hw.
  split; unfold ltb, stack_ltb.
  - intros x. rewrite Z.eqb_refl. cbn. rewrite cmp_from_lex. apply Hi.
  - intros x y z. rewrite !cmp_from_lex.
    destruct (Z.eqb_spec (depth x) (depth y)) as [E1|], (Z.eqb_spec (depth y) (depth z)) as [E2|],
      (Z.eqb_spec (depth x) (depth z)) as [E3|]; cbn; rewrite ?Z.ltb_lt; try lia.
    rewrite E1, E2. apply Ht.
  - intros x y z. rewrite !cmp_from_lex.
    destruct (Z.eqb_spec (depth x) (depth y)) as [E1|], (Z.eqb_spec (depth y) (depth z)) as [E2|],
      (Z.eqb_spec (depth x) (depth z)) as [E3|]; cbn; rewrite ?Z.ltb_lt; try lia.
    rewrite E1, E2. apply Hw.
Qed.

Lemma compared_recorded s : form_ok s -> compared s 0 (Z.to_nat (depth s)) = recorded s.
Proof.
  intros [Hl Hd]. unfold compared, recorded, kMaxDepth in *.
  assert (Hk : (Z.to_nat (depth s) <= length (address s))%nat) by lia. revert Hk. clear.
  generalize (Z.to_nat (depth s)) as k, (address s) as l. induction k as [|k IH]; intros l Hk.
  - by rewrite take_0.
  - rewrite seq_S, map_app, IH by lia. cbn.
    destruct (lookup_lt_is_Some_2 l k) as [x Hx]; [lia|].
    by rewrite (take_S_r _ _ _ Hx), (nth_lookup_Some _ _ _ _ Hx).
Qed.

(** [StackComparator] orders forms as their recorded addresses. *)
Lemma stack_ltb_key a b :
  form_ok a -> form_ok b -> ltb a b = ltb (A := trace_key) (recorded a) (recorded b).
Proof.
  intros Ha Hb. pose proof (recorded_length _ Ha). pose proof (recorded_length _ Hb).
  unfold ltb, stack_ltb, key_ltb.
  destruct (Z.eqb_spec (depth a) (depth b)) as [E|]; cbn [negb].
  - replace (length (recorded a)) with (length (recorded b)) by lia. rewrite Nat.ltb_irrefl.
    rewrite cmp_from_lex, (compared_recorded a) by done. by rewrite E, compared_recorded.
  - destruct (Nat.ltb_spec (length (recorded a)) (length (recorded b)));
      destruct (Z.ltb_spec (depth a) (depth b)); try lia; try done.
    destruct (Nat.ltb_spec (length (recorded b)) (length (recorded a))); [done|lia].
Qed.

Lemma key_equiv (x y : trace_key) : equivb x y = true <-> x = y.
Proof.
  rewrite equivb_spec. split; [intros []; by apply ltb_total|]. intros ->. by rewrite !ltb_irrefl.
Qed.

(** ** Lemmas: grouping *)

Lemma map_push_keys_set (s : ThreadStack) (t : Z) (m : list (ThreadStack * list Z)) :
  form_ok s -> Forall (fun e => form_ok e.1) m ->
  map (fun e => recorded e.1) (map_push s t m)
  = set_insert (A := trace_key) (recorded s) (map (fun e => recorded e.1) m)
  /\ Forall (fun e => form_ok e.1) (map_push s t m).
Proof.
  intros Hs. induction 1 as [|[s1 vs] m Hs1 Hm IH]; cbn; [by rewrite Forall_singleton|].
  cbn in Hs1. destruct IH as [IH1 IH2].
  rewrite (stack_ltb_key s1 s), (stack_ltb_key s s1) by done.
  destruct (ltb (A := trace_key) (recorded s1) (recorded s)) eqn:E1.
  - rewrite (ltb_asym (A := trace_key) _ _ E1). cbn. rewrite IH1. split; [done|by constructor].
  - destruct (ltb (A := trace_key) (recorded s) (recorded s1)); cbn; rewrite !Forall_cons; done.
Qed.

Lemma unique_traces_keys (slot : list ThreadStack) :
  Forall form_ok slot ->
  map (fun e => recorded e.1) (unique_traces slot) = set_of (A := trace_key) (map recorded slot)
  /\ Forall (fun e => form_ok e.1) (unique_traces slot).
Proof.
  unfold unique_traces. induction slot as [|s slot IH] using rev_ind; intros Hs; [by split; [|constructor]|].
  apply Forall_app in Hs as [Hs [Hs' _]%Forall_cons]. destruct (IH Hs) as [IH1 IH2].
  rewrite !map_app. cbn [map]. rewrite group_by_snoc.
  destruct (map_push_keys_set s (tid s) _ Hs' IH2) as [E Hok]. split; [|done].
  rewrite E, IH1. unfold set_of. by rewrite fold_left_app.
Qed.

(** The bucket of a form holds the threads that recorded the same addresses. *)
Lemma unique_traces_bucket (slot : list ThreadStack) e :
  Forall form_ok slot -> e ∈ unique_traces slot ->
  e.2 = map tid (filter (fun s => recorded s = recorded e.1) slot).
Proof.
  intros Hs He. destruct (unique_traces_keys slot Hs) as [_ Hok].
  rewrite Forall_forall in Hok. specialize (Hok _ He). destruct e as [k vs]. cbn in *.
  pose proof (map_find_elem k vs _ (group_by_sorted _) He) as Hf.
  unfold unique_traces in Hf. rewrite group_by_find in Hf.
  assert (E : filter (fun kv : ThreadStack * Z => equivb k kv.1 = true) (map (fun e => (e, tid e)) slot)
              = map (fun e => (e, tid e)) (filter (fun s => recorded s = recorded k) slot)).
  { clear Hf He. induction Hs as [|s slot Hs1 Hs IH]; cbn [map]; [done|].
    rewrite !filter_cons, IH. cbn [fst].
    assert (Hd : equivb k s = true <-> recorded s = recorded k).
    { rewrite equivb_spec, !stack_ltb_key, <- (equivb_spec (A := trace_key)), key_equiv by done. done. }
    repeat case_decide; try done; tauto. }
  rewrite E in Hf. destruct (filter _ slot) as [|s l] eqn:El; [done|]. cbn [map] in Hf.
  injection Hf as <-. cbn. by rewrite map_map.
Qed.

(** ** Lemmas: symbols *)

Lemma post_process_eq symbolize slot :
  Forall form_ok slot -> post_process symbolize slot = grouped symbolize slot.
Proof.
  intros Hs. unfold post_process, grouped. rewrite <- (proj1 (unique_traces_keys slot Hs)), map_map.
  apply map_ext_in. intros e He%list_elem_of_In. by rewrite <- (unique_traces_bucket slot e).
Qed.

(** Every bucket holds a thread. *)
Lemma unique_traces_nonempty (slot : list ThreadStack) : Forall (fun e => e.2 <> []) (unique_traces slot).
Proof.
  unfold unique_traces. induction slot as [|s slot IH] using rev_ind; [constructor|].
  rewrite map_app. cbn [map]. rewrite group_by_snoc. revert IH.
  generalize (group_by (map (fun e => (e, tid e)) slot)). induction 1 as [|[k vs] m Hv Hm IH]; cbn.
  - by repeat constructor.
  - repeat case_match; repeat constructor; try done. cbn. by destruct vs.
Qed.

(** The results name every thread once. *)
Lemma post_process_tids symbolize slot : concat (map tids (post_process symbolize slot)) ≡ₚ map tid slot.
Proof.
  unfold post_process. rewrite map_map. cbn. etransitivity; [apply group_by_values|]. by rewrite map_map.
Qed.

Lemma post_process_nonempty symbolize slot : Forall (fun r => tids r <> []) (post_process symbolize slot).
Proof. unfold post_process. apply Forall_map. apply unique_traces_nonempty. Qed.

(** ** Properties *)

(** C22. The handler of a signalled thread: it acknowledges exactly when the signal comes from its own
    process with a form, libunwind initialises and the byte is written; and then the form holds the
    readable instruction pointers, the handler's own frame left out, after what it held, cut at
    its capacity: the array is never overrun. Signals from other processes change nothing. *)
Theorem handler_fills_form (si_pid pid : Z) (form form' : option ThreadStack) (u : unwinder) (written : Z)
    (l : list complaint) (acked : bool) :
  (forall s, form = Some s -> form_ok s) ->
  InternalHandler si_pid pid form u written = (l, form', acked) ->
  (acked = true <->
     si_pid = pid /\ is_Some form /\ getcontext u = 0 /\ init_local u = 0 /\ written = 1)
  /\ (acked = true -> exists s s', form = Some s /\ form' = Some s' /\ form_ok s' /\ tid s' = tid s
        /\ recorded s' = take 100 (recorded s ++ omap id (tail (frames u))))
  /\ (si_pid <> pid -> form' = form /\ l = [Outsider_pid]).
Proof.
  intros Hok. unfold InternalHandler.
  destruct (Z.eqb_spec si_pid pid) as [->|]; cbn [negb]; [|intros [= <- <- <-]; split; [split; [done|by intros []]|by split]].
  destruct form as [s|]; [|intros [= <- <- <-]; split; [|done]; split; [done|intros (_ & [? ?] & _); done]].
  destruct (Z.eqb_spec (getcontext u) 0); cbn [negb]; [|intros [= <- <- <-]; split; [|done]; split; [done|tauto]].
  destruct (Z.eqb_spec (init_local u) 0); cbn [negb]; [|intros [= <- <- <-]; split; [|done]; split; [done|tauto]].
  pose proof (add_frames_spec (tail (frames u)) s (Hok _ eq_refl)) as (Hok' & Ht & Hr).
  destruct (add_frames (tail (frames u)) s) as [l0 s']. cbn in *.
  destruct (Z.eqb_spec written 1); intros [= <- <- <-].
  - split; [by split; eauto 10|]. split; [|done]. intros _. by exists s, s'.
  - split; [|done]. split; [done|tauto].
Qed.

(** C10. The grouping at the end of [Collect], a [std::map] ordered by [StackComparator], is its reference
    definition: one result per distinct sequence of recorded addresses, in the order of length then of
    addresses, each with exactly the threads that recorded it, in the order of [slot]. *)
Theorem collect_groups (symbolize : Z -> option (list byte)) (slot : list ThreadStack) :
  Forall form_ok slot -> post_process symbolize slot = grouped symbolize slot.
Proof. apply post_process_eq. Qed.

(** No thread is lost in the report: every result names a thread, the callback of [ToPrettyString]
    gets every thread of [slot] exactly once, and it is called exactly when it is set. *)
Theorem report_names_every_thread (symbolize : Z -> option (list byte)) (slot : list ThreadStack)
    (callback : bool) :
  Forall (fun r => tids r <> []) (post_process symbolize slot)
  /\ match (ToPrettyString callback (post_process symbolize slot)).2 with
     | Some ts => callback = true /\ ts ≡ₚ map tid slot
     | None => callback = false
     end.
Proof.
  split; [apply post_process_nonempty|]. cbn. destruct callback; [|done]. split; [done|]. apply post_process_tids.
Qed.

(** ** Witnesses *)

Definition demo_array : list Z := repeat 0 100.

Definition demo_form (t : Z) (l : list Z) : ThreadStack :=
  (add_frames (map Some l) (new_form t demo_array)).2.

Lemma handler_fills_form_witness :
  let u := Unwinder 0 0 [Some 1; Some 2; None; Some 3] in
  let r := InternalHandler 7 7 (Some (new_form 12 demo_array)) u 1 in
  r.1.1 = [No_ip] /\ (recorded <$> r.1.2) = Some [2; 3]
  /\ exists s s', Some (new_form 12 demo_array) = Some s /\ r.1.2 = Some s' /\ form_ok s' /\ tid s' = tid s
       /\ recorded s' = take 100 (recorded s ++ omap id (tail (frames u))).
Proof.
  intros u r. split; [by vm_compute|]. split; [by vm_compute|].
  refine (proj1 (proj2 (handler_fills_form 7 7 (Some (new_form 12 demo_array)) r.1.2 u 1 r.1.1 true _ _)) eq_refl).
  - intros s [= <-]. by split.
  - by vm_compute.
Defined.

Lemma collect_groups_witness :
  let slot := [demo_form 3 [10; 20]; demo_form 4 [30]; demo_form 5 [10; 20]] in
  map tids (post_process (fun _ => None) slot) = [[4]; [3; 5]]
  /\ post_process (fun _ => None) slot = grouped (fun _ => None) slot.
Proof.
  split; [by vm_compute|]. apply collect_groups. by repeat constructor.
Defined.
