(* ===== verification/Report.v ===== *)
(** * Reading the report ([src/src/ts/signal_handler.cc], [ToPrettyString])

    A reader of what [ToPrettyString] prints, as a tool that follows the output of the server would have it: the text
    is cut in lines, the lines in blocks at the empty ones, a block is a list of threads and a list of frames. The
    theorem is that it gives back the results, so that the report loses nothing. *)

From S2P Require Import Prelude.
From S2P Require Import Text.
From S2P Require Import OrdSet.
From S2P Require Import StackTrace.
From Stdlib Require String.
Import String.StringSyntax.
#[local] Open Scope list_scope.

(** ** Cutting *)

(** The pieces of a list that end with a separator, and what follows the last one. *)
Fixpoint pieces {A} (sep : A -> bool) (l : list A) : list (list A) * list A :=
  match l with
  | [] => ([], [])
  | x :: l' =>
      let '(ps, r) := pieces sep l' in
      if sep x then ([] :: ps, r)
      else match ps with [] => ([], x :: r) | p :: ps' => ((x :: p) :: ps', r) end
  end.

(** All the pieces, when nothing follows the last one. *)
Definition cut {A} (sep : A -> bool) (l : list A) : option (list (list A)) :=
  match pieces sep l with (ps, []) => Some ps | _ => None end.

Definition newline : byte := byte.of_Z 10.
Definition comma : byte := byte.of_Z 44.
Definition space : byte := byte.of_Z 32.

(** What follows a prefix. *)
Fixpoint strip (p s : list byte) : option (list byte) :=
  match p, s with
  | [], _ => Some s
  | b :: p', c :: s' => if Byte.eqb b c then strip p' s' else None
  | _ :: _, [] => None
  end.

(** The word before the first space, and the rest. *)
Fixpoint word (s : list byte) : list byte * list byte :=
  match s with
  | b :: s' => if Byte.eqb b space then ([], s) else let '(w, r) := word s' in (b :: w, r)
  | [] => ([], [])
  end.

(** ** The reader *)

Definition hex_val (b : byte) : Z := if byte.unsigned b <? 58 then byte.unsigned b - 48 else byte.unsigned b - 87.

Definition read_hex (s : list byte) : Z := wrapS 64 (fold_left (fun a b => a * 16 + hex_val b) s 0).

Definition read_tid (s : list byte) : option Z := match stoll s with inr z => Some z | inl _ => None end.

Definition read_tids (s : list byte) : option (list Z) := fs ← cut (Byte.eqb comma) (s ++ [comma]); mapM read_tid fs.

Definition read_frame (l : list byte) : option (Z * list byte) :=
  s ← strip (lit "0x"%string) (skip_spaces l);
  let '(w, r) := word s in
  symbol ← strip (lit " : "%string) r; Some (read_hex w, symbol).

Definition read_block (ls : list (list byte)) : option Result :=
  match ls with
  | l1 :: l2 :: fs =>
      s ← strip (lit "Threads: "%string) l1;
      ts ← read_tids s;
      _ ← strip l2 (lit "Stack trace:"%string);
      trace ← mapM read_frame fs; Some (MkResult trace ts)
  | _ => None
  end.

Definition read_report (s : list byte) : option (list Result) :=
  ls ← cut (Byte.eqb newline) s;
  bs ← cut (fun l : list byte => match l with [] => true | _ => false end) ls;
  mapM read_block bs.

(** ** What can be read back *)

Definition no_nul (s : list byte) : Prop := Forall (fun b => byte.unsigned b <> 0) s.

Definition in_line (s : list byte) : Prop := Forall (fun b => Byte.eqb newline b = false) s.

(** A result of [Collect]: it names threads, and a symbol is on one line. *)
Definition result_ok (r : Result) : Prop :=
  tids r <> [] /\ Forall (fun t => in_sint 64 t = true) (tids r)
  /\ Forall (fun f => in_sint 64 f.1 = true /\ in_line f.2) (trace r).

(** ** Lemmas: cutting *)

Section pieces.
Context {A : Type} (sep : A -> bool).

Lemma pieces_cons p s l :
  Forall (fun x => sep x = false) p -> sep s = true ->
  pieces sep (p ++ s :: l) = (p :: (pieces sep l).1, (pieces sep l).2).
Proof.
  intros Hp Hs. induction Hp as [|x p Hx _ IH]; cbn [app pieces].
  - rewrite Hs. by destruct (pieces sep l).
  - by rewrite IH, Hx.
Qed.

(** Pieces that are put together come apart. *)
Lemma cut_concat s ps :
  sep s = true -> Forall (Forall (fun x => sep x = false)) ps ->
  cut sep (concat (map (fun p => p ++ [s]) ps)) = Some ps.
Proof.
  intros Hs Hp. unfold cut.
  assert (E : pieces sep (concat (map (fun p => p ++ [s]) ps)) = (ps, [])); [|by rewrite E].
  induction Hp as [|p ps Hp1 Hp IH]; [done|]. cbn [map concat]. rewrite <- app_assoc. cbn [app].
  by rewrite pieces_cons, IH by done.
Qed.
End pieces.

Lemma strip_app p s : strip p (p ++ s) = Some s.
Proof. induction p as [|b p IH]; cbn; [done|]. by rewrite (Byte.byte_dec_lb eq_refl). Qed.

Lemma strip_self p : is_Some (strip p p).
Proof. exists []. rewrite <- (app_nil_r p) at 2. apply strip_app. Qed.

Lemma word_app w s : Forall (fun b => Byte.eqb b space = false) w -> word (w ++ space :: s) = (w, space :: s).
Proof. induction 1 as [|b w Hb _ IH]; cbn [app word]; [done|]. by rewrite Hb, IH. Qed.

Lemma mapM_map {A B C} (f : B -> option C) (g : A -> B) (h : A -> C) l :
  Forall (fun x => f (g x) = Some (h x)) l -> mapM f (map g l) = Some (map h l).
Proof. induction 1 as [|x l Hx _ IH]; cbn [map mapM]; [done|]. rewrite Hx. cbn. by rewrite IH. Qed.

(** ** Lemmas: numbers *)

(** The characters of numbers: neither separators nor spaces, nor NUL. *)
Definition numeral (b : byte) : Prop :=
  Byte.eqb newline b = false /\ Byte.eqb comma b = false /\ Byte.eqb b space = false /\ byte.unsigned b <> 0.

Lemma digit_char_hex d : 0 <= d < 16 -> numeral (digit_char d) /\ hex_val (digit_char d) = d.
Proof.
  intros Hd. assert (H : forall k, (k < 16)%nat -> numeral (digit_char (Z.of_nat k)) /\ hex_val (digit_char (Z.of_nat k)) = Z.of_nat k).
  { intros k Hk. do 16 (destruct k as [|k]; [by vm_compute|]). lia. }
  replace d with (Z.of_nat (Z.to_nat d)) by lia. apply H. lia.
Qed.

Lemma print_nat_numeral base n : 0 <= n -> 1 < base <= 16 -> Forall numeral (print_nat base n).
Proof.
  intros Hn Hb. unfold print_nat. apply Forall_map. eapply Forall_impl; [by apply digits_range; lia|].
  intros d Hd. cbn in Hd. apply digit_char_hex. lia.
Qed.

Lemma to_string_numeral z : Forall numeral (to_string z).
Proof.
  unfold to_string. destruct (Z.ltb_spec z 0); [constructor; [by vm_compute|]|]; apply print_nat_numeral; lia.
Qed.

(** Addresses are printed as unsigned numbers and read as signed ones. *)
Lemma read_hex_to_hex z : in_sint 64 z = true -> read_hex (to_hex z) = z.
Proof.
  intros Hz. unfold read_hex, to_hex, print_nat. set (n := wrapU 64 z).
  assert (Hn : 0 <= n) by (unfold n; pose proof (wrapU_range 64 z); lia).
  assert (E : forall l a, Forall (fun d => 0 <= d < 16) l ->
    fold_left (fun a b => a * 16 + hex_val b) (map digit_char l) a = fold_left (fun a d => a * 16 + d) l a).
  { intros l a Hl. revert a. induction Hl as [|d l Hd _ IH]; intros a; cbn; [done|].
    rewrite IH. by rewrite (proj2 (digit_char_hex d Hd)). }
  rewrite E by (apply digits_range; lia). rewrite digits_all by lia.
  unfold n, wrapU. rewrite wrapS_mod by lia. by apply wrapS_small.
Qed.

(** ** Lemmas: lines *)

Lemma read_tid_print z : in_sint 64 z = true -> read_tid (to_string z) = Some z.
Proof. intros Hz. unfold read_tid. by rewrite stoll_to_string. Qed.

Lemma read_tid_space s : read_tid (space :: s) = read_tid s.
Proof. done. Qed.

Lemma read_tids_join ts :
  ts <> [] -> Forall (fun t => in_sint 64 t = true) ts -> read_tids (join_tids ts) = Some ts.
Proof.
  intros Hne Hts. destruct ts as [|t ts]; [done|]. clear Hne. unfold read_tids.
  (* every field but the first starts with the space of the separator *)
  assert (E : join_tids (t :: ts) ++ [comma]
    = concat (map (fun p => p ++ [comma]) (to_string t :: map (fun t => space :: to_string t) ts))).
  { clear Hts. revert t. induction ts as [|t' ts IH]; intros t.
    { cbn [map concat join_tids]. by rewrite app_nil_r. }
    cbn [join_tids]. rewrite <- !app_assoc. cbn [map concat] in IH |- *. rewrite <- app_assoc.
    change (lit ", "%string) with [comma; space]. cbn [app]. do 3 f_equal. apply IH. }
  rewrite E, cut_concat; [|done|].
  2:{ constructor; [|apply Forall_map, Forall_forall; intros u _; constructor; [done|]];
        (eapply Forall_impl; [apply to_string_numeral|]); by intros b (_ & ? & _). }
  apply Forall_cons in Hts as [Ht Hts]. cbn [mbind option_bind mapM].
  rewrite read_tid_print by done. cbn [mbind option_bind].
  rewrite (mapM_map read_tid _ id), map_id; [done|]. eapply Forall_impl; [exact Hts|]. intros u Hu.
  rewrite read_tid_space. by apply read_tid_print.
Qed.

(** A frame without the end of its line. *)
Definition frame_line (f : Z * list byte) : list byte :=
  setw 16 (lit "0x"%string ++ to_hex f.1) ++ lit " : "%string ++ f.2.

Lemma skip_spaces_setw w b s : is_space b = false -> skip_spaces (setw w (b :: s)) = b :: s.
Proof.
  intros Hb. unfold setw. induction (w - length (b :: s))%nat as [|k IH]; cbn [repeat app skip_spaces]; [by rewrite Hb|].
  exact IH.
Qed.

Lemma setw_app w s t : setw w s ++ t = setw (w + length t) (s ++ t).
Proof. unfold setw. rewrite <- app_assoc, length_app. do 2 f_equal. lia. Qed.

Lemma read_frame_line f : in_sint 64 f.1 = true -> read_frame (frame_line f) = Some f.
Proof.
  intros Hf. unfold read_frame, frame_line. rewrite setw_app, <- app_assoc. cbn [lit app].
  change (lit "0x"%string) with [byte.of_Z 48; byte.of_Z 120]. cbn [app].
  rewrite skip_spaces_setw by done. change (?a :: ?b :: ?s) with ([a; b] ++ s). rewrite strip_app. cbn [mbind option_bind].
  change (lit " : "%string) with (space :: [byte.of_Z 58; space]). cbn [app].
  rewrite word_app.
  - cbn [mbind option_bind]. change (?a :: ?b :: ?c :: f.2) with ([a; b; c] ++ f.2). rewrite strip_app. cbn [mbind option_bind].
    rewrite read_hex_to_hex by done. by destruct f.
  - unfold to_hex. eapply Forall_impl; [apply print_nat_numeral; [apply wrapU_range|]; lia|]. by intros b (_ & _ & ? & _).
Qed.

Lemma frame_line_ok f : in_line f.2 -> in_line (frame_line f) /\ frame_line f <> [].
Proof.
  intros Hf. unfold frame_line, setw, in_line. split.
  - rewrite !Forall_app. split_and!; [|by repeat constructor| |by repeat constructor|done].
    + apply Forall_forall. intros b Hb%list_elem_of_In%repeat_spec. by subst b.
    + unfold to_hex. eapply Forall_impl; [apply print_nat_numeral; [apply wrapU_range|]; lia|]. by intros b (? & _).
  - intros E%(f_equal length). rewrite !length_app in E. cbn in E. lia.
Qed.

(** ** Lemmas: blocks *)

Definition block_lines (r : Result) : list (list byte) :=
  (lit "Threads: "%string ++ join_tids (tids r)) :: lit "Stack trace:"%string :: map frame_line (trace r).

Lemma pretty_result_lines r :
  tids r <> [] -> pretty_result r = concat (map (fun l => l ++ [newline]) (block_lines r ++ [[]])).
Proof.
  intros Hr. unfold pretty_result. destruct (tids r) as [|t ts] eqn:E; [done|]. unfold block_lines. rewrite E.
  cbn [map concat app]. rewrite <- !app_assoc. do 4 f_equal. change endl with [newline].
  rewrite map_app, concat_app, map_map.
  rewrite (map_ext pretty_frame (fun f => frame_line f ++ [newline])); [done|]. intros f.
  unfold pretty_frame, frame_line. by rewrite <- !app_assoc.
Qed.

Lemma join_tids_in_line ts : in_line (join_tids ts).
Proof.
  unfold in_line. induction ts as [|t [|t' ts] IH]; [constructor|..]; cbn [join_tids]; [|apply Forall_app; split; [|by repeat constructor]];
    (eapply Forall_impl; [apply to_string_numeral|]); by intros b (? & _).
Qed.

Lemma block_lines_ok r : result_ok r -> Forall (fun l => in_line l /\ l <> []) (block_lines r).
Proof.
  intros (_ & _ & Hf). unfold block_lines. constructor; [|constructor].
  - split; [|done]. apply Forall_app. split; [by repeat constructor|apply join_tids_in_line].
  - split; [by repeat constructor|done].
  - apply Forall_map. eapply Forall_impl; [exact Hf|]. intros f [_ Hl]. by apply frame_line_ok.
Qed.

Lemma read_block_lines r : result_ok r -> read_block (block_lines r) = Some r.
Proof.
  intros (Hne & Ht & Hf). unfold read_block, block_lines. rewrite strip_app. cbn [mbind option_bind].
  rewrite read_tids_join by done. cbn [mbind option_bind]. destruct (strip_self (lit "Stack trace:"%string)) as [x ->].
  cbn [mbind option_bind]. rewrite (mapM_map read_frame frame_line id); [rewrite map_id; by destruct r|].
  eapply Forall_impl; [exact Hf|]. intros f [Hz _]. by apply read_frame_line.
Qed.

Lemma concat_map_concat {A B} (f : A -> list B) (ls : list (list A)) :
  concat (map (fun l => concat (map f l)) ls) = concat (map f (concat ls)).
Proof. induction ls as [|l ls IH]; cbn; [done|]. by rewrite map_app, concat_app, IH. Qed.

Lemma read_report_pretty rs : Forall result_ok rs -> read_report (concat (map pretty_result rs)) = Some rs.
Proof.
  intros Hrs. unfold read_report.
  assert (E : concat (map pretty_result rs)
    = concat (map (fun l => l ++ [newline]) (concat (map (fun b => b ++ [[]]) (map block_lines rs))))).
  { rewrite map_map. rewrite <- concat_map_concat, map_map. f_equal. apply map_ext_in. intros r Hr%list_elem_of_In.
    rewrite Forall_forall in Hrs. apply pretty_result_lines, Hrs, Hr. }
  rewrite E, cut_concat; [|done|].
  2:{ apply Forall_concat, Forall_map, Forall_map. eapply Forall_impl; [exact Hrs|]. intros r Hr%block_lines_ok.
      apply Forall_app. split; [|by repeat constructor]. eapply Forall_impl; [exact Hr|]. by intros l [? _]. }
  cbn [mbind option_bind]. rewrite cut_concat; [|done|].
  2:{ apply Forall_map. eapply Forall_impl; [exact Hrs|]. intros r Hr%block_lines_ok.
      eapply Forall_impl; [exact Hr|]. by intros [|b l] [_ ?]. }
  cbn [mbind option_bind]. rewrite (mapM_map read_block block_lines id), map_id; [done|].
  eapply Forall_impl; [exact Hrs|]. apply read_block_lines.
Qed.

(** The report is a C string: nothing of it is cut when it is printed with [%s]. *)
Lemma pretty_no_nul rs :
  Forall (fun r => Forall (fun f => no_nul f.2) (trace r)) rs -> no_nul (concat (map pretty_result rs)).
Proof.
  assert (Hn : forall s, Forall numeral s -> no_nul s).
  { intros s Hs. eapply Forall_impl; [exact Hs|]. by intros b (_ & _ & _ & ?). }
  assert (Hf : forall f, no_nul f.2 -> no_nul (pretty_frame f)).
  { intros f Hf. unfold pretty_frame, setw, no_nul. rewrite !Forall_app. split_and!; try done.
    - apply Forall_forall. intros b Hb%list_elem_of_In%repeat_spec. by subst b.
    - by repeat constructor.
    - apply Hn, print_nat_numeral; [apply wrapU_range|]; lia.
    - by repeat constructor.
    - by repeat constructor. }
  intros Hrs. apply Forall_concat, Forall_map. eapply Forall_impl; [exact Hrs|]. intros r Hr. unfold pretty_result.
  destruct (tids r) as [|t ts] eqn:E; [by repeat constructor|]. unfold no_nul. rewrite !Forall_app.
  split_and!; try (by repeat constructor).
  - clear E. revert t. induction ts as [|t' ts IH]; intros t; [apply Hn, to_string_numeral|].
    cbn [join_tids]. rewrite !Forall_app. split_and!; [apply Hn, to_string_numeral|by repeat constructor|apply IH].
  - apply Forall_concat, Forall_map. eapply Forall_impl; [exact Hr|]. apply Hf.
Qed.

(** ** Properties *)

(** C11. The report can be read back: from what [ToPrettyString] prints a reader recovers the results, every thread and every
    frame with its address and its symbol, for threads and addresses of any value, symbols that stay on a line, and
    results that name a thread, which are all those of [Collect]. In particular different results have
    different reports. *)
Theorem report_roundtrip (callback : bool) (rs : list Result) :
  Forall result_ok rs -> read_report (ToPrettyString callback rs).1 = Some rs.
Proof. apply read_report_pretty. Qed.

(** A symbol with a line break is enough to read a frame that is not there. *)
Theorem report_ambiguous :
  exists r r', r <> r' /\ result_ok r' /\ (ToPrettyString false [r]).1 = (ToPrettyString false [r']).1.
Proof.
  exists (MkResult [(1, lit "f"%string ++ [newline] ++ frame_line (2, lit "g"%string))] [7]),
    (MkResult [(1, lit "f"%string); (2, lit "g"%string)] [7]).
  split; [done|]. split; [|by vm_compute]. split; [done|]. split; [by repeat constructor|].
  by repeat constructor.
Qed.

(** ** Witnesses *)

Definition demo_results : list Result :=
  [MkResult [(255, lit "main"%string); (-1, kUnknown)] [12; 7]; MkResult [] [3]].

Lemma report_roundtrip_witness :
  (ToPrettyString false demo_results).1
  = lit "Threads: 12, 7"%string ++ endl ++ lit "Stack trace:"%string ++ endl
    ++ lit "            0xff : main"%string ++ endl ++ lit "0xffffffffffffffff : (unknown)"%string ++ endl ++ endl
    ++ lit "Threads: 3"%string ++ endl ++ lit "Stack trace:"%string ++ endl ++ endl
  /\ read_report (ToPrettyString false demo_results).1 = Some demo_results.
Proof.
  split; [by vm_compute|]. apply (report_roundtrip false demo_results).
  repeat (constructor; [split; [done|]; split; repeat constructor|]); constructor.
Defined.
