(* ===== verification/CondVar.v ===== *)
(** * Condition variables over a pool of threads

    The monitors of the repository ([zqueue.h], [unbuffered_channel.h]) share one discipline: threads
    block on a condition variable, [notify_one] wakes some blocked thread, [notify_all] wakes all of
    them. A pool maps thread identifiers to program counters of any type [pc]; a condition variable is
    the function that says which program counters are blocked on it, and what waking turns them
    into. This file gives the two notifications and the lemmas on them, on the existence of threads
    with a property ([has]) and on their number ([count]). *)

From S2P Require Import Prelude.

Section pool.
Context {pc : Type}.

(** [notify_one]: wakes the chosen thread, which must be blocked; none can be chosen only when no
    thread is blocked. *)
Definition notify_one (wake : pc -> option pc) (choice : option nat) (ths : gmap nat pc)
    : option (gmap nat pc) :=
  match choice with
  | Some t =>
      match ths !! t ≫= wake with
      | Some p' => Some (<[t := p']> ths)
      | None => None
      end
  | None => if decide (map_Forall (fun _ p => ¬ is_Some (wake p)) ths) then Some ths else None
  end.

Definition notify_all (wake : pc -> option pc) (ths : gmap nat pc) : gmap nat pc :=
  (fun p => default p (wake p)) <$> ths.

Definition blocked (wake : pc -> option pc) (p : pc) : Prop :=
  match wake p with Some _ => True | None => False end.

(** Some thread satisfies [P]; some thread other than [t] does. *)
Definition has (P : pc -> Prop) (ths : gmap nat pc) : Prop := exists u q, ths !! u = Some q /\ P q.

Definition has_but (t : nat) (P : pc -> Prop) (ths : gmap nat pc) : Prop :=
  exists u q, u <> t /\ ths !! u = Some q /\ P q.

(** The number of threads that satisfy [P]. *)
Definition count (P : pc -> bool) (ths : gmap nat pc) : nat :=
  size (filter (fun kv => P kv.2 = true) ths).

(** ** Existence *)

Lemma has_insert P t p ths : has P (<[t := p]> ths) <-> P p \/ has_but t P ths.
Proof.
  unfold has, has_but. split.
  - intros (u & q & Hu & HP). destruct (decide (u = t)) as [->|Hne]; simplify_map_eq; eauto 10.
  - intros [HP|(u & q & Hne & Hu & HP)]; [exists t, p|exists u, q]; by simplify_map_eq.
Qed.

Lemma has_split P t ths :
  has P ths <-> match ths !! t with Some p => P p | None => False end \/ has_but t P ths.
Proof.
  unfold has, has_but. split.
  - intros (u & q & Hu & HP). destruct (decide (u = t)) as [->|Hne]; [rewrite Hu|]; eauto 10.
  - intros [HP|(u & q & Hne & Hu & HP)]; [|by exists u, q].
    destruct (ths !! t) as [p|] eqn:Ht; [|done]. by exists t, p.
Qed.

Lemma not_has P ths : map_Forall (fun _ p => ~ P p) ths -> ~ has P ths.
Proof. intros HF (u & q & Hu & HP). exact (HF _ _ Hu HP). Qed.

Lemma has_notify_all wake P ths :
  has P (notify_all wake ths) <-> has (fun p => P (default p (wake p))) ths.
Proof.
  unfold has, notify_all. split.
  - intros (u & q & Hu & HP). rewrite lookup_fmap in Hu.
    destruct (ths !! u) as [p|] eqn:E; simplify_eq/=. eauto.
  - intros (u & q & Hu & HP). exists u. eexists. by rewrite lookup_fmap, Hu.
Qed.

(** Checks a property of every thread of a concrete pool. *)
Lemma pool_forall (f : option pc -> bool) (ths : gmap nat pc) :
  f None = true -> forallb (fun kv => f (Some kv.2)) (map_to_list ths) = true -> forall u, f (ths !! u) = true.
Proof.
  intros HN HF u. destruct (ths !! u) as [p|] eqn:Hu; [|done].
  apply elem_of_map_to_list, list_elem_of_In in Hu. rewrite forallb_forall in HF. exact (HF _ Hu).
Qed.

(** ** Number *)

Lemma count_insert P t p ths :
  count P (<[t := p]> ths) = ((if P p then 1 else 0) + count P (delete t ths))%nat.
Proof.
  unfold count. rewrite map_filter_insert. cbn. destruct (P p).
  - rewrite decide_True by done. rewrite map_filter_delete, <- insert_delete_eq.
    by rewrite map_size_insert_None by apply lookup_delete_eq.
  - by rewrite decide_False by done.
Qed.

Lemma count_split P t ths :
  count P ths
  = ((match ths !! t with Some p => if P p then 1 else 0 | None => 0 end)
     + count P (delete t ths))%nat.
Proof.
  destruct (ths !! t) as [p|] eqn:Ht; [|by rewrite delete_id].
  rewrite <- (insert_id ths t p) at 1 by done. apply count_insert.
Qed.

(** An update that does not change whether the thread counts. *)
Lemma count_insert_same P t p ths :
  match ths !! t with Some q => P q | None => false end = P p -> count P (<[t := p]> ths) = count P ths.
Proof. intros H. rewrite count_insert, (count_split P t ths). destruct (ths !! t); by rewrite <- H. Qed.

Lemma count_none P ths : (forall u q, ths !! u = Some q -> P q = false) -> count P ths = 0%nat.
Proof.
  intros HP. unfold count. apply map_size_empty_iff, map_empty_filter_2.
  intros u q Hu. cbn. rewrite (HP _ _ Hu). done.
Qed.

(** ** Notifications *)

Lemma notify_one_spec wake c ths ths' :
  notify_one wake c ths = Some ths' ->
  (c = None /\ ths' = ths /\ ~ has (blocked wake) ths)
  \/ (exists u p p', c = Some u /\ ths !! u = Some p /\ wake p = Some p' /\ ths' = <[u := p']> ths).
Proof.
  unfold notify_one. destruct c as [u|].
  - destruct (ths !! u) as [p|] eqn:Hu; simpl; [|done].
    destruct (wake p) as [p'|] eqn:Hw; [|done]. intros [= <-]. right. eauto 10.
  - case_decide as HF; [|done]. intros [= <-]. left. repeat split. apply not_has.
    intros u p Hu Hp. apply (HF u p Hu). unfold blocked in Hp. destruct (wake p); [eauto|done].
Qed.

(** A notification moves no thread that is not blocked on the variable. *)
Lemma notify_one_keeps wake c ths ths' t p :
  notify_one wake c ths = Some ths' -> ths !! t = Some p -> wake p = None -> ths' !! t = Some p.
Proof.
  intros [(-> & -> & _)|(u & q & q' & -> & Hu & Hw & ->)]%notify_one_spec Ht Hp; [done|].
  rewrite lookup_insert_ne; [done|]. intros ->. congruence.
Qed.

(** Where a thread was before a notification. *)
Lemma notify_one_back wake c ths ths' t q :
  notify_one wake c ths = Some ths' -> ths' !! t = Some q ->
  ths !! t = Some q \/ exists p, ths !! t = Some p /\ wake p = Some q.
Proof.
  intros [(-> & -> & _)|(u & p & p' & -> & Hu & Hw & ->)]%notify_one_spec Ht; [by left|].
  destruct (decide (t = u)) as [->|Hne]; [|rewrite lookup_insert_ne in Ht by done; by left].
  rewrite lookup_insert_eq in Ht. injection Ht as <-. eauto.
Qed.

(** When at most one thread blocks on the variable, nobody is blocked after a notification. *)
Lemma notify_one_unique wake c ths ths' w :
  (forall p p', wake p = Some p' -> wake p' = None) ->
  (forall u p, ths !! u = Some p -> is_Some (wake p) -> u = w) ->
  notify_one wake c ths = Some ths' -> forall u p, ths' !! u = Some p -> wake p = None.
Proof.
  intros Hwk Hu [(-> & -> & Hn)|(v & p & p' & -> & Hv & Hw & ->)]%notify_one_spec u q Hq.
  - destruct (wake q) eqn:E; [|done]. destruct Hn. exists u, q. split; [done|]. unfold blocked. by rewrite E.
  - destruct (decide (u = v)) as [->|Hne].
    + rewrite lookup_insert_eq in Hq. injection Hq as <-. eauto.
    + rewrite lookup_insert_ne in Hq by done. destruct (wake q) eqn:E; [|done].
      destruct Hne. rewrite (Hu u q), (Hu v p); eauto.
Qed.

(** Some choice of the thread to wake is always possible. *)
Lemma notify_one_total wake ths : exists c ths', notify_one wake c ths = Some ths'.
Proof.
  destruct (decide (map_Forall (fun _ p => ¬ is_Some (wake p)) ths)) as [HF|HF].
  - exists None, ths. unfold notify_one. by rewrite decide_True by done.
  - apply map_not_Forall in HF as (u & p & Hu & Hp); [|apply _].
    destruct (wake p) as [p'|] eqn:E; [|by destruct Hp; intros [? ?]].
    exists (Some u), (<[u := p']> ths). unfold notify_one. rewrite Hu. cbn. by rewrite E.
Qed.

Lemma notify_all_none_blocked wake ths :
  (forall p p', wake p = Some p' -> wake p' = None) -> ~ has (blocked wake) (notify_all wake ths).
Proof.
  intros Hwk. rewrite has_notify_all. intros (u & q & _ & Hb). unfold blocked in Hb.
  destruct (wake q) as [p'|] eqn:E; cbn in Hb; [by rewrite (Hwk _ _ E) in Hb|by rewrite E in Hb].
Qed.

(** A property of program counters that waking does not change is kept by a notification, for each thread
    and in number. *)
Lemma notify_one_lookup {A} (f : option pc -> A) wake c ths ths' t :
  (forall p p', wake p = Some p' -> f (Some p') = f (Some p)) ->
  notify_one wake c ths = Some ths' -> f (ths' !! t) = f (ths !! t).
Proof.
  intros Hf [(-> & -> & _)|(u & q & q' & -> & Hu & Hw & ->)]%notify_one_spec; [done|].
  destruct (decide (t = u)) as [->|Hne]; simplify_map_eq; [by rewrite (Hf _ _ Hw)|done].
Qed.

Lemma notify_all_lookup {A} (f : option pc -> A) wake ths t :
  (forall p p', wake p = Some p' -> f (Some p') = f (Some p)) ->
  f (notify_all wake ths !! t) = f (ths !! t).
Proof.
  intros Hf. unfold notify_all. rewrite lookup_fmap. destruct (ths !! t) as [p|]; cbn; [|done].
  destruct (wake p) eqn:E; cbn; [by apply Hf|done].
Qed.

Lemma notify_one_count P wake c ths ths' :
  (forall p p', wake p = Some p' -> P p' = P p) ->
  notify_one wake c ths = Some ths' -> count P ths' = count P ths.
Proof.
  intros HP [(-> & -> & _)|(u & q & q' & -> & Hu & Hw & ->)]%notify_one_spec; [done|].
  rewrite count_insert, (count_split P u ths), Hu. by rewrite (HP _ _ Hw).
Qed.

Lemma notify_all_count P wake ths :
  (forall p p', wake p = Some p' -> P p' = P p) -> count P (notify_all wake ths) = count P ths.
Proof.
  intros HP. unfold count, notify_all. rewrite map_filter_fmap, map_size_fmap. f_equal.
  apply map_filter_ext. intros t p _. cbn. destruct (wake p) eqn:E; cbn; [|done]. by rewrite (HP _ _ E).
Qed.

End pool.

(** Rewrites every [has] and [count] over [ths], and over updates of [ths] at [t], in terms of the
    thread [t], which [Ht] locates, and of the other threads. *)
Ltac pool_at t ths Ht :=
  repeat match goal with
  | |- context [has ?P (<[t := ?p]> ths)] => rewrite (has_insert P t p ths)
  | H : context [has ?P (<[t := ?p]> ths)] |- _ => rewrite (has_insert P t p ths) in H
  | |- context [has ?P ths] => rewrite (has_split P t ths), Ht
  | H : context [has ?P ths] |- _ => rewrite (has_split P t ths), Ht in H
  | |- context [count ?P (<[t := ?p]> ths)] => rewrite (count_insert P t p ths)
  | H : context [count ?P (<[t := ?p]> ths)] |- _ => rewrite (count_insert P t p ths) in H
  | |- context [count ?P ths] => rewrite (count_split P t ths), Ht
  | H : context [count ?P ths] |- _ => rewrite (count_split P t ths), Ht in H
  end.
