(* ===== verification/ZQueue.v ===== *)
(** * The blocking queue ([src/src/zqueue.h])

    [zqueue<T>] is a FIFO queue behind one mutex and one condition variable. [pop] waits for an
    element without a limit, [try_pop] waits in slices of two seconds and gives up when a slice ends
    by a timeout, [push] notifies one waiter after it released the mutex.

    The machine's steps are the code between two points where [mutex_] is free, as in [Channel.v]:
    a thread that called an operation takes the mutex and runs up to its wait or its return ([Run]);
    [push] notifies in a step of its own; a waiter that was notified, or woke up spuriously, is
    [ready] and tests the queue again when it runs; a wait of [try_pop] may time out ([Timeout]).
    [wait_for] reports [timeout] when the clock passed the deadline by the time the thread looks at it,
    notified or not: the parameter [late] says whether schedules contain timeouts of waiters that
    were already notified.

    [pushed] and [removed] are history variables: the values pushed, and the values taken out, each with
    the thread that took it ([None] when [clear] dropped it). *)

From S2P Require Import Prelude.
From S2P Require Import CondVar.

(** [gtm()]: microseconds, on [uint64_t]. *)
Definition gtm (tv_sec tv_usec : Z) : Z :=
  wrapU 64 (wrapU 64 (wrapU 64 (wrapU 64 tv_sec * 1000) * 1000) + tv_usec).

Section zqueue.
Context {V : Type}.

(** Where a thread is in a call. The [bool] of a wait tells whether the thread was woken. *)
Inductive pc : Type :=
| Push_lock (t : V)
| Push_notify
| Push_ret
| Pop_lock
| Pop_wait (ready : bool)
| Pop_ret (t : V)
| Try_lock
| Try_wait (ready : bool)
| Try_ret (t : option V)
| Count_lock
| Count_ret (n : Z)
| Clear_lock
| Clear_ret.

Definition returned (p : option pc) : bool :=
  match p with
  | None | Some Push_ret | Some (Pop_ret _) | Some (Try_ret _) | Some (Count_ret _)
  | Some Clear_ret => true
  | _ => false
  end.

Record zqueue : Type := Zqueue {
  que_ : list V;
  threads : gmap nat pc;
  pushed : list V;
  removed : list (option nat * V);
}.

Definition zqueue_init : zqueue :=
  {| que_ := []; threads := ∅; pushed := []; removed := [] |}.

Definition goto (i : nat) (p : pc) (s : zqueue) : zqueue :=
  Zqueue (que_ s) (<[i := p]> (threads s)) (pushed s) (removed s).

(** What waking does to a thread blocked on [cv_]. *)
Definition wake (p : pc) : option pc :=
  match p with
  | Pop_wait false => Some (Pop_wait true)
  | Try_wait false => Some (Try_wait true)
  | _ => None
  end.

(** ** The operations *)

(** [push]: the part under the lock; the notification follows. *)
Definition push (i : nat) (t : V) (s : zqueue) : zqueue :=
  Zqueue (que_ s ++ [t]) (<[i := Push_notify]> (threads s)) (pushed s ++ [t]) (removed s).

Definition push_notify (i : nat) (c : option nat) (s : zqueue) : option zqueue :=
  ths ← notify_one wake c (<[i := Push_ret]> (threads s));
  Some (Zqueue (que_ s) ths (pushed s) (removed s)).

(** [t = que_.front(); que_.pop();] for a queue that is not empty. *)
Definition take_front (i : nat) (ret : V -> pc) (t : V) (rest : list V) (s : zqueue) : zqueue :=
  Zqueue rest (<[i := ret t]> (threads s)) (pushed s) (removed s ++ [(Some i, t)]).

(** The loop of [pop], from the test of [que_.empty()]. *)
Definition pop (i : nat) (s : zqueue) : zqueue :=
  match que_ s with
  | [] => goto i (Pop_wait false) s
  | t :: rest => take_front i Pop_ret t rest s
  end.

(** The loop of [try_pop]; a timeout returns [false] without testing the queue again. *)
Definition try_pop (i : nat) (s : zqueue) : zqueue :=
  match que_ s with
  | [] => goto i (Try_wait false) s
  | t :: rest => take_front i (fun v => Try_ret (Some v)) t rest s
  end.

Definition try_timeout (i : nat) (s : zqueue) : zqueue := goto i (Try_ret None) s.

(** [count]: [size()] converted to [int]. *)
Definition count_ (i : nat) (s : zqueue) : zqueue :=
  goto i (Count_ret (wrapS 32 (Z.of_nat (length (que_ s))))) s.

Definition clear (i : nat) (s : zqueue) : zqueue :=
  Zqueue [] (<[i := Clear_ret]> (threads s)) (pushed s)
    (removed s ++ map (fun v => (None, v)) (que_ s)).

(** ** The machine *)

Inductive action : Type :=
| Call (i : nat) (p : pc)
| Run (i : nat) (c : option nat)
| Timeout (i : nat)
| Spurious (i : nat).

(** The points where calls start. *)
Definition entry (p : pc) : bool :=
  match p with Push_lock _ | Pop_lock | Try_lock | Count_lock | Clear_lock => true | _ => false end.

Definition run_thread (i : nat) (c : option nat) (s : zqueue) : option zqueue :=
  match threads s !! i with
  | Some (Push_lock t) => Some (push i t s)
  | Some Push_notify => push_notify i c s
  | Some Pop_lock | Some (Pop_wait true) => Some (pop i s)
  | Some Try_lock | Some (Try_wait true) => Some (try_pop i s)
  | Some Count_lock => Some (count_ i s)
  | Some Clear_lock => Some (clear i s)
  | _ => None
  end.

Definition timeout_thread (late : bool) (i : nat) (s : zqueue) : option zqueue :=
  match threads s !! i with
  | Some (Try_wait ready) => if ready && negb late then None else Some (try_timeout i s)
  | _ => None
  end.

Definition spurious_wakeup (i : nat) (s : zqueue) : option zqueue :=
  p ← threads s !! i; p' ← wake p; Some (goto i p' s).

Definition zqueue_exec (late : bool) (a : action) (s : zqueue) : option zqueue :=
  match a with
  | Call i p => if returned (threads s !! i) && entry p then Some (goto i p s) else None
  | Run i c => run_thread i c s
  | Timeout i => timeout_thread late i s
  | Spurious i => spurious_wakeup i s
  end.

Definition zqueue_machine (late : bool) : Machine zqueue action :=
  {| m_init s := s = zqueue_init; m_exec := zqueue_exec late |}.

(** ** The abstract queue

    A list with the three atomic operations that change it, and the answer of each. *)
Inductive fifo_op : Type :=
| Enqueue (v : V)
| Dequeue (v : V)
| Drop_all
| Size (n : Z).

Definition fifo_step (o : fifo_op) (q q' : list V) : Prop :=
  match o with
  | Enqueue v => q' = q ++ [v]
  | Dequeue v => q = v :: q'
  | Drop_all => q' = []
  | Size n => q' = q /\ n = wrapS 32 (Z.of_nat (length q))
  end.

(** The operation a step performs on the abstract queue, read off where the thread that moves was and
    what its call returns. *)
Definition op_of (a : action) (s s' : zqueue) : option fifo_op :=
  match a with
  | Run i _ =>
      match threads s !! i, threads s' !! i with
      | Some (Push_lock v), _ => Some (Enqueue v)
      | _, Some (Pop_ret v) | _, Some (Try_ret (Some v)) => Some (Dequeue v)
      | _, Some (Count_ret n) => Some (Size n)
      | _, Some Clear_ret => Some Drop_all
      | _, _ => None
      end
  | _ => None
  end.

(** ** Invariants *)

Definition is_notifier (p : pc) : bool := match p with Push_notify => true | _ => false end.

Definition is_ready (p : pc) : bool :=
  match p with Pop_wait true | Try_wait true => true | _ => false end.

(** As long as a thread sleeps, every element has a notification to come or a thread awake for it. *)
Definition no_lost (s : zqueue) : Prop :=
  has (blocked wake) (threads s) ->
  (length (que_ s) <= count is_notifier (threads s) + count is_ready (threads s))%nat.

(** Nothing can happen without a new call, a timeout or a spurious wakeup. *)
Definition quiescent (s : zqueue) : Prop :=
  forall i p, threads s !! i = Some p -> returned (Some p) = true \/ blocked wake p.

Definition history_ok (s : zqueue) : Prop := pushed s = map snd (removed s) ++ que_ s.

(** ** Lemmas *)

Lemma take_front_history i ret t rest s :
  que_ s = t :: rest -> history_ok s -> history_ok (take_front i ret t rest s).
Proof.
  unfold history_ok. cbn. intros -> ->. by rewrite map_app, <- app_assoc.
Qed.

Lemma exec_history late a s s' : history_ok s -> zqueue_exec late a s = Some s' -> history_ok s'.
Proof.
  intros Hh Hs. destruct a as [i p|i c|i|i]; cbn in Hs.
  - case_match; by simplify_eq.
  - unfold run_thread in Hs. destruct (threads s !! i) as [p|]; [|done].
    unfold pop, try_pop, push_notify in Hs.
    repeat case_match; simplify_option_eq; try done; try by apply take_front_history.
    + unfold history_ok in *. cbn. by rewrite Hh, app_assoc.
    + unfold history_ok in *. cbn. by rewrite Hh, map_app, map_map, map_id, app_nil_r.
  - unfold timeout_thread in Hs. repeat case_match; by simplify_eq.
  - unfold spurious_wakeup in Hs. by simplify_option_eq.
Qed.

(** Evaluates the predicates on the program counters of thread [i]. *)
Ltac at_thread i s Hi :=
  pool_at i (threads s) Hi; cbn [blocked wake is_notifier is_ready] in *.

Lemma no_lost_goto i p p' s :
  threads s !! i = Some p -> no_lost s ->
  is_notifier p = false -> is_ready p = false -> ~ blocked wake p' -> no_lost (goto i p' s).
Proof.
  unfold no_lost. cbn. intros Hi Hn Hp1 Hp2 Hp'. at_thread i s Hi. rewrite Hp1, Hp2 in Hn.
  intros [?|Hb]; [done|]. specialize (Hn (or_intror Hb)). lia.
Qed.

(** A waiter that finds the queue empty sleeps; one that finds an element takes it. *)
Lemma no_lost_wait i p w ret s :
  threads s !! i = Some p -> no_lost s -> is_notifier p = false ->
  blocked wake w -> (forall v, ~ blocked wake (ret v)) ->
  no_lost match que_ s with
          | [] => goto i w s
          | t :: rest => take_front i ret t rest s
          end.
Proof.
  unfold no_lost. intros Hi Hn Hp Hw Hret. destruct (que_ s) as [|v q] eqn:Hq; cbn.
  - rewrite Hq. cbn. lia.
  - at_thread i s Hi. intros [Hb|Hb]; [by destruct (Hret v)|]. specialize (Hn (or_intror Hb)).
    rewrite Hp in Hn. cbn in Hn. destruct (is_ready p), (is_ready (ret v)), (is_notifier (ret v)); lia.
Qed.

Lemma no_lost_push i t s :
  threads s !! i = Some (Push_lock t) -> no_lost s -> no_lost (push i t s).
Proof.
  unfold no_lost. cbn. intros Hi Hn. at_thread i s Hi. rewrite length_app. cbn.
  intros [Hb|Hb]; [done|]. specialize (Hn (or_intror Hb)). lia.
Qed.

(** The notification of [push] makes a thread awake, or finds none asleep. *)
Lemma no_lost_push_notify i c s s' :
  threads s !! i = Some Push_notify -> no_lost s -> push_notify i c s = Some s' -> no_lost s'.
Proof.
  unfold push_notify. intros Hi Hn Hs. destruct (notify_one _ _ _) as [ths|] eqn:E; simplify_eq/=.
  apply notify_one_spec in E as [(-> & -> & Hno)|(u & p & p' & -> & Hu & Hw & ->)].
  - intros Hb. by destruct (Hno Hb).
  - assert (u <> i) as Hne by (intros ->; rewrite lookup_insert_eq in Hu; by simplify_eq).
    rewrite lookup_insert_ne in Hu by done. unfold no_lost in *. cbn.
    intros Hb. assert (Hs : has (blocked wake) (threads s)).
    { exists u, p. split; [done|]. unfold blocked. by rewrite Hw. }
    specialize (Hn Hs). clear Hs Hb.
    rewrite !count_insert, !(count_split _ u (threads s)), Hu in *.
    rewrite !delete_insert_ne in * by done.
    rewrite !count_insert, !(count_split _ i (delete u (threads s))) in *.
    rewrite !lookup_delete_ne, !Hi in Hn by done.
    destruct p as [| | | |[]| | |[]| | | | |]; simplify_eq/=; lia.
Qed.

Lemma exec_no_lost a s s' : no_lost s -> zqueue_exec false a s = Some s' -> no_lost s'.
Proof.
  intros Hn Hs. destruct a as [i p|i c|i|i]; cbn in Hs.
  - destruct (returned _) eqn:Hr, (entry p) eqn:He; cbn in Hs; simplify_eq.
    destruct (threads s !! i) as [q|] eqn:Hi.
    + apply (no_lost_goto i q); try done; [by destruct q|by destruct q|by intros Hb; destruct p].
    + unfold no_lost in *. cbn. at_thread i s Hi. intros [?|Hb]; [by destruct p|].
      specialize (Hn (or_intror Hb)). lia.
  - unfold run_thread in Hs. destruct (threads s !! i) as [p|] eqn:Hi; [|done].
    destruct p as [v| | | |[]|v| |[]|v| |n| |]; simplify_eq.
    + by apply no_lost_push.
    + by eapply no_lost_push_notify.
    + apply (no_lost_wait i Pop_lock); [done..|by intros ? []].
    + apply (no_lost_wait i (Pop_wait true)); [done..|by intros ? []].
    + apply (no_lost_wait i Try_lock); [done..|by intros ? []].
    + apply (no_lost_wait i (Try_wait true)); [done..|by intros ? []].
    + apply (no_lost_goto i Count_lock); [done..|by intros []].
    + unfold no_lost. cbn. lia.
  - unfold timeout_thread in Hs. destruct (threads s !! i) as [p|] eqn:Hi; [|done].
    destruct p as [v| | | |[]|v| |[]|v| |n| |]; simplify_eq/=.
    apply (no_lost_goto i (Try_wait false)); [done..|by intros []].
  - unfold spurious_wakeup in Hs. destruct (threads s !! i) as [p|] eqn:Hi; [|done].
    destruct p as [v| | | |[]|v| |[]|v| |n| |]; simplify_eq/=;
      unfold no_lost in *; cbn; at_thread i s Hi; intros [?|Hb]; try done; specialize (Hn (or_intror Hb)); lia.
Qed.

(** A thread that is not at the end of a call shows no operation. *)
Lemma push_notify_pc i c s s' :
  push_notify i c s = Some s' -> threads s' !! i = Some Push_ret /\ que_ s' = que_ s.
Proof.
  unfold push_notify. destruct (notify_one _ _ _) as [ths|] eqn:E; simpl; [|done].
  intros [= <-]. cbn. split; [|done].
  eapply notify_one_keeps; [exact E|by rewrite lookup_insert_eq|done].
Qed.

(** ** Properties *)

(** C8. FIFO: in every reachable state, whatever the schedule, the values pushed are the values taken
    out, in the order they were pushed, followed by the content of the queue: no value is lost,
    duplicated or reordered. *)
Theorem zqueue_fifo (late : bool) (s : zqueue) :
  @reachable _ _ (zqueue_machine late) s -> pushed s = map snd (removed s) ++ que_ s.
Proof.
  apply (@reachable_invariant _ _ (zqueue_machine late) history_ok).
  - by intros ? ->.
  - intros a s1 s2. apply exec_history.
Qed.

(** C27. Refinement: every step is, on the abstract FIFO queue, either nothing or the one operation whose
    answer the call of the moving thread returns: [push] enqueues, [pop] and a successful [try_pop]
    return the oldest element, [clear] empties the queue, [count] returns its length on [int]. *)
Theorem zqueue_refines (late : bool) (a : action) (s s' : zqueue) :
  zqueue_exec late a s = Some s' ->
  match op_of a s s' with
  | Some o => fifo_step o (que_ s) (que_ s')
  | None => que_ s' = que_ s
  end.
Proof.
  intros Hs. destruct a as [i p|i c|i|i]; cbn in Hs |- *.
  - case_match; by simplify_eq.
  - unfold run_thread in Hs. destruct (threads s !! i) as [p|] eqn:Hi; [|done].
    destruct p as [v| | | |[]|v| |[]|v| |n| |]; simplify_eq; try done;
      try (apply push_notify_pc in Hs as [-> ?]; done);
      unfold pop, try_pop; try (destruct (que_ s) as [|v q] eqn:Hq); cbn;
      rewrite lookup_insert_eq; cbn; try done.
    all: by rewrite Hq.
  - unfold timeout_thread in Hs. repeat case_match; by simplify_eq.
  - unfold spurious_wakeup in Hs. by simplify_option_eq.
Qed.

(** C9. No lost wakeup, as long as no wait of [try_pop] times out after it was notified: in a reachable
    state where no thread can move by itself, a thread sleeps in [pop] or [try_pop] only if the queue
    is empty. *)
Theorem zqueue_no_lost_wakeup (s : zqueue) :
  @reachable _ _ (zqueue_machine false) s -> quiescent s -> has (blocked wake) (threads s) ->
  que_ s = [].
Proof.
  intros Hr Hq Hb.
  assert (Hn : no_lost s).
  { revert Hr. apply (@reachable_invariant _ _ (zqueue_machine false)).
    - intros ? ->. unfold no_lost. cbn. lia.
    - intros a s1 s2. apply exec_no_lost. }
  specialize (Hn Hb). rewrite !count_none in Hn.
  - destruct (que_ s); [done|]. cbn in Hn. lia.
  - intros u p Hu. destruct (Hq u p Hu); by destruct p as [v| | | |[]|v| |[]|v| |n| |].
  - intros u p Hu. destruct (Hq u p Hu); by destruct p as [v| | | |[]|v| |[]|v| |n| |].
Qed.

End zqueue.

Arguments pc : clear implicits.
Arguments zqueue : clear implicits.
Arguments action : clear implicits.

(** ** Schedules *)

(** The state a schedule reaches on a queue of numbers. *)
Definition demo (late : bool) (acts : list (action nat)) : zqueue nat :=
  default zqueue_init (@run _ _ (zqueue_machine late) acts zqueue_init).

Lemma zqueue_demo_reachable late acts :
  is_Some (@run _ _ (zqueue_machine late) acts zqueue_init) ->
  @reachable _ _ (zqueue_machine late) (demo late acts).
Proof.
  intros [s Hs]. exists zqueue_init, acts. split; [done|]. unfold demo. by rewrite Hs.
Qed.

(** Inspects every thread of a concrete pool. *)
Ltac each_thread :=
  let i := fresh "i" in let p := fresh "p" in let Hi := fresh "Hi" in
  intros i p Hi; apply elem_of_map_to_list, list_elem_of_In in Hi; vm_compute in Hi;
  repeat (destruct Hi as [Hi|Hi]; [injection Hi as <- <-; first [left; reflexivity | right; exact I]|]);
  destruct Hi.

(** Threads 1 and 2 wait in [try_pop] and [pop]; thread 0 pushes 7 and its notification goes to thread 1,
    whose wait times out all the same. *)
Definition late_schedule : list (action nat) :=
  [Call 1 Try_lock; Run 1 None; Call 2 Pop_lock; Run 2 None; Call 0 (Push_lock 7%nat); Run 0 None;
   Run 0 (Some 1%nat); Timeout 1].

(** Two pushes, a [pop], a [clear] and a [pop] that goes to sleep. *)
Definition busy_schedule : list (action nat) :=
  [Call 0 (Push_lock 5%nat); Run 0 None; Run 0 None; Call 0 (Push_lock 6%nat); Run 0 None; Run 0 None;
   Call 1 Pop_lock; Run 1 None; Call 0 Clear_lock; Run 0 None; Call 1 Pop_lock; Run 1 None].

(** With [try_pop] the wakeup can be lost: when the waiter that [push] notified times out, [try_pop]
    returns [false] with the element in the queue and nobody passes the notification on, so that a
    thread blocked in [pop] sleeps for ever next to an element: a state is reachable where the queue holds
    an element, [pop] sleeps, and no thread can move by itself. *)
Theorem zqueue_late_timeout_loses_wakeup :
  exists s : zqueue nat,
    @reachable _ _ (zqueue_machine true) s /\ quiescent s
    /\ has (blocked wake) (threads s) /\ que_ s = [7%nat].
Proof.
  exists (demo true late_schedule). split; [apply zqueue_demo_reachable; vm_compute; eauto|].
  split; [|split; [|done]].
  - each_thread.
  - exists 2%nat, (Pop_wait false). done.
Qed.

(** ** Witnesses *)

Lemma zqueue_fifo_witness :
  pushed (demo true busy_schedule) = [5%nat; 6%nat] /\ removed (demo true busy_schedule) = [(Some 1%nat, 5%nat); (None, 6%nat)]
  /\ pushed (demo true busy_schedule)
     = map snd (removed (demo true busy_schedule)) ++ que_ (demo true busy_schedule).
Proof.
  split; [done|]. split; [done|]. apply (zqueue_fifo true). apply zqueue_demo_reachable. vm_compute. eauto.
Defined.

Lemma zqueue_refines_witness :
  let s := demo true (take 7 busy_schedule) in
  let s' := demo true (take 8 busy_schedule) in
  op_of (Run 1 None) s s' = Some (Dequeue 5%nat) /\ fifo_step (Dequeue 5%nat) (que_ s) (que_ s').
Proof. intros s s'. split; [done|]. exact (zqueue_refines true (Run 1 None) s s' eq_refl). Defined.

Lemma zqueue_no_lost_wakeup_witness :
  has (blocked wake) (threads (demo false busy_schedule)) /\ que_ (demo false busy_schedule) = [].
Proof.
  assert (Hb : has (blocked wake) (threads (demo false busy_schedule)))
    by (exists 1%nat, (Pop_wait false); done).
  split; [exact Hb|]. apply zqueue_no_lost_wakeup; [|each_thread|exact Hb].
  apply zqueue_demo_reachable. vm_compute. eauto.
Defined.
