(* ===== verification/ChannelSpec.v ===== *)
(** * The contract of channels ([src/src/ts/common/channel.h])

    [Channel<T>] is an abstract class: its methods are the operations of [op], and its comments say what
    every implementation promises. An implementation is here a machine with the observations of
    [ChannelOps]; [ChannelLaws] is the contract, one law per promise, on the schedules of the machine and the
    answers the calls gave along them. The promises about time are left out (a timed [Write] or [Read] that gives
    up within its limit, a [Write] without one that waits as long as it takes): schedules have no clock, and
    [unbuffered_channel.h] does not keep those of [Write]. The last part is what a client may conclude from the contract alone.
    [Unbuffered.v] proves that the channel of [Channel.v] satisfies it. *)

From S2P Require Import Prelude.

Section contract.
Context {V : Type} `{!Inhabited V}.

(** ** Calls and answers *)

(** [Write] and [Read] stand for their timed variants too: the code gives a call without a limit one of a year. *)
Inductive op : Type :=
| Write (v : V)
| Read
| Close.

(** How a call ends: with [*timedout] set or not, and for [Read] with the result and what is in [*item]. *)
Inductive ret : Type :=
| Wrote (v : V)
| Write_timedout (v : V)
| Got (item : V)
| Read_closed (item : V)
| Read_timedout
| Did_close.

(** What one can see of an implementation: the call a thread is inside, the thread an action moves, whether it
    moves by itself (and not because time passed or a wait ended for no reason), the call that an action brings
    to its end, the flag of the channel, and whether the process has died. *)
Class ChannelOps (St Act : Type) : Type := {
  pending : nat -> St -> option op;
  actor : Act -> nat;
  voluntary : Act -> bool;
  returns : Act -> St -> St -> option (nat * ret);
  is_closed : St -> bool;
  crashed : St -> bool;
}.

Section laws.
Context {St Act : Type} `{M : Machine St Act} `{O : ChannelOps St Act}.

(** The answers along a schedule. *)
Fixpoint answers (acts : list Act) (s : St) : list (nat * ret) :=
  match acts with
  | [] => []
  | a :: acts' =>
      match m_exec a s with
      | Some s' => option_list (returns a s s') ++ answers acts' s'
      | None => []
      end
  end.

(** The values that calls of [Write] sent, and those that calls of [Read] received. *)
Definition sent (rets : list (nat * ret)) : list V :=
  omap (fun r => match r.2 with Wrote v => Some v | _ => None end) rets.

Definition received (rets : list (nat * ret)) : list V :=
  omap (fun r => match r.2 with Got v => Some v | _ => None end) rets.

(** Thread [t] is not blocked. *)
Definition can_move (t : nat) (s : St) : Prop :=
  exists a s', actor a = t /\ voluntary a = true /\ m_exec a s = Some s'.

Class ChannelLaws : Prop := {
  (** A value that was read was written by a [Write] that succeeded, or is inside one that has not returned yet;
      values arrive in order, each once. *)
  ch_delivery (s0 s : St) (acts : list Act) : m_init s0 -> run acts s0 = Some s ->
    exists taken, received (answers acts s0) `prefix_of` sent (answers acts s0) ++ taken
      /\ Forall (fun v => exists t, pending t s = Some (Write v)) taken;
  (** [Read] gives up only on a closed channel, with the default value, when all that was written was read. *)
  ch_drained (s0 s s' : St) (acts : list Act) (a : Act) (t : nat) (item : V) :
    m_init s0 -> run acts s0 = Some s -> m_exec a s = Some s' -> returns a s s' = Some (t, Read_closed item) ->
    is_closed s = true /\ item = inhabitant /\ sent (answers acts s0) `prefix_of` received (answers acts s0);
  (** A [Read] that times out does so on an open channel. *)
  ch_read_timedout (s s' : St) (a : Act) (t : nat) :
    reachable s -> m_exec a s = Some s' -> returns a s s' = Some (t, Read_timedout) -> is_closed s = false;
  (** Only [Close] closes, for ever; a [Close] that returns has closed. *)
  ch_closes (s s' : St) (a : Act) :
    reachable s -> m_exec a s = Some s' -> is_closed s' <> is_closed s ->
    is_closed s' = true /\ pending (actor a) s = Some Close;
  ch_close_returns (s s' : St) (a : Act) (t : nat) :
    reachable s -> m_exec a s = Some s' -> returns a s s' = Some (t, Did_close) -> is_closed s' = true;
  (** The process dies only of a [Write] or of a [Close] on a closed channel. *)
  ch_crash (s s' : St) (a : Act) :
    reachable s -> m_exec a s = Some s' -> crashed s' = true ->
    is_closed s = true /\ (pending (actor a) s = Some Close \/ exists v, pending (actor a) s = Some (Write v));
  (** And it does die of them: a thread that calls one on a closed channel does not leave the call. *)
  ch_misuse (s s1 s2 : St) (a : Act) (acts : list Act) (t : nat) (o : op) :
    reachable s -> is_closed s = true -> pending t s = None -> actor a = t -> m_exec a s = Some s1 ->
    pending t s1 = Some o -> o <> Read -> run acts s1 = Some s2 ->
    pending t s2 = Some o
    /\ forall b s3, actor b = t -> m_exec b s2 = Some s3 -> crashed s3 = true;
  (** [Close] never blocks. *)
  ch_close_never_blocks (s : St) (t : nat) :
    reachable s -> crashed s = false -> pending t s = Some Close -> can_move t s;
  (** Once the channel is closed and [Close] has returned, [Read] returns at once. *)
  ch_close_unblocks (s : St) (t : nat) :
    reachable s -> crashed s = false -> is_closed s = true -> (forall u, pending u s <> Some Close) ->
    pending t s = Some Read ->
    can_move t s
    /\ forall a s', actor a = t -> voluntary a = true -> m_exec a s = Some s' ->
         returns a s s' = Some (t, Read_closed inhabitant);
}.

(** ** What a client may conclude *)

Lemma answers_app acts1 acts2 s s1 :
  run acts1 s = Some s1 -> answers (acts1 ++ acts2) s = answers acts1 s ++ answers acts2 s1.
Proof.
  revert s. induction acts1 as [|a acts1 IH]; intros s; cbn; [by intros [= ->]|].
  destruct (m_exec a s); [|done]. intros H. by rewrite (IH _ H), app_assoc.
Qed.

(** A loop that reads until [Read] reports the end has received what was sent, in order, and nothing else, when
    no [Write] is still at work. *)
Theorem reader_receives_all `{L : !ChannelLaws} (s0 s s' : St) (acts : list Act) (a : Act) (t : nat) (item : V) :
  m_init s0 -> run acts s0 = Some s -> m_exec a s = Some s' -> returns a s s' = Some (t, Read_closed item) ->
  (forall u v, pending u s <> Some (Write v)) ->
  received (answers acts s0) = sent (answers acts s0).
Proof.
  intros Hi Hr Ha Hret Hno. destruct (ch_drained _ _ _ _ _ _ _ Hi Hr Ha Hret) as (_ & _ & Hp).
  destruct (ch_delivery _ _ _ Hi Hr) as (taken & Hd & Ht). destruct Ht as [|v ? [u Hu]]; [|by destruct (Hno u v)].
  rewrite app_nil_r in Hd. by apply (anti_symm prefix).
Qed.

End laws.
End contract.

Arguments op : clear implicits.
Arguments ret : clear implicits.
Arguments ChannelOps : clear implicits.
Arguments ChannelLaws V {_} St Act {_ _}.
