(* ===== verification/Channel.v ===== *)
(** * The unbuffered channel ([src/src/ts/common/unbuffered_channel.h], interface
      [src/src/ts/common/channel.h])

    [UnbufferedChannel<T>] hands a value from one writer to one reader through a "handshake zone"
    that at most one writer occupies. All the state is protected by the mutex [m_]; a thread gives
    [m_] up only inside [wait_for] or on return. The model is therefore a machine whose steps are
    the code between two points where [m_] is free:

    - a thread that called [Write], [Read] or [Close] takes [m_] and runs up to its first wait, to
      its return, or to the crash of [LOG(FATAL)] ([Run]);
    - a thread waiting on a condition variable is [ready] once it was notified (or woke up
      spuriously); when it gets [m_] back it re-evaluates the predicate of [wait_for] ([Run]);
    - a wait may time out, in which case [wait_for] returns the value of the predicate at that
      time ([Timeout]), whether or not the thread was notified;
    - [notify_one] wakes one of the threads blocked on the variable, the choice being part of the
      action, and no thread only if none is blocked;
    - [Close] notifies after it released [m_], one condition variable per step.

    [item_] is a pointer to the argument of the writer in the zone: the model keeps the writer's
    identity, and dereferencing it is undefined when that writer is not in the zone. [written] and
    [read_] are history variables: the values of the writes that returned without a timeout, and the
    values readers obtained, each with the writer's identity. *)

From S2P Require Import Prelude.
From S2P Require Import CondVar.

Section channel.
Context {V : Type} `{!Inhabited V}.

(** ** Threads *)

(** Where a thread is in a call. The [bool] of a wait tells whether the thread was woken. *)
Inductive pc : Type :=
| W_lock (v : V)
| W_zone (v : V) (ready : bool)
| W_handshake (v : V) (ready : bool)
| W_ret (timedout : bool)
| R_lock
| R_wait (ready : bool)
| R_ret (ok : bool) (item : option V) (timedout : bool)
| C_lock
| C_notify_writers
| C_notify_readers
| C_notify_handshake
| C_ret.

(** A thread that is not inside a call can start one. *)
Definition returned (p : option pc) : bool :=
  match p with
  | None | Some (W_ret _) | Some (R_ret _ _ _) | Some C_ret => true
  | _ => false
  end.

(** How the process can die: the two [LOG_IF(FATAL, ...)], a failed [DCHECK], or a dereference of a
    stale [item_]. *)
Inductive failure : Type :=
| Fatal_write
| Fatal_close
| Dcheck_failed
| Stale_item.

Record chan : Type := Chan {
  closed_ : bool;
  writter_in_zone_ : bool;
  reader_in_zone_ : bool;
  item_ : option nat;
  threads : gmap nat pc;
  failed : option failure;
  written : list (nat * V);
  read_ : list (nat * V);
}.

Definition chan_init : chan :=
  {| closed_ := false; writter_in_zone_ := false; reader_in_zone_ := false; item_ := None;
     threads := ∅; failed := None; written := []; read_ := [] |}.

Definition set_threads (ths : gmap nat pc) (s : chan) : chan :=
  Chan (closed_ s) (writter_in_zone_ s) (reader_in_zone_ s) (item_ s) ths (failed s) (written s)
    (read_ s).

Definition goto (t : nat) (p : pc) (s : chan) : chan := set_threads (<[t := p]> (threads s)) s.

Definition fail (f : failure) (s : chan) : chan :=
  Chan (closed_ s) (writter_in_zone_ s) (reader_in_zone_ s) (item_ s) (threads s) (Some f)
    (written s) (read_ s).

(** ** Condition variables *)

(** What waking does to a thread blocked on [writers_], [readers_] or [handshake_]. *)
Definition wake_writers (p : pc) : option pc :=
  match p with W_zone v false => Some (W_zone v true) | _ => None end.

Definition wake_readers (p : pc) : option pc :=
  match p with R_wait false => Some (R_wait true) | _ => None end.

Definition wake_handshake (p : pc) : option pc :=
  match p with W_handshake v false => Some (W_handshake v true) | _ => None end.

(** [cv.notify_one()] on the channel. *)
Definition signal (wake : pc -> option pc) (choice : option nat) (s : chan) : option chan :=
  ths ← notify_one wake choice (threads s); Some (set_threads ths s).

(** ** [Write] *)

(** [closed_ || not writter_in_zone_] *)
Definition can_enter (s : chan) : bool := closed_ s || negb (writter_in_zone_ s).

(** [closed_ || reader_in_zone_] *)
Definition handshaken (s : chan) : bool := closed_ s || reader_in_zone_ s.

(** After a successful wait on [handshake_]. *)
Definition write_finish (t : nat) (v : V) (c : option nat) (s : chan) : option chan :=
  if negb (reader_in_zone_ s) && closed_ s then Some (fail Fatal_write s)
  else
    signal wake_writers c
      (Chan (closed_ s) false false (item_ s) (<[t := W_ret false]> (threads s)) (failed s)
         (written s ++ [(t, v)]) (read_ s)).

(** After a successful wait on [writers_]: enter the zone, publish the item, wake a reader, and
    wait on [handshake_] unless its predicate already holds. *)
Definition write_enter (t : nat) (v : V) (c1 c2 : option nat) (s : chan) : option chan :=
  if closed_ s then Some (fail Fatal_write s)
  else
    s1 ← signal wake_readers c1
           (Chan (closed_ s) true (reader_in_zone_ s) (Some t)
              (<[t := W_handshake v true]> (threads s)) (failed s) (written s) (read_ s));
    if handshaken s1 then write_finish t v c2 s1
    else Some (goto t (W_handshake v false) s1).

(** The wait on [writers_], on entry or when woken. *)
Definition write_zone (t : nat) (v : V) (c1 c2 : option nat) (s : chan) : option chan :=
  if can_enter s then write_enter t v c1 c2 s else Some (goto t (W_zone v false) s).

(** The same when the wait times out. *)
Definition write_zone_timeout (t : nat) (v : V) (c1 c2 : option nat) (s : chan) : option chan :=
  if can_enter s then write_enter t v c1 c2 s else Some (goto t (W_ret true) s).

(** The wait on [handshake_], when woken. *)
Definition write_handshake (t : nat) (v : V) (c : option nat) (s : chan) : option chan :=
  if handshaken s then write_finish t v c s else Some (goto t (W_handshake v false) s).

(** The same when the wait times out: leave the zone and let another writer in. *)
Definition write_handshake_timeout (t : nat) (v : V) (c : option nat) (s : chan) : option chan :=
  if handshaken s then write_finish t v c s
  else
    signal wake_writers c
      (Chan (closed_ s) false (reader_in_zone_ s) (item_ s) (<[t := W_ret true]> (threads s))
         (failed s) (written s) (read_ s)).

(** ** [Read] *)

(** [closed_ || (not reader_in_zone_ && writter_in_zone_)] *)
Definition can_read (s : chan) : bool :=
  closed_ s || (negb (reader_in_zone_ s) && writter_in_zone_ s).

(** [*item_]: valid while the writer that published it is in the zone. *)
Definition deref_item (s : chan) : option (nat * V) :=
  w ← item_ s;
  match threads s !! w with
  | Some (W_handshake v _) => Some (w, v)
  | _ => None
  end.

(** After a successful wait on [readers_]. *)
Definition read_enter (t : nat) (c : option nat) (s : chan) : option chan :=
  if closed_ s then Some (goto t (R_ret false (Some inhabitant) false) s)
  else if negb (writter_in_zone_ s) then Some (fail Dcheck_failed s)
  else
    match deref_item s with
    | None => Some (fail Stale_item s)
    | Some (w, v) =>
        signal wake_handshake c
          (Chan (closed_ s) (writter_in_zone_ s) true (item_ s)
             (<[t := R_ret true (Some v) false]> (threads s)) (failed s) (written s)
             (read_ s ++ [(w, v)]))
    end.

(** The wait on [readers_], on entry or when woken. *)
Definition read_wait (t : nat) (c : option nat) (s : chan) : option chan :=
  if can_read s then read_enter t c s else Some (goto t (R_wait false) s).

(** The same when the wait times out. *)
Definition read_timeout (t : nat) (c : option nat) (s : chan) : option chan :=
  if can_read s then read_enter t c s
  else if closed_ s then Some (fail Dcheck_failed s)
  else Some (goto t (R_ret false None true) s).

(** ** [Close] *)

(** The part of [Close] under the lock. *)
Definition close_locked (t : nat) (s : chan) : option chan :=
  if closed_ s then Some (fail Fatal_close s)
  else
    Some (Chan true (writter_in_zone_ s) (reader_in_zone_ s) (item_ s)
            (<[t := C_notify_writers]> (threads s)) (failed s) (written s) (read_ s)).

(** The three notifications that follow it. *)
Definition close_notify (t : nat) (c : option nat) (p : pc) (s : chan) : option chan :=
  match p with
  | C_notify_writers =>
      Some (goto t C_notify_readers (set_threads (notify_all wake_writers (threads s)) s))
  | C_notify_readers =>
      Some (goto t C_notify_handshake (set_threads (notify_all wake_readers (threads s)) s))
  | C_notify_handshake => signal wake_handshake c (goto t C_ret s)
  | _ => None
  end.

(** ** The machine *)

Inductive action : Type :=
| Call_write (t : nat) (v : V)
| Call_read (t : nat)
| Call_close (t : nat)
| Run (t : nat) (c1 c2 : option nat)
| Timeout (t : nat) (c1 c2 : option nat)
| Spurious (t : nat).

(** A thread runs its next segment. *)
Definition run_thread (t : nat) (c1 c2 : option nat) (s : chan) : option chan :=
  match threads s !! t with
  | Some (W_lock v) | Some (W_zone v true) => write_zone t v c1 c2 s
  | Some (W_handshake v true) => write_handshake t v c1 s
  | Some R_lock | Some (R_wait true) => read_wait t c1 s
  | Some C_lock => close_locked t s
  | Some p => close_notify t c1 p s
  | None => None
  end.

(** The wait of a thread times out. *)
Definition timeout_thread (t : nat) (c1 c2 : option nat) (s : chan) : option chan :=
  match threads s !! t with
  | Some (W_zone v _) => write_zone_timeout t v c1 c2 s
  | Some (W_handshake v _) => write_handshake_timeout t v c1 s
  | Some (R_wait _) => read_timeout t c1 s
  | _ => None
  end.

(** A blocked thread wakes up without having been notified. *)
Definition spurious_wakeup (t : nat) (s : chan) : option chan :=
  match threads s !! t with
  | Some (W_zone v false) => Some (goto t (W_zone v true) s)
  | Some (W_handshake v false) => Some (goto t (W_handshake v true) s)
  | Some (R_wait false) => Some (goto t (R_wait true) s)
  | _ => None
  end.

Definition call (t : nat) (p : pc) (s : chan) : option chan :=
  if returned (threads s !! t) then Some (goto t p s) else None.

Definition chan_exec (a : action) (s : chan) : option chan :=
  match failed s with
  | Some _ => None
  | None =>
      match a with
      | Call_write t v => call t (W_lock v) s
      | Call_read t => call t R_lock s
      | Call_close t => call t C_lock s
      | Run t c1 c2 => run_thread t c1 c2 s
      | Timeout t c1 c2 => timeout_thread t c1 c2 s
      | Spurious t => spurious_wakeup t s
      end
  end.

#[global] Instance chan_machine : Machine chan action :=
  {| m_init s := s = chan_init; m_exec := chan_exec |}.

(** ** Invariant *)

Definition ready_writer (p : pc) : Prop := match p with W_zone _ true => True | _ => False end.

Definition ready_reader (p : pc) : Prop := match p with R_wait true => True | _ => False end.

Definition at_handshake (p : pc) : Prop := match p with W_handshake _ _ => True | _ => False end.

(** The threads inside [Close] that have still to notify a given variable. *)
Definition will_notify_writers (p : pc) : Prop :=
  match p with C_notify_writers => True | _ => False end.

Definition will_notify_readers (p : pc) : Prop :=
  match p with C_notify_writers | C_notify_readers => True | _ => False end.

Definition will_notify_handshake (p : pc) : Prop :=
  match p with C_notify_writers | C_notify_readers | C_notify_handshake => True | _ => False end.

(** The zone: [writter_in_zone_] is set exactly when a thread waits for its handshake, that thread is
    the only one and the target of [item_], and the values read are the values written, plus the
    one in the zone once a reader took it; [woken] says that the writer is then awake. *)
Definition zone_ok (woken : Prop) (s : chan) : Prop :=
  if writter_in_zone_ s then
    exists w v b,
      item_ s = Some w /\ threads s !! w = Some (W_handshake v b)
      /\ (forall u q, threads s !! u = Some q -> at_handshake q -> u = w)
      /\ read_ s = written s ++ (if reader_in_zone_ s then [(w, v)] else [])
      /\ (woken -> reader_in_zone_ s = true -> b = true)
  else
    reader_in_zone_ s = false /\ read_ s = written s
    /\ (forall u q, threads s !! u = Some q -> ~ at_handshake q).

(** No lost wakeup while the channel is open: a blocked writer finds the zone taken or another
    writer on its way in, a blocked reader finds nothing to read or another reader on its way. *)
Definition writers_ok (s : chan) : Prop :=
  closed_ s = false -> writter_in_zone_ s = false ->
  has (blocked wake_writers) (threads s) -> has ready_writer (threads s).

Definition readers_ok (s : chan) : Prop :=
  closed_ s = false -> writter_in_zone_ s = true -> reader_in_zone_ s = false ->
  has (blocked wake_readers) (threads s) -> has ready_reader (threads s).

(** Once it is closed, a thread is blocked only if [Close] has still to notify it. *)
Definition closing_ok (s : chan) : Prop :=
  closed_ s = true ->
  (has (blocked wake_writers) (threads s) -> has will_notify_writers (threads s))
  /\ (has (blocked wake_readers) (threads s) -> has will_notify_readers (threads s))
  /\ (has (blocked wake_handshake) (threads s) -> has will_notify_handshake (threads s)).

(** The process dies only of a [LOG_IF(FATAL)], and only when the channel was closed. *)
Definition failure_ok (s : chan) : Prop :=
  forall f, failed s = Some f -> closed_ s = true /\ (f = Fatal_write \/ f = Fatal_close).

Record inv (s : chan) : Prop := Inv {
  inv_zone : zone_ok True s;
  inv_writers : writers_ok s;
  inv_readers : readers_ok s;
  inv_closing : closing_ok s;
  inv_failure : failure_ok s;
}.

(** Splits the pool at [t] and evaluates the predicates on [t]'s program counters. *)
Ltac has_at t ths Ht :=
  pool_at t ths Ht;
  cbn [blocked wake_writers wake_readers wake_handshake ready_writer ready_reader
       will_notify_writers will_notify_readers will_notify_handshake] in *.

(** ** Lemmas: notifications keep the invariant *)

Lemma signal_spec wake c s s' :
  signal wake c s = Some s' ->
  exists ths', s' = set_threads ths' s
  /\ ((c = None /\ ths' = threads s /\ ~ has (blocked wake) (threads s))
      \/ (exists u p p', c = Some u /\ threads s !! u = Some p /\ wake p = Some p'
           /\ ths' = <[u := p']> (threads s))).
Proof.
  unfold signal. destruct (notify_one _ _ _) as [ths'|] eqn:E; simpl; [|done].
  intros [= <-]. exists ths'. split; [done|]. by apply notify_one_spec.
Qed.

Lemma zone_ok_update woken s u p' :
  zone_ok woken s -> (forall p, threads s !! u = Some p -> ~ at_handshake p) -> ~ at_handshake p' ->
  zone_ok woken (goto u p' s).
Proof.
  unfold zone_ok. cbn. intros Hz Hp Hp'. case_match.
  - destruct Hz as (w & v & b & ? & Hw & Huniq & ? & ?). exists w, v, b.
    assert (u <> w) by (intros ->; by apply (Hp _ Hw)).
    repeat split; try done; [by rewrite lookup_insert_ne|].
    intros u' q Hq Hat. destruct (decide (u' = u)) as [->|]; simplify_map_eq; eauto.
  - destruct Hz as (? & ? & Hno). repeat split; [done..|].
    intros u' q Hq Hat. destruct (decide (u' = u)) as [->|]; simplify_map_eq; [done|].
    by apply (Hno u' q).
Qed.

Lemma signal_writers_inv c s s' :
  zone_ok True s -> readers_ok s -> closing_ok s -> failure_ok s ->
  signal wake_writers c s = Some s' -> inv s'.
Proof.
  intros Hz Hr Hc Hf (ths' & -> & [(-> & -> & Hno)|(u & p & p' & -> & Hu & Hw & ->)])%signal_spec.
  - destruct s; split; try done. by intros _ _ ?%Hno.
  - destruct p as [| ? [] | | | | | | | | | |]; simplify_eq/=.
    split; [apply zone_ok_update; [done|intros q Hq; rewrite Hu in Hq; simplify_eq|]; by intros []
           | | | |done];
      unfold writers_ok, readers_ok, closing_ok in *; cbn in *;
      has_at u (threads s) Hu; tauto.
Qed.

Lemma signal_readers_inv c s s' :
  zone_ok True s -> writers_ok s -> closing_ok s -> failure_ok s ->
  signal wake_readers c s = Some s' -> inv s'.
Proof.
  intros Hz Hr Hc Hf (ths' & -> & [(-> & -> & Hno)|(u & p & p' & -> & Hu & Hw & ->)])%signal_spec.
  - destruct s; split; try done. by intros _ _ _ ?%Hno.
  - destruct p as [| | | | | [] | | | | | |]; simplify_eq/=.
    split; [apply zone_ok_update; [done|intros q Hq; rewrite Hu in Hq; simplify_eq|]; by intros []
           | | | |done];
      unfold writers_ok, readers_ok, closing_ok in *; cbn in *;
      has_at u (threads s) Hu; tauto.
Qed.

(** The writer in the zone is the only thread ever blocked on [handshake_]: after one notification
    none is. *)
Lemma signal_handshake_none_blocked woken c s s' :
  zone_ok woken s -> signal wake_handshake c s = Some s' ->
  ~ has (blocked wake_handshake) (threads s').
Proof.
  intros Hz (ths' & -> & [(-> & -> & Hno)|(u & p & p' & -> & Hu & Hwk & ->)])%signal_spec; [done|].
  destruct p as [| | v [] | | | | | | | | |]; simplify_eq/=.
  destruct (writter_in_zone_ s) eqn:Hwz; unfold zone_ok in Hz; rewrite Hwz in Hz.
  - destruct Hz as (w & v' & b & _ & _ & Huniq & _). rewrite has_insert.
    intros [Hb|(q & r & Hne & Hq & Hb)]; [done|]. unfold blocked, wake_handshake in Hb.
    apply Hne. transitivity w; [|symmetry]; eapply Huniq; try done. by destruct r.
  - destruct Hz as (_ & _ & Hno). by destruct (Hno _ _ Hu).
Qed.

Lemma signal_handshake_inv c s s' :
  zone_ok False s -> writers_ok s -> readers_ok s -> failure_ok s ->
  (closed_ s = true ->
     (has (blocked wake_writers) (threads s) -> has will_notify_writers (threads s))
     /\ (has (blocked wake_readers) (threads s) -> has will_notify_readers (threads s))) ->
  signal wake_handshake c s = Some s' -> inv s'.
Proof.
  intros Hz Hw Hr Hf Hc Hsig. pose proof (signal_handshake_none_blocked _ _ _ _ Hz Hsig) as Hnb.
  apply signal_spec in Hsig as (ths' & -> & [(-> & -> & Hno)|(u & p & p' & -> & Hu & Hwk & ->)]).
  - split; [|done|done| |done].
    + unfold zone_ok in *. cbn. case_match; [|done].
      destruct Hz as (w & v & b & ? & Hw' & ? & ? & _). exists w, v, b. repeat split; try done.
      intros _ _. destruct b; [done|]. destruct Hno. by exists w, (W_handshake v false).
    + intros Hcl. destruct (Hc Hcl). repeat split; done.
  - cbn in Hnb. split; [| | | |done].
    + destruct p as [| | ? [] | | | | | | | | |]; simplify_eq/=. unfold zone_ok in *. cbn. case_match.
      * destruct Hz as (w & v' & b & Hit & Hw' & Huniq & Hrd & _).
        assert (u = w) as -> by (eapply Huniq; [exact Hu|done]). simplify_map_eq.
        exists w, v', true. repeat split; try done; [by simplify_map_eq|].
        intros u' q Hq Hat. destruct (decide (u' = w)) as [->|]; simplify_map_eq; eauto.
      * destruct Hz as (_ & _ & Hno). by destruct (Hno _ _ Hu).
    + destruct p as [| | ? [] | | | | | | | | |]; simplify_eq/=. clear Hnb Hc.
      unfold writers_ok in *; cbn in *; has_at u (threads s) Hu; tauto.
    + destruct p as [| | ? [] | | | | | | | | |]; simplify_eq/=. clear Hnb Hc.
      unfold readers_ok in *; cbn in *; has_at u (threads s) Hu; tauto.
    + intros Hcl. specialize (Hc Hcl). split; [|split; [|by intros ?%Hnb]]; clear Hnb;
        destruct p as [| | ? [] | | | | | | | | |]; simplify_eq/=; has_at u (threads s) Hu; tauto.
Qed.

(** ** Lemmas: each segment keeps the invariant *)

(** Solves the wakeup clauses after thread [t] moved, [Ht] giving where it was. *)
Ltac clauses t s Ht :=
  unfold writers_ok, readers_ok, closing_ok in *; cbn in *; has_at t (threads s) Ht;
  first [tauto | intuition congruence].

(** A thread outside the handshake moves to another point outside the handshake. *)
Lemma goto_inv t new s :
  inv s -> (forall p, threads s !! t = Some p -> ~ at_handshake p) -> ~ at_handshake new ->
  writers_ok (goto t new s) -> readers_ok (goto t new s) -> closing_ok (goto t new s) ->
  inv (goto t new s).
Proof. intros [] Hold Hnew ???. split; try done. by apply zone_ok_update. Qed.

Lemma call_inv t p s s' :
  inv s -> (p = C_lock \/ p = R_lock \/ exists v, p = W_lock v) -> call t p s = Some s' -> inv s'.
Proof.
  unfold call. intros Hi Hp. case_match eqn:Hr; [|done]. intros [= <-].
  destruct (threads s !! t) as [q|] eqn:Ht.
  - apply goto_inv; [done| | | | |];
      try (intros ? ?; simplify_eq); destruct q; simplify_eq/=;
      destruct Hi, Hp as [->|[->|[v ->]]]; try (by intros []); clauses t s Ht.
  - apply goto_inv; [done| | | | |]; try (intros ? ?; simplify_eq);
      destruct Hi, Hp as [->|[->|[v ->]]]; try (by intros []); clauses t s Ht.
Qed.

Lemma fail_inv f s :
  inv s -> closed_ s = true -> f = Fatal_write \/ f = Fatal_close -> inv (fail f s).
Proof. intros [] ??. split; try done. intros f' [= <-]. done. Qed.

(** A thread at its handshake is the writer in the zone. *)
Lemma zone_at_handshake woken s t v b :
  zone_ok woken s -> threads s !! t = Some (W_handshake v b) ->
  writter_in_zone_ s = true /\ item_ s = Some t
  /\ read_ s = written s ++ (if reader_in_zone_ s then [(t, v)] else [])
  /\ (forall u q, threads s !! u = Some q -> at_handshake q -> u = t)
  /\ (woken -> reader_in_zone_ s = true -> b = true).
Proof.
  unfold zone_ok. intros Hz Ht. case_match.
  - destruct Hz as (w & v' & b' & Hit & Hw & Huniq & Hrd & Hb).
    assert (t = w) as -> by (eapply Huniq; [exact Ht|done]). simplify_map_eq. done.
  - destruct Hz as (_ & _ & Hno). by destruct (Hno _ _ Ht).
Qed.

(** Leaving the zone: no thread is at its handshake any more. *)
Lemma leave_zone s t p wr :
  (forall u q, threads s !! u = Some q -> at_handshake q -> u = t) -> ~ at_handshake p ->
  read_ s = wr ->
  zone_ok True (Chan (closed_ s) false false (item_ s) (<[t := p]> (threads s)) (failed s) wr (read_ s)).
Proof.
  intros Huniq Hp Hwr. repeat split; [done|]. cbn. intros u q Hu Hat.
  destruct (decide (u = t)) as [->|Hne]; simplify_map_eq; [done|]. by apply Hne, (Huniq u q).
Qed.

Lemma write_finish_inv t v b c s s' :
  inv s -> threads s !! t = Some (W_handshake v b) -> handshaken s = true ->
  write_finish t v c s = Some s' -> inv s'.
Proof.
  intros Hi Ht Hh. unfold write_finish. case_match eqn:Hd.
  { intros [= <-]. apply andb_true_iff in Hd as [_ Hcl]. apply fail_inv; auto. }
  destruct (zone_at_handshake _ _ _ _ _ (inv_zone _ Hi) Ht) as (Hwz & Hit & Hrd & Huniq & Hb).
  unfold handshaken in Hh. destruct (reader_in_zone_ s) eqn:Hrz; [|destruct (closed_ s); done].
  destruct Hi as [_ Hw Hr Hc Hf]. apply signal_writers_inv; [| | |done].
  - by apply leave_zone; [|intros []|].
  - unfold readers_ok. by cbn.
  - clauses t s Ht.
Qed.

Lemma write_handshake_timeout_inv t v b c s s' :
  inv s -> threads s !! t = Some (W_handshake v b) ->
  write_handshake_timeout t v c s = Some s' -> inv s'.
Proof.
  intros Hi Ht. unfold write_handshake_timeout. case_match eqn:Hh; [by eapply write_finish_inv|].
  apply orb_false_iff in Hh as [Hcl Hrz].
  destruct (zone_at_handshake _ _ _ _ _ (inv_zone _ Hi) Ht) as (Hwz & Hit & Hrd & Huniq & _).
  rewrite Hrz, app_nil_r in *. destruct Hi as [_ Hw Hr Hc Hf].
  apply signal_writers_inv; [| | |done].
  - by apply leave_zone; [|intros []|].
  - unfold readers_ok. by cbn.
  - unfold closing_ok. cbn. congruence.
Qed.

Lemma write_handshake_inv t v c s s' :
  inv s -> threads s !! t = Some (W_handshake v true) ->
  write_handshake t v c s = Some s' -> inv s'.
Proof.
  intros Hi Ht. unfold write_handshake. case_match eqn:Hh; [by eapply write_finish_inv|].
  intros [= <-]. apply orb_false_iff in Hh as [Hcl Hrz].
  destruct (zone_at_handshake _ _ _ _ _ (inv_zone _ Hi) Ht) as (Hwz & Hit & Hrd & Huniq & _).
  destruct Hi as [_ Hw Hr Hc Hf]. split; [| | | |done].
  - unfold zone_ok. cbn. rewrite Hwz, Hrz in *. exists t, v, false.
    repeat split; try done; [by simplify_map_eq|].
    intros u q Hu Hat. destruct (decide (u = t)); simplify_map_eq; eauto.
  - clauses t s Ht.
  - clauses t s Ht.
  - unfold closing_ok. cbn. congruence.
Qed.

(** A reader's notification leaves the threads at their handshake where they are. *)
Lemma signal_readers_keeps c s s' t v b :
  signal wake_readers c s = Some s' -> threads s !! t = Some (W_handshake v b) ->
  threads s' !! t = Some (W_handshake v b) /\ closed_ s' = closed_ s
  /\ reader_in_zone_ s' = reader_in_zone_ s.
Proof.
  intros (ths' & -> & [(-> & -> & _)|(u & p & p' & -> & Hu & Hw & ->)])%signal_spec Ht; [done|].
  cbn. rewrite lookup_insert_ne; [done|]. intros ->. by simplify_eq/=.
Qed.

Lemma write_enter_inv t v c1 c2 s s' :
  inv s -> (forall p, threads s !! t = Some p -> ~ at_handshake p) -> can_enter s = true ->
  write_enter t v c1 c2 s = Some s' -> inv s'.
Proof.
  intros Hi Hold Hce. unfold write_enter. destruct (closed_ s) eqn:Hcl.
  { intros [= <-]. apply fail_inv; auto. }
  unfold can_enter in Hce. rewrite Hcl in Hce. apply negb_true_iff in Hce.
  pose proof (inv_zone _ Hi) as Hz. unfold zone_ok in Hz. rewrite Hce in Hz.
  destruct Hz as (Hrz & Hrd & Hno), Hi as [_ Hw Hr Hc Hf].
  destruct (signal _ _ _) as [s1|] eqn:Hs; simpl; [|done].
  destruct (signal_readers_keeps _ _ _ t v true Hs) as (Ht1 & Hcl1 & Hrz1); [by cbn; simplify_map_eq|].
  cbn in Hcl1, Hrz1. assert (Hi1 : inv s1).
  { eapply signal_readers_inv; [| | | |exact Hs].
    - unfold zone_ok. cbn. rewrite Hrz. exists t, v, true. repeat split; try done.
      + by simplify_map_eq.
      + intros u q Hu Hat. destruct (decide (u = t)) as [|Hne]; [done|]. simplify_map_eq.
        by destruct (Hno _ _ Hu).
      + by rewrite Hrd, app_nil_r.
    - unfold writers_ok. by cbn.
    - unfold closing_ok. by cbn.
    - intros f Hfl. destruct (Hf f Hfl). congruence. }
  assert (Hh : handshaken s1 = false) by (unfold handshaken; by rewrite Hcl1, Hrz1, Hrz).
  rewrite Hh. intros [= <-]. apply (write_handshake_inv t v None s1); [done..|].
  unfold write_handshake. by rewrite Hh.
Qed.

Lemma write_zone_inv t v p c1 c2 s s' :
  inv s -> threads s !! t = Some p -> (p = W_lock v \/ p = W_zone v true) ->
  write_zone t v c1 c2 s = Some s' -> inv s'.
Proof.
  intros Hi Ht Hp. unfold write_zone. case_match eqn:Hce.
  - eapply write_enter_inv; try done. intros q Hq. simplify_eq. destruct Hp as [->| ->]; by intros [].
  - intros [= <-]. apply orb_false_iff in Hce as [Hcl Hwz%negb_false_iff].
    apply goto_inv; [done| | by intros [] | | |]; destruct Hi.
    + intros q Hq. simplify_eq. destruct Hp as [->| ->]; by intros [].
    + unfold writers_ok. cbn. congruence.
    + destruct Hp as [->| ->]; clauses t s Ht.
    + unfold closing_ok. cbn. congruence.
Qed.

Lemma write_zone_timeout_inv t v b c1 c2 s s' :
  inv s -> threads s !! t = Some (W_zone v b) ->
  write_zone_timeout t v c1 c2 s = Some s' -> inv s'.
Proof.
  intros Hi Ht. unfold write_zone_timeout. case_match eqn:Hce.
  - eapply write_enter_inv; try done. intros q Hq. simplify_eq. by intros [].
  - intros [= <-]. apply orb_false_iff in Hce as [Hcl Hwz%negb_false_iff].
    apply goto_inv; [done| | by intros [] | | |]; destruct Hi.
    + intros q Hq. simplify_eq. by intros [].
    + unfold writers_ok. cbn. congruence.
    + destruct b; clauses t s Ht.
    + unfold closing_ok. cbn. congruence.
Qed.

Lemma read_enter_inv t p c s s' :
  inv s -> threads s !! t = Some p -> (p = R_lock \/ exists b, p = R_wait b) -> can_read s = true ->
  read_enter t c s = Some s' -> inv s'.
Proof.
  intros Hi Ht Hp Hcr. unfold read_enter.
  assert (Hold : forall q, threads s !! t = Some q -> ~ at_handshake q).
  { intros q Hq. simplify_eq. destruct Hp as [->|[b ->]]; by intros []. }
  destruct (closed_ s) eqn:Hcl.
  { intros [= <-]. apply goto_inv; [done|done|by intros []| | |]; destruct Hi.
    - unfold writers_ok. cbn. congruence.
    - unfold readers_ok. cbn. congruence.
    - destruct Hp as [->|[[] ->]]; clauses t s Ht. }
  unfold can_read in Hcr. rewrite Hcl in Hcr. apply andb_true_iff in Hcr as [Hrz%negb_true_iff Hwz].
  rewrite Hwz. cbn [negb]. pose proof (inv_zone _ Hi) as Hz. unfold zone_ok in Hz. rewrite Hwz in Hz.
  destruct Hz as (w & v & b & Hit & Hw & Huniq & Hrd & _).
  unfold deref_item. rewrite Hit. cbn. rewrite Hw. rewrite Hrz, app_nil_r in Hrd.
  destruct Hi as [_ Hwr Hr Hc Hf].
  apply signal_handshake_inv; [| | |intros f Hfl; destruct (Hf f Hfl); congruence|].
  - unfold zone_ok. cbn. exists w, v, b.
    assert (t <> w) by (intros ->; by apply (Hold _ Hw)).
    repeat split; try done.
    + by simplify_map_eq.
    + intros u q Hu Hat. destruct (decide (u = t)) as [->|]; simplify_map_eq; by apply (Huniq u q).
    + by rewrite Hrd.
  - unfold writers_ok. cbn. congruence.
  - unfold readers_ok. by cbn.
  - cbn. congruence.
Qed.

Lemma read_wait_inv t p c s s' :
  inv s -> threads s !! t = Some p -> (p = R_lock \/ p = R_wait true) ->
  read_wait t c s = Some s' -> inv s'.
Proof.
  intros Hi Ht Hp. unfold read_wait. case_match eqn:Hcr.
  - eapply read_enter_inv; try done. destruct Hp; eauto.
  - intros [= <-]. apply orb_false_iff in Hcr as [Hcl Hcr].
    apply goto_inv; [done| | by intros [] | | |]; destruct Hi.
    + intros q Hq. simplify_eq. destruct Hp as [->| ->]; by intros [].
    + destruct Hp as [->| ->]; clauses t s Ht.
    + unfold readers_ok. cbn. intros _ Hwz Hrz. by rewrite Hwz, Hrz in Hcr.
    + unfold closing_ok. cbn. congruence.
Qed.

Lemma read_timeout_inv t b c s s' :
  inv s -> threads s !! t = Some (R_wait b) ->
  read_timeout t c s = Some s' -> inv s'.
Proof.
  intros Hi Ht. unfold read_timeout. case_match eqn:Hcr.
  - eapply read_enter_inv; try done. eauto.
  - apply orb_false_iff in Hcr as [Hcl Hcr]. rewrite Hcl. intros [= <-].
    apply goto_inv; [done| | by intros [] | | |]; destruct Hi.
    + intros q Hq. simplify_eq. by intros [].
    + destruct b; clauses t s Ht.
    + unfold readers_ok. cbn. intros _ Hwz Hrz. by rewrite Hwz, Hrz in Hcr.
    + unfold closing_ok. cbn. congruence.
Qed.

Lemma close_locked_inv t s s' :
  inv s -> threads s !! t = Some C_lock -> close_locked t s = Some s' -> inv s'.
Proof.
  intros Hi Ht. unfold close_locked. case_match eqn:Hcl; intros [= <-]; [apply fail_inv; auto|].
  destruct Hi as [Hz Hw Hr Hc Hf]. split.
  - apply (zone_ok_update _ _ t C_notify_writers) in Hz; [done| |by intros []].
    intros q Hq. simplify_eq. by intros [].
  - unfold writers_ok. by cbn.
  - unfold readers_ok. by cbn.
  - unfold closing_ok. cbn. has_at t (threads s) Ht. tauto.
  - intros f Hfl. destruct (Hf f Hfl). by split.
Qed.

(** [notify_all] moves no thread into or out of a handshake. *)
Lemma zone_ok_notify_all woken wake s :
  (forall p p', wake p = Some p' -> ~ at_handshake p /\ ~ at_handshake p') -> zone_ok woken s ->
  zone_ok woken (set_threads (notify_all wake (threads s)) s).
Proof.
  intros Hwk Hz. unfold zone_ok, notify_all in *. cbn.
  assert (Hat : forall u q, (fun p => default p (wake p)) <$> (threads s !! u) = Some q ->
                at_handshake q -> threads s !! u = Some q).
  { intros u q Hq Hat. destruct (threads s !! u) as [p|]; [|done]. cbn in Hq. simplify_eq.
    destruct (wake p) as [p'|] eqn:E; [|done]. cbn in Hat. by destruct (Hwk _ _ E). }
  case_match.
  - destruct Hz as (w & v & b & ? & Hw & Huniq & ? & ?). exists w, v, b.
    repeat split; try done.
    + rewrite lookup_fmap, Hw. cbn. destruct (wake _) as [p'|] eqn:E; [|done].
      destruct (Hwk _ _ E) as [Hn _]. by destruct Hn.
    + intros u q Hq ?. rewrite lookup_fmap in Hq. eauto.
  - destruct Hz as (? & ? & Hno). repeat split; try done.
    intros u q Hq ?. rewrite lookup_fmap in Hq. by apply (Hno u q); [apply Hat|].
Qed.

(** Waking threads of one variable does not change who waits on the others. *)
Lemma notify_writers_has P ths :
  (forall v, P (W_zone v false) <-> P (W_zone v true)) ->
  has P (notify_all wake_writers ths) <-> has P ths.
Proof.
  intros HP. rewrite has_notify_all. unfold has.
  split; intros (u & q & Hu & Hq); exists u, q; (split; [done|]);
    destruct q as [| ? [] | | | | | | | | | |]; cbn in *; firstorder.
Qed.

Lemma notify_readers_has P ths :
  (P (R_wait false) <-> P (R_wait true)) ->
  has P (notify_all wake_readers ths) <-> has P ths.
Proof.
  intros HP. rewrite has_notify_all. unfold has.
  split; intros (u & q & Hu & Hq); exists u, q; (split; [done|]);
    destruct q as [| | | | | [] | | | | | |]; cbn in *; firstorder.
Qed.

(** After every blocked writer was woken, the invariant holds with one notification less due. *)
Lemma notify_writers_inv t s :
  inv s -> threads s !! t = Some C_notify_writers ->
  inv (goto t C_notify_readers (set_threads (notify_all wake_writers (threads s)) s)).
Proof.
  intros [Hz Hw Hr Hc Hf] Ht.
  assert (Ht' : notify_all wake_writers (threads s) !! t = Some C_notify_writers)
    by (unfold notify_all; by rewrite lookup_fmap, Ht).
  pose proof (notify_all_none_blocked wake_writers (threads s)) as Hnb.
  assert (Hno : has (blocked wake_writers) (notify_all wake_writers (threads s)) -> False)
    by (apply Hnb; by intros [| ? [] | | | | | | | | | |] ? ?; simplify_eq/=).
  clear Hnb. split; [| | | |done].
  - apply zone_ok_update; [apply zone_ok_notify_all; [|done]| |by intros []].
    + intros [| ? [] | | | | | | | | | |] ? ?; simplify_eq/=. split; by intros [].
    + cbn. rewrite Ht'. intros ? [= <-]. by intros [].
  - unfold writers_ok. cbn. has_at t (notify_all wake_writers (threads s)) Ht'. tauto.
  - unfold readers_ok in *. cbn in *.
    rewrite <- !(notify_writers_has _ (threads s)) in Hr by done.
    clear Hno. has_at t (notify_all wake_writers (threads s)) Ht'. tauto.
  - unfold closing_ok in *. cbn in *.
    rewrite <- !(notify_writers_has (blocked wake_readers) (threads s)) in Hc by done.
    rewrite <- !(notify_writers_has (blocked wake_handshake) (threads s)) in Hc by done.
    rewrite <- !(notify_writers_has will_notify_readers (threads s)) in Hc by done.
    rewrite <- !(notify_writers_has will_notify_handshake (threads s)) in Hc by done.
    intros Hcl. specialize (Hc Hcl). destruct Hc as (_ & Hcr & Hch).
    has_at t (notify_all wake_writers (threads s)) Ht'. tauto.
Qed.

Lemma notify_readers_inv t s :
  inv s -> threads s !! t = Some C_notify_readers ->
  inv (goto t C_notify_handshake (set_threads (notify_all wake_readers (threads s)) s)).
Proof.
  intros [Hz Hw Hr Hc Hf] Ht.
  assert (Ht' : notify_all wake_readers (threads s) !! t = Some C_notify_readers)
    by (unfold notify_all; by rewrite lookup_fmap, Ht).
  pose proof (notify_all_none_blocked wake_readers (threads s)) as Hnb.
  assert (Hno : has (blocked wake_readers) (notify_all wake_readers (threads s)) -> False)
    by (apply Hnb; by intros [| | | | | [] | | | | | |] ? ?; simplify_eq/=).
  clear Hnb. split; [| | | |done].
  - apply zone_ok_update; [apply zone_ok_notify_all; [|done]| |by intros []].
    + intros [| | | | | [] | | | | | |] ? ?; simplify_eq/=. split; by intros [].
    + cbn. rewrite Ht'. intros ? [= <-]. by intros [].
  - unfold writers_ok in *. cbn in *.
    rewrite <- !(notify_readers_has _ (threads s)) in Hw by done.
    clear Hno. has_at t (notify_all wake_readers (threads s)) Ht'. tauto.
  - unfold readers_ok. cbn. has_at t (notify_all wake_readers (threads s)) Ht'. tauto.
  - unfold closing_ok in *. cbn in *.
    rewrite <- !(notify_readers_has (blocked wake_writers) (threads s)) in Hc by done.
    rewrite <- !(notify_readers_has (blocked wake_handshake) (threads s)) in Hc by done.
    rewrite <- !(notify_readers_has will_notify_writers (threads s)) in Hc by done.
    rewrite <- !(notify_readers_has will_notify_handshake (threads s)) in Hc by done.
    intros Hcl. specialize (Hc Hcl). destruct Hc as (Hcw & _ & Hch).
    has_at t (notify_all wake_readers (threads s)) Ht'. tauto.
Qed.

Lemma close_notify_inv t p c s s' :
  inv s -> threads s !! t = Some p -> close_notify t c p s = Some s' -> inv s'.
Proof.
  intros Hi Ht. destruct p; cbn; try done.
  - intros [= <-]. by apply notify_writers_inv.
  - intros [= <-]. by apply notify_readers_inv.
  - destruct Hi as [Hz Hw Hr Hc Hf]. apply signal_handshake_inv; [| | |done|].
    + apply zone_ok_update; [|intros q Hq; simplify_eq; by intros []|by intros []].
      unfold zone_ok in *. case_match; [|done]. destruct Hz as (w & v & b & ? & ? & ? & ? & ?).
      exists w, v, b. by repeat split.
    + clauses t s Ht.
    + clauses t s Ht.
    + clauses t s Ht.
Qed.

Lemma spurious_inv t s s' : inv s -> spurious_wakeup t s = Some s' -> inv s'.
Proof.
  intros Hi. unfold spurious_wakeup. destruct (threads s !! t) as [p|] eqn:Ht; [|done].
  destruct p as [|v []|v []| | |[]| | | | | |]; try done; intros [= <-].
  - apply goto_inv; [done|intros ? ?; simplify_eq; by intros []|by intros []| | |];
      destruct Hi; clauses t s Ht.
  - destruct (zone_at_handshake _ _ _ _ _ (inv_zone _ Hi) Ht) as (Hwz & Hit & Hrd & Huniq & _).
    destruct Hi as [_ Hw Hr Hc Hf]. split; [|clauses t s Ht|clauses t s Ht|clauses t s Ht|done].
    unfold zone_ok. cbn. rewrite Hwz. exists t, v, true. repeat split; try done.
    + by simplify_map_eq.
    + intros u q Hu Hat. destruct (decide (u = t)); simplify_map_eq; eauto.
  - apply goto_inv; [done|intros ? ?; simplify_eq; by intros []|by intros []| | |];
      destruct Hi; clauses t s Ht.
Qed.

Lemma chan_exec_inv a s s' : inv s -> chan_exec a s = Some s' -> inv s'.
Proof.
  intros Hi. unfold chan_exec. destruct (failed s); [done|].
  destruct a as [t v|t|t|t c1 c2|t c1 c2|t].
  - apply call_inv; eauto.
  - apply call_inv; eauto.
  - apply call_inv; eauto.
  - unfold run_thread. destruct (threads s !! t) as [p|] eqn:Ht; [|done].
    destruct p as [v|v []|v []| | |[]| | | | | |];
      try (by apply (close_notify_inv _ _ _ _ _ Hi Ht)).
    + apply (write_zone_inv _ _ _ _ _ _ _ Hi Ht). eauto.
    + apply (write_zone_inv _ _ _ _ _ _ _ Hi Ht). eauto.
    + by apply write_handshake_inv.
    + apply (read_wait_inv _ _ _ _ _ Hi Ht). eauto.
    + apply (read_wait_inv _ _ _ _ _ Hi Ht). eauto.
    + by apply close_locked_inv.
  - unfold timeout_thread. destruct (threads s !! t) as [p|] eqn:Ht; [|done]. destruct p; try done.
    + by eapply write_zone_timeout_inv.
    + by eapply write_handshake_timeout_inv.
    + by eapply read_timeout_inv.
  - by apply spurious_inv.
Qed.

Lemma chan_init_inv : inv chan_init.
Proof.
  split; unfold zone_ok, writers_ok, readers_ok, closing_ok, failure_ok; cbn; try done.
  by intros _ _ (? & ? & ? & ?).
Qed.

Lemma chan_reachable_inv s : reachable s -> inv s.
Proof. apply (reachable_invariant inv); [intros ? ->; apply chan_init_inv|intros ? ? ?; apply chan_exec_inv]. Qed.

(** ** Lemmas on what a segment leaves alone *)

(** A notification moves no thread that is not blocked on the variable. *)
Lemma signal_keeps wake c s s' t p :
  signal wake c s = Some s' -> threads s !! t = Some p -> wake p = None -> threads s' !! t = Some p.
Proof.
  unfold signal. destruct (notify_one _ _ _) as [ths'|] eqn:E; simpl; [|done].
  intros [= <-]. by apply (notify_one_keeps _ _ _ _ _ _ E).
Qed.

(** Some choice of the thread to wake is always possible. *)
Lemma signal_total wake s : exists c s', signal wake c s = Some s'.
Proof.
  destruct (notify_one_total wake (threads s)) as (c & ths' & E). exists c. unfold signal.
  rewrite E. cbn. eauto.
Qed.

(** The value in the zone, once a reader took it. *)
Definition in_flight (s : chan) : list (nat * V) :=
  if reader_in_zone_ s then match deref_item s with Some x => [x] | None => [] end else [].

Definition asleep (p : pc) : Prop :=
  blocked wake_writers p \/ blocked wake_readers p \/ blocked wake_handshake p.

(** Nothing can happen without a new call, a timeout or a spurious wakeup. *)
Definition quiescent (s : chan) : Prop :=
  forall t p, threads s !! t = Some p -> returned (Some p) = true \/ asleep p.

Lemma quiescent_no P s :
  quiescent s -> (forall p, P p -> returned (Some p) = false /\ ~ asleep p) -> ~ has P (threads s).
Proof. intros Hq HP (u & p & Hu & Hp). destruct (HP p Hp). destruct (Hq u p Hu); congruence. Qed.

(** ** Properties *)

(** C3. Exactly-once delivery: in every reachable state, the values readers obtained are, in order,
    the values of the writes that returned without a timeout, followed by at most the one value of
    the writer still in the zone. A write that timed out has handed its value to nobody, and no value
    is read twice. *)
Theorem handshake_exactly_once (s : chan) :
  reachable s -> read_ s = written s ++ in_flight s.
Proof.
  intros [Hz _ _ _ _]%chan_reachable_inv. unfold zone_ok, in_flight, deref_item in *. case_match.
  - destruct Hz as (w & v & b & -> & Hw & _ & Hrd & _). cbn. by rewrite Hw.
  - destruct Hz as (-> & -> & _). by rewrite app_nil_r.
Qed.

(** C31. The comments of the header hold: at most one writer is in the handshake zone and
    [writter_in_zone_] says whether one is, a reader is in the zone only if a writer is, the [DCHECK]s
    never fail, [item_] is never dereferenced after its writer left, and the process dies only of the
    documented [LOG(FATAL)]s, on a closed channel. *)
Theorem zone_safety (s : chan) :
  reachable s ->
  (forall t u p q, threads s !! t = Some p -> threads s !! u = Some q ->
     at_handshake p -> at_handshake q -> t = u)
  /\ (writter_in_zone_ s = true <-> has at_handshake (threads s))
  /\ (reader_in_zone_ s = true -> writter_in_zone_ s = true)
  /\ (forall f, failed s = Some f -> closed_ s = true /\ (f = Fatal_write \/ f = Fatal_close)).
Proof.
  intros [Hz _ _ _ Hf]%chan_reachable_inv. unfold zone_ok in Hz. destruct (writter_in_zone_ s).
  - destruct Hz as (w & v & b & _ & Hw & Huniq & _). split; [|split; [|by split]].
    + intros t u p q Ht Hu Hp Hq. transitivity w; [|symmetry]; eauto.
    + split; [|done]. intros _. by exists w, (W_handshake v b).
  - destruct Hz as (Hrz & _ & Hno). rewrite Hrz. split; [|split; [|by split]].
    + intros t u p q Ht _ Hp. by destruct (Hno _ _ Ht).
    + split; [done|]. intros (u & q & Hu & Hq). by destruct (Hno _ _ Hu).
Qed.

(** C4. No lost wakeup and no deadlock: in a reachable state where no thread can move by itself,
    a reader and a writer never sleep at the same time, and nobody sleeps on a closed channel. *)
Theorem no_deadlock (s : chan) :
  reachable s -> quiescent s ->
  ~ (has (blocked wake_readers) (threads s)
     /\ (has (blocked wake_writers) (threads s) \/ has (blocked wake_handshake) (threads s)))
  /\ (closed_ s = true -> ~ has asleep (threads s)).
Proof.
  intros [Hz Hw Hr Hc _]%chan_reachable_inv Hq.
  assert (Hnw : ~ has ready_writer (threads s)).
  { apply quiescent_no; [done|]. intros [|? []| | | | | | | | | |] Hp; try done.
    split; [done|]. unfold asleep. cbn. tauto. }
  assert (Hnr : ~ has ready_reader (threads s)).
  { apply quiescent_no; [done|]. intros [| | | | |[]| | | | | |] Hp; try done.
    split; [done|]. unfold asleep. cbn. tauto. }
  assert (Hnc : ~ has will_notify_handshake (threads s)).
  { apply quiescent_no; [done|]. intros [] Hp; try done; (split; [done|]); unfold asleep; cbn; tauto. }
  assert (Hopen : closed_ s = true -> ~ has asleep (threads s)).
  { intros Hcl (u & p & Hu & Hp). destruct (Hc Hcl) as (H1 & H2 & H3). apply Hnc.
    assert (Hup : forall P Q, (forall x, P x -> Q x) -> has P (threads s) -> has Q (threads s))
      by (intros P Q HPQ (a & b & ? & ?); exists a, b; auto).
    destruct Hp as [Hp|[Hp|Hp]];
      [eapply Hup; [|apply H1; by exists u, p]|eapply Hup; [|apply H2; by exists u, p]|apply H3; by exists u, p];
      by intros []. }
  split; [|done]. intros [Hbr Hbw]. destruct (closed_ s) eqn:Hcl.
  { apply Hopen; [done|]. destruct Hbr as (u & p & Hu & Hp). exists u, p. unfold asleep. auto. }
  unfold writers_ok, readers_ok in *. destruct (writter_in_zone_ s) eqn:Hwz.
  - unfold zone_ok in Hz. rewrite Hwz in Hz.
    destruct Hz as (w & v & b & Hit & Hwt & Huniq & _ & Hb).
    destruct (reader_in_zone_ s); [|by auto]. specialize (Hb I eq_refl). subst b.
    destruct (Hq _ _ Hwt) as [|[[]|[[]|[]]]]; done.
  - destruct Hbw as [Hbw|(u & p & Hu & Hp)]; [by auto|].
    unfold zone_ok in Hz. rewrite Hwz in Hz. destruct Hz as (_ & _ & Hno).
    apply (Hno _ _ Hu). by destruct p.
Qed.

(** A write whose value was read succeeds: once a reader took the value, the writer in the zone is
    awake, its next step is possible, and whatever happens (a timeout, a concurrent [Close]) that
    step returns from [Write] with [*timedout == false]. *)
Theorem consumed_write_succeeds (s : chan) :
  reachable s -> failed s = None -> reader_in_zone_ s = true ->
  exists w, item_ s = Some w
  /\ (exists c s', chan_exec (Run w c None) s = Some s')
  /\ (forall a c1 c2 s', a = Run w c1 c2 \/ a = Timeout w c1 c2 -> chan_exec a s = Some s' ->
        threads s' !! w = Some (W_ret false) /\ failed s' = None).
Proof.
  intros [Hz _ _ _ _]%chan_reachable_inv Hf Hrz. unfold zone_ok in Hz.
  destruct (writter_in_zone_ s); [|by destruct Hz; congruence].
  destruct Hz as (w & v & b & Hit & Hw & _ & _ & Hb). specialize (Hb I Hrz). subst b.
  exists w. split; [done|].
  assert (Hh : handshaken s = true) by (unfold handshaken; rewrite Hrz; apply orb_true_r).
  split.
  - unfold chan_exec. rewrite Hf. unfold run_thread. rewrite Hw. unfold write_handshake, write_finish.
    rewrite Hh, Hrz. cbn [negb andb].
    edestruct (signal_total wake_writers) as (c & s' & Hs). by exists c, s'.
  - intros a c1 c2 s' Ha Hs.
    assert (Hfin : write_finish w v c1 s = Some s').
    { unfold chan_exec in Hs. rewrite Hf in Hs. destruct Ha as [->| ->]; unfold run_thread, timeout_thread in Hs;
        rewrite Hw in Hs; unfold write_handshake, write_handshake_timeout in Hs; by rewrite Hh in Hs. }
    unfold write_finish in Hfin. rewrite Hrz in Hfin. cbn [negb andb] in Hfin. split.
    + eapply signal_keeps; [exact Hfin|by cbn; rewrite lookup_insert_eq|done].
    + apply signal_spec in Hfin as (ths' & -> & _). done.
Qed.

End channel.

Arguments pc : clear implicits.
Arguments chan : clear implicits.
Arguments action : clear implicits.

(** ** Witnesses *)

(** The state a schedule of a channel of numbers reaches. *)
Definition demo (acts : list (action nat)) : chan nat := default chan_init (run acts chan_init).

Lemma chan_demo_reachable acts : is_Some (run acts (chan_init (V := nat))) -> reachable (demo acts).
Proof. intros [s Hs]. exists chan_init, acts. split; [done|]. unfold demo. by rewrite Hs. Qed.

(** Thread 0 writes 7, thread 1 reads it; the second schedule also closes the channel in between. *)
Definition handshake_schedule : list (action nat) :=
  [Call_write 0 7%nat; Run 0 None None; Call_read 1; Run 1 (Some 0%nat) None].

Definition close_schedule : list (action nat) :=
  handshake_schedule ++ [Call_close 2; Run 2 None None].

(** Two readers go to sleep on an open channel. *)
Definition sleepers_schedule : list (action nat) :=
  [Call_read 0; Run 0 None None; Call_read 1; Run 1 None None].

Lemma handshake_exactly_once_witness :
  reachable (demo handshake_schedule) /\ read_ (demo handshake_schedule) = [(0%nat, 7%nat)]
  /\ read_ (demo handshake_schedule) = written (demo handshake_schedule) ++ in_flight (demo handshake_schedule).
Proof.
  assert (Hr : reachable (demo handshake_schedule)) by (apply chan_demo_reachable; eexists; reflexivity).
  split; [exact Hr|split; [reflexivity|]]. exact (handshake_exactly_once _ Hr).
Defined.

Lemma zone_safety_witness :
  writter_in_zone_ (demo handshake_schedule) = true
  /\ has at_handshake (threads (demo handshake_schedule)).
Proof.
  assert (Hr : reachable (demo handshake_schedule)) by (apply chan_demo_reachable; eexists; reflexivity).
  split; [reflexivity|]. destruct (zone_safety _ Hr) as (_ & Hz & _). apply Hz. reflexivity.
Defined.

Lemma no_deadlock_witness :
  reachable (demo sleepers_schedule) /\ quiescent (demo sleepers_schedule)
  /\ ~ (has (blocked wake_readers) (threads (demo sleepers_schedule))
        /\ (has (blocked wake_writers) (threads (demo sleepers_schedule))
            \/ has (blocked wake_handshake) (threads (demo sleepers_schedule)))).
Proof.
  assert (Hr : reachable (demo sleepers_schedule)) by (apply chan_demo_reachable; eexists; reflexivity).
  assert (Hq : quiescent (demo sleepers_schedule)).
  { intros t p. change (threads (demo sleepers_schedule))
      with (<[1%nat := R_wait false]> (<[0%nat := R_wait false]> (∅ : gmap nat (pc nat)))).
    intros Ht. right. right. left.
    apply lookup_insert_Some in Ht as [[_ <-]|[_ Ht]]; [exact I|].
    apply lookup_insert_Some in Ht as [[_ <-]|[_ Ht]]; [exact I|]. by rewrite lookup_empty in Ht. }
  split; [exact Hr|split; [exact Hq|]]. exact (proj1 (no_deadlock _ Hr Hq)).
Defined.

Lemma consumed_write_succeeds_witness :
  closed_ (demo close_schedule) = true
  /\ exists w, item_ (demo close_schedule) = Some w
     /\ exists c s', chan_exec (Run w c None) (demo close_schedule) = Some s'.
Proof.
  assert (Hr : reachable (demo close_schedule)) by (apply chan_demo_reachable; eexists; reflexivity).
  split; [reflexivity|].
  destruct (consumed_write_succeeds _ Hr eq_refl eq_refl) as (w & Hw & Hex & _). eauto.
Defined.
