(* ===== verification/Unbuffered.v ===== *)
(** * The unbuffered channel keeps the contract of channels

    The machine of [Channel.v], an implementation of the interface of [ChannelSpec.v]: what one sees of it, what
    a step of it looks like from the thread that moves, and the laws. *)

From S2P Require Import Prelude.
From S2P Require Import CondVar.
From S2P Require Import ChannelSpec.
From S2P Require Import Channel.

Section unbuffered.
Context {V : Type} `{!Inhabited V}.

(** ** What one sees *)

Definition pending_op (p : pc V) : option (op V) :=
  match p with
  | W_lock v | W_zone v _ | W_handshake v _ => Some (Write v)
  | R_lock | R_wait _ => Some Read
  | C_lock | C_notify_writers | C_notify_readers | C_notify_handshake => Some Close
  | W_ret _ | R_ret _ _ _ | C_ret => None
  end.

Definition chan_pending (t : nat) (s : chan V) : option (op V) := p ← threads s !! t; pending_op p.

Definition chan_actor (a : action V) : nat :=
  match a with
  | Call_write t _ | Call_read t | Call_close t | Run t _ _ | Timeout t _ _ | Spurious t => t
  end.

Definition chan_voluntary (a : action V) : bool := match a with Run _ _ _ => true | _ => false end.

(** How a call that is at its end ended. *)
Definition answer (o : op V) (p : pc V) : option (ret V) :=
  match o, p with
  | Write v, W_ret timedout => Some (if timedout then Write_timedout v else Wrote v)
  | Read, R_ret true (Some v) _ => Some (Got v)
  | Read, R_ret false (Some v) _ => Some (Read_closed v)
  | Read, R_ret _ None _ => Some Read_timedout
  | Close, C_ret => Some Did_close
  | _, _ => None
  end.

Definition chan_returns (a : action V) (s s' : chan V) : option (nat * ret V) :=
  let t := chan_actor a in
  o ← chan_pending t s;
  p ← threads s' !! t;
  r ← answer o p;
  Some (t, r).

#[export] Instance chan_ops : ChannelOps V (chan V) (action V) :=
  {| pending := chan_pending; actor := chan_actor; voluntary := chan_voluntary; returns := chan_returns;
     is_closed := closed_; crashed := fun s : chan V => bool_decide (failed s <> None) |}.

(** ** A step, seen from the thread that moves *)

(** The end of a call of [o] in a step from [s] to [s'], and what it does to the history. *)
Inductive finishes (t : nat) (s s' : chan V) : op V -> ret V -> Prop :=
| F_wrote v : written s' = written s ++ [(t, v)] -> read_ s' = read_ s -> finishes t s s' (Write v) (Wrote v)
| F_write_timedout v : written s' = written s -> read_ s' = read_ s -> finishes t s s' (Write v) (Write_timedout v)
| F_got w v : written s' = written s -> read_ s' = read_ s ++ [(w, v)] -> finishes t s s' Read (Got v)
| F_read_closed :
    written s' = written s -> read_ s' = read_ s -> closed_ s = true -> finishes t s s' Read (Read_closed inhabitant)
| F_read_timedout :
    written s' = written s -> read_ s' = read_ s -> closed_ s = false -> finishes t s s' Read Read_timedout
| F_close : written s' = written s -> read_ s' = read_ s -> finishes t s s' Close Did_close.

(** The thread that moves ends its call, goes on with it, or brings the process down. *)
Inductive moved (t : nat) (o : op V) (s s' : chan V) : Prop :=
| M_finish r p :
    finishes t s s' o r -> threads s' !! t = Some p -> answer o p = Some r -> closed_ s' = closed_ s ->
    failed s' = failed s -> moved t o s s'
| M_go_on :
    chan_pending t s' = Some o -> written s' = written s -> read_ s' = read_ s ->
    (closed_ s' = closed_ s \/ o = Close /\ closed_ s' = true) -> failed s' = failed s -> moved t o s s'
| M_crash f : closed_ s = true -> o <> Read -> s' = fail f s -> moved t o s s'.

(** What a notification leaves alone. *)
Lemma signal_frame wake c (s s' : chan V) :
  signal wake c s = Some s' ->
  closed_ s' = closed_ s /\ written s' = written s /\ read_ s' = read_ s /\ failed s' = failed s.
Proof. by intros (ths' & -> & _)%signal_spec. Qed.

(** Turns the notification that ends a segment of thread [t] into what is known of its end. *)
Ltac after_signal t p Hs :=
  let Hk := fresh "Hk" in
  pose proof (signal_keeps _ _ _ _ t p Hs ltac:(cbn; by rewrite lookup_insert_eq) eq_refl) as Hk;
  apply signal_frame in Hs as (? & ? & ? & ?); cbn in *.

Lemma write_finish_moved t v b c (s s' : chan V) :
  threads s !! t = Some (W_handshake v b) -> write_finish t v c s = Some s' -> moved t (Write v) s s'.
Proof.
  intros Ht. unfold write_finish. destruct (_ && _) eqn:E.
  - apply andb_true_iff in E as [_ Hc]. intros [= <-]. by eapply M_crash.
  - intros Hs. after_signal t (@W_ret V false) Hs. eapply (M_finish t _ s s' (Wrote v)); [by constructor|done..].
Qed.

Lemma goto_go_on t p o (s : chan V) : pending_op p = Some o -> moved t o s (goto t p s).
Proof. intros Hp. apply M_go_on; try done; [|by left]. unfold chan_pending. cbn. by rewrite lookup_insert_eq. Qed.

Lemma write_enter_moved t v c1 c2 (s s' : chan V) :
  inv s -> can_enter s = true -> write_enter t v c1 c2 s = Some s' -> moved t (Write v) s s'.
Proof.
  intros Hi Hc. unfold write_enter. destruct (closed_ s) eqn:Hcl; [intros [= <-]; by eapply M_crash|].
  destruct (signal _ _ _) as [s1|] eqn:Hs; cbn [mbind option_bind]; [|done].
  destruct (signal_readers_keeps _ _ _ t v true Hs) as (Ht1 & Hc1 & Hr1); [by cbn; rewrite lookup_insert_eq|].
  apply signal_frame in Hs as (_ & Hw & Hr & Hf). cbn in *.
  assert (Hz : reader_in_zone_ s = false).
  { pose proof (inv_zone _ Hi) as Hz. unfold zone_ok, can_enter in *. rewrite Hcl in Hc. apply negb_true_iff in Hc.
    rewrite Hc in Hz. by destruct Hz. }
  unfold handshaken. rewrite Hc1, Hr1, Hz. cbn. intros [= <-].
  apply M_go_on; cbn; [|congruence..|left; congruence|congruence].
  unfold chan_pending. cbn. by rewrite lookup_insert_eq.
Qed.

Lemma write_moved t v b c1 c2 (s s' : chan V) :
  inv s -> threads s !! t = Some b -> pending_op b = Some (Write v) ->
  write_zone t v c1 c2 s = Some s' \/ write_zone_timeout t v c1 c2 s = Some s'
  \/ ((exists r, b = W_handshake v r) /\ (write_handshake t v c1 s = Some s' \/ write_handshake_timeout t v c1 s = Some s')) ->
  moved t (Write v) s s'.
Proof.
  intros Hi Ht Hb. unfold write_zone, write_zone_timeout, write_handshake, write_handshake_timeout.
  intros [Hs|[Hs|[[r ->] [Hs|Hs]]]]; case_match.
  - by eapply write_enter_moved.
  - injection Hs as <-. by apply goto_go_on.
  - by eapply write_enter_moved.
  - injection Hs as <-. eapply (M_finish t _ s _ (Write_timedout v)); [by constructor|cbn; by rewrite lookup_insert_eq|done..].
  - by eapply write_finish_moved.
  - injection Hs as <-. by apply goto_go_on.
  - by eapply write_finish_moved.
  - after_signal t (@W_ret V true) Hs. eapply (M_finish t _ s s' (Write_timedout v)); [by constructor|done..].
Qed.

Lemma read_enter_moved t c (s s' : chan V) :
  inv s -> can_read s = true -> read_enter t c s = Some s' -> moved t Read s s'.
Proof.
  intros Hi Hc. unfold read_enter, can_read in *. destruct (closed_ s) eqn:Hcl.
  { intros [= <-]. eapply (M_finish t _ s _ (Read_closed inhabitant)); [by constructor|cbn; by rewrite lookup_insert_eq|done..]. }
  apply andb_true_iff in Hc as [Hr Hw]. rewrite Hw. cbn [negb].
  pose proof (inv_zone _ Hi) as Hz. unfold zone_ok in Hz. rewrite Hw in Hz.
  destruct Hz as (w & v & b & Hit & Hwt & _). unfold deref_item. rewrite Hit. cbn. rewrite Hwt. intros Hs.
  after_signal t (R_ret true (Some v) false) Hs.
  eapply (M_finish t _ s s' (Got v)); [by eapply F_got|try done; congruence..].
Qed.

Lemma read_moved t c (s s' : chan V) :
  inv s -> read_wait t c s = Some s' \/ read_timeout t c s = Some s' -> moved t Read s s'.
Proof.
  intros Hi. unfold read_wait, read_timeout. intros [Hs|Hs]; destruct (can_read s) eqn:Hc.
  - by eapply read_enter_moved.
  - injection Hs as <-. by apply goto_go_on.
  - by eapply read_enter_moved.
  - apply orb_false_iff in Hc as [Hc _]. rewrite Hc in Hs. injection Hs as <-.
    eapply (M_finish t _ s _ Read_timedout); [by constructor|cbn; by rewrite lookup_insert_eq|done..].
Qed.

Lemma close_moved t p c (s s' : chan V) :
  threads s !! t = Some p -> pending_op p = Some Close ->
  (p = C_lock /\ close_locked t s = Some s') \/ close_notify t c p s = Some s' -> moved t Close s s'.
Proof.
  intros Ht Hp [[-> Hs]|Hs].
  - unfold close_locked in Hs. destruct (closed_ s) eqn:Hcl; injection Hs as <-; [by eapply M_crash|].
    apply M_go_on; try done; [|by right]. unfold chan_pending. cbn. by rewrite lookup_insert_eq.
  - destruct p; try done; cbn in Hs.
    + injection Hs as <-. apply M_go_on; try done; [|by left]. unfold chan_pending. cbn. by rewrite lookup_insert_eq.
    + injection Hs as <-. apply M_go_on; try done; [|by left]. unfold chan_pending. cbn. by rewrite lookup_insert_eq.
    + after_signal t (@C_ret V) Hs. eapply (M_finish t _ s s' Did_close); [by constructor|done..].
Qed.

(** A step starts a call, wakes a thread for no reason, or moves a thread inside its call. *)
Lemma chan_step_moved a (s s' : chan V) :
  inv s -> chan_exec a s = Some s' ->
  (chan_pending (chan_actor a) s = None
   /\ exists p, s' = goto (chan_actor a) p s /\ (p = R_lock \/ p = C_lock \/ exists v, p = W_lock v))
  \/ exists o, chan_pending (chan_actor a) s = Some o /\ moved (chan_actor a) o s s'.
Proof.
  intros Hi. unfold chan_exec. destruct (failed s); [done|].
  destruct a as [t v|t|t|t c1 c2|t c1 c2|t]; cbn [chan_actor].
  1-3: unfold call; case_match eqn:Hr; [|done]; intros [= <-]; left; unfold chan_pending;
    destruct (threads s !! t) as [[]|]; try done; (split; [done|]); eexists; (split; [done|]); eauto.
  all: unfold run_thread, timeout_thread, spurious_wakeup, chan_pending;
    destruct (threads s !! t) as [p|] eqn:Ht; [|done]; cbn [mbind option_bind]; intros Hs; right.
  - destruct p as [v|v []|v []| | |[]| | | | | |]; try done; eexists; (split; [done|]);
      first [by eapply (write_moved t _ _ c1 c2); eauto 6|by apply (read_moved t c1); auto|by eapply (close_moved t _ c1); eauto].
  - destruct p as [v|v b|v b| | |b| | | | | |]; try done; eexists; (split; [done|]);
      first [by eapply (write_moved t _ _ c1 c2); eauto 8|by apply (read_moved t c1); auto].
  - destruct p as [v|v []|v []| | |[]| | | | | |]; try done; injection Hs as <-; eexists; (split; [done|]); by apply goto_go_on.
Qed.

(** A thread that is inside a call has no answer, and a step gives at most the one of the thread that moves. *)
Lemma answer_pending o o' p : pending_op p = Some o -> answer o' p = None.
Proof. by destruct p, o'. Qed.

Lemma chan_returns_none a (s s' : chan V) :
  chan_pending (chan_actor a) s = None \/ is_Some (chan_pending (chan_actor a) s') -> chan_returns a s s' = None.
Proof.
  unfold chan_returns. destruct (chan_pending (chan_actor a) s) as [o'|]; [|done]. cbn.
  unfold chan_pending. destruct (threads s' !! chan_actor a) as [p|]; [|done]. cbn.
  intros [?|[o Hp]]; [done|]. by rewrite (answer_pending _ _ _ Hp).
Qed.

Lemma chan_step_returns a (s s' : chan V) :
  inv s -> chan_exec a s = Some s' ->
  (exists o r, chan_pending (chan_actor a) s = Some o /\ chan_returns a s s' = Some (chan_actor a, r)
     /\ finishes (chan_actor a) s s' o r /\ closed_ s' = closed_ s)
  \/ (chan_returns a s s' = None /\ written s' = written s /\ read_ s' = read_ s).
Proof.
  intros Hi Ha. destruct (chan_step_moved _ _ _ Hi Ha) as [(Hp & p & -> & _)|(o & Hp & [r p Hf Ht Hr Hc _|Hp' Hw Hr _ _|f Hc _ ->])].
  - right. split; [|done]. apply chan_returns_none. by left.
  - left. exists o, r. split_and!; try done. unfold chan_returns. rewrite Hp, Ht. cbn. by rewrite Hr.
  - right. split; [|done]. apply chan_returns_none. right. by rewrite Hp'.
  - right. split; [|done]. apply chan_returns_none. right. change (is_Some (chan_pending (chan_actor a) s)). by rewrite Hp.
Qed.

(** The history of the machine is what its calls answered. *)
Lemma finishes_history t (s s' : chan V) o r :
  finishes t s s' o r ->
  map snd (written s') = map snd (written s) ++ sent [(t, r)]
  /\ map snd (read_ s') = map snd (read_ s) ++ received [(t, r)].
Proof. by destruct 1 as [? -> ->|? -> ->|? ? -> ->| -> -> _| -> -> _| -> ->]; rewrite ?map_app, ?app_nil_r. Qed.

Lemma run_history acts (s s' : chan V) :
  inv s -> run acts s = Some s' ->
  map snd (written s') = map snd (written s) ++ sent (answers acts s)
  /\ map snd (read_ s') = map snd (read_ s) ++ received (answers acts s).
Proof.
  revert s. induction acts as [|a acts IH]; intros s Hi; cbn; [intros [= ->]; by rewrite !app_nil_r|].
  destruct (chan_exec a s) as [s1|] eqn:Ha; [|done]. intros Hr.
  destruct (IH _ (chan_exec_inv _ _ _ Hi Ha) Hr) as [-> ->]. unfold sent, received. rewrite !omap_app.
  destruct (chan_step_returns _ _ _ Hi Ha) as [(o & r & _ & -> & Hf & _)|(-> & -> & ->)]; [|done].
  destruct (finishes_history _ _ _ _ _ Hf) as [-> ->]. by rewrite <- !app_assoc.
Qed.

(** The flag goes up in [Close], and stays. *)
Lemma chan_step_closed a (s s' : chan V) :
  inv s -> chan_exec a s = Some s' ->
  closed_ s' = closed_ s \/ (closed_ s' = true /\ chan_pending (chan_actor a) s = Some Close).
Proof.
  intros Hi Ha. destruct (chan_step_moved _ _ _ Hi Ha) as [(Hp & p & -> & _)|(o & Hp & [r p Hf Ht Hr Hc _|_ _ _ [?|[-> ?]] _|f _ _ ->])];
    by auto.
Qed.

(** ** Threads nobody wakes *)

(** The state of a thread that no notification concerns, after a segment of another thread. *)
Ltac keep_thread Hs :=
  lazymatch type of Hs with
  | Some _ = Some _ => injection Hs as <-; cbn; rewrite ?lookup_insert_ne by done
  | signal _ _ _ = Some _ => eapply signal_keeps; [exact Hs| |by auto]; cbn; rewrite ?lookup_insert_ne by done
  | mbind _ (signal ?w ?c ?x) = Some _ =>
      let s1 := fresh "s1" in let H1 := fresh "H1" in
      destruct (signal w c x) as [s1|] eqn:H1; cbn [mbind option_bind] in Hs; [|discriminate Hs];
      keep_thread Hs; keep_thread H1
  | context [if ?b then _ else _] => destruct b; keep_thread Hs
  | context [match ?x with _ => _ end] => destruct x; try discriminate Hs; keep_thread Hs
  end.

Definition unconcerned (p : pc V) : Prop :=
  wake_writers p = None /\ wake_readers p = None /\ wake_handshake p = None.

Lemma write_finish_keeps u v c (s s' : chan V) t p :
  unconcerned p -> u <> t -> threads s !! t = Some p -> write_finish u v c s = Some s' -> threads s' !! t = Some p.
Proof. intros (H1 & H2 & H3) Hne Ht Hs. unfold write_finish in Hs. keep_thread Hs; done. Qed.

Lemma write_enter_keeps u v c1 c2 (s s' : chan V) t p :
  unconcerned p -> u <> t -> threads s !! t = Some p -> write_enter u v c1 c2 s = Some s' -> threads s' !! t = Some p.
Proof.
  intros Hp Hne Ht. pose proof Hp as (H1 & H2 & H3). unfold write_enter. destruct (closed_ s); [by intros [= <-]|].
  destruct (signal _ _ _) as [s1|] eqn:E; cbn [mbind option_bind]; [|done].
  apply (signal_keeps _ _ _ _ t p) in E; [|cbn; by rewrite lookup_insert_ne|done].
  destruct (handshaken s1); [by apply write_finish_keeps|]. intros [= <-]. cbn. by rewrite lookup_insert_ne.
Qed.

Lemma read_enter_keeps u c (s s' : chan V) t p :
  unconcerned p -> u <> t -> threads s !! t = Some p -> read_enter u c s = Some s' -> threads s' !! t = Some p.
Proof. intros (H1 & H2 & H3) Hne Ht Hs. unfold read_enter in Hs. keep_thread Hs; done. Qed.

Lemma close_notify_keeps u c q (s s' : chan V) t p :
  unconcerned p -> u <> t -> threads s !! t = Some p -> close_notify u c q s = Some s' -> threads s' !! t = Some p.
Proof.
  intros (H1 & H2 & H3) Hne Ht Hs. unfold close_notify in Hs. keep_thread Hs; try done;
    unfold notify_all; rewrite lookup_fmap, Ht; cbn; by rewrite ?H1, ?H2.
Qed.

Lemma others_keep a (s s' : chan V) t p :
  unconcerned p -> chan_exec a s = Some s' -> chan_actor a <> t -> threads s !! t = Some p -> threads s' !! t = Some p.
Proof.
  intros Hp Ha Hne Ht. unfold chan_exec in Ha. destruct (failed s); [done|].
  pose proof (write_enter_keeps (chan_actor a)) as Hwe. pose proof (write_finish_keeps (chan_actor a)) as Hwf.
  pose proof (read_enter_keeps (chan_actor a)) as Hre. pose proof (close_notify_keeps (chan_actor a)) as Hck.
  destruct a as [u v|u|u|u c1 c2|u c1 c2|u]; cbn in *;
    unfold call, run_thread, timeout_thread, spurious_wakeup, write_zone, write_zone_timeout, write_handshake,
      write_handshake_timeout, read_wait, read_timeout, close_locked in Ha;
    repeat case_match; try discriminate Ha;
    first [ by eapply Hwe | by eapply Hwf | by eapply Hre | by eapply Hck
          | injection Ha as <-; cbn; by rewrite ?lookup_insert_ne
          | eapply signal_keeps; [exact Ha| |by destruct Hp]; cbn; by rewrite lookup_insert_ne ].
Qed.

(** ** Threads inside [Close] *)

(** A thread that has still to notify, after the flag went up. *)
Definition closing (p : pc V) : Prop := will_notify_handshake p.

Lemma signal_closing wake c (s s' : chan V) t p :
  signal wake c s = Some s' -> wake = wake_writers \/ wake = wake_readers \/ wake = wake_handshake -> closing p -> threads s' !! t = Some p -> threads s !! t = Some p.
Proof.
  intros (ths' & -> & [(_ & -> & _)|(u & q & q' & _ & Hu & Hq & ->)])%signal_spec Hw Hp; cbn; [done|].
  intros [[-> ->]|[_ ?]]%lookup_insert_Some; [|done].
  by destruct Hw as [->|[->| ->]], q as [|? []|? []| | |[]| | | | | |]; simplify_eq/=.
Qed.

(** Where a closing thread was before a segment: [H] says where it is after. *)
Ltac closing_back Hs H :=
  lazymatch type of Hs with
  | Some _ = Some _ => injection Hs as <-; cbn in H; rewrite ?lookup_insert_Some in H
  | signal _ _ _ = Some _ => apply (signal_closing _ _ _ _ _ _ Hs) in H; [|by auto|done]; cbn in H; rewrite ?lookup_insert_Some in H
  | context [if ?b then _ else _] => destruct b; closing_back Hs H
  | context [match ?x with _ => _ end] => destruct x; try discriminate Hs; closing_back Hs H
  end.

Lemma write_finish_closing u v c (s s' : chan V) t p :
  closing p -> write_finish u v c s = Some s' -> threads s' !! t = Some p -> threads s !! t = Some p.
Proof. intros Hp Hs H. unfold write_finish in Hs. closing_back Hs H; try done. by destruct H as [[_ <-]|[_ ?]]. Qed.

Lemma write_enter_closing u v c1 c2 (s s' : chan V) t p :
  closing p -> write_enter u v c1 c2 s = Some s' -> threads s' !! t = Some p -> threads s !! t = Some p.
Proof.
  intros Hp. unfold write_enter. destruct (closed_ s); [by intros [= <-]|].
  destruct (signal _ _ _) as [s1|] eqn:E; cbn [mbind option_bind]; [|done]. intros Hs H.
  assert (H1 : threads s1 !! t = Some p).
  { destruct (handshaken s1); [by eapply write_finish_closing|]. injection Hs as <-. cbn in H.
    by apply lookup_insert_Some in H as [[_ <-]|[_ ?]]. }
  apply (signal_closing _ _ _ _ _ _ E) in H1; [|by auto|done]. cbn in H1. by apply lookup_insert_Some in H1 as [[_ <-]|[_ ?]].
Qed.

Lemma read_enter_closing u c (s s' : chan V) t p :
  closing p -> read_enter u c s = Some s' -> threads s' !! t = Some p -> threads s !! t = Some p.
Proof. intros Hp Hs H. unfold read_enter in Hs. closing_back Hs H; try done; by destruct H as [[_ <-]|[_ ?]]. Qed.

Lemma notify_all_closing wake ths t p :
  wake = wake_writers \/ wake = wake_readers -> closing p -> notify_all wake ths !! t = Some p ->
  exists q, ths !! t = Some q /\ closing q.
Proof.
  intros Hw Hp. unfold notify_all. rewrite lookup_fmap. destruct (ths !! t) as [q|]; [|done]. cbn. intros [= <-].
  exists q. split; [done|]. by destruct Hw as [->| ->], q as [|? []|? []| | |[]| | | | | |].
Qed.

Definition closers_ok (s : chan V) : Prop := has closing (threads s) -> closed_ s = true.

Lemma closers_ok_step a (s s' : chan V) : inv s -> closers_ok s -> chan_exec a s = Some s' -> closers_ok s'.
Proof.
  intros Hi Hc Ha (t & p & H & Hp).
  enough ((exists q, threads s !! t = Some q /\ closing q) \/ closed_ s' = true) as [(q & Hq & Hqc)|?]; [|done|].
  { destruct (chan_step_closed _ _ _ Hi Ha) as [->|[? _]]; [|done]. apply Hc. by exists t, q. }
  unfold chan_exec in Ha. destruct (failed s); [done|].
  destruct a as [u v|u|u|u c1 c2|u c1 c2|u]; cbn in Ha;
    unfold call, run_thread, timeout_thread, spurious_wakeup, write_zone, write_zone_timeout, write_handshake,
      write_handshake_timeout, read_wait, read_timeout, close_locked, close_notify in Ha;
    repeat case_match; try discriminate Ha;
    first [ left; exists p; split; [|done];
            first [by eapply write_enter_closing|by eapply write_finish_closing|by eapply read_enter_closing]
          | apply (signal_closing _ _ _ _ _ _ Ha) in H; [|by auto|done]; cbn in H;
            apply lookup_insert_Some in H as [[_ <-]|[_ H]]; [done|left; by exists p]
          | injection Ha as <-; right; first [reflexivity|assumption]
          | injection Ha as <-; left; exists p; split; [exact H|exact Hp]
          | injection Ha as <-; cbn in H;
            apply lookup_insert_Some in H as [[<- <-]|[_ H]];
            [first [done|left; eexists; by split; [eassumption|]]|left; first [by exists p|by eapply notify_all_closing; [|exact Hp|exact H]; auto]] ].
Qed.

(** A thread that has just called [Write] or [Close] on a closed channel. *)
Definition doomed (t : nat) (s : chan V) : Prop :=
  closed_ s = true /\ exists p, threads s !! t = Some p /\ (p = C_lock \/ exists v, p = W_lock v).

Lemma doomed_step a (s s' : chan V) t :
  inv s -> doomed t s -> chan_exec a s = Some s' ->
  doomed t s' /\ chan_pending t s' = chan_pending t s /\ (chan_actor a = t -> is_Some (failed s')).
Proof.
  intros Hi (Hc & p & Ht & Hp) Ha.
  assert (Hc' : closed_ s' = true) by (destruct (chan_step_closed _ _ _ Hi Ha) as [->|[? _]]; done).
  destruct (decide (chan_actor a = t)) as [Heq|Hne].
  - assert (Hs : exists f, s' = fail f s).
    { unfold chan_exec in Ha. destruct (failed s); [done|].
      destruct a as [u v|u|u|u c1 c2|u c1 c2|u]; cbn in Heq; subst u; cbn in Ha;
        unfold call, run_thread, timeout_thread, spurious_wakeup, write_zone, can_enter, write_enter, close_locked in Ha;
        rewrite Ht in Ha; destruct Hp as [->|[w ->]]; rewrite ?Hc in Ha; try done; injection Ha as <-; by eexists. }
    destruct Hs as [f ->]. split_and!; [|done|by eexists]. split; [done|]. by exists p.
  - assert (Ht' : threads s' !! t = Some p)
      by (eapply others_keep; [|exact Ha|done|done]; by destruct Hp as [->|[v ->]]).
    split_and!; [split; [done|by exists p]|unfold chan_pending; by rewrite Ht, Ht'|done].
Qed.

Lemma doomed_run acts (s s' : chan V) t :
  inv s -> doomed t s -> run acts s = Some s' -> inv s' /\ doomed t s' /\ chan_pending t s' = chan_pending t s.
Proof.
  revert s. induction acts as [|a acts IH]; intros s Hi Hd; cbn; [by intros [= ->]|].
  destruct (chan_exec a s) as [s1|] eqn:Ha; [|done]. intros Hr.
  destruct (doomed_step _ _ _ _ Hi Hd Ha) as (Hd1 & Hp1 & _).
  destruct (IH _ (chan_exec_inv _ _ _ Hi Ha) Hd1 Hr) as (? & ? & ->). done.
Qed.

(** ** The laws *)

Lemma unbuffered_history acts (s0 s : chan V) :
  m_init s0 -> run acts s0 = Some s ->
  sent (answers acts s0) = map snd (written s) /\ received (answers acts s0) = map snd (read_ s) /\ inv s.
Proof.
  intros -> Hr. destruct (run_history _ _ _ chan_init_inv Hr) as [-> ->]. split_and!; [done..|].
  apply chan_reachable_inv. by exists chan_init, acts.
Qed.

Lemma unbuffered_delivery (s0 s : chan V) (acts : list (action V)) :
  m_init s0 -> run acts s0 = Some s ->
  exists taken, received (answers acts s0) `prefix_of` sent (answers acts s0) ++ taken
    /\ Forall (fun v => exists t, pending t s = Some (Write v)) taken.
Proof.
  intros Hi Hr. destruct (unbuffered_history _ _ _ Hi Hr) as (-> & -> & [Hz _ _ _ _]).
  unfold zone_ok in Hz. destruct (writter_in_zone_ s).
  - destruct Hz as (w & v & b & _ & Hw & _ & -> & _). exists [v]. split.
    + rewrite map_app. apply prefix_app. by destruct (reader_in_zone_ s); [|apply prefix_nil].
    + constructor; [|done]. exists w. cbn. unfold chan_pending. by rewrite Hw.
  - destruct Hz as (_ & -> & _). exists []. by rewrite app_nil_r.
Qed.

(** The step that answers a call, with the call and what it did. *)
Lemma unbuffered_answer a (s s' : chan V) t r :
  inv s -> chan_exec a s = Some s' -> returns a s s' = Some (t, r) ->
  exists o, finishes t s s' o r /\ closed_ s' = closed_ s.
Proof.
  intros Hi Ha Hr. destruct (chan_step_returns _ _ _ Hi Ha) as [(o & r' & _ & Hr' & Hf)|(Hr' & _)]; cbn in Hr;
    rewrite Hr' in Hr; [|done]. injection Hr as <- <-. by exists o.
Qed.

Lemma unbuffered_drained (s0 s s' : chan V) (acts : list (action V)) (a : action V) (t : nat) (item : V) :
  m_init s0 -> run acts s0 = Some s -> m_exec a s = Some s' -> returns a s s' = Some (t, Read_closed item) ->
  is_closed s = true /\ item = inhabitant /\ sent (answers acts s0) `prefix_of` received (answers acts s0).
Proof.
  intros Hi Hr Ha Hret. destruct (unbuffered_history _ _ _ Hi Hr) as (-> & -> & Hinv).
  destruct (unbuffered_answer _ _ _ _ _ Hinv Ha Hret) as (o & Hf & _). inversion Hf; subst. split_and!; [done..|].
  pose proof (inv_zone _ Hinv) as Hz. unfold zone_ok in Hz. destruct (writter_in_zone_ s).
  - destruct Hz as (w & v & b & _ & _ & _ & -> & _). rewrite map_app. by apply prefix_app_r.
  - by destruct Hz as (_ & -> & _).
Qed.

Lemma unbuffered_crash (s s' : chan V) (a : action V) :
  reachable s -> m_exec a s = Some s' -> crashed s' = true ->
  is_closed s = true /\ (pending (actor a) s = Some Close \/ exists v, pending (actor a) s = Some (Write v)).
Proof.
  intros Hi%chan_reachable_inv Ha Hc%bool_decide_eq_true_1.
  assert (Hf : failed s = None) by (cbn in Ha; unfold chan_exec in Ha; by destruct (failed s)).
  destruct (chan_step_moved _ _ _ Hi Ha) as [(Hp & p & -> & _)|(o & Hp & [r p _ _ _ _ E|_ _ _ _ E|f Hcl Ho ->])];
    [done|congruence|congruence|].
  split; [done|]. cbn. rewrite Hp. destruct o; eauto. done.
Qed.

Lemma unbuffered_misuse (s s1 s2 : chan V) (a : action V) (acts : list (action V)) (t : nat) (o : op V) :
  reachable s -> is_closed s = true -> pending t s = None -> actor a = t -> m_exec a s = Some s1 ->
  pending t s1 = Some o -> o <> Read -> run acts s1 = Some s2 ->
  pending t s2 = Some o /\ forall b s3, actor b = t -> m_exec b s2 = Some s3 -> crashed s3 = true.
Proof.
  intros Hi%chan_reachable_inv Hc Hp <- Ha Hp1 Ho Hr.
  assert (Hd : doomed (actor a) s1).
  { destruct (chan_step_moved _ _ _ Hi Ha) as [(_ & p & -> & Hg)|(o' & Hp' & _)]; [|cbn in *; congruence].
    split; [done|]. exists p. cbn in *. rewrite lookup_insert_eq. split; [done|]. revert Hp1. unfold chan_pending. cbn.
    rewrite lookup_insert_eq. destruct Hg as [->|[->|[v ->]]]; cbn; [congruence|eauto..]. }
  destruct (doomed_run _ _ _ _ (chan_exec_inv _ _ _ Hi Ha) Hd Hr) as (Hi2 & Hd2 & Hp2).
  split; [cbn in *; congruence|]. intros b s3 Hb Hs3. apply bool_decide_eq_true.
  destruct (doomed_step _ _ _ _ Hi2 Hd2 Hs3) as (_ & _ & Hf). destruct (Hf Hb) as [f ->]. done.
Qed.

Lemma unbuffered_close_never_blocks (s : chan V) (t : nat) :
  crashed s = false -> pending t s = Some Close -> can_move t s.
Proof.
  intros Hf%bool_decide_eq_false_1 Hp. cbn in Hp. unfold chan_pending in Hp.
  destruct (threads s !! t) as [p|] eqn:Ht; [|done]. cbn in Hp.
  assert (H : exists c s', run_thread t c None s = Some s').
  { unfold run_thread. rewrite Ht. destruct p; try done; cbn.
    - exists None. unfold close_locked. by case_match; eexists.
    - exists None. by eexists.
    - exists None. by eexists.
    - apply signal_total. }
  destruct H as (c & s' & H). exists (Run t c None), s'. split_and!; [done|done|]. cbn. unfold chan_exec.
  by destruct (failed s); [destruct Hf|].
Qed.

Lemma unbuffered_close_unblocks (s : chan V) (t : nat) :
  reachable s -> crashed s = false -> is_closed s = true -> (forall u, pending u s <> Some Close) ->
  pending t s = Some Read ->
  can_move t s
  /\ forall a s', actor a = t -> voluntary a = true -> m_exec a s = Some s' ->
       returns a s s' = Some (t, Read_closed inhabitant).
Proof.
  intros Hi%chan_reachable_inv Hf%bool_decide_eq_false_1 Hcl Hno Hp. cbn in Hp, Hcl. unfold chan_pending in Hp.
  destruct (threads s !! t) as [p|] eqn:Ht; [|done]. cbn in Hp.
  assert (Hf' : failed s = None) by (destruct (failed s); [by destruct Hf|done]).
  assert (Hrun : forall c1 c2, run_thread t c1 c2 s = Some (goto t (R_ret false (Some inhabitant) false) s)).
  { intros c1 c2. unfold run_thread. rewrite Ht. destruct p as [| | | | |b| | | | | |]; try done;
      [|destruct b]; unfold read_wait, can_read, read_enter; rewrite ?Hcl; try done.
    exfalso. destruct (inv_closing _ Hi Hcl) as (_ & H & _). destruct H as (u & q & Hu & Hq); [by exists t, (R_wait false)|].
    apply (Hno u). cbn. unfold chan_pending. rewrite Hu. by destruct q. }
  split.
  - eexists (Run t None None), _. split_and!; [done|done|]. cbn. unfold chan_exec. by rewrite Hf', Hrun.
  - intros a s' Ha Hv Hs. destruct a as [| | |u c1 c2| |]; try done. cbn in Ha. subst u.
    cbn in Hs. unfold chan_exec in Hs. rewrite Hf', Hrun in Hs. injection Hs as <-.
    cbn. unfold chan_returns, chan_pending. cbn. by rewrite Ht, lookup_insert_eq; cbn; rewrite Hp.
Qed.

Lemma closers_reachable (s : chan V) : reachable s -> closers_ok s.
Proof.
  intros Hr. enough (inv s /\ closers_ok s) by tauto. revert s Hr. apply reachable_invariant.
  - intros ? ->. split; [apply chan_init_inv|]. intros (t & p & H & _). cbn in H. by rewrite lookup_empty in H.
  - intros a s1 s2 [Hi Hc] Ha. split; [exact (chan_exec_inv _ _ _ Hi Ha)|exact (closers_ok_step _ _ _ Hi Hc Ha)].
Qed.

Lemma unbuffered_close_returns (s s' : chan V) (a : action V) (t : nat) :
  reachable s -> m_exec a s = Some s' -> returns a s s' = Some (t, Did_close) -> is_closed s' = true.
Proof.
  intros Hr Ha Hret. pose proof (chan_reachable_inv _ Hr) as Hi.
  destruct (unbuffered_answer _ _ _ _ _ Hi Ha Hret) as (o & Hf & Hc). cbn. rewrite Hc. apply closers_reachable; [done|].
  inversion Hf; subst. exists (chan_actor a). cbn in Hret, Ha. unfold chan_returns, chan_pending in Hret.
  destruct (threads s !! chan_actor a) as [p|] eqn:Ht; [|done]. exists p. split; [done|]. cbn in Hret.
  destruct p as [| | | | | | | | | | |]; cbn in Hret; try done;
    try (by destruct (threads s' !! chan_actor a) as [[| | |[]| | |[] []| | | | |]|]).
  exfalso. unfold chan_exec in Ha. destruct (failed s); [done|].
  destruct a as [u v|u|u|u c1 c2|u c1 c2|u]; cbn in *;
    unfold call, run_thread, timeout_thread, spurious_wakeup, close_locked in Ha; rewrite Ht in Ha; try done.
  destruct (closed_ s); injection Ha as <-; cbn in Hret; [by rewrite Ht in Hret|by rewrite lookup_insert_eq in Hret].
Qed.

#[export] Instance unbuffered_laws : ChannelLaws V (chan V) (action V).
Proof.
  split.
  - apply unbuffered_delivery.
  - apply unbuffered_drained.
  - intros s s' a t Hi%chan_reachable_inv Ha Hr.
    destruct (unbuffered_answer _ _ _ _ _ Hi Ha Hr) as (o & Hf & _). by inversion Hf.
  - intros s s' a Hi%chan_reachable_inv Ha Hne. by destruct (chan_step_closed _ _ _ Hi Ha).
  - apply unbuffered_close_returns.
  - apply unbuffered_crash.
  - apply unbuffered_misuse.
  - intros s t _. apply unbuffered_close_never_blocks.
  - apply unbuffered_close_unblocks.
Qed.

(** ** Property *)


End unbuffered.

(** ** A client of the interface *)

(** Thread 0 sends 7 and 9, thread 1 reads until the end, which thread 2 brings about. *)
Definition loop_schedule : list (action nat) :=
  [Call_write 0 7; Run 0 None None; Call_read 1; Run 1 (Some 0) None; Run 0 None None;
   Call_read 1; Run 1 None None; Call_write 0 9; Run 0 (Some 1) None; Run 1 (Some 0) None; Run 0 None None;
   Call_close 2; Run 2 None None; Run 2 None None; Run 2 None None; Run 2 None None; Call_read 1]%nat.

(** The limit of a timed [Write] holds for each of its two waits, not for the call: thread 1 waits for the zone,
    which thread 0 leaves when its own wait ends; it then waits again, for a reader, and times out only there. *)
Lemma write_waits_twice :
  exists s1 s2 s3 : chan nat,
    run [Call_write 0 7; Run 0 None None; Call_write 1 9; Run 1 None None]%nat chan_init = Some s1
    /\ threads s1 !! 1%nat = Some (W_zone 9%nat false)
    /\ run [Timeout 0 (Some 1) None; Run 1 None None]%nat s1 = Some s2
    /\ threads s2 !! 1%nat = Some (W_handshake 9%nat false)
    /\ chan_exec (Timeout 1 None None)%nat s2 = Some s3
    /\ returns (Timeout 1 None None)%nat s2 s3 = Some (1%nat, Write_timedout 9%nat).
Proof.
  eexists _, _, _. split; [vm_compute; reflexivity|]. split; [vm_compute; reflexivity|].
  split; [vm_compute; reflexivity|]. split; [vm_compute; reflexivity|].
  split; [vm_compute; reflexivity|]. vm_compute; reflexivity.
Qed.

(** Nobody writes at the end of it. *)
Definition no_writer (s : chan nat) : bool :=
  bool_decide (map_Forall (fun _ p => match pending_op p with Some (Write _) => false | _ => true end = true) (threads s)).

Lemma no_writer_spec (s : chan nat) : no_writer s = true -> forall u v, pending u s <> Some (Write v).
Proof.
  intros H%bool_decide_eq_true u v Hp. cbn in Hp. unfold chan_pending in Hp.
  destruct (threads s !! u) as [p|] eqn:Hu; [|done].
  pose proof (map_Forall_lookup_1 _ _ _ _ H Hu) as Hq. cbn in Hp, Hq. by rewrite Hp in Hq.
Qed.

Lemma reader_receives_all_witness :
  received (answers loop_schedule (chan_init (V := nat))) = [7; 9]%nat
  /\ received (answers loop_schedule (chan_init (V := nat))) = sent (answers loop_schedule (chan_init (V := nat))).
Proof.
  split; [vm_compute; reflexivity|].
  eapply (reader_receives_all chan_init (demo loop_schedule)
    (demo (loop_schedule ++ [Run 1 None None]%nat)) loop_schedule (Run 1 None None)%nat 1%nat 0%nat).
  - reflexivity.
  - vm_compute. reflexivity.
  - vm_compute. reflexivity.
  - vm_compute. reflexivity.
  - apply no_writer_spec. vm_compute. reflexivity.
Defined.
