(* ===== verification/Rendezvous.v ===== *)
(** * The unbuffered channel refines a rendezvous

    The abstract channel has no mutex, no zone and no condition variable: it is the set of the calls in progress.
    A [Read] that succeeds takes, in one atomic step, the offer of one [Write] in progress that nobody took
    before, and returns its value; that [Write] can then only succeed. Every schedule of the machine of
    [Channel.v], with the calls, the answers and the death of the process that one sees of it, is a schedule of
    the abstract channel. *)

From S2P Require Import Prelude.
From S2P Require Import CondVar.
From S2P Require Import ChannelSpec.
From S2P Require Import Channel.
From S2P Require Import Unbuffered.

Section rendezvous.
Context {V : Type} `{!Inhabited V}.

(** ** The abstract channel *)

(** A call in progress: a value offered, or already taken; a reader that waits for one; a [Close] that has still
    to close, or has closed. *)
Inductive call_state : Type :=
| Offering (v : V)
| Taken (v : V)
| Taking
| Closing
| Has_closed.

Record rendezvous : Type := Rendezvous {
  r_closed : bool;
  r_dead : bool;
  r_calls : gmap nat call_state;
}.

Definition rendezvous_init : rendezvous := {| r_closed := false; r_dead := false; r_calls := ∅ |}.

(** What one sees of a step. *)
Inductive event : Type :=
| E_call (t : nat) (o : op V)
| E_return (t : nat) (r : ret V)
| E_crash (t : nat)
| E_internal.

Definition start (o : op V) : call_state :=
  match o with Write v => Offering v | Read => Taking | Close => Closing end.

Inductive rendezvous_step : event -> rendezvous -> rendezvous -> Prop :=
| S_internal r : rendezvous_step E_internal r r
| S_call t o c m :
    m !! t = None ->
    rendezvous_step (E_call t o) (Rendezvous c false m) (Rendezvous c false (<[t := start o]> m))
| S_transfer w t v m :
    m !! w = Some (Offering v) -> m !! t = Some Taking ->
    rendezvous_step (E_return t (Got v)) (Rendezvous false false m)
      (Rendezvous false false (delete t (<[w := Taken v]> m)))
| S_wrote t v c m :
    m !! t = Some (Taken v) ->
    rendezvous_step (E_return t (Wrote v)) (Rendezvous c false m) (Rendezvous c false (delete t m))
| S_write_timedout t v m :
    m !! t = Some (Offering v) ->
    rendezvous_step (E_return t (Write_timedout v)) (Rendezvous false false m) (Rendezvous false false (delete t m))
| S_read_timedout t m :
    m !! t = Some Taking ->
    rendezvous_step (E_return t Read_timedout) (Rendezvous false false m) (Rendezvous false false (delete t m))
| S_read_closed t m :
    m !! t = Some Taking ->
    rendezvous_step (E_return t (Read_closed inhabitant)) (Rendezvous true false m) (Rendezvous true false (delete t m))
| S_closes t m :
    m !! t = Some Closing ->
    rendezvous_step E_internal (Rendezvous false false m) (Rendezvous true false (<[t := Has_closed]> m))
| S_did_close t c m :
    m !! t = Some Has_closed ->
    rendezvous_step (E_return t Did_close) (Rendezvous c false m) (Rendezvous c false (delete t m))
| S_crash t m x :
    m !! t = Some x -> (x = Closing \/ exists v, x = Offering v) ->
    rendezvous_step (E_crash t) (Rendezvous true false m) (Rendezvous true true m).

Fixpoint rendezvous_run (es : list event) (r r' : rendezvous) : Prop :=
  match es with
  | [] => r = r'
  | e :: es' => exists r1, rendezvous_step e r r1 /\ rendezvous_run es' r1 r'
  end.

(** ** What one sees of the machine *)

Definition event_of (a : action V) (s s' : chan V) : event :=
  match a with
  | Call_write t v => E_call t (Write v)
  | Call_read t => E_call t Read
  | Call_close t => E_call t Close
  | _ =>
      match failed s' with
      | Some _ => E_crash (chan_actor a)
      | None => match chan_returns a s s' with Some (t, r) => E_return t r | None => E_internal end
      end
  end.

Fixpoint events (acts : list (action V)) (s : chan V) : list event :=
  match acts with
  | [] => []
  | a :: acts' => match chan_exec a s with Some s' => event_of a s s' :: events acts' s' | None => [] end
  end.

(** ** The abstraction *)

(** The writer at its handshake has been taken once a reader is in the zone. *)
Definition call_of (taken : bool) (p : pc V) : option call_state :=
  match p with
  | W_lock v | W_zone v _ => Some (Offering v)
  | W_handshake v _ => Some (if taken then Taken v else Offering v)
  | R_lock | R_wait _ => Some Taking
  | C_lock => Some Closing
  | C_notify_writers | C_notify_readers | C_notify_handshake => Some Has_closed
  | W_ret _ | R_ret _ _ _ | C_ret => None
  end.

Definition calls (taken : bool) (ths : gmap nat (pc V)) : gmap nat call_state := omap (call_of taken) ths.

#[local] Arguments calls : simpl never.

Definition abstract (s : chan V) : rendezvous :=
  {| r_closed := closed_ s; r_dead := bool_decide (failed s <> None); r_calls := calls (reader_in_zone_ s) (threads s) |}.

(** ** Lemmas: the calls in progress *)

Lemma calls_lookup b ths t p : ths !! t = Some p -> calls b ths !! t = call_of b p.
Proof. intros Ht. unfold calls. by rewrite lookup_omap, Ht. Qed.

Lemma calls_insert b ths t p :
  calls b (<[t := p]> ths) = match call_of b p with Some c => <[t := c]> (calls b ths) | None => delete t (calls b ths) end.
Proof. unfold calls. rewrite omap_insert. by destruct (call_of b p). Qed.

Lemma calls_insert_same b ths t p p' :
  ths !! t = Some p -> call_of b p' = call_of b p -> calls b (<[t := p']> ths) = calls b ths.
Proof.
  intros Ht Hp. rewrite calls_insert, Hp. pose proof (calls_lookup b ths t p Ht) as H.
  destruct (call_of b p); [by apply insert_id|by apply delete_id].
Qed.

(** Waking a thread does not move it to another call. *)
Definition keeps_calls (wake : pc V -> option (pc V)) : Prop :=
  forall b p p', wake p = Some p' -> call_of b p' = call_of b p.

Lemma wakes_keep_calls : keeps_calls wake_writers /\ keeps_calls wake_readers /\ keeps_calls wake_handshake.
Proof. split_and!; intros b p p'; by destruct p as [|? []|? []| | |[]| | | | | |]; intros [= <-]. Qed.

Lemma signal_abstract wake c (s s' : chan V) :
  keeps_calls wake -> signal wake c s = Some s' -> abstract s' = abstract s.
Proof.
  intros Hk (ths' & -> & [(_ & -> & _)|(u & p & p' & _ & Hu & Hp & ->)])%signal_spec; [done|].
  unfold abstract. f_equal. exact (calls_insert_same _ _ _ _ _ Hu (Hk _ _ _ Hp)).
Qed.

Lemma notify_all_calls wake b ths : keeps_calls wake -> calls b (notify_all wake ths) = calls b ths.
Proof.
  intros Hk. unfold calls, notify_all. apply map_eq. intros u. rewrite !lookup_omap, lookup_fmap.
  destruct (ths !! u) as [p|]; [|done]. cbn. destruct (wake p) eqn:E; [by apply Hk|done].
Qed.

(** Only the writer in the zone depends on whether a reader is in it. *)
Lemma calls_zone b b' t p ths :
  (forall u q, ths !! u = Some q -> at_handshake q -> u = t) -> ~ at_handshake p ->
  calls b' (<[t := p]> ths) = match call_of b p with Some c => <[t := c]> (calls b ths) | None => delete t (calls b ths) end.
Proof.
  intros Hu Hp. assert (call_of b' p = call_of b p) as E by (destruct p; try done; by destruct Hp).
  rewrite calls_insert, E. apply map_eq. intros u. destruct (decide (u = t)) as [->|Hne].
  - destruct (call_of b p); by rewrite ?lookup_insert_eq, ?lookup_delete_eq.
  - assert (calls b' ths !! u = calls b ths !! u) as Heq.
    { unfold calls. rewrite !lookup_omap. destruct (ths !! u) as [q|] eqn:Hq; [|done]. cbn.
      destruct q; try done. destruct Hne. by apply (Hu u _ Hq). }
    destruct (call_of b p); by rewrite ?lookup_insert_ne, ?lookup_delete_ne.
Qed.

(** A reader enters the zone: the offer of the writer in it is taken. *)
Lemma calls_taken w v b t ok item to ths :
  ths !! w = Some (W_handshake v b) -> (forall u q, ths !! u = Some q -> at_handshake q -> u = w) -> t <> w ->
  calls true (<[t := R_ret ok item to]> ths) = delete t (<[w := Taken v]> (calls false ths)).
Proof.
  intros Hw Hu Hne. rewrite calls_insert. cbn. f_equal. rewrite <- (insert_id ths w _ Hw) at 1.
  rewrite calls_insert. cbn. apply map_eq. intros u. destruct (decide (u = w)) as [->|Hn]; [by rewrite !lookup_insert_eq|].
  rewrite !lookup_insert_ne by done. unfold calls. rewrite !lookup_omap.
  destruct (ths !! u) as [q|] eqn:Hq; [|done]. cbn. destruct q; try done. destruct Hn. by apply (Hu u _ Hq).
Qed.

(** ** Lemmas: what each segment is on the abstract channel *)

(** The event of a segment of thread [t], inside a call of [o]. *)
Definition segment_event (t : nat) (o : op V) (s' : chan V) : event :=
  match failed s' with
  | Some _ => E_crash t
  | None => match threads s' !! t ≫= answer o with Some r => E_return t r | None => E_internal end
  end.

Definition simulated (t : nat) (o : op V) (s s' : chan V) : Prop :=
  rendezvous_step (segment_event t o s') (abstract s) (abstract s').

Lemma abstract_alive (s : chan V) :
  failed s = None -> abstract s = Rendezvous (closed_ s) false (calls (reader_in_zone_ s) (threads s)).
Proof. intros Hf. unfold abstract. by rewrite Hf. Qed.

(** A segment after which the thread is still inside the same call. *)
Lemma goto_simulated t p p' o (s : chan V) :
  failed s = None -> threads s !! t = Some p -> pending_op p' = Some o ->
  call_of (reader_in_zone_ s) p' = call_of (reader_in_zone_ s) p -> simulated t o s (goto t p' s).
Proof.
  intros Hf Ht Hp Hc. unfold simulated, segment_event, abstract. cbn.
  rewrite Hf, lookup_insert_eq. cbn. rewrite (answer_pending _ _ _ Hp), (calls_insert_same _ _ _ _ _ Ht Hc). constructor.
Qed.

Lemma fail_simulated t p o f (s : chan V) x :
  failed s = None -> closed_ s = true -> threads s !! t = Some p -> call_of (reader_in_zone_ s) p = Some x ->
  (x = Closing \/ exists v, x = Offering v) -> simulated t o s (fail f s).
Proof.
  intros Hf Hc Ht Hp Hx. unfold simulated, segment_event, abstract. cbn. rewrite Hf, Hc. cbn.
  apply S_crash with x; [|done]. by rewrite (calls_lookup _ _ _ _ Ht).
Qed.

(** A segment that ends in a notification, after the thread reached [p']. *)
Lemma signal_simulated wake c t p' o (s1 s s' : chan V) :
  keeps_calls wake -> wake p' = None -> failed s1 = None -> threads s1 !! t = Some p' ->
  signal wake c s1 = Some s' -> simulated t o s s1 -> simulated t o s s'.
Proof.
  intros Hk Hw Hf Ht Hs. unfold simulated, segment_event. rewrite (signal_abstract _ _ _ _ Hk Hs).
  rewrite (signal_keeps _ _ _ _ _ _ Hs Ht Hw), Ht. apply signal_frame in Hs as (_ & _ & _ & ->). done.
Qed.

Lemma write_finish_simulated t v b c (s s' : chan V) :
  inv s -> failed s = None -> threads s !! t = Some (W_handshake v b) -> handshaken s = true ->
  write_finish t v c s = Some s' -> simulated t (Write v) s s'.
Proof.
  intros Hi Hf Ht Hh. unfold write_finish, handshaken in *. destruct (_ && _) eqn:E.
  { apply andb_true_iff in E as [Hr%negb_true_iff Hc]. intros [= <-].
    eapply fail_simulated; [done|done|exact Ht|cbn; by rewrite Hr|eauto]. }
  intros Hs. destruct (zone_at_handshake _ _ _ _ _ (inv_zone _ Hi) Ht) as (_ & _ & _ & Hu & _).
  eapply (signal_simulated wake_writers); [apply wakes_keep_calls| | | |exact Hs|]; cbn;
    [|done|by rewrite lookup_insert_eq|]; [done|].
  unfold simulated, segment_event. cbn. rewrite Hf, lookup_insert_eq. cbn. rewrite !abstract_alive by done. cbn.
  assert (Hr : reader_in_zone_ s = true) by (destruct (reader_in_zone_ s), (closed_ s); done).
  rewrite (calls_zone true false t (W_ret false)), Hr by (try done; intros []). cbn. constructor.
  by rewrite (calls_lookup _ _ _ _ Ht).
Qed.

Lemma write_enter_simulated t v p c1 c2 (s s' : chan V) :
  inv s -> failed s = None -> threads s !! t = Some p -> (p = W_lock v \/ exists b, p = W_zone v b) ->
  can_enter s = true -> write_enter t v c1 c2 s = Some s' -> simulated t (Write v) s s'.
Proof.
  intros Hi Hf Ht Hp Hc. assert (Hcall : forall b, call_of b p = Some (Offering v)) by (by destruct Hp as [->|[? ->]]).
  unfold write_enter, can_enter in *. destruct (closed_ s) eqn:Hcl.
  { intros [= <-]. eapply fail_simulated; eauto. }
  apply negb_true_iff in Hc. pose proof (inv_zone _ Hi) as Hz. unfold zone_ok in Hz. rewrite Hc in Hz.
  destruct Hz as (Hr & _ & Hno).
  destruct (signal _ _ _) as [s1|] eqn:Hs; cbn [mbind option_bind]; [|done].
  destruct (signal_readers_keeps _ _ _ t v true Hs) as (Ht1 & Hc1 & Hr1); [by cbn; rewrite lookup_insert_eq|].
  pose proof (signal_abstract _ _ _ _ (proj1 (proj2 wakes_keep_calls)) Hs) as Ha.
  apply signal_frame in Hs as (_ & _ & _ & Hf1). cbn in *. unfold handshaken. rewrite Hc1, Hr1, Hr. intros [= <-].
  unfold simulated. replace (abstract (goto t (W_handshake v false) s1)) with (abstract s).
  - unfold segment_event. cbn. rewrite Hf1, Hf, lookup_insert_eq. constructor.
  - transitivity (abstract s1).
    + rewrite Ha. unfold abstract. cbn. rewrite calls_insert. cbn. rewrite Hr, Hcl, insert_id; [done|].
      rewrite (calls_lookup _ _ _ _ Ht). apply Hcall.
    + unfold abstract. cbn. by rewrite (calls_insert_same _ _ _ _ _ Ht1).
Qed.

(** A segment that ends a call without any other effect. *)
Lemma goto_return_simulated t p' o r (s : chan V) :
  failed s = None -> call_of (reader_in_zone_ s) p' = None -> answer o p' = Some r ->
  rendezvous_step (E_return t r) (abstract s)
    (Rendezvous (closed_ s) false (delete t (calls (reader_in_zone_ s) (threads s)))) ->
  simulated t o s (goto t p' s).
Proof.
  intros Hf Hp Ha. unfold simulated, segment_event. rewrite (abstract_alive (goto t p' s)) by done. cbn.
  rewrite Hf, lookup_insert_eq. cbn. by rewrite Ha, calls_insert, Hp.
Qed.

Lemma write_simulated t v p c1 c2 (s s' : chan V) :
  inv s -> failed s = None -> threads s !! t = Some p ->
  ((p = W_lock v \/ exists b, p = W_zone v b)
    /\ (write_zone t v c1 c2 s = Some s' \/ write_zone_timeout t v c1 c2 s = Some s'))
  \/ ((exists r, p = W_handshake v r) /\ (write_handshake t v c1 s = Some s' \/ write_handshake_timeout t v c1 s = Some s')) ->
  simulated t (Write v) s s'.
Proof.
  intros Hi Hf Ht. unfold write_zone, write_zone_timeout, write_handshake, write_handshake_timeout.
  assert (Hcall : (p = W_lock v \/ exists b, p = W_zone v b) -> call_of (reader_in_zone_ s) p = Some (Offering v))
    by (by intros [->|[? ->]]).
  intros [[Hp [Hs|Hs]]|[[r ->] [Hs|Hs]]]; case_match eqn:Hc.
  - by eapply write_enter_simulated.
  - injection Hs as <-. eapply goto_simulated; [done|exact Ht|done|by rewrite Hcall].
  - by eapply write_enter_simulated.
  - injection Hs as <-. apply orb_false_iff in Hc as [Hcl _].
    apply (goto_return_simulated _ _ _ (Write_timedout v)); [done..|]. rewrite abstract_alive, Hcl by done. constructor.
    rewrite (calls_lookup _ _ _ _ Ht). auto.
  - by eapply write_finish_simulated.
  - injection Hs as <-. by eapply goto_simulated.
  - by eapply write_finish_simulated.
  - apply orb_false_iff in Hc as [Hcl Hr].
    eapply (signal_simulated wake_writers); [apply wakes_keep_calls| | | |exact Hs|]; cbn;
      [|done|by rewrite lookup_insert_eq|]; [done|].
    unfold simulated, segment_event. cbn. rewrite Hf, lookup_insert_eq. cbn. rewrite !abstract_alive, Hcl, Hr by done. cbn.
    rewrite calls_insert. cbn. constructor. by rewrite (calls_lookup _ _ _ _ Ht).
Qed.

Lemma read_enter_simulated t p c (s s' : chan V) :
  inv s -> failed s = None -> threads s !! t = Some p -> (p = R_lock \/ exists b, p = R_wait b) ->
  can_read s = true -> read_enter t c s = Some s' -> simulated t Read s s'.
Proof.
  intros Hi Hf Ht Hp Hc. assert (Hcall : forall b, call_of b p = Some Taking) by (by destruct Hp as [->|[? ->]]).
  unfold read_enter, can_read in *. destruct (closed_ s) eqn:Hcl.
  { intros [= <-]. apply (goto_return_simulated _ _ _ (Read_closed inhabitant)); [done..|].
    rewrite abstract_alive, Hcl by done. constructor. rewrite (calls_lookup _ _ _ _ Ht). apply Hcall. }
  apply andb_true_iff in Hc as [Hr%negb_true_iff Hw]. rewrite Hw. cbn [negb].
  pose proof (inv_zone _ Hi) as Hz. unfold zone_ok in Hz. rewrite Hw in Hz.
  destruct Hz as (w & v & b & Hit & Hwt & Hu & _). unfold deref_item. rewrite Hit. cbn. rewrite Hwt. intros Hs.
  assert (Hne : t <> w) by (intros ->; destruct Hp as [->|[? ->]]; by simplify_eq).
  eapply (signal_simulated wake_handshake); [apply wakes_keep_calls| | | |exact Hs|]; cbn;
    [|done|by rewrite lookup_insert_eq|]; [done|].
  unfold simulated, segment_event. cbn. rewrite Hf, lookup_insert_eq. cbn. rewrite !abstract_alive, Hcl, Hr by done. cbn.
  rewrite (calls_taken _ _ _ _ _ _ _ _ Hwt Hu Hne). constructor.
  - by rewrite (calls_lookup _ _ _ _ Hwt).
  - rewrite (calls_lookup _ _ _ _ Ht). apply Hcall.
Qed.

Lemma read_simulated t p c (s s' : chan V) :
  inv s -> failed s = None -> threads s !! t = Some p -> (p = R_lock \/ exists b, p = R_wait b) ->
  read_wait t c s = Some s' \/ read_timeout t c s = Some s' -> simulated t Read s s'.
Proof.
  intros Hi Hf Ht Hp. unfold read_wait, read_timeout. intros [Hs|Hs]; destruct (can_read s) eqn:Hc;
    try (by eapply read_enter_simulated); apply orb_false_iff in Hc as [Hcl _].
  - injection Hs as <-. eapply goto_simulated; [done|exact Ht|done|by destruct Hp as [->|[? ->]]].
  - rewrite Hcl in Hs. injection Hs as <-. apply (goto_return_simulated _ _ _ Read_timedout); [done..|].
    rewrite abstract_alive, Hcl by done. constructor. rewrite (calls_lookup _ _ _ _ Ht). by destruct Hp as [->|[? ->]].
Qed.

Lemma close_simulated t p c (s s' : chan V) :
  failed s = None -> threads s !! t = Some p ->
  (p = C_lock /\ close_locked t s = Some s') \/ close_notify t c p s = Some s' -> simulated t Close s s'.
Proof.
  intros Hf Ht [[-> Hs]|Hs].
  - unfold close_locked in Hs. destruct (closed_ s) eqn:Hcl; injection Hs as <-; [by eapply fail_simulated; eauto|].
    unfold simulated, segment_event. cbn. rewrite Hf, lookup_insert_eq. cbn. rewrite !abstract_alive, Hcl by done. cbn.
    rewrite calls_insert. cbn. constructor. by rewrite (calls_lookup _ _ _ _ Ht).
  - destruct p; try done; cbn in Hs.
    1-2: injection Hs as <-; unfold simulated; rewrite !abstract_alive by done; unfold segment_event; cbn;
      rewrite Hf, lookup_insert_eq; cbn;
      rewrite calls_insert, notify_all_calls by apply wakes_keep_calls; cbn;
      rewrite insert_id by (by rewrite (calls_lookup _ _ _ _ Ht)); constructor.
    eapply (signal_simulated wake_handshake); [apply wakes_keep_calls| | | |exact Hs|]; cbn;
      [|done|by rewrite lookup_insert_eq|]; [done|].
    apply (goto_return_simulated _ _ _ Did_close); [done..|]. rewrite abstract_alive by done. constructor.
    by rewrite (calls_lookup _ _ _ _ Ht).
Qed.

Lemma segment_simulated a p (s s' : chan V) o :
  inv s -> threads s !! chan_actor a = Some p -> pending_op p = Some o ->
  (forall v, a <> Call_write (chan_actor a) v) -> a <> Call_read (chan_actor a) -> a <> Call_close (chan_actor a) ->
  chan_exec a s = Some s' -> simulated (chan_actor a) o s s'.
Proof.
  intros Hi Ht Hp Hn1 Hn2 Hn3. unfold chan_exec. destruct (failed s) eqn:Hf; [done|].
  destruct a as [t v|t|t|t c1 c2|t c1 c2|t]; cbn [chan_actor] in *; [by destruct (Hn1 v)|done..| | |];
    unfold run_thread, timeout_thread, spurious_wakeup; rewrite Ht; intros Hs.
  - destruct p as [v|v []|v []| | |[]| | | | | |]; try done; injection Hp as <-;
      first [by eapply (write_simulated t _ _ c1 c2); eauto 8|by eapply (read_simulated t _ c1); eauto
            |by eapply (close_simulated t _ c1); eauto].
  - destruct p as [v|v b|v b| | |b| | | | | |]; try done; injection Hp as <-;
      first [by eapply (write_simulated t _ _ c1 c2); eauto 8|by eapply (read_simulated t _ c1); eauto].
  - destruct p as [v|v []|v []| | |[]| | | | | |]; try done; injection Hs as <-; injection Hp as <-;
      by eapply goto_simulated.
Qed.

Lemma step_simulated a (s s' : chan V) :
  inv s -> chan_exec a s = Some s' -> rendezvous_step (event_of a s s') (abstract s) (abstract s').
Proof.
  intros Hi Ha. destruct a as [t v|t|t|t c1 c2|t c1 c2|t].
  1-3: cbn in *; unfold chan_exec, call in Ha; destruct (failed s) eqn:Hf; [done|]; case_match eqn:Hr; [|done];
    injection Ha as <-; rewrite !abstract_alive by done; cbn; rewrite calls_insert; cbn;
    apply (S_call t); unfold calls; rewrite lookup_omap; by destruct (threads s !! t) as [[]|].
  all: pose proof (chan_step_moved _ _ _ Hi Ha) as Hm; cbn [chan_actor] in Hm;
    (destruct Hm as [[Hp _]|(o & Hp & _)];
     [unfold chan_pending in Hp; unfold chan_exec, run_thread, timeout_thread, spurious_wakeup in Ha;
      destruct (failed s), (threads s !! t) as [[]|]; done|]);
    pose proof Hp as Hp'; unfold chan_pending in Hp; destruct (threads s !! t) as [p|] eqn:Ht; [|done]; cbn in Hp;
    (eapply (segment_simulated _ p _ _ o) in Ha; [|done..]); cbn [chan_actor] in Ha;
    unfold simulated, segment_event in Ha; unfold event_of, chan_returns; cbn [chan_actor]; rewrite Hp'; cbn [mbind option_bind];
    destruct (failed s'); [done|]; destruct (threads s' !! t) as [q|]; [|done]; cbn [mbind option_bind] in *;
    by destruct (answer o q).
Qed.

Lemma run_simulated acts (s s' : chan V) :
  inv s -> run acts s = Some s' -> rendezvous_run (events acts s) (abstract s) (abstract s').
Proof.
  revert s. induction acts as [|a acts IH]; intros s Hi; cbn; [by intros [= ->]|].
  destruct (chan_exec a s) as [s1|] eqn:Ha; [|done]. intros Hr. cbn.
  exists (abstract s1). split; [by apply step_simulated|]. by apply IH; [eapply chan_exec_inv|].
Qed.

(** ** Property *)

(** C16. Refinement: whatever the schedule, the calls, the answers and the death of the process that one sees of
    the unbuffered channel are those of the abstract channel, on which a successful [Read] takes in one atomic
    step a value that one [Write] in progress offers and nobody took before, a [Write] succeeds exactly when its
    value was taken and times out only while it was not, a [Read] ends with the default value only when the
    channel is closed and times out only when it is open, the channel is closed once, and only a [Write] whose
    value nobody took or a second [Close] brings the process down, on a closed channel. *)
Theorem channel_refines (acts : list (action V)) (s : chan V) :
  run acts chan_init = Some s -> rendezvous_run (events acts chan_init) rendezvous_init (abstract s).
Proof. apply run_simulated, chan_init_inv. Qed.

End rendezvous.

Arguments event : clear implicits.

(** Threads 1 and 2 read while thread 0 writes 7; then the channel is closed, which thread 2 notices. *)
Definition transfer_schedule : list (action nat) :=
  [Call_read 1; Run 1 None None; Call_read 2; Run 2 None None; Call_write 0 7; Run 0 (Some 1) None;
   Run 1 (Some 0) None; Run 0 None None; Call_close 3; Run 3 None None; Run 3 None None; Run 3 None None;
   Run 3 None None; Run 2 None None]%nat.

Definition transfer_events : list (event nat) :=
  [E_call 1 Read; E_internal; E_call 2 Read; E_internal; E_call 0 (Write 7); E_internal;
   E_return 1 (Got 7); E_return 0 (Wrote 7); E_call 3 Close; E_internal; E_internal; E_internal;
   E_return 3 Did_close; E_return 2 (Read_closed 0)]%nat.

Lemma channel_refines_witness :
  events transfer_schedule chan_init = transfer_events
  /\ exists r, rendezvous_run transfer_events rendezvous_init r /\ r_closed r = true.
Proof.
  split; [vm_compute; reflexivity|]. exists (abstract (demo transfer_schedule)).
  split; [|vm_compute; reflexivity].
  change transfer_events with (events transfer_schedule (chan_init (V := nat))).
  apply channel_refines. vm_compute. reflexivity.
Defined.
