(* ===== verification/Collector.v ===== *)
(** * Collecting the stacks of all threads ([src/src/ts/signal_handler.cc], [StackTraceCollector::Collect])

    The collector signals every thread with a form to fill in, waits for one acknowledgement per signalled
    thread on a pipe, at most until a timer fires, and groups the forms. Each signalled thread runs
    [InternalHandler] at some time after the signal, step by step, at the same time as the collector.

    A state of the machine holds the collector's variables, the handlers that have still to run or are
    running, and the forms that are allocated: the forms are owned by [slot], so that they are released
    when [Collect] returns, whether or not the handlers that write to them have finished.
    [use_after_free] records that one of them touched its form after that. [acked] is a history variable: the
    threads whose acknowledgement was written. *)

From S2P Require Import Prelude.
From S2P Require Import Text.
From S2P Require Import OrdSet.
From S2P Require Import Defer.
From S2P Require Import StackTrace.
From Stdlib Require Import Sorted.
From Stdlib Require String.
Import String.StringSyntax.
#[local] Open Scope list_scope.

Section collector.

(** What [ListThreads] returned, what libunwind finds on each thread, the initial content of the array of
    each form, and [google::Symbolize]. *)
Context (listed : list Z) (unw : Z -> unwinder) (garbage : Z -> list Z).
Context (symbolize : Z -> option (list byte)).

(** ** State *)

Inductive phase : Type :=
| Start
| Signalling (todo : list Z)
| Timer_made
| Waiting
| Returned (results : list Result) (error : list byte).

(** A handler that was not delivered yet, or the frames one has still to visit. *)
Inductive handler : Type :=
| Pending
| Visiting (fs : list (option Z)).

Inductive fd : Type := Pipe_read | Pipe_write | Timer.

#[global] Instance fd_eq_decision : EqDecision fd.
Proof. solve_decision. Defined.

Record collect : Type := Collect {
  at_ : phase;
  slot : list Z;
  failed_tids : list Z;
  forms : gmap Z ThreadStack;
  handlers : gmap Z handler;
  unread : nat;
  acks : nat;
  open_fds : list fd;
  acked : gset Z;
  use_after_free : bool;
}.

Definition collect_init : collect :=
  Collect Start [] [] ∅ ∅ 0 0 [] ∅ false.

(** [std::set<pid_t> init_tids(tids_v.begin(), tids_v.end())] *)
Definition init_tids : list Z := set_of listed.

(** [STLSetDifference(init_tids, failed_tids, &tids)] *)
Definition tids (s : collect) : list Z := set_difference init_tids (failed_tids s).

(** ** The collector *)

(** The places where [Collect] returns: three tests of system calls, and the loop and what follows it. *)
Inductive exit : Type :=
| At_pipe
| At_timerfd_create
| At_timerfd_settime
| At_loop.

#[global] Instance exit_eq_decision : EqDecision exit.
Proof. solve_decision. Defined.

Definition opens (fds : list fd) : @Defer.action (list fd) := fun st => (fds ++ st, Done ()).

Definition closes (x : fd) : @Defer.action (list fd) := fun st => (filter (fun y => y <> x) st, Done ()).

(** The body of [Collect], as to its descriptors, when it returns at [e]. *)
Definition collect_block (e : exit) : list (stmt (list fd)) :=
  [Do (opens (if decide (e = At_pipe) then [] else [Pipe_write; Pipe_read]));
   Return_if (fun _ => bool_decide (e = At_pipe));
   Named_defer 0 (closes Pipe_read);
   Named_defer 1 (closes Pipe_write);
   Do (opens (if decide (e = At_timerfd_create) then [] else [Timer]));
   Return_if (fun _ => bool_decide (e = At_timerfd_create));
   Return_if (fun _ => bool_decide (e = At_timerfd_settime));
   Named_defer 2 (closes Timer)].

(** The descriptors that are still open once the deferred closes ran. *)
Definition left_open (e : exit) : list fd := (run_block 0 (collect_block e) []).1.

(** Leaving [Collect] at [e]: the deferred closes run and [slot] releases the forms. *)
Definition leave (rs : list Result) (error : list byte) (e : exit) (s : collect) : collect :=
  Collect (Returned rs error) (slot s) (failed_tids s) ∅ (handlers s) (unread s) (acks s) (left_open e) (acked s)
    (use_after_free s).

(** The forms of [slot], in order. *)
Definition filled (s : collect) : list ThreadStack := omap (fun t => forms s !! t) (slot s).

(** The test of the loop of step 4, and what follows the loop. *)
Definition await (s : collect) : collect :=
  if (acks s <? length (tids s))%nat then
    Collect Waiting (slot s) (failed_tids s) (forms s) (handlers s) (unread s) (acks s) (open_fds s)
      (acked s) (use_after_free s)
  else leave (post_process symbolize (filled s)) [] At_loop s.

(** Step 1: the pipe. *)
Definition make_pipe (ok : bool) (s : collect) : collect :=
  if ok then
    Collect (Signalling init_tids) (slot s) (failed_tids s) (forms s) (handlers s) (unread s) (acks s)
      [Pipe_write; Pipe_read] (acked s) (use_after_free s)
  else leave [] (lit "Internal server error"%string) At_pipe s.

(** Step 2: one thread is signalled, with a new form. *)
Definition signal_thread (ok : bool) (t : Z) (todo : list Z) (s : collect) : collect :=
  if ok then
    Collect (Signalling todo) (slot s ++ [t]) (failed_tids s)
      (<[t := new_form t (garbage t)]> (forms s)) (<[t := Pending]> (handlers s)) (unread s) (acks s)
      (open_fds s) (acked s) (use_after_free s)
  else
    Collect (Signalling todo) (slot s) (set_insert t (failed_tids s)) (forms s) (handlers s) (unread s)
      (acks s) (open_fds s) (acked s) (use_after_free s).

(** Step 3: the timer. *)
Definition make_timer (ok : bool) (s : collect) : collect :=
  if ok then
    Collect Timer_made (slot s) (failed_tids s) (forms s) (handlers s) (unread s) (acks s)
      (Timer :: open_fds s) (acked s) (use_after_free s)
  else leave [] (lit "Failed to create an internal timer"%string) At_timerfd_create s.

(** The [DEFER] that closes the timer comes after this point. *)
Definition set_timer (ok : bool) (s : collect) : collect :=
  if ok then await s else leave [] (lit "Failed to set an internal timer"%string) At_timerfd_settime s.

(** Step 4: one turn of the loop, by what [select] and [read] answer. *)
Inductive ready : Type :=
| Select_failed
| Select_none
| Ready_timer
| Ready_pipe (num_read : Z).

Definition timeout_error (s : collect) : list byte :=
  lit "Failed to get all ("%string ++ to_string (Z.of_nat (length (tids s)))
  ++ lit ") stacktraces within timeout. Got only "%string ++ to_string (Z.of_nat (acks s)).

(** A byte can be read only if one was written. *)
Definition select_turn (r : ready) (s : collect) : option collect :=
  match r with
  | Select_failed | Select_none => Some (await s)
  | Ready_timer => Some (leave [] (timeout_error s) At_loop s)
  | Ready_pipe n =>
      if n =? 1 then
        match unread s with
        | O => None
        | S k =>
            Some (await (Collect Waiting (slot s) (failed_tids s) (forms s) (handlers s) k (S (acks s))
                           (open_fds s) (acked s) (use_after_free s)))
        end
      else Some (await s)
  end.

(** ** The handlers *)

Definition set_handler (t : Z) (h : option handler) (s : collect) : collect :=
  Collect (at_ s) (slot s) (failed_tids s) (forms s)
    (match h with Some h => <[t := h]> (handlers s) | None => delete t (handlers s) end)
    (unread s) (acks s) (open_fds s) (acked s) (use_after_free s).

(** The handler touches its form after it was released: anything can happen. *)
Definition stale_form (t : Z) (s : collect) : collect :=
  Collect (at_ s) (slot s) (failed_tids s) (forms s) (delete t (handlers s)) (unread s) (acks s)
    (open_fds s) (acked s) true.

(** [form->Submit()]: [wrote] says whether the byte was written, which an open pipe may refuse and a closed
    one does. *)
Definition submit (t : Z) (wrote : bool) (s : collect) : collect :=
  if wrote && bool_decide (Pipe_write ∈ open_fds s) then
    Collect (at_ s) (slot s) (failed_tids s) (forms s) (delete t (handlers s)) (S (unread s)) (acks s)
      (open_fds s) ({[t]} ∪ acked s) (use_after_free s)
  else set_handler t None s.

(** One step of [InternalHandler] on thread [t]. *)
Definition handler_step (t : Z) (wrote : bool) (s : collect) : option collect :=
  match handlers s !! t with
  | None => None
  | Some Pending =>
      if negb (getcontext (unw t) =? 0) then Some (set_handler t None s)
      else if negb (init_local (unw t) =? 0) then Some (set_handler t None s)
      else Some (set_handler t (Some (Visiting (tail (frames (unw t))))) s)
  | Some (Visiting (None :: fs)) => Some (set_handler t (Some (Visiting fs)) s)
  | Some (Visiting fs) =>
      match forms s !! t with
      | None => Some (stale_form t s)
      | Some form =>
          match fs with
          | Some ip :: fs' =>
              let '(ok, form') := AddAddress ip form in
              Some (Collect (at_ s) (slot s) (failed_tids s) (<[t := form']> (forms s))
                      (<[t := Visiting (if ok then fs' else [])]> (handlers s))
                      (unread s) (acks s) (open_fds s) (acked s) (use_after_free s))
          | _ => Some (submit t wrote s)
          end
      end
  end.

(** ** The machine *)

Inductive action : Type :=
| Pipe (ok : bool)
| Signal (ok : bool)
| Timerfd_create (ok : bool)
| Timerfd_settime (ok : bool)
| Select (r : ready)
| Handler (t : Z) (wrote : bool).

Definition collect_exec (a : action) (s : collect) : option collect :=
  match a, at_ s with
  | Pipe ok, Start => Some (make_pipe ok s)
  | Signal ok, Signalling (t :: todo) => Some (signal_thread ok t todo s)
  | Timerfd_create ok, Signalling [] => Some (make_timer ok s)
  | Timerfd_settime ok, Timer_made => Some (set_timer ok s)
  | Select r, Waiting => select_turn r s
  | Handler t wrote, _ => handler_step t wrote s
  | _, _ => None
  end.

#[global] Instance collect_machine : Machine collect action :=
  {| m_init s := s = collect_init; m_exec := collect_exec |}.

(** ** What the collector should return *)

(** The addresses a thread's handler records. *)
Definition stack_of (t : Z) : list Z := take 100 (omap id (tail (frames (unw t)))).

(** A form of thread [t] that holds them. *)
Definition complete (t : Z) (form : ThreadStack) : Prop :=
  form_ok form /\ StackTrace.tid form = t /\ recorded form = stack_of t.

(** The results the specification asks for: the threads grouped by their stacks. *)
Definition specified (ts : list Z) (rs : list Result) : Prop :=
  exists fs, Forall2 complete ts fs /\ rs = grouped symbolize fs.

(** ** Invariant *)

(** The threads that were not considered yet. *)
Definition todo_of (p : phase) : list Z :=
  match p with Start => init_tids | Signalling todo => todo | _ => [] end.

(** The form of a thread whose handler has [h] left to do. *)
Definition form_inv (t : Z) (h : option handler) (form : ThreadStack) (done : Prop) : Prop :=
  form_ok form /\ StackTrace.tid form = t
  /\ match h with
     | Some Pending => recorded form = []
     | Some (Visiting fs) => take 100 (recorded form ++ omap id fs) = stack_of t
     | None => done -> recorded form = stack_of t
     end.

(** What holds while [Collect] runs. *)
Record running (s : collect) : Prop := Running {
  run_NoDup : NoDup (slot s ++ todo_of (at_ s));
  run_parts : forall t, t ∈ slot s ++ todo_of (at_ s) <-> t ∈ init_tids /\ t ∉ failed_tids s;
  run_failed : sorted (failed_tids s);
  run_forms : forall t, t ∈ slot s <-> is_Some (forms s !! t);
  run_form : forall t f, forms s !! t = Some f -> form_inv t (handlers s !! t) f (t ∈ acked s);
  run_uaf : use_after_free s = false;
}.

(** What holds once it returned: on success every handler ended and every form is complete. *)
Definition over (s : collect) (rs : list Result) (error : list byte) : Prop :=
  if decide (error = []) then
    handlers s = ∅ /\ use_after_free s = false /\ specified (slot s) rs /\ open_fds s = []
  else rs = [].

Record inv (s : collect) : Prop := Inv {
  inv_handlers : forall t, is_Some (handlers s !! t) -> t ∈ slot s /\ t ∉ acked s;
  inv_acked : forall t, t ∈ acked s -> t ∈ slot s;
  inv_count : (acks s + unread s)%nat = size (acked s);
  inv_phase : match at_ s with
              | Returned rs e => forms s = ∅ /\ over s rs e
              | _ => running s
              end;
}.

(** ** Lemmas *)

(** The number of acknowledgements the collector waits for is that of the threads it signalled. *)
Lemma tids_slot s : running s -> todo_of (at_ s) = [] -> length (tids s) = length (slot s).
Proof.
  intros Hr Ht. apply Permutation_length.
  pose proof (run_NoDup _ Hr) as Hn. pose proof (run_parts _ Hr) as Hp. rewrite Ht, app_nil_r in *.
  destruct (set_difference_spec init_tids (failed_tids s) (set_of_sorted _) (run_failed _ Hr)) as [Hs He].
  apply NoDup_Permutation; [by apply sorted_NoDup|done|]. intros t. by rewrite (He t), Hp.
Qed.

Lemma collect_init_inv : inv collect_init.
Proof.
  split; cbn; try done.
  - by intros t [? ?].
  - split; cbn; try done.
    + apply sorted_NoDup, set_of_sorted.
    + intros t. rewrite elem_of_nil. tauto.
    + constructor.
    + intros t. rewrite elem_of_nil. by split; [|intros [? ?]].
Qed.

(** All threads acknowledged: the handlers ended and the forms are complete. *)
Lemma all_acked s :
  inv s -> running s -> (length (slot s) <= acks s)%nat ->
  handlers s = ∅ /\ Forall2 complete (slot s) (filled s).
Proof.
  intros Hi Hr Hle.
  assert (Hall : forall t, t ∈ slot s -> t ∈ acked s).
  { assert (Hsub : acked s ⊆ list_to_set (slot s)).
    { intros t Ht. apply elem_of_list_to_set. by apply (inv_acked _ Hi). }
    assert (Heq : acked s = list_to_set (slot s)).
    { apply set_subseteq_size_eq; [done|].
      rewrite size_list_to_set by exact (proj1 (proj1 (NoDup_app _ _) (run_NoDup _ Hr))).
      pose proof (inv_count _ Hi). lia. }
    intros t Ht. rewrite Heq. by apply elem_of_list_to_set. }
  split.
  - apply map_empty. intros t. destruct (handlers s !! t) eqn:E; [|done].
    destruct (inv_handlers _ Hi t) as [? Hna]; [eauto|]. by destruct Hna; apply Hall.
  - unfold filled. assert (Hin : forall t, t ∈ slot s -> t ∈ slot s) by done. revert Hin.
    generalize (slot s) at 1 3 4 as l. induction l as [|t l IH]; intros Hin; [constructor|].
    cbn [omap list_omap]. assert (Ht : t ∈ slot s) by (apply Hin; left).
    destruct (proj1 (run_forms _ Hr t) Ht) as [f Hf]. rewrite Hf.
    constructor; [|apply IH; intros; apply Hin; by right].
    destruct (run_form _ Hr t f Hf) as (Hok & Htid & Hdone). split; [done|]. split; [done|].
    destruct (handlers s !! t) eqn:E; [|apply Hdone, Hall, Ht].
    destruct (inv_handlers _ Hi t) as [? Hna]; [eauto|]. by destruct Hna; apply Hall.
Qed.

(** Going round the loop, or leaving it with all acknowledgements. *)
Lemma await_inv s : inv s -> running s -> todo_of (at_ s) = [] -> inv (await s).
Proof.
  intros Hi Hr Ht. pose proof (tids_slot s Hr Ht) as Hl. pose proof Hi as [Hh Ha Hc _].
  pose proof Hr as [Hn Hp Hf Hfs Hfm Hu]. rewrite Ht in Hn, Hp.
  unfold await. destruct (Nat.ltb_spec (acks s) (length (tids s))).
  - by split; cbn.
  - destruct (all_acked s Hi Hr) as [He Hfill]; [lia|].
    split; cbn; try done. split; [done|]. unfold over. rewrite decide_True by done.
    split; [done|]. split; [done|]. split; [|done].
    exists (filled s). split; [done|]. apply post_process_eq.
    clear -Hfill. induction Hfill as [|t f ts fs [Hok _]]; by constructor.
Qed.

(** Leaving with an error. *)
Lemma leave_inv s error e : inv s -> error <> [] -> inv (leave [] error e s).
Proof. intros [Hh Ha Hc _] He. split; cbn; try done. split; [done|]. unfold over. by rewrite decide_False. Qed.

(** Signalling a thread. *)
Lemma signal_inv ok t todo s :
  (forall t, length (garbage t) = 100%nat) ->
  inv s -> running s -> at_ s = Signalling (t :: todo) -> inv (signal_thread ok t todo s).
Proof.
  intros Hg [Hh Ha Hc _] [Hn Hp Hf Hfs Hfm Hu] Hat. rewrite Hat in Hn, Hp. cbn in Hn, Hp.
  assert (Hts : t ∉ slot s).
  { apply NoDup_app in Hn as (_ & Hd & _). intros Hin. apply (Hd t Hin). left. }
  unfold signal_thread. destruct ok; split; cbn; try done.
  - intros u Hu'. destruct (decide (u = t)) as [->|].
    + split; [set_solver|]. intros Hin. by apply Hts, Ha.
    + rewrite lookup_insert_ne in Hu' by done. destruct (Hh u Hu'). set_solver.
  - intros u Hin. apply elem_of_app. left. by apply Ha.
  - split; cbn; try done; try (by rewrite <- app_assoc).
    + intros u. rewrite elem_of_app, list_elem_of_singleton, Hfs.
      destruct (decide (u = t)) as [->|]; [rewrite lookup_insert_eq|rewrite lookup_insert_ne by done];
        [split; eauto|tauto].
    + intros u f. destruct (decide (u = t)) as [->|].
      * rewrite !lookup_insert_eq. intros [= <-]. split; [|done]. split; [apply Hg|]. unfold kMaxDepth. cbn. lia.
      * rewrite !lookup_insert_ne by done. apply Hfm.
  - split; cbn; try done.
    + apply NoDup_app in Hn as (Hn1 & Hd & Hn2). inversion Hn2; subst. apply NoDup_app.
      split; [done|]. split; [|done]. intros u Hin Hin'. apply (Hd u Hin). by right.
    + intros u. rewrite elem_of_set_insert. specialize (Hp u).
      apply NoDup_app in Hn as (Hn1 & Hd & Hn2). inversion Hn2; subst.
      rewrite elem_of_app, elem_of_cons in Hp. rewrite elem_of_app.
      destruct (decide (u = t)) as [->|]; tauto.
    + by apply set_insert_sorted.
Qed.

(** A state with the handler and the form of thread [t] changed, and possibly its acknowledgement written. *)
Definition with_thread (t : Z) (h : option handler) (f : ThreadStack) (ack : bool) (s : collect) : collect :=
  Collect (at_ s) (slot s) (failed_tids s) (<[t := f]> (forms s))
    (match h with Some h => <[t := h]> (handlers s) | None => delete t (handlers s) end)
    (if ack then S (unread s) else unread s) (acks s) (open_fds s)
    (if ack then {[t]} ∪ acked s else acked s) (use_after_free s).

Lemma with_thread_inv t h0 h f ack s :
  inv s -> running s -> (forall rs e, at_ s <> Returned rs e) ->
  handlers s !! t = Some h0 -> (ack = true -> h = None) -> form_inv t h f (ack = true) ->
  inv (with_thread t h f ack s).
Proof.
  intros Hi [Hn Hp Hf Hfs Hfm Hu] Hat Ht Hack Hform. pose proof Hi as [Hh Ha Hc _].
  destruct (Hh t) as [Hts Hta]; [eauto|].
  assert (Hr : running (with_thread t h f ack s)).
  { split; cbn; try done.
    - intros u. destruct (decide (u = t)) as [->|]; [rewrite lookup_insert_eq; by split; eauto|].
      by rewrite lookup_insert_ne.
    - intros u g. destruct (decide (u = t)) as [->|Hne].
      + rewrite lookup_insert_eq. intros [= <-].
        assert (E : match h with Some h => <[t := h]> (handlers s) | None => delete t (handlers s) end !! t = h).
        { destruct h; [apply lookup_insert_eq|apply lookup_delete_eq]. }
        rewrite E. destruct Hform as (? & ? & Hh'). split; [done|]. split; [done|].
        destruct h as [[|]|]; [done..|]. intros Hin. apply Hh'. by destruct ack.
      + rewrite lookup_insert_ne by done. intros Hg.
        assert (E : match h with Some h => <[t := h]> (handlers s) | None => delete t (handlers s) end !! u
                    = handlers s !! u).
        { destruct h; [by apply lookup_insert_ne|by apply lookup_delete_ne]. }
        rewrite E. destruct (Hfm _ _ Hg) as (? & ? & Hh'). split; [done|]. split; [done|].
        destruct (handlers s !! u) as [[|]|]; [done..|]. intros Hin. apply Hh'.
        destruct ack; [|done]. set_solver. }
  split; cbn.
  - intros u Hu'. destruct (decide (u = t)) as [->|Hne].
    + destruct h; [|rewrite lookup_delete_eq in Hu'; by destruct Hu'].
      destruct ack; [by specialize (Hack eq_refl)|done].
    + assert (Hu2 : is_Some (handlers s !! u)).
      { destruct h; [by rewrite lookup_insert_ne in Hu'|by rewrite lookup_delete_ne in Hu']. }
      destruct (Hh _ Hu2). destruct ack; [set_solver|done].
  - intros u. destruct ack; [|apply Ha]. rewrite elem_of_union, elem_of_singleton. intros [->|?]; auto.
  - destruct ack; [|done]. rewrite size_union by set_solver. rewrite size_singleton. lia.
  - destruct (at_ s) eqn:E; try done. by destruct (Hat results error).
Qed.

Lemma set_handler_with t h f s :
  forms s !! t = Some f -> set_handler t h s = with_thread t h f false s.
Proof. intros Hf. unfold set_handler, with_thread. by rewrite insert_id. Qed.

(** A handler that is still there after the return found no form, and changes nothing that matters. *)
Lemma returned_inv s s' rs e t :
  inv s -> at_ s = Returned rs e -> is_Some (handlers s !! t) -> at_ s' = at_ s ->
  forms s' = forms s -> slot s' = slot s -> acked s' = acked s ->
  (acks s' + unread s' = acks s + unread s)%nat ->
  (forall u, is_Some (handlers s' !! u) -> is_Some (handlers s !! u)) -> inv s'.
Proof.
  intros [Hh Ha Hc Hp] Hat Ht Hat' Hf' Hs' Hk Hc' Hsub. rewrite Hat in Hp. unfold over in Hp.
  split; rewrite ?Hs', ?Hk; try done; [|lia|].
  - intros u Hu. apply Hh. auto.
  - rewrite Hat', Hat, Hf'. unfold over. split; [apply Hp|]. destruct Hp as [_ Hp]. case_decide; [|done].
    destruct Hp as [Hp _]. rewrite Hp, lookup_empty in Ht. by destruct Ht.
Qed.

Lemma handler_step_returned t wrote s s' rs e :
  inv s -> at_ s = Returned rs e -> handler_step t wrote s = Some s' -> inv s'.
Proof.
  intros Hi Hat Hs. pose proof Hi as [_ _ _ Hp]. rewrite Hat in Hp. destruct Hp as [Hf _].
  unfold handler_step in Hs. destruct (handlers s !! t) as [h|] eqn:Ht; [|done].
  assert (Hdel : forall u, is_Some (delete t (handlers s) !! u) -> is_Some (handlers s !! u)).
  { intros u [x Hx]. apply lookup_delete_Some in Hx as [_ ?]. eauto. }
  assert (Hins : forall h' u, is_Some (<[t := h']> (handlers s) !! u) -> is_Some (handlers s !! u)).
  { intros h' u. destruct (decide (u = t)) as [->|]; [by eauto|by rewrite lookup_insert_ne]. }
  rewrite Hf, lookup_empty in Hs.
  repeat case_match; simplify_eq; eapply (returned_inv s); cbn; eauto.
Qed.

Lemma handler_step_running t wrote s s' :
  inv s -> running s -> (forall rs e, at_ s <> Returned rs e) ->
  handler_step t wrote s = Some s' -> inv s'.
Proof.
  intros Hi Hr Hat Hs. unfold handler_step in Hs.
  destruct (handlers s !! t) as [h|] eqn:Ht; [|done].
  destruct (inv_handlers _ Hi t) as [Hts Hta]; [eauto|].
  destruct (proj1 (run_forms _ Hr t) Hts) as [f Hf].
  pose proof (run_form _ Hr t f Hf) as (Hok & Htid & Hh). rewrite Ht in Hh. rewrite Hf in Hs.
  assert (Hquit : inv (set_handler t None s)).
  { rewrite (set_handler_with t None f s Hf).
    eapply with_thread_inv; [done..|exact Ht|done|]. split; [done|]. by split. }
  destruct h as [|[|[ip|] fs]].
  - destruct (getcontext (unw t) =? 0); cbn in Hs; [|by simplify_eq].
    destruct (init_local (unw t) =? 0); cbn in Hs; [|by simplify_eq].
    injection Hs as <-. rewrite (set_handler_with _ _ f _ Hf).
    eapply with_thread_inv; [done..|exact Ht|done|]. split; [done|]. split; [done|]. by rewrite Hh.
  - injection Hs as <-. unfold submit. destruct (wrote && bool_decide _); [|done].
    assert (E : forms s = <[t := f]> (forms s)) by by rewrite insert_id.
    rewrite E at 1. apply (with_thread_inv t (Visiting []) None f true); try done.
    split; [done|]. split; [done|]. intros _. rewrite app_nil_r in Hh. rewrite <- Hh, take_ge; [done|].
    pose proof (recorded_length f Hok). destruct Hok. unfold kMaxDepth in *. lia.
  - pose proof (AddAddress_spec ip f Hok) as Ha. destruct (AddAddress ip f) as [ok f'].
    destruct Ha as (Hok' & Htid' & Eok & Hrec). injection Hs as <-.
    apply (with_thread_inv t (Visiting (Some ip :: fs)) (Some (Visiting (if ok then fs else []))) f' false); try done.
    split; [done|]. split; [congruence|]. rewrite <- Hh, Hrec. cbn. destruct ok; [by rewrite <- app_assoc|].
    symmetry in Eok. apply Nat.ltb_ge in Eok. cbn. by rewrite app_nil_r, take_app_le.
  - injection Hs as <-. rewrite (set_handler_with _ _ f _ Hf).
    eapply with_thread_inv; [done..|exact Ht|done|]. by split.
Qed.

Lemma collect_exec_inv a s s' :
  (forall t, length (garbage t) = 100%nat) -> inv s -> collect_exec a s = Some s' -> inv s'.
Proof.
  intros Hg Hi Hs. pose proof Hi as [Hh Ha Hc Hp].
  destruct a as [ok|ok|ok|ok|r|t wrote]; cbn in Hs; destruct (at_ s) as [|todo| | |rs e] eqn:Hat; try done.
  - injection Hs as <-. unfold make_pipe. destruct ok; [|by apply leave_inv].
    destruct Hp as [Hn Hpa Hf Hfs Hfm Hu]. rewrite Hat in *. by split; cbn.
  - destruct todo as [|t todo]; [done|]. injection Hs as <-. by apply signal_inv.
  - destruct todo; [|done]. injection Hs as <-. unfold make_timer. destruct ok; [|by apply leave_inv].
    destruct Hp as [Hn Hpa Hf Hfs Hfm Hu]. rewrite Hat in *. by split; cbn.
  - injection Hs as <-. unfold set_timer. destruct ok; [|by apply leave_inv].
    apply await_inv; [done|done|by rewrite Hat].
  - assert (Hw : inv (await s)) by (apply await_inv; [done|done|by rewrite Hat]).
    destruct r as [| | |n]; cbn in Hs;
      [by injection Hs as <-|by injection Hs as <-|injection Hs as <-; by apply leave_inv|].
    destruct (n =? 1); [|by injection Hs as <-]. destruct (unread s) as [|k] eqn:Hk; [done|].
    injection Hs as <-. destruct Hp as [Hn Hpa Hf Hfs Hfm Hu]. rewrite Hat in *.
    apply await_inv; [|by split|done]. split; cbn; try done; try lia; by split.
  - apply (handler_step_running t wrote s s'); [done|done|by rewrite Hat|done].
  - apply (handler_step_running t wrote s s'); [done|done|by rewrite Hat|done].
  - apply (handler_step_running t wrote s s'); [done|done|by rewrite Hat|done].
  - apply (handler_step_running t wrote s s'); [done|done|by rewrite Hat|done].
  - by apply (handler_step_returned t wrote s s' rs e).
Qed.

Hypothesis garbage_full : forall t, length (garbage t) = 100%nat.

Lemma collect_reachable_inv s : reachable s -> inv s.
Proof.
  apply reachable_invariant; [intros ? ->; apply collect_init_inv|]. intros a s1 s2. by apply collect_exec_inv.
Qed.

Lemma handler_step_frame t wrote s s' :
  handler_step t wrote s = Some s' ->
  at_ s' = at_ s /\ acks s' = acks s /\ failed_tids s' = failed_tids s /\ open_fds s' = open_fds s /\ slot s' = slot s.
Proof. unfold handler_step, submit. intros Hs. repeat case_match; by simplify_eq. Qed.

Lemma running_parts s :
  running s -> todo_of (at_ s) = [] -> NoDup (slot s) /\ forall t, t ∈ slot s <-> t ∈ init_tids /\ t ∉ failed_tids s.
Proof. intros Hr Et. pose proof (run_NoDup _ Hr) as Hn. pose proof (run_parts _ Hr) as Hp. by rewrite Et, app_nil_r in *. Qed.

(** After a success [slot] holds the threads that were listed and could be signalled, each once. *)
Lemma returned_parts s rs :
  reachable s -> at_ s = Returned rs [] ->
  NoDup (slot s) /\ forall t, t ∈ slot s <-> t ∈ listed /\ t ∉ failed_tids s.
Proof.
  set (parts s := NoDup (slot s) /\ forall t, t ∈ slot s <-> t ∈ init_tids /\ t ∉ failed_tids s).
  intros Hr Hat. assert (H : inv s /\ (forall rs, at_ s = Returned rs [] -> parts s)).
  2:{ destruct H as [_ H]. destruct (H rs Hat) as [Hn Hp]. split; [done|]. intros t. rewrite (Hp t).
      unfold init_tids. by rewrite elem_of_set_of. }
  clear Hat. revert s Hr. apply (reachable_invariant (fun s => inv s /\ forall rs, at_ s = Returned rs [] -> parts s));
    [intros s1 E1; cbn in E1; subst s1; split; [apply collect_init_inv|by intros ? [=]]|].
  intros a s s' [Hi IH] Hs. split; [by eapply collect_exec_inv|]. clear rs. intros rs Hat.
  assert (Ha : forall s1, parts s1 -> at_ (await s1) = Returned rs [] -> parts (await s1)).
  { intros s1 H1. unfold await. by destruct (_ <? _)%nat. }
  pose proof (inv_phase _ Hi) as Hp.
  destruct a as [ok|ok|ok|ok|r|t wrote]; cbn in Hs.
  6: { apply handler_step_frame in Hs as (E1 & _ & E2 & _ & E3). unfold parts. rewrite E2, E3. apply (IH rs). congruence. }
  all: destruct (at_ s) as [|[|t todo]| | |rs' e] eqn:Es; try done.
  - injection Hs as <-. by destruct ok.
  - injection Hs as <-. by destruct ok.
  - injection Hs as <-. by destruct ok.
  - assert (Hps : parts s) by (by apply running_parts; [|rewrite Es]).
    injection Hs as <-. destruct ok; [by apply Ha|done].
  - assert (Hps : parts s) by (by apply running_parts; [|rewrite Es]).
    destruct r as [| | |n]; cbn in Hs; [injection Hs as <-; by apply Ha..|by injection Hs as <-|].
    destruct (n =? 1); [|injection Hs as <-; by apply Ha]. destruct (unread s); [done|]. injection Hs as <-. by apply Ha.
Qed.

(** The collector waits only while acknowledgements are missing. *)
Lemma waiting_short s : reachable s -> at_ s = Waiting -> (acks s < length (tids s))%nat.
Proof.
  revert s. apply (reachable_invariant (fun s => at_ s = Waiting -> (acks s < length (tids s))%nat));
    [by intros ? ->|].
  assert (Ha : forall s, at_ (await s) = Waiting -> (acks (await s) < length (tids (await s)))%nat).
  { intros s. unfold await. by destruct (Nat.ltb_spec (acks s) (length (tids s))). }
  intros a s s' IH Hs.
  destruct a as [ok|ok|ok|ok|r|t wrote]; cbn in Hs.
  6: { apply handler_step_frame in Hs as (E1 & E2 & E3 & _). unfold tids. by rewrite E1, E2, E3. }
  all: destruct (at_ s) as [|[|t todo]| | |rs e]; try done.
  - injection Hs as <-. by destruct ok.
  - injection Hs as <-. by destruct ok.
  - injection Hs as <-. by destruct ok.
  - injection Hs as <-. destruct ok; [apply Ha|done].
  - unfold select_turn in Hs. repeat case_match; simplify_eq; apply Ha || done.
Qed.

(** ** Lemmas: ending *)

(** What is left to do, when every call succeeds: the steps of a handler, of the handlers, and of the collector, which
    has still to give some to the threads it did not signal yet. *)
Definition handler_left (t : Z) (h : handler) : nat :=
  match h with Pending => length (frames (unw t)) + 3 | Visiting fs => length fs + 2 end.

Definition handlers_left (m : gmap Z handler) : nat :=
  map_fold (fun t h n => handler_left t h + n)%nat 0%nat m.

Definition phase_left (p : phase) : nat :=
  let cost t := (length (frames (unw t)) + 4)%nat in
  match p with
  | Start => sum_list_with cost init_tids + 4
  | Signalling todo => sum_list_with cost todo + 3
  | Timer_made => 2
  | Waiting => 1
  | Returned _ _ => 0
  end.

Definition left_to_do (s : collect) : nat := (phase_left (at_ s) + handlers_left (handlers s) + unread s)%nat.

(** [Collect] runs, its pipe is open, and no handler gave up. *)
Definition on_track (s : collect) : Prop :=
  reachable s
  /\ match at_ s with Start => True | Returned _ _ => False | _ => Pipe_write ∈ open_fds s end
  /\ forall t, t ∈ slot s -> is_Some (handlers s !! t) \/ t ∈ acked s.

Definition succeeded (s : collect) : Prop := exists rs, at_ s = Returned rs [].

(** A call that succeeds: the system calls of [Collect], a byte read, a handler whose write goes through. *)
Definition goes_well (a : action) : Prop :=
  match a with
  | Pipe ok | Signal ok | Timerfd_create ok | Timerfd_settime ok | Handler _ ok => ok = true
  | Select r => r = Ready_pipe 1
  end.

(** When every call succeeds, no further thread is given up. *)
Lemma goes_well_failed acts s s' :
  Forall goes_well acts -> run acts s = Some s' -> failed_tids s' = failed_tids s.
Proof.
  intros Hw. revert s. induction Hw as [|a acts Ha _ IH]; intros s; cbn; [by intros [= ->]|].
  destruct (collect_exec a s) as [s1|] eqn:E; [|done]. intros Hr. rewrite (IH _ Hr). clear IH Hr.
  assert (Haw : forall s, failed_tids (await s) = failed_tids s) by (intros s0; unfold await; by case_match).
  destruct a as [ok|ok|ok|ok|r|t wrote]; cbn in E, Ha; subst.
  6: { by apply handler_step_frame in E as (_ & _ & E & _). }
  all: destruct (at_ s) as [|[|t todo]| | |rs e]; try done; cbn in E.
  1-3: by injection E as <-.
  - injection E as <-. apply Haw.
  - destruct (unread s); [done|]. injection E as <-. by rewrite Haw.
Qed.

Lemma handlers_left_insert m t h :
  m !! t = None -> handlers_left (<[t := h]> m) = (handler_left t h + handlers_left m)%nat.
Proof. intros Ht. unfold handlers_left. rewrite map_fold_insert_L; [done|intros; lia|done]. Qed.

Lemma handlers_left_delete m t h :
  m !! t = Some h -> handlers_left m = (handler_left t h + handlers_left (delete t m))%nat.
Proof. intros Ht. rewrite <- handlers_left_insert by apply lookup_delete_eq. by rewrite insert_delete_id. Qed.

Lemma handlers_left_update m t h h' :
  m !! t = Some h -> (handlers_left (<[t := h']> m) + handler_left t h = handler_left t h' + handlers_left m)%nat.
Proof.
  intros Ht. rewrite (handlers_left_delete m t h Ht), <- insert_delete_eq.
  rewrite handlers_left_insert by apply lookup_delete_eq. lia.
Qed.

(** The descriptors while [Collect] runs. *)
Lemma pipe_open s :
  reachable s -> match at_ s with Start | Returned _ _ => True | _ => Pipe_write ∈ open_fds s end.
Proof.
  revert s. apply (reachable_invariant (fun s => match at_ s with Start | Returned _ _ => True | _ => Pipe_write ∈ open_fds s end));
    [by intros ? ->|].
  intros a s s' IH Hs. assert (Hw : forall s, Pipe_write ∈ open_fds s ->
    match at_ (await s) with Start | Returned _ _ => True | _ => Pipe_write ∈ open_fds (await s) end).
  { intros s1 H1. unfold await. by destruct (_ <? _)%nat. }
  destruct a as [ok|ok|ok|ok|r|t wrote]; cbn in Hs.
  6: { apply handler_step_frame in Hs as (E & _ & _ & E' & _). by rewrite E, E'. }
  all: destruct (at_ s) as [|[|t todo]| | |rs e]; try done.
  - injection Hs as <-. destruct ok; [left|done].
  - injection Hs as <-. by destruct ok.
  - injection Hs as <-. destruct ok; [by right|done].
  - injection Hs as <-. destruct ok; [by apply Hw|done].
  - destruct r as [| | |n]; cbn in Hs; [injection Hs as <-; by apply Hw..|by injection Hs as <-|].
    destruct (n =? 1); [|injection Hs as <-; by apply Hw]. destruct (unread s); [done|]. injection Hs as <-. by apply Hw.
Qed.

(** A handler that is there can make a step that keeps on the way. *)
Lemma handler_on_track s t h :
  (forall t, getcontext (unw t) = 0 /\ init_local (unw t) = 0) ->
  on_track s -> at_ s = Waiting -> handlers s !! t = Some h ->
  exists s', collect_exec (Handler t true) s = Some s' /\ on_track s' /\ (left_to_do s' < left_to_do s)%nat.
Proof.
  intros Hu (Hr & Ho & Ha) Hat Ht. destruct (Hu t) as [Hu1 Hu2]. rewrite Hat in Ho.
  pose proof (collect_reachable_inv s Hr) as Hi. pose proof (inv_phase _ Hi) as Hp. rewrite Hat in Hp.
  destruct (inv_handlers _ Hi t) as [Hts _]; [eauto|]. destruct (proj1 (run_forms _ Hp t) Hts) as [f Hf].
  assert (H : exists s', handler_step t true s = Some s' /\ at_ s' = Waiting /\ open_fds s' = open_fds s /\ slot s' = slot s
    /\ (forall u, is_Some (handlers s !! u) \/ u ∈ acked s -> is_Some (handlers s' !! u) \/ u ∈ acked s')
    /\ (handlers_left (handlers s') + unread s' < handlers_left (handlers s) + unread s)%nat).
  { assert (Hset : forall h' u, is_Some (handlers s !! u) \/ u ∈ acked s ->
      is_Some (<[t := h']> (handlers s) !! u) \/ u ∈ acked s).
    { intros h' u. destruct (decide (u = t)) as [->|]; [rewrite lookup_insert_eq; eauto|by rewrite lookup_insert_ne]. }
    unfold handler_step. rewrite Ht, Hf, Hu1, Hu2. destruct h as [|[|[ip|] fs]]; cbn [negb Z.eqb].
    - eexists. split; [done|]. cbn. split_and!; auto.
      pose proof (handlers_left_update _ t _ (Visiting (tail (frames (unw t)))) Ht) as E. cbn in E.
      destruct (frames (unw t)); cbn in *; lia.
    - eexists. split; [done|]. unfold submit. rewrite bool_decide_true by done. cbn. split_and!; auto.
      + intros u. destruct (decide (u = t)) as [->|]; [right; set_solver|]. rewrite lookup_delete_ne by done. set_solver.
      + pose proof (handlers_left_delete _ t _ Ht) as E. cbn in E. lia.
    - destruct (AddAddress ip f) as [ok f']. eexists. split; [done|]. cbn. split_and!; auto.
      pose proof (handlers_left_update _ t _ (Visiting (if ok then fs else [])) Ht) as E. destruct ok; cbn in E; lia.
    - eexists. split; [done|]. cbn. split_and!; auto.
      pose proof (handlers_left_update _ t _ (Visiting fs) Ht) as E. cbn in E. lia. }
  destruct H as (s' & Hs & Hat' & Ho' & Hsl & Ha' & Hlt). exists s'.
  assert (E : collect_exec (Handler t true) s = Some s') by done. split; [exact E|]. split.
  - split; [by eapply reachable_step|]. rewrite Hat', Ho', Hsl. auto.
  - unfold left_to_do. rewrite Hat, Hat'. lia.
Qed.

(** The collector's own steps, while it signals and makes its timer, and when a byte can be read. *)
Lemma collector_on_track s :
  on_track s -> at_ s <> Waiting \/ (0 < unread s)%nat ->
  exists a s', collect_exec a s = Some s' /\ goes_well a /\ (succeeded s' \/ on_track s')
    /\ (left_to_do s' < left_to_do s)%nat.
Proof.
  intros (Hr & Ho & Ha) Hu. pose proof (collect_reachable_inv s Hr) as Hi. pose proof (inv_phase _ Hi) as Hp.
  assert (H : exists a s', collect_exec a s = Some s' /\ goes_well a
    /\ (succeeded s' \/ (at_ s' <> Start /\ (forall rs e, at_ s' <> Returned rs e)
         /\ (forall t, t ∈ slot s' -> is_Some (handlers s' !! t) \/ t ∈ acked s')))
    /\ (left_to_do s' < left_to_do s)%nat).
  { assert (Hw : forall s1, Pipe_write ∈ open_fds s1 -> (forall t, t ∈ slot s1 -> is_Some (handlers s1 !! t) \/ t ∈ acked s1) ->
      (1 + handlers_left (handlers s1) + unread s1 < left_to_do s)%nat ->
      (succeeded (await s1) \/ (at_ (await s1) <> Start /\ (forall rs e, at_ (await s1) <> Returned rs e)
        /\ (forall t, t ∈ slot (await s1) -> is_Some (handlers (await s1) !! t) \/ t ∈ acked (await s1))))
      /\ (left_to_do (await s1) < left_to_do s)%nat).
    { intros s1 H1 H2 H3. unfold await. destruct (_ <? _)%nat; (split; [|cbn in *; lia]); [right|left; by eexists]. by split_and!. }
    unfold left_to_do in *. destruct (at_ s) as [|[|t todo]| | |rs e] eqn:Hat; [| | | | |done].
    - exists (Pipe true). eexists. cbn [collect_exec]. rewrite Hat. split; [done|]. split; [done|]. split; [right|cbn; lia]. by split_and!.
    - exists (Timerfd_create true). eexists. cbn [collect_exec]. rewrite Hat. split; [done|]. split; [done|].
      split; [right|cbn; lia]. by split_and!.
    - exists (Signal true). eexists. cbn [collect_exec]. rewrite Hat. split; [done|]. split; [done|]. split.
      + right. cbn. split_and!; try done. intros u. rewrite elem_of_app, list_elem_of_singleton.
        destruct (decide (u = t)) as [->|]; [rewrite lookup_insert_eq; eauto|].
        rewrite lookup_insert_ne by done. intros [?|?]; [auto|done].
      + cbn. pose proof (run_NoDup _ Hp) as Hn. rewrite Hat in Hn. cbn in Hn. apply NoDup_app in Hn as (_ & Hd & _).
        rewrite handlers_left_insert; [cbn; lia|]. destruct (handlers s !! t) eqn:E; [|done].
        destruct (inv_handlers _ Hi t) as [Hts _]; [eauto|]. destruct (Hd t Hts). left.
    - exists (Timerfd_settime true). eexists. cbn [collect_exec]. rewrite Hat. split; [done|]. split; [done|]. apply Hw; auto; cbn; lia.
    - destruct Hu as [?|Hu]; [done|]. exists (Select (Ready_pipe 1)). cbn [collect_exec]. rewrite Hat. cbn [select_turn Z.eqb Pos.eqb].
      destruct (unread s) as [|k] eqn:Ek; [lia|]. eexists. split; [done|]. split; [done|]. apply Hw; auto; cbn; lia. }
  destruct H as (a & s' & Hs & Hg & [Hq|(Hn & Hret & Ha')] & Hlt); exists a, s'; (split_and!; [done|done| |done]); [by left|right].
  pose proof (reachable_step _ _ _ Hr Hs) as Hr'. split; [done|]. split; [|done].
  pose proof (pipe_open s' Hr') as Ho'. destruct (at_ s') eqn:E; try done. by destruct (Hret results error).
Qed.

(** While it waits, a byte can be read, or a handler has still to run, or one gave up. *)
Lemma somebody_left s :
  reachable s -> at_ s = Waiting ->
  (0 < unread s)%nat
  \/ exists t, t ∈ slot s /\ (is_Some (handlers s !! t) \/ ((t ∉ acked s) /\ handlers s !! t = None)).
Proof.
  intros Hr Hat. pose proof (waiting_short s Hr Hat) as Hlt. pose proof (collect_reachable_inv s Hr) as Hi. pose proof Hi as [Hh Ha Hc Hp].
  rewrite Hat in Hp. rewrite (tids_slot s Hp) in Hlt by (by rewrite Hat).
  destruct (unread s) as [|k]; [|left; lia]. right.
  assert (Hn : NoDup (slot s)) by exact (proj1 (proj1 (NoDup_app _ _) (run_NoDup _ Hp))).
  assert (Hsub : acked s ⊆ list_to_set (slot s)).
  { intros t Ht. apply elem_of_list_to_set. by apply Ha. }
  destruct (set_choose_or_empty (list_to_set (slot s) ∖ acked s)) as [[t Ht]|He].
  - apply elem_of_difference in Ht as [Ht Hna]. apply elem_of_list_to_set in Ht.
    exists t. split; [done|]. destruct (handlers s !! t) eqn:E; [left; by eauto|by right].
  - assert (Hle : (size (list_to_set (C := gset Z) (slot s)) <= size (acked s))%nat).
    { apply subseteq_size. intros t Ht. destruct (decide (t ∈ acked s)); [done|].
      assert (Hin : t ∈ list_to_set (slot s) ∖ acked s) by by apply elem_of_difference.
      rewrite He in Hin. by apply elem_of_empty in Hin. }
    rewrite size_list_to_set in Hle by done. lia.
Qed.

(** ** Properties *)

(** C2. When [Collect] succeeds, whatever the interleaving of the collector and the handlers, its result is
    the grouping of the complete stacks of exactly the threads that could be signalled: every form was
    filled to the end before the collector read it, every handler ended, none touched a released form, and
    the three descriptors are closed. *)
Theorem collect_is_complete (s : collect) (rs : list Result) :
  reachable s -> at_ s = Returned rs [] ->
  specified (slot s) rs /\ handlers s = ∅ /\ use_after_free s = false /\ open_fds s = [].
Proof.
  intros Hr Hat. pose proof (inv_phase _ (collect_reachable_inv s Hr)) as Hp. rewrite Hat in Hp.
  destruct Hp as [_ Hp]. unfold over in Hp. rewrite decide_True in Hp by done. tauto.
Qed.

(** While it waits, the collector waits for somebody: either a byte can be read, or the handler of a
    signalled thread has still to run, or one gave up (libunwind failed, or the write did). When every
    handler ended and acknowledged, the collector cannot be waiting. *)
Theorem collect_waits_for_somebody (s : collect) :
  reachable s -> at_ s = Waiting ->
  (0 < unread s)%nat
  \/ exists t, t ∈ slot s /\ (is_Some (handlers s !! t) \/ ((t ∉ acked s) /\ handlers s !! t = None)).
Proof. apply somebody_left. Qed.

(** C5. [Collect] can always succeed: while it runs, as long as no handler gave up and libunwind works, some schedule of
    what is left, in which every call succeeds and no further thread is given up, ends with a result and no error,
    which by the theorem above is that of all the threads that were signalled. It has at most [left_to_do] steps. *)
Theorem collect_can_succeed (s : collect) :
  (forall t, getcontext (unw t) = 0 /\ init_local (unw t) = 0) ->
  reachable s -> (forall rs e, at_ s <> Returned rs e) ->
  (forall t, t ∈ slot s -> is_Some (handlers s !! t) \/ t ∈ acked s) ->
  exists acts s', run acts s = Some s' /\ succeeded s'
    /\ Forall goes_well acts /\ failed_tids s' = failed_tids s /\ (length acts <= left_to_do s)%nat.
Proof.
  intros Hu Hr Hret Ha.
  destruct (can_reach_by on_track succeeded goes_well left_to_do) with (s := s) as (acts & s' & H1 & H2 & H3 & H4).
  - clear s Hr Hret Ha. intros s Hs. destruct (decide (unread s = 0%nat)) as [E|].
    2:{ apply collector_on_track; [done|]. right. lia. }
    destruct (at_ s) eqn:Hat; try (apply collector_on_track; [done|left; congruence]).
    destruct (somebody_left s) as [?|(t & Hts & Ht)]; [apply Hs|done|lia|].
    pose proof Hs as (_ & _ & Ha). destruct Ht as [[h Hh]|[Hna Hno]].
    + destruct (handler_on_track s t h Hu Hs Hat Hh) as (s' & Hx & Hx1 & Hx2). exists (Handler t true), s'. split_and!; [done|done|by right|done].
    + destruct (Ha t Hts) as [[h Hh]|?]; [congruence|done].
  - split; [done|]. split; [|done]. pose proof (pipe_open s Hr). destruct (at_ s) eqn:E; try done. by destruct (Hret results error).
  - exists acts, s'. split_and!; [done..| |done]. exact (goes_well_failed _ _ _ H3 H1).
Qed.

(** C37. A failure, or the empty result of the header's comment: when an error is reported the result is
    empty; a handler can touch a released form only after such a return. *)
Theorem collect_errors (s : collect) :
  reachable s ->
  (forall rs e, at_ s = Returned rs e -> e <> [] -> rs = [])
  /\ (use_after_free s = true -> exists e, at_ s = Returned [] e /\ e <> []).
Proof.
  intros Hr. pose proof (inv_phase _ (collect_reachable_inv s Hr)) as Hp. split.
  - intros rs e Hat He. rewrite Hat in Hp. destruct Hp as [_ Hp]. unfold over in Hp.
    by rewrite decide_False in Hp.
  - intros Hu. destruct (at_ s) as [|todo| | |rs e]; try (pose proof (run_uaf _ Hp); congruence).
    destruct Hp as [_ Hp]. unfold over in Hp. exists e. case_decide; [|by subst].
    destruct Hp as (_ & ? & _). congruence.
Qed.

End collector.

(** ** Schedules *)

Definition two_frames (t : Z) : unwinder := Unwinder 0 0 [Some 0; Some (100 + t); Some 7].

Definition zeros (t : Z) : list Z := repeat 0 100.

(** The state a schedule reaches on the threads of [l]. *)
Definition demo (l : list Z) (acts : list action) : collect :=
  default collect_init (@run _ _ (collect_machine l two_frames zeros (fun _ => None)) acts collect_init).

Lemma collect_demo_reachable l acts :
  is_Some (@run _ _ (collect_machine l two_frames zeros (fun _ => None)) acts collect_init) ->
  @reachable _ _ (collect_machine l two_frames zeros (fun _ => None)) (demo l acts).
Proof.
  intros [s Hs]. exists collect_init, acts. split; [done|]. unfold demo. by rewrite Hs.
Qed.

(** Threads 1 and 2 are signalled, thread 3 is gone. *)
Definition signalled : list action :=
  [Pipe true; Signal true; Signal true; Signal false; Timerfd_create true; Timerfd_settime true].

(** The handler of thread [t] from its delivery to its acknowledgement. *)
Definition whole_handler (t : Z) : list action := repeat (Handler t true) 4.

Definition success : list action :=
  signalled ++ whole_handler 2 ++ [Select (Ready_pipe 1)] ++ whole_handler 1
  ++ [Select Select_failed; Select (Ready_pipe (-1)); Select (Ready_pipe 1)].

(** Thread 1's handler runs after the timer fired. *)
Definition late : list action :=
  signalled ++ whole_handler 2 ++ [Select (Ready_pipe 1); Select Ready_timer; Handler 1 true; Handler 1 true].

(** A handler that runs after the timeout uses memory that was released: [Collect] returns an error
    and releases the forms, and a thread that was slow to handle its signal then writes to its form. *)
Theorem late_handler_uses_released_form :
  exists s, @reachable _ _ (collect_machine [1; 2; 3] two_frames zeros (fun _ => None)) s
    /\ use_after_free s = true.
Proof. exists (demo [1; 2; 3] late). split; [apply collect_demo_reachable; vm_compute; eauto|done]. Qed.

(** The header promises a description of every error, but a [Collect] that finds no thread to signal,
    because [ListThreads] failed or every signal did, returns an empty vector and no error; and when the
    timer cannot be armed its descriptor is never closed. *)
Theorem collect_silent_and_leaky :
  (exists s, @reachable _ _ (collect_machine [] two_frames zeros (fun _ => None)) s /\ at_ s = Returned [] [])
  /\ (exists s e, @reachable _ _ (collect_machine [1] two_frames zeros (fun _ => None)) s
        /\ at_ s = Returned [] e /\ open_fds s = [Timer]).
Proof.
  split.
  - exists (demo [] [Pipe true; Timerfd_create true; Timerfd_settime true]).
    split; [apply collect_demo_reachable; vm_compute; eauto|done].
  - exists (demo [1] [Pipe true; Signal true; Timerfd_create true; Timerfd_settime false]).
    eexists. split; [apply collect_demo_reachable; vm_compute; eauto|by split].
Qed.

(** ** Witnesses *)

Definition success_state : collect := Eval vm_compute in demo [3; 1; 2] success.

Definition success_results : list Result :=
  [MkResult [(101, kUnknown); (7, kUnknown)] [1]; MkResult [(102, kUnknown); (7, kUnknown)] [2]].

Lemma zeros_full : forall t, length (zeros t) = 100%nat.
Proof. done. Qed.

Lemma success_reachable :
  @reachable _ _ (collect_machine [3; 1; 2] two_frames zeros (fun _ => None)) success_state.
Proof. exists collect_init, success. split; [done|]. vm_compute. reflexivity. Qed.

Lemma collect_is_complete_witness :
  specified two_frames (fun _ => None) (slot success_state) success_results
  /\ handlers success_state = ∅ /\ use_after_free success_state = false /\ open_fds success_state = [].
Proof.
  exact (collect_is_complete [3; 1; 2] two_frames zeros (fun _ => None) zeros_full success_state
    success_results success_reachable eq_refl).
Defined.

Lemma collect_waits_for_somebody_witness :
  let s := demo [3; 1; 2] (signalled ++ whole_handler 2 ++ [Select (Ready_pipe 1)]) in
  at_ s = Waiting
  /\ ((0 < unread s)%nat
      \/ exists t, t ∈ slot s /\ (is_Some (handlers s !! t) \/ ((t ∉ acked s) /\ handlers s !! t = None))).
Proof.
  intros s. split; [by vm_compute|].
  apply (collect_waits_for_somebody [3; 1; 2] two_frames zeros (fun _ => None)); [done| |by vm_compute].
  apply collect_demo_reachable. vm_compute; eauto.
Defined.

Lemma collect_errors_witness :
  let s := demo [1; 2; 3] late in
  (forall rs e, at_ s = Returned rs e -> e <> [] -> rs = [])
  /\ (use_after_free s = true -> exists e, at_ s = Returned [] e /\ e <> []).
Proof.
  apply (collect_errors [1; 2; 3] two_frames zeros (fun _ => None)); [done|].
  apply collect_demo_reachable. vm_compute; eauto.
Defined.

(** From the state in which thread 2 is done and thread 1 was not delivered its signal. *)
Lemma collect_can_succeed_witness :
  let s := demo [3; 1; 2] (signalled ++ whole_handler 2) in
  exists acts s', @run _ _ (collect_machine [3; 1; 2] two_frames zeros (fun _ => None)) acts s = Some s' /\ succeeded s'
    /\ Forall goes_well acts /\ failed_tids s' = failed_tids s
    /\ (length acts <= left_to_do [3; 1; 2]%Z two_frames s)%nat.
Proof.
  apply (collect_can_succeed [3; 1; 2] two_frames zeros (fun _ => None) zeros_full
           (demo [3; 1; 2] (signalled ++ whole_handler 2))); [done| |by intros rs e; vm_compute|].
  - apply collect_demo_reachable. vm_compute; eauto.
  - intros t Ht. change (t ∈ [1; 2]) in Ht. apply elem_of_cons in Ht as [->|Ht%list_elem_of_singleton].
    + left. vm_compute; eauto.
    + subst t. right. vm_compute. reflexivity.
Defined.
