(* ===== verification/Server.v ===== *)
(** * The stack trace server ([src/src/ts/signal_handler.cc])

    A process that installed the external handler has one service thread, [RequestProcessor], that reads
    requests from a pipe. A request is the write end of a pipe the requester just opened; the server closes
    it when the request is serviced. [ExternalHandler] sends one request; it runs in a signal handler, or
    from [thoughtspot::backtrace].

    The results of the system calls and the results of [StackTraceCollector::Collect] are arguments; every
    effect is an event. *)

From S2P Require Import Prelude.
From S2P Require Import Text.
From S2P Require Import Defer.
From S2P Require Import StackTrace.

(** ** Requests *)

Inductive complaint : Type :=
| No_pipe
| Request_failed
| Request_partial
| Other_thread_group
| Read_failed
| Terminated
| Read_partial (expected got : Z)
| Collect_failed (error : list byte)
| Ack_failed.

(** What a thread does: opens and closes descriptors, writes bytes on the server's pipe, prints, flushes
    [stderr], complains. *)
Inductive event : Type :=
| Opened (fd : Z)
| Closed (fd : Z)
| Sent (bytes : list byte)
| Print_start (n : Z)
| Print_trace (s : list byte)
| Print_end (n : Z)
| Flush
| Complain (c : complaint).

(** [sizeof(int)] *)
Definition sizeof_int : nat := 4.

(** The bytes of a descriptor in memory, and the descriptor some bytes in memory are. *)
Definition int_bytes (fd : Z) : list byte := le_split sizeof_int fd.

Definition bytes_int (bs : list byte) : Z := wrapS 32 (le_combine bs).

(** [ExternalHandler]: [pipe_fd] is what [pipe] makes, [ret] what [write] returns. *)
Definition ExternalHandler (pipe_fd : option (Z * Z)) (ret : Z) : list event :=
  match pipe_fd with
  | None => [Complain No_pipe]
  | Some (r, w) =>
      [Opened r; Opened w; Closed r] ++
      (if ret =? -1 then [Complain Request_failed; Closed w]
       else
         [Sent (take (Z.to_nat ret) (int_bytes w))]
         ++ (if negb (ret =? Z.of_nat sizeof_int) then [Complain Request_partial; Closed w] else []))
  end.

(** [ExternalStackTraceSignalHandler]: [server_tgid] is the process that started the server. *)
Definition ExternalStackTraceSignalHandler (server_tgid pid : Z) (pipe_fd : option (Z * Z)) (ret : Z)
    : list event :=
  if negb (server_tgid =? pid) then [Complain Other_thread_group] else ExternalHandler pipe_fd ret.

(** ** The server *)

(** What [read] answers: an error, or at most [sizeof_int] bytes, none at the end of the pipe. *)
Inductive read_result : Type :=
| Read_error
| Read_bytes (bs : list byte).

(** The body of the loop once the descriptor of a request was read: [closed] is what [close(ack_fd)] returns.
    The functions of a block add to the log of events. *)
Definition log (evs : list event) : @action (list event) := fun st => (st ++ evs, Done ()).

Definition request_block (callback : bool) (n ack_fd : Z) (results : list Result) (error : list byte)
    (closed : Z) : list (stmt (list event)) :=
  [Named_defer 0 (log (Closed ack_fd :: if negb (closed =? 0) then [Complain Ack_failed] else []));
   Named_defer 1 (log [Flush]);
   Do (log [Print_start n]);
   Do (log (match results with
            | [] => [Complain (Collect_failed error)]
            | _ => [Print_trace (c_str (ToPrettyString callback results).1); Print_end n]
            end))].

Definition serve_request (callback : bool) (n ack_fd : Z) (results : list Result) (error : list byte)
    (closed : Z) : list event :=
  (run_block 0 (request_block callback n ack_fd results error closed) []).1.

(** The loop of [RequestProcessor], on the successive answers of [read]; [collect n] is what the [n]-th
    collection returns, [close n] what [close] does then. The flag says whether the thread ended. *)
Fixpoint RequestProcessor (callback : bool) (collect : Z -> list Result * list byte) (close : Z -> Z)
    (pipe_w : Z) (request_count : Z) (reads : list read_result) : list event * bool :=
  match reads with
  | [] => ([], false)
  | r :: reads' =>
      let n := request_count + 1 in
      let next := RequestProcessor callback collect close pipe_w n reads' in
      match r with
      | Read_error => (Complain Read_failed :: next.1, next.2)
      | Read_bytes [] => ([Complain Terminated; Closed pipe_w], true)
      | Read_bytes bs =>
          if negb (length bs =? sizeof_int)%nat then
            (Complain (Read_partial (Z.of_nat sizeof_int) (Z.of_nat (length bs))) :: next.1, next.2)
          else
            (serve_request callback n (bytes_int bs) (collect n).1 (collect n).2 (close n) ++ next.1, next.2)
      end
  end.

(** ** The pipe between them *)

(** The bytes a sequence of events puts in the server's pipe. *)
Definition sent_bytes (evs : list event) : list byte :=
  concat (omap (fun e => match e with Sent bs => Some bs | _ => None end) evs).

(** The reads of a server that finds whole requests: the stream in chunks of [sizeof_int] bytes. *)
Fixpoint chunks (fuel : nat) (bs : list byte) : list read_result :=
  match fuel, bs with
  | S fuel', _ :: _ => Read_bytes (take sizeof_int bs) :: chunks fuel' (drop sizeof_int bs)
  | _, _ => []
  end.

Definition opened (evs : list event) : list Z :=
  omap (fun e => match e with Opened fd => Some fd | _ => None end) evs.

Definition closed (evs : list event) : list Z :=
  omap (fun e => match e with Closed fd => Some fd | _ => None end) evs.

(** The requests made: what [pipe] and [write] answered each time. A write of so few bytes on a pipe
    is atomic: it fails or is complete. *)
Definition requests (calls : list (option (Z * Z) * Z)) : list event :=
  concat (map (fun c => ExternalHandler c.1 c.2) calls).

Definition call_ok (c : option (Z * Z) * Z) : Prop :=
  (c.2 = -1 \/ c.2 = 4) /\ match c.1 with Some (_, w) => 0 <= w < 2 ^ 31 | None => True end.

(** The descriptors handed to the server. *)
Definition handed (calls : list (option (Z * Z) * Z)) : list Z :=
  omap (fun c => match c.1 with Some (_, w) => if c.2 =? 4 then Some w else None | None => None end) calls.

(** Events in which a descriptor is closed only right after a flush, the server's own at the end apart. *)
Inductive flushed (pipe_w : Z) : list event -> Prop :=
| flushed_nil : flushed pipe_w []
| flushed_end : flushed pipe_w [Closed pipe_w]
| flushed_ack fd evs : flushed pipe_w evs -> flushed pipe_w (Flush :: Closed fd :: evs)
| flushed_other e evs : (forall fd, e <> Closed fd) -> flushed pipe_w evs -> flushed pipe_w (e :: evs).

(** ** Lemmas *)

Lemma bytes_int_bytes fd : 0 <= fd < 2 ^ 31 -> bytes_int (int_bytes fd) = fd.
Proof.
  intros Hfd. unfold bytes_int, int_bytes, sizeof_int. rewrite le_combine_split.
  rewrite Z.mod_small by lia. apply wrapS_small; [lia|]. unfold in_sint. bool_solve; lia.
Qed.

(** The descriptor made of the end of one request and the start of the next. *)
Lemma straddle_int k w1 w2 :
  (0 < k < 4)%nat -> 0 <= w1 < 2 ^ 31 -> 0 <= w2 < 2 ^ 31 ->
  bytes_int (drop k (int_bytes w1) ++ take k (int_bytes w2))
  = wrapS 32 (w1 / 2 ^ (8 * Z.of_nat k) + (w2 mod 2 ^ (8 * Z.of_nat k)) * 2 ^ (32 - 8 * Z.of_nat k)).
Proof.
  intros Hk H1 H2. unfold bytes_int, int_bytes, sizeof_int.
  rewrite le_combine_app_add, le_combine_firstn, skipn_le_split by lia.
  rewrite length_le_split, !le_combine_split.
  rewrite (Z.mod_small w2) by lia. rewrite Z.shiftr_div_pow2 by lia.
  rewrite (Z.mod_small (w1 / _)).
  2:{ split; [apply Z.div_pos; lia|]. apply Z.div_lt_upper_bound; [lia|].
      rewrite <- Z.pow_add_r by lia. eapply Z.lt_le_trans; [apply H1|]. apply Z.pow_le_mono_r; lia. }
  by replace (8 * Z.of_nat (4 - k)) with (32 - 8 * Z.of_nat k) by lia.
Qed.

Lemma opened_app a b : opened (a ++ b) = opened a ++ opened b.
Proof. apply omap_app. Qed.

Lemma closed_app a b : closed (a ++ b) = closed a ++ closed b.
Proof. apply omap_app. Qed.

Lemma sent_bytes_app a b : sent_bytes (a ++ b) = sent_bytes a ++ sent_bytes b.
Proof. unfold sent_bytes. by rewrite omap_app, concat_app. Qed.

(** The requester closes all it opened but what it handed over. *)
Lemma handler_balance c :
  call_ok c ->
  opened (ExternalHandler c.1 c.2) ≡ₚ closed (ExternalHandler c.1 c.2) ++ handed [c]
  /\ sent_bytes (ExternalHandler c.1 c.2) = concat (map int_bytes (handed [c])).
Proof.
  destruct c as [[[r w]|] ret]; intros [Hret Hw]; cbn in Hret; destruct Hret; subst ret;
    split; done || apply perm_swap.
Qed.

Lemma requests_balance calls :
  Forall call_ok calls ->
  opened (requests calls) ≡ₚ closed (requests calls) ++ handed calls
  /\ sent_bytes (requests calls) = concat (map int_bytes (handed calls))
  /\ Forall (fun w => 0 <= w < 2 ^ 31) (handed calls).
Proof.
  unfold requests. induction 1 as [|c calls Hc _ (IH1 & IH2 & IH3)]; cbn [map concat]; [done|].
  destruct (handler_balance c Hc) as [H1 H2].
  assert (Eh : handed (c :: calls) = handed [c] ++ handed calls).
  { unfold handed. cbn. by destruct (match c.1 with Some _ => _ | None => _ end). }
  rewrite opened_app, closed_app, sent_bytes_app, Eh, H1, H2, IH1, IH2. split; [|split].
  - rewrite <- !app_assoc. apply Permutation_app_head.
    rewrite !app_assoc. apply Permutation_app_tail, Permutation_app_comm.
  - by rewrite map_app, concat_app.
  - apply Forall_app. split; [|done]. destruct Hc as [_ Hw]. unfold handed.
    destruct c as [[[r w]|] ret]; cbn in Hw |- *; [|constructor].
    destruct (ret =? 4); [by apply Forall_singleton|constructor].
Qed.

(** Whole requests are read back one per chunk. *)
Lemma chunks_requests ws fuel :
  (length ws <= fuel)%nat -> chunks fuel (concat (map int_bytes ws)) = map (fun w => Read_bytes (int_bytes w)) ws.
Proof.
  revert fuel. induction ws as [|w ws IH]; intros [|fuel] Hf; cbn [map concat length] in *; try done; [lia|].
  cbn [chunks]. assert (Hl : length (int_bytes w) = 4%nat) by apply length_le_split.
  destruct (int_bytes w ++ concat (map int_bytes ws)) as [|b bs] eqn:E.
  { apply app_eq_nil in E as [E _]. by rewrite E in Hl. }
  rewrite <- E. unfold sizeof_int.
  rewrite take_app_length', drop_app_length' by done. by rewrite IH by lia.
Qed.

(** The deferred statements run in the reverse order of their declarations. *)
Lemma serve_request_events callback n ack_fd results error closed :
  serve_request callback n ack_fd results error closed
  = [Print_start n]
    ++ (match results with
        | [] => [Complain (Collect_failed error)]
        | _ => [Print_trace (c_str (ToPrettyString callback results).1); Print_end n]
        end)
    ++ [Flush; Closed ack_fd] ++ (if closed =? 0 then [] else [Complain Ack_failed]).
Proof.
  unfold serve_request, run_block, request_block. cbn. unfold destroy, run_fn. cbn. rewrite <- !app_assoc. cbn.
  by destruct (closed =? 0), results.
Qed.

Lemma serve_closes callback n fd rs err c : closed (serve_request callback n fd rs err c) = [fd].
Proof. rewrite serve_request_events. destruct rs, (c =? 0); done. Qed.

Lemma processor_closes callback collect close pw n ws :
  Forall (fun w => 0 <= w < 2 ^ 31) ws ->
  closed (RequestProcessor callback collect close pw n (map (fun w => Read_bytes (int_bytes w)) ws)).1 = ws
  /\ (RequestProcessor callback collect close pw n (map (fun w => Read_bytes (int_bytes w)) ws)).2 = false.
Proof.
  intros Hw. revert n. induction Hw as [|w ws Hw _ IH]; intros n; [done|]. cbn [map RequestProcessor].
  assert (Hl : length (int_bytes w) = 4%nat) by apply length_le_split.
  destruct (int_bytes w) as [|b bs] eqn:E; [done|]. rewrite <- E in *. unfold sizeof_int. rewrite Hl. cbn [negb Nat.eqb fst snd].
  rewrite closed_app, serve_closes, bytes_int_bytes by done. cbn [app].
  destruct (IH (n + 1)) as [-> ->]. done.
Qed.

(** On whole requests the server runs the body of its loop once per request. *)
Lemma processor_whole callback collect close pw n ws :
  Forall (fun w => 0 <= w < 2 ^ 31) ws ->
  (RequestProcessor callback collect close pw n (map (fun w => Read_bytes (int_bytes w)) ws)).1
  = concat (imap (fun k w => let m := n + 1 + Z.of_nat k in
                             serve_request callback m w (collect m).1 (collect m).2 (close m)) ws).
Proof.
  intros Hw. revert n. induction Hw as [|w ws Hw _ IH]; intros n; [done|]. cbn [map RequestProcessor].
  assert (Hl : length (int_bytes w) = 4%nat) by apply length_le_split.
  destruct (int_bytes w) as [|b bs] eqn:E; [done|]. rewrite <- E in *. unfold sizeof_int. rewrite Hl. cbn [negb Nat.eqb fst snd].
  rewrite bytes_int_bytes by done. cbn [imap concat]. rewrite Z.add_0_r, (IH (n + 1)). f_equal. f_equal.
  apply imap_ext. intros k x _. unfold compose.
  by replace (n + 1 + 1 + Z.of_nat k) with (n + 1 + Z.of_nat (S k)) by lia.
Qed.

Lemma processor_flushed callback collect close pw n reads :
  flushed pw (RequestProcessor callback collect close pw n reads).1.
Proof.
  revert n. induction reads as [|r reads IH]; intros n; cbn [RequestProcessor]; [constructor|].
  destruct r as [|[|b bs]]; cbn [fst].
  - by apply flushed_other.
  - by apply flushed_other; [|constructor].
  - destruct (length (b :: bs) =? sizeof_int)%nat; cbn [negb fst]; [|by apply flushed_other].
    rewrite serve_request_events. destruct (collect (n + 1)).1, (close (n + 1) =? 0); cbn [app fst];
      repeat (apply flushed_ack || (apply flushed_other; [done|])); apply IH.
Qed.

(** ** Properties *)

(** C28. No descriptor is leaked between the requesters and the server: for every sequence of requests,
    successful or not, once the server has read what was sent, the descriptors the requesters opened are
    closed exactly once each, by the requester or by the server; the server closes those it was handed, in
    the order of the requests, and goes on. *)
Theorem request_descriptors_closed (callback : bool) (collect : Z -> list Result * list byte)
    (close : Z -> Z) (pipe_w : Z) (calls : list (option (Z * Z) * Z)) (fuel : nat) :
  Forall call_ok calls -> (length calls <= fuel)%nat ->
  let server := RequestProcessor callback collect close pipe_w 0 (chunks fuel (sent_bytes (requests calls))) in
  opened (requests calls) ≡ₚ closed (requests calls) ++ closed server.1
  /\ closed server.1 = handed calls /\ server.2 = false.
Proof.
  intros Hc Hf. cbv zeta. destruct (requests_balance calls Hc) as (Hb & Hs & Hw).
  assert (Hl : (length (handed calls) <= length calls)%nat).
  { clear. unfold handed. induction calls as [|c cs IH]; cbn; [lia|].
    destruct (match c.1 with Some _ => _ | None => _ end); cbn; lia. }
  rewrite Hs, chunks_requests by lia.
  destruct (processor_closes callback collect close pipe_w 0 _ Hw) as [-> ->]. by split.
Qed.

(** A requester is acknowledged after its output was flushed, whatever the collection returned: in the
    events of the server every closing of a request's descriptor comes right after a flush of [stderr], and
    nothing is printed in between; only the end of the server closes its own descriptor. *)
Theorem ack_follows_flush (callback : bool) (collect : Z -> list Result * list byte) (close : Z -> Z)
    (pipe_w n : Z) (reads : list read_result) (before after : list event) (fd : Z) :
  (RequestProcessor callback collect close pipe_w n reads).1 = before ++ Closed fd :: after ->
  (exists b, before = b ++ [Flush]) \/ (fd = pipe_w /\ after = []).
Proof.
  intros E. pose proof (processor_flushed callback collect close pipe_w n reads) as Hf. rewrite E in Hf.
  clear E. remember (before ++ Closed fd :: after) as evs eqn:E. revert before E.
  induction Hf as [| |fd' evs Hf IH|e evs He Hf IH]; intros before E.
  - by destruct before.
  - destruct before as [|e [|]]; simplify_eq/=. by right.
  - destruct before as [|e [|e' before]]; simplify_eq/=; [left; by exists []|].
    destruct (IH _ eq_refl) as [[b ->]|?]; [|by right]. left. by exists (Flush :: Closed fd' :: b).
  - destruct before as [|e' before]; simplify_eq/=; [by destruct (He fd)|].
    destruct (IH _ eq_refl) as [[b ->]|?]; [|by right]. left. by exists (e' :: b).
Qed.

(** A short read puts the server out of step: the [k] bytes it got are dropped with a complaint, and the next
    read of four bytes, which takes the rest of that request and the start of the next, closes a descriptor
    that is neither request's. *)
Theorem partial_read_out_of_step (callback : bool) (collect : Z -> list Result * list byte) (close : Z -> Z)
    (pipe_w n w1 w2 : Z) (k : nat) :
  (0 < k < 4)%nat -> 0 <= w1 < 2 ^ 31 -> 0 <= w2 < 2 ^ 31 ->
  let server := RequestProcessor callback collect close pipe_w n
    [Read_bytes (take k (int_bytes w1)); Read_bytes (drop k (int_bytes w1) ++ take k (int_bytes w2))] in
  head server.1 = Some (Complain (Read_partial 4 (Z.of_nat k)))
  /\ closed server.1
     = [wrapS 32 (w1 / 2 ^ (8 * Z.of_nat k) + (w2 mod 2 ^ (8 * Z.of_nat k)) * 2 ^ (32 - 8 * Z.of_nat k))].
Proof.
  intros Hk H1 H2. cbv zeta. rewrite <- straddle_int by done.
  assert (L1 : length (int_bytes w1) = 4%nat) by apply length_le_split.
  assert (L2 : length (int_bytes w2) = 4%nat) by apply length_le_split.
  assert (La : length (take k (int_bytes w1)) = k) by (rewrite length_take; lia).
  assert (Lb : length (drop k (int_bytes w1) ++ take k (int_bytes w2)) = 4%nat)
    by (rewrite length_app, length_drop, length_take; lia).
  cbn [RequestProcessor]. destruct (take k (int_bytes w1)) as [|x xs]; [cbn in La; lia|]. rewrite La.
  destruct (drop k _ ++ take k _) as [|y ys]; [done|]. rewrite Lb. unfold sizeof_int.
  rewrite (proj2 (Nat.eqb_neq k 4)) by lia. cbn [negb Nat.eqb fst snd head]. split; [done|].
  change (closed (?e :: ?l)) with (closed l). by rewrite closed_app, serve_closes.
Qed.

(** ** Witnesses *)

(** A request that fails on the pipe, one whose write fails, and two that are served. *)
Definition demo_calls : list (option (Z * Z) * Z) :=
  [(None, 0 - 1); (Some (5, 6), 4); (Some (7, 8), -1); (Some (9, 10), 4)].

Lemma request_descriptors_closed_witness :
  let server := RequestProcessor false (fun _ => ([], [])) (fun _ => 0) 4 0
                  (chunks 9 (sent_bytes (requests demo_calls))) in
  handed demo_calls = [6; 10]
  /\ opened (requests demo_calls) ≡ₚ closed (requests demo_calls) ++ closed server.1
  /\ closed server.1 = [6; 10] /\ server.2 = false.
Proof.
  intros server. split; [done|].
  apply (request_descriptors_closed false (fun _ => ([], [])) (fun _ => 0) 4 demo_calls 9).
  - repeat constructor; cbn; auto; lia.
  - cbn. lia.
Defined.

Lemma ack_follows_flush_witness :
  (exists b, [Print_start 1; Complain (Collect_failed []); Flush] = b ++ [Flush]) \/ (6 = 4 /\ @nil event = []).
Proof.
  exact (ack_follows_flush false (fun _ => ([], [])) (fun _ => 0) 4 0 [Read_bytes (int_bytes 6)]
    [Print_start 1; Complain (Collect_failed []); Flush] [] 6 eq_refl).
Defined.

Lemma partial_read_out_of_step_witness :
  closed (RequestProcessor false (fun _ => ([], [])) (fun _ => 0) 4 0
    [Read_bytes (take 1 (int_bytes 6)); Read_bytes (drop 1 (int_bytes 6) ++ take 1 (int_bytes 10))]).1
  = [167772160].
Proof.
  etransitivity; [apply (partial_read_out_of_step false (fun _ => ([], [])) (fun _ => 0) 4 0 6 10 1); lia|done].
Defined.
