(* ===== verification/Dump.v ===== *)
(** * A dump from the request to the report ([src/src/ts/signal_handler.cc], [src/src/ts/common/sysutil.cc])

    The components put together: [ExternalHandler] sends a descriptor ([Server.v]), the service thread reads it and
    calls [Collect] on the threads that [ListThreads] names ([Sysutil.v], [Collector.v]), prints the
    report of the results ([StackTrace.v], [Report.v]), flushes, and closes the descriptor. What the theorem says is
    what a requester relies on: when its descriptor is closed, its report is out and says all. *)

From S2P Require Import Prelude.
From S2P Require Import Text.
From S2P Require Import OrdSet.
From S2P Require Import Sysutil.
From S2P Require Import StackTrace.
From S2P Require Import Report.
From S2P Require Import Collector.
From S2P Require Import Server.
#[local] Open Scope list_scope.

(** ** One collection *)

(** What a call of [Collect] finds: the directory of the threads, libunwind on each, the initial content of the
    forms, and [Symbolize]. *)
Record collection : Type := Collection {
  task : option Sysutil.dir;
  unw : Z -> unwinder;
  garbage : Z -> list Z;
  symbolize : Z -> option (list byte);
}.

(** [ListThreads] *)
Definition listed (c : collection) : list Z := (ListThreads (task c)).1.

Definition collector_machine (c : collection) : Machine Collector.collect Collector.action :=
  collect_machine (listed c) (unw c) (garbage c) (symbolize c).

(** What [Collect] returned, and the error. *)
Definition outcome (final : Collector.collect) : list Result * list byte :=
  match Collector.at_ final with Returned rs error => (rs, error) | _ => ([], []) end.

(** Forms hold 100 addresses, addresses are words, and a symbol stays on its line. *)
Record collection_ok (c : collection) : Prop := CollectionOk {
  co_garbage : forall t, length (garbage c t) = 100%nat;
  co_address : forall t, Forall (fun a => in_sint 64 a = true) (stack_of (unw c) t);
  co_symbol : forall a s, symbolize c a = Some s -> in_line (c_str s);
}.

(** Some thread that was listed could be signalled. *)
Definition signalled_some (c : collection) (final : Collector.collect) : Prop :=
  Exists (fun t => t ∉ failed_tids final) (listed c).

#[global] Instance signalled_some_decision c final : Decision (signalled_some c final).
Proof. unfold signalled_some. apply _. Defined.

(** What the report says: the threads that were listed and could be signalled, each once, with the frames that its
    handler found, symbolized. *)
Definition reports (c : collection) (final : Collector.collect) (s : list byte) : Prop :=
  exists rs, read_report s = Some rs
    /\ NoDup (concat (map StackTrace.tids rs))
    /\ (forall t, t ∈ concat (map StackTrace.tids rs) <-> t ∈ listed c /\ t ∉ failed_tids final)
    /\ forall r t, r ∈ rs -> t ∈ StackTrace.tids r -> trace r = map (symbolized (symbolize c)) (stack_of (unw c) t).

(** ** The collections of the server, one after the other

    The loop of [RequestProcessor] calls [Collect] again when it has returned. A collection that gave up, because its
    timer fired, leaves behind the handlers that are still under way, and signals that are not delivered yet: they
    go on while later collections run. Such a handler may end by itself, when libunwind fails; if it goes as far
    as to use its form, to record an address or to find the pipe of its acknowledgement in it, it uses memory that was
    released, and anything can happen ([broken]). *)
Record session : Type := Session {
  running_ : Collector.collect;
  left_over : list handler;
  past : list Collector.collect;
  broken : bool;
}.

Definition session_init : session := Session collect_init [] [] false.

Inductive session_action : Type :=
| Step (a : Collector.action)
| Late (i : nat) (u : unwinder)
| Next.

Section session.
Context (cs : Z -> collection).

(** The inputs of the collection under way: the one of the request with that number. *)
Definition under_way (s : session) : collection := cs (Z.of_nat (length (past s)) + 1).

(** A step of the [i]-th handler left behind; [u] is what libunwind answers it. *)
Definition late_step (i : nat) (u : unwinder) (s : session) : option session :=
  let becomes hs := Session (running_ s) hs (past s) (broken s) in
  match left_over s !! i with
  | None => None
  | Some Pending =>
      Some (becomes (if negb (getcontext u =? 0) || negb (init_local u =? 0) then delete i (left_over s)
                     else <[i := Visiting (tail (frames u))]> (left_over s)))
  | Some (Visiting (None :: fs)) => Some (becomes (<[i := Visiting fs]> (left_over s)))
  | Some (Visiting _) => Some (Session (running_ s) (left_over s) (past s) true)
  end.

Definition session_exec (a : session_action) (s : session) : option session :=
  if broken s then None
  else
    match a with
    | Step a =>
        let c := under_way s in
        c' ← collect_exec (listed c) (unw c) (garbage c) (symbolize c) a (running_ s);
        Some (Session c' (left_over s) (past s) (use_after_free c'))
    | Late i u => late_step i u s
    | Next =>
        match Collector.at_ (running_ s) with
        | Returned _ _ =>
            Some (Session collect_init (left_over s ++ map snd (map_to_list (handlers (running_ s))))
                    (past s ++ [running_ s]) (broken s))
        | _ => None
        end
    end.

#[global] Instance session_machine : Machine session session_action :=
  {| m_init s := s = session_init; m_exec := session_exec |}.

(** Every collection of the past ended as a collection that nothing disturbs. *)
Definition undisturbed (s : session) : Prop :=
  @reachable _ _ (collector_machine (under_way s)) (running_ s)
  /\ forall i c, past s !! i = Some c ->
       @reachable _ _ (collector_machine (cs (Z.of_nat i + 1))) c
       /\ (exists rs error, Collector.at_ c = Returned rs error) /\ use_after_free c = false.

Lemma fresh_reachable c : @reachable _ _ (collector_machine c) collect_init.
Proof. by exists collect_init, []. Qed.

Lemma session_undisturbed s :
  reachable s -> (broken s = false -> use_after_free (running_ s) = false) /\ undisturbed s.
Proof.
  revert s. apply (reachable_invariant (fun s => (broken s = false -> use_after_free (running_ s) = false) /\ undisturbed s)).
  { intros s ->. split; [done|]. split; [apply fresh_reachable|done]. }
  intros a s s' [Hu [Hr Hp]] Hs. cbn in Hs. unfold session_exec in Hs. destruct (broken s) eqn:Hb; [done|].
  destruct a as [a|i u|].
  - destruct (collect_exec _ _ _ _ _ _) as [c'|] eqn:Ha; [|done]. injection Hs as <-. split; [by intros|].
    split; [|done]. exact (@reachable_step _ _ (collector_machine (under_way s)) _ _ _ Hr Ha).
  - unfold late_step in Hs. destruct (left_over s !! i) as [[|[|[ip|] fs]]|]; try done; injection Hs as <-;
      (split; [by intros; apply Hu|split; [exact Hr|exact Hp]]).
  - destruct (Collector.at_ (running_ s)) eqn:Hat; try done. injection Hs as <-.
    split; [done|]. split; [apply fresh_reachable|]. cbn. intros i c [[_ Hi]|[-> <-]]%lookup_snoc_Some; [by apply Hp|].
    split_and!; [exact Hr|by eauto|by apply Hu].
Qed.

End session.

(** ** Lemmas: one collection *)

Lemma listed_range c : Forall (fun t => in_sint 32 t = true) (listed c).
Proof.
  unfold listed, ListThreads. destruct (GetDirectoryContents kSelfTaskDir (task c)) as [[[] children] e]; [|constructor].
  cbn. rewrite child_pids_omap. apply Forall_forall. intros t (x & _ & Hx)%list_elem_of_omap.
  destruct (stoll x); [done|]. injection Hx as <-. by apply wrapS_range.
Qed.

Lemma complete_tids c ts fs : Forall2 (complete (unw c)) ts fs -> map StackTrace.tid fs = ts.
Proof. induction 1 as [|t f ts fs (_ & Ht & _) _ IH]; cbn; [done|]. by rewrite Ht, IH. Qed.

Lemma complete_all c ts fs :
  Forall2 (complete (unw c)) ts fs -> Forall (fun f => form_ok f /\ recorded f = stack_of (unw c) (StackTrace.tid f)) fs.
Proof. induction 1 as [|t f ts fs (? & <- & ?) _ IH]; by constructor. Qed.

(** The results of complete forms. *)
Lemma grouped_stack c fs r t :
  Forall (fun f => form_ok f /\ recorded f = stack_of (unw c) (StackTrace.tid f)) fs ->
  r ∈ grouped (symbolize c) fs -> t ∈ StackTrace.tids r ->
  trace r = map (symbolized (symbolize c)) (stack_of (unw c) t).
Proof.
  intros Hf (k & -> & _)%list_elem_of_fmap Ht. cbn in *. apply list_elem_of_fmap in Ht as (f & -> & Hin).
  apply list_elem_of_filter in Hin as [Ek Hin]. rewrite Forall_forall in Hf. destruct (Hf f Hin) as [_ <-]. by rewrite Ek.
Qed.

(** A successful collection: its results can be read back from their report, and say all. *)
Lemma collection_reports c final rs :
  collection_ok c -> @reachable _ _ (collector_machine c) final -> Collector.at_ final = Returned rs [] ->
  Forall result_ok rs
  /\ Forall (fun r => Forall (fun f => no_nul f.2) (trace r)) rs
  /\ reports c final (concat (map pretty_result rs)).
Proof.
  intros [Hg Ha Hs] Hr Hat.
  pose proof (inv_phase _ _ _ _ (collect_reachable_inv _ _ _ _ Hg _ Hr)) as Hp. rewrite Hat in Hp.
  destruct Hp as [_ Hp]. unfold over in Hp. rewrite decide_True in Hp by done.
  destruct Hp as (_ & _ & (fs & Hfs & ->) & _).
  destruct (returned_parts _ _ _ _ Hg _ _ Hr Hat) as [Hnd Hparts].
  pose proof (complete_all _ _ _ Hfs) as Hall. pose proof (complete_tids _ _ _ Hfs) as Htids.
  assert (Hok : Forall form_ok fs) by (eapply Forall_impl; [exact Hall|]; by intros f [? _]).
  pose proof (post_process_tids (symbolize c) fs) as Hp. pose proof (post_process_nonempty (symbolize c) fs) as Hne.
  rewrite post_process_eq, Htids in Hp by done. rewrite post_process_eq in Hne by done.
  assert (Hst : forall r t, r ∈ grouped (symbolize c) fs -> t ∈ StackTrace.tids r ->
    trace r = map (symbolized (symbolize c)) (stack_of (unw c) t)) by (intros; by eapply grouped_stack).
  assert (Hframes : forall r, r ∈ grouped (symbolize c) fs ->
    Forall (fun f => in_sint 64 f.1 = true /\ in_line f.2) (trace r) /\ Forall (fun f => no_nul f.2) (trace r)).
  { intros r Hin. rewrite Forall_forall in Hne. pose proof (Hne r Hin) as Hn.
    destruct (StackTrace.tids r) as [|t ts] eqn:Et; [done|]. rewrite (Hst r t Hin) by (rewrite Et; left).
    rewrite !Forall_map. split; (eapply Forall_impl; [exact (Ha t)|]); intros a Hin32; cbn.
    - split; [done|]. destruct (symbolize c a) as [s|] eqn:Es; [by eapply Hs|by repeat constructor].
    - destruct (symbolize c a) as [s|]; [apply c_str_no_nul|by repeat constructor]. }
  assert (Hres : Forall result_ok (grouped (symbolize c) fs)).
  { apply Forall_forall. intros r Hin. rewrite Forall_forall in Hne. split_and!; [by apply Hne| |by apply Hframes].
    apply Forall_forall. intros t Ht.
    assert (Hl : t ∈ listed c).
    { apply Hparts. rewrite <- Hp. apply list_elem_of_In, in_concat. exists (StackTrace.tids r).
      split; [apply in_map; by apply list_elem_of_In|by apply list_elem_of_In]. }
    pose proof (listed_range c) as Hrange. rewrite Forall_forall in Hrange. specialize (Hrange t Hl).
    unfold in_sint in *. bool_solve; lia. }
  split; [done|]. split; [apply Forall_forall; intros r Hin; by apply Hframes|].
  exists (grouped (symbolize c) fs). split; [by apply read_report_pretty|]. split; [by rewrite Hp|]. split; [|done].
  intros t. by rewrite Hp.
Qed.

(** ** The dump *)

Section dump.

(** The collections of the server, by the number of the request; whether a callback is set, what [close] answers, the
    server's own descriptor. *)
Context (cs : Z -> collection) (callback : bool) (close : Z -> Z) (pipe_w : Z).

(** What the collection for the [n]-th request of the session returned. *)
Definition collected (s : session) (n : Z) : list Result * list byte :=
  match past s !! Z.to_nat (n - 1) with Some final => outcome final | None => ([], []) end.

(** What the server does on the requests that were made. *)
Definition server_log (s : session) (calls : list (option (Z * Z) * Z)) : list event :=
  (RequestProcessor callback (collected s) close pipe_w 0
     (chunks (length calls) (sent_bytes (requests calls)))).1.

(** What is printed for a request whose collection ended in [final]: the report, or the error, which is empty when
    there was no thread to signal. *)
Inductive served (n : Z) (c : collection) (final : Collector.collect) : list event -> Prop :=
| Served_report rs s :
    Collector.at_ final = Returned rs [] -> signalled_some c final -> reports c final s ->
    served n c final [Print_trace s; Print_end n]
| Served_error error :
    Collector.at_ final = Returned [] error -> (error = [] -> ~ signalled_some c final) ->
    served n c final [Complain (Collect_failed error)].

Lemma handed_length calls : (length (handed calls) <= length calls)%nat.
Proof.
  unfold handed. induction calls as [|c cs' IH]; cbn; [lia|].
  destruct (match c.1 with Some _ => _ | None => _ end); cbn; lia.
Qed.

(** The events of the requests before one, of that one, and of those after it. *)
Lemma imap_split {A B} (f : nat -> A -> list B) l k x :
  l !! k = Some x ->
  exists l2, concat (imap f l) = concat (imap f (take k l)) ++ f k x ++ l2.
Proof.
  intros Hk. exists (concat (imap (f ∘ (fun j => length (take k l ++ [x]) + j)%nat) (drop (S k) l))).
  rewrite <- (take_drop_middle l k x Hk) at 1.
  change (x :: drop (S k) l) with ([x] ++ drop (S k) l). rewrite app_assoc, imap_app, concat_app, imap_app, concat_app.
  rewrite <- app_assoc. f_equal. cbn. rewrite app_nil_r, length_take, Nat.add_0_r.
  pose proof (lookup_lt_Some _ _ _ Hk). by replace (k `min` length l)%nat with k by lia.
Qed.

Lemma collection_served n c final :
  collection_ok c -> @reachable _ _ (collector_machine c) final ->
  (exists rs error, Collector.at_ final = Returned rs error) ->
  served n c final
    (match (outcome final).1 with
     | [] => [Complain (Collect_failed (outcome final).2)]
     | _ => [Print_trace (c_str (ToPrettyString callback (outcome final).1).1); Print_end n]
     end).
Proof.
  intros Hok Hr (rs & error & Hat). unfold outcome. rewrite Hat. cbn [fst snd].
  destruct (collect_errors _ _ _ _ (co_garbage _ Hok) _ Hr) as [He _].
  destruct (decide (error = [])) as [->|Hne]; [|pose proof (He _ _ Hat Hne); subst rs; by apply Served_error].
  destruct (collection_reports c final rs Hok Hr Hat) as (Hres & Hnul & Hrep).
  assert (Hsome : signalled_some c final <-> rs <> []).
  { unfold signalled_some. rewrite Exists_exists. split.
    - intros (t & Ht & Hf) ->. destruct Hrep as (rs' & [= <-] & _ & Hin & _).
      assert (t ∈ @nil Z) as H by (by apply Hin). by apply elem_of_nil in H.
    - intros Hrs. destruct rs as [|r rs]; [done|].
      destruct (returned_parts _ _ _ _ (co_garbage _ Hok) _ _ Hr Hat) as [_ Hparts].
      destruct Hrep as (rs' & Hread & _ & Hin & _).
      rewrite read_report_pretty in Hread by done. injection Hread as <-.
      apply Forall_cons in Hres as [(Hn & _) _]. destruct (StackTrace.tids r) as [|t ts] eqn:Et; [done|].
      exists t. apply Hin. cbn. rewrite Et. left. }
  destruct rs as [|r rs]; [apply Served_error; [done|]; intros _ H; by apply Hsome in H|].
  eapply Served_report; [done|by apply Hsome|]. cbn [ToPrettyString fst]. by rewrite c_str_id by (by apply pretty_no_nul).
Qed.

Lemma served_text n w c final :
  collection_ok c -> @reachable _ _ (collector_machine c) final ->
  (exists rs error, Collector.at_ final = Returned rs error) ->
  exists text, serve_request callback n w (outcome final).1 (outcome final).2 (close n)
    = Print_start n :: text ++ Flush :: Closed w :: (if close n =? 0 then [] else [Complain Ack_failed])
    /\ closed text = [] /\ served n c final text.
Proof.
  intros Hok Hr Hret. rewrite serve_request_events. eexists.
  split; [|split; [|exact (collection_served n c final Hok Hr Hret)]]; by destruct (outcome final).1.
Qed.

Lemma closed_serve_all calls k f :
  (forall j w, closed (f j w) = [w]) -> closed (concat (imap f (take k (handed calls)))) = take k (handed calls).
Proof.
  generalize (take k (handed calls)) as ws. intros ws. revert f. induction ws as [|w ws IH]; intros f Hf; [done|].
  cbn [imap concat]. rewrite closed_app, Hf. cbn. f_equal. apply IH. intros. apply Hf.
Qed.

(** ** Property *)

(** C1. From the request to the report: whatever the requesters, and whatever the interleavings of the collections, of
    their handlers and of those that earlier collections left behind, until one of these uses a form of a collection
    that is over, the server closes the descriptor of the [k]-th request that was sent right after a flush, which
    comes after what it printed for that request and for those before it. When the collection succeeded and some
    thread could be signalled, what it printed is a report from which one reads exactly the threads that
    [ListThreads] named and that could be signalled, each once, with all the frames its handler found; otherwise it is
    the error, which is empty when the collection succeeded without a thread to signal. Addresses have 64 bits, and
    symbols stay on one line. *)
Theorem dump_complete (s : session) (calls : list (option (Z * Z) * Z)) (k : nat) (w : Z) :
  @reachable _ _ (session_machine cs) s -> broken s = false -> (length (handed calls) <= length (past s))%nat ->
  Forall call_ok calls -> (forall n, collection_ok (cs n)) -> handed calls !! k = Some w ->
  exists before text after final,
    server_log s calls = before ++ Print_start (Z.of_nat k + 1) :: text ++ Flush :: Closed w :: after
    /\ closed before = take k (handed calls) /\ closed text = []
    /\ past s !! k = Some final /\ served (Z.of_nat k + 1) (cs (Z.of_nat k + 1)) final text.
Proof.
  intros Hs _ Hall Hc Hok Hk. destruct (requests_balance calls Hc) as (_ & Hsent & Hw).
  unfold server_log. rewrite Hsent, chunks_requests by apply handed_length. rewrite processor_whole by done.
  set (f := fun (j : nat) (x : Z) => _).
  destruct (imap_split f (handed calls) k w Hk) as [l2 ->].
  destruct (lookup_lt_is_Some_2 (past s) k) as [final Hf]; [pose proof (lookup_lt_Some _ _ _ Hk); lia|].
  destruct (session_undisturbed cs s Hs) as (_ & _ & Hpast). destruct (Hpast k final Hf) as (Hr & Hret & _).
  destruct (served_text (Z.of_nat k + 1) w _ final (Hok _) Hr Hret) as (text & E & Ht & Hserved).
  eexists (concat (imap f (take k (handed calls)))), text, ((if close (Z.of_nat k + 1) =? 0 then [] else _) ++ l2), final.
  split; [|split_and!; [|done|done|done]].
  - f_equal. unfold f. replace (0 + 1 + Z.of_nat k) with (Z.of_nat k + 1) by lia. unfold collected.
    replace (Z.to_nat (Z.of_nat k + 1 - 1)) with k by lia. rewrite Hf, E. cbn [app]. by rewrite <- !app_assoc.
  - apply closed_serve_all. intros. apply serve_closes.
Qed.

End dump.

(** ** Witness *)

Definition demo_frames (t : Z) : unwinder := Unwinder 0 0 [Some 0; Some (if t =? 1 then 101 else 102); Some 7].

(** The directory has threads 1, 2 and 3. *)
Definition demo_collection : collection :=
  Collection (Some (task_dir [3; 1; 2])) demo_frames zeros (fun _ => None).

(** The first collection times out before thread 1 handled its signal; the second, for which thread 3 is gone, succeeds;
    meanwhile thread 1 takes up the signal of the first one and libunwind fails it. *)
Definition demo_schedule : list session_action :=
  map Step (signalled ++ whole_handler 2 ++ [Select (Ready_pipe 1); Select Ready_timer]) ++ [Next]
  ++ map Step signalled ++ [Late 0 (Unwinder 1 0 [])]
  ++ map Step (drop (length signalled) success) ++ [Next].

Definition demo_session : session :=
  default session_init (@run _ _ (session_machine (fun _ => demo_collection)) demo_schedule session_init).

Lemma demo_listed : listed demo_collection = [1; 2; 3].
Proof. vm_compute. reflexivity. Qed.

Lemma demo_collection_ok : collection_ok demo_collection.
Proof.
  split.
  - done.
  - intros t. unfold stack_of. cbn. destruct (t =? 1); by repeat constructor.
  - done.
Qed.

Lemma demo_second :
  (fun c => bool_decide ((outcome c).1 = [])) <$> past demo_session !! 1%nat = Some false.
Proof. vm_compute. reflexivity. Qed.

(** The second request that was sent has the descriptor 10. *)
Lemma dump_complete_witness :
  map (fun c => (outcome c).2) (past demo_session)
    = [timeout_error [1; 2; 3] (default collect_init (past demo_session !! 0%nat)); []]
  /\ exists before s after final,
    server_log false (fun _ => 0) 4 demo_session demo_calls
      = before ++ [Print_start 2; Print_trace s; Print_end 2; Flush; Closed 10] ++ after
    /\ closed before = [6] /\ reports demo_collection final s.
Proof.
  split; [vm_compute; reflexivity|].
  destruct (dump_complete (fun _ => demo_collection) false (fun _ => 0) 4 demo_session demo_calls 1 10)
    as (before & text & after & final & E & Hb & _ & Hf & Hs).
  - exists session_init, demo_schedule. split; [reflexivity|]. vm_compute. reflexivity.
  - vm_compute. reflexivity.
  - apply (bool_decide_unpack _). vm_compute. reflexivity.
  - repeat constructor; cbn; auto; lia.
  - intros _. apply demo_collection_ok.
  - vm_compute. reflexivity.
  - destruct Hs as [rs s _ _ Hrep|error Hat Hno]; [|exfalso].
    { exists before, s, after, final. split; [exact E|]. split; [exact Hb|exact Hrep]. }
    pose proof demo_second as E'. rewrite Hf in E'. cbn [fmap option_fmap option_map] in E'.
    unfold outcome in E'. rewrite Hat in E'. discriminate E'.
Defined.
