(* ===== verification/Service.v ===== *)
(** * Starting the stack trace service, and its processes ([src/src/ts/signal_handler.cc])

    The first call of [GetExternalHandlerState] constructs a static object: its constructor starts the service
    thread, and waits on a promise for the descriptor the thread made. The installers of the signal handlers,
    the external handler and [backtrace] all go through it. The machine [startup] has the calls, which may
    come from many threads, and the service thread up to its loop; the loop is [Server.RequestProcessor].

    The machine [world] has the processes that descend from the one with the service thread, with their
    tables of descriptors: a child inherits the server's pipe, and requests are descriptors of the
    process that sends them, which the server closes in its own process. *)

From S2P Require Import Prelude.
From S2P Require Import StackTrace.
From S2P Require Import Server.

(** ** Signals *)

Section service.

(** [SIGRTMIN], which libc computes, and [getpid()]. *)
Context (SIGRTMIN pid : Z).

Definition InternalSignum : Z := SIGRTMIN.

Definition ExternalSignum : Z := SIGRTMIN + 1.

Definition SA_SIGINFO : Z := 4.
Definition SA_RESTART : Z := 0x10000000.
Definition SI_QUEUE : Z := -1.

Inductive handler_fun : Type := F_InternalHandler | F_ExternalStackTraceSignalHandler.

(** [struct sigaction] *)
Record sigaction : Type := Sigaction {
  sa_sigaction : handler_fun;
  sa_flags : Z;
}.

(** The handlers of the process, by signal. *)
Abbreviation dispositions := (gmap Z sigaction).

(** The call of [sigaction], which succeeds or not. *)
Definition call_sigaction (ok : bool) (signum : Z) (a : sigaction) (d : dispositions) : bool * dispositions :=
  if ok then (true, <[signum := a]> d) else (false, d).

Definition InstallInternalHandler (ok : bool) (d : dispositions) : bool * dispositions :=
  call_sigaction ok InternalSignum (Sigaction F_InternalHandler (Z.lor SA_RESTART SA_SIGINFO)) d.

(** [ExternalHandlerState] *)
Record ExternalHandlerState : Type := State {
  server_tgid : Z;
  server_fd : Z;
}.

(** [InstallExternalHandler], once it has its copy of the state. *)
Definition InstallExternalHandler (state : ExternalHandlerState) (ok : bool) (d : dispositions)
    : bool * dispositions :=
  if server_fd state <? 0 then (false, d)
  else
    call_sigaction ok ExternalSignum
      (Sigaction F_ExternalStackTraceSignalHandler (Z.lor SA_RESTART SA_SIGINFO)) d.

(** The [siginfo_t] that [SignalThread] fills in, and the arguments of [rt_tgsigqueueinfo]. *)
Record siginfo : Type := Siginfo {
  si_signo : Z;
  si_code : Z;
  si_pid : Z;
  si_uid : Z;
  si_value : Z;
}.

Definition SignalThread (pid tid uid signum payload : Z) : Z * Z * Z * siginfo :=
  (pid, tid, signum, Siginfo signum SI_QUEUE pid uid payload).

(** ** Starting the service *)

(** Why a thread needs the state. *)
Inductive purpose : Type := Install | Signal | Backtrace.

Inductive pc : Type :=
| Enter (p : purpose)
| Ctor_spawn (p : purpose)
| Ctor_get (p : purpose)
| Use (p : purpose) (state : ExternalHandlerState)
| Ret
| R_start
| R_pipe
| R_set (w : Z)
| R_loop.

(** The static object: not constructed, being constructed, constructed. *)
Inductive static_state : Type :=
| Unset
| Busy
| Ready (state : ExternalHandlerState).

(** [promise] is [p] of the constructor: none outside its lifetime; [made] is the descriptor [pipe2] made. The
    last fields count the service threads and hold what went wrong. *)
Record startup : Type := Startup {
  state : static_state;
  promise : option (option Z);
  handlers : dispositions;
  stack_trace_ : gset nat;
  made : option Z;
  servers : nat;
  broken : option ub_kind;
  threads : gmap nat pc;
}.

Definition startup_init : startup := Startup Unset None ∅ ∅ None 0 None ∅.

Definition goto (i : nat) (p : pc) (s : startup) : startup :=
  Startup (state s) (promise s) (handlers s) (stack_trace_ s) (made s) (servers s) (broken s) (<[i := p]> (threads s)).

Definition with_state (st : static_state) (p : option (option Z)) (s : startup) : startup :=
  Startup st p (handlers s) (stack_trace_ s) (made s) (servers s) (broken s) (threads s).

Definition with_handlers (d : dispositions) (s : startup) : startup :=
  Startup (state s) (promise s) d (stack_trace_ s) (made s) (servers s) (broken s) (threads s).

Definition set_stack_trace (i : nat) (s : startup) : startup :=
  Startup (state s) (promise s) (handlers s) ({[i]} ∪ stack_trace_ s) (made s) (servers s) (broken s) (threads s).

Definition with_server (w : option Z) (n : nat) (s : startup) : startup :=
  Startup (state s) (promise s) (handlers s) (stack_trace_ s) w n (broken s) (threads s).

Definition break (u : ub_kind) (s : startup) : startup :=
  Startup (state s) (promise s) (handlers s) (stack_trace_ s) (made s) (servers s) (Some u) (threads s).

(** [GetExternalHandlerState]: the first thread constructs the object, the others wait for it. *)
Definition GetExternalHandlerState (i : nat) (p : purpose) (s : startup) : option startup :=
  match state s with
  | Unset => Some (goto i (Ctor_spawn p) (set_stack_trace i (with_state Busy (promise s) s)))
  | Busy => None
  | Ready st => Some (goto i (Use p st) s)
  end.

(** The constructor: the thread [n] is started with a pointer to [p]; [f.get()] waits for the value. *)
Definition ctor_spawn (i n : nat) (p : purpose) (s : startup) : option startup :=
  match threads s !! n with
  | None =>
      Some (goto n R_start (goto i (Ctor_get p) (with_server (made s) (S (servers s)) (with_state Busy (Some None) s))))
  | Some _ => None
  end.

Definition ctor_get (i : nat) (p : purpose) (s : startup) : option startup :=
  match promise s with
  | Some (Some w) => Some (goto i (Use p (State pid w)) (with_state (Ready (State pid w)) None s))
  | _ => None
  end.

(** [RequestProcessor] up to its loop: [pipe_fd] is what [pipe2] makes; when it fails the thread goes on and
    reads the array it did not fill. [p->set_value] on a promise that has a value throws. *)
Definition processor_pipe (i : nat) (pipe_fd : option (Z * Z)) (s : startup) : startup :=
  match pipe_fd with
  | Some (r, w) => goto i (R_set w) (with_server (Some w) (servers s) s)
  | None => break Uninitialised s
  end.

Definition processor_set (i : nat) (w : Z) (s : startup) : startup :=
  match promise s with
  | Some None => goto i R_loop (with_state (state s) (Some (Some w)) s)
  | Some (Some _) | None => break Dangling_pointer s
  end.

(** What the caller does with the state. *)
Definition use_state (i : nat) (p : purpose) (st : ExternalHandlerState) (ok : bool) (s : startup) : startup :=
  goto i Ret
    match p with
    | Install => with_handlers (InstallExternalHandler st ok (handlers s)).2 s
    | Signal | Backtrace => s
    end.

(** An action: a call, by a new activity, of one of the functions that need the state (the handler runs only once
    it is installed), or the next step of one. [n] is the thread a step starts, [pipe_fd] and [ok] what
    the system answers. *)
Inductive action : Type :=
| Call (i : nat) (p : purpose)
| Step (i n : nat) (pipe_fd : option (Z * Z)) (ok : bool).

Definition signal_delivered (p : purpose) (s : startup) : bool :=
  match p with Signal => bool_decide (is_Some (handlers s !! ExternalSignum)) | _ => true end.

(** [pipe2] gives descriptors. *)
Definition valid_pipe (pipe_fd : option (Z * Z)) : bool :=
  match pipe_fd with Some (r, w) => (0 <=? r) && (0 <=? w) | None => true end.

Definition startup_exec (a : action) (s : startup) : option startup :=
  if bool_decide (is_Some (broken s)) then None
  else
    match a with
    | Call i p =>
        if bool_decide (threads s !! i = None) && signal_delivered p s then Some (goto i (Enter p) s) else None
    | Step i n pipe_fd ok =>
        match threads s !! i with
        | Some (Enter p) => GetExternalHandlerState i p s
        | Some (Ctor_spawn p) => ctor_spawn i n p s
        | Some (Ctor_get p) => ctor_get i p s
        | Some (Use p st) => Some (use_state i p st ok s)
        | Some R_start => Some (goto i R_pipe (set_stack_trace i s))
        | Some R_pipe => if valid_pipe pipe_fd then Some (processor_pipe i pipe_fd s) else None
        | Some (R_set w) => Some (processor_set i w s)
        | Some Ret | Some R_loop | None => None
        end
    end.

#[global] Instance startup_machine : Machine startup action :=
  {| m_init s := s = startup_init; m_exec := startup_exec |}.

(** ** The invariant of the start *)

(** How far the service thread got. *)
Inductive stage : Type := St_start | St_pipe | St_set (w : Z) | St_loop (w : Z).

(** Nobody asked; [c] is to start the service; [c] waits for [r]; the service [r] runs. *)
Inductive phase : Type :=
| Idle
| Spawning (c : nat)
| Waiting (c r : nat) (g : stage)
| Serving (r : nat) (w : Z).

Definition pc_of (g : stage) : pc :=
  match g with St_start => R_start | St_pipe => R_pipe | St_set w => R_set w | St_loop _ => R_loop end.

Definition made_at (g : stage) : option Z := match g with St_set w | St_loop w => Some w | _ => None end.

Definition promised (g : stage) : option Z := match g with St_loop w => Some w | _ => None end.

(** What the shared variables are in a phase. *)
Definition shared (ph : phase) (s : startup) : Prop :=
  match ph with
  | Idle => state s = Unset /\ promise s = None /\ made s = None /\ servers s = 0%nat
  | Spawning c =>
      state s = Busy /\ promise s = None /\ made s = None /\ servers s = 0%nat
      /\ exists p, threads s !! c = Some (Ctor_spawn p)
  | Waiting c r g =>
      state s = Busy /\ promise s = Some (promised g) /\ made s = made_at g /\ servers s = 1%nat
      /\ (forall w, made_at g = Some w -> 0 <= w)
      /\ (exists p, threads s !! c = Some (Ctor_get p)) /\ threads s !! r = Some (pc_of g)
  | Serving r w =>
      state s = Ready (State pid w) /\ promise s = None /\ made s = Some w /\ servers s = 1%nat /\ 0 <= w
      /\ threads s !! r = Some R_loop
  end.

(** Where a thread can be in a phase. *)
Definition pc_ok (ph : phase) (i : nat) (q : pc) : Prop :=
  match q with
  | Enter _ | Ret => True
  | Ctor_spawn _ => ph = Spawning i
  | Ctor_get _ => exists r g, ph = Waiting i r g
  | Use _ st => exists r w, ph = Serving r w /\ st = State pid w
  | R_start | R_pipe | R_set _ => exists c g, ph = Waiting c i g /\ q = pc_of g
  | R_loop => (exists c w, ph = Waiting c i (St_loop w)) \/ (exists w, ph = Serving i w)
  end.

Definition installed (s : startup) : Prop := is_Some (handlers s !! ExternalSignum).

Record good (s : startup) (ph : phase) : Prop := Good {
  good_shared : shared ph s;
  good_pcs : forall i q, threads s !! i = Some q -> pc_ok ph i q;
  good_installed : installed s -> exists r w, ph = Serving r w;
}.

Definition inv (s : startup) : Prop :=
  match broken s with None => exists ph, good s ph | Some u => u = Uninitialised /\ (servers s <= 1)%nat end.

(** The threads that have something left to do by themselves. *)
Definition rank (q : pc) : nat :=
  match q with
  | Enter _ => 7
  | Ctor_spawn _ => 6
  | Ctor_get _ => 2
  | Use _ _ => 1
  | R_start => 3
  | R_pipe => 2
  | R_set _ => 1
  | Ret | R_loop => 0
  end.

Definition total (m : gmap nat pc) : nat := map_fold (fun _ q n => (rank q + n)%nat) 0%nat m.

Definition is_step (a : action) : Prop := match a with Step _ _ _ _ => True | Call _ _ => False end.

Definition at_end (q : pc) : bool := match q with Ret | R_loop => true | _ => false end.

Definition finished (s : startup) : Prop := map_Forall (fun _ q => at_end q = true) (threads s).

(** ** Lemmas *)

Lemma all_insert (Q : nat -> pc -> Prop) i p (m : gmap nat pc) :
  Q i p -> (forall j q, j <> i -> m !! j = Some q -> Q j q) -> forall j q, <[i:=p]> m !! j = Some q -> Q j q.
Proof.
  intros Hi Hm j q. destruct (decide (j = i)) as [->|Hn].
  - rewrite lookup_insert_eq. by intros [= <-].
  - rewrite lookup_insert_ne by done. eauto.
Qed.

(** A step that keeps the phase. *)
Lemma good_goto s ph i p :
  good s ph -> shared ph (goto i p s) -> pc_ok ph i p -> good (goto i p s) ph.
Proof. intros [Hs Hp Hi] Hs' Hq. split; [done| |done]. cbn. apply all_insert; [done|]. intros j q _. apply Hp. Qed.

(** A thread that is none of those a phase names. *)
Definition bystander (q : option pc) : Prop :=
  match q with None | Some (Enter _) | Some (Use _ _) | Some Ret => True | _ => False end.

Lemma bystander_ne s i j q : bystander (threads s !! i) -> threads s !! j = Some q -> ~ bystander (Some q) -> i <> j.
Proof. intros Hi Hj Hq ->. rewrite Hj in Hi. done. Qed.

Lemma shared_goto s ph i p : shared ph s -> bystander (threads s !! i) -> shared ph (goto i p s).
Proof.
  intros Hs Hi. destruct ph as [|c|c r g|r w]; cbn in *; [done|..].
  - destruct Hs as (? & ? & ? & ? & p' & Hp). split_and!; try done.
    exists p'. rewrite lookup_insert_ne; [done|]. apply (bystander_ne s _ _ _ Hi Hp); by intros [].
  - destruct Hs as (? & ? & ? & ? & ? & (p' & Hp) & Hr). split_and!; try done.
    + exists p'. rewrite lookup_insert_ne; [done|]. apply (bystander_ne s _ _ _ Hi Hp); by intros [].
    + rewrite lookup_insert_ne; [done|]. apply (bystander_ne s _ _ _ Hi Hr). by destruct g; intros [].
  - destruct Hs as (? & ? & ? & ? & ? & Hr). split_and!; try done.
    rewrite lookup_insert_ne; [done|]. apply (bystander_ne s _ _ _ Hi Hr); by intros [].
Qed.

Lemma good_bystander s ph i p :
  good s ph -> bystander (threads s !! i) -> pc_ok ph i p -> good (goto i p s) ph.
Proof. intros Hg Hi Hp. apply good_goto; [done| |done]. apply shared_goto; [by destruct Hg|done]. Qed.

(** The state is asked for. *)
Lemma good_enter s ph i p s' :
  good s ph -> threads s !! i = Some (Enter p) -> GetExternalHandlerState i p s = Some s' -> exists ph', good s' ph'.
Proof.
  intros Hg Hi Hs. pose proof Hg as [Hsh Hp Hin]. unfold GetExternalHandlerState in Hs.
  destruct ph as [|c|c r g|r w]; cbn in Hsh.
  - destruct Hsh as (E & Hpr & Hm & Hn). rewrite E in Hs. injection Hs as <-.
    exists (Spawning i). split; cbn.
    + split_and!; try done. exists p. by rewrite lookup_insert_eq.
    + apply all_insert; [done|]. intros j q Hj Hq%Hp.
      destruct q; cbn in *; try done; naive_solver.
    + intros H%Hin. naive_solver.
  - destruct Hsh as (E & _). by rewrite E in Hs.
  - destruct Hsh as (E & _). by rewrite E in Hs.
  - destruct Hsh as (E & _). rewrite E in Hs. injection Hs as <-.
    exists (Serving r w). apply good_bystander; [done|by rewrite Hi|]. cbn. eauto.
Qed.

Lemma good_ctor_spawn s ph i n p s' :
  good s ph -> threads s !! i = Some (Ctor_spawn p) -> ctor_spawn i n p s = Some s' -> exists ph', good s' ph'.
Proof.
  intros [Hsh Hp Hin] Hi Hs. pose proof (Hp _ _ Hi) as Hph. cbn in Hph. subst ph.
  destruct Hsh as (E & Hpr & Hm & Hn & _). unfold ctor_spawn in Hs.
  destruct (threads s !! n) eqn:En; [done|]. injection Hs as <-. assert (i <> n) by (intros ->; congruence).
  exists (Waiting i n St_start). split; cbn.
  - split_and!; try done; [by rewrite Hn|..].
    + exists p. rewrite lookup_insert_ne by done. by rewrite lookup_insert_eq.
    + by rewrite lookup_insert_eq.
  - apply all_insert; [cbn; eauto|]. intros j q Hj. apply (all_insert (pc_ok _)); [cbn; eauto|].
    intros k q' Hk Hq%Hp. destruct q'; cbn in *; try done; naive_solver.
  - intros H'%Hin. naive_solver.
Qed.

Lemma good_ctor_get s ph i p s' :
  good s ph -> threads s !! i = Some (Ctor_get p) -> ctor_get i p s = Some s' -> exists ph', good s' ph'.
Proof.
  intros [Hsh Hp Hin] Hi Hs. pose proof (Hp _ _ Hi) as (r & g & ->).
  destruct Hsh as (E & Hpr & Hm & Hn & Hw & _ & Hr). unfold ctor_get in Hs. rewrite Hpr in Hs.
  destruct g as [| |w|w]; cbn in *; try done. injection Hs as <-.
  assert (i <> r) by (intros ->; congruence). exists (Serving r w). split; cbn.
  - split_and!; eauto. by rewrite lookup_insert_ne.
  - apply all_insert; [cbn; eauto|]. intros j q Hj Hq%Hp. destruct q; cbn in *; naive_solver.
  - eauto.
Qed.

(** The service thread goes from one stage to the next. *)
Lemma good_stage s ph i g g' c s' :
  good s ph -> ph = Waiting c i g -> (forall w, made_at g' = Some w -> 0 <= w) ->
  state s' = state s -> promise s' = Some (promised g') -> made s' = made_at g' -> servers s' = servers s ->
  handlers s' = handlers s -> threads s' = <[i:=pc_of g']> (threads s) -> good s' (Waiting c i g').
Proof.
  intros [Hsh Hp Hin] -> Hw Es Ep Em En Eh Et. destruct Hsh as (E & Hpr & Hm & Hn & _ & [p Hc] & Hr).
  assert (c <> i) by (intros ->; destruct g; cbn in *; congruence). split; cbn.
  - rewrite Es, Ep, Em, En, Et, lookup_insert_eq. split_and!; try done. exists p. by rewrite lookup_insert_ne.
  - rewrite Et. apply all_insert; [destruct g'; cbn; eauto|].
    intros j q Hj Hq%Hp. destruct q; cbn in *; naive_solver.
  - unfold installed. rewrite Eh. intros H'%Hin. naive_solver.
Qed.

Lemma good_use s ph i p st ok :
  good s ph -> threads s !! i = Some (Use p st) -> good (use_state i p st ok s) ph.
Proof.
  intros Hg Hi. pose proof (good_pcs _ _ Hg _ _ Hi) as (r & w & -> & ->). unfold use_state.
  assert (Hg' : good (match p with
    | Install => with_handlers (InstallExternalHandler (State pid w) ok (handlers s)).2 s
    | Signal | Backtrace => s end) (Serving r w)).
  { destruct p; [|done..]. destruct Hg as [Hsh Hp Hin]. split; [done|done|eauto]. }
  apply good_bystander; [done| |done]. by destruct p; cbn; rewrite Hi.
Qed.

Lemma shared_servers s ph : shared ph s -> (servers s <= 1)%nat.
Proof. destruct ph; cbn; intros; destruct_and?; lia. Qed.

Lemma inv_good s ph : broken s = None -> good s ph -> inv s.
Proof. intros Hb Hg. unfold inv. rewrite Hb. eauto. Qed.

Lemma startup_inv_step a s s' : inv s -> startup_exec a s = Some s' -> inv s'.
Proof.
  intros Hi Hs. unfold startup_exec in Hs. destruct (broken s) as [u|] eqn:Hb; [done|]. cbn in Hs.
  unfold inv in Hi. rewrite Hb in Hi. destruct Hi as [ph Hg].
  assert (Hgo : forall s1 ph', broken s1 = broken s -> good s1 ph' -> inv s1)
    by (intros s1 ph' E; rewrite Hb in E; by apply inv_good).
  destruct a as [i p|i n pipe_fd ok].
  - case_bool_decide as Hi; [|done]. cbn in Hs. destruct (signal_delivered p s); [|done]. injection Hs as <-.
    eapply Hgo; [done|]. apply good_bystander; [done|by rewrite Hi|done].
  - destruct (threads s !! i) as [q|] eqn:Hi; [|done]. pose proof (good_pcs _ _ Hg _ _ Hi) as Hq.
    pose proof (shared_servers _ _ (good_shared _ _ Hg)) as Hone.
    destruct q as [p|p|p|p st| | | |w|]; cbn in Hq.
    + assert (broken s' = broken s) by (unfold GetExternalHandlerState in Hs; by destruct (state s); simplify_eq).
      destruct (good_enter _ _ _ _ _ Hg Hi Hs) as [ph' Hg']. eauto.
    + assert (broken s' = broken s) by (unfold ctor_spawn in Hs; by destruct (threads s !! n); simplify_eq).
      destruct (good_ctor_spawn _ _ _ _ _ _ Hg Hi Hs) as [ph' Hg']. eauto.
    + assert (broken s' = broken s) by (unfold ctor_get in Hs; by destruct (promise s) as [[]|]; simplify_eq).
      destruct (good_ctor_get _ _ _ _ _ Hg Hi Hs) as [ph' Hg']. eauto.
    + injection Hs as <-. eapply Hgo; [by destruct p|]. by apply good_use.
    + done.
    + destruct Hq as (c & g & -> & Hq). destruct g; try done. injection Hs as <-.
      eapply Hgo; [done|]. pose proof (good_shared _ _ Hg) as (? & ? & ? & ?).
      by eapply (good_stage s _ i St_start St_pipe).
    + destruct Hq as (c & g & -> & Hq). destruct g; try done.
      pose proof (good_shared _ _ Hg) as (? & ? & ? & ?).
      destruct pipe_fd as [[r w]|]; [|by injection Hs as <-]. cbn in Hs.
      destruct (_ && _) eqn:Ew; [|done]. bool_solve. injection Hs as <-. eapply Hgo; [done|].
      eapply (good_stage s _ i St_pipe (St_set w)); try done. by intros ? [= <-].
    + destruct Hq as (c & g & -> & Hq). destruct g as [| |w'|]; try done. injection Hq as <-.
      pose proof (good_shared _ _ Hg) as (? & Hp & ? & ? & Hw & _).
      injection Hs as <-. unfold processor_set. rewrite Hp. cbn [promised]. eapply Hgo; [done|].
      by eapply (good_stage s _ i (St_set w) (St_loop w)).
    + done.
Qed.

Lemma startup_inv s : reachable s -> inv s.
Proof.
  apply reachable_invariant; [|by intros a s1 s2; apply startup_inv_step].
  intros ? ->. unfold inv. cbn. exists Idle. split; [done|done|]. unfold installed. cbn. by intros [? [=]].
Qed.

Lemma reachable_good s : reachable s -> broken s = None -> exists ph, good s ph.
Proof. intros Hr Hb. pose proof (startup_inv s Hr) as Hi. unfold inv in Hi. by rewrite Hb in Hi. Qed.

(** ** Termination *)

Lemma rank_insert i p m : total (<[i:=p]> m) = (rank p + total (delete i m))%nat.
Proof.
  unfold total. rewrite <- insert_delete_eq. rewrite map_fold_insert_L; [done| |apply lookup_delete_eq].
  intros; lia.
Qed.

Lemma rank_split i p m : m !! i = Some p -> total m = (rank p + total (delete i m))%nat.
Proof. intros Hi. rewrite <- (insert_id m i p) at 1 by done. apply rank_insert. Qed.

Lemma total_goto i p q m : m !! i = Some q -> (rank p < rank q)%nat -> (total (<[i:=p]> m) < total m)%nat.
Proof. intros Hi Hr. rewrite rank_insert, (rank_split i q m Hi). lia. Qed.

Lemma step_decreases a s s' :
  is_step a -> startup_exec a s = Some s' -> (total (threads s') < total (threads s))%nat \/ is_Some (broken s').
Proof.
  intros Ha Hs. destruct a as [|i n pipe_fd ok]; [done|]. unfold startup_exec in Hs.
  destruct (bool_decide _); [done|]. destruct (threads s !! i) as [q|] eqn:Hi; [|done].
  destruct q as [p|p|p|p st| | | |w|]; try done.
  - unfold GetExternalHandlerState in Hs. destruct (state s); simplify_eq; left; eapply total_goto; (done || cbn; lia).
  - unfold ctor_spawn in Hs. destruct (threads s !! n) eqn:Hn; simplify_eq. left. cbn.
    assert (i <> n) by congruence.
    rewrite rank_insert, delete_insert_ne, (delete_id (threads s) n), rank_insert by done.
    rewrite (rank_split i _ _ Hi). cbn. lia.
  - unfold ctor_get in Hs. destruct (promise s) as [[w|]|]; simplify_eq. left. eapply total_goto; (done || cbn; lia).
  - injection Hs as <-. left. unfold use_state. cbn. destruct p; cbn; eapply total_goto; (done || cbn; lia).
  - injection Hs as <-. left. eapply total_goto; (done || cbn; lia).
  - destruct (valid_pipe pipe_fd); [|done]. injection Hs as <-. unfold processor_pipe.
    destruct pipe_fd as [[r w]|]; [left; eapply total_goto; (done || cbn; lia)|by right].
  - injection Hs as <-. unfold processor_set. destruct (promise s) as [[w'|]|]; [by right| |by right].
    left. eapply total_goto; (done || cbn; lia).
Qed.

Lemma not_finished s : ~ finished s -> exists i q, threads s !! i = Some q /\ at_end q = false.
Proof.
  intros (i & q & Hi & Hq)%map_not_Forall; [|apply _]. exists i, q. split; [done|]. by apply not_true_is_false.
Qed.

(** While somebody has something left to do, somebody can do it. *)
Lemma can_step s :
  reachable s -> broken s = None -> ~ finished s -> exists a s', is_step a /\ startup_exec a s = Some s'.
Proof.
  intros Hr Hb Hf. destruct (reachable_good s Hr Hb) as [ph Hg].
  assert (Hx : forall i n pf ok q, threads s !! i = Some q ->
    startup_exec (Step i n pf ok) s = match q with
      | Enter p => GetExternalHandlerState i p s
      | Ctor_spawn p => ctor_spawn i n p s
      | Ctor_get p => ctor_get i p s
      | Use p st => Some (use_state i p st ok s)
      | R_start => Some (goto i R_pipe (set_stack_trace i s))
      | R_pipe => if valid_pipe pf then Some (processor_pipe i pf s) else None
      | R_set w => Some (processor_set i w s)
      | Ret | R_loop => None end).
  { intros i n pf ok q Hi. unfold startup_exec. rewrite Hb, Hi. done. }
  pose proof (good_shared _ _ Hg) as Hsh. destruct ph as [|c|c r g|r w]; cbn in Hsh.
  - apply not_finished in Hf as (i & q & Hi & Hq).
    exists (Step i 0 None true). rewrite (Hx _ _ _ _ _ Hi). pose proof (good_pcs _ _ Hg _ _ Hi) as Hpc.
    destruct Hsh as (E & _). unfold GetExternalHandlerState. rewrite E.
    destruct q; cbn in Hpc; try done; naive_solver.
  - destruct Hsh as (_ & _ & _ & _ & p & Hc). destruct (exist_fresh (dom (threads s))) as [n Hn].
    apply not_elem_of_dom in Hn. exists (Step c n None true). rewrite (Hx _ _ _ _ _ Hc).
    unfold ctor_spawn. rewrite Hn. by eexists.
  - destruct Hsh as (_ & Hp & _ & _ & _ & (p & Hc) & Hrr). destruct g as [| |w|w]; cbn in Hrr, Hp.
    + exists (Step r 0 None true). rewrite (Hx _ _ _ _ _ Hrr). by eexists.
    + exists (Step r 0 None true). rewrite (Hx _ _ _ _ _ Hrr). by eexists.
    + exists (Step r 0 None true). rewrite (Hx _ _ _ _ _ Hrr). by eexists.
    + exists (Step c 0 None true). rewrite (Hx _ _ _ _ _ Hc). unfold ctor_get. rewrite Hp. by eexists.
  - apply not_finished in Hf as (i & q & Hi & Hq).
    exists (Step i 0 None true). rewrite (Hx _ _ _ _ _ Hi). pose proof (good_pcs _ _ Hg _ _ Hi) as Hpc.
    destruct Hsh as (E & _). unfold GetExternalHandlerState. rewrite E.
    destruct q; cbn in Hpc; try done; naive_solver.
Qed.

(** ** Properties of the start *)

(** C13. However many threads ask for the state at the same time, at most one service thread is started; the only
    undefined behaviour is the read of the descriptors of a [pipe2] that failed, never a use of a promise that is
    gone; and whoever gets the state gets the process and the descriptor the service thread made, which is not
    negative, so that the test of [InstallExternalHandler] never refuses it. *)
Theorem service_started_once (s : startup) :
  reachable s ->
  (servers s <= 1)%nat /\ (broken s = None \/ broken s = Some Uninitialised)
  /\ (broken s = None -> forall i p st, threads s !! i = Some (Use p st) ->
       exists w, state s = Ready st /\ st = State pid w /\ made s = Some w
       /\ forall ok d, (InstallExternalHandler st ok d).1 = ok).
Proof.
  intros Hr. pose proof (startup_inv s Hr) as Hi. unfold inv in Hi.
  destruct (broken s) as [u|] eqn:Hb; [destruct Hi as [-> Hn]; split_and!; [done|by right|done]|].
  destruct Hi as [ph Hg]. split_and!; [exact (shared_servers _ _ (good_shared _ _ Hg))|by left|].
  intros _ i p st Hi. pose proof (good_pcs _ _ Hg _ _ Hi) as (r & w & -> & ->).
  pose proof (good_shared _ _ Hg) as (? & _ & ? & _ & Hw & _). exists w. split_and!; try done.
  intros ok d. unfold InstallExternalHandler. cbn. destruct (Z.ltb_spec w 0); [lia|]. by destruct ok.
Qed.

(** C29. The external signal handler, which runs in the middle of any code, never waits for the construction of the
    state: in every state in which the handler is installed, [GetExternalHandlerState] returns at once, with the
    descriptor of the service thread. *)
Theorem handler_never_waits (s : startup) :
  reachable s -> broken s = None -> installed s ->
  exists w, made s = Some w /\ 0 <= w
    /\ forall i p, GetExternalHandlerState i p s = Some (goto i (Use p (State pid w)) s).
Proof.
  intros Hr Hb Hin. destruct (reachable_good s Hr Hb) as [ph Hg].
  destruct (good_installed _ _ Hg Hin) as (r & w & ->).
  pose proof (good_shared _ _ Hg) as (E & _ & ? & _ & ? & _). exists w. split_and!; [done|done|].
  intros i p. unfold GetExternalHandlerState. by rewrite E.
Qed.

Lemma run_broken acts s s' : is_Some (broken s) -> run acts s = Some s' -> acts = [] /\ s' = s.
Proof.
  intros Hb Hr. destruct acts as [|a acts]; cbn in Hr; [by injection Hr as <-|].
  unfold startup_exec in Hr. rewrite bool_decide_true in Hr by done. done.
Qed.

(** C25. The start always completes: a schedule without new calls has at most [total] steps, and as long as a caller
    has not returned or the service thread has not reached its loop, somebody can make a step. *)
Theorem startup_completes (s s' : startup) (acts : list action) :
  reachable s -> Forall is_step acts -> run acts s = Some s' -> broken s' = None ->
  (length acts + total (threads s') <= total (threads s))%nat
  /\ (finished s' \/ exists a s'', is_step a /\ startup_exec a s' = Some s'').
Proof.
  intros Hr Ha Hrun Hb. split.
  - clear Hr. revert s Hrun. induction Ha as [|a acts Ha _ IH]; intros s Hrun; cbn in Hrun |- *.
    + by injection Hrun as <-.
    + destruct (startup_exec a s) as [s1|] eqn:E; [|done].
      destruct (step_decreases _ _ _ Ha E) as [Hlt|Hbr].
      * specialize (IH _ Hrun). lia.
      * destruct (run_broken _ _ _ Hbr Hrun) as [-> ->]. rewrite Hb in Hbr. by destruct Hbr.
  - assert (Hr' : reachable s').
    { destruct Hr as (s0 & acts0 & H0 & Hr0). exists s0, (acts0 ++ acts). split; [done|]. by rewrite run_app, Hr0. }
    destruct (decide (finished s')) as [|Hn]; [by left|]. right. by apply can_step.
Qed.

End service.

(** ** The processes that share the service *)

(** A descriptor of a process: the program's own, or one that belongs to a request. *)
Inductive owner : Type := Own | Request.

#[export] Instance owner_eq_decision : EqDecision owner.
Proof. solve_decision. Defined.

(** The table of descriptors of each process; the bytes in the server's pipe, which all share; whether the
    server closed a descriptor that belongs to no request. *)
Record world : Type := World {
  tables : gmap Z (gmap Z owner);
  stream : list byte;
  clobbered : bool;
}.

(** [backtrace] *)
Definition backtrace (pipe_fd : option (Z * Z)) (ret : Z) : list event := ExternalHandler pipe_fd ret.

Definition table (w : world) (p : Z) : gmap Z owner := default ∅ (tables w !! p).

Definition with_table (p : Z) (t : gmap Z owner) (w : world) : world :=
  World (<[p := t]> (tables w)) (stream w) (clobbered w).

(** The effect of an event of a requester in process [p] on its table and on the pipe. *)
Definition requester_event (p : Z) (e : event) (w : world) : world :=
  match e with
  | Opened fd => with_table p (<[fd := Request]> (table w p)) w
  | Closed fd => with_table p (delete fd (table w p)) w
  | Sent bs => World (tables w) (stream w ++ bs) (clobbered w)
  | _ => w
  end.

(** The effect of an event of the service thread of process [p]. *)
Definition server_event (p : Z) (e : event) (w : world) : world :=
  match e with
  | Closed fd =>
      World (<[p := delete fd (table w p)]> (tables w)) (stream w)
        (clobbered w || negb (bool_decide (table w p !! fd = Some Request)))
  | _ => w
  end.

Definition all_events (f : event -> world -> world) (evs : list event) (w : world) : world :=
  fold_left (fun w e => f e w) evs w.

(** [fork], the program's own descriptors, the external signal, [backtrace], and one turn of the server.
    A pipe gets two free descriptors, and a write on it is complete or fails. *)
Inductive world_action : Type :=
| Fork (p q : Z)
| Open (p fd : Z)
| Close (p fd : Z)
| External_signal (p r w ret : Z)
| Call_backtrace (p r w ret : Z)
| Serve.

Section world.

(** The process of the server, whether [backtrace] is called in other processes, and what the server does with a
    request. *)
Context (server_tgid : Z) (in_children : bool).
Context (collect : Z -> list Result * list byte) (close : Z -> Z) (pipe_w : Z).

Definition fresh_pipe (p r w ret : Z) (s : world) : bool :=
  bool_decide (is_Some (tables s !! p)) && bool_decide (table s p !! r = None)
  && bool_decide (table s p !! w = None) && negb (r =? w)
  && (0 <=? w) && (w <? 2 ^ 31) && ((ret =? -1) || (ret =? 4)).

Definition serve (s : world) : option world :=
  if (length (stream s) <? sizeof_int)%nat then None
  else
    let evs := (RequestProcessor false collect close pipe_w 0 [Read_bytes (take sizeof_int (stream s))]).1 in
    Some (all_events (server_event server_tgid) evs
            (World (tables s) (drop sizeof_int (stream s)) (clobbered s))).

Definition world_exec (a : world_action) (s : world) : option world :=
  match a with
  | Fork p q =>
      if bool_decide (is_Some (tables s !! p)) && bool_decide (tables s !! q = None)
      then Some (with_table q (table s p) s) else None
  | Open p fd =>
      if bool_decide (is_Some (tables s !! p)) && bool_decide (table s p !! fd = None)
      then Some (with_table p (<[fd := Own]> (table s p)) s) else None
  | Close p fd =>
      if bool_decide (table s p !! fd = Some Own) then Some (with_table p (delete fd (table s p)) s) else None
  | External_signal p r w ret =>
      if fresh_pipe p r w ret s then
        Some (all_events (requester_event p) (ExternalStackTraceSignalHandler server_tgid p (Some (r, w)) ret) s)
      else None
  | Call_backtrace p r w ret =>
      if fresh_pipe p r w ret s && (in_children || (p =? server_tgid)) then
        Some (all_events (requester_event p) (backtrace (Some (r, w)) ret) s)
      else None
  | Serve => serve s
  end.

Definition world_init (s : world) : Prop :=
  exists t, tables s = {[server_tgid := t]} /\ map_Forall (fun _ o => o = Own) t /\ stream s = [] /\ clobbered s = false.

#[global] Instance world_machine : Machine world world_action := {| m_init := world_init; m_exec := world_exec |}.

End world.

(** ** The invariant of the requests *)

Section world_lemmas.
Context (server_tgid : Z) (collect : Z -> list Result * list byte) (close : Z -> Z) (pipe_w : Z).

(** The pipe holds descriptors of the server's process, each one a request, none of them twice. *)
Definition requests_ok (s : world) (ws : list Z) : Prop :=
  is_Some (tables s !! server_tgid) /\ stream s = concat (map int_bytes ws) /\ NoDup ws
  /\ Forall (fun w => 0 <= w < 2 ^ 31 /\ table s server_tgid !! w = Some Request) ws.

Definition world_inv (s : world) : Prop := clobbered s = false /\ exists ws, requests_ok s ws.

(** Nothing that keeps the requests in the server's table matters. *)
Lemma requests_mono s s' ws :
  requests_ok s ws -> stream s' = stream s -> is_Some (tables s' !! server_tgid) ->
  (forall w, table s server_tgid !! w = Some Request -> table s' server_tgid !! w = Some Request) ->
  requests_ok s' ws.
Proof.
  intros (Ht & Hs & Hn & Hw) Es Et Hm. split_and!; [done|by rewrite Es|done|].
  eapply Forall_impl; [exact Hw|]. naive_solver.
Qed.

Lemma table_other s p q t : p <> q -> table (with_table p t s) q = table s q.
Proof. intros H. unfold table, with_table. cbn. by rewrite lookup_insert_ne. Qed.

Lemma table_same s p t : table (with_table p t s) p = t.
Proof. unfold table, with_table. cbn. by rewrite lookup_insert_eq. Qed.

Lemma requests_with_table s p t ws :
  requests_ok s ws -> (p = server_tgid -> forall w, table s p !! w = Some Request -> t !! w = Some Request) ->
  requests_ok (with_table p t s) ws.
Proof.
  intros Hr Ht. apply (requests_mono s); [done|done|..].
  - cbn. destruct (decide (p = server_tgid)) as [->|]; [by rewrite lookup_insert_eq|].
    rewrite lookup_insert_ne by done. by destruct Hr.
  - intros w Hw. destruct (decide (p = server_tgid)) as [->|]; [rewrite table_same; auto|by rewrite table_other].
Qed.

Lemma with_table_twice p t t' s : with_table p t (with_table p t' s) = with_table p t s.
Proof. unfold with_table. cbn. by rewrite insert_insert_eq. Qed.

(** What a request leaves in the process that makes it. *)
Lemma handler_effect p r w ret s :
  ret = -1 \/ ret = 4 ->
  let t := delete r (<[w:=Request]> (<[r:=Request]> (table s p))) in
  all_events (requester_event p) (ExternalHandler (Some (r, w)) ret) s
  = if ret =? -1 then with_table p (delete w t) s
    else World (tables (with_table p t s)) (stream s ++ int_bytes w) (clobbered s).
Proof.
  intros Hret. cbv zeta. unfold ExternalHandler, all_events. destruct Hret as [-> | ->]; cbn [Z.eqb Pos.eqb negb].
  - cbn [app fold_left requester_event]. by rewrite !table_same, !with_table_twice.
  - cbn -[int_bytes take]. rewrite !table_same. unfold with_table. cbn -[int_bytes take].
    rewrite !insert_insert_eq. rewrite take_ge; [done|]. unfold int_bytes. rewrite length_le_split. done.
Qed.

(** A request of the server's own process. *)
Lemma requests_handler s ws r w ret :
  requests_ok s ws -> fresh_pipe server_tgid r w ret s = true ->
  exists ws', requests_ok (all_events (requester_event server_tgid) (ExternalHandler (Some (r, w)) ret) s) ws'
    /\ clobbered (all_events (requester_event server_tgid) (ExternalHandler (Some (r, w)) ret) s) = clobbered s.
Proof.
  intros Hr Hf. unfold fresh_pipe in Hf. rewrite !andb_true_iff, !bool_decide_eq_true, negb_true_iff in Hf.
  destruct Hf as ((((((Ht & Hfr) & Hfw) & Hrw) & H0) & H1) & Hret). rewrite orb_true_iff in Hret.
  rewrite !Z.eqb_eq in Hret. bool_solve. rewrite handler_effect by done.
  set (t := table s server_tgid) in *.
  assert (Hkeep : forall x, t !! x = Some Request -> x <> r /\ x <> w) by (intros x Hx; split; congruence).
  destruct Hret as [-> | ->]; cbn [Z.eqb Pos.eqb].
  - exists ws. split; [|done]. apply requests_with_table; [done|]. intros _ x Hx.
    destruct (Hkeep x Hx). by rewrite !lookup_delete_ne, !lookup_insert_ne by done.
  - exists (ws ++ [w]). split; [|done]. destruct Hr as (Hs & Es & Hn & Hw). split_and!.
    + cbn. by rewrite lookup_insert_eq.
    + cbn -[int_bytes]. rewrite Es, map_app, concat_app. cbn [map concat]. by rewrite app_nil_r.
    + apply NoDup_app. split_and!; [done| |apply NoDup_singleton].
      intros x Hx ->%list_elem_of_singleton. rewrite Forall_forall in Hw. destruct (Hw _ Hx) as [_ Hx'].
      by destruct (Hkeep w Hx').
    + change (table _ server_tgid) with (table (with_table server_tgid (delete r (<[w:=Request]> (<[r:=Request]> t))) s) server_tgid).
      rewrite table_same. apply Forall_app. split.
      * eapply Forall_impl; [exact Hw|]. intros x [Hx Hx']. split; [done|].
        destruct (Hkeep x Hx'). by rewrite lookup_delete_ne, !lookup_insert_ne by done.
      * apply Forall_singleton. split; [done|]. by rewrite lookup_delete_ne, lookup_insert_eq by congruence.
Qed.

(** One turn of the server. *)
Lemma requests_serve s ws s' :
  requests_ok s ws -> serve server_tgid collect close pipe_w s = Some s' ->
  exists w ws', ws = w :: ws' /\ requests_ok s' ws' /\ clobbered s' = clobbered s
    /\ table s' server_tgid = delete w (table s server_tgid).
Proof.
  intros (Hs & Es & Hn & Hw) Hv. unfold serve in Hv. rewrite Es in Hv. destruct ws as [|w ws]; [done|].
  apply NoDup_cons in Hn as [Hnw Hn]. apply Forall_cons in Hw as [[Hr Hw0] Hw].
  cbn [map concat] in Hv. assert (Hl : length (int_bytes w) = 4%nat) by apply length_le_split.
  rewrite length_app, Hl in Hv. cbn [Nat.ltb Nat.leb sizeof_int Nat.add] in Hv. apply (inj Some) in Hv. subst s'.
  unfold sizeof_int. rewrite take_app_length', drop_app_length' by done.
  cbn [RequestProcessor]. destruct (int_bytes w) as [|b bs] eqn:E; [done|]. rewrite <- E in *. unfold sizeof_int.
  rewrite Hl, bytes_int_bytes, serve_request_events by done. cbn [negb Nat.eqb fst snd]. rewrite app_nil_r.
  assert (Hev : forall s0, all_events (server_event server_tgid)
      ([Print_start (0 + 1)] ++ match (collect (0 + 1)).1 with
        | [] => [Complain (Collect_failed (collect (0 + 1)).2)]
        | _ => [Print_trace (c_str (ToPrettyString false (collect (0 + 1)).1).1); Print_end (0 + 1)] end
       ++ [Flush; Closed w] ++ (if close (0 + 1) =? 0 then [] else [Complain Ack_failed])) s0
    = server_event server_tgid (Closed w) s0).
  { intros s0. unfold all_events. by destruct (collect (0 + 1)).1, (close (0 + 1) =? 0). }
  rewrite Hev. exists w, ws. split; [done|]. cbn.
  change (table (World (tables s) _ _) server_tgid) with (table s server_tgid).
  rewrite Hw0, bool_decide_true, orb_false_r by done. split_and!; [|done|by unfold table; cbn; rewrite lookup_insert_eq].
  split_and!; cbn; [by rewrite lookup_insert_eq|done|done|].
  rewrite Forall_forall in Hw |- *. intros x Hx. destruct (Hw x Hx). split; [done|].
  unfold table. cbn. rewrite lookup_insert_eq. cbn. rewrite lookup_delete_ne; [done|]. by intros ->.
Qed.

Lemma world_inv_step a s s' :
  world_inv s -> world_exec server_tgid false collect close pipe_w a s = Some s' -> world_inv s'.
Proof.
  intros [Hc [ws Hr]] Hs. pose proof Hr as (Hsome & _).
  destruct a as [p q|p fd|p fd|p r w ret|p r w ret|]; cbn [world_exec] in Hs.
  - destruct (_ && _) eqn:E; [|done]. injection Hs as <-. rewrite andb_true_iff, !bool_decide_eq_true in E.
    destruct E as [_ E]. split; [done|]. exists ws. apply requests_with_table; [done|]. intros ->.
    rewrite E in Hsome. by destruct Hsome.
  - destruct (_ && _) eqn:E; [|done]. injection Hs as <-. rewrite andb_true_iff, !bool_decide_eq_true in E.
    destruct E as [_ E]. split; [done|]. exists ws. apply requests_with_table; [done|]. intros -> w Hw.
    rewrite lookup_insert_ne; [done|]. intros ->. congruence.
  - destruct (bool_decide _) eqn:E; [|done]. injection Hs as <-. apply bool_decide_eq_true in E.
    split; [done|]. exists ws. apply requests_with_table; [done|]. intros -> w Hw.
    rewrite lookup_delete_ne; [done|]. intros ->. congruence.
  - destruct (fresh_pipe p r w ret s) eqn:E; [|done]. injection Hs as <-.
    unfold ExternalStackTraceSignalHandler. destruct (Z.eqb_spec server_tgid p) as [<-|]; cbn [negb].
    + destruct (requests_handler s ws r w ret Hr E) as (ws' & Hr' & Hc'). split; [by rewrite Hc'|by exists ws'].
    + split; [done|]. by exists ws.
  - destruct (fresh_pipe p r w ret s) eqn:E; [|done]. cbn in Hs. destruct (Z.eqb_spec p server_tgid) as [->|]; [|done].
    injection Hs as <-. destruct (requests_handler s ws r w ret Hr E) as (ws' & Hr' & Hc').
    split; [by rewrite <- Hc in *|by exists ws'].
  - destruct (requests_serve s ws s' Hr Hs) as (w & ws' & -> & Hr' & Hc' & _). split; [by rewrite Hc'|by exists ws'].
Qed.

End world_lemmas.

(** ** Properties of the processes *)

(** C12. As long as only the process with the service thread calls [backtrace], the server closes nothing but
    requests: in every state that forks, external signals in any process, requests that fail, and files that any process
    opens and closes can lead to, each turn of the server closes one descriptor of its process, which was opened
    for a request; a signal in a child process sends nothing. *)
Theorem server_closes_only_requests (server_tgid : Z) (collect : Z -> list Result * list byte) (close : Z -> Z)
    (pipe_w : Z) (s : world) :
  @reachable _ _ (world_machine server_tgid false collect close pipe_w) s ->
  clobbered s = false
  /\ forall s', serve server_tgid collect close pipe_w s = Some s' ->
     exists w, table s server_tgid !! w = Some Request /\ table s' server_tgid = delete w (table s server_tgid).
Proof.
  intros Hr. assert (Hi : world_inv server_tgid s).
  { revert s Hr. apply reachable_invariant.
    - intros s (t & Et & _ & Es & Hc). split; [done|]. exists []. split_and!; [by rewrite Et, lookup_singleton_eq|done|..].
      + constructor.
      + constructor.
    - intros a s s'. apply world_inv_step. }
  destruct Hi as [Hc [ws Hok]]. split; [done|]. intros s' Hs.
  destruct (requests_serve _ _ _ _ _ _ _ Hok Hs) as (w & ws' & -> & _ & _ & Et). exists w. split; [|done].
  destruct Hok as (_ & _ & _ & Hw). apply Forall_cons in Hw as [[_ Hw] _]. done.
Qed.

(** A world whose server has one file open. *)
Definition demo_world : world := World {[1 := {[3 := Own]}]} [] false.

Definition demo_server : Machine world world_action := world_machine 1 true (fun _ => ([], [])) (fun _ => 0) 4.

(** [backtrace] does not test the process as the handler does: called in a child, it makes the server close the
    descriptor of its own process that has the number of the child's pipe, whatever it is. *)
Theorem child_backtrace_clobbers :
  exists s, @reachable _ _ demo_server s /\ clobbered s = true /\ table s 1 = ∅.
Proof.
  eexists. split; [exists demo_world, [Fork 1 2; Close 2 3; Call_backtrace 2 4 3 4; Serve]; split|].
  - exists {[3 := Own]}. split_and!; [done| |done|done]. apply map_Forall_singleton. done.
  - vm_compute. reflexivity.
  - by vm_compute.
Qed.

(** ** Witnesses *)

(** Two threads ask for the state; the first one constructs it. *)
Definition demo_start : list action :=
  [Call 0 Install; Call 1 Backtrace; Step 0 0 None true; Step 0 9 None true; Step 9 0 None true;
   Step 9 0 (Some (7, 8)) true; Step 9 0 None true; Step 0 0 None true].

Definition demo_state : startup := default startup_init (@run _ _ (startup_machine 34 100) demo_start startup_init).

Definition demo_installed : startup :=
  default startup_init (@run _ _ (startup_machine 34 100) (demo_start ++ [Step 0 0 None true]) startup_init).

Lemma service_started_once_witness :
  exists w, state demo_state = Ready (State 100 w) /\ made demo_state = Some w.
Proof.
  assert (Hr : @reachable _ _ (startup_machine 34 100) demo_state)
    by (exists startup_init, demo_start; split; [done|by vm_compute]).
  destruct (service_started_once 34 100 demo_state Hr) as (_ & _ & H).
  destruct (H eq_refl 0%nat Install (State 100 8)) as (w & H1 & H2 & H3 & _); [by vm_compute|].
  exists w. rewrite <- H2. by split.
Defined.

Lemma handler_never_waits_witness :
  exists w, made demo_installed = Some w /\ 0 <= w.
Proof.
  destruct (handler_never_waits 34 100 demo_installed) as (w & H1 & H2 & _).
  - exists startup_init, (demo_start ++ [Step 0 0 None true]). split; [done|by vm_compute].
  - by vm_compute.
  - by eexists; vm_compute.
  - by exists w.
Defined.

Lemma startup_completes_witness :
  (length (drop 2 demo_start) + total (threads demo_state) <= 14)%nat.
Proof.
  apply (startup_completes 34 100
    (default startup_init (@run _ _ (startup_machine 34 100) (take 2 demo_start) startup_init))).
  - exists startup_init, (take 2 demo_start). split; [done|by vm_compute].
  - by repeat constructor.
  - by vm_compute.
  - by vm_compute.
Defined.

Lemma server_closes_only_requests_witness :
  exists s, @reachable _ _ (world_machine 1 false (fun _ => ([], [])) (fun _ => 0) 4) s
    /\ table s 1 !! 6 = Some Request /\ clobbered s = false.
Proof.
  assert (Hr : exists s, @run _ _ (world_machine 1 false (fun _ => ([], [])) (fun _ => 0) 4)
    [External_signal 1 5 6 4; Fork 1 2; External_signal 2 8 9 4] demo_world = Some s /\ table s 1 !! 6 = Some Request)
    by (eexists; split; by vm_compute).
  destruct Hr as (s & Hr & Ht). exists s.
  assert (Hrs : @reachable _ _ (world_machine 1 false (fun _ => ([], [])) (fun _ => 0) 4) s).
  { eexists _, _. split; [|exact Hr]. exists {[3 := Own]}. split_and!; [done| |done|done].
    by apply map_Forall_singleton. }
  split_and!; [done|done|].
  apply (server_closes_only_requests 1 (fun _ => ([], [])) (fun _ => 0) 4 s Hrs).
Defined.
