(* ===== verification/Tt.v ===== *)
(** * The injector ([src/src/tt.cpp])

    [tt] attaches to a 32-bit process, finds the symbol [mtrace] in the ELF structures of its memory and
    makes the process call it. The program is a 32-bit one: [long], pointers and registers have 32 bits,
    and a word of the tracee is four bytes.

    The tracee is a map from addresses to bytes, the unmapped addresses absent, and its registers.
    [PTRACE_PEEKTEXT] returns -1 where a byte of the word is unmapped; the code never tests it. Loops
    over structures in memory that nothing bounds take a fuel. *)

From S2P Require Import Prelude.

(** ** The tracee *)

Abbreviation memory := (gmap Z byte).

Record user_regs_struct : Type := Regs { eax : Z; ecx : Z; edx : Z; esp : Z; eip : Z }.

(** [PTRACE_PEEKTEXT]: the four bytes of the word, or those of -1. *)
Definition peektext (m : memory) (a : Z) : list byte :=
  match m !! wrapU 32 a, m !! wrapU 32 (a + 1), m !! wrapU 32 (a + 2), m !! wrapU 32 (a + 3) with
  | Some b0, Some b1, Some b2, Some b3 => [b0; b1; b2; b3]
  | _, _, _, _ => [Byte.xff; Byte.xff; Byte.xff; Byte.xff]
  end.

(** [PTRACE_POKETEXT]: [None] when it fails. *)
Definition poketext (m : memory) (a : Z) (w : list byte) : option memory :=
  match w with
  | [b0; b1; b2; b3] =>
      if bool_decide (is_Some (m !! wrapU 32 a) /\ is_Some (m !! wrapU 32 (a + 1))
                      /\ is_Some (m !! wrapU 32 (a + 2)) /\ is_Some (m !! wrapU 32 (a + 3)))
      then Some (<[wrapU 32 a := b0]> (<[wrapU 32 (a + 1) := b1]>
                   (<[wrapU 32 (a + 2) := b2]> (<[wrapU 32 (a + 3) := b3]> m))))
      else None
  | _ => None
  end.

(** ** Reading and writing *)

(** The number of turns of [while(count < len)] with [count += 4]. *)
Definition turns (len : Z) : nat := Z.to_nat ((len + 3) / 4).

Fixpoint read_words (m : memory) (a : Z) (k : nat) : list byte :=
  match k with
  | O => []
  | S k' => peektext m a ++ read_words m (a + 4) k'
  end.

(** [ptrace_read]: the bytes it stores from [vptr] on. *)
Definition ptrace_read (m : memory) (addr len : Z) : list byte := read_words m addr (turns len).

(** What the program prints. *)
Inductive print : Type :=
| Write_failed (addr : Z)
| Nchains_negative
| Lib_name (s : list byte)
| Library (s : list byte).

(** The loop of [ptrace_write]: [src] is the buffer from [vptr + count] on; a [memcpy] past its end is
    undefined. [err] says that [errno] is not 0: a failed write sets it and nothing clears it, so that the
    later turns report a failure too. *)
Fixpoint write_words (m : memory) (a : Z) (src : list byte) (k : nat) (err : bool) : prog print (memory * bool) :=
  match k with
  | O => mret (m, err)
  | S k' =>
      if (length src <? 4)%nat then undef Out_of_bounds
      else
        let '(m', err') := match poketext m a (take 4 src) with Some m' => (m', err) | None => (m, true) end in
        _ ← emit_if err' (Write_failed (wrapU 32 (a + 4)));
        write_words m' (a + 4) (drop 4 src) k' err'
  end.

Definition ptrace_write (m : memory) (addr : Z) (vptr : list byte) (len : Z) (err : bool)
    : prog print (memory * bool) :=
  write_words m addr vptr (turns len) err.

(** [str[i] = c] in the block of [malloc]: [None] when [i] is past its end, which is undefined. *)
Definition put (str : list byte) (i : nat) (c : byte) : option (list byte) :=
  if (i <? length str)%nat then Some (<[i := c]> str) else None.

(** A turn of the loop of [ptrace_readstr], [i] bytes of [str] written: the four tests of the word in a row. The
    buffer, the new [i], and whether the loop was left. *)
Fixpoint readstr_turn (pa str : list byte) (i : nat) : option (list byte * nat * bool) :=
  match pa with
  | [] => Some (str, i, false)
  | c :: pa' =>
      str' ← put str i c;
      if byte.unsigned c =? 0 then Some (str', i, true) else readstr_turn pa' str' (S i)
  end.

(** The loop: [None] when it writes past the buffer, or when the fuel does not suffice. *)
Fixpoint readstr_loop (m : memory) (addr count : Z) (str : list byte) (i : nat) (fuel : nat) : option (list byte) :=
  match fuel with
  | O => None
  | S fuel' =>
      if (i <=? 60)%nat then
        match readstr_turn (peektext m (addr + count)) str i with
        | None => None
        | Some (str', i', stop) => if stop then Some str' else readstr_loop m addr (count + 4) str' i' fuel'
        end
      else Some str
  end.

(** [ptrace_readstr]: [garbage] is the content of the 64 bytes of [malloc]. A turn that does not leave the loop writes
    to the buffer, so that one turn more than it has bytes ends the loop or leaves the buffer: the fuel plays no part
    in the result. *)
Definition ptrace_readstr (m : memory) (addr : Z) (garbage : list byte) : option (list byte) :=
  readstr_loop m addr 0 garbage 0 (S (length garbage)).

(** A C string in a buffer: [None] when nothing ends it, and reading it leaves the buffer. *)
Fixpoint buffer_str (bs : list byte) : option (list byte) :=
  match bs with
  | [] => None
  | b :: bs' => if byte.unsigned b =? 0 then Some [] else cons b <$> buffer_str bs'
  end.

(** [strcmp(str, sym_name) == 0], [str] in a buffer: [None] when it reads past the buffer. *)
Fixpoint strcmp_eq (str sym_name : list byte) : option bool :=
  match str with
  | [] => None
  | b :: str' =>
      match sym_name with
      | [] => Some (byte.unsigned b =? 0)
      | c :: sym_name' => if Byte.eqb b c then strcmp_eq str' sym_name' else Some false
      end
  end.

(** [ptrace_push] *)
Definition ptrace_push (m : memory) (regs : user_regs_struct) (paddr : list byte) (size : Z) (err : bool)
    : prog print (memory * user_regs_struct * Z) :=
  let sp := wrapU 32 (esp regs - size) in
  let sp := sp - sp mod 4 in
  let regs' := Regs (eax regs) (ecx regs) (edx regs) sp (eip regs) in
  r ← ptrace_write m sp paddr size err;
  mret (r.1, regs', sp).

(** ** Waiting for the tracee *)

Definition WIFSTOPPED (stat : Z) : bool := Z.land stat 0xff =? 0x7f.

Definition WIFSIGNALED (stat : Z) : bool :=
  0 <? Z.shiftr (wrapS 8 (Z.land stat 0x7f + 1)) 1.

(** [while(!stop(stat)) waitpid(pid, &stat, WNOHANG)]: each answer of [waitpid] is a status, or nothing
    when no state changed. [None] when the answers run out before the loop ends. *)
Fixpoint wait_until (stop : Z -> bool) (stat : Z) (answers : list (option Z)) : option (list (option Z)) :=
  if stop stat then Some answers
  else
    match answers with
    | [] => None
    | a :: answers' => wait_until stop (default stat a) answers'
    end.

(** The wait of [ptrace_cont], whose [stat] is not initialised. *)
Definition ptrace_cont (stat : Z) (answers : list (option Z)) : option (list (option Z)) :=
  wait_until WIFSTOPPED stat answers.

(** [ptrace_cont], then the wait of [ptrace_call]; the two [stat]s are not initialised. *)
Definition ptrace_call_waits (stat1 stat2 : Z) (answers : list (option Z)) : option (list (option Z)) :=
  answers' ← ptrace_cont stat1 answers;
  wait_until WIFSIGNALED stat2 answers'.

(** [ptrace_call] up to the waits: pushes the return address, and jumps. *)
Definition ptrace_call (m : memory) (regs : user_regs_struct) (addr : Z) (err : bool)
    : prog print (memory * user_regs_struct) :=
  r ← ptrace_push m regs (le_split 4 0x41414140) 4 err;
  let '(m', regs', _) := r in
  mret (m', Regs (eax regs') (ecx regs') (edx regs') (esp regs') addr).

(** [call_dl_open] up to the waits of [ptrace_call]. *)
Definition RTLD_LAZY : Z := 1.

Definition call_dl_open (m : memory) (regs : user_regs_struct) (addr : Z) (libname : list byte) (err : bool)
    : prog print (memory * user_regs_struct) :=
  r ← ptrace_push m regs libname (Z.of_nat (length (c_str libname)) + 1) err;
  let '(m', regs', pRLibName) := r in
  ptrace_call m' (Regs pRLibName 0 RTLD_LAZY (esp regs') (eip regs')) addr err.

(** ** ELF structures *)

Record Elf32_Dyn : Type := Dyn { d_tag : Z; d_un : Z }.

Record Elf32_Sym : Type := Sym { st_name : Z; st_value : Z; st_size : Z }.

Record link_map : Type := Lm { l_addr : Z; l_name : Z; l_ld : Z; l_next : Z; l_prev : Z }.

Definition dyn_of (bs : list byte) : Elf32_Dyn :=
  let '(tag, bs) := get_s 4 bs in let '(un, _) := get_u 4 bs in Dyn tag un.

Definition sym_of (bs : list byte) : Elf32_Sym :=
  let '(name, bs) := get_u 4 bs in let '(value, bs) := get_u 4 bs in let '(size, _) := get_u 4 bs in
  Sym name value size.

Definition lm_of (bs : list byte) : link_map :=
  let '(addr, bs) := get_u 4 bs in let '(name, bs) := get_u 4 bs in let '(ld, bs) := get_u 4 bs in
  let '(next, bs) := get_u 4 bs in let '(prev, _) := get_u 4 bs in Lm addr name ld next prev.

(** [sizeof] of [Elf32_Dyn], [Elf32_Sym], [Elf32_Phdr], [Elf32_Ehdr], [struct link_map]. *)
Definition sizeof_dyn : Z := 8.
Definition sizeof_sym : Z := 16.
Definition sizeof_phdr : Z := 32.
Definition sizeof_ehdr : Z := 52.
Definition sizeof_lm : Z := 20.

Definition read_dyn (m : memory) (a : Z) : Elf32_Dyn := dyn_of (ptrace_read m a sizeof_dyn).
Definition read_sym (m : memory) (a : Z) : Elf32_Sym := sym_of (ptrace_read m a sizeof_sym).
Definition read_lm (m : memory) (a : Z) : link_map := lm_of (ptrace_read m a sizeof_lm).

(** The fields [e_phoff] of an ELF header, [p_type] and [p_vaddr] of a program header. *)
Definition e_phoff (bs : list byte) : Z := (get_u 4 (drop 28 bs)).1.
Definition p_type (bs : list byte) : Z := (get_u 4 bs).1.
Definition p_vaddr (bs : list byte) : Z := (get_u 4 (drop 8 bs)).1.

Definition IMAGE_ADDR : Z := 0x08048000.

(** ** [get_linkmap] *)

(** The loop on program headers, from the one at [a]. *)
Fixpoint find_dynamic (m : memory) (a : Z) (fuel : nat) : option Z :=
  match fuel with
  | O => None
  | S fuel' =>
      let phdr := ptrace_read m a sizeof_phdr in
      if p_type phdr =? 2 then Some (p_vaddr phdr) else find_dynamic m (wrapU 32 (a + sizeof_phdr)) fuel'
  end.

(** The loop on dynamic entries: [dyn] is the current one, [i] the index of the next. *)
Fixpoint find_pltgot (m : memory) (dyn_addr i : Z) (dyn : Elf32_Dyn) (fuel : nat) : option Elf32_Dyn :=
  match fuel with
  | O => None
  | S fuel' =>
      if d_tag dyn =? 3 then Some dyn
      else find_pltgot m dyn_addr (i + 1) (read_dyn m (dyn_addr + i * sizeof_dyn)) fuel'
  end.

Definition get_linkmap (m : memory) (fuel : nat) : option link_map :=
  let phdr_addr := wrapU 32 (IMAGE_ADDR + e_phoff (ptrace_read m IMAGE_ADDR sizeof_ehdr)) in
  dyn_addr ← find_dynamic m phdr_addr fuel;
  dyn ← find_pltgot m dyn_addr 0 (read_dyn m dyn_addr) fuel;
  let got := wrapU 32 (d_un dyn + 4) in
  let map_addr := (get_u 4 (ptrace_read m got 4)).1 in
  Some (read_lm m map_addr).

(** ** Symbol tables *)

(** The global variables. *)
Record globals : Type := Globals {
  nchains : Z;
  symtab : Z;
  strtab : Z;
  jmprel : Z;
  totalrelsize : Z;
  relsize : Z;
  nrels : Z;
}.

(** The [switch] of [get_sym_info]. *)
Definition sym_info_case (m : memory) (dyn : Elf32_Dyn) (g : globals) : globals :=
  let '(Globals nc st str jr trs rs nr) := g in
  match d_tag dyn with
  | 6 => Globals nc (d_un dyn) str jr trs rs nr
  | 5 => Globals nc st (d_un dyn) jr trs rs nr
  | 4 => Globals (get_s 4 (ptrace_read m (wrapU 32 (d_un dyn + 4)) 4)).1 st str jr trs rs nr
  | 23 => Globals nc st str (d_un dyn) trs rs nr
  | 2 => Globals nc st str jr (d_un dyn) rs nr
  | 9 | 19 => Globals nc st str jr trs (d_un dyn) nr
  | _ => g
  end.

Fixpoint sym_info_loop (m : memory) (dyn_addr : Z) (g : globals) (fuel : nat) : option globals :=
  match fuel with
  | O => None
  | S fuel' =>
      let dyn := read_dyn m dyn_addr in
      if d_tag dyn =? 0 then Some g
      else sym_info_loop m (wrapU 32 (dyn_addr + sizeof_dyn)) (sym_info_case m dyn g) fuel'
  end.

(** [nrels = totalrelsize / relsize] *)
Definition set_nrels (g : globals) : prog print globals :=
  if relsize g =? 0 then undef Division_by_zero
  else mret (Globals (nchains g) (symtab g) (strtab g) (jmprel g) (totalrelsize g) (relsize g)
               (totalrelsize g / relsize g)).

(** [get_sym_info]; [None] when the dynamic section has no end within the fuel. *)
Definition get_sym_info (m : memory) (lm : link_map) (g : globals) (fuel : nat) : option (prog print globals) :=
  g' ← sym_info_loop m (l_ld lm) g fuel; Some (set_nrels g').

Section find.

(** The content of fresh [malloc] blocks: the strings of [ptrace_readstr], and the uninitialised [*sym]. *)
Context (garbage : list byte) (sym0 : Elf32_Sym).

(** The loop of [find_symbol_in_linkmap], from index [i] with [k] turns left; the symbol found, if any. *)
Fixpoint search_symbol (m : memory) (g : globals) (lm : link_map) (sym_name : list byte) (i : Z) (k : nat)
    : prog print (option Elf32_Sym) :=
  match k with
  | O => mret None
  | S k' =>
      let sym := read_sym m (wrapU 32 (symtab g + i * sizeof_sym)) in
      if (st_name sym =? 0) || (st_size sym =? 0) || (st_value sym =? 0) then
        search_symbol m g lm sym_name (i + 1) k'
      else
        str ← or_undef Out_of_bounds (ptrace_readstr m (wrapU 32 (strtab g + st_name sym)) garbage);
        eq ← or_undef Out_of_bounds (strcmp_eq str sym_name);
        if (eq : bool) then
          lib ← or_undef Out_of_bounds (ptrace_readstr m (l_name lm) garbage ≫= buffer_str);
          _ ← emit (Lib_name lib);
          mret (Some sym)
        else search_symbol m g lm sym_name (i + 1) k'
  end.

(** [find_symbol_in_linkmap]; [i == nchains] after the loop means that no symbol was found, except that a
    negative [nchains] is not 0, and the result is then computed from the block [malloc] returned. *)
Definition find_symbol_in_linkmap (m : memory) (lm : link_map) (sym_name : list byte) (g : globals)
    (fuel : nat) : option (prog print (Z * globals)) :=
  p ← get_sym_info m lm g fuel;
  Some (
    g' ← p;
    _ ← emit_if (nchains g' <? 0) Nchains_negative;
    r ← search_symbol m g' lm sym_name 0 (Z.to_nat (nchains g'));
    mret (match r with
          | Some sym => wrapU 32 (l_addr lm + st_value sym)
          | None => if nchains g' <? 0 then wrapU 32 (l_addr lm + st_value sym0) else 0
          end, g')).

(** The loop of [find_symbol]; [lm] was searched already and gave [sym_addr]. *)
Fixpoint find_symbol_loop (m : memory) (lm : link_map) (sym_name : list byte) (sym_addr : Z) (g : globals)
    (fuel : nat) : option (prog print Z) :=
  match fuel with
  | O => None
  | S fuel' =>
      if negb (sym_addr =? 0) || (l_next lm =? 0) then Some (mret sym_addr)
      else
        let lm' := read_lm m (l_next lm) in
        match ptrace_readstr m (l_name lm') garbage ≫= buffer_str with
        | None => Some (undef Out_of_bounds)
        | Some [] => find_symbol_loop m lm' sym_name sym_addr g fuel'
        | Some str =>
            match find_symbol_in_linkmap m lm' sym_name g fuel' with
            | None => None
            | Some (l, Done (a, g')) =>
                match find_symbol_loop m lm' sym_name a g' fuel' with
                | Some (l', r) => Some (Library str :: l ++ l', r)
                | None => None
                end
            | Some (l, Undefined u) => Some (Library str :: l, Undefined u)
            | Some (l, Raised e) => Some (Library str :: l, Raised e)
            end
        end
  end.

(** [find_symbol] *)
Definition find_symbol (m : memory) (map : link_map) (sym_name : list byte) (g : globals) (fuel : nat)
    : option (prog print Z) :=
  match find_symbol_in_linkmap m map sym_name g fuel with
  | None => None
  | Some (l, Done (a, g')) =>
      if negb (a =? 0) then Some (l, Done a)
      else if l_next map =? 0 then Some (l, Done 0)
      else
        let lm := read_lm m (l_next map) in
        match find_symbol_in_linkmap m lm sym_name g' fuel with
        | None => None
        | Some (l', Done (a', g'')) =>
            match find_symbol_loop m lm sym_name a' g'' fuel with
            | Some (l'', r) => Some (l ++ l' ++ l'', r)
            | None => None
            end
        | Some (l', Undefined u) => Some (l ++ l', Undefined u)
        | Some (l', Raised e) => Some (l ++ l', Raised e)
        end
  | Some (l, Undefined u) => Some (l, Undefined u)
  | Some (l, Raised e) => Some (l, Raised e)
  end.

End find.

(** ** What lies in memory *)

(** The bytes [bs] lie at [a]. *)
Definition mapped_at (m : memory) (a : Z) (bs : list byte) : Prop :=
  forall (i : nat) b, bs !! i = Some b -> m !! wrapU 32 (a + Z.of_nat i) = Some b.

(** The C string [s] lies at [a], in words that are mapped whole. *)
Definition string_at (m : memory) (a : Z) (s : list byte) : Prop :=
  Forall (fun b => byte.unsigned b <> 0) s
  /\ exists pad k, length (s ++ Byte.x00 :: pad) = (4 * k)%nat /\ mapped_at m a (s ++ Byte.x00 :: pad).

(** A dynamic section: the entries at [a], then [DT_NULL]. *)
Fixpoint section_at (m : memory) (a : Z) (ds : list Elf32_Dyn) : Prop :=
  match ds with
  | [] => d_tag (read_dyn m a) = 0
  | d :: ds' => read_dyn m a = d /\ d_tag d <> 0 /\ section_at m (wrapU 32 (a + sizeof_dyn)) ds'
  end.

(** The entries of a symbol table that the search looks at. *)
Definition usable (sym : Elf32_Sym) : bool :=
  negb ((st_name sym =? 0) || (st_size sym =? 0) || (st_value sym =? 0)).

(** A symbol table with its names: each entry from index [i] on, and the string of each usable one. *)
Fixpoint table_at (m : memory) (g : globals) (i : Z) (tab : list (Elf32_Sym * list byte)) : Prop :=
  match tab with
  | [] => True
  | (sym, s) :: tab' =>
      read_sym m (wrapU 32 (symtab g + i * sizeof_sym)) = sym
      /\ (usable sym = true -> string_at m (wrapU 32 (strtab g + st_name sym)) s)
      /\ table_at m g (i + 1) tab'
  end.

(** The symbol a table defines for a name: the first usable entry with that name. *)
Definition lookup_symbol (sym_name : list byte) (tab : list (Elf32_Sym * list byte)) : option Elf32_Sym :=
  fst <$> find (fun e => usable e.1 && bool_decide (e.2 = sym_name)) tab.

(** ** Lemmas: words *)

Lemma mapped_at_app m a bs1 bs2 :
  mapped_at m a (bs1 ++ bs2) <-> mapped_at m a bs1 /\ mapped_at m (a + Z.of_nat (length bs1)) bs2.
Proof.
  unfold mapped_at. split.
  - intros H. split; intros i b Hb.
    + apply H. by apply lookup_app_l_Some.
    + rewrite <- Z.add_assoc, <- Nat2Z.inj_add. apply H. rewrite lookup_app_r by lia. by rewrite Nat.add_comm, Nat.add_sub.
  - intros [H1 H2] i b [Hb|[Hl Hb]]%lookup_app_Some; [by apply H1|].
    specialize (H2 _ _ Hb). rewrite <- Z.add_assoc, <- Nat2Z.inj_add in H2.
    by replace (length bs1 + (i - length bs1))%nat with i in H2 by lia.
Qed.

Lemma peektext_mapped m a w : length w = 4%nat -> mapped_at m a w -> peektext m a = w.
Proof.
  intros Hl Hm. destruct w as [|b0 [|b1 [|b2 [|b3 []]]]]; try done. unfold peektext.
  pose proof (Hm 0%nat _ eq_refl) as H0. pose proof (Hm 1%nat _ eq_refl) as H1.
  pose proof (Hm 2%nat _ eq_refl) as H2. pose proof (Hm 3%nat _ eq_refl) as H3.
  change (Z.of_nat 0) with 0 in H0. change (Z.of_nat 1) with 1 in H1. change (Z.of_nat 2) with 2 in H2.
  change (Z.of_nat 3) with 3 in H3. rewrite Z.add_0_r in H0. by rewrite H0, H1, H2, H3.
Qed.

Lemma length_peektext m a : length (peektext m a) = 4%nat.
Proof. unfold peektext. by repeat case_match. Qed.

Lemma turns_le len : 0 <= len -> len <= 4 * Z.of_nat (turns len) < len + 4.
Proof.
  intros Hl. unfold turns. rewrite Z2Nat.id by (apply Z.div_pos; lia).
  pose proof (Z.div_mod (len + 3) 4 ltac:(lia)). pose proof (Z.mod_pos_bound (len + 3) 4 ltac:(lia)). lia.
Qed.

Lemma turns_mul k : turns (4 * Z.of_nat k) = k.
Proof. pose proof (turns_le (4 * Z.of_nat k) ltac:(lia)). lia. Qed.

Lemma length_read_words m a k : length (read_words m a k) = (4 * k)%nat.
Proof. revert a. induction k as [|k IH]; intros a; cbn; [done|]. rewrite length_app, length_peektext, IH. lia. Qed.

Lemma read_words_mapped m a k bs :
  length bs = (4 * k)%nat -> mapped_at m a bs -> read_words m a k = bs.
Proof.
  revert a bs. induction k as [|k IH]; intros a bs Hl Hm; cbn; [by destruct bs|].
  rewrite <- (take_drop 4 bs) in Hm |- *. apply mapped_at_app in Hm as [Hm1 Hm2].
  rewrite length_take in Hm2. replace (Z.of_nat (4 `min` length bs)) with 4 in Hm2 by lia.
  rewrite (peektext_mapped m a (take 4 bs)) by (done || (rewrite length_take; lia)).
  by rewrite (IH (a + 4) (drop 4 bs)) by (done || (rewrite length_drop; lia)).
Qed.

(** Reading a word where another was written. *)
Lemma poketext_spec m a w m' :
  0 <= a -> a + 4 <= 2 ^ 32 -> poketext m a w = Some m' ->
  mapped_at m' a w /\ (forall x, x < a \/ a + 4 <= x -> m' !! x = m !! x)
  /\ (forall x, is_Some (m' !! x) <-> is_Some (m !! x)).
Proof.
  intros H0 H1. unfold poketext. destruct w as [|b0 [|b1 [|b2 [|b3 []]]]]; try done.
  assert (Ew : forall d, 0 <= d < 4 -> wrapU 32 (a + d) = a + d) by (intros; apply wrapU_small; lia).
  assert (Ew0 : wrapU 32 a = a) by (apply wrapU_small; lia).
  rewrite Ew0, !Ew by lia. case_bool_decide as Hd; [|done]. destruct Hd as (H4 & H5 & H6 & H7).
  intros [= <-]. split; [|split].
  - intros [|[|[|[|i]]]] b Hb; simplify_eq/=; rewrite ?Z.add_0_r, ?Ew0, ?Ew by lia.
    + by rewrite lookup_insert_eq.
    + rewrite lookup_insert_ne by lia. by rewrite lookup_insert_eq.
    + rewrite !lookup_insert_ne by lia. by rewrite lookup_insert_eq.
    + rewrite !lookup_insert_ne by lia. by rewrite lookup_insert_eq.
  - intros x Hx. by rewrite !lookup_insert_ne by lia.
  - intros x. destruct (decide (x = a)) as [->|]; [rewrite lookup_insert_eq; by split; eauto|].
    destruct (decide (x = a + 1)) as [->|].
    { rewrite lookup_insert_ne, lookup_insert_eq by lia. by split; eauto. }
    destruct (decide (x = a + 2)) as [->|].
    { rewrite !lookup_insert_ne by lia. rewrite lookup_insert_eq. by split; eauto. }
    destruct (decide (x = a + 3)) as [->|].
    { rewrite !lookup_insert_ne by lia. rewrite lookup_insert_eq. by split; eauto. }
    by rewrite !lookup_insert_ne by lia.
Qed.

Lemma poketext_total m a w :
  length w = 4%nat -> 0 <= a -> a + 4 <= 2 ^ 32 ->
  (forall x, a <= x < a + 4 -> is_Some (m !! x)) -> is_Some (poketext m a w).
Proof.
  intros Hl H0 H1 Hm. destruct w as [|b0 [|b1 [|b2 [|b3 []]]]]; try done. unfold poketext.
  rewrite !wrapU_small by lia. rewrite bool_decide_true; [by eexists|].
  split; [apply Hm; lia|]. split; [apply Hm; lia|]. split; apply Hm; lia.
Qed.

(** Writing [k] words on mapped memory stores them and nothing else. *)
Lemma write_words_spec m a src k :
  0 <= a -> a + 4 * Z.of_nat k <= 2 ^ 32 -> (4 * k <= length src)%nat ->
  (forall x, a <= x < a + 4 * Z.of_nat k -> is_Some (m !! x)) ->
  exists m', write_words m a src k false = ([], Done (m', false))
    /\ mapped_at m' a (take (4 * k) src)
    /\ (forall x, x < a \/ a + 4 * Z.of_nat k <= x -> m' !! x = m !! x).
Proof.
  revert m a src. induction k as [|k IH]; intros m a src H0 H1 Hl Hm.
  - exists m. split; [done|]. split; [|done]. rewrite take_0. by intros [].
  - cbn [write_words]. destruct (Nat.ltb_spec (length src) 4); [lia|].
    destruct (poketext_total m a (take 4 src)) as [m1 Hp];
      [rewrite length_take; lia|done|lia|intros; apply Hm; lia|].
    rewrite Hp. cbn [emit_if]. rewrite bind_ret_l.
    destruct (poketext_spec _ _ _ _ H0 ltac:(lia) Hp) as (Hm1 & Hf1 & Hd1).
    destruct (IH m1 (a + 4) (drop 4 src)) as (m2 & -> & Hm2 & Hf2);
      [lia|lia|rewrite length_drop; lia|intros x Hx; apply Hd1, Hm; lia|].
    exists m2. split; [done|]. split.
    + replace (4 * S k)%nat with (4 + 4 * k)%nat by lia.
      rewrite <- (take_drop 4 (take (4 + 4 * k) src)), take_take, skipn_firstn_comm.
      replace (4 `min` (4 + 4 * k))%nat with 4%nat by lia. replace (4 + 4 * k - 4)%nat with (4 * k)%nat by lia.
      apply mapped_at_app. rewrite length_take. replace (Z.of_nat (4 `min` length src)) with 4 by lia.
      split; [|done]. intros i b Hb. pose proof (lookup_lt_Some _ _ _ Hb) as Hi. rewrite length_take in Hi.
      rewrite Hf2; [by apply Hm1|]. left. rewrite wrapU_small; lia.
    + intros x Hx. rewrite Hf2 by lia. apply Hf1. lia.
Qed.

(** Writing more words than the source has. *)
Lemma write_words_short m a src k :
  0 <= a -> a + 4 * Z.of_nat k <= 2 ^ 32 -> (length src < 4 * k)%nat ->
  (forall x, a <= x < a + 4 * Z.of_nat k -> is_Some (m !! x)) ->
  write_words m a src k false = ([], Undefined Out_of_bounds).
Proof.
  revert m a src. induction k as [|k IH]; intros m a src H0 H1 Hl Hm; [lia|].
  cbn [write_words]. destruct (Nat.ltb_spec (length src) 4); [done|].
  destruct (poketext_total m a (take 4 src)) as [m1 Hp];
    [rewrite length_take; lia|done|lia|intros; apply Hm; lia|].
  rewrite Hp. cbn [emit_if]. rewrite bind_ret_l. destruct (poketext_spec _ _ _ _ H0 ltac:(lia) Hp) as (_ & _ & Hd1).
  apply IH; [lia|lia|rewrite length_drop; lia|intros x Hx; apply Hd1, Hm; lia].
Qed.

(** ** Lemmas: strings *)

Definition nonzero (b : byte) : Prop := byte.unsigned b <> 0.

(** One turn of [ptrace_readstr] with room for a word: either the whole word is copied, or the string ends in it. *)
Lemma readstr_turn_spec pa str i :
  (i + length pa <= length str)%nat ->
  exists str' i' stop, readstr_turn pa str i = Some (str', i', stop) /\ length str' = length str
  /\ if (stop : bool) then exists s tl, pa = s ++ Byte.x00 :: tl /\ Forall nonzero s
                 /\ take (S i') str' = take i str ++ s ++ [Byte.x00]
     else Forall nonzero pa /\ i' = (i + length pa)%nat /\ take i' str' = take i str ++ pa.
Proof.
  revert str i. induction pa as [|c pa IH]; intros str i Hl; cbn in *.
  - exists str, i, false. split_and!; [done|done|constructor|lia|]. by rewrite app_nil_r.
  - unfold put. destruct (Nat.ltb_spec i (length str)); [|lia]. cbn [mbind option_bind].
    assert (Et : take (S i) (<[i:=c]> str) = take i str ++ [c]).
    { rewrite (take_S_r _ _ c) by (apply list_lookup_insert_eq; lia).
      by rewrite take_insert, decide_False by lia. }
    destruct (Z.eqb_spec (byte.unsigned c) 0) as [Ec|Ec].
    + eexists _, i, true. split_and!; [done|by rewrite length_insert|]. exists [], pa.
      assert (c = Byte.x00) as -> by (by rewrite <- (byte.of_Z_unsigned c), Ec).
      split_and!; [done|constructor|exact Et].
    + destruct (IH (<[i:=c]> str) (S i)) as (str' & i' & stop & -> & IHl & IH'); [rewrite length_insert; lia|].
      rewrite length_insert in IHl. eexists str', i', stop. split_and!; [done|done|]. rewrite Et in IH'. destruct stop.
      * destruct IH' as (s & tl & -> & Hs & IH'). exists (c :: s), tl.
        split_and!; [done|by constructor|]. rewrite IH'. by rewrite <- app_assoc.
      * destruct IH' as (Hs & -> & IH'). split_and!; [by constructor|lia|].
        rewrite IH'. by rewrite <- app_assoc.
Qed.

Lemma buffer_str_app s tl : Forall nonzero s -> buffer_str (s ++ Byte.x00 :: tl) = Some s.
Proof.
  induction 1 as [|b s Hb _ IH]; [done|]. cbn. destruct (Z.eqb_spec (byte.unsigned b) 0); [done|].
  by rewrite IH.
Qed.

Lemma buffer_str_none s : Forall nonzero s -> buffer_str s = None.
Proof.
  induction 1 as [|b s Hb _ IH]; [done|]. cbn. destruct (Z.eqb_spec (byte.unsigned b) 0); [done|].
  by rewrite IH.
Qed.

Lemma first_nul_unique s1 tl1 s2 tl2 :
  Forall nonzero s1 -> Forall nonzero s2 -> s1 ++ Byte.x00 :: tl1 = s2 ++ Byte.x00 :: tl2 -> s1 = s2.
Proof.
  intros H1 H2 E. assert (Some s1 = Some s2); [|congruence].
  by rewrite <- (buffer_str_app s1 tl1), <- (buffer_str_app s2 tl2), E.
Qed.

(** No NUL in the first [n] bytes: the string goes past them. *)
Lemma nul_after n s tl : Forall nonzero (take n (s ++ Byte.x00 :: tl)) -> (n <= length s)%nat.
Proof.
  intros Hz. destruct (Nat.le_gt_cases n (length s)); [done|]. rewrite take_app in Hz.
  apply Forall_app in Hz as [_ Hz]. destruct (n - length s)%nat eqn:E0; [lia|]. by inversion Hz.
Qed.

(** The loop stays in the 64 bytes of the buffer, whatever the memory holds. *)
Lemma readstr_loop_bounds m addr count k i str fuel :
  (i + 4 * k = 64)%nat -> (k < fuel)%nat -> length str = 64%nat ->
  exists str', readstr_loop m addr count str i fuel = Some str' /\ length str' = 64%nat.
Proof.
  revert count i str fuel. induction k as [|k IH]; intros count i str [|fuel] Hi Hf Hl; try lia; cbn [readstr_loop].
  - destruct (Nat.leb_spec i 60); [lia|]. eauto.
  - destruct (Nat.leb_spec i 60); [|lia]. pose proof (length_peektext m (addr + count)) as Hw.
    destruct (readstr_turn_spec (peektext m (addr + count)) str i) as (str' & i' & stop & -> & Hl' & Ht); [lia|].
    destruct stop; [eauto with congruence|].
    destruct Ht as (_ & -> & _). apply IH; [lia|lia|congruence].
Qed.

(** The loop on memory that holds [rest]: the buffer gets the string and its end if it ends within the capacity, and
    no terminator otherwise. *)
Lemma readstr_loop_spec m addr k i str rest fuel :
  (i + 4 * k = 64)%nat -> (k < fuel)%nat -> length str = 64%nat ->
  (exists k, length rest = (4 * k)%nat) -> mapped_at m (addr + Z.of_nat i) rest ->
  Forall nonzero (take i str) ->
  (forall s tl, rest = s ++ Byte.x00 :: tl -> Forall nonzero s -> (length s < 4 * k)%nat ->
     exists tl', readstr_loop m addr (Z.of_nat i) str i fuel = Some ((take i str ++ s) ++ Byte.x00 :: tl'))
  /\ (Forall nonzero (take (4 * k) rest) -> (4 * k <= length rest)%nat ->
      readstr_loop m addr (Z.of_nat i) str i fuel = Some (take i str ++ take (4 * k) rest)).
Proof.
  revert i str rest fuel. induction k as [|k IH]; intros i str rest [|fuel] Hi Hf Hl Hk Hm Hn; try lia; cbn [readstr_loop].
  { destruct (Nat.leb_spec i 60); [lia|]. split; [intros; lia|]. intros _ _. rewrite take_0, app_nil_r.
    by rewrite take_ge by lia. }
  destruct (Nat.leb_spec i 60); [|lia].
  destruct Hk as [n Hk]. destruct n as [|n].
  { destruct rest; [|done]. split; [by intros []|cbn; lia]. }
  assert (Hw : length (take 4 rest) = 4%nat) by (rewrite length_take; lia).
  rewrite <- (take_drop 4 rest) in Hm. apply mapped_at_app in Hm as [Hm1 Hm2].
  rewrite Hw in Hm2. rewrite (peektext_mapped _ _ _ Hw Hm1).
  destruct (readstr_turn_spec (take 4 rest) str i ltac:(lia)) as (str' & i' & stop & -> & Hl' & Ht).
  destruct stop.
  - destruct Ht as (s' & tl' & E & Hs' & Ht).
    assert (Er : rest = s' ++ Byte.x00 :: tl' ++ drop 4 rest).
    { by rewrite <- (take_drop 4 rest) at 1; rewrite E, <- app_assoc. }
    split.
    + intros s tl Es Hs _. assert (s = s') as ->.
      { eapply first_nul_unique; [done|done|]. etransitivity; [symmetry; exact Es|exact Er]. }
      exists (drop (S i') str'). f_equal. rewrite <- (take_drop (S i') str') at 1. by rewrite Ht, <- !app_assoc.
    + intros Hz _. rewrite Er in Hz. apply nul_after in Hz. assert (length s' < 4)%nat; [|lia].
      rewrite <- Hw, E, length_app. cbn. lia.
  - destruct Ht as (Hs' & -> & Ht). rewrite Hw in *. replace (Z.of_nat i + 4) with (Z.of_nat (i + 4)) by lia.
    destruct (IH (i + 4)%nat str' (drop 4 rest) fuel) as [IH1 IH2]; [lia|lia|congruence| | | |].
    { exists n. rewrite length_drop. lia. }
    { by replace (addr + Z.of_nat (i + 4)) with (addr + Z.of_nat i + Z.of_nat 4) by lia. }
    { rewrite Ht. by apply Forall_app. }
    split.
    + intros s tl Es Hs Hlen. pose proof (nul_after 4 s tl ltac:(congruence)).
      destruct (IH1 (drop 4 s) tl) as [tl' E];
        [by rewrite Es, drop_app_le by lia|by apply Forall_drop|rewrite length_drop; lia|].
      exists tl'. by rewrite E, Ht, Es, take_app_le, <- !app_assoc, (app_assoc (take 4 s)), take_drop by lia.
    + intros Hz Hlen. replace (4 * S k)%nat with (4 + 4 * k)%nat in * by lia.
      rewrite <- take_take_drop, Forall_app in Hz. destruct Hz as [_ Hz].
      rewrite IH2, Ht, <- app_assoc, take_take_drop; [done|exact Hz|rewrite length_drop; lia].
Qed.

Lemma strcmp_eq_spec s tl sym_name :
  Forall nonzero s -> Forall nonzero sym_name ->
  strcmp_eq (s ++ Byte.x00 :: tl) sym_name = Some (bool_decide (s = sym_name)).
Proof.
  intros Hs. revert sym_name. induction Hs as [|b s Hb _ IH]; intros [|c name] Hn; cbn [app strcmp_eq]; try done.
  - rewrite bool_decide_false by done. inversion Hn as [|? ? Hc]; subst.
    destruct (Byte.eqb Byte.x00 c) eqn:E; [|done]. apply Byte.byte_dec_bl in E. by subst.
  - destruct (Z.eqb_spec (byte.unsigned b) 0); [done|]. by rewrite bool_decide_false.
  - inversion Hn; subst. destruct (Byte.eqb b c) eqn:E.
    + apply Byte.byte_dec_bl in E as ->. rewrite IH by done. f_equal. apply bool_decide_ext. naive_solver.
    + rewrite bool_decide_false; [done|]. intros [= -> _]. by rewrite Byte.byte_dec_lb in E.
Qed.

(** What [ptrace_readstr] returns on a string of less than 64 bytes. *)
Lemma ptrace_readstr_short m a garbage s :
  length garbage = 64%nat -> string_at m a s -> (length s < 64)%nat ->
  exists tl, ptrace_readstr m a garbage = Some (s ++ Byte.x00 :: tl).
Proof.
  intros Hg (Hs & pad & k & Hl & Hm) Hlen. unfold ptrace_readstr.
  edestruct (readstr_loop_spec m a 16 0 garbage (s ++ Byte.x00 :: pad) (S (length garbage))) as [H1 _];
    [lia|lia|done|by eexists|by rewrite Z.add_0_r|by rewrite take_0|].
  destruct (H1 s pad eq_refl Hs ltac:(lia)) as [tl E]. rewrite take_0 in E. by exists tl.
Qed.

Lemma search_symbol_spec garbage m g lm lib sym_name i tab :
  length garbage = 64%nat -> Forall nonzero sym_name ->
  string_at m (l_name lm) lib -> (length lib < 64)%nat ->
  table_at m g i tab -> Forall (fun e => (length e.2 < 64)%nat) tab ->
  search_symbol garbage m g lm sym_name i (length tab)
  = (match lookup_symbol sym_name tab with Some _ => [Lib_name lib] | None => [] end,
     Done (lookup_symbol sym_name tab)).
Proof.
  intros Hg Hname Hlib Hlibl. revert i. induction tab as [|[sym s] tab IH]; intros i Ht Hlen; [done|].
  cbn [table_at] in Ht. destruct Ht as (Hsym & Hs & Ht). apply Forall_cons in Hlen as [Hl Hlen'].
  cbn in Hl. cbn [search_symbol length]. rewrite Hsym. unfold lookup_symbol in *. cbn [find].
  specialize (IH (i + 1) Ht Hlen'). unfold usable in *. cbn [fst snd].
  destruct ((st_name sym =? 0) || (st_size sym =? 0) || (st_value sym =? 0)); cbn [negb andb].
  - by rewrite IH.
  - specialize (Hs eq_refl). destruct (ptrace_readstr_short m _ garbage s Hg Hs Hl) as [tl ->].
    destruct Hs as [Hs _]. cbn [or_undef]. rewrite bind_ret_l, strcmp_eq_spec by done. cbn [or_undef]. rewrite bind_ret_l.
    case_bool_decide; [|by rewrite IH].
    destruct (ptrace_readstr_short m _ garbage lib Hg Hlib Hlibl) as [tl' ->].
    destruct Hlib as [Hlib _]. cbn [mbind option_bind]. by rewrite buffer_str_app.
Qed.

(** ** Lemmas: dynamic sections *)

Lemma sym_info_section m a g ds fuel :
  section_at m a ds -> (length ds < fuel)%nat ->
  sym_info_loop m a g fuel = Some (fold_left (fun g d => sym_info_case m d g) ds g).
Proof.
  revert a g fuel. induction ds as [|d ds IH]; intros a g [|fuel] Hs Hf; cbn [length] in Hf; try lia;
    cbn [sym_info_loop fold_left].
  - cbn [section_at] in Hs. by rewrite Hs.
  - cbn [section_at] in Hs. destruct Hs as (-> & Hd & Hs). apply Z.eqb_neq in Hd. rewrite Hd.
    apply IH; [done|lia].
Qed.

(** A variable keeps its value when no entry has a tag that sets it. *)
Lemma sym_info_keeps m d g :
  (d_tag d <> 4 -> nchains (sym_info_case m d g) = nchains g)
  /\ (d_tag d <> 9 -> d_tag d <> 19 -> relsize (sym_info_case m d g) = relsize g).
Proof.
  destruct g as [nc st str jr trs rs nr]. unfold sym_info_case. destruct (d_tag d) as [|p|p]; [done| |done].
  do 5 (destruct p as [p|p|]; try (by split); try (by split; intros; done)).
Qed.

Lemma wait_until_None stop stat answers :
  stop stat = false -> Forall (fun a => match a with Some st => stop st = false | None => True end) answers ->
  wait_until stop stat answers = None.
Proof.
  intros Hs Ha. revert stat Hs. induction Ha as [|a answers Ha _ IH]; intros stat Hs; cbn; rewrite Hs; [done|].
  apply IH. by destruct a.
Qed.

Lemma wait_until_suffix stop stat answers rest :
  wait_until stop stat answers = Some rest -> exists used, answers = used ++ rest.
Proof.
  revert stat. induction answers as [|a answers IH]; intros stat; cbn.
  - destruct (stop stat); [|done]. intros [= <-]. by exists [].
  - destruct (stop stat); [intros [= <-]; by exists []|]. intros [used ->]%IH. by exists (a :: used).
Qed.

(** ** Properties *)

(** [ptrace_read] stores whole words: it fills [len] rounded up to a multiple of 4, never less, and
    overruns a destination of [len] bytes by up to 3 bytes exactly when 4 does not divide [len]; where all
    those bytes are mapped, what it stores is what lies there. *)
Theorem ptrace_read_exact (m : memory) (addr len : Z) :
  0 <= len ->
  len <= Z.of_nat (length (ptrace_read m addr len)) < len + 4
  /\ (Z.of_nat (length (ptrace_read m addr len)) = len <-> len mod 4 = 0)
  /\ (forall bs, Z.of_nat (length bs) = len -> len mod 4 = 0 -> mapped_at m addr bs ->
        ptrace_read m addr len = bs).
Proof.
  intros Hl. unfold ptrace_read. rewrite length_read_words.
  pose proof (turns_le len Hl) as Ht. split; [lia|].
  split; [Z.to_euclidean_division_equations; lia|].
  intros bs Hb H4 Hm. apply read_words_mapped; [|done].
  pose proof (Z.div_mod len 4 ltac:(lia)). lia.
Qed.

(** C32. [ptrace_push] copies whole words. With a stack pointer that is a multiple of 4 (the 32-bit ABI) and enough
    mapped stack: when the source buffer has the bytes of the last whole word, no write fails, the block can be read
    back at the address returned, which is the new stack pointer, aligned, and every byte outside the gap between the
    two pointers keeps its value; when it has not, as for a block of exactly [size] bytes and a [size] that is no multiple
    of 4, the last [memcpy] reads past the buffer. *)
Theorem ptrace_push_stores (m : memory) (regs : user_regs_struct) (paddr : list byte) (size : Z) :
  0 <= size -> esp regs mod 4 = 0 -> size + 4 <= esp regs < 2 ^ 32 ->
  (forall x, esp regs - size - 4 <= x < esp regs -> is_Some (m !! x)) ->
  (4 * Z.of_nat (turns size) <= Z.of_nat (length paddr) ->
   exists m' sp, ptrace_push m regs paddr size false
      = ([], Done (m', Regs (eax regs) (ecx regs) (edx regs) sp (eip regs), sp))
    /\ sp mod 4 = 0 /\ esp regs - size - 4 < sp <= esp regs - size
    /\ mapped_at m' sp (take (Z.to_nat size) paddr)
    /\ (forall x, x < sp \/ esp regs <= x -> m' !! x = m !! x))
  /\ (Z.of_nat (length paddr) < 4 * Z.of_nat (turns size) ->
      ptrace_push m regs paddr size false = ([], Undefined Out_of_bounds)).
Proof.
  intros Hs Ha Hb Hm. pose proof (turns_le size Hs) as Ht.
  unfold ptrace_push, ptrace_write. rewrite (wrapU_small 32 (esp regs - size)) by lia.
  set (sp := esp regs - size - (esp regs - size) mod 4).
  assert (H4 : sp mod 4 = 0) by (subst sp; Z.to_euclidean_division_equations; lia).
  assert (Hsp : esp regs - size - 4 < sp <= esp regs - size).
  { pose proof (Z.mod_pos_bound (esp regs - size) 4 ltac:(lia)). subst sp. lia. }
  assert (Hend : sp + 4 * Z.of_nat (turns size) <= esp regs) by (Z.to_euclidean_division_equations; lia).
  split; intros Hl.
  - destruct (write_words_spec m sp paddr (turns size)) as (m' & -> & Hmap & Hfr);
      [lia|lia|lia|intros; apply Hm; lia|].
    exists m', sp. split; [done|]. split; [done|]. split; [done|]. split.
    + intros i b Hi. apply Hmap. apply lookup_take_Some in Hi as [Hi Hlt].
      apply lookup_take_Some. split; [done|]. lia.
    + intros x Hx. apply Hfr. lia.
  - by rewrite write_words_short by (lia || (intros; apply Hm; lia)).
Qed.

(** C33. [ptrace_readstr] never writes past its 64 bytes, whatever lies in the tracee. It reads a C string of less than
    64 bytes that lies in words that are mapped whole exactly; from 64 bytes on it returns the first 64 without a
    terminator, which whoever reads the result as a string runs past. *)
Theorem ptrace_readstr_reads (m : memory) (addr : Z) (garbage : list byte) :
  length garbage = 64%nat ->
  exists str, ptrace_readstr m addr garbage = Some str /\ length str = 64%nat
    /\ forall s, string_at m addr s ->
         ((length s < 64)%nat -> buffer_str str = Some s)
         /\ ((64 <= length s)%nat -> str = take 64 s /\ buffer_str str = None).
Proof.
  intros Hg. destruct (readstr_loop_bounds m addr 0 16 0 garbage (S (length garbage))) as (str & E & Hl); [lia|lia|done|].
  exists str. split_and!; [done|done|]. intros s Hs. split; intros Hlen.
  - destruct (ptrace_readstr_short m addr garbage s Hg Hs Hlen) as [tl E']. destruct Hs as [Hs _].
    unfold ptrace_readstr in E'. rewrite E in E'. injection E' as ->. by apply buffer_str_app.
  - destruct Hs as (Hs & pad & k & Hl' & Hm).
    edestruct (readstr_loop_spec m addr 16 0 garbage (s ++ Byte.x00 :: pad) (S (length garbage))) as [_ H2];
      [lia|lia|done|by eexists|by rewrite Z.add_0_r|by rewrite take_0|].
    rewrite take_app_le, take_0 in H2 by lia.
    assert (Hn : Forall nonzero (take 64 s)) by by apply Forall_take.
    change (Z.of_nat 0) with 0 in H2. rewrite E in H2. injection H2 as ->; [|done|rewrite length_app; lia].
    split; [done|]. by apply buffer_str_none.
Qed.

(** C14. The symbol search is the lookup in the table: on a symbol table in memory whose usable entries have
    names of less than 64 bytes, the loop of [find_symbol_in_linkmap] stays inside its buffers and returns
    the first usable entry with the name asked for, or none, and prints the library's name exactly when it
    found one. *)
Theorem search_symbol_is_lookup (garbage : list byte) (m : memory) (g : globals) (lm : link_map)
    (lib sym_name : list byte) (tab : list (Elf32_Sym * list byte)) :
  length garbage = 64%nat -> Forall nonzero sym_name ->
  string_at m (l_name lm) lib -> (length lib < 64)%nat ->
  table_at m g 0 tab -> Forall (fun e => (length e.2 < 64)%nat) tab ->
  nchains g = Z.of_nat (length tab) ->
  search_symbol garbage m g lm sym_name 0 (Z.to_nat (nchains g))
  = (match lookup_symbol sym_name tab with Some _ => [Lib_name lib] | None => [] end,
     Done (lookup_symbol sym_name tab)).
Proof. intros Hg Hn Hl Hll Ht Hlen ->. rewrite Nat2Z.id. by apply search_symbol_spec. Qed.

(** [get_sym_info] on a well-formed dynamic section: it runs through the entries once, in order, and
    ends; and since the variables are global, what the section does not set keeps the value of the library
    before: without a [DT_HASH] entry the number of symbols is that of the previous library, and without an
    entry for the size of a relocation, in a first library, the final division is by zero. *)
Theorem get_sym_info_section (m : memory) (lm : link_map) (g : globals) (ds : list Elf32_Dyn) (fuel : nat) :
  section_at m (l_ld lm) ds -> (length ds < fuel)%nat ->
  let g' := fold_left (fun g d => sym_info_case m d g) ds g in
  get_sym_info m lm g fuel = Some (set_nrels g')
  /\ (Forall (fun d => d_tag d <> 4) ds -> nchains g' = nchains g)
  /\ (Forall (fun d => d_tag d <> 9 /\ d_tag d <> 19) ds -> relsize g = 0 ->
        get_sym_info m lm g fuel = Some ([], Undefined Division_by_zero)).
Proof.
  intros Hs Hf g'. assert (E : get_sym_info m lm g fuel = Some (set_nrels g')).
  { unfold get_sym_info. by rewrite (sym_info_section m _ g ds fuel Hs Hf). }
  split; [done|]. clear Hs Hf. split.
  - intros Hd. subst g'. clear E. revert g. induction Hd as [|d ds Hd _ IH]; intros g; [done|]. cbn [fold_left].
    rewrite IH. by apply sym_info_keeps.
  - intros Hd Hr. rewrite E. unfold set_nrels.
    assert (relsize g' = 0) as ->; [|done]. subst g'. clear E. revert g Hr.
    induction Hd as [|d ds [H9 H19] _ IH]; intros g Hr; [done|]. cbn [fold_left]. apply IH.
    by rewrite (proj2 (sym_info_keeps m d g) H9 H19).
Qed.

(** [ptrace_call] does not return from a call that comes back: when the tracee stops at the return
    address, as the call intends, and is never killed by a signal, the wait for [WIFSIGNALED] goes on through
    every answer of [waitpid], however many there are. *)
Theorem ptrace_call_never_returns (stat1 stat2 : Z) (answers : list (option Z)) :
  WIFSIGNALED stat2 = false ->
  Forall (fun a => match a with Some st => WIFSIGNALED st = false | None => True end) answers ->
  ptrace_call_waits stat1 stat2 answers = None.
Proof.
  intros H2 Ha. unfold ptrace_call_waits, ptrace_cont.
  destruct (wait_until WIFSTOPPED stat1 answers) as [rest|] eqn:E; [|done]. cbn.
  apply wait_until_suffix in E as [used ->]. apply Forall_app in Ha as [_ Ha]. by apply wait_until_None.
Qed.

(** ** Witnesses *)

Fixpoint store (a : Z) (bs : list byte) (m : memory) : memory :=
  match bs with [] => m | b :: bs' => <[a := b]> (store (a + 1) bs' m) end.

Fixpoint lies_at (m : memory) (a : Z) (bs : list byte) : bool :=
  match bs with
  | [] => true
  | b :: bs' => bool_decide (m !! wrapU 32 a = Some b) && lies_at m (a + 1) bs'
  end.

Lemma lies_at_mapped m a bs : lies_at m a bs = true -> mapped_at m a bs.
Proof.
  revert a. induction bs as [|b bs IH]; intros a; cbn; [by intros _ []|].
  intros [Hb Hbs]%andb_true_iff. apply bool_decide_eq_true in Hb. intros [|i] c Hc; cbn in Hc.
  - rewrite Z.add_0_r. congruence.
  - rewrite Nat2Z.inj_succ. replace (a + Z.succ (Z.of_nat i)) with (a + 1 + Z.of_nat i) by lia.
    by apply IH.
Qed.

(** Bytes given by their values. *)
Definition bytes (zs : list Z) : list byte := map byte.of_Z zs.

Definition name_mtrace : list byte := bytes [109; 116; 114; 97; 99; 101].

Definition name_foo : list byte := bytes [102; 111; 111].

(** Two symbols at 256, their names at 516 and 520, the name of the library at 768, a dynamic section with
    one entry at 1024, and a stack from 4096 to 4112. *)
Definition image : memory :=
  store 256 (le_split 4 4 ++ le_split 4 64 ++ le_split 4 8 ++ le_split 4 0
             ++ le_split 4 8 ++ le_split 4 96 ++ le_split 4 8 ++ le_split 4 0)
  (store 516 (name_foo ++ bytes [0] ++ name_mtrace ++ bytes [0; 0])
  (store 768 (name_foo ++ bytes [0])
  (store 1024 (le_split 4 6 ++ le_split 4 256 ++ le_split 4 0 ++ le_split 4 0)
  (store 4096 (bytes (repeat 0 16)) ∅)))).

Definition image_globals : globals := Globals 2 256 512 0 0 0 0.

Definition image_map : link_map := Lm 1000 768 1024 0 0.

Definition image_table : list (Elf32_Sym * list byte) :=
  [(Sym 4 64 8, name_foo); (Sym 8 96 8, name_mtrace)].

Definition heap_garbage : list byte := repeat Byte.xff 64.

Lemma image_foo a k : lies_at image a (name_foo ++ Byte.x00 :: k) = true -> length k = 0%nat -> string_at image a name_foo.
Proof.
  intros Hl Hk. split; [by repeat constructor|]. exists k, 1%nat. split; [by destruct k|].
  by apply lies_at_mapped.
Qed.

Lemma image_mtrace : string_at image 520 name_mtrace.
Proof. split; [by repeat constructor|]. exists [Byte.x00], 2%nat. split; [done|]. apply lies_at_mapped. by vm_compute. Qed.

Lemma ptrace_read_exact_witness : ptrace_read image 520 8 = name_mtrace ++ bytes [0; 0].
Proof.
  apply (ptrace_read_exact image 520 8); [lia|done|done|]. apply lies_at_mapped. by vm_compute.
Defined.

Lemma ptrace_push_stores_witness :
  let push := fun paddr => ptrace_push image (Regs 0 0 0 4112 0) paddr 5 false in
  (exists m' sp, push (name_foo ++ bytes [0; 1; 0; 0; 0]) = ([], Done (m', Regs 0 0 0 sp 0, sp))
    /\ sp mod 4 = 0 /\ 4112 - 5 - 4 < sp <= 4112 - 5
    /\ mapped_at m' sp (take (Z.to_nat 5) (name_foo ++ bytes [0; 1; 0; 0; 0]))
    /\ (forall x, x < sp \/ 4112 <= x -> m' !! x = image !! x))
  /\ push (name_foo ++ bytes [0; 1]) = ([], Undefined Out_of_bounds).
Proof.
  assert (Hm : forall x, 4112 - 5 - 4 <= x < 4112 -> is_Some (image !! x)).
  { intros x Hx.
    assert (Hc : x = 4103 \/ x = 4104 \/ x = 4105 \/ x = 4106 \/ x = 4107 \/ x = 4108 \/ x = 4109 \/ x = 4110 \/ x = 4111)
      by lia.
    destruct Hc as [->|[->|[->|[->|[->|[->|[->|[->| ->]]]]]]]]; vm_compute; eauto. }
  split.
  - apply (ptrace_push_stores image (Regs 0 0 0 4112 0) (name_foo ++ bytes [0; 1; 0; 0; 0]) 5);
      [lia|done|cbn; lia|exact Hm|vm_compute; discriminate].
  - apply (ptrace_push_stores image (Regs 0 0 0 4112 0) (name_foo ++ bytes [0; 1]) 5);
      [lia|done|cbn; lia|exact Hm|by vm_compute].
Defined.

Lemma ptrace_readstr_reads_witness :
  exists str, ptrace_readstr image 520 heap_garbage = Some str /\ length str = 64%nat /\ buffer_str str = Some name_mtrace.
Proof.
  destruct (ptrace_readstr_reads image 520 heap_garbage eq_refl) as (str & E & Hl & Hs). exists str.
  split; [exact E|]. split; [exact Hl|]. apply (Hs name_mtrace image_mtrace). cbn. lia.
Defined.

Lemma search_symbol_is_lookup_witness :
  search_symbol heap_garbage image image_globals image_map name_mtrace 0 (Z.to_nat (nchains image_globals))
  = ([Lib_name name_foo], Done (Some (Sym 8 96 8))).
Proof.
  apply (search_symbol_is_lookup heap_garbage image image_globals image_map name_foo name_mtrace image_table);
    [done|by repeat constructor|apply (image_foo _ []); by vm_compute|cbn; lia| |by repeat constructor; cbn; lia|done].
  split; [by vm_compute|]. split; [intros _; apply (image_foo _ []); by vm_compute|].
  split; [by vm_compute|]. split; [intros _; apply image_mtrace|done].
Defined.

Lemma get_sym_info_section_witness :
  get_sym_info image image_map (Globals 0 0 0 0 0 0 0) 2 = Some ([], Undefined Division_by_zero).
Proof.
  apply (get_sym_info_section image image_map (Globals 0 0 0 0 0 0 0) [Dyn 6 256] 2);
    [|cbn; lia|by repeat constructor|done].
  split; [by vm_compute|]. split; [done|by vm_compute].
Defined.

(** The tracee stops with SIGSEGV at the return address, and nothing happens after that. *)
Lemma ptrace_call_never_returns_witness :
  ptrace_call_waits 0 0x0b7f [None; Some 0x0b7f; None; None] = None.
Proof. apply ptrace_call_never_returns; [done|]. by repeat constructor. Defined.
