(* ===== verification/Backtrace.v ===== *)
(** * The backtrace of the accounting ([src/src/trace_backtrace.h], [src/src/mem_checker.cpp])

    [mem_checker::add] prints the names of the functions on the stack of its caller. libunwind and the demangler
    are arguments: what each call of [unw_step] returns, and what is known of each frame. *)

From S2P Require Import Prelude.
From S2P Require Import Text.
From Stdlib Require String.
Import String.StringSyntax.
#[local] Open Scope list_scope.

(** A frame: what [unw_get_proc_name] returns, the string in [symbol] after the call (which holds
    ["<unknown>"] when the call writes nothing), and what the demangler makes of it. *)
Record frame : Type := Frame {
  proc_name : Z;
  symbol : list byte;
  demangled : option (list byte);
}.

(** The lines [add] prints. *)
Inductive line : Type :=
| Begin (tid mem : Z)
| Stack (i : Z) (name : list byte) (tid : Z)
| End_ (tid : Z).

(** [name] *)
Definition frame_name (f : frame) : list byte :=
  if proc_name f =? 0 then default (symbol f) (demangled f) else symbol f.

Definition os_malloc : list byte := lit "os::malloc"%string.

Section backtrace.

(** The [k]-th call of [unw_step], and the frame it goes to. *)
Context (unw_step : nat -> Z) (frames : nat -> frame).

(** The loop, before the [k]-th call: none when the fuel does not suffice. *)
Fixpoint backtrace_loop (fuel k : nat) (stacks : list (list byte)) (rr : bool) : option (list (list byte) * bool) :=
  match fuel with
  | O => None
  | S fuel' =>
      if unw_step k =? 0 then Some (stacks, rr)
      else
        let name := frame_name (frames k) in
        backtrace_loop fuel' (S k) (stacks ++ [name]) (if strncmp_prefix os_malloc name then true else rr)
  end.

(** [trace_backtrace]: the function ends without a [return], although it is declared to return a [bool]: what
    it leaves in [stacks], and how it ends. *)
Definition trace_backtrace (fuel : nat) (stacks : list (list byte)) : option (list (list byte) * flow bool) :=
  '(stacks', rr) ← backtrace_loop fuel 0 stacks false; Some (stacks', Undefined Missing_return).

Fixpoint print_stacks (i : Z) (tid : Z) (stacks : list (list byte)) : list line :=
  match stacks with
  | [] => []
  | name :: stacks' => Stack i (c_str name) tid :: print_stacks (i + 1) tid stacks'
  end.

(** What a caller that does not use the result of [trace_backtrace] gets: the behaviour is undefined, but compiled
    without optimisation, as [make.sh] compiles it, the function falls through its end and returns. *)
Definition goes_on {A} (falls_through : bool) (r : flow bool) (a : A) : flow A :=
  match r with
  | Undefined e => if falls_through then Done a else Undefined e
  | Raised e => Raised e
  | Done _ => Done a
  end.

(** The report of [add]. *)
Definition add_report (falls_through : bool) (fuel : nat) (tid mem : Z) : option (flow (list line)) :=
  '(stacks, r) ← trace_backtrace fuel [];
  Some (goes_on falls_through r ([Begin tid mem] ++ print_stacks 0 tid stacks ++ [End_ tid])).

(** ** Lemmas *)

Lemma backtrace_loop_stops n k stacks rr fuel :
  (forall j, (k <= j < k + n)%nat -> unw_step j <> 0) -> unw_step (k + n)%nat = 0 -> (n < fuel)%nat ->
  exists rr', backtrace_loop fuel k stacks rr
    = Some (stacks ++ map (fun j => frame_name (frames j)) (seq k n), rr').
Proof.
  revert k stacks rr fuel. induction n as [|n IH]; intros k stacks rr [|fuel] Hn H0 Hf; try lia; cbn [backtrace_loop].
  - rewrite Nat.add_0_r in H0. rewrite H0. cbn. rewrite app_nil_r. by eexists.
  - destruct (Z.eqb_spec (unw_step k) 0) as [E|_]; [by destruct (Hn k); [lia|]|].
    destruct (IH (S k) (stacks ++ [frame_name (frames k)])
      (if strncmp_prefix os_malloc (frame_name (frames k)) then true else rr) fuel) as [rr' ->].
    + intros j Hj. apply Hn. lia.
    + by replace (S k + n)%nat with (k + S n)%nat by lia.
    + lia.
    + exists rr'. cbn [seq map]. by rewrite <- app_assoc.
Qed.

Lemma print_stacks_lookup i tid stacks j :
  print_stacks i tid stacks !! j = (fun name => Stack (i + Z.of_nat j) (c_str name) tid) <$> stacks !! j.
Proof.
  revert i j. induction stacks as [|name stacks IH]; intros i [|j]; cbn; try done.
  - by rewrite Z.add_0_r.
  - rewrite IH. destruct (stacks !! j); cbn; [|done]. do 2 f_equal. lia.
Qed.

Lemma length_print_stacks i tid stacks : length (print_stacks i tid stacks) = length stacks.
Proof. revert i. induction stacks as [|name stacks IH]; intros i; cbn; [done|]. by rewrite IH. Qed.

(** An unwinding that ends is reported, given fuel enough. *)
Lemma add_report_ends falls_through tid mem :
  (exists n, unw_step n = 0) ->
  exists fuel0, forall fuel, (fuel0 <= fuel)%nat -> exists r, add_report falls_through fuel tid mem = Some r
    /\ (falls_through = true -> exists lines, r = Done lines).
Proof.
  intros [n Hn]. assert (exists m, unw_step m = 0 /\ forall j, (j < m)%nat -> unw_step j <> 0) as (m & Hm & Hlt).
  { induction n as [n IH] using lt_wf_ind. destruct (decide (Exists (fun j => unw_step j = 0) (seq 0 n))) as [He|Hne].
    - apply Exists_exists in He as (j & Hj & E). apply elem_of_seq in Hj. apply (IH j); [lia|done].
    - exists n. split; [done|]. intros j Hj E. apply Hne, Exists_exists. exists j. split; [apply elem_of_seq; lia|done]. }
  exists (S m). intros fuel Hf. destruct (backtrace_loop_stops m 0 [] false fuel) as [rr Hl]; [intros; apply Hlt; lia|done|lia|].
  unfold add_report, trace_backtrace. rewrite Hl. cbn. eexists. split; [done|]. intros ->. cbn. eauto.
Qed.

(** ** Properties *)

(** When libunwind gives [n] frames and then the end of the stack, the loop ends, and the report has, between
    its first and its last line, one line per frame, numbered from 0, with its demangled name when it has
    one, if the function falls through its end; but [trace_backtrace] itself never returns a value. *)
Theorem backtrace_reports (n fuel : nat) (tid mem : Z) :
  (forall j, (j < n)%nat -> unw_step j <> 0) -> unw_step n = 0 -> (n < fuel)%nat ->
  exists lines, add_report true fuel tid mem = Some (Done (Begin tid mem :: lines ++ [End_ tid])) /\ length lines = n
    /\ add_report false fuel tid mem = Some (Undefined Missing_return)
    /\ (forall j, (j < n)%nat -> lines !! j = Some (Stack (Z.of_nat j) (c_str (frame_name (frames j))) tid))
    /\ (exists stacks, trace_backtrace fuel [] = Some (stacks, Undefined Missing_return)).
Proof.
  intros Hn H0 Hf. destruct (backtrace_loop_stops n 0 [] false fuel) as [rr Hl]; [intros; apply Hn; lia|done..|].
  cbn [app] in Hl. assert (Ht : trace_backtrace fuel [] =
    Some (map (fun j => frame_name (frames j)) (seq 0 n), Undefined Missing_return)).
  { unfold trace_backtrace. by rewrite Hl. }
  exists (print_stacks 0 tid (map (fun j => frame_name (frames j)) (seq 0 n))). split_and!.
  - unfold add_report. by rewrite Ht.
  - by rewrite length_print_stacks, length_map, length_seq.
  - unfold add_report. by rewrite Ht.
  - intros j Hj. rewrite print_stacks_lookup, list_lookup_fmap, lookup_seq_lt by done. done.
  - eauto.
Qed.

(** A libunwind that fails goes on failing: once [unw_step] gives errors only, the loop never ends, however
    much fuel it has. *)
Theorem backtrace_never_ends (fuel : nat) :
  (forall j, unw_step j <> 0) -> trace_backtrace fuel [] = None.
Proof.
  intros Hn. assert (H : forall fuel k stacks rr, backtrace_loop fuel k stacks rr = None).
  { clear fuel. induction fuel as [|fuel IH]; intros k stacks rr; cbn; [done|].
    destruct (Z.eqb_spec (unw_step k) 0) as [E|_]; [by destruct (Hn k)|apply IH]. }
  unfold trace_backtrace. by rewrite H.
Qed.

End backtrace.

(** ** Witnesses *)

Definition demo_frames (k : nat) : frame := Frame 0 [Byte.x66] (if (k =? 0)%nat then Some [Byte.x67] else None).

Lemma backtrace_reports_witness :
  exists lines, add_report (fun k => if (k <? 2)%nat then 1 else 0) demo_frames true 5 7 16
      = Some (Done (Begin 7 16 :: lines ++ [End_ 7]))
    /\ lines !! 0%nat = Some (Stack 0 [Byte.x67] 7) /\ length lines = 2%nat.
Proof.
  destruct (backtrace_reports (fun k => if (k <? 2)%nat then 1 else 0) demo_frames 2 5 7 16)
    as (lines & H1 & H2 & _ & H3 & _); [by intros [|[|]] ?; [done|done|lia]|done|lia|].
  exists lines. split_and!; [done|exact (H3 0%nat ltac:(lia))|done].
Defined.

Lemma backtrace_never_ends_witness : trace_backtrace (fun _ => -1) demo_frames 1000 [] = None.
Proof. by apply (backtrace_never_ends (fun _ => -1) demo_frames 1000). Defined.
