(* ===== verification/MemChecker.v ===== *)
(** * The allocation accounting ([src/src/mem_checker.cpp], [src/src/mem_checker.h])

    [mem_checker::add] and [mem_checker::del] keep a running total [mem_] (on [uint64_t]) and a map
    [map_] from addresses to sizes (on [int64_t]), inside scopes guarded by a [trace_lock]. The class is
    the same in [src/src/trace_util.h].

    [trace_lock]'s constructor takes the [int] it locks by value: its compare-and-swap acts on its own
    parameter, [m_mutex_] is only ever read, and the destructor's compare-and-swap goes through a pointer
    to a parameter that is gone. The first part of the file models the two operations as functions of
    the checker's state, as they run when nothing interferes; the second models them as a machine whose
    steps are the reads and writes of the shared variables, which the lock does not order. A [std::map]
    operation is one step, and the address of the node it allocates is a choice of the environment. *)

From S2P Require Import Prelude.
From S2P Require Import Backtrace.

(** ** State *)

(** [map_] keeps, with each size, the address of the tree node that holds it. *)
Record checker : Type := Checker {
  m_mutex_ : Z;
  mem_ : Z;
  map_ : gmap Z (Z * Z);
}.

Definition checker_init : checker := {| m_mutex_ := 0; mem_ := 0; map_ := ∅ |}.

Definition set_mem (m : Z) (c : checker) : checker := Checker (m_mutex_ c) m (map_ c).

Definition set_map (m : gmap Z (Z * Z)) (c : checker) : checker := Checker (m_mutex_ c) (mem_ c) m.

(** ** The operations *)

(** [trace_lock(int mutex)]: compare-and-swaps its parameter from 0 to 1 until it succeeds. The parameter
    is a private copy: the constructor returns at once when the copy is 0 and never otherwise. The result
    is the value it leaves in the copy. *)
Definition trace_lock (mutex : Z) : option Z := if mutex =? 0 then Some 1 else None.

(** [map_.insert(std::make_pair(p, len))]: [node] is the address of the new node, and a key that is
    present keeps its old value. *)
Definition map_insert (p len node : Z) (c : checker) : checker :=
  match map_ c !! p with
  | Some _ => c
  | None => set_map (<[p := (wrapS 64 len, node)]> (map_ c)) c
  end.

(** The first three lines of [mem_checker::add], its accounting; [None] when the lock spins for ever. *)
Definition account (p len node : Z) (c : checker) : option checker :=
  _ ← trace_lock (m_mutex_ c);
  Some (map_insert p len node (set_mem (wrapU 64 (mem_ c + len)) c)).

(** What libunwind and the demangler answer to a call of [trace_backtrace], and who makes it. *)
Record unwinding : Type := Unwinding {
  unw_step : nat -> Z;
  frames : nat -> frame;
  caller : Z;
}.

(** [mem_checker::add]: the accounting, then the report, whose unwinding has [fuel] turns: [None] when it does not end
    within them, or when the lock spins. *)
Definition add (falls_through : bool) (fuel : nat) (u : unwinding) (p len node : Z) (c : checker)
    : option (checker * flow (list line)) :=
  c' ← account p len node c;
  r ← add_report (unw_step u) (frames u) falls_through fuel (caller u) (mem_ c');
  Some (c', r).

(** libunwind comes to the end of the stack. *)
Definition ends (u : unwinding) : Prop := exists n, unw_step u n = 0.

(** [mem_checker::del], up to the release of the erased node, whose address is returned. *)
Definition del (p : Z) (c : checker) : option (checker * option Z) :=
  if p =? 0 then Some (c, None)
  else
    _ ← trace_lock (m_mutex_ c);
    match map_ c !! p with
    | None => Some (c, None)
    | Some (len, node) =>
        Some (set_map (delete p (map_ c)) (set_mem (wrapU 64 (mem_ c - len)) c), Some node)
    end.

(** ** Histories of calls *)

Inductive op : Type :=
| Add (p len node : Z) (u : unwinding)
| Del (p : Z).

(** What a call does to the accounting. *)
Definition effect (o : op) (c : checker) : option checker :=
  match o with
  | Add p len node _ => account p len node c
  | Del p => fst <$> del p c
  end.

Fixpoint effects (os : list op) (c : checker) : option checker :=
  match os with
  | [] => Some c
  | o :: os' => c' ← effect o c; effects os' c'
  end.

(** A complete call, and a sequence of them. *)
Definition apply_op (falls_through : bool) (fuel : nat) (o : op) (c : checker) : option checker :=
  match o with
  | Add p len node u =>
      '(c', r) ← add falls_through fuel u p len node c;
      match r with Done _ => Some c' | _ => None end
  | Del p => fst <$> del p c
  end.

Fixpoint apply_ops (falls_through : bool) (fuel : nat) (os : list op) (c : checker) : option checker :=
  match os with
  | [] => Some c
  | o :: os' => c' ← apply_op falls_through fuel o c; apply_ops falls_through fuel os' c'
  end.

Definition op_ends (o : op) : Prop := match o with Add _ _ _ u => ends u | Del _ => True end.

(** The sizes [map_] holds. *)
Definition recorded (m : gmap Z (Z * Z)) : Z := map_fold (fun _ e acc => fst e + acc) 0 m.

(** The sizes added for addresses [map_] already held: the total counts them, the map does not. *)
Fixpoint uncovered (os : list op) (c : checker) : Z :=
  match os with
  | [] => 0
  | o :: os' =>
      (match o with Add p len _ _ => if decide (is_Some (map_ c !! p)) then len else 0 | Del _ => 0 end)
      + match effect o c with Some c' => uncovered os' c' | None => 0 end
  end.

(** ** The machine *)

Inductive pc : Type :=
| Add_lock (p len : Z)
| Add_load (p len : Z)
| Add_store (p len mem : Z)
| Add_insert (p len : Z)
| Add_unwind (k : nat)
| Add_print
| Del_test (p : Z)
| Del_lock (p : Z)
| Del_find (p : Z)
| Del_load (p len : Z)
| Del_store (p len mem : Z)
| Del_erase (p : Z)
| Unlock
| Ret.

(** Between the constructor and the destructor of the lock. *)
Definition critical (p : pc) : Prop :=
  match p with Add_lock _ _ | Del_test _ | Del_lock _ | Ret => False | _ => True end.

(** [reports] are the totals [add] printed; [stale_cas] counts the destructors, each of which
    compare-and-swaps through a dangling pointer. *)
Record sys : Type := Sys {
  chk : checker;
  threads : gmap nat pc;
  reports : list Z;
  stale_cas : nat;
}.

Definition sys_init : sys := {| chk := checker_init; threads := ∅; reports := []; stale_cas := 0 |}.

(** Thread [i] goes on at [p], with a new state of the checker. *)
Definition goto (i : nat) (p : pc) (c : checker) (s : sys) : sys :=
  Sys c (<[i := p]> (threads s)) (reports s) (stale_cas s).

Inductive action : Type :=
| Call_add (i : nat) (p len : Z)
| Call_del (i : nat) (p : Z)
| Run (i : nat) (node : Z)
| Frame_found (i : nat).

(** One access to the shared variables, or the end of the unwinding; the report is printed in one step. *)
Definition step (i : nat) (node : Z) (s : sys) : option sys :=
  let c := chk s in
  match threads s !! i with
  | Some (Add_lock p len) => _ ← trace_lock (m_mutex_ c); Some (goto i (Add_load p len) c s)
  | Some (Add_load p len) => Some (goto i (Add_store p len (mem_ c)) c s)
  | Some (Add_store p len mem) =>
      Some (goto i (Add_insert p len) (set_mem (wrapU 64 (mem + len)) c) s)
  | Some (Add_insert p len) => Some (goto i (Add_unwind 0) (map_insert p len node c) s)
  | Some (Add_unwind _) => Some (goto i Add_print c s)
  | Some Add_print => Some (Sys c (<[i := Unlock]> (threads s)) (reports s ++ [mem_ c]) (stale_cas s))
  | Some (Del_test p) => Some (goto i (if p =? 0 then Ret else Del_lock p) c s)
  | Some (Del_lock p) => _ ← trace_lock (m_mutex_ c); Some (goto i (Del_find p) c s)
  | Some (Del_find p) =>
      match map_ c !! p with
      | None => Some (goto i Unlock c s)
      | Some (len, _) => Some (goto i (Del_load p len) c s)
      end
  | Some (Del_load p len) => Some (goto i (Del_store p len (mem_ c)) c s)
  | Some (Del_store p len mem) => Some (goto i (Del_erase p) (set_mem (wrapU 64 (mem - len)) c) s)
  | Some (Del_erase p) => Some (goto i Unlock (set_map (delete p (map_ c)) c) s)
  | Some Unlock => Some (Sys c (<[i := Ret]> (threads s)) (reports s) (S (stale_cas s)))
  | Some Ret | None => None
  end.

Definition returned (p : option pc) : bool :=
  match p with None | Some Ret => true | _ => false end.

Definition sys_exec (a : action) (s : sys) : option sys :=
  match a with
  | Call_add i p len =>
      if returned (threads s !! i) then Some (goto i (Add_lock p len) (chk s) s) else None
  | Call_del i p => if returned (threads s !! i) then Some (goto i (Del_test p) (chk s) s) else None
  | Run i node => step i node s
  | Frame_found i =>
      match threads s !! i with Some (Add_unwind k) => Some (goto i (Add_unwind (S k)) (chk s) s) | _ => None end
  end.

#[global] Instance sys_machine : Machine sys action :=
  {| m_init s := s = sys_init; m_exec := sys_exec |}.

(** The number of steps a call has still to make at most, beside the turns of its unwinding. *)
Definition steps_left (p : pc) : nat :=
  match p with
  | Add_lock _ _ => 7 | Add_load _ _ => 6 | Add_store _ _ _ => 5 | Add_insert _ _ => 4 | Add_unwind _ => 3
  | Add_print => 2
  | Del_test _ => 7 | Del_lock _ => 6 | Del_find _ => 5 | Del_load _ _ => 4 | Del_store _ _ _ => 3
  | Del_erase _ => 2 | Unlock => 1 | Ret => 0
  end.

(** Two threads are inside the scopes the lock guards. *)
Definition overlap (s : sys) : Prop :=
  exists i j p q, i <> j /\ threads s !! i = Some p /\ threads s !! j = Some q /\ critical p /\ critical q.

(** A call that runs from its start to its return without interruption. *)
Fixpoint run_alone (fuel : nat) (i : nat) (node : Z) (s : sys) : option sys :=
  match fuel with
  | O => None
  | S fuel' =>
      match threads s !! i with
      | Some Ret => Some s
      | _ => s' ← step i node s; run_alone fuel' i node s'
      end
  end.

(** ** Lemmas *)

Lemma recorded_insert p e m :
  m !! p = None -> recorded (<[p := e]> m) = fst e + recorded m.
Proof. intros Hp. unfold recorded. rewrite map_fold_insert_L; [done|intros; lia|done]. Qed.

Lemma recorded_delete p e m :
  m !! p = Some e -> recorded m = fst e + recorded (delete p m).
Proof. intros Hp. unfold recorded. rewrite (map_fold_delete_L _ _ p e); [done|intros; lia|done]. Qed.

Lemma effect_mutex o c c' : effect o c = Some c' -> m_mutex_ c' = m_mutex_ c.
Proof.
  destruct o as [p len node u|p]; cbn; unfold account, del, map_insert, trace_lock; intros H.
  - repeat case_match; simplify_option_eq; done.
  - repeat case_match; simplify_option_eq; done.
Qed.

(** The total is the sizes recorded plus an error, and each operation changes the error by what
    [uncovered] says. *)
Lemma effect_total o c c' err :
  effect o c = Some c' -> mem_ c = wrapU 64 (recorded (map_ c) + err) ->
  mem_ c' = wrapU 64 (recorded (map_ c') + (uncovered [o] c + err)).
Proof.
  intros Ho Hm. cbn. rewrite Ho. destruct o as [p len node u|p]; cbn in Ho.
  - unfold account, map_insert, trace_lock in Ho. destruct (m_mutex_ c =? 0); cbn in Ho; [|done]. injection Ho as <-. cbn.
    case_decide as Hd; destruct (map_ c !! p) as [e|] eqn:Hp; cbn.
    + rewrite Hm, wrapU_add_l. f_equal. lia.
    + by destruct Hd.
    + destruct Hd. eauto.
    + rewrite Hm, recorded_insert, wrapU_add_l by done. cbn.
      rewrite <- (Z.add_assoc (wrapS 64 len)), wrapU_wrapS_l by lia. f_equal. lia.
  - unfold del, trace_lock in Ho. repeat case_match; simplify_option_eq; try (rewrite Hm; f_equal; lia).
    rewrite Hm. erewrite recorded_delete by done. cbn. rewrite wrapU_sub_l. f_equal. lia.
Qed.

Lemma uncovered_cons o os c c' :
  effect o c = Some c' -> uncovered (o :: os) c = uncovered [o] c + uncovered os c'.
Proof. cbn. intros ->. lia. Qed.

Lemma effect_defined o c : m_mutex_ c = 0 -> exists c', effect o c = Some c'.
Proof.
  intros Hx. destruct o as [p len node u|p]; cbn; unfold account, del; rewrite Hx; cbn; repeat case_match; eauto.
Qed.

Lemma effects_total os c err :
  m_mutex_ c = 0 -> mem_ c = wrapU 64 (recorded (map_ c) + err) ->
  exists c', effects os c = Some c'
    /\ mem_ c' = wrapU 64 (recorded (map_ c') + (uncovered os c + err)).
Proof.
  revert c err. induction os as [|o os IH]; intros c err Hx Hm; [by exists c|].
  destruct (effect_defined o c Hx) as [c1 H1].
  pose proof (effect_total _ _ _ _ H1 Hm) as Hm1.
  destruct (IH c1 (uncovered [o] c + err)) as (c' & Hc & Hm'); [|done|].
  { by rewrite (effect_mutex _ _ _ H1). }
  exists c'. cbn [effects]. rewrite H1. split; [done|].
  rewrite Hm', (uncovered_cons o os c c1 H1). f_equal. lia.
Qed.

(** A complete call has the effect of its accounting, and is complete when its unwinding ends. *)
Lemma apply_op_effect falls_through fuel o c c' : apply_op falls_through fuel o c = Some c' -> effect o c = Some c'.
Proof.
  destruct o as [p len node u|p]; cbn; [|done]. unfold add. destruct (account p len node c) as [c1|]; cbn; [|done].
  destruct (add_report _ _ _ _ _ _) as [[ls|e|e]|]; cbn; by try intros [= ->].
Qed.

Lemma apply_ops_effects falls_through fuel os c c' : apply_ops falls_through fuel os c = Some c' -> effects os c = Some c'.
Proof.
  revert c. induction os as [|o os IH]; intros c; cbn; [done|].
  destruct (apply_op falls_through fuel o c) as [c1|] eqn:E; cbn; [|done]. rewrite (apply_op_effect _ _ _ _ _ E). apply IH.
Qed.

Lemma apply_op_ends o c :
  m_mutex_ c = 0 -> op_ends o ->
  exists fuel0, forall fuel, (fuel0 <= fuel)%nat -> apply_op true fuel o c = effect o c.
Proof.
  intros Hx He. destruct o as [p len node u|p]; cbn in *; [|by exists 0%nat].
  destruct (effect_defined (Add p len node u) c Hx) as [c1 H1]. cbn in H1. unfold add. rewrite H1. cbn.
  destruct (add_report_ends (unw_step u) (frames u) true (caller u) (mem_ c1) He) as [fuel0 Hf].
  exists fuel0. intros fuel Hle. destruct (Hf fuel Hle) as (r & -> & Hr). by destruct (Hr eq_refl) as [ls ->].
Qed.

Lemma apply_ops_end os c :
  m_mutex_ c = 0 -> Forall op_ends os ->
  exists fuel0, forall fuel, (fuel0 <= fuel)%nat -> apply_ops true fuel os c = effects os c.
Proof.
  intros Hx He. revert c Hx. induction He as [|o os Ho _ IH]; intros c Hx; [by exists 0%nat|].
  destruct (apply_op_ends o c Hx Ho) as [f1 H1]. destruct (effect_defined o c Hx) as [c1 Hc].
  destruct (IH c1) as [f2 H2]; [by rewrite (effect_mutex _ _ _ Hc)|].
  exists (f1 `max` f2)%nat. intros fuel Hf. cbn. rewrite H1, Hc by lia. cbn. apply H2. lia.
Qed.

Lemma step_mutex a s s' : sys_exec a s = Some s' -> m_mutex_ (chk s') = m_mutex_ (chk s).
Proof.
  destruct a; cbn; unfold step, map_insert, trace_lock; intros H;
    repeat case_match; simplify_option_eq; done.
Qed.

Lemma run_alone_S n i node s p s' :
  threads s !! i = Some p -> step i node s = Some s' -> run_alone (S n) i node s = run_alone n i node s'.
Proof. intros Hi Hs. cbn. rewrite Hs, Hi. destruct p; try done. unfold step in Hs. by rewrite Hi in Hs. Qed.

Lemma run_alone_Ret n i node s : threads s !! i = Some Ret -> run_alone (S n) i node s = Some s.
Proof. intros Hi. cbn. by rewrite Hi. Qed.

(** Runs the thread that [Hi] locates to the end of its call, deciding the tests on the checker with
    [rew]. *)
Ltac alone_steps_with Hi rew :=
  erewrite run_alone_S; [|exact Hi|unfold step; rewrite Hi; unfold trace_lock; rew; reflexivity];
  repeat (erewrite run_alone_S;
    [|apply lookup_insert_eq
     |unfold step; cbn [threads goto]; rewrite lookup_insert_eq; unfold trace_lock;
      cbn [m_mutex_ map_ set_mem chk goto]; rew; reflexivity]);
  erewrite run_alone_Ret by apply lookup_insert_eq.

Ltac alone_steps Hi Hx := alone_steps_with Hi ltac:(rewrite ?Hx).

Ltac alone_steps_del Hi Hx Hp Hm := alone_steps_with Hi ltac:(rewrite ?Hp, ?Hx, ?Hm).

(** ** Properties *)

(** C35. Accounting: no lock blocks a sequence of calls, and after the accounting of any of them the total [mem_]
    is, modulo 2^64, the sum of the sizes [map_] records plus the sizes of the [add]s that found their address
    already recorded (on histories that never add a recorded address, exactly the sum of the recorded sizes). Complete
    calls, with their report, do just that, and they are complete when libunwind comes to the end of the stack of each
    [add], compiled such that [trace_backtrace] returns. *)
Theorem checker_total (os : list op) :
  exists c, effects os checker_init = Some c
    /\ mem_ c = wrapU 64 (recorded (map_ c) + uncovered os checker_init)
    /\ (forall falls_through fuel c', apply_ops falls_through fuel os checker_init = Some c' -> c' = c)
    /\ (Forall op_ends os ->
        exists fuel0, forall fuel, (fuel0 <= fuel)%nat -> apply_ops true fuel os checker_init = Some c).
Proof.
  destruct (effects_total os checker_init 0) as (c & Hc & Hm); [done|done|].
  exists c. split_and!; [done| | |].
  - rewrite Hm. f_equal. lia.
  - intros ft fuel c' Ha%apply_ops_effects. congruence.
  - intros He. destruct (apply_ops_end os checker_init eq_refl He) as [f Hf]. exists f. intros fuel Hle. by rewrite Hf.
Qed.

(** A call that runs without interruption, on a stack without frames, does to the checker what [account] and [del]
    say, whatever the other threads are doing: the machine's steps compose to the operations. *)
Theorem alone_is_atomic (i : nat) (node : Z) (s : sys) (p len : Z) :
  m_mutex_ (chk s) = 0 ->
  (threads s !! i = Some (Add_lock p len) ->
   exists s', run_alone 10 i node s = Some s' /\ account p len node (chk s) = Some (chk s')
     /\ threads s' = <[i := Ret]> (threads s) /\ reports s' = reports s ++ [mem_ (chk s')])
  /\ (threads s !! i = Some (Del_test p) ->
   exists s', run_alone 10 i node s = Some s' /\ fst <$> del p (chk s) = Some (chk s')
     /\ threads s' = <[i := Ret]> (threads s) /\ reports s' = reports s).
Proof.
  intros Hx. split; intros Hi.
  - unfold account, trace_lock. rewrite Hx. alone_steps Hi Hx. eexists. split; [done|].
    cbn [threads goto]. by rewrite !insert_insert_eq.
  - unfold del, trace_lock. rewrite Hx. destruct (p =? 0) eqn:Hp.
    + erewrite run_alone_S; [|exact Hi|unfold step; rewrite Hi, Hp; reflexivity].
      erewrite run_alone_Ret by apply lookup_insert_eq. by eexists.
    + destruct (map_ (chk s) !! p) as [[len' node']|] eqn:Hm; alone_steps_del Hi Hx Hp Hm;
        (eexists; split; [done|]); cbn [threads goto]; by rewrite !insert_insert_eq.
Qed.

(** The lock blocks nobody: in every reachable state [m_mutex_] is still 0, and whatever the other
    threads are doing, inside the guarded scopes or not, a thread inside a call can make its next step,
    which brings it closer to its return: no call takes more than seven steps beside the turns of its unwinding. *)
Theorem trace_lock_blocks_nobody (s : sys) (i : nat) (p : pc) (node : Z) :
  reachable s -> threads s !! i = Some p -> p <> Ret ->
  m_mutex_ (chk s) = 0
  /\ exists s' p', step i node s = Some s' /\ threads s' !! i = Some p'
       /\ (steps_left p' < steps_left p <= 7)%nat
       /\ forall j, j <> i -> threads s' !! j = threads s !! j.
Proof.
  intros Hr Hi Hp.
  assert (Hx : m_mutex_ (chk s) = 0).
  { revert Hr. apply (reachable_invariant (fun s => m_mutex_ (chk s) = 0)); [by intros ? ->|].
    intros a s1 s2 H1 H2. by rewrite (step_mutex _ _ _ H2). }
  split; [done|]. unfold step, trace_lock. rewrite Hi, Hx.
  destruct p; try done; cbn [Z.eqb mbind option_bind];
    repeat case_match; try (eexists _, _; split; [reflexivity|]; cbn [threads goto];
      rewrite lookup_insert_eq; split; [reflexivity|]; split; [cbn; lia|];
      intros j Hj; by rewrite lookup_insert_ne).
Qed.

(** Two threads add 8 and 16 bytes: both read the total before either writes it. *)
Definition racing_adds : list action :=
  [Call_add 0 100 8; Call_add 1 200 16; Run 0 0; Run 1 0; Run 0 0; Run 1 0; Run 0 0; Run 1 0;
   Run 0 1000; Run 1 2000; Frame_found 0; Run 0 0; Run 1 0; Run 0 0; Run 1 0; Run 0 0; Run 1 0].

Definition racing_state (n : nat) : sys := default sys_init (run (take n racing_adds) sys_init).

Lemma racing_reachable n : is_Some (run (take n racing_adds) sys_init) -> reachable (racing_state n).
Proof. intros [s Hs]. exists sys_init, (take n racing_adds). split; [done|]. unfold racing_state. by rewrite Hs. Qed.


(** ** Witnesses *)

(** A stack of [n] frames without names. *)
Definition shallow (n : nat) : unwinding :=
  Unwinding (fun k => if (k <? n)%nat then 1 else 0) (fun _ => Frame (-1) [] None) 7.

(** 8 bytes are added, and 16 twice at the same address, which is then released. *)
Definition demo_ops : list op := [Add 100 8 1000 (shallow 2); Add 200 16 2000 (shallow 1); Add 200 16 3000 (shallow 0); Del 200].

Lemma checker_total_witness :
  Forall op_ends demo_ops /\ exists c fuel, apply_ops true fuel demo_ops checker_init = Some c /\ mem_ c = 24.
Proof.
  assert (He : Forall op_ends demo_ops).
  { repeat constructor; [by exists 2%nat|by exists 1%nat|by exists 0%nat]. }
  split; [exact He|]. destruct (checker_total demo_ops) as (c & Hc & Hm & _ & Hf). destruct (Hf He) as [fuel H].
  exists c, fuel. split; [by apply H|]. injection Hc as <-. exact Hm.
Defined.

(** Thread 1 adds while thread 0 stands inside the guarded scope, having read the total. *)
Definition standing_state : sys :=
  default sys_init (run [Call_add 0 100 8; Run 0 0; Run 0 0; Call_add 1 200 16] sys_init).

Lemma alone_is_atomic_witness :
  exists s', run_alone 10 1 2000 standing_state = Some s'
    /\ account 200 16 2000 (chk standing_state) = Some (chk s')
    /\ threads s' = <[1%nat := Ret]> (threads standing_state)
    /\ reports s' = reports standing_state ++ [mem_ (chk s')].
Proof. by apply (alone_is_atomic 1 2000 standing_state 200 16). Defined.

Lemma trace_lock_blocks_nobody_witness :
  m_mutex_ (chk standing_state) = 0
  /\ exists s' p', step 1 0 standing_state = Some s' /\ threads s' !! 1%nat = Some p'
       /\ (steps_left p' < steps_left (Add_lock 200 16) <= 7)%nat
       /\ forall j, j <> 1%nat -> threads s' !! j = threads standing_state !! j.
Proof.
  apply (trace_lock_blocks_nobody standing_state 1 (Add_lock 200 16) 0); [|done|done].
  eexists sys_init, _. split; [done|]. unfold standing_state.
  match goal with |- context [run ?l sys_init] => instantiate (1 := l) end. done.
Defined.
