(* ===== verification/Hook.v ===== *)
(** * The malloc hooks ([src/src/hook.cpp], [src/src/hook.h])

    The shared object interposes [malloc] and [free]: a call made by the program is reported to the
    checker ([MemChecker.v]), a call made while [in_mem] is set, from inside [mem_checker::add], goes
    straight to libc. [map_.erase] inside [mem_checker::del] releases its node with [in_mem] clear, so
    [free] calls itself through [del]: [free] is modelled with the fuel of that recursion.

    [mem_checker::add] unwinds the stack and prints it: a call of [malloc] carries what libunwind answers to it
    ([unwinding]), and how many turns of that loop one waits for ([fuel]); it does not return when libunwind never
    comes to the end of the stack. The unwinding ends in undefined behaviour, unless the compiled code falls through
    the missing [return], as it does without optimisation.

    libc's allocator is a parameter, an instance of the class [Libc], with its documented behaviour
    in [LibcLaws]. The model follows one thread, [in_mem] being thread-local. *)

From S2P Require Import Prelude.
From S2P Require Import Backtrace.
From S2P Require Import MemChecker.

(** ** libc *)

(** A heap of type [H]; [live] is the set of the blocks it handed out. [libc_scratch] stands for the
    allocations of the vector of names that [mem_checker::add] fills and releases before it returns: none when libc
    has no memory for one of them. *)
Class Libc (H : Type) : Type := {
  live : H -> gset Z;
  libc_malloc : H -> Z -> Z * H;
  libc_calloc : H -> Z -> Z * H;
  libc_realloc : H -> Z -> Z -> Z * H;
  libc_free : H -> Z -> H;
  libc_scratch : H -> option H;
}.

(** A request is answered by NULL, or by a block that was not live. *)
Definition fresh_block {H} `{Libc H} (h : H) (r : Z * H) : Prop :=
  (r.1 = 0 /\ live r.2 = live h) \/ (r.1 <> 0 /\ (r.1 ∉ live h) /\ live r.2 = {[r.1]} ∪ live h).

Class LibcLaws (H : Type) `{Libc H} : Prop := {
  live_null : forall h, 0 ∉ live h;
  malloc_law : forall h n, fresh_block h (libc_malloc h n);
  calloc_law : forall h n, fresh_block h (libc_calloc h n);
  free_law : forall h p, p = 0 \/ p ∈ live h -> live (libc_free h p) = live h ∖ {[p]};
  scratch_law : forall h h', libc_scratch h = Some h' -> live h' = live h;
}.

Section hook.
Context {H : Type} `{Libc H}.

(** Whether [trace_backtrace] returns at its end. *)
Context (falls_through : bool).

(** ** The hooks *)

Record world : Type := World {
  in_mem : bool;
  heap : H;
  chk : checker;
}.

(** How a call ends: it returns, [operator new] throws, its behaviour is undefined, or it does not end (within the
    fuel, or because the lock spins). *)
Inductive outcome : Type :=
| Returns (r : Z) (w : world)
| Bad_alloc
| Undefined_behaviour
| Hangs.

Definition sizeof_node : Z := 48.

(** [mem_checker::add] with the memory it uses: [h] is the heap once it has its node. *)
Definition checker_report (fuel : nat) (u : unwinding) (p len node : Z) (h : H) (w : world) : outcome :=
  match add falls_through fuel u p len node (chk w) with
  | None => Hangs
  | Some (c, Done _) =>
      match libc_scratch h with
      | Some h' => Returns p (World (in_mem w) h' c)
      | None => Bad_alloc
      end
  | Some _ => Undefined_behaviour
  end.

(** [mem_checker::add] in the world: the node of a new key comes from [operator new], that is from
    [malloc] with [in_mem] set, and the names of the frames too. *)
Definition checker_add (fuel : nat) (u : unwinding) (p len : Z) (w : world) : outcome :=
  match map_ (chk w) !! p with
  | Some _ => checker_report fuel u p len 0 (heap w) w
  | None =>
      let '(node, h) := libc_malloc (heap w) sizeof_node in
      if node =? 0 then Bad_alloc else checker_report fuel u p len node h w
  end.

Definition trace_malloc (fuel : nat) (u : unwinding) (size : Z) (w : world) : outcome :=
  let '(p, h) := libc_malloc (heap w) size in
  checker_add fuel u p size (World (in_mem w) h (chk w)).

Definition malloc (fuel : nat) (u : unwinding) (size : Z) (w : world) : outcome :=
  if in_mem w then
    let '(p, h) := libc_malloc (heap w) size in Returns p (World (in_mem w) h (chk w))
  else
    match trace_malloc fuel u size (World true (heap w) (chk w)) with
    | Returns p w' => Returns p (World false (heap w') (chk w'))
    | o => o
    end.

(** [mem_checker::del] in the world, [free_node] being what releases the node of the erased entry. *)
Definition checker_del (free_node : Z -> world -> option world) (p : Z) (w : world) : option world :=
  r ← del p (chk w);
  let '(c, node) := r in
  match node with
  | Some n => free_node n (World (in_mem w) (heap w) c)
  | None => Some (World (in_mem w) (heap w) c)
  end.

Fixpoint free (fuel : nat) (ptr : Z) (w : world) : option world :=
  match fuel with
  | O => None
  | S fuel' =>
      w' ← (if in_mem w then Some w else checker_del (free fuel') ptr w);
      Some (World (in_mem w') (libc_free (heap w') ptr) (chk w'))
  end.

(** ** Programs *)

(** The allocator calls of a program; [calloc] and [realloc] are declared in [hook.h], but only libc
    defines them. *)
Inductive call : Type :=
| Malloc (size : Z) (u : unwinding)
| Calloc (size : Z)
| Realloc (ptr size : Z)
| Free (ptr : Z).

Definition exec (fuel : nat) (c : call) (w : world) : outcome :=
  match c with
  | Malloc size u => malloc fuel u size w
  | Calloc size => let '(p, h) := libc_calloc (heap w) size in Returns p (World (in_mem w) h (chk w))
  | Realloc ptr size =>
      let '(p, h) := libc_realloc (heap w) ptr size in Returns p (World (in_mem w) h (chk w))
  | Free ptr =>
      match free (S (S (size (map_ (chk w))))) ptr w with Some w' => Returns 0 w' | None => Hangs end
  end.

(** ** Specification

    What the program owns: the blocks [malloc] returned, with their sizes, and the blocks of [calloc]. *)
Record owned : Type := Owned { by_malloc : gmap Z Z; by_calloc : gset Z }.

(** The calls of a program that frees only NULL and what it owns, and gets what it asks for. *)
Definition legal (c : call) (o : owned) : Prop :=
  match c with
  | Malloc _ _ | Calloc _ => True
  | Realloc _ _ => False
  | Free p => p = 0 \/ p ∈ dom (by_malloc o) \/ p ∈ by_calloc o
  end.

Definition owned_after (c : call) (r : Z) (o : owned) : owned :=
  match c with
  | Malloc size _ => Owned (<[r := size]> (by_malloc o)) (by_calloc o)
  | Calloc _ => if r =? 0 then o else Owned (by_malloc o) ({[r]} ∪ by_calloc o)
  | Realloc _ _ => o
  | Free p => Owned (delete p (by_malloc o)) (by_calloc o ∖ {[p]})
  end.

(** What a program that makes only legal calls can reach, from a heap where nothing is counted. *)
Inductive client_run : world -> owned -> Prop :=
| client_start h :
    client_run (World false h checker_init) (Owned ∅ (live h))
| client_call fuel c o w r w' :
    client_run w o -> legal c o -> exec fuel c w = Returns r w' ->
    (match c with Malloc _ _ => r <> 0 | _ => True end) ->
    client_run w' (owned_after c r o).

Definition total_size (m : gmap Z Z) : Z := map_fold (fun _ n acc => n + acc) 0 m.

(** The invariant that ties the three together. *)
Record hook_inv (w : world) (o : owned) : Prop := HookInv {
  hi_in_mem : in_mem w = false;
  hi_mutex : m_mutex_ (chk w) = 0;
  hi_live : forall a, a ∈ live (heap w) <->
    a ∈ dom (by_malloc o) \/ a ∈ by_calloc o \/ exists k v, map_ (chk w) !! k = Some (v, a);
  hi_keys : forall k, match map_ (chk w) !! k with
                      | Some (v, _) => exists n, by_malloc o !! k = Some n /\ v = wrapS 64 n
                      | None => by_malloc o !! k = None
                      end;
  hi_nodes : forall k v a, map_ (chk w) !! k = Some (v, a) -> by_malloc o !! a = None /\ a ∉ by_calloc o;
  hi_inj : forall k k' v v' a,
    map_ (chk w) !! k = Some (v, a) -> map_ (chk w) !! k' = Some (v', a) -> k = k';
  hi_disj : forall a, is_Some (by_malloc o !! a) -> a ∉ by_calloc o;
  hi_total : mem_ (chk w) = wrapU 64 (total_size (by_malloc o));
}.

(** ** Lemmas *)

Lemma total_insert p n m : m !! p = None -> total_size (<[p := n]> m) = n + total_size m.
Proof. intros Hp. unfold total_size. rewrite map_fold_insert_L; [done|intros; lia|done]. Qed.

Lemma total_delete p n m : m !! p = Some n -> total_size m = n + total_size (delete p m).
Proof. intros Hp. unfold total_size. rewrite (map_fold_delete_L _ _ p n); [done|intros; lia|done]. Qed.

(** [free] ends whatever the state: each nested call erased one more entry of [map_]. *)
Lemma free_total fuel ptr w :
  m_mutex_ (chk w) = 0 -> (size (map_ (chk w)) < fuel)%nat ->
  exists w', free fuel ptr w = Some w' /\ m_mutex_ (chk w') = 0.
Proof.
  revert ptr w. induction fuel as [|fuel IH]; intros ptr w Hx Hf; [lia|]. cbn.
  destruct (in_mem w); cbn; [by eexists|].
  unfold checker_del, del, trace_lock. rewrite Hx. cbn.
  destruct (ptr =? 0); cbn; [by eexists|].
  destruct (map_ (chk w) !! ptr) as [[len node]|] eqn:Hp; cbn; [|by eexists].
  edestruct (IH node) as (w' & -> & Hx'); [| |cbn; by eexists]; [done|]. cbn.
  rewrite map_size_delete_Some by eauto.
  assert (size (map_ (chk w)) <> 0%nat) by (intros E%map_size_empty_iff; rewrite E in Hp; done). lia.
Qed.

(** Freeing an address that is not recorded only reaches libc. *)
Lemma free_unrecorded fuel ptr w :
  m_mutex_ (chk w) = 0 -> map_ (chk w) !! ptr = None ->
  free (S fuel) ptr w = Some (World (in_mem w) (libc_free (heap w) ptr) (chk w)).
Proof.
  intros Hx Hp. cbn. destruct (in_mem w) eqn:Hm; cbn; [by rewrite Hm|].
  unfold checker_del, del, trace_lock. rewrite Hx, Hp. cbn. destruct (ptr =? 0); cbn; by rewrite Hm.
Qed.

(** Freeing a recorded address releases its node too. *)
Lemma free_recorded fuel ptr w len node :
  in_mem w = false -> m_mutex_ (chk w) = 0 -> ptr <> 0 -> map_ (chk w) !! ptr = Some (len, node) ->
  delete ptr (map_ (chk w)) !! node = None ->
  free (S (S fuel)) ptr w
  = Some (World false (libc_free (libc_free (heap w) node) ptr)
            (Checker 0 (wrapU 64 (mem_ (chk w) - len)) (delete ptr (map_ (chk w))))).
Proof.
  intros Hm Hx Hp Hl Hn. cbn [free]. rewrite Hm.
  unfold checker_del at 1, del, trace_lock. rewrite Hx. cbn [Z.eqb mbind option_bind].
  apply Z.eqb_neq in Hp. rewrite Hp, Hl. cbn [mbind option_bind].
  assert (E := free_unrecorded fuel node
    (World (in_mem w) (heap w) (set_map (delete ptr (map_ (chk w)))
       (set_mem (wrapU 64 (mem_ (chk w) - len)) (chk w)))) Hx Hn).
  cbn [free] in E. rewrite E. cbn. unfold set_map, set_mem. cbn. by rewrite Hm, Hx.
Qed.

(** Not being live means being neither owned, nor a node, nor recorded. *)
Lemma not_live w o p :
  hook_inv w o -> p ∉ live (heap w) ->
  by_malloc o !! p = None /\ (p ∉ by_calloc o) /\ map_ (chk w) !! p = None
  /\ forall k v, map_ (chk w) !! k <> Some (v, p).
Proof.
  intros Hi Hp. rewrite (hi_live _ _ Hi) in Hp.
  assert (Hu : by_malloc o !! p = None) by (apply not_elem_of_dom; tauto).
  split; [done|]. split; [tauto|]. split.
  - pose proof (hi_keys _ _ Hi p) as Hk. destruct (map_ (chk w) !! p) as [[v a]|]; [|done].
    destruct Hk as (n & Hn & _). congruence.
  - intros k v Hk. apply Hp. eauto.
Qed.

(** What a report that ends did to the checker. *)
Lemma checker_report_returns fuel u p len node h w r w' :
  m_mutex_ (chk w) = 0 -> checker_report fuel u p len node h w = Returns r w' ->
  r = p /\ in_mem w' = in_mem w /\ libc_scratch h = Some (heap w')
  /\ account p len node (chk w) = Some (chk w').
Proof.
  intros Hx. unfold checker_report, add. destruct (account p len node (chk w)) as [c|]; [|done]. cbn.
  destruct (add_report _ _ _ _ _ _) as [[ls|e|e]|]; cbn; try done.
  destruct (libc_scratch h) as [h'|] eqn:E; [|done]. by intros [= <- <-].
Qed.

Lemma malloc_spec `{!LibcLaws H} fuel u size p w w' o :
  hook_inv w o -> malloc fuel u size w = Returns p w' -> p <> 0 ->
  exists node, node <> 0 /\ (p ∉ live (heap w)) /\ (node ∉ live (heap w)) /\ node <> p
  /\ in_mem w' = false /\ live (heap w') = {[node]} ∪ ({[p]} ∪ live (heap w))
  /\ chk w' = Checker 0 (wrapU 64 (mem_ (chk w) + size))
                (<[p := (wrapS 64 size, node)]> (map_ (chk w))).
Proof.
  intros Hi Hm Hp. unfold malloc, trace_malloc in Hm. rewrite (hi_in_mem _ _ Hi) in Hm. cbn in Hm.
  pose proof (malloc_law (heap w) size) as Hf. destruct (libc_malloc (heap w) size) as [p1 h1].
  destruct (checker_add fuel u p1 size (World true h1 (chk w))) as [r w1| | |] eqn:Ha; [|done..].
  injection Hm as <- <-. unfold checker_add in Ha. cbn [chk heap] in Ha.
  assert (p1 = r) as ->.
  { destruct (map_ (chk w) !! p1); [|destruct (libc_malloc h1 sizeof_node) as [node h2]; destruct (node =? 0); [done|]];
      apply checker_report_returns in Ha as (-> & _); try done; apply Hi. }
  destruct Hf as [[E _]|(_ & Hl1 & Hl2)]; cbn in *; [done|].
  destruct (not_live _ _ _ Hi Hl1) as (_ & _ & Hr & _). rewrite Hr in Ha.
  pose proof (malloc_law h1 sizeof_node) as Hf. destruct (libc_malloc h1 sizeof_node) as [node h2].
  destruct (Z.eqb_spec node 0); [done|]. destruct Hf as [[E _]|(_ & Hn1 & Hn2)]; cbn in *; [done|].
  apply checker_report_returns in Ha as (_ & _ & Hs & Ha); [|apply Hi]. cbn in Ha.
  unfold account, trace_lock, map_insert in Ha. rewrite (hi_mutex _ _ Hi) in Ha. cbn in Ha. rewrite Hr in Ha.
  injection Ha as <-. exists node.
  rewrite Hl2 in Hn1. apply not_elem_of_union in Hn1 as [Hnp%not_elem_of_singleton Hnl].
  rewrite (scratch_law _ _ Hs), Hn2, Hl2. unfold set_map, set_mem. cbn. by rewrite (hi_mutex _ _ Hi).
Qed.

Lemma malloc_inv `{!LibcLaws H} fuel u size p w w' o :
  hook_inv w o -> malloc fuel u size w = Returns p w' -> p <> 0 -> hook_inv w' (owned_after (Malloc size u) p o).
Proof.
  intros Hi Hm Hp.
  destruct (malloc_spec _ _ _ _ _ _ _ Hi Hm Hp) as (node & Hn & Hpl & Hnl & Hne & Him & Hlive & Hc).
  destruct (not_live _ _ _ Hi Hpl) as (HpU & HpC & HpM & HpN).
  destruct (not_live _ _ _ Hi Hnl) as (HnU & HnC & HnM & HnN).
  split; rewrite ?Hc, ?Hlive; cbn [owned_after by_malloc by_calloc m_mutex_ map_ mem_]; [done|done|..].
  - intros a. rewrite dom_insert_L, !elem_of_union, !elem_of_singleton, (hi_live _ _ Hi). split.
    + intros [->|[->|[?|[?|(k & v & ?)]]]]; auto.
      * right. right. exists p. eexists. by rewrite lookup_insert_eq.
      * right. right. exists k, v. rewrite lookup_insert_ne; [done|]. intros <-. congruence.
    + intros [[?|?]|[?|(k & v & Hk)]]; auto.
      rewrite lookup_insert_Some in Hk. destruct Hk as [[<- Hk]|[? ?]]; [|eauto 10].
      injection Hk as <- <-. auto.
  - intros k. destruct (decide (k = p)) as [->|].
    + rewrite !lookup_insert_eq. eauto.
    + rewrite !lookup_insert_ne by done. apply (hi_keys _ _ Hi).
  - intros k v a. rewrite lookup_insert_Some. intros [[<- [= <- <-]]|[? Hk]].
    + by rewrite lookup_insert_ne.
    + destruct (hi_nodes _ _ Hi _ _ _ Hk). rewrite lookup_insert_ne; [done|]. intros <-.
      by apply (HpN k v).
  - intros k k' v v' a. rewrite !lookup_insert_Some.
    intros [[<- [= <- <-]]|[? Hk]] [[<- E]|[? Hk']]; try done.
    + by destruct (HnN _ _ Hk').
    + injection E as <- <-. by destruct (HnN _ _ Hk).
    + by eapply (hi_inj _ _ Hi).
  - intros a [n Ha]. rewrite lookup_insert_Some in Ha. destruct Ha as [[<- _]|[_ Ha]]; [done|].
    apply (hi_disj _ _ Hi). eauto.
  - rewrite total_insert, (hi_total _ _ Hi), wrapU_add_l by done. f_equal. lia.
Qed.

Lemma calloc_inv `{!LibcLaws H} size p h w o :
  hook_inv w o -> libc_calloc (heap w) size = (p, h) ->
  hook_inv (World (in_mem w) h (chk w)) (owned_after (Calloc size) p o).
Proof.
  intros Hi Hc. pose proof (calloc_law (heap w) size) as Hf. rewrite Hc in Hf.
  cbn. destruct Hf as [[E Hl]|(Hp & Hl1 & Hl2)]; cbn in *.
  - rewrite E. cbn. destruct Hi. split; cbn; rewrite ?Hl; try done.
  - apply Z.eqb_neq in Hp. rewrite Hp. cbn.
    destruct (not_live _ _ _ Hi Hl1) as (HpU & HpC & HpM & HpN).
    split; cbn; rewrite ?Hl2; try apply Hi.
    + intros a. rewrite !elem_of_union, elem_of_singleton, (hi_live _ _ Hi). tauto.
    + intros k v a Hk. destruct (hi_nodes _ _ Hi _ _ _ Hk).
      split; [done|]. rewrite elem_of_union, elem_of_singleton. intros [->|?]; [|done].
      by apply (HpN k v).
    + intros a Ha. rewrite elem_of_union, elem_of_singleton. intros [->|?].
      * rewrite HpU in Ha. by destruct Ha.
      * by apply (hi_disj _ _ Hi a).
Qed.

(** Removing a block of [malloc] and its node. *)
Lemma forget_inv p n node w o h :
  hook_inv w o -> by_malloc o !! p = Some n -> map_ (chk w) !! p = Some (wrapS 64 n, node) ->
  live h = live (heap w) ∖ {[node]} ∖ {[p]} ->
  hook_inv (World false h (Checker 0 (wrapU 64 (mem_ (chk w) - wrapS 64 n)) (delete p (map_ (chk w)))))
    (owned_after (Free p) 0 o).
Proof.
  intros Hi Hn Hp El. destruct (hi_nodes _ _ Hi _ _ _ Hp) as [HnU HnC].
  assert (HpC : p ∉ by_calloc o) by (apply (hi_disj _ _ Hi); eauto).
  split; cbn [in_mem chk heap m_mutex_ map_ mem_ owned_after by_malloc by_calloc]; [done|done|..].
  - intros a. rewrite El, !elem_of_difference, !elem_of_singleton, (hi_live _ _ Hi), dom_delete_L.
    rewrite elem_of_difference, elem_of_singleton. split.
    + intros [[[?|[?|(k & v & Hk)]] ?] ?]; auto. right. right. exists k, v.
      rewrite lookup_delete_ne; [done|]. intros <-. congruence.
    + intros [[? ?]|[[? ?]|(k & v & Hk)]].
      * split; [split; [auto|]|done]. intros ->. by apply not_elem_of_dom in HnU.
      * split; [split; [auto|]|done]. by intros ->.
      * rewrite lookup_delete_Some in Hk. destruct Hk as [Hkp Hk].
        destruct (hi_nodes _ _ Hi _ _ _ Hk). split; [split; [eauto|]|].
        -- intros ->. apply Hkp. by eapply (hi_inj _ _ Hi).
        -- intros ->. congruence.
  - intros k. destruct (decide (k = p)) as [->|]; [by rewrite !lookup_delete_eq|].
    rewrite !lookup_delete_ne by done. apply (hi_keys _ _ Hi).
  - intros k v a. rewrite lookup_delete_Some. intros [? Hk].
    destruct (hi_nodes _ _ Hi _ _ _ Hk). split; [|rewrite elem_of_difference; tauto].
    rewrite lookup_delete_None. auto.
  - intros k k' v v' a. rewrite !lookup_delete_Some. intros [_ ?] [_ ?]. by eapply (hi_inj _ _ Hi).
  - intros a [m Ha]. rewrite lookup_delete_Some in Ha. destruct Ha as [_ Ha].
    rewrite elem_of_difference. intros [Hc _]. revert Hc. apply (hi_disj _ _ Hi). eauto.
  - rewrite (hi_total _ _ Hi), wrapU_sub_l, (total_delete _ _ _ Hn), wrapU_sub_wrapS by lia.
    f_equal. lia.
Qed.

(** Releasing a block of [calloc]. *)
Lemma release_inv p w o h :
  hook_inv w o -> map_ (chk w) !! p = None -> p ∈ by_calloc o -> live h = live (heap w) ∖ {[p]} ->
  hook_inv (World (in_mem w) h (chk w)) (owned_after (Free p) 0 o).
Proof.
  intros Hi Hp HpC El. pose proof (hi_keys _ _ Hi p) as Hk. rewrite Hp in Hk.
  cbn. rewrite delete_id by done. split; cbn; try apply Hi.
  - intros a. rewrite El, !elem_of_difference, !elem_of_singleton, (hi_live _ _ Hi). split; [tauto|].
    intros [Ha|[?|(k & v & Ha)]]; [|tauto|].
    + split; [tauto|]. intros ->. by apply not_elem_of_dom in Hk.
    + split; [eauto|]. intros ->. by destruct (hi_nodes _ _ Hi _ _ _ Ha).
  - intros k v a Ha. destruct (hi_nodes _ _ Hi _ _ _ Ha). split; [done|]. rewrite elem_of_difference. tauto.
  - intros a Ha. rewrite elem_of_difference. intros [Hc _]. revert Hc. by apply (hi_disj _ _ Hi).
Qed.

Lemma free_inv `{!LibcLaws H} fuel p w o :
  hook_inv w o -> legal (Free p) o ->
  exists w', free (S (S fuel)) p w = Some w' /\ hook_inv w' (owned_after (Free p) 0 o).
Proof.
  intros Hi Hleg. pose proof (hi_keys _ _ Hi p) as Hk.
  assert (Hnull : 0 ∉ live (heap w)) by apply live_null.
  destruct (map_ (chk w) !! p) as [[len node]|] eqn:Hp.
  - destruct Hk as (n & Hn & ->). destruct (hi_nodes _ _ Hi _ _ _ Hp) as [HnU HnC].
    assert (Hpl : p ∈ live (heap w)) by (apply (hi_live _ _ Hi); left; by eapply elem_of_dom_2).
    assert (Hnl : node ∈ live (heap w)) by (apply (hi_live _ _ Hi); eauto).
    assert (p <> node) by (intros ->; congruence).
    eexists. split; [|eapply forget_inv; [exact Hi|exact Hn|exact Hp|]].
    + eapply free_recorded; [apply Hi|apply Hi|by intros ->|exact Hp|].
      rewrite lookup_delete_ne by done. pose proof (hi_keys _ _ Hi node) as Hkn.
      destruct (map_ (chk w) !! node) as [[]|]; [|done]. destruct Hkn as (? & ? & _). congruence.
    + rewrite free_law; rewrite free_law by auto; [done|]. right.
      rewrite elem_of_difference, elem_of_singleton. auto.
  - eexists. split; [apply free_unrecorded; [apply Hi|done]|].
    destruct Hleg as [->|[Hd|Hc]]; [|by apply not_elem_of_dom in Hk|].
    + assert (E : owned_after (Free 0) 0 o = o).
      { cbn. rewrite delete_id by done. destruct o. f_equal. cbn.
        apply difference_disjoint_L, disjoint_singleton_r. intros Hc. apply Hnull, (hi_live _ _ Hi). auto. }
      rewrite E. destruct Hi. split; cbn; rewrite ?free_law by auto; try done.
      intros a. rewrite <- hi_live0, elem_of_difference, elem_of_singleton. split; [tauto|].
      intros Ha. split; [done|]. by intros ->.
    + apply release_inv; try done. apply free_law. right. apply (hi_live _ _ Hi). auto.
Qed.

Lemma client_inv `{!LibcLaws H} w o : client_run w o -> hook_inv w o.
Proof.
  induction 1 as [h|fuel c o w r w' Hrun IH Hleg He Hr].
  - split; cbn; try done; [|by intros a [? ?]]. intros a. rewrite dom_empty_L. split; [auto|].
    intros [?|[?|(? & ? & ?)]]; done.
  - destruct c as [n u|n|p n|p]; cbn [exec] in He.
    + by eapply malloc_inv.
    + destruct (libc_calloc _ _) as [p h] eqn:E. injection He as <- <-. by apply (calloc_inv n).
    + done.
    + destruct (free_inv (size (map_ (chk w))) p w o IH Hleg) as (w1 & Hf & Hi).
      rewrite Hf in He. by injection He as _ <-.
Qed.

(** A [malloc] ends when its unwinding does. *)
Lemma malloc_ends n u w o :
  hook_inv w o -> ends u ->
  exists fuel0, forall fuel, (fuel0 <= fuel)%nat ->
    malloc fuel u n w <> Hangs /\ (falls_through = true -> malloc fuel u n w <> Undefined_behaviour).
Proof.
  intros Hi He. unfold malloc, trace_malloc, checker_add. rewrite (hi_in_mem _ _ Hi). cbn [heap chk].
  destruct (libc_malloc (heap w) n) as [p h]. cbn [chk heap].
  assert (Hrep : forall node h', exists fuel0, forall fuel, (fuel0 <= fuel)%nat ->
    checker_report fuel u p n node h' (World true h (chk w)) <> Hangs
    /\ (falls_through = true -> checker_report fuel u p n node h' (World true h (chk w)) <> Undefined_behaviour)).
  { intros node h'. destruct (effect_defined (Add p n node u) (chk w) (hi_mutex _ _ Hi)) as [c Hc]. cbn in Hc.
    destruct (add_report_ends (MemChecker.unw_step u) (MemChecker.frames u) falls_through (caller u) (mem_ c) He) as [f Hf].
    exists f. intros fuel Hle. destruct (Hf fuel Hle) as (r & Hr & Hd). unfold checker_report, add. cbn [chk].
    rewrite Hc. cbn [mbind option_bind]. rewrite Hr. cbn [mbind option_bind]. split.
    - destruct r; [by destruct (libc_scratch h')|done..].
    - intros Hft. destruct (Hd Hft) as [ls ->]. by destruct (libc_scratch h'). }
  destruct (map_ (chk w) !! p).
  - destruct (Hrep 0 h) as [f Hf]. exists f. intros fuel Hle. destruct (Hf fuel Hle) as [H1 H2]. cbn [in_mem].
    split; [|intros Hft; specialize (H2 Hft)]; by destruct (checker_report _ _ _ _ _ _ _).
  - destruct (libc_malloc h sizeof_node) as [node h']. destruct (node =? 0); [by exists 0%nat|].
    destruct (Hrep node h') as [f Hf]. exists f. intros fuel Hle. destruct (Hf fuel Hle) as [H1 H2]. cbn [in_mem].
    split; [|intros Hft; specialize (H2 Hft)]; by destruct (checker_report _ _ _ _ _ _ _).
Qed.

(** One whose unwinding never ends does not return, whatever one waits for. *)
Lemma malloc_endless n u fuel r w w' o :
  hook_inv w o -> ~ ends u -> malloc fuel u n w <> Returns r w'.
Proof.
  intros Hi Hu. unfold malloc, trace_malloc, checker_add. rewrite (hi_in_mem _ _ Hi). cbn [heap chk].
  destruct (libc_malloc (heap w) n) as [p h]. cbn [chk heap].
  assert (Hrep : forall node h', checker_report fuel u p n node h' (World true h (chk w)) = Hangs).
  { intros node h'. destruct (effect_defined (Add p n node u) (chk w) (hi_mutex _ _ Hi)) as [c Hc]. cbn in Hc.
    unfold checker_report, add. cbn [chk]. rewrite Hc. cbn [mbind option_bind]. unfold add_report.
    rewrite backtrace_never_ends; [done|]. intros j Hj. apply Hu. by exists j. }
  destruct (map_ (chk w) !! p); [by rewrite Hrep|].
  destruct (libc_malloc h sizeof_node) as [node h']. destruct (node =? 0); [done|]. by rewrite Hrep.
Qed.

(** ** Properties *)

(** C7. Accounting of the hooks: at any point of a program that frees only NULL and blocks it owns and
    whose [malloc]s succeed, the total is, modulo 2^64, the sum of the sizes of the blocks of
    [malloc] it still owns; libc's live blocks are those, the blocks of [calloc], and one node per
    block of [malloc]: the hooks leak nothing. A legal call made next ends when libunwind comes to the end of the stack
    of a [malloc], and its behaviour is defined if [trace_backtrace] falls through; a [malloc] for which libunwind
    never does, does not return. *)
Theorem hook_counts_owned `{!LibcLaws H} (w : world) (o : owned) :
  client_run w o ->
  mem_ (chk w) = wrapU 64 (total_size (by_malloc o))
  /\ dom (map_ (chk w)) = dom (by_malloc o)
  /\ (forall a, a ∈ live (heap w) <->
        a ∈ dom (by_malloc o) \/ a ∈ by_calloc o \/ exists k v, map_ (chk w) !! k = Some (v, a))
  /\ (forall c, legal c o -> (match c with Malloc _ u => ends u | _ => True end) ->
        exists fuel0, forall fuel, (fuel0 <= fuel)%nat ->
          exec fuel c w <> Hangs /\ (falls_through = true -> exec fuel c w <> Undefined_behaviour))
  /\ (forall size u fuel r w', ~ ends u -> exec fuel (Malloc size u) w <> Returns r w').
Proof.
  intros Hi%client_inv. split; [apply Hi|]. split; [|split; [apply Hi|split]].
  - apply set_eq. intros k. rewrite !elem_of_dom. pose proof (hi_keys _ _ Hi k) as Hk.
    destruct (map_ (chk w) !! k) as [[v a]|].
    + destruct Hk as (n & -> & _). by split; eauto.
    + rewrite Hk. by split; intros [].
  - intros [n u|n|p n|p] Hleg He; [|exists 0%nat; intros fuel _; cbn [exec]; by destruct (libc_calloc _ _)|done|].
    + by apply (malloc_ends n u w o).
    + exists 0%nat. intros fuel _. cbn [exec].
      by destruct (free_inv (size (map_ (chk w))) p w o Hi Hleg) as (w1 & -> & _).
  - intros size u fuel r w' Hu. cbn [exec]. by eapply malloc_endless.
Qed.

(** Termination of [free]: in any state of the checker, even one that a program out of its rights
    produced, the recursion of [free] through [map_.erase] ends, after at most one nested call per
    entry of [map_]. *)
Theorem free_terminates (ptr : Z) (w : world) (fuel : nat) :
  m_mutex_ (chk w) = 0 -> (size (map_ (chk w)) < fuel)%nat -> is_Some (free fuel ptr w).
Proof. intros Hx Hf. destruct (free_total fuel ptr w Hx Hf) as (w' & -> & _). eauto. Qed.

End hook.

(** ** An allocator

    A heap that hands out the addresses of a list, in order, and answers NULL when the next one is
    taken. *)
Record script : Type := Script { blocks : gset Z; answers : list Z }.

Definition next_block (taken : gset Z) (h : script) : Z * script :=
  match answers h with
  | [] => (0, h)
  | a :: rest =>
      if decide (a = 0 \/ a ∈ taken) then (0, Script (blocks h) rest)
      else (a, Script ({[a]} ∪ taken) rest)
  end.

#[global] Instance script_libc : Libc script := {
  live h := blocks h ∖ {[0]};
  libc_malloc h _ := next_block (blocks h) h;
  libc_calloc h _ := next_block (blocks h) h;
  libc_realloc h p _ := next_block (blocks h ∖ {[p]}) h;
  libc_free h p := Script (blocks h ∖ {[p]}) (answers h);
  libc_scratch h := Some h;
}.

Lemma next_block_fresh h : fresh_block h (next_block (blocks h) h).
Proof.
  unfold fresh_block, next_block. destruct (answers h) as [|a rest]; [by left|].
  case_decide as Ha; [by left|]. right. cbn. split; [tauto|]. split; [set_solver|].
  apply set_eq. intros x. rewrite !elem_of_difference, !elem_of_union, !elem_of_difference,
    !elem_of_singleton. split; [tauto|]. intros [->|?]; tauto.
Qed.

#[global] Instance script_laws : LibcLaws script.
Proof.
  split.
  - intros h. cbn. set_solver.
  - intros h n. apply next_block_fresh.
  - intros h n. apply next_block_fresh.
  - intros h p _. cbn. set_solver.
  - by intros h h' [= <-].
Qed.

(** Runs calls one after the other, each with ten turns for its unwinding, compiled without optimisation. *)
Fixpoint exec_all {H} `{Libc H} (cs : list call) (w : world (H := H)) : option world :=
  match cs with
  | [] => Some w
  | c :: cs' => match exec true 10 c w with Returns _ w' => exec_all cs' w' | _ => None end
  end.

Definition start (l : list Z) : world := World false (Script ∅ l) checker_init.

(** [realloc] is declared in [hook.h] but not hooked, and breaks the total: after
    [p = malloc(100); q = realloc(p, 200); free(q)] the program owns nothing, libc holds only a node, and
    the total is still 100. *)
Theorem realloc_drifts :
  exists w, exec_all [Malloc 100 (shallow 2); Realloc 16 200; Free 48] (start [16; 32; 48]) = Some w
    /\ mem_ (chk w) = 100 /\ live (heap w) = {[32]}.
Proof. eexists. split; [vm_compute; reflexivity|]. split; [done|]. set_solver. Qed.

(** A [malloc] that fails is counted for ever: libc answers NULL, the size is added to the total
    under the address NULL, and [del(NULL)] never removes it. *)
Theorem failed_malloc_counts :
  exists w, exec_all [Malloc 100 (shallow 2); Free 0] (start [0; 16]) = Some w /\ mem_ (chk w) = 100.
Proof. eexists. split; [vm_compute; reflexivity|]. done. Qed.

(** ** Witnesses *)

(** The program [p = malloc(100); q = calloc(8); r = malloc(50); free(p)]. *)
Definition demo_world : world :=
  default (start []) (exec_all [Malloc 100 (shallow 2); Calloc 8; Malloc 50 (shallow 2); Free 16] (start [16; 32; 48; 64; 80])).

Definition demo_owned : owned :=
  owned_after (Free 16) 0 (owned_after (Malloc 50 (shallow 2)) 64 (owned_after (Calloc 8) 48
    (owned_after (Malloc 100 (shallow 2)) 16 (Owned ∅ (live (heap (start [16; 32; 48; 64; 80]))))))).

(** The world after the first [n] calls of a program that starts on the answers [l]. *)
Definition world_at (l : list Z) (cs : list call) : world := default (start []) (exec_all cs (start l)).

Lemma hook_counts_owned_witness :
  client_run true demo_world demo_owned /\ mem_ (chk demo_world) = 50
  /\ mem_ (chk demo_world) = wrapU 64 (total_size (by_malloc demo_owned)).
Proof.
  assert (Hr : client_run true demo_world demo_owned).
  { set (l := [16; 32; 48; 64; 80]).
    eapply (client_call true 10 (Free 16) _ (world_at l [Malloc 100 (shallow 2); Calloc 8; Malloc 50 (shallow 2)]));
      [|right; left; apply elem_of_dom; by exists 100|by vm_compute|done].
    eapply (client_call true 10 (Malloc 50 (shallow 2)) _ (world_at l [Malloc 100 (shallow 2); Calloc 8])); [|done|by vm_compute|done].
    eapply (client_call true 10 (Calloc 8) _ (world_at l [Malloc 100 (shallow 2)])); [|done|by vm_compute|done].
    eapply (client_call true 10 (Malloc 100 (shallow 2)) _ (start l)); [|done|by vm_compute|done].
    apply (client_start true (Script ∅ l)). }
  split; [exact Hr|]. split; [done|]. apply (hook_counts_owned true demo_world demo_owned Hr).
Defined.

(** A recorded address whose node is itself recorded: the nested [free] erases a second entry. *)
Definition tangled : world :=
  World false (Script {[16; 32; 48]} [])
    (Checker 0 300 (<[16 := (100, 32)]> (<[32 := (200, 48)]> ∅))).

Lemma free_terminates_witness :
  is_Some (free 3 16 tangled)
  /\ map_ (chk (default tangled (free 3 16 tangled))) = ∅ /\ free 2 16 tangled = None.
Proof. split; [|by vm_compute]. apply (free_terminates 16 tangled 3); [done|]. vm_compute. lia. Defined.
