(* ===== verification/OldHook.v ===== *)
(** * The first malloc hooks ([src/src/__hook.cpp__])

    An earlier version of [hook.cpp], which the build does not use: it hooks all five functions, finds the ones of
    libc with [dlsym], and serves what [dlsym] itself allocates from anonymous mappings ([zalloc_internal]). It has
    no [in_mem]: [mem_checker::add] allocates the node of its map through the hook it is called from. ([__hook.cpp__mem]
    is the text of [hook.cpp], modelled in [Hook.v].)

    libc, [mmap] and [dlsym] are parameters, an instance of the class [Real]; [dlsym] is a program of allocator
    calls. The model follows one thread. The report that [mem_checker::add] prints after its
    insertion is left out: no call comes to it, since none returns from the allocation of its node ([old_hooks_only_free]). *)

From stdpp Require Import functions.
From S2P Require Import Prelude.
From S2P Require Import MemChecker.

(** ** Calls and the programs that make them *)

Inductive fn : Type := F_malloc | F_free | F_calloc | F_realloc | F_reallocarray.

#[export] Instance fn_eq_decision : EqDecision fn.
Proof. solve_decision. Defined.

Inductive call : Type :=
| Malloc (size : Z)
| Free (ptr : Z)
| Calloc (nmemb size : Z)
| Realloc (ptr size : Z)
| Reallocarray (ptr nmemb size : Z).

Definition allocates (c : call) : bool := match c with Free _ => false | _ => true end.

(** A program that makes allocator calls, each answered by a pointer, and ends with an [A]. *)
Inductive prog (A : Type) : Type :=
| Answer (a : A)
| Do (c : call) (k : Z -> prog A).
Arguments Answer {A} _.
Arguments Do {A} _ _.

(** What the hooks call: the functions of libc, [mmap] ([None] is [MAP_FAILED]) and [dlsym], which answers whether it
    found the function. [mapped] is the set of the mappings handed out. *)
Class Real (H : Type) : Type := {
  real_malloc : H -> Z -> Z * H;
  real_free : H -> Z -> H;
  real_calloc : H -> Z -> Z -> Z * H;
  real_realloc : H -> Z -> Z -> Z * H;
  real_reallocarray : H -> Z -> Z -> Z -> Z * H;
  mmap : H -> Z -> option Z * H;
  mapped : H -> gset Z;
  dlsym : fn -> prog bool;
}.

(** A mapping is fresh and not at NULL. *)
Class RealLaws (H : Type) `{Real H} : Prop := {
  mmap_law : forall h n, match mmap h n with
                         | (Some p, h') => p <> 0 /\ (p ∉ mapped h) /\ mapped h' = {[p]} ∪ mapped h
                         | (None, h') => mapped h' = mapped h
                         end;
}.

Section old_hook.
Context {H : Type} `{Real H}.

(** ** State

    [zalloc_cnt] is the length of [zalloc_list]; [r_ f] tells whether the pointer to the function [f] is set. *)
Record world : Type := World {
  zalloc_list : list Z;
  alloc_init_pending : bool;
  r_ : fn -> bool;
  heap : H;
  chk : checker;
}.

Definition zalloc_cnt (w : world) : Z := Z.of_nat (length (zalloc_list w)).

Definition set_pending (b : bool) (w : world) : world :=
  World (zalloc_list w) b (r_ w) (heap w) (chk w).

Definition set_r (f : fn) (b : bool) (w : world) : world :=
  World (zalloc_list w) (alloc_init_pending w) (<[f := b]> (r_ w)) (heap w) (chk w).

Definition set_heap (h : H) (w : world) : world :=
  World (zalloc_list w) (alloc_init_pending w) (r_ w) h (chk w).

Definition set_chk (c : checker) (w : world) : world :=
  World (zalloc_list w) (alloc_init_pending w) (r_ w) (heap w) c.

(** How a call ends; a run that exhausts its fuel is [None]. *)
Inductive outcome : Type :=
| Returns (r : Z) (w : world)
| Null_call
| Bad_alloc.

(** ** The bootstrap allocator *)

Definition ZALLOC_MAX : Z := 1024.

Definition zalloc_internal (size : Z) (w : world) : Z * world :=
  if ZALLOC_MAX - 1 <=? zalloc_cnt w then (0, w)
  else
    match mmap (heap w) size with
    | (None, h) => (0, set_heap h w)
    | (Some ptr, h) =>
        (ptr, World (zalloc_list w ++ [ptr]) (alloc_init_pending w) (r_ w) h (chk w))
    end.

(** The branches of the five hooks that are taken while [alloc_init_pending] is set. *)
Definition exec_pending (c : call) (w : world) : Z * world :=
  match c with
  | Malloc size => zalloc_internal size w
  | Free _ => (0, w)
  | Calloc nmemb size | Reallocarray _ nmemb size => zalloc_internal (wrapU 64 (nmemb * size)) w
  | Realloc ptr size => if ptr =? 0 then zalloc_internal size w else (0, w)
  end.

(** ** [init_map] *)

(** A program run inside [init_map]. *)
Fixpoint run_pending {A} (p : prog A) (w : world) : A * world :=
  match p with
  | Answer a => (a, w)
  | Do c k => let '(r, w') := exec_pending c w in run_pending (k r) w'
  end.

(** [r_f = (f_fun)dlsym(RTLD_NEXT, "f")] *)
Definition lookup_fn (f : fn) (w : world) : world :=
  let '(b, w') := run_pending (dlsym f) w in set_r f b w'.

Definition init_map (w : world) : world :=
  set_pending false
    (lookup_fn F_reallocarray (lookup_fn F_realloc (lookup_fn F_calloc (lookup_fn F_free
      (lookup_fn F_malloc (set_pending true w)))))).

(** [TRACE_INIT] *)
Definition trace_init (w : world) : world := if r_ w F_malloc then w else init_map w.

(** ** The hooks *)

Definition sizeof_node : Z := 48.

(** [mem_checker::add], up to its report: the total is increased, then the node of a new key comes from
    [operator new], that is from [malloc], given as an argument; the result of the hook is [p]. *)
Definition checker_add (malloc : Z -> world -> option outcome) (p len : Z) (w : world) : option outcome :=
  _ ← trace_lock (m_mutex_ (chk w));
  let w1 := set_chk (set_mem (wrapU 64 (mem_ (chk w) + len)) (chk w)) w in
  match map_ (chk w1) !! p with
  | Some _ => Some (Returns p w1)
  | None =>
      o ← malloc sizeof_node w1;
      match o with
      | Returns node w2 =>
          if node =? 0 then Some Bad_alloc
          else Some (Returns p (set_chk (map_insert p len node (chk w2)) w2))
      | _ => Some o
      end
  end.

(** What the four allocating hooks share: the pending branch, [TRACE_INIT], the call of the function of libc through
    its pointer, and the report to the checker. *)
Definition hooked (malloc : Z -> world -> option outcome) (c : call) (f : fn) (real : H -> Z * H)
    (len : Z) (w : world) : option outcome :=
  if alloc_init_pending w then
    let '(p, w') := exec_pending c w in Some (Returns p w')
  else
    let w1 := trace_init w in
    if r_ w1 f then
      let '(p, h) := real (heap w1) in checker_add malloc p len (set_heap h w1)
    else Some Null_call.

Fixpoint malloc (fuel : nat) (size : Z) (w : world) : option outcome :=
  match fuel with
  | O => None
  | S fuel' => hooked (malloc fuel') (Malloc size) F_malloc (fun h => real_malloc h size) size w
  end.

Definition calloc (fuel : nat) (nmemb size : Z) (w : world) : option outcome :=
  hooked (malloc fuel) (Calloc nmemb size) F_calloc (fun h => real_calloc h nmemb size)
    (wrapU 64 (nmemb * size)) w.

Definition realloc (fuel : nat) (ptr size : Z) (w : world) : option outcome :=
  hooked (malloc fuel) (Realloc ptr size) F_realloc (fun h => real_realloc h ptr size) size w.

Definition reallocarray (fuel : nat) (ptr nmemb size : Z) (w : world) : option outcome :=
  hooked (malloc fuel) (Reallocarray ptr nmemb size) F_reallocarray
    (fun h => real_reallocarray h ptr nmemb size) (wrapU 64 (nmemb * size)) w.

(** [free]; the node that [mem_checker::del] erases is freed by [free] too. *)
Fixpoint free (fuel : nat) (ptr : Z) (w : world) : option outcome :=
  match fuel with
  | O => None
  | S fuel' =>
      if alloc_init_pending w then Some (Returns 0 w)
      else if bool_decide (ptr ∈ zalloc_list w) then Some (Returns 0 w)
      else
        let w1 := trace_init w in
        r ← del ptr (chk w1);
        let '(c, node) := r in
        o ← (match node with
             | Some n => free fuel' n (set_chk c w1)
             | None => Some (Returns 0 (set_chk c w1))
             end);
        match o with
        | Returns _ w2 =>
            if r_ w2 F_free then Some (Returns 0 (set_heap (real_free (heap w2) ptr) w2)) else Some Null_call
        | _ => Some o
        end
  end.

Definition exec (fuel : nat) (c : call) (w : world) : option outcome :=
  match c with
  | Malloc size => malloc fuel size w
  | Free ptr => free fuel ptr w
  | Calloc nmemb size => calloc fuel nmemb size w
  | Realloc ptr size => realloc fuel ptr size w
  | Reallocarray ptr nmemb size => reallocarray fuel ptr nmemb size w
  end.

(** The process before its first call, and what it can reach by calls that return. *)
Definition start (h : H) : world := World [] false (fun _ => false) h checker_init.

Inductive client_run : list call -> world -> Prop :=
| client_start h : client_run [] (start h)
| client_call cs c w fuel r w' :
    client_run cs w -> exec fuel c w = Some (Returns r w') -> client_run (c :: cs) w'.

(** [dlsym] finds [f] whatever its calls are answered. *)
Fixpoint answers_true (p : prog bool) : Prop :=
  match p with Answer b => b = true | Do _ k => forall r, answers_true (k r) end.

(** ** Lemmas *)

(** The bootstrap allocator keeps the rest of the world. *)
Definition same_rest (w w' : world) : Prop :=
  chk w' = chk w /\ r_ w' = r_ w /\ alloc_init_pending w' = alloc_init_pending w.

Lemma zalloc_rest size w : same_rest w (zalloc_internal size w).2.
Proof. unfold zalloc_internal. repeat case_match; done. Qed.

Lemma exec_pending_rest c w : same_rest w (exec_pending c w).2.
Proof. destruct c; cbn; try case_match; try apply zalloc_rest; done. Qed.

Lemma run_pending_rest {A} (p : prog A) w : same_rest w (run_pending p w).2.
Proof.
  revert w. induction p as [a|c k IH]; intros w; cbn; [done|].
  pose proof (exec_pending_rest c w) as (E1 & E2 & E3). destruct (exec_pending c w) as [r w1]. cbn in *.
  destruct (IH r w1) as (? & ? & ?). repeat split; congruence.
Qed.

Lemma run_pending_true p w : answers_true p -> (run_pending p w).1 = true.
Proof.
  revert w. induction p as [a|c k IH]; intros w Hp; cbn in *; [done|].
  destruct (exec_pending c w). by apply IH.
Qed.

(** What a [dlsym] of [init_map] changes. *)
Lemma lookup_fn_spec f w :
  answers_true (dlsym f) ->
  chk (lookup_fn f w) = chk w /\ r_ (lookup_fn f w) = <[f := true]> (r_ w).
Proof.
  intros Hf. unfold lookup_fn. pose proof (run_pending_true _ w Hf) as Hb.
  pose proof (run_pending_rest (dlsym f) w) as (E1 & E2 & _).
  destruct (run_pending (dlsym f) w) as [b w1]. cbn in *. by rewrite Hb, E1, E2.
Qed.

(** Before the first call, or after [init_map]. *)
Definition initialised (w : world) : Prop := forall f, r_ w f = true.

Definition fresh_or_initialised (w : world) : Prop := r_ w F_malloc = false \/ initialised w.

Lemma trace_init_spec w :
  (forall f, answers_true (dlsym f)) -> fresh_or_initialised w -> alloc_init_pending w = false ->
  initialised (trace_init w) /\ chk (trace_init w) = chk w /\ alloc_init_pending (trace_init w) = false.
Proof.
  intros Hd Hw Hp. unfold trace_init. destruct (r_ w F_malloc) eqn:E.
  - destruct Hw as [?|Hw]; [congruence|]. done.
  - split; [|split; [|done]]; cbn.
    + intros f. unfold init_map. cbn. do 5 (rewrite (proj2 (lookup_fn_spec _ _ (Hd _)))). by destruct f.
    + do 5 (rewrite (proj1 (lookup_fn_spec _ _ (Hd _)))). done.
Qed.

(** The state in which the checker has never recorded anything. *)
Record blank (w : world) : Prop := Blank {
  bl_map : map_ (chk w) = ∅;
  bl_mutex : m_mutex_ (chk w) = 0;
  bl_pending : alloc_init_pending w = false;
  bl_init : fresh_or_initialised w;
}.

(** An allocation whose nested [malloc] does not come back does not come back. *)
Lemma hooked_blank rec c f real len w :
  (forall g, answers_true (dlsym g)) -> blank w ->
  (forall w', blank w' -> rec sizeof_node w' = None) -> hooked rec c f real len w = None.
Proof.
  intros Hd [Hm Hx Hp Hi] Hrec. unfold hooked. rewrite Hp.
  destruct (trace_init_spec w Hd Hi Hp) as (Hr & Hc & Hp'). rewrite Hr.
  destruct (real _) as [p h]. unfold checker_add, trace_lock. cbn. rewrite Hc, Hx, Hm, lookup_empty. cbn.
  rewrite Hrec; [done|]. split; cbn; try done. by right.
Qed.

Lemma malloc_blank fuel size w :
  (forall g, answers_true (dlsym g)) -> blank w -> malloc fuel size w = None.
Proof.
  intros Hd. revert size w. induction fuel as [|fuel IH]; intros size w Hw; [done|]. cbn [malloc].
  apply hooked_blank; auto.
Qed.

Lemma exec_blank fuel c w :
  (forall g, answers_true (dlsym g)) -> blank w -> allocates c = true -> exec fuel c w = None.
Proof.
  intros Hd Hw Hc. assert (Hm := fun size w' => malloc_blank fuel size w' Hd).
  destruct c; try done; cbn [exec]; [by apply Hm| | |]; apply hooked_blank; auto.
Qed.

(** [free] in that state: an address of the bootstrap is ignored, any other one goes to libc. *)
Lemma free_blank fuel ptr w :
  (forall g, answers_true (dlsym g)) -> blank w ->
  exists w', free (S fuel) ptr w = Some (Returns 0 w') /\ blank w' /\ chk w' = chk w.
Proof.
  intros Hd [Hm Hx Hp Hi]. cbn [free]. rewrite Hp. case_bool_decide.
  { exists w. split; [done|]. by split. }
  destruct (trace_init_spec w Hd Hi Hp) as (Hr & Hc & Hp').
  assert (Hdel : del ptr (chk (trace_init w)) = Some (chk w, None)).
  { unfold del, trace_lock. rewrite Hc, Hx, Hm, lookup_empty. by case_match. }
  rewrite Hdel. cbn. rewrite Hr. eexists. split; [done|]. split; [|done]. split; cbn; try done. by right.
Qed.

Lemma free_fuel fuel ptr w r w' : free fuel ptr w = Some (Returns r w') -> exists fuel', fuel = S fuel'.
Proof. destruct fuel; [done|eauto]. Qed.

(** The list of the bootstrap's blocks: bounded, without repetition, and of mappings. *)
Record zalloc_inv (w : world) : Prop := ZallocInv {
  za_bound : zalloc_cnt w <= ZALLOC_MAX - 1;
  za_nodup : NoDup (zalloc_list w);
  za_mapped : Forall (fun p => p <> 0 /\ p ∈ mapped (heap w)) (zalloc_list w);
}.

Lemma zalloc_step `{!RealLaws H} size w :
  zalloc_inv w ->
  zalloc_inv (zalloc_internal size w).2
  /\ ((zalloc_internal size w).1 = 0
      \/ zalloc_list (zalloc_internal size w).2 = zalloc_list w ++ [(zalloc_internal size w).1]).
Proof.
  intros [Hb Hn Hm]. unfold zalloc_internal. destruct (Z.leb_spec (ZALLOC_MAX - 1) (zalloc_cnt w)); [split; [by split|by left]|].
  pose proof (mmap_law (heap w) size) as Hl. destruct (mmap (heap w) size) as [[p|] h]; cbn.
  - destruct Hl as (Hp & Hf & E). split; [|by right]. split; unfold zalloc_cnt in *; cbn.
    + rewrite length_app. cbn. lia.
    + apply NoDup_app. split; [done|]. split; [|by apply NoDup_singleton].
      intros x Hx ->%list_elem_of_singleton. rewrite Forall_forall in Hm. destruct (Hm _ Hx). done.
    + rewrite E. apply Forall_app. split; [|apply Forall_singleton; set_solver].
      eapply Forall_impl; [exact Hm|]. cbn. set_solver.
  - split; [|by left]. split; cbn; [done|done|]. by rewrite Hl.
Qed.

Lemma exec_pending_zalloc `{!RealLaws H} c w :
  zalloc_inv w ->
  zalloc_inv (exec_pending c w).2
  /\ ((exec_pending c w).1 = 0 \/ (exec_pending c w).1 ∈ zalloc_list (exec_pending c w).2)
  /\ zalloc_list w `prefix_of` zalloc_list (exec_pending c w).2.
Proof.
  intros Hw. assert (Hz : forall size, zalloc_inv (zalloc_internal size w).2
    /\ ((zalloc_internal size w).1 = 0 \/ (zalloc_internal size w).1 ∈ zalloc_list (zalloc_internal size w).2)
    /\ zalloc_list w `prefix_of` zalloc_list (zalloc_internal size w).2).
  { intros size. destruct (zalloc_step size w Hw) as [Hi Hr]. split; [done|].
    assert (Hp : zalloc_list w `prefix_of` zalloc_list (zalloc_internal size w).2).
    { unfold zalloc_internal. repeat case_match; cbn; try done. by apply prefix_app_r. }
    split; [|done]. destruct Hr as [?|E]; [by left|right]. rewrite E. set_solver. }
  destruct c; cbn; try case_match; auto.
Qed.

Lemma run_pending_zalloc `{!RealLaws H} {A} (p : prog A) w :
  zalloc_inv w -> zalloc_inv (run_pending p w).2 /\ zalloc_list w `prefix_of` zalloc_list (run_pending p w).2.
Proof.
  revert w. induction p as [a|c k IH]; intros w Hw; cbn; [done|].
  destruct (exec_pending_zalloc c w Hw) as (Hw' & _ & Hp). destruct (exec_pending c w) as [r w1].
  destruct (IH r w1 Hw') as [? ?]. split; [done|]. by etrans.
Qed.

(** ** Properties *)

(** These hooks let no program allocate: after any calls that returned, which can only be calls of [free], the
    checker has counted nothing, every call of [free] returns, and every allocation recurses for ever, [malloc]
    calling [mem_checker::add], which calls [malloc] for its node. *)
Theorem old_hooks_only_free (cs : list call) (w : world) :
  (forall f, answers_true (dlsym f)) -> client_run cs w ->
  Forall (fun c => allocates c = false) cs /\ mem_ (chk w) = 0 /\ map_ (chk w) = ∅
  /\ (forall p, exists w', exec 1 (Free p) w = Some (Returns 0 w'))
  /\ (forall c fuel, allocates c = true -> exec fuel c w = None).
Proof.
  intros Hd Hr. assert (Hb : Forall (fun c => allocates c = false) cs /\ mem_ (chk w) = 0 /\ blank w).
  { induction Hr as [h|cs c w fuel r w' Hr (Hf & Hm & Hb) He].
    - repeat split; try done. by left.
    - destruct (allocates c) eqn:Ha; [by rewrite exec_blank in He|].
      destruct c as [|p| | |]; try done. destruct (free_fuel _ _ _ _ _ He) as [n ->]. cbn [exec] in He.
      destruct (free_blank n p w Hd Hb) as (w1 & E & Hb1 & Hc). rewrite E in He. injection He as _ <-.
      split; [by constructor|]. by rewrite Hc. }
  destruct Hb as (Hf & Hm & Hb). split; [done|]. split; [done|]. split; [apply Hb|]. split.
  - intros p. destruct (free_blank 0 p w Hd Hb) as (w' & ? & _). eauto.
  - intros c fuel. by apply exec_blank.
Qed.

(** The bootstrap: whatever [dlsym] calls during [init_map], the list of its blocks stays below [ZALLOC_MAX - 1], names
    each block once and forgets none, an answer is NULL or in the list, the checker sees nothing of it, and [free]
    ignores these blocks for ever after. *)
Theorem bootstrap_blocks `{!RealLaws H} {A} (p : prog A) (c : call) (w : world) :
  zalloc_inv w ->
  let w' := (exec_pending c (run_pending p w).2).2 in
  let r := (exec_pending c (run_pending p w).2).1 in
  zalloc_cnt w' <= ZALLOC_MAX - 1 /\ NoDup (zalloc_list w') /\ zalloc_list w `prefix_of` zalloc_list w'
  /\ (r = 0 \/ r ∈ zalloc_list w') /\ chk w' = chk w
  /\ (forall w2 ptr fuel, zalloc_list w' `prefix_of` zalloc_list w2 -> ptr ∈ zalloc_list w' ->
        free (S fuel) ptr w2 = Some (Returns 0 w2)).
Proof.
  intros Hw. destruct (run_pending_zalloc p w Hw) as [H1 P1].
  destruct (exec_pending_zalloc c _ H1) as (H2 & Hr & P2). cbn. repeat split; try apply H2; [|exact Hr| |].
  - by etrans.
  - rewrite (proj1 (exec_pending_rest c _)). apply run_pending_rest.
  - intros w2 ptr fuel [l E] Hp. cbn [free]. destruct (alloc_init_pending w2); [done|].
    rewrite bool_decide_true; [done|]. rewrite E. set_solver.
Qed.

(** Once 1023 blocks are handed out the bootstrap has no more: [calloc] answers NULL to [dlsym]. *)
Theorem bootstrap_exhausted (nmemb size : Z) (w : world) :
  ZALLOC_MAX - 1 <= zalloc_cnt w -> exec_pending (Calloc nmemb size) w = (0, w).
Proof. intros Hw. cbn. unfold zalloc_internal. by rewrite (proj2 (Z.leb_le _ _) Hw). Qed.

(** [nmemb*size] wraps: a request of 2^63 + 1 elements of two bytes maps two bytes. *)
Theorem bootstrap_calloc_wraps (w : world) :
  exec_pending (Calloc (2 ^ 63 + 1) 2) w = zalloc_internal 2 w.
Proof. done. Qed.

End old_hook.

(** ** A concrete libc

    Addresses are handed out in order; [dlsym] allocates once per name, as for the buffer of [dlerror]. *)
Record bump : Type := Bump { next : Z; maps : gset Z }.

Definition next_address (h : bump) : Z * bump := (next h, Bump (next h + 16) (maps h)).

#[global] Instance bump_real : Real bump := {
  real_malloc h _ := next_address h;
  real_free h _ := h;
  real_calloc h _ _ := next_address h;
  real_realloc h _ _ := next_address h;
  real_reallocarray h _ _ _ := next_address h;
  mmap h n :=
    if bool_decide (n = 0 \/ next h = 0 \/ next h ∈ maps h) then (None, h)
    else (Some (next h), Bump (next h + 4096) ({[next h]} ∪ maps h));
  mapped h := maps h;
  dlsym _ := Do (Calloc 1 32) (fun _ => Answer true);
}.

#[global] Instance bump_laws : RealLaws bump.
Proof. split. intros h n. cbn. case_bool_decide as E; [done|]. cbn. naive_solver. Qed.

Definition bump_start : world := start (Bump 4096 ∅).

(** The state after [free(NULL)], the program's first call. *)
Definition bump_after_free : world :=
  match exec 1 (Free 0) bump_start with Some (Returns _ w) => w | _ => bump_start end.

(** ** Witnesses *)

Lemma old_hooks_only_free_witness :
  client_run [Free 0] bump_after_free
  /\ zalloc_list bump_after_free = [4096; 8192; 12288; 16384; 20480]
  /\ exec 1000 (Malloc 8) bump_after_free = None.
Proof.
  assert (Hr : client_run [Free 0] bump_after_free).
  { apply (client_call [] (Free 0) bump_start 1 0); [apply client_start|by vm_compute]. }
  split; [exact Hr|]. split; [done|].
  apply (old_hooks_only_free [Free 0] bump_after_free); [by intros f r|exact Hr|done].
Defined.

Lemma bootstrap_blocks_witness :
  (exec_pending (Malloc 8) bump_start).1 = 4096
  /\ free 1 4096 (exec_pending (Malloc 8) bump_start).2
     = Some (Returns 0 (exec_pending (Malloc 8) bump_start).2).
Proof.
  split; [done|].
  apply (bootstrap_blocks (Answer tt) (Malloc 8) bump_start); [split; cbn; [done|constructor|constructor]|done|].
  set_solver.
Defined.

Lemma bootstrap_exhausted_witness :
  let w := World (repeat 1 1023) true (fun _ => false) (Bump 0 ∅) checker_init in
  ZALLOC_MAX - 1 <= zalloc_cnt w /\ exec_pending (Calloc 1 8) w = (0, w).
Proof.
  intros w. split; [done|]. apply (bootstrap_exhausted 1 8 w). done.
Defined.
