(* ===== verification/Mm.v ===== *)
(** * The mmap hooks ([src/src/mm.cpp])

    [mmap] and [munmap] print, look up the functions of libc the first time, and call them through pointers. Threads
    run them at the same time, without a lock: a step of the machine is one access to the pointers. What [dlsym]
    finds is an argument. *)

From S2P Require Import Prelude.

Inductive mm_fun : Type := Mmap | Munmap.

#[export] Instance mm_fun_eq_decision : EqDecision mm_fun.
Proof. solve_decision. Defined.

(** Where a call is: at the test of [TRACE_INIT], at the two assignments of [init_map], at the call, back
    with the function it called ([None] for a NULL pointer, which is undefined). *)
Inductive pc : Type :=
| Test (f : mm_fun)
| Init_mmap (f : mm_fun)
| Init_munmap (f : mm_fun)
| Forward (f : mm_fun)
| Ret (f : mm_fun) (target : option Z).

Record mm : Type := MM {
  r_mmap : option Z;
  r_munmap : option Z;
  calls : gmap nat pc;
}.

Definition goto (i : nat) (p : pc) (s : mm) : mm := MM (r_mmap s) (r_munmap s) (<[i := p]> (calls s)).

(** The pointer a call goes through. *)
Definition pointer (f : mm_fun) (s : mm) : option Z :=
  match f with Mmap => r_mmap s | Munmap => r_munmap s end.

Section mm.

(** The results of the two calls of [dlsym]. *)
Context (dlsym_mmap dlsym_munmap : option Z).

(** [TRACE_INIT] *)
Definition trace_init (i : nat) (f : mm_fun) (s : mm) : mm :=
  goto i (if bool_decide (r_mmap s = None) then Init_mmap f else Forward f) s.

(** The two assignments of [init_map]. *)
Definition init_mmap (i : nat) (f : mm_fun) (s : mm) : mm :=
  goto i (Init_munmap f) (MM dlsym_mmap (r_munmap s) (calls s)).

Definition init_munmap (i : nat) (f : mm_fun) (s : mm) : mm :=
  goto i (Forward f) (MM (r_mmap s) dlsym_munmap (calls s)).

(** [r_mmap(...)] and [r_munmap(...)] *)
Definition forward (i : nat) (f : mm_fun) (s : mm) : mm := goto i (Ret f (pointer f s)) s.

Inductive action : Type :=
| Call (i : nat) (f : mm_fun)
| Step (i : nat).

Definition mm_exec (a : action) (s : mm) : option mm :=
  match a with
  | Call i f => match calls s !! i with None | Some (Ret _ (Some _)) => Some (goto i (Test f) s) | _ => None end
  | Step i =>
      match calls s !! i with
      | Some (Test f) => Some (trace_init i f s)
      | Some (Init_mmap f) => Some (init_mmap i f s)
      | Some (Init_munmap f) => Some (init_munmap i f s)
      | Some (Forward f) => Some (forward i f s)
      | Some (Ret _ _) | None => None
      end
  end.

#[global] Instance mm_machine : Machine mm action :=
  {| m_init s := s = MM None None ∅; m_exec := mm_exec |}.

(** One call by itself: the machine's steps in a row. *)
Definition call_alone (f : mm_fun) (ptrs : option Z * option Z) : (option Z * option Z) * option Z :=
  let ptrs' := if bool_decide (ptrs.1 = None) then (dlsym_mmap, dlsym_munmap) else ptrs in
  (ptrs', match f with Mmap => ptrs'.1 | Munmap => ptrs'.2 end).

Fixpoint calls_alone (fs : list mm_fun) (ptrs : option Z * option Z) : list (option Z) :=
  match fs with
  | [] => []
  | f :: fs' => let '(ptrs', t) := call_alone f ptrs in t :: calls_alone fs' ptrs'
  end.

(** ** Invariant *)

Definition target (f : mm_fun) : option Z := match f with Mmap => dlsym_mmap | Munmap => dlsym_munmap end.

Definition call_ok (s : mm) (p : pc) : Prop :=
  match p with
  | Test _ | Init_mmap _ => True
  | Init_munmap _ => r_mmap s = dlsym_mmap
  | Forward f => is_Some (r_mmap s) /\ r_mmap s = dlsym_mmap
  | Ret Mmap t => t = dlsym_mmap
  | Ret Munmap t => t = None \/ t = dlsym_munmap
  end.

Definition mm_inv (s : mm) : Prop :=
  (r_mmap s = None \/ r_mmap s = dlsym_mmap) /\ (r_munmap s = None \/ r_munmap s = dlsym_munmap)
  /\ map_Forall (fun _ p => call_ok s p) (calls s).

Lemma mm_inv_step a s s' : is_Some dlsym_mmap -> mm_inv s -> mm_exec a s = Some s' -> mm_inv s'.
Proof.
  intros Hd (Hm & Hu & Hc) Hs. assert (Hput : forall i p s1, call_ok s1 p -> r_mmap s1 = r_mmap s \/ r_mmap s1 = dlsym_mmap ->
    (r_munmap s1 = None \/ r_munmap s1 = dlsym_munmap) -> calls s1 = calls s -> mm_inv (goto i p s1)).
  { intros i p s1 Hp E1 E2 Ec. split; [cbn; destruct E1 as [-> | ->]; auto|]. split; [done|]. cbn. rewrite Ec.
    apply map_Forall_insert_2; [by destruct p|]. eapply map_Forall_impl; [exact Hc|]. intros j q Hq. cbn in Hq |- *.
    destruct q as [| |f|f|f t]; cbn in *; try done; destruct E1 as [E1|E1]; rewrite E1; intuition congruence. }
  destruct a as [i f|i]; cbn in Hs.
  - destruct (calls s !! i) as [[| | | |? []]|]; try done; injection Hs as <-; apply Hput; cbn; auto.
  - destruct (calls s !! i) as [p|] eqn:Hi; [|done]. pose proof (map_Forall_lookup_1 _ _ _ _ Hc Hi) as Hp. cbn in Hp.
    destruct p as [f|f|f|f|]; try done; injection Hs as <-; apply Hput; cbn; auto.
    + case_bool_decide as E; cbn; [done|]. destruct Hm as [?|Hm]; [done|]. split; [rewrite Hm|]; done.
    + by rewrite Hp.
    + destruct Hp as [_ Hp]. destruct f; cbn; auto.
Qed.

(** ** Properties *)

(** Whatever the threads do, every call of [mmap] that returns went through the pointer [dlsym] found, never
    through a NULL pointer, and a call of [munmap] went through the pointer [dlsym] found or through NULL. *)
Theorem mmap_forwards (s : mm) (i : nat) (f : mm_fun) (t : option Z) :
  is_Some dlsym_mmap -> reachable s -> calls s !! i = Some (Ret f t) ->
  t = target f \/ (f = Munmap /\ t = None).
Proof.
  intros Hd Hr Hi. assert (H : forall s, reachable s -> mm_inv s).
  { apply reachable_invariant; [intros ? ->; split; [by left|by split; [left|]]|]. intros a s1 s2. by apply mm_inv_step. }
  destruct (H s Hr) as (_ & _ & Hc). pose proof (map_Forall_lookup_1 _ _ _ _ Hc Hi) as Hp.
  destruct f; cbn in Hp; [by left|]. destruct Hp; [by right|by left].
Qed.

(** Calls that do not overlap all go through the pointers [dlsym] found. *)
Theorem calls_alone_forward (fs : list mm_fun) (ptrs : option Z * option Z) :
  is_Some dlsym_mmap -> ptrs = (None, None) \/ ptrs = (dlsym_mmap, dlsym_munmap) ->
  calls_alone fs ptrs = map target fs.
Proof.
  intros [p Hd]. revert ptrs. induction fs as [|f fs IH]; intros ptrs Hp; [done|].
  assert (E : call_alone f ptrs = ((dlsym_mmap, dlsym_munmap), target f)).
  { unfold call_alone, target. rewrite Hd in *. by destruct Hp as [-> | ->], f. }
  cbn [calls_alone map]. rewrite E. f_equal. apply IH. by right.
Qed.

End mm.

(** [TRACE_INIT] tests [r_mmap], which [init_map] sets before [r_munmap]: a thread that comes between the two
    assignments makes [munmap] call a NULL pointer, although both functions exist. *)
Theorem munmap_calls_null :
  exists s, @reachable _ _ (mm_machine (Some 1) (Some 2)) s /\ calls s !! 1%nat = Some (Ret Munmap None).
Proof.
  eexists. split; [exists (MM None None ∅), [Call 0 Mmap; Step 0; Step 0; Call 1 Munmap; Step 1; Step 1]; split|].
  - done.
  - vm_compute. reflexivity.
  - done.
Qed.

(** ** Witnesses *)

Lemma mmap_forwards_witness : Some 1 = target (Some 1) (Some 2) Mmap \/ (Mmap = Munmap /\ Some 1 = None).
Proof.
  apply (mmap_forwards (Some 1) (Some 2)
    (default (MM None None ∅) (@run _ _ (mm_machine (Some 1) (Some 2))
      [Call 0 Mmap; Step 0; Step 0; Step 0; Step 0] (MM None None ∅))) 0 Mmap (Some 1)).
  - by eexists.
  - exists (MM None None ∅), [Call 0 Mmap; Step 0; Step 0; Step 0; Step 0]. split; [done|]. by vm_compute.
  - by vm_compute.
Defined.

Lemma calls_alone_forward_witness :
  calls_alone (Some 1) (Some 2) [Munmap; Mmap] (None, None) = [Some 2; Some 1].
Proof.
  etransitivity; [apply (calls_alone_forward (Some 1) (Some 2) [Munmap; Mmap] (None, None)); [by eexists|by left]|done].
Defined.
