(* ===== verification/TraceUtil.v ===== *)
(** * Thread identifiers and the instance of [mem_fuller] ([src/src/trace_util.h])

    [get_tid] asks the kernel for the thread's identifier until that fails once, and answers with the process's
    identifier from then on. [mem_fuller::instance] makes the object the threads of [Safepoint.v] share,
    without a lock: a step of its machine is one access to [self_]. *)

From S2P Require Import Prelude.

(** ** [get_tid] *)

(** [lacks_gettid], the answer of the system call and the one of [getpid()]. *)
Definition get_tid (lacks_gettid : bool) (tid pid : Z) : Z * bool :=
  if negb lacks_gettid then if negb (tid =? -1) then (tid, lacks_gettid) else (pid, true)
  else (pid, lacks_gettid).

(** Successive calls, each with what the system would answer. *)
Fixpoint get_tids (lacks_gettid : bool) (answers : list (Z * Z)) : list Z :=
  match answers with
  | [] => []
  | (tid, pid) :: answers' =>
      let '(r, lacks') := get_tid lacks_gettid tid pid in r :: get_tids lacks' answers'
  end.

(** ** [mem_fuller::instance] *)

(** At the test, in the constructor, at the assignment of the new object, at the return, back with an object. *)
Inductive pc : Type :=
| Test
| New
| Store (obj : nat)
| Load
| Ret (obj : option nat).

(** [made] is the number of objects made: the next one is numbered by it. *)
Record instances : Type := Instances {
  self_ : option nat;
  made : nat;
  callers : gmap nat pc;
}.

Definition goto (i : nat) (p : pc) (s : instances) : instances := Instances (self_ s) (made s) (<[i := p]> (callers s)).

(** [if (self_ == NULL)] *)
Definition instance_test (i : nat) (s : instances) : instances :=
  goto i (if bool_decide (self_ s = None) then New else Load) s.

(** [new mem_fuller()], and the assignment. *)
Definition instance_new (i : nat) (s : instances) : instances :=
  goto i (Store (made s)) (Instances (self_ s) (S (made s)) (callers s)).

Definition instance_store (i : nat) (obj : nat) (s : instances) : instances :=
  goto i Load (Instances (Some obj) (made s) (callers s)).

(** [return self_] *)
Definition instance_load (i : nat) (s : instances) : instances := goto i (Ret (self_ s)) s.

Inductive action : Type :=
| Call (i : nat)
| Step (i : nat).

Definition instance_exec (a : action) (s : instances) : option instances :=
  match a with
  | Call i => match callers s !! i with None | Some (Ret _) => Some (goto i Test s) | _ => None end
  | Step i =>
      match callers s !! i with
      | Some Test => Some (instance_test i s)
      | Some New => Some (instance_new i s)
      | Some (Store obj) => Some (instance_store i obj s)
      | Some Load => Some (instance_load i s)
      | Some (Ret _) | None => None
      end
  end.

Definition instances_init : instances := Instances None 0 ∅.

#[export] Instance instance_machine : Machine instances action :=
  {| m_init s := s = instances_init; m_exec := instance_exec |}.

(** Nobody is between the test and the assignment: [obj] is there to stay. *)
Definition making (p : pc) : bool := match p with New | Store _ => true | _ => false end.

Definition settled (obj : nat) (s : instances) : Prop :=
  self_ s = Some obj /\ map_Forall (fun _ p => making p = false) (callers s).

(** ** Lemmas *)

(** A known object, and callers that hold objects. *)
Definition caller_ok (s : instances) (p : pc) : Prop :=
  match p with
  | Test | New => True
  | Store obj => (obj < made s)%nat
  | Load => is_Some (self_ s)
  | Ret r => exists obj, r = Some obj /\ (obj < made s)%nat
  end.

Definition instances_inv (s : instances) : Prop :=
  (forall obj, self_ s = Some obj -> (obj < made s)%nat) /\ map_Forall (fun _ p => caller_ok s p) (callers s).

Lemma instances_put i p s s1 :
  instances_inv s -> callers s1 = callers s -> (made s <= made s1)%nat ->
  (is_Some (self_ s) -> is_Some (self_ s1)) -> (forall obj, self_ s1 = Some obj -> (obj < made s1)%nat) ->
  caller_ok s1 p -> instances_inv (goto i p s1).
Proof.
  intros [Hs Hc] Ec Hm Hsome Hs1 Hp. split; [done|]. cbn. rewrite Ec.
  apply map_Forall_insert_2; [by destruct p|]. eapply map_Forall_impl; [exact Hc|].
  intros j q Hq. destruct q as [| |obj| |r]; cbn in *; try done; [lia|auto|].
  destruct Hq as (obj & -> & Hlt). exists obj. split; [done|lia].
Qed.

Lemma instances_inv_step a s s' : instances_inv s -> instance_exec a s = Some s' -> instances_inv s'.
Proof.
  intros Hi Hs. pose proof Hi as [Hself Hc]. destruct a as [i|i]; cbn in Hs.
  - destruct (callers s !! i) as [[]|]; try done; injection Hs as <-; by apply (instances_put i Test s s).
  - destruct (callers s !! i) as [p|] eqn:E; [|done]. pose proof (map_Forall_lookup_1 _ _ _ _ Hc E) as Hp.
    cbn in Hp. destruct p as [| |obj| |r]; try done; injection Hs as <-.
    + apply (instances_put i _ s s); try done. case_bool_decide as Hn; [done|]. cbn.
      destruct (self_ s); [by eexists|done].
    + apply (instances_put i _ s); try done; cbn; [lia| |lia]. intros obj H%Hself. lia.
    + apply (instances_put i _ s); cbn; try (done || by eexists). by intros ? [= <-].
    + apply (instances_put i _ s s); try done. cbn in *. destruct Hp as [obj Hobj]. exists obj. auto.
Qed.

Lemma settled_step obj a s s' : settled obj s -> instance_exec a s = Some s' -> settled obj s'.
Proof.
  intros [Hself Hc] Hs. destruct a as [i|i]; cbn in Hs.
  - destruct (callers s !! i) as [[]|]; try done; injection Hs as <-; (split; [done|]); by apply map_Forall_insert_2.
  - destruct (callers s !! i) as [p|] eqn:E; [|done]. pose proof (map_Forall_lookup_1 _ _ _ _ Hc E) as Hp.
    cbn in Hp. destruct p as [| |? | |]; try done; injection Hs as <-; (split; [done|]); apply map_Forall_insert_2; try done.
    by rewrite Hself.
Qed.

(** ** Properties *)

(** [get_tid] gives the kernel's answers up to the first failure, and the process's identifier from there on,
    whether or not the kernel could answer again. *)
Theorem get_tids_answers (answers : list (Z * Z)) :
  exists k, get_tids false answers = map fst (take k answers) ++ map snd (drop k answers)
    /\ Forall (fun a => fst a <> -1) (take k answers)
    /\ (forall a, answers !! k = Some a -> fst a = -1).
Proof.
  assert (Hl : forall l, get_tids true l = map snd l) by (induction l as [|[tid pid] l IH]; cbn; by rewrite ?IH).
  induction answers as [|[tid pid] answers IH]; [by exists 0%nat|]. cbn.
  destruct (Z.eqb_spec tid (-1)) as [->|Hn]; cbn.
  - exists 0%nat. cbn. rewrite Hl. split_and!; [done|done|by intros ? [= <-]].
  - destruct IH as (k & -> & Hf & Hk). exists (S k). cbn. split_and!; [done|by constructor|done].
Qed.

(** [instance] never returns NULL, whatever the interleaving of its calls: it returns an object that was made. *)
Theorem instance_returns_object (s : instances) (i : nat) (r : option nat) :
  reachable s -> callers s !! i = Some (Ret r) -> exists obj, r = Some obj /\ (obj < made s)%nat.
Proof.
  intros Hr Hi. assert (H : forall s, reachable s -> instances_inv s).
  { apply reachable_invariant; [by intros ? ->|]. intros a s1 s2. by apply instances_inv_step. }
  destruct (H s Hr) as [_ Hc]. exact (map_Forall_lookup_1 _ _ _ _ Hc Hi).
Qed.

(** Once an object is there and no thread is between the test and the assignment, every later call returns
    that object, for ever. *)
Theorem instance_settles (s s' : instances) (obj : nat) (acts : list action) (i : nat) (r : option nat) :
  settled obj s -> run acts s = Some s' -> callers s !! i = None -> callers s' !! i = Some (Ret r) -> r = Some obj.
Proof.
  intros Hs Hrun Hi Hr.
  assert (H : settled obj s' /\ (callers s' !! i = None \/ exists p, callers s' !! i = Some p /\ forall o, p = Ret o -> o = Some obj)).
  { revert s' Hrun Hr. intros s' Hrun _. revert Hrun.
    apply (run_invariant (fun s => settled obj s /\ (callers s !! i = None \/ exists p, callers s !! i = Some p /\ forall o, p = Ret o -> o = Some obj)));
      [|by auto].
    intros a s1 s2 [Hset Hret] Hstep. split; [by eapply settled_step|].
    destruct Hset as [Hself _]. destruct a as [j|j]; cbn in Hstep.
    - destruct (decide (i = j)) as [->|Hne].
      + right. exists Test. destruct (callers s1 !! j) as [[]|]; try done; injection Hstep as <-; cbn; by rewrite lookup_insert_eq.
      + destruct (callers s1 !! j) as [[]|]; try done; injection Hstep as <-; cbn; by rewrite lookup_insert_ne.
    - destruct (callers s1 !! j) as [p|] eqn:E; [|done].
      destruct p as [| |o| |o]; try done; injection Hstep as <-; cbn;
        (destruct (decide (i = j)) as [->|Hne]; [rewrite lookup_insert_eq|by rewrite lookup_insert_ne]);
        right; eexists; (split; [done|]); try done; [by case_bool_decide|]. by intros ? [= <-]. }
  destruct H as [_ [H|(p & H & Ho)]]; [congruence|]. apply Ho. congruence.
Qed.

(** Two first calls that overlap return different objects: a thread that is [pending] on one is not seen by a
    [notify] on the other. *)
Theorem instance_race :
  exists s, reachable s /\ callers s !! 0%nat = Some (Ret (Some 0%nat)) /\ callers s !! 1%nat = Some (Ret (Some 1%nat)).
Proof.
  eexists. split.
  - exists instances_init, [Call 0; Call 1; Step 0; Step 1; Step 0; Step 0; Step 0; Step 1; Step 1; Step 1].
    split; [done|]. vm_compute. reflexivity.
  - by split.
Qed.

(** ** Witnesses *)

Definition demo_instances : instances :=
  default instances_init (run [Call 0; Step 0; Step 0; Step 0; Step 0] instances_init).

Lemma instance_returns_object_witness : exists obj, Some 0%nat = Some obj /\ (obj < made demo_instances)%nat.
Proof.
  apply (instance_returns_object demo_instances 0); [|by vm_compute].
  exists instances_init, [Call 0; Step 0; Step 0; Step 0; Step 0]. split; [done|by vm_compute].
Defined.

Lemma instance_settles_witness :
  settled 0 demo_instances
  /\ exists r, callers (default instances_init (run [Call 1; Step 1; Step 1] demo_instances)) !! 1%nat = Some (Ret r)
       /\ r = Some 0%nat.
Proof.
  assert (Hs : settled 0 demo_instances).
  { split; [by vm_compute|]. by apply (bool_decide_unpack (map_Forall _ _)). }
  split; [done|]. eexists. split; [by vm_compute|].
  apply (instance_settles demo_instances (default instances_init (run [Call 1; Step 1; Step 1] demo_instances)) 0
    [Call 1; Step 1; Step 1] 1); [done|by vm_compute..].
Defined.
