(* ===== verification/Agent.v ===== *)
(** * The JVMTI agent ([src/src/trace_agent.h], [src/src/main.cpp])

    The agent asks the JVM for capabilities and events when it is loaded, starts two agent threads when
    the JVM is initialised, and prints the stacks of all Java threads on demand. This file models the code
    that talks to the JVM; the two threads and what they share are in [Safepoint.v].

    The JVM is the class [Jvmti]: the code a JVMTI function returns, which may depend on everything that
    happened before, and what it reports. A computation takes the history and logs what it does: JVMTI
    calls with their answers, memory JVMTI hands to the caller (who has to deallocate it), and prints.
    [monitor] says whether the agent is compiled with [MONITOR_EXCEPTION_AND_ALLOC]. *)

From S2P Require Import Prelude.
From S2P Require Import Text.

(** ** JVMTI *)

Inductive jvmti_event : Type :=
| EVENT_VM_INIT
| EVENT_GARBAGE_COLLECTION_START
| EVENT_GARBAGE_COLLECTION_FINISH
| EVENT_THREAD_END
| EVENT_THREAD_START
| EVENT_EXCEPTION
| EVENT_VM_OBJECT_ALLOC
| EVENT_CLASS_FILE_LOAD_HOOK.

#[export] Instance jvmti_event_eq_dec : EqDecision jvmti_event.
Proof. solve_decision. Defined.

(** The bits of [jvmtiCapabilities] the code sets. *)
Record jvmtiCapabilities : Type := Caps {
  can_generate_garbage_collection_events : bool;
  can_tag_objects : bool;
  can_signal_thread : bool;
  can_generate_exception_events : bool;
  can_generate_vm_object_alloc_events : bool;
  can_generate_method_entry_events : bool;
}.

(** The functions of the agent that the JVM calls. *)
Inductive agent_fun : Type :=
| F_vm_init
| F_gc_start
| F_gc_finish
| F_thread_end
| F_thread_start
| F_exception_fun
| F_worker
| F_safepoint_worker
| F_garbageCollectionStart
| F_garbageCollectionFinish.

(** [jvmtiEventCallbacks]: the fields of the events the code names, none where a field is NULL. *)
Record jvmtiEventCallbacks : Type := Callbacks {
  VMInit : option agent_fun;
  GarbageCollectionStart : option agent_fun;
  GarbageCollectionFinish : option agent_fun;
  ThreadEnd : option agent_fun;
  ThreadStart : option agent_fun;
  Exception : option agent_fun;
  VMObjectAlloc : option agent_fun;
  ClassFileLoadHook : option agent_fun;
}.

(** The function JVMTI calls for an event. *)
Definition callback (cbs : jvmtiEventCallbacks) (e : jvmti_event) : option agent_fun :=
  match e with
  | EVENT_VM_INIT => VMInit cbs
  | EVENT_GARBAGE_COLLECTION_START => GarbageCollectionStart cbs
  | EVENT_GARBAGE_COLLECTION_FINISH => GarbageCollectionFinish cbs
  | EVENT_THREAD_END => ThreadEnd cbs
  | EVENT_THREAD_START => ThreadStart cbs
  | EVENT_EXCEPTION => Exception cbs
  | EVENT_VM_OBJECT_ALLOC => VMObjectAlloc cbs
  | EVENT_CLASS_FILE_LOAD_HOOK => ClassFileLoadHook cbs
  end.

(** [jvmtiStackInfo]: [frame_buffer] holds the methods of the frames. *)
Record jvmtiStackInfo : Type := StackInfo {
  thread : Z;
  frame_buffer : option (list Z);
  frame_count : Z;
}.

Inductive jcall : Type :=
| GetEnv (version : Z)
| AddCapabilities (caps : jvmtiCapabilities)
| SetEventCallbacks (callbacks : jvmtiEventCallbacks)
| SetEventNotificationMode (e : jvmti_event)
| RunAgentThread (t : option Z) (f : agent_fun) (priority : Z)
| GetAllStackTraces (max_frame_count : Z)
| GetThreadInfo (t : Z)
| GetMethodDeclaringClass (method : Z)
| GetClassSignature (clazz : Z)
| GetMethodName (method : Z)
| Deallocate (p : Z)
| CreateRawMonitor
| GetCurrentThread.

(** What a computation does. *)
Inductive event : Type :=
| Api (c : jcall) (rc : Z)
| Given (p : Z)
| Install_internal
| Install_external
| Say_vm_init
| Say_no_jvmti
| Say_no_class
| Say_no_constructor
| Say_no_thread
| Say_stack (no_frames : bool) (i : Z) (name : list byte) (tid : Z)
| Say_frame (signature name : list byte)
| Say_thread_end (name : list byte)
| Say_thread_start (name : list byte)
| Say_exception (class_name : list byte)
| Say_object_alloc (class_name : list byte)
| Calloc (p : Z)
| Free (p : Z)
| Say_failure (rc : Z)
| Say_method_entry (to_stderr : bool) (name : list byte)
| Say_class_load (name : list byte)
| Say_sized_alloc (signature : list byte) (size : Z)
| Say_stack_number (i : Z)
| Install_sigusr1.

Class Jvmti : Type := {
  (** the error code of a call after a history *)
  answer : list event -> jcall -> Z;
  (** whether [GetEnv] stores an environment *)
  env_given : list event -> bool;
  (** the address of the memory JVMTI allocates next *)
  alloc : list event -> Z;
  (** what the calls report when they succeed *)
  all_stacks : list event -> list jvmtiStackInfo;
  thread_name : Z -> list byte;
  declaring_class : Z -> Z;
  class_signature : Z -> list byte;
  method_name : Z -> list byte;
  object_class : Z -> Z;
  (** JNI's [FindClass], [GetMethodID] and [NewObject] for [java/lang/Thread] *)
  thread_class : list event -> option Z;
  thread_constructor : list event -> option Z;
  new_thread : list event -> option Z;
}.

(** ** Computations that see the history *)

Definition agent (A : Type) : Type := list event -> prog event A.

#[export] Instance agent_ret : MRet agent := fun A a h => mret a.

#[export] Instance agent_bind : MBind agent := fun A B k m h =>
  match m h with
  | (l, Done a) => let '(l', r) := k a (h ++ l) in (l ++ l', r)
  | (l, Undefined u) => (l, Undefined u)
  | (l, Raised e) => (l, Raised e)
  end.

(** Prints, and other effects without an answer. *)
Definition say (e : event) : agent unit := fun _ => emit e.

Definition fail_undef {A} (u : ub_kind) : agent A := fun _ => undef u.

Definition throw {A} (e : exn_kind) : agent A := fun _ => raise e.

(** What the environment holds at this point. *)
Definition ask {A} (f : list event -> A) : agent A := fun h => mret (f h).

Definition JVMTI_ERROR_NONE : Z := 0.
Definition JNI_OK : Z := 0.
Definition JNI_ERR : Z := -1.
Definition JVMTI_VERSION_1_0 : Z := 0x30010000.
Definition JVMTI_THREAD_MAX_PRIORITY : Z := 10.

(** [get_jtid], without [JVM_INNER]. *)
Definition get_jtid (t : Z) : Z := -999.

(** Computations are equal when they do the same after every history. *)
#[export] Instance agent_equiv {A} : Equiv (agent A) := fun m1 m2 => forall h, m1 h = m2 h.

#[export] Instance agent_equivalence {A} : Equivalence (≡@{agent A}).
Proof. split; [by intros m h|by intros m1 m2 H h|]. intros m1 m2 m3 H1 H2 h. by rewrite H1, H2. Qed.

#[export] Instance agent_bind_proper {A B} :
  Proper (pointwise_relation A (≡) ==> (≡) ==> (≡)) (@mbind agent agent_bind A B).
Proof.
  intros k1 k2 Hk m1 m2 Hm h. cbv [mbind agent_bind]. rewrite (Hm h). destruct (m2 h) as [l []]; [|done..].
  by rewrite (Hk a).
Qed.

Lemma agent_bind_assoc {A B C} (m : agent A) (f : A -> agent B) (g : B -> agent C) :
  ((m ≫= f) ≫= g) ≡ (m ≫= fun a => f a ≫= g).
Proof.
  intros h. cbv [mbind agent_bind]. destruct (m h) as [l []]; [|done..].
  destruct (f a _) as [l1 []]; [|done..]. rewrite app_assoc. destruct (g a0 _) as [l2 r].
  by rewrite app_assoc.
Qed.

Lemma agent_bind_unit (m : agent unit) : (_ ← m; mret ()) ≡ m.
Proof.
  intros h. cbv [mbind agent_bind mret agent_ret prog_ret]. destruct (m h) as [l [[]|u|e]]; [|done..].
  by rewrite app_nil_r.
Qed.

Section agent.
Context `{J : Jvmti}.

Definition jvmti_call (c : jcall) : agent Z := fun h => ([Api c (answer h c)], Done (answer h c)).

(** Memory that JVMTI hands over with a successful answer. *)
Definition give : agent Z := fun h => ([Given (alloc h)], Done (alloc h)).

(** [CHECK_ERR] *)
Definition CHECK_ERR (error : Z) : agent unit :=
  if error =? JVMTI_ERROR_NONE then mret () else throw (Agent_exception error).

(** ** [stack_trace] *)

(** [GetThreadInfo(thread, &ti)]: the name in [ti], which stays uninitialised when the call fails. *)
Definition thread_info_name (t : Z) : agent (list byte) :=
  rc ← jvmti_call (GetThreadInfo t);
  if rc =? JVMTI_ERROR_NONE then _ ← give; mret (thread_name t) else fail_undef Uninitialised.

(** The body of the loop on frames. *)
Definition print_frame (method : Z) : agent unit :=
  error ← jvmti_call (GetMethodDeclaringClass method);
  _ ← CHECK_ERR error;
  let clazz := declaring_class method in
  error ← jvmti_call (GetClassSignature clazz);
  _ ← CHECK_ERR error;
  signature ← give;
  error ← jvmti_call (GetMethodName method);
  _ ← CHECK_ERR error;
  name ← give;
  _ ← say (Say_frame (class_signature clazz) (method_name method));
  error ← jvmti_call (Deallocate name);
  _ ← CHECK_ERR error;
  error ← jvmti_call (Deallocate signature);
  CHECK_ERR error.

(** The loop on frames, from index [c], [k] turns left. *)
Fixpoint print_frames (info : list Z) (c k : nat) : agent unit :=
  match k with
  | O => mret ()
  | S k' =>
      match info !! c with
      | Some method => _ ← print_frame method; print_frames info (S c) k'
      | None => fail_undef Out_of_bounds
      end
  end.

(** The body of the loop on stacks. *)
Definition print_stack (i : Z) (stack : jvmtiStackInfo) : agent unit :=
  name ← thread_info_name (thread stack);
  match frame_buffer stack with
  | None => say (Say_stack true i name (get_jtid (thread stack)))
  | Some info =>
      _ ← say (Say_stack false i name (get_jtid (thread stack)));
      print_frames info 0 (Z.to_nat (frame_count stack))
  end.

Fixpoint print_stacks (i : Z) (stacks : list jvmtiStackInfo) : agent unit :=
  match stacks with
  | [] => mret ()
  | stack :: stacks' => _ ← print_stack i stack; print_stacks (i + 1) stacks'
  end.

(** [stack_trace]: [stacks] and [count] keep their initial values when [GetAllStackTraces] fails; its
    code is printed and not tested. *)
Definition stack_trace (print : bool) : agent unit :=
  stacks ← ask all_stacks;
  rc ← jvmti_call (GetAllStackTraces 100);
  stacks ← (if rc =? JVMTI_ERROR_NONE then _ ← give; mret stacks else mret []);
  if print then print_stacks 0 stacks else mret ().

(** ** Loading *)

(** [trace_agent::init] *)
Definition init : agent unit :=
  given ← ask env_given;
  ret ← jvmti_call (GetEnv JVMTI_VERSION_1_0);
  if negb (ret =? JNI_OK) || negb given then throw (Agent_exception (-1)) else mret ().

(** [trace_agent::add_cap] *)
Definition capabilities (monitor : bool) : jvmtiCapabilities :=
  {| can_generate_garbage_collection_events := true; can_tag_objects := true; can_signal_thread := true;
     can_generate_exception_events := monitor; can_generate_vm_object_alloc_events := monitor;
     can_generate_method_entry_events := false |}.

Definition add_cap (monitor : bool) : agent unit :=
  error ← jvmti_call (AddCapabilities (capabilities monitor));
  CHECK_ERR error.

(** [trace_agent::reg_event]: the field [VMObjectAlloc] stays NULL. *)
Definition callbacks (monitor : bool) : jvmtiEventCallbacks :=
  {| VMInit := Some F_vm_init; GarbageCollectionStart := Some F_gc_start;
     GarbageCollectionFinish := Some F_gc_finish; ThreadEnd := Some F_thread_end;
     ThreadStart := Some F_thread_start; Exception := if monitor then Some F_exception_fun else None;
     VMObjectAlloc := None; ClassFileLoadHook := None |}.

Definition enable (e : jvmti_event) : agent unit :=
  error ← jvmti_call (SetEventNotificationMode e);
  CHECK_ERR error.

Definition reg_event (monitor : bool) : agent unit :=
  error ← jvmti_call (SetEventCallbacks (callbacks monitor));
  _ ← CHECK_ERR error;
  _ ← enable EVENT_VM_INIT;
  _ ← enable EVENT_GARBAGE_COLLECTION_START;
  _ ← enable EVENT_GARBAGE_COLLECTION_FINISH;
  _ ← enable EVENT_THREAD_END;
  _ ← enable EVENT_THREAD_START;
  if monitor then _ ← enable EVENT_EXCEPTION; enable EVENT_VM_OBJECT_ALLOC else mret ().

(** [agent_exception::what]: the pointer is into a temporary string that is gone when the function
    returns, and the handler of [Agent_OnLoad] prints what it points to. *)
Definition print_what (e : exn_kind) : agent unit :=
  match e with
  | Agent_exception err_ => fail_undef Dangling_pointer
  | _ => mret ()
  end.

(** [try { body } catch (const std::exception &e) { handler }] *)
Definition try_catch {A} (body : agent A) (handler : exn_kind -> agent A) : agent A := fun h =>
  match body h with
  | (l, Raised e) => let '(l', r) := handler e (h ++ l) in (l ++ l', r)
  | r => r
  end.

(** [Agent_OnLoad]: what the two functions that install signal handlers return is not used. *)
Definition Agent_OnLoad (monitor : bool) : agent Z :=
  _ ← say Install_internal;
  _ ← say Install_external;
  try_catch
    (_ ← init;
     _ ← add_cap monitor;
     _ ← reg_event monitor;
     mret JNI_OK)
    (fun e => _ ← print_what e; mret JNI_ERR).

(** ** Callbacks *)

(** [alloc_thread]: the JNI functions are undefined on a NULL class or method. *)
Definition alloc_thread : agent (option Z) :=
  thrClass ← ask thread_class;
  match thrClass with
  | None => _ ← say Say_no_class; fail_undef Null_pointer
  | Some _ =>
      cid ← ask thread_constructor;
      match cid with
      | None => _ ← say Say_no_constructor; fail_undef Null_pointer
      | Some _ =>
          res ← ask new_thread;
          match res with
          | None => _ ← say Say_no_thread; mret None
          | Some t => mret (Some t)
          end
      end
  end.

(** [vm_init]: [jvmti_] tells whether the global of that name is set. *)
Definition vm_init (jvmti_ : bool) : agent unit :=
  _ ← say Say_vm_init;
  if negb jvmti_ then say Say_no_jvmti
  else
    t ← alloc_thread;
    error ← jvmti_call (RunAgentThread t F_worker JVMTI_THREAD_MAX_PRIORITY);
    _ ← CHECK_ERR error;
    t ← alloc_thread;
    error ← jvmti_call (RunAgentThread t F_safepoint_worker JVMTI_THREAD_MAX_PRIORITY);
    CHECK_ERR error.

Definition thread_end (t : Z) : agent unit := name ← thread_info_name t; say (Say_thread_end name).

Definition thread_start (t : Z) : agent unit := name ← thread_info_name t; say (Say_thread_start name).

(** [GetClassSignature(clazz, &class_name, NULL)], the answer not tested. *)
Definition class_name_of (clazz : Z) : agent (list byte) :=
  rc ← jvmti_call (GetClassSignature clazz);
  if rc =? JVMTI_ERROR_NONE then _ ← give; mret (class_signature clazz) else fail_undef Uninitialised.

(** [exception_fun]: what follows its [return] is not reached. *)
Definition exception_fun (exception : Z) : agent unit :=
  class_name ← class_name_of (object_class exception);
  say (Say_exception class_name).

(** ["L"], ["["], ["java"], ["org"], ["sun"] *)
Definition Ljava : list byte := [Byte.x4c; Byte.x6a; Byte.x61; Byte.x76; Byte.x61].
Definition Lorg : list byte := [Byte.x4c; Byte.x6f; Byte.x72; Byte.x67].
Definition Lsun : list byte := [Byte.x4c; Byte.x73; Byte.x75; Byte.x6e].
Definition array_of (s : list byte) : list byte := Byte.x5b :: s.

(** The allocations [object_alloc] does not report. *)
Definition ignored_class (class_name : list byte) : bool :=
  strncmp_prefix Ljava class_name || strncmp_prefix (array_of Ljava) class_name
  || strncmp_prefix Lorg class_name || strncmp_prefix (array_of Lorg) class_name
  || strncmp_prefix Lsun class_name || strncmp_prefix (array_of Lsun) class_name
  || (length class_name =? 2)%nat.

Definition object_alloc (object_klass : Z) : agent unit :=
  class_name ← class_name_of object_klass;
  if ignored_class class_name then mret () else say (Say_object_alloc class_name).

End agent.

(** ** Reading a log *)

Definition calls_of (evs : list event) : list (jcall * Z) :=
  omap (fun e => match e with Api c rc => Some (c, rc) | _ => None end) evs.

(** The memory JVMTI handed over, and the memory the agent gave back. *)
Definition given (evs : list event) : list Z :=
  omap (fun e => match e with Given p => Some p | _ => None end) evs.

Definition freed (evs : list event) : list Z :=
  omap (fun e => match e with Api (Deallocate p) 0 => Some p | _ => None end) evs.

(** The lines [stack_trace] prints. *)
Definition printed (evs : list event) : list event :=
  omap (fun e => match e with Say_stack _ _ _ _ | Say_frame _ _ => Some e | _ => None end) evs.

(** ** What loading asks for *)

Definition load_events (monitor : bool) : list jvmti_event :=
  [EVENT_VM_INIT; EVENT_GARBAGE_COLLECTION_START; EVENT_GARBAGE_COLLECTION_FINISH; EVENT_THREAD_END;
   EVENT_THREAD_START] ++ if monitor then [EVENT_EXCEPTION; EVENT_VM_OBJECT_ALLOC] else [].

(** The calls of a run in which nothing fails, written out. *)
Definition load_calls (monitor : bool) : list jcall :=
  [GetEnv JVMTI_VERSION_1_0;
   AddCapabilities
     {| can_generate_garbage_collection_events := true; can_tag_objects := true; can_signal_thread := true;
        can_generate_exception_events := monitor; can_generate_vm_object_alloc_events := monitor;
        can_generate_method_entry_events := false |};
   SetEventCallbacks
     {| VMInit := Some F_vm_init; GarbageCollectionStart := Some F_gc_start;
        GarbageCollectionFinish := Some F_gc_finish; ThreadEnd := Some F_thread_end;
        ThreadStart := Some F_thread_start; Exception := if monitor then Some F_exception_fun else None;
        VMObjectAlloc := None; ClassFileLoadHook := None |}]
  ++ map SetEventNotificationMode (load_events monitor).

(** The capability JVMTI documents for an event; the events of the life of the VM and of its threads need none. *)
Definition required (e : jvmti_event) (caps : jvmtiCapabilities) : bool :=
  match e with
  | EVENT_GARBAGE_COLLECTION_START | EVENT_GARBAGE_COLLECTION_FINISH =>
      can_generate_garbage_collection_events caps
  | EVENT_EXCEPTION => can_generate_exception_events caps
  | EVENT_VM_OBJECT_ALLOC => can_generate_vm_object_alloc_events caps
  | EVENT_VM_INIT | EVENT_THREAD_END | EVENT_THREAD_START | EVENT_CLASS_FILE_LOAD_HOOK => true
  end.

Section props.
Context `{J : Jvmti}.

(** ** The listing [stack_trace] should print *)

Definition frame_line (method : Z) : event :=
  Say_frame (class_signature (declaring_class method)) (method_name method).

Definition stack_lines (i : Z) (st : jvmtiStackInfo) : list event :=
  Say_stack (bool_decide (frame_buffer st = None)) i (thread_name (thread st)) (-999)
  :: map frame_line (take (Z.to_nat (frame_count st)) (default [] (frame_buffer st))).

Fixpoint listing (i : Z) (stacks : list jvmtiStackInfo) : list event :=
  match stacks with
  | [] => []
  | st :: stacks' => stack_lines i st ++ listing (i + 1) stacks'
  end.

(** [frame_buffer] holds [frame_count] frames. *)
Definition well_formed (st : jvmtiStackInfo) : Prop :=
  match frame_buffer st with Some info => (Z.to_nat (frame_count st) <= length info)%nat | None => True end.

(** ** Lemmas *)

Lemma calls_of_app a b : calls_of (a ++ b) = calls_of a ++ calls_of b.
Proof. apply omap_app. Qed.

Lemma given_app a b : given (a ++ b) = given a ++ given b.
Proof. apply omap_app. Qed.

Lemma freed_app a b : freed (a ++ b) = freed a ++ freed b.
Proof. apply omap_app. Qed.

Lemma printed_app a b : printed (a ++ b) = printed a ++ printed b.
Proof. apply omap_app. Qed.

Lemma agent_bind_inv {A B} (m : agent A) (k : A -> agent B) h evs r :
  (m ≫= k) h = (evs, r) ->
  (exists l a l', m h = (l, Done a) /\ k a (h ++ l) = (l', r) /\ evs = l ++ l')
  \/ (exists u, m h = (evs, Undefined u) /\ r = Undefined u)
  \/ (exists e, m h = (evs, Raised e) /\ r = Raised e).
Proof.
  cbv [mbind agent_bind]. destruct (m h) as [l [a|u|e]].
  - destruct (k a (h ++ l)) as [l' r'] eqn:E. intros [= <- <-]. left. eauto 10.
  - intros [= <- <-]. right. left. eauto.
  - intros [= <- <-]. right. right. eauto.
Qed.

Lemma agent_bind_done {A B} (m : agent A) (k : A -> agent B) h l a :
  m h = (l, Done a) -> (m ≫= k) h = let '(l', r) := k a (h ++ l) in (l ++ l', r).
Proof. cbv [mbind agent_bind]. by intros ->. Qed.

(** Calls that are each tested with [CHECK_ERR]. *)
Fixpoint checked (cs : list jcall) : agent unit :=
  match cs with
  | [] => mret ()
  | c :: cs' => error ← jvmti_call c; _ ← CHECK_ERR error; checked cs'
  end.

(** The outcomes of a list of calls of which each is tested. *)
Definition checked_outcome (cs : list jcall) (evs : list event) (r : flow unit) : Prop :=
  (r = Done () /\ evs = map (fun c => Api c 0) cs)
  \/ exists n c rc, cs !! n = Some c /\ rc <> 0 /\ r = Raised (Agent_exception rc)
                    /\ evs = map (fun c => Api c 0) (take n cs) ++ [Api c rc].

Lemma checked_call_inv {A} c (k : agent A) h evs r :
  (error ← jvmti_call c; _ ← CHECK_ERR error; k) h = (evs, r) ->
  (exists h' l, k h' = (l, r) /\ evs = Api c 0 :: l)
  \/ (exists rc, rc <> 0 /\ r = Raised (Agent_exception rc) /\ evs = [Api c rc]).
Proof.
  rewrite (agent_bind_done _ _ _ _ _ eq_refl). unfold CHECK_ERR, JVMTI_ERROR_NONE.
  destruct (Z.eqb_spec (answer h c) 0) as [E|E]; cbv [mbind agent_bind mret agent_ret prog_ret throw raise].
  - rewrite E, app_nil_r. destruct (k _) as [l r'] eqn:Hk. cbn. intros [= <- <-]. left. eauto.
  - cbn. intros [= <- <-]. right. eauto.
Qed.

Lemma checked_spec cs h evs r : checked cs h = (evs, r) -> checked_outcome cs evs r.
Proof.
  revert h evs r. induction cs as [|c cs IH]; intros h evs r; cbn [checked].
  - intros [= <- <-]. by left.
  - intros [(h' & l & Hk & ->)|(rc & Hrc & -> & ->)]%checked_call_inv.
    + destruct (IH _ _ _ Hk) as [[-> ->]|(n & c' & rc & Hn & Hrc & -> & ->)]; [by left|].
      right. by exists (S n), c', rc.
    + right. by exists 0%nat, c, rc.
Qed.

(** What the calls of the three functions of [trace_agent] are. *)
Lemma load_checked monitor :
  (_ ← add_cap monitor; reg_event monitor)
  ≡ checked (AddCapabilities (capabilities monitor) :: SetEventCallbacks (callbacks monitor)
             :: map SetEventNotificationMode (load_events monitor)).
Proof.
  unfold add_cap, reg_event, enable, load_events. destruct monitor; cbn [map app checked].
  - repeat setoid_rewrite agent_bind_assoc. repeat (apply agent_bind_proper; [intros ?|done]).
    symmetry. apply agent_bind_unit.
  - repeat setoid_rewrite agent_bind_assoc. repeat (apply agent_bind_proper; [intros ?|done]). done.
Qed.

Lemma init_spec h evs r :
  init h = (evs, r) ->
  exists rc, evs = [Api (GetEnv JVMTI_VERSION_1_0) rc]
    /\ ((rc = 0 /\ env_given h = true /\ r = Done ())
        \/ (r = Raised (Agent_exception (-1)) /\ (rc <> 0 \/ env_given h = false))).
Proof.
  unfold init, ask, jvmti_call, JNI_OK. cbv [mbind agent_bind mret prog_ret]. cbn [app].
  rewrite app_nil_r. intros H. exists (answer h (GetEnv JVMTI_VERSION_1_0)). revert H.
  destruct (Z.eqb_spec (answer h (GetEnv JVMTI_VERSION_1_0)) 0), (env_given h); cbn; intros [= <- <-]; eauto 10.
Qed.

(** The calls of a run of [Agent_OnLoad] that ends in [r]; [got] tells whether [GetEnv] stores an environment. *)
Definition load_outcome (monitor got : bool) (calls : list (jcall * Z)) (r : flow Z) : Prop :=
  (got = true /\ r = Done JNI_OK /\ calls = map (fun c => (c, 0)) (load_calls monitor))
  \/ (r = Undefined Dangling_pointer
      /\ exists n c rc, load_calls monitor !! n = Some c
           /\ calls = map (fun c => (c, 0)) (take n (load_calls monitor)) ++ [(c, rc)]
           /\ (rc <> 0 \/ n = 0%nat /\ got = false)).

Lemma calls_of_checked cs : calls_of (map (fun c => Api c 0) cs) = map (fun c => (c, 0)) cs.
Proof. induction cs as [|c cs IH]; [done|]. cbn. f_equal. exact IH. Qed.

Lemma load_body_checked monitor :
  (_ ← init; _ ← add_cap monitor; _ ← reg_event monitor; mret JNI_OK)
  ≡ (_ ← init; _ ← checked (drop 1 (load_calls monitor)); mret JNI_OK).
Proof.
  apply agent_bind_proper; [intros ?|done].
  transitivity (_ ← (_ ← add_cap monitor; reg_event monitor); mret JNI_OK : agent Z).
  - symmetry. apply agent_bind_assoc.
  - apply agent_bind_proper; [by intros ?|apply load_checked].
Qed.

(** The body of [try]: an exception leaves it exactly after the first call that fails. *)
Lemma load_body_spec monitor h evs r :
  (_ ← init; _ ← add_cap monitor; _ ← reg_event monitor; mret JNI_OK) h = (evs, r) ->
  (env_given h = true /\ r = Done JNI_OK /\ evs = map (fun c => Api c 0) (load_calls monitor))
  \/ exists n c rc e, r = Raised (Agent_exception e) /\ load_calls monitor !! n = Some c
       /\ evs = map (fun c => Api c 0) (take n (load_calls monitor)) ++ [Api c rc]
       /\ (rc <> 0 \/ n = 0%nat /\ env_given h = false).
Proof.
  rewrite (load_body_checked monitor h).
  intros [(l & a & l' & (rc & -> & Hi)%init_spec & Hk & ->)|[(u & (rc & _ & Hi)%init_spec & _)
    |(e & (rc & -> & Hi)%init_spec & ->)]]%agent_bind_inv.
  - destruct Hi as [(-> & Hgot & _)|([=] & _)].
    apply agent_bind_inv in Hk as [(l1 & a1 & l2 & H & [= <- <-] & ->)|[(u & H & _)|(e & H & ->)]];
      apply checked_spec in H as [[H ->]|(n & c & rc & Hn & Hrc & H & ->)]; simplify_eq.
    + left. split_and!; [done|done|by rewrite app_nil_r].
    + right. exists (S n), c, rc, rc. repeat split; [exact Hn|by left].
  - by destruct Hi as [(_ & _ & [=])|([=] & _)].
  - destruct Hi as [(_ & _ & [=])|([= ->] & Hi)]. right. exists 0%nat, (GetEnv JVMTI_VERSION_1_0), rc, (-1).
    split_and!; [done..|]. tauto.
Qed.

Lemma on_load_spec monitor h evs r :
  Agent_OnLoad monitor h = (evs, r) ->
  exists evs', evs = Install_internal :: Install_external :: evs'
    /\ load_outcome monitor (env_given (h ++ [Install_internal; Install_external])) (calls_of evs') r.
Proof.
  unfold Agent_OnLoad. rewrite (agent_bind_done (say Install_internal) _ _ _ _ eq_refl).
  rewrite (agent_bind_done (say Install_external) _ _ _ _ eq_refl). unfold try_catch.
  match goal with |- context [mbind ?k init ?h1] => destruct (mbind k init h1) as [l r0] eqn:E end.
  rewrite <- (app_assoc h) in E. cbn [app] in E.
  apply load_body_spec in E as [(Hgot & -> & ->)|(n & c & rc & e & -> & Hn & -> & Hrc)]; intros [= <- <-].
  - eexists. split; [done|]. left. split_and!; [done..|]. apply (calls_of_checked (load_calls monitor)).
  - eexists. split; [done|]. right. split; [done|]. exists n, c, rc.
    rewrite app_nil_r, calls_of_app, calls_of_checked. done.
Qed.

(** ** Lemmas on [stack_trace] *)

Definition succeeded (e : event) : Prop := match e with Api _ rc => rc = JVMTI_ERROR_NONE | _ => True end.

(** How a run ends at a call that fails: the answer of [GetThreadInfo] is not tested, and the name it did not write
    is printed; the other answers are tested. *)
Definition stopped_by (c : jcall) (rc : Z) : flow unit :=
  match c with GetThreadInfo _ => Undefined Uninitialised | _ => Raised (Agent_exception rc) end.

(** A run that should print [lines] ends normally after printing them, and leaves [n] blocks allocated; or
    a call failed, which was the last thing that happened, and it ends the way [stopped_by] says. *)
Definition outcome (lines : list event) (n : nat) (evs : list event) (r : flow unit) : Prop :=
  (r = Done () /\ printed evs = lines /\ Forall succeeded evs
   /\ exists leaks, given evs ≡ₚ freed evs ++ leaks /\ length leaks = n)
  \/ exists evs' c rc, r = stopped_by c rc /\ rc <> JVMTI_ERROR_NONE
       /\ evs = evs' ++ [Api c rc] /\ Forall succeeded evs' /\ printed evs' `prefix_of` lines.

Lemma stopped_by_not_done c rc : stopped_by c rc <> Done ().
Proof. by destruct c. Qed.

Definition behaves (lines : list event) (n : nat) (m : agent unit) : Prop :=
  forall h, outcome lines n (m h).1 (m h).2.

Lemma behaves_bind l1 n1 l2 n2 (m : agent unit) (k : agent unit) :
  behaves l1 n1 m -> behaves l2 n2 k -> behaves (l1 ++ l2) (n1 + n2) (_ ← m; k).
Proof.
  intros Hm Hk h. cbv [mbind agent_bind]. specialize (Hm h).
  destruct (m h) as [evs r]; cbn [fst snd] in Hm.
  destruct Hm as [(-> & Hp & Hs & leaks & Hg & Hl)|(evs' & c & rc & Hr & Hrc & -> & Hs & Hp)].
  - specialize (Hk (h ++ evs)). destruct (k (h ++ evs)) as [evs2 r2]; cbn [fst snd] in Hk |- *.
    destruct Hk as [(-> & Hp2 & Hs2 & leaks2 & Hg2 & Hl2)|(evs' & c & rc & -> & Hrc & -> & Hs2 & Hp2)].
    + left. split; [done|]. rewrite printed_app, Hp, Hp2. split; [done|]. split; [by apply Forall_app|].
      exists (leaks ++ leaks2). rewrite given_app, freed_app, Hg, Hg2, length_app. split; [solve_Permutation|lia].
    + right. exists (evs ++ evs'), c, rc. rewrite app_assoc, printed_app, Hp.
      repeat split; try done; [by apply Forall_app|by apply prefix_app].
  - destruct r as [[]|u|e]; [by destruct (stopped_by_not_done c rc)|..];
      right; exists evs', c, rc; repeat split; try done; by apply prefix_app_r.
Qed.

Lemma behaves_ret : behaves [] 0 (mret ()).
Proof. intros h. left. repeat split; [constructor|]. by exists []. Qed.

(** A run that ends with a call that fails. *)
Lemma outcome_failed lines n evs c rc :
  rc <> JVMTI_ERROR_NONE -> evs = removelast evs ++ [Api c rc] -> Forall succeeded (removelast evs) ->
  printed (removelast evs) `prefix_of` lines -> outcome lines n evs (stopped_by c rc).
Proof. intros. right. by exists (removelast evs), c, rc. Qed.

Lemma give_inv {A} (k : Z -> agent A) h evs r :
  (p ← give; k p) h = (evs, r) -> exists h' l p, k p h' = (l, r) /\ evs = Given p :: l.
Proof.
  rewrite (agent_bind_done _ _ _ _ _ eq_refl). destruct (k _ _) as [l r'] eqn:E. cbn. intros [= <- <-]. eauto.
Qed.

Lemma say_inv {A} e (k : agent A) h evs r :
  (_ ← say e; k) h = (evs, r) -> exists h' l, k h' = (l, r) /\ evs = e :: l.
Proof.
  rewrite (agent_bind_done _ _ _ _ _ eq_refl). destruct (k _) as [l r'] eqn:E. cbn. intros [= <- <-]. eauto.
Qed.

Lemma CHECK_ERR_bind (c : jcall) :
  (error ← jvmti_call c; CHECK_ERR error) ≡ (error ← jvmti_call c; _ ← CHECK_ERR error; mret ()).
Proof. apply agent_bind_proper; [intros ?; symmetry; apply agent_bind_unit|done]. Qed.

(** Goes through the next call: past it, or to the end of the run. *)
Ltac next_call E :=
  lazymatch type of E with
  | mbind _ give _ = _ => apply give_inv in E as (? & ? & ? & E & ->); next_call E
  | mbind _ (say _) _ = _ => apply say_inv in E as (? & ? & E & ->); next_call E
  | mbind (fun e => CHECK_ERR e) (jvmti_call ?c) _ = _ => rewrite (CHECK_ERR_bind c _) in E; next_call E
  | mbind _ (jvmti_call ?c) _ = _ =>
      let Hrc := fresh "Hrc" in
      apply checked_call_inv in E as [(? & ? & E & ->)|(? & Hrc & -> & ->)];
      [next_call E
      | apply (outcome_failed _ _ _ c); [exact Hrc|reflexivity|by repeat constructor|by cbn; auto using prefix_nil]]
  | _ => idtac
  end.

Lemma print_frame_behaves method : behaves [frame_line method] 0 (print_frame method).
Proof.
  intros h. destruct (print_frame method h) as [evs r] eqn:E; cbn [fst snd]. unfold print_frame in E.
  next_call E.
  injection E as <- <-. left. repeat split; [by repeat constructor|].
  exists []. split; [|done]. cbn. solve_Permutation.
Qed.

Lemma print_frames_behaves info c k :
  (c + k <= length info)%nat -> behaves (map frame_line (take k (drop c info))) 0 (print_frames info c k).
Proof.
  revert c. induction k as [|k IH]; intros c Hc; cbn [print_frames]; [apply behaves_ret|].
  destruct (lookup_lt_is_Some_2 info c) as [m Hm]; [lia|]. rewrite Hm.
  rewrite (drop_S _ _ _ Hm). apply (behaves_bind [frame_line m] 0 _ 0).
  - apply print_frame_behaves.
  - apply IH. lia.
Qed.

Lemma behaves_say e : printed [e] = [e] -> behaves [e] 0 (say e).
Proof. intros He h. left. repeat split; [done|destruct e; by repeat constructor|]. exists []. by destruct e. Qed.

(** A successful call that hands memory over, before a run. *)
Lemma outcome_given c p lines n evs r :
  (forall q, c <> Deallocate q) -> outcome lines n evs r ->
  outcome lines (S n) (Api c JVMTI_ERROR_NONE :: Given p :: evs) r.
Proof.
  intros Hc [(-> & Hp & Hs & leaks & Hg & Hl)|(evs' & c' & rc & -> & Hrc & -> & Hs & Hp)].
  - left. repeat split; [done|by repeat constructor|]. exists (p :: leaks).
    assert (Hf : freed (Api c JVMTI_ERROR_NONE :: Given p :: evs) = freed evs)
      by (destruct c; cbn; done || by destruct (Hc p0)).
    rewrite Hf. cbn. rewrite Hg, Hl. split; [solve_Permutation|done].
  - right. exists (Api c JVMTI_ERROR_NONE :: Given p :: evs'), c', rc.
    repeat split; [done|by repeat constructor|done].
Qed.

Lemma thread_info_name_bind (t : Z) (k : list byte -> agent unit) lines n :
  behaves lines n (k (thread_name t)) -> behaves lines (S n) (name ← thread_info_name t; k name).
Proof.
  intros Hb h. unfold thread_info_name.
  cbv [mbind agent_bind jvmti_call give mret agent_ret prog_ret].
  destruct (Z.eqb_spec (answer h (GetThreadInfo t)) JVMTI_ERROR_NONE) as [E|E].
  2:{ apply (outcome_failed _ _ [_] (GetThreadInfo t) (answer h (GetThreadInfo t)));
      [done|done|constructor|apply prefix_nil]. }
  rewrite E. cbn [app fst snd].
  match goal with |- context [k _ ?h'] => specialize (Hb h'); destruct (k (thread_name t) h') as [evs r] end.
  by apply outcome_given.
Qed.

Lemma print_stack_behaves i st :
  well_formed st -> behaves (stack_lines i st) 1 (print_stack i st).
Proof.
  intros Hw. unfold print_stack, stack_lines. apply thread_info_name_bind.
  unfold well_formed in Hw. destruct (frame_buffer st) as [info|]; cbn [default bool_decide] .
  - apply (behaves_bind [_] 0 _ 0); [by apply behaves_say|]. by apply print_frames_behaves.
  - rewrite take_nil. by apply behaves_say.
Qed.

Lemma print_stacks_behaves i stacks :
  Forall well_formed stacks -> behaves (listing i stacks) (length stacks) (print_stacks i stacks).
Proof.
  intros Hw. revert i. induction Hw as [|st stacks Hst _ IH]; intros i; cbn [listing print_stacks].
  - apply behaves_ret.
  - apply (behaves_bind _ 1); [by apply print_stack_behaves|apply IH].
Qed.

(** ** Properties *)

(** C23. [Agent_OnLoad] installs both signal handlers first. Either every call of [load_calls] is made in order and
    succeeds, [GetEnv] stored an environment, and it returns [JNI_OK]; or one of them fails (it answers a code other
    than 0, or [GetEnv] answers 0 and stores no environment), the calls before it succeeded, none is
    made after it, and [JNI_ERR] is never returned: printing [what()] of the exception reads a
    string that no longer exists. *)
Theorem on_load_outcome (monitor : bool) (h evs : list event) (r : flow Z) :
  Agent_OnLoad monitor h = (evs, r) ->
  let got := env_given (h ++ [Install_internal; Install_external]) in
  take 2 evs = [Install_internal; Install_external]
  /\ ((got = true /\ r = Done JNI_OK
       /\ calls_of (drop 2 evs) = map (fun c => (c, JVMTI_ERROR_NONE)) (load_calls monitor))
      \/ (r = Undefined Dangling_pointer
          /\ exists n c rc, load_calls monitor !! n = Some c
               /\ (rc <> JVMTI_ERROR_NONE \/ n = 0%nat /\ got = false)
               /\ calls_of (drop 2 evs)
                  = map (fun c => (c, JVMTI_ERROR_NONE)) (take n (load_calls monitor)) ++ [(c, rc)])).
Proof.
  intros (evs' & -> & [(Hgot & -> & H)|(-> & n & c & rc & Hn & H & Hrc)])%on_load_spec; cbn [drop].
  - split; [done|]. by left.
  - split; [done|]. right. split; [done|]. by exists n, c, rc.
Qed.

(** Every event a loaded agent enabled has its capability among those it got before, and a function
    to call, except the allocation events of an agent compiled with [MONITOR_EXCEPTION_AND_ALLOC], whose
    callback is commented out. *)
Theorem enabled_events_served (monitor : bool) (h evs : list event) (e : jvmti_event) (rc : Z) :
  Agent_OnLoad monitor h = (evs, Done JNI_OK) -> (SetEventNotificationMode e, rc) ∈ calls_of evs ->
  rc = JVMTI_ERROR_NONE
  /\ (exists caps, (AddCapabilities caps, JVMTI_ERROR_NONE) ∈ calls_of evs /\ required e caps = true)
  /\ (exists cbs, (SetEventCallbacks cbs, JVMTI_ERROR_NONE) ∈ calls_of evs
                  /\ (callback cbs e = None <-> monitor = true /\ e = EVENT_VM_OBJECT_ALLOC)).
Proof.
  intros (evs' & -> & [(_ & _ & H)|([=] & _)])%on_load_spec. cbn [calls_of omap list_omap]. fold (calls_of evs').
  rewrite H. intros He%list_elem_of_fmap. destruct He as (c & [= <- ->] & Hc). split; [done|].
  split; [exists (capabilities monitor)|exists (callbacks monitor)];
    (split; [apply list_elem_of_fmap; eexists; split; [done|]; apply list_elem_of_In; cbn; auto|]);
    apply list_elem_of_In in Hc; destruct monitor, e; cbn in Hc |- *; intuition congruence.
Qed.

(** C24. When the stacks [GetAllStackTraces] reports are well formed, [stack_trace(true)] stays in bounds. If
    [GetAllStackTraces] fails it does nothing more and returns. Otherwise it prints the whole listing, with every
    name and signature of a frame given back and one block per thread and the stacks themselves left allocated,
    or it stops at the first call that fails, after a prefix of the listing: with the exception that carries the
    code of that call, or, when [GetThreadInfo] fails, by reading the name it did not write. *)
Theorem stack_trace_listing (h : list event) :
  Forall well_formed (all_stacks h) ->
  let rc := answer h (GetAllStackTraces 100) in
  (rc = JVMTI_ERROR_NONE
   /\ outcome (listing 0 (all_stacks h)) (S (length (all_stacks h))) (stack_trace true h).1 (stack_trace true h).2)
  \/ (rc <> JVMTI_ERROR_NONE /\ stack_trace true h = ([Api (GetAllStackTraces 100) rc], Done ())).
Proof.
  intros Hw rc. subst rc. pose proof (print_stacks_behaves 0 _ Hw) as Hb.
  unfold stack_trace, ask. cbv [mbind agent_bind jvmti_call give mret agent_ret prog_ret]. cbn [app].
  rewrite app_nil_r.
  destruct (Z.eqb_spec (answer h (GetAllStackTraces 100)) JVMTI_ERROR_NONE) as [E|E]; [|by right].
  left. split; [done|]. rewrite E. cbn [app].
  match goal with |- context [print_stacks 0 _ ?h'] => specialize (Hb h'); destruct (print_stacks 0 _ h') end.
  by apply outcome_given.
Qed.

(** [stack_trace(false)], what the worker runs after each collection, never fails and prints no
    stack, whatever JVMTI answers; every successful call leaves the block of [GetAllStackTraces] allocated. *)
Theorem stack_trace_quiet (h : list event) :
  exists evs, stack_trace false h = (evs, Done ()) /\ printed evs = [] /\ freed evs = []
    /\ length (given evs) = if answer h (GetAllStackTraces 100) =? JVMTI_ERROR_NONE then 1%nat else 0%nat.
Proof.
  unfold stack_trace, ask. cbv [mbind agent_bind jvmti_call give mret agent_ret prog_ret]. cbn [app].
  rewrite app_nil_r. destruct (_ =? _); by eexists.
Qed.

End props.

(** ** Witnesses *)

(** A JVM with two threads, the second without frames, in which only naming method 12 fails. *)
Definition demo_jvm : Jvmti :=
  {| answer _ c := match c with GetMethodName 12 => 23 | _ => 0 end;
     env_given _ := true;
     alloc h := Z.of_nat (length h);
     all_stacks _ := [StackInfo 1 (Some [10; 11]) 2; StackInfo 2 None 0];
     thread_name t := if t =? 1 then [Byte.x6d] else [Byte.x77];
     declaring_class _ := 3;
     class_signature _ := [Byte.x4c];
     method_name m := [Byte.x66];
     object_class _ := 3;
     thread_class _ := Some 1;
     thread_constructor _ := Some 2;
     new_thread _ := Some 3 |}.

(** A JVM that refuses the third event. *)
Definition refusing_jvm : Jvmti :=
  {| answer _ c :=
       match c with SetEventNotificationMode EVENT_GARBAGE_COLLECTION_FINISH => 99 | _ => 0 end;
     env_given _ := true;
     alloc h := 0;
     all_stacks _ := [];
     thread_name _ := [];
     declaring_class _ := 0;
     class_signature _ := [];
     method_name _ := [];
     object_class _ := 0;
     thread_class _ := None;
     thread_constructor _ := None;
     new_thread _ := None |}.

Lemma on_load_outcome_witness :
  let run := @Agent_OnLoad refusing_jvm false [] in
  run.2 = Undefined Dangling_pointer /\ length (calls_of run.1) = 6%nat
  /\ take 2 run.1 = [Install_internal; Install_external].
Proof.
  split; [done|]. split; [done|].
  exact (proj1 (@on_load_outcome refusing_jvm false [] _ (@Agent_OnLoad refusing_jvm false []).2 eq_refl)).
Defined.

Lemma enabled_events_served_witness :
  let evs := (@Agent_OnLoad demo_jvm true []).1 in
  exists caps, (AddCapabilities caps, JVMTI_ERROR_NONE) ∈ calls_of evs /\ required EVENT_EXCEPTION caps = true.
Proof.
  refine (proj1 (proj2 (@enabled_events_served demo_jvm true [] _ EVENT_EXCEPTION 0 eq_refl _))).
  apply list_elem_of_In. vm_compute. tauto.
Defined.

Lemma stack_trace_listing_witness :
  let run := @stack_trace demo_jvm true [] in
  run.2 = Done () /\ outcome (@listing demo_jvm 0 (@all_stacks demo_jvm [])) 3 run.1 run.2.
Proof.
  split; [done|].
  destruct (@stack_trace_listing demo_jvm []) as [[_ H]|[H _]]; [by repeat constructor|exact H|by destruct H].
Defined.
