(* ===== verification/JvmInner.v ===== *)
(** * Thread numbers inside the JVM ([src/src/jvm_inner.h])

    [get_jtid] as it is compiled with [JVM_INNER], against the sources of HotSpot, which the repository does not have:
    the functions of HotSpot that it calls are an instance of the class [Hotspot]. Without [JVM_INNER], which is how
    [make.sh] builds the agent, it answers -999 ([Agent.get_jtid]). *)

From S2P Require Import Prelude.

(** An [oop] is a pointer to an object. [current_threadObj] is [JavaThread::current()->threadObj()]; a handle may
    resolve to NULL; [is_thread] is [is_a(SystemDictionary::Thread_klass())]; [thread_id] is the [jlong] that
    [java_lang_Thread::thread_id] reads. *)
Class Hotspot (oop : Type) : Type := {
  current_threadObj : option oop;
  resolve_external_guard : Z -> option oop;
  is_thread : oop -> bool;
  thread_id : oop -> Z;
}.

Section jvm_inner.
Context {oop : Type} `{Hotspot oop}.

Inductive message : Type := JVMTI_ERROR_INVALID_THREAD.

(** The object of a [jthread], NULL being the current thread. *)
Definition thread_oop (thread : option Z) : option oop :=
  match thread with None => current_threadObj | Some th => resolve_external_guard th end.

(** [get_jtid]: what it prints, and the [int] it returns. *)
Definition get_jtid (thread : option Z) : list message * Z :=
  match thread_oop thread with
  | None => ([JVMTI_ERROR_INVALID_THREAD], -1)
  | Some o => if negb (is_thread o) then ([JVMTI_ERROR_INVALID_THREAD], -1) else ([], wrapS 32 (thread_id o))
  end.

(** [get_jtid] answers the identifier of the thread when that fits in an [int], and it complains, and answers -1, exactly
    when the handle is not one of a thread. *)
Theorem get_jtid_answers (thread : option Z) :
  ((get_jtid thread).1 = [] <-> exists o, thread_oop thread = Some o /\ is_thread o = true)
  /\ (forall o, thread_oop thread = Some o -> is_thread o = true -> in_sint 32 (thread_id o) = true ->
        get_jtid thread = ([], thread_id o))
  /\ ((get_jtid thread).1 <> [] -> (get_jtid thread).2 = -1).
Proof.
  unfold get_jtid. destruct (thread_oop thread) as [o|]; [destruct (is_thread o) eqn:E|]; cbn; split_and!; try done.
  - split; eauto.
  - intros o' [= <-] _ Hin. by rewrite wrapS_small.
  - split; [done|]. intros (o' & [= <-] & ?). congruence.
  - intros o' [= <-] ?. congruence.
  - split; [done|]. by intros (o' & ? & _).
Qed.

(** A [jlong] does not fit in an [int]: two threads whose identifiers differ by a multiple of 2^32 get the same
    answer, and the thread number 2^32 - 1 gets the answer of an error without its message. *)
Theorem get_jtid_truncates (th th' : option Z) (o o' : oop) (k : Z) :
  thread_oop th = Some o -> thread_oop th' = Some o' -> is_thread o = true -> is_thread o' = true ->
  thread_id o' = thread_id o + k * 2 ^ 32 -> get_jtid th' = get_jtid th.
Proof.
  intros E E' Ht Ht' Hid. unfold get_jtid. rewrite E, E', Ht, Ht', Hid. cbn. f_equal.
  rewrite <- (wrapS_mod 32 (thread_id o + k * 2 ^ 32)), <- (wrapS_mod 32 (thread_id o)) by lia.
  by rewrite Z.mod_add.
Qed.

End jvm_inner.

(** ** A concrete JVM

    Objects are numbers: those below 100 are threads with the identifier [2^32 - 2 + o]; a handle resolves to its
    number, 0 to NULL. *)
#[export] Instance demo_hotspot : Hotspot Z := {
  current_threadObj := Some 1;
  resolve_external_guard th := if th =? 0 then None else Some th;
  is_thread o := o <? 100;
  thread_id o := 2 ^ 32 - 2 + o;
}.

Lemma get_jtid_answers_witness :
  get_jtid None = ([], -1) /\ get_jtid (Some 200) = ([JVMTI_ERROR_INVALID_THREAD], -1)
  /\ (get_jtid (Some 200)).2 = -1.
Proof.
  split; [done|]. split; [done|]. by apply (proj2 (proj2 (get_jtid_answers (Some 200)))).
Defined.

#[export] Instance twin_hotspot : Hotspot bool := {
  current_threadObj := Some true;
  resolve_external_guard th := Some false;
  is_thread _ := true;
  thread_id o := if o then 7 + 2 ^ 32 else 7;
}.

Lemma get_jtid_truncates_witness : get_jtid (oop := bool) None = get_jtid (Some 3) /\ get_jtid (oop := bool) None = ([], 7).
Proof. split; [|done]. by apply (get_jtid_truncates (Some 3) None false true 1). Defined.
