(* ===== verification/GcAgent.v ===== *)
(** * The agent that prints the times of collections ([agent.cpp])

    A small agent for the same JVM: it asks for the events of garbage collections and prints the time at
    each of them. It shares the JVMTI of [Agent.v] with the larger agent. What [calloc] and [strftime] answer is an
    argument. *)

From S2P Require Import Prelude.
From S2P Require Import Text.
From S2P Require Import Agent.
From Stdlib Require String.
Import String.StringSyntax.
#[local] Open Scope list_scope.

(** ** Printing the time *)

(** [%06d] *)
Definition pad6 (n : Z) : list byte := repeat (byte.of_Z 48) (6 - length (to_string n)) ++ to_string n.

(** [printGCTime]: [startTime] is what [strftime] writes in the buffer of [calloc], which is not tested. *)
Definition printGCTime (allocated : bool) (type startTime : list byte) (tv_usec : Z) : prog (list byte) unit :=
  if allocated then
    emit (lit "GC "%string ++ c_str type ++ lit ": "%string ++ c_str startTime ++ lit "."%string ++ pad6 tv_usec
          ++ [byte.of_Z 10])
  else undef Null_pointer.

Definition garbageCollectionStart (allocated : bool) (startTime : list byte) (tv_usec : Z) : prog (list byte) unit :=
  printGCTime allocated (lit "Start "%string) startTime tv_usec.

Definition garbageCollectionFinish (allocated : bool) (startTime : list byte) (tv_usec : Z) : prog (list byte) unit :=
  printGCTime allocated (lit "Finish"%string) startTime tv_usec.

(** ** Loading *)

(** The function returns a code, or ends the process. *)
Inductive ending : Type :=
| Returned (code : Z)
| Exited (code : Z).

Definition JVMTI_ERROR_UNSUPPORTED_VERSION : Z := 68.
Definition JVMTI_ERROR_OUT_OF_MEMORY : Z := 110.

(** [*requiredCapabilities] *)
Definition requiredCapabilities : jvmtiCapabilities :=
  {| can_generate_garbage_collection_events := true; can_tag_objects := false; can_signal_thread := false;
     can_generate_exception_events := false; can_generate_vm_object_alloc_events := false;
     can_generate_method_entry_events := false |}.

(** [*eventCallbacks] *)
Definition eventCallbacks : jvmtiEventCallbacks :=
  {| VMInit := None; GarbageCollectionStart := Some F_garbageCollectionStart;
     GarbageCollectionFinish := Some F_garbageCollectionFinish; ThreadEnd := None; ThreadStart := None;
     Exception := None; VMObjectAlloc := None; ClassFileLoadHook := None |}.

Section gc_agent.
Context `{J : Jvmti}.

(** What the two calls of [calloc] return, NULL or a block. *)
Context (caps_mem callbacks_mem : option Z).

(** [if (returnCode != JNI_OK) { fprintf; exit(-1); }] *)
Definition or_exit (returnCode : Z) (k : agent ending) : agent ending :=
  if negb (returnCode =? JNI_OK) then _ ← say (Say_failure returnCode); mret (Exited (-1)) else k.

Definition Agent_OnLoad : agent ending :=
  returnCode ← jvmti_call (GetEnv JVMTI_VERSION_1_0);
  if negb (returnCode =? JNI_OK) then
    _ ← say (Say_failure returnCode); mret (Returned JVMTI_ERROR_UNSUPPORTED_VERSION)
  else
    match caps_mem with
    | None => _ ← say (Say_failure JVMTI_ERROR_OUT_OF_MEMORY); mret (Returned JVMTI_ERROR_OUT_OF_MEMORY)
    | Some cm =>
        _ ← say (Calloc cm);
        or_exit returnCode
          (returnCode ← jvmti_call (AddCapabilities requiredCapabilities);
           match callbacks_mem with
           | None => _ ← say (Say_failure JVMTI_ERROR_OUT_OF_MEMORY); mret (Returned JVMTI_ERROR_OUT_OF_MEMORY)
           | Some em =>
               _ ← say (Calloc em);
               returnCode ← jvmti_call (SetEventCallbacks eventCallbacks);
               or_exit returnCode
                 (returnCode ← jvmti_call (SetEventNotificationMode EVENT_GARBAGE_COLLECTION_START);
                  or_exit returnCode
                    (returnCode ← jvmti_call (SetEventNotificationMode EVENT_GARBAGE_COLLECTION_FINISH);
                     or_exit returnCode
                       (_ ← say (Free cm); _ ← say (Free em); mret (Returned JVMTI_ERROR_NONE))))
           end)
    end.

(** ** Specification *)

(** The blocks that were allocated and not released. *)
Definition live_blocks (evs : list event) : list Z :=
  fold_left (fun l e => match e with
    | Calloc p => l ++ [p]
    | Free p => filter (fun q => q <> p) l
    | _ => l end) evs [].

(** The calls of a run that loads the agent, written out; [rc] is what [AddCapabilities] answered. *)
Definition load_calls (rc : Z) : list (jcall * Z) :=
  [(GetEnv JVMTI_VERSION_1_0, 0);
   (AddCapabilities
      {| can_generate_garbage_collection_events := true; can_tag_objects := false; can_signal_thread := false;
         can_generate_exception_events := false; can_generate_vm_object_alloc_events := false;
         can_generate_method_entry_events := false |}, rc);
   (SetEventCallbacks
      {| VMInit := None; GarbageCollectionStart := Some F_garbageCollectionStart;
         GarbageCollectionFinish := Some F_garbageCollectionFinish; ThreadEnd := None; ThreadStart := None;
         Exception := None; VMObjectAlloc := None; ClassFileLoadHook := None |}, 0);
   (SetEventNotificationMode EVENT_GARBAGE_COLLECTION_START, 0);
   (SetEventNotificationMode EVENT_GARBAGE_COLLECTION_FINISH, 0)].

(** How loading may end: what it returns, the calls it made with their answers, the memory that stays allocated. *)
Inductive loading : flow ending -> list (jcall * Z) -> list Z -> Prop :=
| Loaded cm em rc :
    caps_mem = Some cm -> callbacks_mem = Some em ->
    loading (Done (Returned JVMTI_ERROR_NONE)) (load_calls rc) []
| No_environment rc :
    rc <> 0 -> loading (Done (Returned JVMTI_ERROR_UNSUPPORTED_VERSION)) [(GetEnv JVMTI_VERSION_1_0, rc)] []
| No_capabilities_block :
    caps_mem = None ->
    loading (Done (Returned JVMTI_ERROR_OUT_OF_MEMORY)) [(GetEnv JVMTI_VERSION_1_0, 0)] []
| No_callbacks_block cm rc :
    caps_mem = Some cm -> callbacks_mem = None ->
    loading (Done (Returned JVMTI_ERROR_OUT_OF_MEMORY)) (take 2 (load_calls rc)) [cm]
| Event_refused cm em n rc c code :
    caps_mem = Some cm -> callbacks_mem = Some em ->
    (2 <= n)%nat -> load_calls rc !! n = Some (c, 0) -> code <> 0 ->
    loading (Done (Exited (-1))) (take n (load_calls rc) ++ [(c, code)]) [cm; em].

(** JVMTI refuses an event whose capability was not granted. *)
Definition capability_enforced : Prop :=
  forall h rc, (AddCapabilities requiredCapabilities, rc) ∈ calls_of h -> rc <> JVMTI_ERROR_NONE ->
    answer h (SetEventNotificationMode EVENT_GARBAGE_COLLECTION_START) <> JVMTI_ERROR_NONE.

(** ** Properties *)

Ltac run_calls :=
  unfold Agent_OnLoad, or_exit, jvmti_call, say; cbv [mbind agent_bind mret agent_ret prog_ret emit]; cbn [app negb].

(** C38. Loading ends in one of the ways of [loading]. It returns [JVMTI_ERROR_NONE] when [GetEnv], the two
    allocations and the three calls on events succeed, whatever [AddCapabilities] answered: it asked for the
    events of collections, registered a function for each of the two, enabled both, and gave back its memory. It
    returns an error when [GetEnv] fails (after that call alone) or memory is missing (after [GetEnv], or with
    the capabilities asked for and their block still allocated). When a call on events fails it ends
    the JVM's process right there, with both blocks allocated. *)
Theorem gc_agent_loads (h evs : list event) (r : flow ending) :
  (forall p, caps_mem = Some p -> callbacks_mem <> Some p) -> Agent_OnLoad h = (evs, r) ->
  loading r (calls_of evs) (live_blocks evs).
Proof.
  intros Hne H. revert H. run_calls. unfold JNI_OK.
  set (rc0 := answer h _). destruct (Z.eqb_spec rc0 0) as [E0|E0]; cbn [negb].
  2:{ cbn. intros [= <- <-]. by apply No_environment. }
  destruct caps_mem as [cm|] eqn:Hcm.
  2:{ cbn. intros [= <- <-]. cbn. rewrite E0. by apply No_capabilities_block. }
  destruct callbacks_mem as [em|] eqn:Hem.
  2:{ cbn. intros [= <- <-]. cbn. rewrite E0. by eapply (No_callbacks_block cm). }
  assert (cm <> em) by (intros ->; by apply (Hne em)). cbn [app].
  set (rc1 := answer _ (AddCapabilities _)). set (rc2 := answer _ (SetEventCallbacks _)).
  destruct (Z.eqb_spec rc2 0) as [E2|E2]; cbn [negb].
  2:{ cbn. intros [= <- <-]. cbn. rewrite E0. by eapply (Event_refused cm em 2 rc1); [..|lia| |]. }
  cbn [app]. set (rc3 := answer _ (SetEventNotificationMode EVENT_GARBAGE_COLLECTION_START)).
  destruct (Z.eqb_spec rc3 0) as [E3|E3]; cbn [negb].
  2:{ cbn. intros [= <- <-]. cbn. rewrite E0, E2. by eapply (Event_refused cm em 3 rc1); [..|lia| |]. }
  cbn [app]. set (rc4 := answer _ (SetEventNotificationMode EVENT_GARBAGE_COLLECTION_FINISH)).
  destruct (Z.eqb_spec rc4 0) as [E4|E4]; cbn [negb].
  2:{ cbn. intros [= <- <-]. cbn. rewrite E0, E2, E3. by eapply (Event_refused cm em 4 rc1); [..|lia| |]. }
  cbn. intros [= <- <-]. replace (live_blocks _) with ([] : list Z).
  - cbn. rewrite E0, E2, E3, E4. by apply (Loaded cm em rc1).
  - unfold live_blocks. cbn. repeat (case_decide; cbn); congruence.
Qed.

(** The answer of [AddCapabilities] is not tested, and the message for missing capabilities tests the answer
    of [GetEnv] a second time. On a JVM that enforces capabilities, an agent that is refused its
    capability ends the process of the JVM instead of returning an error. *)
Theorem refused_capability_exits (h evs : list event) (r : flow ending) (cm em rc : Z) :
  caps_mem = Some cm -> callbacks_mem = Some em -> capability_enforced ->
  answer h (GetEnv JVMTI_VERSION_1_0) = 0 ->
  (forall h', answer h' (AddCapabilities requiredCapabilities) = rc) -> rc <> JVMTI_ERROR_NONE ->
  Agent_OnLoad h = (evs, r) -> r = Done (Exited (-1)).
Proof.
  intros Hcm Hem Hc E0 E1 Hrc. run_calls. unfold JNI_OK. rewrite E0, Hcm, Hem. cbn [Z.eqb negb app]. rewrite E1.
  set (rc2 := answer _ (SetEventCallbacks _)).
  destruct (Z.eqb_spec rc2 0) as [E2|E2]; cbn [negb]; [|by cbn; intros [= _ <-]].
  cbn [app]. match goal with |- context [answer ?h' (SetEventNotificationMode EVENT_GARBAGE_COLLECTION_START)] =>
    assert (H3 : answer h' (SetEventNotificationMode EVENT_GARBAGE_COLLECTION_START) <> 0) end.
  { apply (Hc _ rc); [|done]. rewrite !calls_of_app, !elem_of_app. left. left. right. by left. }
  rewrite (proj2 (Z.eqb_neq _ _) H3). cbn. by intros [= _ <-].
Qed.

End gc_agent.

(** ** Witnesses *)

(** A JVM that grants no capability, and enforces them. *)
Definition strict_jvm : Jvmti :=
  {| answer _ c :=
       match c with
       | AddCapabilities _ => 98
       | SetEventNotificationMode EVENT_GARBAGE_COLLECTION_START => 99
       | _ => 0
       end;
     env_given _ := true;
     alloc h := 0;
     all_stacks _ := [];
     thread_name _ := [];
     declaring_class _ := 0;
     class_signature _ := [];
     method_name _ := [];
     object_class _ := 0;
     thread_class _ := None;
     thread_constructor _ := None;
     new_thread _ := None |}.

Lemma gc_agent_loads_witness :
  let run := @Agent_OnLoad strict_jvm (Some 1) (Some 2) [] in
  run.2 = Done (Exited (-1)) /\ loading (Some 1) (Some 2) run.2 (calls_of run.1) [1; 2].
Proof.
  split; [done|]. apply (@gc_agent_loads strict_jvm (Some 1) (Some 2) []); [by intros p [= <-]|done].
Defined.

Lemma refused_capability_exits_witness :
  (@Agent_OnLoad strict_jvm (Some 1) (Some 2) []).2 = Done (Exited (-1)).
Proof.
  apply (@refused_capability_exits strict_jvm (Some 1) (Some 2) []
    (@Agent_OnLoad strict_jvm (Some 1) (Some 2) []).1 _ 1 2 98); done.
Defined.
