(* ===== verification/OldAgent.v ===== *)
(** * The first version of the agent ([src/src/__trace_agent.h])

    The build does not use this file (its [vm_init] comes before the functions it names). It shares the JVMTI of
    [Agent.v] and differs in its callbacks, in the events it enables, and in its worker: a raw monitor and a
    counter of collections instead of a queue. The first part models the code that talks to the JVM, the second
    the worker and the threads that collect garbage. *)

From S2P Require Import Prelude.
From S2P Require Import Text.
From S2P Require Import Agent.
From Stdlib Require String.
Import String.StringSyntax.
#[local] Open Scope list_scope.

Section callbacks.
Context `{J : Jvmti}.

(** ** [stack_trace] *)

(** The body of the loop on stacks; the loop on frames is the one of [Agent.v]. *)
Definition print_stack (i : Z) (stack : jvmtiStackInfo) : agent unit :=
  match frame_buffer stack with
  | None => mret ()
  | Some info => _ ← say (Say_stack_number i); print_frames info 0 (Z.to_nat (frame_count stack))
  end.

Fixpoint print_stacks (i : Z) (stacks : list jvmtiStackInfo) : agent unit :=
  match stacks with
  | [] => mret ()
  | stack :: stacks' => _ ← print_stack i stack; print_stacks (i + 1) stacks'
  end.

Definition stack_trace : agent unit :=
  stacks ← ask all_stacks;
  rc ← jvmti_call (GetAllStackTraces 10);
  stacks ← (if rc =? JVMTI_ERROR_NONE then _ ← give; mret stacks else mret []);
  print_stacks 0 stacks.

(** ** Callbacks *)

Definition DictBasePO : list byte := lit "DictBasePO"%string.

(** The body of [try]. *)
Definition method_entry_body (method : Z) : agent unit :=
  error ← jvmti_call (GetMethodDeclaringClass method);
  _ ← CHECK_ERR error;
  error ← jvmti_call (GetClassSignature (declaring_class method));
  _ ← CHECK_ERR error;
  signature ← give;
  error ← jvmti_call (GetMethodName method);
  _ ← CHECK_ERR error;
  name ← give;
  _ ← say (Say_method_entry (strncmp_prefix DictBasePO (method_name method)) (method_name method));
  error ← jvmti_call (Deallocate name);
  _ ← CHECK_ERR error;
  error ← jvmti_call (Deallocate signature);
  CHECK_ERR error.

Definition method_entry (method : Z) : agent unit := try_catch (method_entry_body method) print_what.

Definition filter_class (signature : list byte) (size : Z) : agent unit :=
  if negb (strncmp_prefix (lit "[Lcom/zoe"%string) signature) && negb (strncmp_prefix (lit "Lcom/zoe"%string) signature)
  then mret () else say (Say_sized_alloc signature size).

(** [vm_object_alloc]: [st_] is set by the handler of SIGUSR1; the callback returns its new value. *)
Definition sighandler (st_ : bool) : bool := true.

Definition vm_object_alloc (st_ : bool) (object_klass size : Z) : agent bool :=
  error ← jvmti_call (GetClassSignature object_klass);
  _ ← CHECK_ERR error;
  signature ← give;
  _ ← filter_class (class_signature object_klass) size;
  error ← jvmti_call (Deallocate signature);
  _ ← CHECK_ERR error;
  if st_ then _ ← stack_trace; mret false else mret st_.

Definition class_file_load_hook (name : option (list byte)) : agent unit :=
  match name with
  | None => mret ()
  | Some name =>
      if negb (strncmp_prefix (lit "[com/zoe"%string) name) && negb (strncmp_prefix (lit "com/zoe"%string) name)
      then mret () else say (Say_class_load name)
  end.

Definition exception_cb (method : Z) : agent unit :=
  error ← jvmti_call (GetMethodName method);
  _ ← CHECK_ERR error;
  name ← give;
  _ ← say (Say_exception (method_name method));
  error ← jvmti_call (Deallocate name);
  CHECK_ERR error.

(** [tname2]: the name of the thread that runs the callback, in memory nobody gives back. *)
Definition tname2 (current_thread : list event -> Z) : agent (list byte) :=
  th ← ask current_thread;
  error ← jvmti_call GetCurrentThread;
  if negb (error =? JVMTI_ERROR_NONE) then mret (lit "error tname_a"%string)
  else
    error ← jvmti_call (GetThreadInfo th);
    if negb (error =? JVMTI_ERROR_NONE) then mret (lit "error tname_b"%string)
    else _ ← give; mret (thread_name th).

(** ** Loading *)

Definition add_cap : agent unit :=
  error ← jvmti_call (AddCapabilities
    {| can_generate_garbage_collection_events := true; can_tag_objects := false; can_signal_thread := false;
       can_generate_exception_events := false; can_generate_vm_object_alloc_events := true;
       can_generate_method_entry_events := true |});
  CHECK_ERR error.

Definition callbacks : jvmtiEventCallbacks :=
  {| VMInit := Some F_vm_init; GarbageCollectionStart := Some F_gc_start;
     GarbageCollectionFinish := Some F_gc_finish; ThreadEnd := None; ThreadStart := None; Exception := None;
     VMObjectAlloc := None; ClassFileLoadHook := None |}.

Definition reg_event : agent unit :=
  error ← jvmti_call (SetEventCallbacks callbacks);
  _ ← CHECK_ERR error;
  _ ← enable EVENT_VM_INIT;
  _ ← enable EVENT_VM_OBJECT_ALLOC;
  _ ← enable EVENT_CLASS_FILE_LOAD_HOOK;
  _ ← enable EVENT_GARBAGE_COLLECTION_START;
  _ ← enable EVENT_GARBAGE_COLLECTION_FINISH;
  error ← jvmti_call CreateRawMonitor;
  CHECK_ERR error.

(** [vm_init]: the worker's thread, then the handler of SIGUSR1. *)
Definition vm_init : agent unit :=
  _ ← say Say_vm_init;
  t ← alloc_thread;
  error ← jvmti_call (RunAgentThread t F_worker JVMTI_THREAD_MAX_PRIORITY);
  _ ← CHECK_ERR error;
  say Install_sigusr1.

(** ** Lemmas *)

(** The calls of [reg_event], which are all tested. *)
Definition reg_calls : list jcall :=
  SetEventCallbacks callbacks
  :: map SetEventNotificationMode
       [EVENT_VM_INIT; EVENT_VM_OBJECT_ALLOC; EVENT_CLASS_FILE_LOAD_HOOK; EVENT_GARBAGE_COLLECTION_START;
        EVENT_GARBAGE_COLLECTION_FINISH]
  ++ [CreateRawMonitor].

Lemma reg_event_checked : reg_event ≡ checked reg_calls.
Proof.
  unfold reg_event, enable. cbn [reg_calls map app checked]. repeat setoid_rewrite agent_bind_assoc.
  repeat (apply agent_bind_proper; [intros ?|done]). symmetry. apply agent_bind_unit.
Qed.

(** A run that ended with a call that failed. *)
Definition failed (evs : list event) (r : flow unit) : Prop :=
  exists evs' c rc, r = Raised (Agent_exception rc) /\ rc <> 0 /\ evs = evs' ++ [Api c rc].

Lemma failed_now c rc : rc <> 0 -> failed [Api c rc] (Raised (Agent_exception rc)).
Proof. intros H. by exists [], c, rc. Qed.

Lemma failed_later e evs r : failed evs r -> failed (e :: evs) r.
Proof. intros (evs' & c & rc & -> & H & ->). by exists (e :: evs'), c, rc. Qed.

(** Goes through the calls of a run: to its end, or to the call that fails. *)
Ltac run_through E :=
  lazymatch type of E with
  | mbind _ give _ = _ => apply give_inv in E as (? & ? & ? & E & ->); run_through E
  | mbind _ (say _) _ = _ => apply say_inv in E as (? & ? & E & ->); run_through E
  | mbind (fun e => CHECK_ERR e) (jvmti_call ?c) _ = _ => rewrite (CHECK_ERR_bind c _) in E; run_through E
  | mbind _ (jvmti_call _) _ = _ =>
      apply checked_call_inv in E as [(? & ? & E & ->)|(? & ? & -> & ->)];
      [run_through E|right; repeat first [by apply failed_now|apply failed_later]]
  | _ => idtac
  end.

Lemma method_entry_body_spec method h evs r :
  method_entry_body method h = (evs, r) ->
  (r = Done () /\ given evs ≡ₚ freed evs
   /\ omap (fun e => match e with Say_method_entry b n => Some (b, n) | _ => None end) evs
      = [(strncmp_prefix DictBasePO (method_name method), method_name method)])
  \/ failed evs r.
Proof.
  intros E. unfold method_entry_body in E. run_through E.
  injection E as <- <-. left. split_and!; [done| |done]. cbn. apply perm_swap.
Qed.

(** ** Properties of the callbacks *)

(** No exception leaves [method_entry]. It reports the method once and gives back the memory of both names, or a
    call of JVMTI failed, which was the last thing it did, and printing the exception reads a string that
    is gone. *)
Theorem method_entry_contains_errors (method : Z) (h evs : list event) (r : flow unit) :
  method_entry method h = (evs, r) ->
  (r = Done () /\ given evs ≡ₚ freed evs
   /\ omap (fun e => match e with Say_method_entry b n => Some (b, n) | _ => None end) evs
      = [(bool_decide (DictBasePO `prefix_of` method_name method), method_name method)])
  \/ (r = Undefined Dangling_pointer /\ exists evs' c rc, evs = evs' ++ [Api c rc] /\ rc <> JVMTI_ERROR_NONE).
Proof.
  unfold method_entry, try_catch. destruct (method_entry_body method h) as [l r0] eqn:E.
  apply method_entry_body_spec in E as [(-> & Hg & Hs)|(evs' & c & rc & -> & Hrc & ->)]; intros [= <- <-].
  - left. split_and!; [done|done|]. rewrite Hs. do 2 f_equal. symmetry.
    destruct (strncmp_prefix DictBasePO _) eqn:Eb;
      [apply bool_decide_eq_true|apply bool_decide_eq_false]; rewrite <- strncmp_prefix_spec; congruence.
  - right. split; [done|]. exists evs', c, rc. by rewrite app_nil_r.
Qed.

(** Registering enables the events of allocations and of class files without a function for them: JVMTI is
    asked for both, and the table has NULL there. [reg_event] ends normally exactly when all its calls succeed. *)
Theorem reg_event_unserved (h evs : list event) (r : flow unit) :
  reg_event h = (evs, r) ->
  (r = Done () /\ calls_of evs = map (fun c => (c, JVMTI_ERROR_NONE)) reg_calls
   /\ forall e, SetEventNotificationMode e ∈ reg_calls ->
        (callback callbacks e = None <-> e = EVENT_VM_OBJECT_ALLOC \/ e = EVENT_CLASS_FILE_LOAD_HOOK))
  \/ exists n c rc, reg_calls !! n = Some c /\ rc <> JVMTI_ERROR_NONE /\ r = Raised (Agent_exception rc)
       /\ calls_of evs = map (fun c => (c, JVMTI_ERROR_NONE)) (take n reg_calls) ++ [(c, rc)].
Proof.
  rewrite (reg_event_checked h). intros [[-> ->]|(n & c & rc & Hn & Hrc & -> & ->)]%checked_spec.
  - left. split_and!; [done|apply calls_of_checked|].
    intros e He%list_elem_of_In. cbn in He. destruct e; cbn; intuition congruence.
  - right. exists n, c, rc. split_and!; try done. by rewrite calls_of_app, calls_of_checked.
Qed.

(** [filter_class] and [class_file_load_hook] report the classes of the package, and arrays of them. *)
Theorem filters_report (h : list event) (signature name : list byte) (size : Z) :
  filter_class signature size h
  = (if decide (lit "[Lcom/zoe"%string `prefix_of` signature \/ lit "Lcom/zoe"%string `prefix_of` signature)
     then [Say_sized_alloc signature size] else [], Done ())
  /\ class_file_load_hook (Some name) h
  = (if decide (lit "[com/zoe"%string `prefix_of` name \/ lit "com/zoe"%string `prefix_of` name)
     then [Say_class_load name] else [], Done ()).
Proof.
  assert (H : forall (a b t : list byte) (x : list event),
    (if negb (strncmp_prefix a t) && negb (strncmp_prefix b t) then [] else x)
    = if decide (a `prefix_of` t \/ b `prefix_of` t) then x else []).
  { intros a b t x. rewrite <- negb_orb, if_negb. case_decide as D; rewrite <- !strncmp_prefix_spec, <- orb_true_iff in D.
    - by rewrite D.
    - by rewrite (proj1 (not_true_iff_false _) D). }
  unfold filter_class, class_file_load_hook, say. cbn [negb]. rewrite <- !H. split.
  - by destruct (negb _ && negb _).
  - by destruct (negb _ && negb _).
Qed.

End callbacks.

(** ** Witnesses *)

Lemma method_entry_contains_errors_witness :
  let run := @method_entry demo_jvm 12 [] in
  run.2 = Undefined Dangling_pointer /\ exists evs' c rc, run.1 = evs' ++ [Api c rc] /\ rc <> JVMTI_ERROR_NONE.
Proof.
  split; [done|].
  destruct (@method_entry_contains_errors demo_jvm 12 [] _ (@method_entry demo_jvm 12 []).2 eq_refl)
    as [([=] & _)|[_ H]]. exact H.
Defined.

Lemma reg_event_unserved_witness :
  SetEventNotificationMode EVENT_CLASS_FILE_LOAD_HOOK ∈ reg_calls /\ callback callbacks EVENT_CLASS_FILE_LOAD_HOOK = None.
Proof.
  assert (Hin : SetEventNotificationMode EVENT_CLASS_FILE_LOAD_HOOK ∈ reg_calls)
    by (apply list_elem_of_In; cbn; auto 10).
  split; [done|].
  destruct (@reg_event_unserved demo_jvm [] _ (@reg_event demo_jvm []).2 eq_refl)
    as [(_ & _ & H)|(n & c & rc & _ & _ & [=] & _)].
  apply (H _ Hin). by right.
Defined.
