(* ===== verification/RawMonitor.v ===== *)
(** * The worker of the first agent ([src/src/__trace_agent.h], [worker], [gc_start], [gc_finish])

    [gc_start] counts a collection and notifies the raw monitor [lock]; the [worker] waits on the monitor and takes a
    stack trace for all the collections counted since the last one, with the monitor locked. The
    critical section of [gc_start] is one step that needs the monitor free. As JVMTI documents,
    the VM is stopped from the event of the start of a collection to the event of its end; [stops] says whether
    [GetAllStackTraces], which looks at all threads at once, has to wait for the VM to run. The calls of JVMTI
    succeed, except [RawMonitorWait]: an exception of [stack_trace] or [gc_start] would end the process. *)

From S2P Require Import Prelude.
From S2P Require Import CondVar.

Section raw_monitor.
Context (stops : bool).

Inductive pc : Type :=
| W_enter
| W_wait (woken : bool)
| W_error
| W_trace
| W_ret
| G_begin
| G_enter
| G_end
| G_ret.

(** [lock] is the owner of the monitor, [worker] the thread [RunAgentThread] started, [stopped] the thread whose
    collection has stopped the VM. The last three count the collections, those that a stack trace was begun
    for, and the stack traces. *)
Record sys : Type := Sys {
  lock : option nat;
  gc_count : Z;
  worker : option nat;
  stopped : option nat;
  threads : gmap nat pc;
  collections : nat;
  covered : nat;
  traces : nat;
}.

Definition sys_init : sys := Sys None 0 None None ∅ 0 0 0.

Definition goto (i : nat) (p : pc) (s : sys) : sys :=
  Sys (lock s) (gc_count s) (worker s) (stopped s) (<[i := p]> (threads s)) (collections s) (covered s) (traces s).

Definition with_lock (l : option nat) (s : sys) : sys :=
  Sys l (gc_count s) (worker s) (stopped s) (threads s) (collections s) (covered s) (traces s).

Definition with_worker (w : option nat) (s : sys) : sys :=
  Sys (lock s) (gc_count s) w (stopped s) (threads s) (collections s) (covered s) (traces s).

Definition with_stopped (g : option nat) (s : sys) : sys :=
  Sys (lock s) (gc_count s) (worker s) g (threads s) (collections s) (covered s) (traces s).

(** [while (gc_count == 0)], with the monitor locked: [RawMonitorWait] releases it; otherwise [gc_count = 0]. *)
Definition worker_test (i : nat) (s : sys) : sys :=
  if gc_count s =? 0 then goto i (W_wait false) (with_lock None s)
  else
    goto i W_trace
      (Sys (Some i) 0 (worker s) (stopped s) (threads s) (collections s) (collections s) (traces s)).

(** [RawMonitorEnter], and the end of [RawMonitorWait], need the monitor free. *)
Definition worker_enter (i : nat) (s : sys) : option sys :=
  match lock s with None => Some (worker_test i s) | Some _ => None end.

(** [RawMonitorWait] returns an error, with the monitor locked; [RawMonitorExit], and the end of [worker]. *)
Definition worker_error (i : nat) (s : sys) : option sys :=
  match lock s with None => Some (goto i W_ret s) | Some _ => None end.

(** [stack_trace()], and [RawMonitorExit]. *)
Definition worker_trace (i : nat) (s : sys) : option sys :=
  if stops && bool_decide (is_Some (stopped s)) then None
  else
    Some (goto i W_enter
      (Sys None (gc_count s) (worker s) (stopped s) (threads s) (collections s) (covered s) (S (traces s)))).

Definition wake (p : pc) : option pc := match p with W_wait false => Some (W_wait true) | _ => None end.

(** A collection starts: the VM stops. *)
Definition gc_begin (i : nat) (s : sys) : option sys :=
  match stopped s with None => Some (goto i G_enter (with_stopped (Some i) s)) | Some _ => None end.

(** [gc_start]: [c] is the thread [RawMonitorNotify] wakes; an overflow of [gc_count] is undefined. *)
Definition gc_start (i : nat) (c : option nat) (s : sys) : option sys :=
  match lock s with
  | Some _ => None
  | None =>
      if in_sint 32 (gc_count s + 1) then
        ths ← notify_one wake c (<[i := G_end]> (threads s));
        Some (Sys None (gc_count s + 1) (worker s) (stopped s) ths (S (collections s)) (covered s) (traces s))
      else None
  end.

(** [gc_finish], and the VM goes on. *)
Definition gc_finish (i : nat) (s : sys) : sys := goto i G_ret (with_stopped None s).

(** An action: [vm_init] starts the worker, a collection starts, a thread goes on, a wait ends without a
    notification or with an error. *)
Inductive action : Type :=
| Start_worker (i : nat)
| Collect (i : nat)
| Run (i : nat) (c : option nat)
| Spurious (i : nat)
| Interrupt (i : nat).

Definition free (p : option pc) : bool := match p with None | Some G_ret => true | _ => false end.

Definition monitor_exec (a : action) (s : sys) : option sys :=
  match a with
  | Start_worker i =>
      if bool_decide (worker s = None) && bool_decide (threads s !! i = None)
      then Some (goto i W_enter (with_worker (Some i) s)) else None
  | Collect i => if free (threads s !! i) then Some (goto i G_begin s) else None
  | Run i c =>
      match threads s !! i with
      | Some W_enter | Some (W_wait true) => worker_enter i s
      | Some W_error => worker_error i s
      | Some W_trace => worker_trace i s
      | Some G_begin => gc_begin i s
      | Some G_enter => gc_start i c s
      | Some G_end => Some (gc_finish i s)
      | _ => None
      end
  | Spurious i => match threads s !! i with Some (W_wait false) => Some (goto i (W_wait true) s) | _ => None end
  | Interrupt i => match threads s !! i with Some (W_wait _) => Some (goto i W_error s) | _ => None end
  end.

#[global] Instance monitor_machine : Machine sys action := {| m_init s := s = sys_init; m_exec := monitor_exec |}.

(** ** Invariant *)

(** What a thread's place says about the shared variables. *)
Definition pc_ok (s : sys) (i : nat) (p : pc) : Prop :=
  match p with
  | W_enter | W_wait true | W_error | W_ret => worker s = Some i
  | W_wait false => worker s = Some i /\ gc_count s = 0
  | W_trace => worker s = Some i /\ lock s = Some i
  | G_enter | G_end => stopped s = Some i
  | G_begin | G_ret => True
  end.

Record inv (s : sys) : Prop := Inv {
  inv_pcs : forall i p, threads s !! i = Some p -> pc_ok s i p;
  inv_lock : forall i, lock s = Some i -> threads s !! i = Some W_trace;
  inv_stopped : forall i, stopped s = Some i -> threads s !! i = Some G_enter \/ threads s !! i = Some G_end;
  inv_count : gc_count s = Z.of_nat (collections s) - Z.of_nat (covered s);
  inv_covered : (covered s <= collections s)%nat;
  inv_traces : (traces s + (if lock s is Some _ then 1 else 0) <= covered s)%nat;
}.

(** ** Lemmas *)

(** The thread [i] moves to [p], and the shared variables are those of [s1]. *)
Lemma inv_goto s s1 i p :
  inv s -> threads s1 = threads s -> pc_ok s1 i p ->
  (forall j q, j <> i -> threads s !! j = Some q -> pc_ok s j q -> pc_ok s1 j q) ->
  (forall j, lock s1 = Some j -> (j = i /\ p = W_trace) \/ (j <> i /\ lock s = Some j)) ->
  (forall j, stopped s1 = Some j -> (j = i /\ (p = G_enter \/ p = G_end)) \/ (j <> i /\ stopped s = Some j)) ->
  gc_count s1 = Z.of_nat (collections s1) - Z.of_nat (covered s1) -> (covered s1 <= collections s1)%nat ->
  (traces s1 + (if lock s1 is Some _ then 1 else 0) <= covered s1)%nat ->
  inv (goto i p s1).
Proof.
  intros Hi Et Hp Ho Hl Hs Hc Hv Ht. split; cbn; try done; rewrite Et.
  - intros j q. destruct (decide (j = i)) as [->|Hn]; [rewrite lookup_insert_eq; by intros [= <-]|].
    rewrite lookup_insert_ne by done. intros Hj. apply (Ho j q Hn Hj). by apply (inv_pcs _ Hi).
  - intros j [[-> ->]|[Hn Hj]]%Hl; [by rewrite lookup_insert_eq|].
    rewrite lookup_insert_ne by done. by apply (inv_lock _ Hi).
  - intros j [[-> Hp']|[Hn Hj]]%Hs; [rewrite lookup_insert_eq; destruct Hp' as [-> | ->]; auto|].
    rewrite lookup_insert_ne by done. by apply (inv_stopped _ Hi).
Qed.

(** A thread that neither owns the monitor nor has stopped the VM, before and after it moves. *)
Lemma inv_bystander s i p :
  inv s -> lock s <> Some i -> stopped s <> Some i -> pc_ok s i p -> inv (goto i p s).
Proof.
  intros Hi Hl Hs Hp. apply (inv_goto s); try done; try apply Hi; intros j Hj; right; (split; [congruence|done]).
Qed.

Lemma inv_pc s i p : inv s -> threads s !! i = Some p -> pc_ok s i p.
Proof. intros Hi. apply (inv_pcs _ Hi). Qed.

(** Where the owner of the monitor and the thread that stopped the VM are. *)
Lemma inv_not_owner s i p : inv s -> threads s !! i = Some p -> p <> W_trace -> lock s <> Some i.
Proof. intros Hi Hp Hn Hl%(inv_lock _ Hi). congruence. Qed.

Lemma inv_not_collector s i p : inv s -> threads s !! i = Some p -> p <> G_enter -> p <> G_end -> stopped s <> Some i.
Proof. intros Hi Hp Hn1 Hn2 Hl%(inv_stopped _ Hi). destruct Hl; congruence. Qed.

Lemma inv_worker_test s i :
  inv s -> lock s = None -> worker s = Some i -> stopped s <> Some i -> inv (worker_test i s).
Proof.
  intros Hi Hl Hw Hs. unfold worker_test. destruct (Z.eqb_spec (gc_count s) 0) as [E|E].
  - apply (inv_goto s); try done; try apply Hi.
    + intros j q Hn Hj. destruct q as [|[]| | | | | | |]; cbn; try done. intros [? Hj']. congruence.
    + intros j Hj. cbn in Hj. right. split; [congruence|done].
    + cbn. pose proof (inv_traces _ Hi). lia.
  - pose proof (inv_count _ Hi). pose proof (inv_covered _ Hi). pose proof (inv_traces _ Hi) as Ht.
    apply (inv_goto s); try done; cbn; try lia.
    + intros j q Hn Hj. destruct q as [|[]| | | | | | |]; cbn; try done; intros [? Hj']; congruence.
    + intros j [= <-]. by left.
    + intros j Hj. right. split; [congruence|done].
Qed.

Lemma inv_gc_start s i c s' : inv s -> threads s !! i = Some G_enter -> gc_start i c s = Some s' -> inv s'.
Proof.
  intros Hi Hp Hs. unfold gc_start in Hs. destruct (lock s) as [l|] eqn:El; [done|].
  destruct (in_sint _ _); [|done]. cbn in Hs.
  destruct (notify_one wake c (<[i:=G_end]> (threads s))) as [ths|] eqn:En; [|done].
  cbn in Hs. injection Hs as <-. pose proof (inv_pc _ _ _ Hi Hp) as Hst. cbn in Hst.
  pose proof (inv_count _ Hi). pose proof (inv_covered _ Hi). pose proof (inv_traces _ Hi) as Ht. rewrite El in Ht.
  assert (Hback : forall j q, j <> i -> ths !! j = Some q ->
    threads s !! j = Some q \/ (q = W_wait true /\ threads s !! j = Some (W_wait false))).
  { intros j q Hne Hj. destruct (notify_one_back _ _ _ _ _ _ En Hj) as [H'|(p & H' & Hw)];
      rewrite lookup_insert_ne in H' by done; [by left|].
    right. destruct p as [|[]| | | | | | |]; try done. by injection Hw as <-. }
  assert (Hi' : ths !! i = Some G_end).
  { eapply notify_one_keeps; [exact En| |done]. by rewrite lookup_insert_eq. }
  split; cbn; try lia; try done.
  - intros j q Hj. destruct (decide (j = i)) as [->|Hne]; [rewrite Hi' in Hj; by injection Hj as <-|].
    assert (Hsl : wake q = None).
    { revert Hj. apply (notify_one_unique wake c (<[i:=G_end]> (threads s)) ths (default 0%nat (worker s))); [by intros [|[]| | | | | | |] ? [= <-]| |done].
      intros u p Hu Hsome. destruct (decide (u = i)) as [->|]; [rewrite lookup_insert_eq in Hu; injection Hu as <-; by destruct Hsome|].
      rewrite lookup_insert_ne in Hu by done. pose proof (inv_pc _ _ _ Hi Hu) as Hok.
      destruct p as [|[]| | | | | | |]; try by destruct Hsome. destruct Hok as [-> _]. done. }
    destruct (Hback j q Hne Hj) as [H'|[-> H']]; pose proof (inv_pc _ _ _ Hi H') as Hok; [|by destruct Hok].
    destruct q as [|[]| | | | | | |]; cbn in *; try done. destruct Hok. congruence.
  - intros j Hj. rewrite Hst in Hj. injection Hj as <-. by right.
Qed.

Lemma inv_start_worker s i :
  inv s -> worker s = None -> threads s !! i = None -> inv (goto i W_enter (with_worker (Some i) s)).
Proof.
  intros Hi Ew Et. apply (inv_goto s); try done; try apply Hi.
  - intros j q Hn Hj. destruct q as [|[]| | | | | | |]; cbn; try done; rewrite Ew; try (by intros [=]); by intros [[=] _].
  - intros j Hj. cbn in Hj. right. split; [|done]. intros ->. apply (inv_lock _ Hi) in Hj. congruence.
  - intros j Hj. cbn in Hj. right. split; [|done]. intros ->. apply (inv_stopped _ Hi) in Hj. destruct Hj; congruence.
Qed.

Lemma inv_worker_trace s i s' :
  inv s -> threads s !! i = Some W_trace -> worker_trace i s = Some s' -> inv s'.
Proof.
  intros Hi Hp Hs. unfold worker_trace in Hs. destruct (_ && _); [done|]. injection Hs as <-.
  destruct (inv_pc _ _ _ Hi Hp) as [Hw Hl]. pose proof (inv_traces _ Hi) as Ht. rewrite Hl in Ht.
  apply (inv_goto s); try done; try apply Hi.
  - intros j q Hn Hj. destruct q as [|[]| | | | | | |]; cbn; try done. intros [_ ?]. congruence.
  - intros j Hj. cbn in Hj. right. split; [|done]. intros ->. apply (inv_stopped _ Hi) in Hj. destruct Hj; congruence.
  - cbn. lia.
Qed.

(** A collection stops the VM, or lets it go on. *)
Lemma inv_gc_begin s i s' : inv s -> threads s !! i = Some G_begin -> gc_begin i s = Some s' -> inv s'.
Proof.
  intros Hi Hp Hs. unfold gc_begin in Hs. destruct (stopped s) eqn:Est; [done|]. injection Hs as <-.
  apply (inv_goto s); try done; try apply Hi.
  - intros j q Hn Hj. destruct q as [|[]| | | | | | |]; cbn; try done; congruence.
  - intros j Hj. cbn in Hj. right. split; [|done]. intros ->. apply (inv_lock _ Hi) in Hj. congruence.
  - intros j [= <-]. left. auto.
Qed.

Lemma inv_gc_finish s i : inv s -> threads s !! i = Some G_end -> inv (gc_finish i s).
Proof.
  intros Hi Hp. pose proof (inv_pc _ _ _ Hi Hp) as Hok. apply (inv_goto s); try done; try apply Hi.
  - intros j q Hn Hj. destruct q as [|[]| | | | | | |]; cbn in *; try done; congruence.
  - intros j Hj. cbn in Hj. right. split; [|done]. intros ->. apply (inv_lock _ Hi) in Hj. congruence.
Qed.

Lemma inv_worker_enter s i p s' :
  inv s -> threads s !! i = Some p -> p = W_enter \/ p = W_wait true -> worker_enter i s = Some s' -> inv s'.
Proof.
  intros Hi Hp Hw He. unfold worker_enter in He. destruct (lock s) eqn:El; [done|]. injection He as <-.
  pose proof (inv_pc _ _ _ Hi Hp). apply inv_worker_test; [done..|by destruct Hw; subst p|].
  by destruct Hw; subst p; eapply inv_not_collector.
Qed.

Lemma monitor_inv_step a s s' : inv s -> monitor_exec a s = Some s' -> inv s'.
Proof.
  intros Hi Hs. destruct a as [i|i|i c|i|i]; cbn in Hs.
  - destruct (bool_decide_reflect (worker s = None)) as [Ew|]; [|done].
    destruct (bool_decide_reflect (threads s !! i = None)) as [Et|]; [|done]. injection Hs as <-.
    by apply inv_start_worker.
  - destruct (free (threads s !! i)) eqn:Ef; [|done]. injection Hs as <-.
    apply inv_bystander; [done|..|done].
    + intros H%(inv_lock _ Hi). by rewrite H in Ef.
    + intros H%(inv_stopped _ Hi). by destruct H as [H|H]; rewrite H in Ef.
  - destruct (threads s !! i) as [p|] eqn:Hp; [|done].
    destruct p as [|[]| | | | | | |]; try done; eauto using inv_worker_enter, inv_worker_trace, inv_gc_begin, inv_gc_start.
    + unfold worker_error in Hs. destruct (lock s) eqn:El; [done|]. injection Hs as <-.
      apply inv_bystander; [done|by rewrite El|by eapply inv_not_collector|exact (inv_pc _ _ _ Hi Hp)].
    + injection Hs as <-. by apply inv_gc_finish.
  - destruct (threads s !! i) as [[|[]| | | | | | |]|] eqn:Hp; try done. injection Hs as <-.
    apply inv_bystander; [done|by eapply inv_not_owner|by eapply inv_not_collector|].
    by destruct (inv_pc _ _ _ Hi Hp).
  - destruct (threads s !! i) as [[|w| | | | | | |]|] eqn:Hp; try done. injection Hs as <-.
    apply inv_bystander; [done|by eapply inv_not_owner|by eapply inv_not_collector|].
    pose proof (inv_pc _ _ _ Hi Hp) as Hok. destruct w; [done|]. by destruct Hok.
Qed.

Lemma monitor_inv s : reachable s -> inv s.
Proof.
  apply reachable_invariant; [|by intros a s1 s2; apply monitor_inv_step]. intros ? ->. split; cbn; try done; lia.
Qed.

(** The monitor stays with the worker, and the VM stopped, when the worker needs the VM and the collection
    the monitor. *)
Definition wedged (w g : nat) (s : sys) : Prop :=
  inv s /\ stops = true /\ lock s = Some w /\ stopped s = Some g /\ threads s !! w = Some W_trace
  /\ threads s !! g = Some G_enter /\ worker s = Some w.

Lemma wedged_step w g a s s' : wedged w g s -> monitor_exec a s = Some s' -> wedged w g s'.
Proof.
  intros (Hi & Hst & Hl & Hg & Hw & Hgt & Hwk) Hs. pose proof (monitor_inv_step a s s' Hi Hs) as Hi'.
  assert (Hgo : forall i p, inv (goto i p s) -> threads s !! i <> Some W_trace -> threads s !! i <> Some G_enter ->
    wedged w g (goto i p s)).
  { intros i p H0 H1 H2. split_and!; try done; cbn; rewrite lookup_insert_ne; (done || congruence). }
  destruct a as [i|i|i c|i|i]; cbn in Hs.
  - by rewrite Hwk in Hs.
  - destruct (free (threads s !! i)) eqn:Ef; [|done]. injection Hs as <-. apply Hgo; [done|..]; intros H; by rewrite H in Ef.
  - destruct (threads s !! i) as [p|] eqn:Hp; [|done].
    destruct p as [|[]| | | | | | |]; try done; unfold worker_enter, worker_error, gc_begin, gc_start in Hs;
      rewrite ?Hl, ?Hg in Hs; try done.
    + unfold worker_trace in Hs. rewrite Hst, Hg in Hs. done.
    + pose proof (inv_pc _ _ _ Hi Hp) as Hok. cbn in Hok. congruence.
  - destruct (threads s !! i) as [[|[]| | | | | | |]|] eqn:Hp; try done. injection Hs as <-. by apply Hgo; rewrite ?Hp.
  - destruct (threads s !! i) as [[|w'| | | | | | |]|] eqn:Hp; try done. injection Hs as <-. by apply Hgo; rewrite ?Hp.
Qed.

(** A thread at [G_enter] or [G_end] moves when the monitor is free. *)
Lemma collector_moves s g :
  lock s = None -> in_sint 32 (gc_count s + 1) = true -> threads s !! g = Some G_enter \/ threads s !! g = Some G_end ->
  exists c s', monitor_exec (Run g c) s = Some s'.
Proof.
  intros Hl Hc [Hg|Hg].
  - destruct (notify_one_total wake (<[g:=G_end]> (threads s))) as (c & ths & Hn). exists c.
    cbn. rewrite Hg. unfold gc_start. rewrite Hl, Hc, Hn. by eexists.
  - exists None. cbn. rewrite Hg. by eexists.
Qed.

(** ** Properties *)

(** C39. The worker coalesces collections and loses none: the counter is the number of collections that no stack trace
    was begun for yet, there are at most as many stack traces as collections, and when the worker sleeps without having
    been notified every collection is covered by a stack trace that came after it. *)
Theorem gc_coalesced (s : sys) :
  reachable s ->
  gc_count s = Z.of_nat (collections s) - Z.of_nat (covered s)
  /\ (traces s <= covered s <= collections s)%nat
  /\ (forall w, threads s !! w = Some (W_wait false) -> covered s = collections s).
Proof.
  intros Hr. pose proof (monitor_inv s Hr) as Hi. pose proof (inv_count _ Hi). pose proof (inv_covered _ Hi).
  pose proof (inv_traces _ Hi). split_and!; [done|destruct (lock s); lia|done|].
  intros w Hw. pose proof (inv_pc _ _ _ Hi Hw) as [_ Hc]. lia.
Qed.

(** On a VM where stack traces do not wait for the end of a collection, nothing deadlocks: as long as a thread has not
    returned and does not wait for a notification, some thread can make a step. *)
Theorem monitor_progress (s : sys) (i : nat) (p : pc) :
  stops = false -> reachable s -> in_sint 32 (gc_count s + 1) = true -> threads s !! i = Some p ->
  p <> W_ret -> p <> G_ret -> p <> W_wait false ->
  exists j c s', monitor_exec (Run j c) s = Some s'.
Proof.
  intros Hst Hr Hc Hp H1 H2 H3. pose proof (monitor_inv s Hr) as Hi.
  destruct (lock s) as [w|] eqn:El.
  { pose proof (inv_lock _ Hi _ El) as Hw. exists w, None. cbn. rewrite Hw. unfold worker_trace. rewrite Hst. by eexists. }
  pose proof (inv_pc _ _ _ Hi Hp) as Hok. exists (match p with G_begin => default i (stopped s) | _ => i end).
  destruct p as [|[]| | | | | | |]; try done.
  - exists None. cbn. rewrite Hp. unfold worker_enter. rewrite El. by eexists.
  - exists None. cbn. rewrite Hp. unfold worker_enter. rewrite El. by eexists.
  - exists None. cbn. rewrite Hp. unfold worker_error. rewrite El. by eexists.
  - destruct Hok. congruence.
  - destruct (stopped s) as [g|] eqn:Eg; cbn [default].
    + apply collector_moves; [done..|]. exact (inv_stopped _ Hi _ Eg).
    + exists None. cbn. rewrite Hp. unfold gc_begin. rewrite Eg. by eexists.
  - apply collector_moves; auto.
  - apply collector_moves; auto.
Qed.

End raw_monitor.

(** The schedule of the deadlock: a first collection wakes the worker, which takes its stack trace while a second
    collection starts. *)
Definition wedge_schedule : list action :=
  [Start_worker 1; Run 1 None; Collect 2; Run 2 None; Run 2 (Some 1%nat); Run 2 None; Run 1 None; Collect 2; Run 2 None].

(** On a VM where a stack trace has to wait for the end of a collection, the agent deadlocks the VM: the worker holds the
    monitor and waits for the VM to run, and [gc_start], with the VM stopped, waits for the monitor. A
    state is reachable in which the two wait for each other in every later state. *)
Theorem collection_deadlocks :
  exists s w g, @reachable _ _ (monitor_machine true) s
    /\ forall acts s', @run _ _ (monitor_machine true) acts s = Some s' ->
       threads s' !! w = Some W_trace /\ threads s' !! g = Some G_enter /\ lock s' = Some w /\ stopped s' = Some g.
Proof.
  set (s := default sys_init (@run _ _ (monitor_machine true) wedge_schedule sys_init)).
  assert (Hr : @reachable _ _ (monitor_machine true) s).
  { exists sys_init, wedge_schedule. split; [done|by vm_compute]. }
  assert (Hw : wedged true 1 2 s) by (split; [by apply (monitor_inv true)|by vm_compute]).
  exists s, 1%nat, 2%nat. split; [done|]. intros acts s' Hrun.
  assert (H : wedged true 1 2 s').
  { revert Hrun. apply (@run_invariant _ _ (monitor_machine true) (wedged true 1 2)); [|done]. apply wedged_step. }
  destruct H as (_ & _ & ? & ? & ? & ? & _). by split_and!.
Qed.

(** ** Witnesses *)

Definition demo_monitor (b : bool) (acts : list action) : sys :=
  default sys_init (@run _ _ (monitor_machine b) acts sys_init).

Lemma gc_coalesced_witness :
  let s := demo_monitor true (take 2 wedge_schedule) in
  threads s !! 1%nat = Some (W_wait false) /\ covered s = collections s.
Proof.
  split; [by vm_compute|].
  apply (gc_coalesced true (demo_monitor true (take 2 wedge_schedule))) with 1%nat; [|by vm_compute].
  exists sys_init, (take 2 wedge_schedule). split; [done|by vm_compute].
Defined.

Lemma monitor_progress_witness :
  exists j c s', monitor_exec false (Run j c) (demo_monitor false wedge_schedule) = Some s'.
Proof.
  apply (monitor_progress false (demo_monitor false wedge_schedule) 2 G_enter); [done| |by vm_compute..|done|done|done].
  exists sys_init, wedge_schedule. split; [done|by vm_compute].
Defined.
