(* ===== verification/Safepoint.v ===== *)
(** * The agent's threads ([src/src/trace_agent.h], [src/src/trace_util.h])

    [mem_fuller] lets a thread that finds the memory full ask for a dump ([pending]) and sleep on a
    condition variable; [notify] wakes sleepers. The agent has a [worker] that takes a stack trace after each
    garbage collection, and a [safepoint_worker] that dumps the stacks when a thread is pending, while a
    helper thread ([safepoint_notify]) notifies sleepers until the dump is over, because the dump needs
    the sleeping threads to reach a safepoint.

    The threads share three blocking queues. [ZQueue.zqueue_refines] shows that a queue behaves as an
    atomic FIFO, and so its operations are atomic here; [try_pop] may time out at any time, its element there or not
    ([ZQueue.zqueue_late_timeout_loses_wakeup]). A critical section of [c_mutex_] is one step that needs the
    mutex free, except [notify(true)], which returns with the mutex locked.

    [stack_trace] is [Agent.stack_trace]. It calls [GetAllStackTraces], which stops the threads of the JVM: the call
    ends by an action of the JVM ([Answer]), possible only while none of the threads it has to stop
    ([safepoint_needs]) is inside [pending]. [plan.md] notes that the call may hang when a collection starts, and that is
    how. Once answered, [stack_trace] returns without printing ([Agent.stack_trace_quiet]), and with printing it may
    throw ([Agent.stack_trace_listing]), which ends the process because the helper thread is still joinable. *)

From S2P Require Import Prelude.
From S2P Require Import CondVar.

(** ** The state *)

(** Where a thread is. The number in a state of [safepoint_worker] is its helper, the number in a state
    of [safepoint_notify] the worker that owns its queue [qq]. *)
Inductive pc : Type :=
| Pend_push (tm : Z)
| Pend_lock
| Pend_wait (woken : bool)
| Pend_ret (re : bool)
| Notify_lock (all : bool)
| Notify_ret
| W_start
| W_pop
| W_check
| W_trace
| W_ret
| S_start
| S_pop
| S_check
| S_spawn
| S_trace (helper : nat)
| S_push (helper : nat)
| S_join (helper : nat)
| S_ret
| N_lock (owner : nat)
| N_pop (owner : nat)
| N_ret.

(** [queue_] and [c_mutex_] (with the thread that locked it) are those of [mem_fuller]; [stack_trace_] holds the
    threads whose flag of that name is set; [gc_queue] is [_queue]; [qqs] holds the queue [qq] of each
    [safepoint_worker] that has one; [dead] says that the process was terminated, [dangling] that a thread
    used a queue that no longer exists. The last three count garbage collections and stack traces. *)
Record sys : Type := Sys {
  c_mutex_ : option nat;
  queue_ : list Z;
  stack_trace_ : gset nat;
  gc_queue : list Z;
  qqs : gmap nat (list Z);
  stop_ : bool;
  dead : bool;
  dangling : bool;
  threads : gmap nat pc;
  gc_events : nat;
  gc_traces : nat;
  full_traces : nat;
}.

Definition sys_init : sys :=
  {| c_mutex_ := None; queue_ := []; stack_trace_ := ∅; gc_queue := []; qqs := ∅; stop_ := false;
     dead := false; dangling := false; threads := ∅; gc_events := 0; gc_traces := 0; full_traces := 0 |}.

Definition with_threads (ths : gmap nat pc) (s : sys) : sys :=
  Sys (c_mutex_ s) (queue_ s) (stack_trace_ s) (gc_queue s) (qqs s) (stop_ s) (dead s) (dangling s) ths
    (gc_events s) (gc_traces s) (full_traces s).

Definition goto (i : nat) (p : pc) (s : sys) : sys := with_threads (<[i := p]> (threads s)) s.

Definition with_mutex (m : option nat) (s : sys) : sys :=
  Sys m (queue_ s) (stack_trace_ s) (gc_queue s) (qqs s) (stop_ s) (dead s) (dangling s) (threads s)
    (gc_events s) (gc_traces s) (full_traces s).

Definition with_queue (q : list Z) (s : sys) : sys :=
  Sys (c_mutex_ s) q (stack_trace_ s) (gc_queue s) (qqs s) (stop_ s) (dead s) (dangling s) (threads s)
    (gc_events s) (gc_traces s) (full_traces s).

Definition with_gc (q : list Z) (events traces : nat) (s : sys) : sys :=
  Sys (c_mutex_ s) (queue_ s) (stack_trace_ s) q (qqs s) (stop_ s) (dead s) (dangling s) (threads s)
    events traces (full_traces s).

Definition with_qqs (m : gmap nat (list Z)) (s : sys) : sys :=
  Sys (c_mutex_ s) (queue_ s) (stack_trace_ s) (gc_queue s) m (stop_ s) (dead s) (dangling s) (threads s)
    (gc_events s) (gc_traces s) (full_traces s).

Definition with_flags (stop dead dangling : bool) (s : sys) : sys :=
  Sys (c_mutex_ s) (queue_ s) (stack_trace_ s) (gc_queue s) (qqs s) stop dead dangling (threads s)
    (gc_events s) (gc_traces s) (full_traces s).

Definition count_full (s : sys) : sys :=
  Sys (c_mutex_ s) (queue_ s) (stack_trace_ s) (gc_queue s) (qqs s) (stop_ s) (dead s) (dangling s) (threads s)
    (gc_events s) (gc_traces s) (S (full_traces s)).

(** ** [mem_fuller] *)

(** [set_stack_trace], the flag of the calling thread. *)
Definition set_stack_trace (i : nat) (s : sys) : sys :=
  Sys (c_mutex_ s) (queue_ s) ({[ i ]} ∪ stack_trace_ s) (gc_queue s) (qqs s) (stop_ s) (dead s) (dangling s)
    (threads s) (gc_events s) (gc_traces s) (full_traces s).

Definition get_stack_trace (i : nat) (s : sys) : bool := bool_decide (i ∈ stack_trace_ s).

Definition wake (p : pc) : option pc :=
  match p with Pend_wait false => Some (Pend_wait true) | _ => None end.

(** [pending]: the request; a thread that takes stack traces itself does not wait. *)
Definition pending (i : nat) (tm : Z) (s : sys) : sys :=
  goto i (if negb (get_stack_trace i s) then Pend_lock else Pend_ret false) (with_queue (queue_ s ++ [tm]) s).

(** [pthread_mutex_lock], and [pthread_cond_wait], which releases the mutex. *)
Definition pending_wait (i : nat) (s : sys) : option sys :=
  match c_mutex_ s with None => Some (goto i (Pend_wait false) s) | Some _ => None end.

(** The end of [pthread_cond_wait], which locks the mutex, and [pthread_mutex_unlock]. *)
Definition pending_finish (i : nat) (s : sys) : option sys :=
  match c_mutex_ s with None => Some (goto i (Pend_ret false) s) | Some _ => None end.

(** [notify], which goes on at [next]: [c] is the thread [pthread_cond_signal] wakes. *)
Definition notify (i : nat) (all : bool) (next : pc) (c : option nat) (s : sys) : option sys :=
  match c_mutex_ s with
  | Some _ => None
  | None =>
      ths ← notify_one wake c (<[i := next]> (threads s));
      Some (with_mutex (if all then Some i else None)
              (with_threads (if all then notify_all wake ths else ths) s))
  end.

(** ** The threads of the agent *)

(** [worker] and [safepoint_worker] first set the flag of their thread. *)
Definition thread_start (i : nat) (next : pc) (s : sys) : sys := goto i next (set_stack_trace i s).

(** [worker]: [try_pop] finds an element; [stack_trace(false)] returns; [agent_lock::stop_] after a timeout. *)
Definition worker_pop (i : nat) (s : sys) : option sys :=
  match gc_queue s with
  | [] => None
  | _ :: rest => Some (goto i W_trace (with_gc rest (gc_events s) (gc_traces s) s))
  end.

Definition worker_trace (i : nat) (s : sys) : sys :=
  goto i W_pop (with_gc (gc_queue s) (gc_events s) (S (gc_traces s)) s).

Definition worker_check (i : nat) (s : sys) : sys := goto i (if stop_ s then W_ret else W_pop) s.

(** [safepoint_worker], up to the start of the helper thread [n]. *)
Definition safepoint_pop (i : nat) (s : sys) : option sys :=
  match queue_ s with [] => None | _ :: rest => Some (goto i S_spawn (with_queue rest s)) end.

Definition safepoint_check (i : nat) (s : sys) : sys := goto i (if stop_ s then S_ret else S_pop) s.

Definition safepoint_spawn (i n : nat) (s : sys) : option sys :=
  match threads s !! i, threads s !! n with
  | Some S_spawn, None => Some (goto n (N_lock i) (goto i (S_trace n) (with_qqs (<[i := []]> (qqs s)) s)))
  | _, _ => None
  end.

(** [stack_trace(true)] returns; it throws; [qq.push(1)]; [th.join()], and [qq] goes out of scope. *)
Definition safepoint_trace (i n : nat) (s : sys) : sys := goto i (S_push n) (count_full s).

Definition safepoint_throw (i : nat) (s : sys) : option sys :=
  match threads s !! i with
  | Some (S_trace _) => Some (with_flags (stop_ s) true (dangling s) s)
  | _ => None
  end.

Definition safepoint_push (i n : nat) (s : sys) : sys :=
  goto i (S_join n) (with_qqs (<[i := default [] (qqs s !! i) ++ [1]]> (qqs s)) s).

Definition safepoint_join (i n : nat) (s : sys) : option sys :=
  match threads s !! n with
  | Some N_ret => Some (goto i S_ret (with_qqs (delete i (qqs s)) s))
  | _ => None
  end.

(** [safepoint_notify]: [qq->try_pop] on the queue of [w]. *)
Definition notifier_pop (i w : nat) (s : sys) : option sys :=
  match qqs s !! w with
  | None => Some (with_flags (stop_ s) (dead s) true s)
  | Some [] => None
  | Some (_ :: rest) => Some (goto i N_ret (with_qqs (<[w := rest]> (qqs s)) s))
  end.

(** [gc_start] *)
Definition gc_start (tm : Z) (s : sys) : sys :=
  with_gc (gc_queue s ++ [tm]) (S (gc_events s)) (gc_traces s) s.

(** [Agent_OnUnload] *)
Definition Agent_OnUnload (s : sys) : sys := with_flags true (dead s) (dangling s) s.

(** ** The machine *)

Inductive action : Type :=
| Call (i : nat) (p : pc)
| Run (i : nat) (c : option nat)
| Timeout (i : nat)
| Spurious (i : nat)
| Spawn (i n : nat)
| Throw (i : nat)
| Flag (i : nat)
| Gc (tm : Z)
| Unload
| Answer (i : nat).

(** The points where calls start; [notify(true)] is called in some programs only. *)
Definition entry (broadcast : bool) (p : pc) : bool :=
  match p with
  | Pend_push _ | W_start | S_start => true
  | Notify_lock all => implb all broadcast
  | _ => false
  end.

Definition returned (p : option pc) : bool :=
  match p with
  | None | Some (Pend_ret _) | Some Notify_ret | Some W_ret | Some S_ret => true
  | _ => false
  end.

Definition run_thread (i : nat) (c : option nat) (s : sys) : option sys :=
  match threads s !! i with
  | Some (Pend_push tm) => Some (pending i tm s)
  | Some Pend_lock => pending_wait i s
  | Some (Pend_wait true) => pending_finish i s
  | Some (Notify_lock all) => notify i all Notify_ret c s
  | Some W_start => Some (thread_start i W_pop s)
  | Some W_pop => worker_pop i s
  | Some W_check => Some (worker_check i s)
  | Some S_start => Some (thread_start i S_pop s)
  | Some S_pop => safepoint_pop i s
  | Some S_check => Some (safepoint_check i s)
  | Some (S_push n) => Some (safepoint_push i n s)
  | Some (S_join n) => safepoint_join i n s
  | Some (N_lock w) => notify i false (N_pop w) c s
  | Some (N_pop w) => notifier_pop i w s
  | _ => None
  end.

(** [try_pop] returns [false]. *)
Definition timeout_thread (i : nat) (s : sys) : option sys :=
  match threads s !! i with
  | Some W_pop => Some (goto i W_check s)
  | Some S_pop => Some (goto i S_check s)
  | Some (N_pop w) =>
      match qqs s !! w with
      | Some _ => Some (goto i (N_lock w) s)
      | None => Some (with_flags (stop_ s) (dead s) true s)
      end
  | _ => None
  end.

Definition spurious_wakeup (i : nat) (s : sys) : option sys :=
  p ← threads s !! i; p' ← wake p; Some (goto i p' s).

(** A thread inside [pending], where the JVM cannot stop it. *)
Definition in_pending (p : pc) : bool :=
  match p with Pend_push _ | Pend_lock | Pend_wait _ => true | _ => false end.

Section jvm.

(** The threads that the JVM has to stop to answer [GetAllStackTraces]. *)
Context (safepoint_needs : nat -> bool).

Definition in_the_way (u : nat) (p : pc) : bool := safepoint_needs u && in_pending p.

Definition answerable (s : sys) : bool := bool_decide (map_Forall (fun u p => in_the_way u p = false) (threads s)).

(** The JVM answers [GetAllStackTraces] to thread [i], and [stack_trace] returns. *)
Definition answer (i : nat) (s : sys) : option sys :=
  if answerable s then
    match threads s !! i with
    | Some W_trace => Some (worker_trace i s)
    | Some (S_trace n) => Some (safepoint_trace i n s)
    | _ => None
    end
  else None.

Definition agent_exec (broadcast : bool) (a : action) (s : sys) : option sys :=
  if dead s then None
  else
    match a with
    | Call i p => if returned (threads s !! i) && entry broadcast p then Some (goto i p s) else None
    | Run i c => run_thread i c s
    | Timeout i => timeout_thread i s
    | Spurious i => spurious_wakeup i s
    | Spawn i n => safepoint_spawn i n s
    | Throw i => if answerable s then safepoint_throw i s else None
    | Flag i => Some (set_stack_trace i s)
    | Gc tm => Some (gc_start tm s)
    | Unload => Some (Agent_OnUnload s)
    | Answer i => answer i s
    end.

Definition agent_machine (broadcast : bool) : Machine sys action :=
  {| m_init s := s = sys_init; m_exec := agent_exec broadcast |}.

(** ** Invariants *)

(** Every garbage collection is waiting in [_queue], being traced, or traced. *)
Definition tracing (p : pc) : bool := match p with W_trace => true | _ => false end.

Definition gc_accounted (s : sys) : Prop :=
  gc_events s = (gc_traces s + count tracing (threads s) + length (gc_queue s))%nat.

(** What a thread is to the queue [qq] of a dump. *)
Inductive role : Type :=
| No_role
| Helper_of (owner : nat)
| Has_helper (helper : nat)
| Helped.

Definition role_of (p : option pc) : role :=
  match p with
  | Some (S_trace n) | Some (S_push n) | Some (S_join n) => Has_helper n
  | Some (N_lock w) | Some (N_pop w) => Helper_of w
  | Some N_ret => Helped
  | _ => No_role
  end.

(** A helper's owner waits for it, with its queue; the helper of an owner is at work or has ended. *)
Definition helpers_ok (roles : nat -> role) (qqs : gmap nat (list Z)) : Prop :=
  (forall n w, roles n = Helper_of w -> roles w = Has_helper n /\ is_Some (qqs !! w))
  /\ (forall w n, roles w = Has_helper n -> (roles n = Helper_of w \/ roles n = Helped) /\ is_Some (qqs !! w)).

Definition roles (s : sys) (i : nat) : role := role_of (threads s !! i).

(** The agent's own threads end for one of these reasons. *)
Definition may_exit (s : sys) (p : option pc) : Prop :=
  match p with
  | Some W_ret => stop_ s = true
  | Some S_ret => stop_ s = true \/ (0 < full_traces s)%nat
  | _ => True
  end.

(** An owner that waits for its helper took its stack trace. *)
Definition dumped (s : sys) (p : option pc) : Prop :=
  match p with Some (S_push _) | Some (S_join _) => (0 < full_traces s)%nat | _ => True end.

Definition exits_ok (s : sys) : Prop := forall i, may_exit s (threads s !! i) /\ dumped s (threads s !! i).

Definition wf (s : sys) : Prop := dangling s = false /\ helpers_ok (roles s) (qqs s) /\ exits_ok s.

(** The thread an action moves, and what a thread can do by itself. *)
Definition acts_of (a : action) : option nat :=
  match a with Run i _ | Timeout i | Spawn i _ => Some i | _ => None end.

Definition can_move (b : bool) (s : sys) (i : nat) : Prop :=
  exists a s', acts_of a = Some i /\ agent_exec b a s = Some s'.

(** Threads that need [c_mutex_] to go on. *)
Definition needs_mutex (p : option pc) : bool :=
  match p with
  | Some Pend_lock | Some (Pend_wait _) | Some (Notify_lock _) | Some (N_lock _) => true
  | _ => false
  end.

(** Threads that will never notify; actions that bring no new notifier and no spurious wakeup. *)
Definition silent (p : option pc) : bool :=
  match p with
  | Some (Notify_lock _) | Some S_start | Some S_pop | Some S_check | Some S_spawn | Some (S_trace _)
  | Some (S_push _) | Some (S_join _) | Some (N_lock _) | Some (N_pop _) => false
  | _ => true
  end.

Definition silent_action (a : action) : bool :=
  match a with Call _ p => silent (Some p) | Spurious _ => false | _ => true end.

(** ** Lemmas *)

(** The cases of a step: for each, what the moving thread was doing, and the new state. *)
Ltac agent_cases Hs :=
  unfold agent_exec in Hs;
  match type of Hs with (if dead ?s then _ else _) = _ => destruct (dead s) eqn:?; [discriminate|] end;
  match type of Hs with (match ?a with _ => _ end) = _ => destruct a as [i p|i c|i|i|i n|i|i|tm| |i] end;
  [ match type of Hs with (if ?b then _ else _) = _ => destruct b eqn:Hcall; [|discriminate] end;
    injection Hs as <-
  | unfold run_thread in Hs;
    let q := fresh "q" in
    match type of Hs with (match ?x with _ => _ end) = _ => destruct x as [q|] eqn:Hi; [|discriminate] end;
    destruct q; try discriminate;
    unfold pending_wait, pending_finish, worker_pop, safepoint_pop, safepoint_join, notifier_pop, notify in Hs
  | unfold timeout_thread in Hs
  | unfold spurious_wakeup in Hs
  | unfold safepoint_spawn in Hs
  | unfold safepoint_throw in Hs
  | | |
  | unfold answer in Hs ];
  repeat match type of Hs with
  | Some _ = Some _ => injection Hs as <-
  | None = Some _ => discriminate
  | (_ ≫= _) = Some _ =>
      let q := fresh "q" in let Hb := fresh "Hb" in apply bind_Some in Hs as (q & Hb & Hs)
  | (match threads _ !! ?j with _ => _ end) = Some _ =>
      let q := fresh "q" in let Hi := fresh "Hi" in
      destruct (threads _ !! j) as [q|] eqn:Hi
  | (match ?x with _ => _ end) = Some _ => destruct x eqn:?
  end.

Lemma tracing_wake p p' : wake p = Some p' -> tracing p' = tracing p.
Proof. destruct p as [| |[]| | | | | | | | | | | | | | | | | | |]; cbn; intros; by simplify_eq. Qed.

(** A call starts at a thread without a role, at an entry point. *)
Lemma entry_inv b (ths : gmap nat pc) i p :
  returned (ths !! i) && entry b p = true ->
  match ths !! i with Some q => tracing q | None => false end = false /\ tracing p = false
  /\ role_of (ths !! i) = No_role /\ role_of (Some p) = No_role
  /\ p <> W_ret /\ p <> S_ret /\ (b = false -> p <> Notify_lock true).
Proof. intros [H1 H2]%andb_true_iff. destruct (ths !! i) as [[]|], p, b; try done; by destruct all. Qed.

Lemma exec_gc_accounted b a s s' : gc_accounted s -> agent_exec b a s = Some s' -> gc_accounted s'.
Proof.
  unfold gc_accounted. intros Hg Hs. agent_cases Hs; cbn in *; try done;
   try (rewrite count_insert_same; [done|]; repeat (case_match; simplify_eq/=); done).
  - apply entry_inv in Hcall as (H1 & H2 & _). rewrite count_insert_same; congruence.
  - assert (count tracing q = count tracing (threads s)) as Hq.
    { etransitivity; [eapply notify_one_count; eauto using tracing_wake|].
      apply count_insert_same. by rewrite Hi. }
    destruct all; rewrite ?notify_all_count by apply tracing_wake; congruence.
  - rewrite Hg, count_insert, (count_split _ i (threads s)), Hi. cbn. lia.
  - rewrite Hg. do 2 f_equal. symmetry.
    etransitivity; [eapply notify_one_count; eauto using tracing_wake|].
    apply count_insert_same. by rewrite Hi.
  - rewrite count_insert_same; [done|]. rewrite Hb. symmetry. by apply tracing_wake.
  - rewrite !count_insert_same; [done|by rewrite Hi|].
    rewrite lookup_insert_ne, Hi0 by congruence. done.
  - rewrite length_app. cbn. lia.
  - rewrite Hg, count_insert, (count_split _ i (threads s)), Hi. cbn. lia.
Qed.

Lemma role_wake p p' : wake p = Some p' -> role_of (Some p') = role_of (Some p).
Proof. destruct p as [| |[]| | | | | | | | | | | | | | | | | | |]; cbn; intros; by simplify_eq. Qed.

(** Updates that keep every role, and the queues that exist. *)
Lemma helpers_ok_same r r' q q' :
  (forall t, r' t = r t) -> (forall w, is_Some (q !! w) -> is_Some (q' !! w)) ->
  helpers_ok r q -> helpers_ok r' q'.
Proof.
  intros Hr Hq [H1 H2]. split.
  - intros n w. rewrite !Hr. intros [? ?]%H1. auto.
  - intros w n. rewrite !Hr. intros [? ?]%H2. auto.
Qed.

Lemma role_insert_same (ths : gmap nat pc) i p t :
  role_of (ths !! i) = role_of (Some p) -> role_of (<[i := p]> ths !! t) = role_of (ths !! t).
Proof. intros H. destruct (decide (t = i)) as [->|Hne]; by simplify_map_eq. Qed.

Lemma role_notify i p next c ths ths' t :
  ths !! i = Some p -> role_of (Some next) = role_of (Some p) ->
  notify_one wake c (<[i := next]> ths) = Some ths' -> role_of (ths' !! t) = role_of (ths !! t).
Proof.
  intros Hi Hp Hn. rewrite (notify_one_lookup role_of _ _ _ _ t role_wake Hn).
  apply role_insert_same. by rewrite Hi.
Qed.

(** The three changes of roles: a helper ends, its owner joins it, a helper starts. *)
Definition upd (r : nat -> role) (i : nat) (x : role) (t : nat) : role := if decide (t = i) then x else r t.

Lemma role_insert (ths : gmap nat pc) i p t :
  role_of (<[i := p]> ths !! t) = upd (fun t => role_of (ths !! t)) i (role_of (Some p)) t.
Proof. unfold upd. case_decide as H; [rewrite H|]; by simplify_map_eq. Qed.

Lemma helpers_ok_ended r q n w l :
  r n = Helper_of w -> helpers_ok r q -> helpers_ok (upd r n Helped) (<[w := l]> q).
Proof.
  intros Hn [H1 H2]. destruct (H1 _ _ Hn) as [Hw Hq]. split; unfold upd.
  - intros m v Hm. case_decide; [done|]. destruct (H1 _ _ Hm) as [Hv ?].
    case_decide; [congruence|]. split; [done|]. by rewrite lookup_insert_is_Some'; auto.
  - intros v m Hv. case_decide; [done|]. destruct (H2 _ _ Hv) as [? ?].
    rewrite lookup_insert_is_Some'. case_decide; auto.
Qed.

Lemma helpers_ok_joined r q n w :
  r w = Has_helper n -> r n = Helped -> helpers_ok r q -> helpers_ok (upd r w No_role) (delete w q).
Proof.
  intros Hw Hn [H1 H2]. split; unfold upd.
  - intros m v Hm. case_decide; [done|]. destruct (H1 _ _ Hm) as [Hv ?].
    assert (v <> w) by congruence. rewrite lookup_delete_ne by done. by case_decide.
  - intros v m Hv. case_decide; [done|]. destruct (H2 _ _ Hv) as [Hm ?].
    rewrite lookup_delete_ne by done. split; [|done]. case_decide; [|done]. subst. intuition congruence.
Qed.

Lemma helpers_ok_started r q n w :
  r w = No_role -> r n = No_role -> n <> w -> helpers_ok r q ->
  helpers_ok (upd (upd r w (Has_helper n)) n (Helper_of w)) (<[w := []]> q).
Proof.
  intros Hw Hn Hne [H1 H2]. split; unfold upd.
  - intros m v Hm. rewrite lookup_insert_is_Some'. destruct (decide (m = n)) as [->|].
    + injection Hm as <-. rewrite decide_False, decide_True by done. auto.
    + case_decide; [done|]. destruct (H1 _ _ Hm) as [Hv ?].
      rewrite !decide_False by congruence. auto.
  - intros v m Hv. rewrite lookup_insert_is_Some'. case_decide; [done|].
    destruct (decide (v = w)) as [->|].
    + injection Hv as <-. rewrite decide_True by done. auto.
    + destruct (H2 _ _ Hv) as [Hm ?]. rewrite !decide_False by (intros ->; intuition congruence). auto.
Qed.

Lemma exec_helpers_ok b a s s' :
  dangling s = false -> helpers_ok (roles s) (qqs s) -> agent_exec b a s = Some s' ->
  dangling s' = false /\ helpers_ok (roles s') (qqs s').
Proof.
  unfold roles. intros Hd Hok Hs. agent_cases Hs; cbn in *; (split; [try done|try done]);
    try (eapply helpers_ok_same; [|done|exact Hok]; intros t; cbn;
         apply role_insert_same; rewrite ?Hi; repeat (case_match; simplify_eq/=); done).
  - apply entry_inv in Hcall as (_ & _ & H1 & H2 & _).
    eapply helpers_ok_same; [|done|exact Hok]. intros t. apply role_insert_same.
    etransitivity; [exact H1|symmetry; exact H2].
  - eapply helpers_ok_same; [|done|exact Hok]. intros t. cbn.
    transitivity (role_of (q !! t)); [|by eapply role_notify; [exact Hi| |exact Hb]].
    destruct all; [by apply (notify_all_lookup role_of), role_wake|done].
  - eapply (helpers_ok_same _ _ (qqs s)); [|intros w; rewrite lookup_insert_is_Some'; auto|exact Hok].
    intros t. apply role_insert_same. by rewrite Hi.
  - eapply helpers_ok_same; [intros t; apply role_insert|done|].
    eapply helpers_ok_joined; [by rewrite Hi|by rewrite Hi0|exact Hok].
  - eapply helpers_ok_same; [intros t|done|exact Hok].
    by eapply role_notify; [exact Hi| |exact Hb].
  - eapply helpers_ok_same; [intros t; apply role_insert|done|].
    eapply helpers_ok_ended; [by rewrite Hi|exact Hok].
  - destruct Hok as [H1 _]. destruct (H1 i owner) as [_ [? ?]]; [by rewrite Hi|congruence].
  - destruct Hok as [H1 _]. destruct (H1 i owner) as [_ [? ?]]; [by rewrite Hi|congruence].
  - eapply helpers_ok_same; [intros t|done|exact Hok]. apply role_insert_same.
    rewrite Hb. symmetry. by apply role_wake.
  - assert (n <> i) by congruence.
    eapply helpers_ok_same; [intros t|done|].
    { rewrite role_insert. unfold upd at 1. rewrite role_insert. reflexivity. }
    by apply helpers_ok_started; rewrite ?Hi, ?Hi0.
Qed.

(** A step that moves one thread, and neither takes [stop_] back nor forgets a stack trace. *)
Lemma exits_ok_insert (s s' : sys) i p :
  (stop_ s = true -> stop_ s' = true) -> (full_traces s <= full_traces s')%nat ->
  threads s' = <[i := p]> (threads s) -> may_exit s' (Some p) -> dumped s' (Some p) ->
  exits_ok s -> exits_ok s'.
Proof.
  intros Hs Hf Ht Hp1 Hp2 Hok t. rewrite Ht.
  destruct (decide (t = i)) as [->|Hne]; [by rewrite lookup_insert_eq|].
  rewrite lookup_insert_ne by done. destruct (Hok t) as [H1 H2]. unfold may_exit, dumped in *.
  destruct (threads s !! t) as [[]|]; split; try done; [auto|lia|lia|intuition lia].
Qed.

Lemma exits_ok_same (s s' : sys) :
  (stop_ s = true -> stop_ s' = true) -> full_traces s' = full_traces s -> threads s' = threads s ->
  exits_ok s -> exits_ok s'.
Proof.
  intros Hs Hf Ht Hok t. rewrite Ht. destruct (Hok t) as [H1 H2]. unfold may_exit, dumped in *. rewrite Hf.
  split; [|done]. destruct (threads s !! t) as [[]|]; intuition.
Qed.

Lemma exits_ok_notify (s s' : sys) i p c ths :
  stop_ s' = stop_ s -> full_traces s' = full_traces s ->
  notify_one wake c (<[i := p]> (threads s)) = Some ths ->
  (threads s' = ths \/ threads s' = notify_all wake ths) ->
  may_exit s (Some p) -> dumped s (Some p) -> exits_ok s -> exits_ok s'.
Proof.
  intros Hs Hf Hn Ht Hp1 Hp2 Hok.
  pose proof (exits_ok_insert s (goto i p s) i p id (le_n _) eq_refl Hp1 Hp2 Hok) as Hok'.
  assert (Hw1 : forall p p', wake p = Some p' -> may_exit s (Some p') = may_exit s (Some p))
    by (intros [| |[]| | | | | | | | | | | | | | | | | | |]; cbn; intros; by simplify_eq).
  assert (Hw2 : forall p p', wake p = Some p' -> dumped s (Some p') = dumped s (Some p))
    by (intros [| |[]| | | | | | | | | | | | | | | | | | |]; cbn; intros; by simplify_eq).
  intros t. destruct (Hok' t) as [H1 H2]. cbn in H1, H2.
  assert (E : forall x, may_exit s' x = may_exit s x /\ dumped s' x = dumped s x)
    by (unfold may_exit, dumped; by rewrite Hs, Hf).
  rewrite !(proj1 (E _)), !(proj2 (E _)).
  destruct Ht as [-> | ->].
  - rewrite (notify_one_lookup (may_exit s) _ _ _ _ t Hw1 Hn), (notify_one_lookup (dumped s) _ _ _ _ t Hw2 Hn).
    done.
  - rewrite (notify_all_lookup (may_exit s) _ _ t Hw1), (notify_all_lookup (dumped s) _ _ t Hw2).
    rewrite (notify_one_lookup (may_exit s) _ _ _ _ t Hw1 Hn), (notify_one_lookup (dumped s) _ _ _ _ t Hw2 Hn).
    done.
Qed.

Lemma exec_exits_ok b a s s' : exits_ok s -> agent_exec b a s = Some s' -> exits_ok s'.
Proof.
  intros Hok Hs. agent_cases Hs.
  all: try (apply (exits_ok_same s); [by cbn|reflexivity|reflexivity|exact Hok]).
  all: try (eapply (exits_ok_insert s); [by cbn|cbn; lia|reflexivity| | |exact Hok];
    cbn; try lia; repeat case_match; done).
  - apply andb_true_iff in Hcall as [_ He].
    eapply (exits_ok_insert s); [by cbn|cbn; lia|reflexivity|by destruct p; cbn|by destruct p; cbn|exact Hok].
  - eapply (exits_ok_notify s); [done|done|exact Hb|destruct all; auto|done|done|exact Hok].
  - eapply (exits_ok_insert s); [by cbn|cbn; lia|reflexivity| | |exact Hok]; cbn;
      destruct (stop_ s) eqn:Hstop; cbn; auto.
  - eapply (exits_ok_insert s); [by cbn|cbn; lia|reflexivity|done| |exact Hok].
    destruct (Hok i) as [_ Hd]. by rewrite Hi in Hd.
  - eapply (exits_ok_insert s); [by cbn|cbn; lia|reflexivity| |done|exact Hok].
    destruct (Hok i) as [_ Hd]. rewrite Hi in Hd. by right.
  - eapply (exits_ok_notify s); [done|done|exact Hb|by left|done|done|exact Hok].
  - eapply (exits_ok_insert s); [by cbn|cbn; lia|reflexivity| | |exact Hok];
      destruct q as [| |[]| | | | | | | | | | | | | | | | | | |]; cbn in Hb0; by simplify_eq/=.
  - eapply (exits_ok_insert (goto i (S_trace n) s)); [by cbn|cbn; lia|reflexivity|done|done|].
    by eapply (exits_ok_insert s); [by cbn|cbn; lia|reflexivity|done|done|exact Hok].
Qed.

(** ** Properties *)

Lemma wf_reachable b s : @reachable _ _ (agent_machine b) s -> wf s.
Proof.
  apply (@reachable_invariant _ _ (agent_machine b) wf).
  - intros ? ->. split; [done|]. split; [split; intros ? ? H; by cbn in H|].
    intros i. by split.
  - intros a s1 s2 (Hd & Hh & He) Hs.
    destruct (exec_helpers_ok _ _ _ _ Hd Hh Hs). split; [done|]. split; [done|].
    eapply exec_exits_ok; [exact He|exact Hs].
Qed.

(** In programs that never call [notify(true)], no thread is about to. *)
Definition broadcasting (p : option pc) : bool :=
  match p with Some (Notify_lock true) => true | _ => false end.

Definition mutex_free (s : sys) : Prop :=
  c_mutex_ s = None /\ forall i, broadcasting (threads s !! i) = false.

Lemma broadcasting_wake p p' : wake p = Some p' -> broadcasting (Some p') = broadcasting (Some p).
Proof. destruct p as [| |[]| | | | | | | | | | | | | | | | | | |]; cbn; intros; by simplify_eq. Qed.

Lemma broadcasting_insert (ths : gmap nat pc) i p t :
  broadcasting (Some p) = false -> broadcasting (ths !! t) = false ->
  broadcasting (<[i := p]> ths !! t) = false.
Proof. intros Hp Ht. destruct (decide (t = i)) as [->|Hne]; by simplify_map_eq. Qed.

Lemma exec_mutex_free a s s' : mutex_free s -> agent_exec false a s = Some s' -> mutex_free s'.
Proof.
  intros [Hm Hb0] Hs. assert (Hn : forall i p c ths t, broadcasting (Some p) = false ->
    notify_one wake c (<[i := p]> (threads s)) = Some ths -> broadcasting (ths !! t) = false).
  { intros i p c ths t Hp E. rewrite (notify_one_lookup broadcasting _ _ _ _ t broadcasting_wake E).
    by apply broadcasting_insert. }
  agent_cases Hs; (split; [try exact Hm; try done|intros t; cbn; try exact (Hb0 t)]);
    try (apply broadcasting_insert; [repeat case_match; done|exact (Hb0 t)]).
  - apply andb_true_iff in Hcall as [_ He]. apply broadcasting_insert; [|exact (Hb0 t)].
    by destruct p as [| | | |[]| | | | | | | | | | | | | | | | |].
  - specialize (Hb0 i). rewrite Hi in Hb0. by destruct all.
  - specialize (Hb0 i). rewrite Hi in Hb0. destruct all; [done|]. by eapply Hn; [|exact Hb].
  - by eapply Hn; [|exact Hb].
  - apply broadcasting_insert; [|exact (Hb0 t)]. rewrite (broadcasting_wake _ _ Hb1). rewrite <- Hb. apply Hb0.
  - apply broadcasting_insert; [done|]. by apply broadcasting_insert.
Qed.

Lemma mutex_free_reachable s : @reachable _ _ (agent_machine false) s -> mutex_free s.
Proof.
  apply (@reachable_invariant _ _ (agent_machine false)).
  - intros ? ->. by split.
  - intros a s1 s2. apply exec_mutex_free.
Qed.

(** With the mutex free a notification is possible: some choice of the thread to wake is. *)
Lemma notify_possible i all next s :
  c_mutex_ s = None -> exists c s', notify i all next c s = Some s'.
Proof.
  intros Hm. unfold notify. rewrite Hm.
  destruct (notify_one_total wake (<[i := next]> (threads s))) as (c & ths & E).
  exists c. rewrite E. eauto.
Qed.

Lemma run_moves b s i c s' :
  dead s = false -> run_thread i c s = Some s' -> can_move b s i.
Proof. intros Hd Hr. exists (Run i c), s'. split; [done|]. unfold agent_exec. by rewrite Hd. Qed.

Lemma timeout_moves b s i s' :
  dead s = false -> timeout_thread i s = Some s' -> can_move b s i.
Proof. intros Hd Hr. exists (Timeout i), s'. split; [done|]. unfold agent_exec. by rewrite Hd. Qed.

(** A helper that has not ended can move: it notifies, or its [try_pop] answers. *)
Lemma helper_moves b s n w :
  wf s -> c_mutex_ s = None -> dead s = false ->
  threads s !! n = Some (N_lock w) \/ threads s !! n = Some (N_pop w) -> can_move b s n.
Proof.
  intros (_ & [Hh _] & _) Hm Hd [Hn|Hn].
  - destruct (notify_possible n false (N_pop w) s Hm) as (c & s' & E).
    apply (run_moves b s n c s'); [done|]. unfold run_thread. by rewrite Hn.
  - destruct (Hh n w) as [_ [q Hq]]; [unfold roles; by rewrite Hn|].
    eapply timeout_moves; [done|]. unfold timeout_thread. by rewrite Hn, Hq.
Qed.

(** The helper of an owner is at work for it, or has ended. *)
Lemma helper_of s i n :
  wf s -> roles s i = Has_helper n ->
  (threads s !! n = Some (N_lock i) \/ threads s !! n = Some (N_pop i)) \/ threads s !! n = Some N_ret.
Proof.
  intros (_ & [_ Hh] & _) Hi. destruct (Hh _ _ Hi) as [Hn _]. revert Hn. unfold roles.
  destruct (threads s !! n) as [[]|]; cbn; intros [[=]|[=]]; subst; auto.
Qed.

Lemma needs_mutex_wake p p' : wake p = Some p' -> needs_mutex (Some p') = needs_mutex (Some p).
Proof. destruct p as [| |[]| | | | | | | | | | | | | | | | | | |]; cbn; intros; by simplify_eq. Qed.

(** While the mutex is locked nobody unlocks it, and nobody that needs it goes on. *)
Lemma exec_wedged b a s s' j t :
  c_mutex_ s = Some j -> needs_mutex (threads s !! t) = true -> agent_exec b a s = Some s' ->
  c_mutex_ s' = Some j /\ needs_mutex (threads s' !! t) = true.
Proof.
  intros Hm Ht Hs.
  assert (Hins : forall i p, needs_mutex (threads s !! i) = false -> needs_mutex (<[i := p]> (threads s) !! t) = true)
    by (intros i p Hi; rewrite lookup_insert_ne; [done|intros ->; congruence]).
  agent_cases Hs; try (rewrite Hm in *; discriminate); (split; [try exact Hm|cbn; try exact Ht]);
    try (apply Hins; by rewrite Hi).
  - apply andb_true_iff in Hcall as [Hc _]. apply Hins. by destruct (threads s !! i) as [[]|].
  - destruct (decide (t = i)) as [->|]; [|by rewrite lookup_insert_ne].
    rewrite lookup_insert_eq, (needs_mutex_wake _ _ Hb0), <- Hb. done.
  - assert (n <> t) by (intros ->; by rewrite Hi0 in Ht). rewrite lookup_insert_ne by done.
    apply Hins. by rewrite Hi.
Qed.

Lemma exec_locked b a s s' j : c_mutex_ s = Some j -> agent_exec b a s = Some s' -> c_mutex_ s' = Some j.
Proof. intros Hm Hs. agent_cases Hs; try (rewrite Hm in *; discriminate); exact Hm. Qed.

(** While all are silent nobody is notified. *)
Lemma silent_insert (ths : gmap nat pc) i p :
  silent (Some p) = true -> (forall t, silent (ths !! t) = true) -> forall t, silent (<[i := p]> ths !! t) = true.
Proof. intros Hp Ht t. destruct (decide (t = i)) as [->|Hne]; by simplify_map_eq. Qed.

Lemma exec_silent b a s s' t :
  (forall u, silent (threads s !! u) = true) -> silent_action a = true -> agent_exec b a s = Some s' ->
  threads s !! t = Some (Pend_wait false) ->
  (forall u, silent (threads s' !! u) = true) /\ threads s' !! t = Some (Pend_wait false).
Proof.
  intros Hq Ha Hs Ht.
  assert (Hins : forall i p, threads s !! i <> Some (Pend_wait false) ->
    <[i := p]> (threads s) !! t = Some (Pend_wait false))
    by (intros i p Hi; rewrite lookup_insert_ne; [done|intros ->; congruence]).
  agent_cases Hs; try done; try (specialize (Hq i); rewrite Hi in Hq; discriminate).
  all: cbn; split; [try exact Hq|try exact Ht; try (apply Hins; rewrite Hi; congruence)].
  all: try (apply silent_insert; [repeat case_match; done|exact Hq]).
  apply andb_true_iff in Hcall as [Hc _]. apply Hins. intros E. by rewrite E in Hc.
Qed.


(** The JVM answers unless a thread it has to stop is inside [pending]. *)
Lemma answerable_or s :
  answerable s = true
  \/ exists u q, threads s !! u = Some q /\ safepoint_needs u = true /\ in_pending q = true.
Proof.
  unfold answerable. case_bool_decide as H; [by left|right].
  apply map_not_Forall in H as (u & q & Hu & Hq); [|apply _].
  apply not_false_is_true, andb_true_iff in Hq as [? ?]. eauto.
Qed.

(** A thread inside [pending] moves by itself, unless it sleeps. *)
Lemma pending_moves b s u q :
  dead s = false -> c_mutex_ s = None -> threads s !! u = Some q -> in_pending q = true ->
  can_move b s u \/ q = Pend_wait false.
Proof.
  intros Hd Hm Hu Hq.
  assert (Hrun : forall s', run_thread u None s = Some s' -> can_move b s u) by (intros; by eapply run_moves).
  unfold run_thread in Hrun. rewrite Hu in Hrun. unfold pending_wait, pending_finish in Hrun. rewrite Hm in Hrun.
  destruct q as [| |[]| | | | | | | | | | | | | | | | | | |]; try done; eauto.
Qed.

(** C18. What a thread of the agent can wait for, in programs that never call [notify(true)]: whatever the schedule, as
    long as the process lives, a thread inside a call can move by itself, except
    - one that sleeps in [pending];
    - a [safepoint_worker] that joins its helper, and that helper can move;
    - one inside [stack_trace]: the JVM can answer it, unless a thread that the JVM has to stop is inside [pending],
      and that one can move by itself or sleeps there. *)
Theorem no_thread_stuck (s : sys) (i : nat) (p : pc) :
  @reachable _ _ (agent_machine false) s -> dead s = false -> threads s !! i = Some p ->
  returned (Some p) = false -> p <> N_ret -> ~ blocked wake p ->
  can_move false s i
  \/ (exists n, p = S_join n /\ can_move false s n)
  \/ ((p = W_trace \/ exists n, p = S_trace n)
      /\ ((exists s', agent_exec false (Answer i) s = Some s')
          \/ exists u q, threads s !! u = Some q /\ safepoint_needs u = true /\ in_pending q = true
               /\ (can_move false s u \/ q = Pend_wait false))).
Proof.
  intros Hr Hd Hi Hp Hne Hb.
  pose proof (wf_reachable _ _ Hr) as Hwf. destruct (mutex_free_reachable _ Hr) as [Hm _].
  assert (Hrun : forall c s', run_thread i c s = Some s' -> can_move false s i)
    by (intros; by eapply run_moves).
  assert (Htr : (p = W_trace \/ exists n, p = S_trace n) ->
    (exists s', agent_exec false (Answer i) s = Some s')
    \/ exists u q, threads s !! u = Some q /\ safepoint_needs u = true /\ in_pending q = true
         /\ (can_move false s u \/ q = Pend_wait false)).
  { intros Htr. destruct (answerable_or s) as [Ha|(u & q & Hu & Hs & Hq)].
    - left. unfold agent_exec, answer. rewrite Hd, Ha, Hi. destruct Htr as [->|[n ->]]; eauto.
    - right. exists u, q. eauto using pending_moves. }
  unfold run_thread in Hrun. rewrite Hi in Hrun.
  unfold pending_wait, pending_finish in Hrun. rewrite Hm in Hrun.
  destruct p as [| |[]| | | | | | | | | | | | |n|n|n| | | |]; try done;
    try (left; by eapply (Hrun None)); try (right; right; split; [by eauto|apply Htr; by eauto]).
  - destruct (notify_possible i all Notify_ret s Hm) as (c & s' & E). left. by eapply Hrun.
  - left. eapply timeout_moves; [done|]. unfold timeout_thread. by rewrite Hi.
  - left. eapply timeout_moves; [done|]. unfold timeout_thread. by rewrite Hi.
  - left. eexists (Spawn i (fresh (dom (threads s)))), _. split; [done|].
    unfold agent_exec, safepoint_spawn. rewrite Hd, Hi.
    by rewrite (proj1 (not_elem_of_dom _ _) (is_fresh (dom (threads s)))).
  - destruct (helper_of s i n Hwf) as [Hn|Hn]; [unfold roles; by rewrite Hi| |].
    + right. left. exists n. split; [done|]. by eapply helper_moves.
    + left. eapply (Hrun None). unfold safepoint_join. by rewrite Hn.
  - left. by eapply helper_moves; [..|left].
  - left. by eapply helper_moves; [..|right].
Qed.

(** ** Lemmas: a dump ends *)

(** The actions of a dump: those of its owner [i] and of its helper [n], those of the threads that are inside
    [pending] in [s0] and go on with it, and the answer of the JVM. *)
Definition helps (i n : nat) (s0 : sys) (a : action) : Prop :=
  acts_of a = Some i \/ acts_of a = Some n \/ a = Answer i
  \/ exists u c q, a = Run u c /\ threads s0 !! u = Some q /\ in_pending q = true.

(** Such a schedule ends the dump. *)
Definition can_finish (i n : nat) (s0 s : sys) : Prop :=
  exists acts s', Forall (helps i n s0) acts
    /\ @run _ _ (agent_machine false) acts s = Some s' /\ threads s' !! i = Some S_ret /\ qqs s' !! i = None.

Lemma can_finish_step i n j c s0 s s1 :
  j = i \/ j = n -> dead s = false -> run_thread j c s = Some s1 -> can_finish i n s0 s1 -> can_finish i n s0 s.
Proof.
  intros Hj Hd Hs (acts & s' & Ha & Hr & H). exists (Run j c :: acts), s'.
  split; [constructor; [unfold helps; destruct Hj as [-> | ->]; auto|done]|]. split; [|done].
  simpl. unfold agent_exec. rewrite Hd, Hs. exact Hr.
Qed.

Section dump.
Context (i n : nat) (Hne : n <> i) (s0 : sys).

Lemma finish_join s :
  dead s = false -> threads s !! i = Some (S_join n) -> threads s !! n = Some N_ret -> can_finish i n s0 s.
Proof using Hne.
  intros Hd Hi Hn. eapply (can_finish_step i n i None s0); [by left|done| |].
  - unfold run_thread, safepoint_join. by rewrite Hi, Hn.
  - exists [], (goto i S_ret (with_qqs (delete i (qqs s)) s)). split; [done|]. split; [done|]. cbn.
    by rewrite lookup_insert_eq, lookup_delete_eq.
Qed.

Lemma finish_pop s v l :
  dead s = false -> threads s !! i = Some (S_join n) -> qqs s !! i = Some (v :: l) ->
  threads s !! n = Some (N_pop i) -> can_finish i n s0 s.
Proof using Hne.
  intros Hd Hi Hq Hn. eapply (can_finish_step i n n None s0); [by right|done| |].
  - unfold run_thread, notifier_pop. by rewrite Hn, Hq.
  - apply finish_join; [done|by cbn; rewrite lookup_insert_ne|cbn; by rewrite lookup_insert_eq].
Qed.

Lemma finish_notify s v l :
  dead s = false -> c_mutex_ s = None -> threads s !! i = Some (S_join n) -> qqs s !! i = Some (v :: l) ->
  threads s !! n = Some (N_lock i) -> can_finish i n s0 s.
Proof using Hne.
  intros Hd Hm Hi Hq Hn. destruct (notify_one_total wake (<[n := N_pop i]> (threads s))) as (c & ths & E).
  eapply (can_finish_step i n n c s0); [by right|done| |].
  - unfold run_thread, notify. by rewrite Hn, Hm, E.
  - apply (finish_pop _ v l); [done| |done|]; cbn; (eapply notify_one_keeps; [exact E| |done]).
    + by rewrite lookup_insert_ne.
    + by rewrite lookup_insert_eq.
Qed.

Lemma finish_push s :
  dead s = false -> c_mutex_ s = None -> threads s !! i = Some (S_push n) ->
  (threads s !! n = Some (N_lock i) \/ threads s !! n = Some (N_pop i)) \/ threads s !! n = Some N_ret ->
  can_finish i n s0 s.
Proof using Hne.
  intros Hd Hm Hi Hn. eapply (can_finish_step i n i None s0); [by left|done| |].
  - unfold run_thread. by rewrite Hi.
  - assert (exists v l, default [] (qqs s !! i) ++ [1] = v :: l) as (v & l & Hq)
      by (destruct (default [] (qqs s !! i)); cbn; eauto).
    destruct Hn as [[Hn|Hn]|Hn];
      [apply (finish_notify _ v l)|apply (finish_pop _ v l)|apply finish_join]; try done; cbn;
      rewrite ?lookup_insert_eq, ?lookup_insert_ne by done; by rewrite ?Hq.
Qed.

End dump.

(** *** While the dump is traced, its helper is at work and its queue is empty *)

Definition stage (p : option pc) : option (option nat) :=
  match p with Some (S_trace n) => Some (Some n) | Some N_ret => Some None | _ => None end.

Definition quiet (st : nat -> option (option nat)) (q : gmap nat (list Z)) : Prop :=
  forall w m, st w = Some (Some m) -> q !! w = Some [] /\ st m <> Some None.

Definition stages (s : sys) (t : nat) : option (option nat) := stage (threads s !! t).

Lemma stage_wake p p' : wake p = Some p' -> stage (Some p') = stage (Some p).
Proof. destruct p as [| |[]| | | | | | | | | | | | | | | | | | |]; cbn; intros; by simplify_eq. Qed.

Lemma quiet_same st st' q q' :
  (forall t, st' t = st t) -> (forall w m, st w = Some (Some m) -> q' !! w = q !! w) -> quiet st q -> quiet st' q'.
Proof. intros Hst Hq H w m. rewrite !Hst. intros Hw. rewrite (Hq _ _ Hw). by apply H. Qed.

Lemma stage_insert_same (ths : gmap nat pc) u p t :
  stage (ths !! u) = stage (Some p) -> stage (<[u := p]> ths !! t) = stage (ths !! t).
Proof. intros H. destruct (decide (t = u)) as [->|Hn]; by simplify_map_eq. Qed.

Lemma stage_notify u p next c ths ths' t :
  ths !! u = Some p -> stage (Some next) = stage (Some p) ->
  notify_one wake c (<[u := next]> ths) = Some ths' -> stage (ths' !! t) = stage (ths !! t).
Proof.
  intros Hi Hp Hn. rewrite (notify_one_lookup stage _ _ _ _ t stage_wake Hn).
  apply stage_insert_same. by rewrite Hi.
Qed.

(** A thread that is at no stage any more. *)
Lemma quiet_leaves st q u p (ths : gmap nat pc) q' :
  (forall t, st t = stage (ths !! t)) -> stage (Some p) = None -> (forall w, w <> u -> q' !! w = q !! w) ->
  quiet st q -> quiet (fun t => stage (<[u := p]> ths !! t)) q'.
Proof.
  intros Hst Hp Hq H w m. destruct (decide (w = u)) as [->|Hw]; [rewrite lookup_insert_eq; congruence|].
  rewrite lookup_insert_ne, <- Hst, Hq by done. intros Hm. destruct (H _ _ Hm) as [? Hn]. split; [done|].
  destruct (decide (m = u)) as [->|]; [rewrite lookup_insert_eq; congruence|]. by rewrite lookup_insert_ne, <- Hst.
Qed.

Lemma exec_quiet b a s s' :
  wf s -> quiet (stages s) (qqs s) -> agent_exec b a s = Some s' -> quiet (stages s') (qqs s').
Proof.
  intros (_ & [Hh1 Hh2] & _) Hq Hs. agent_cases Hs.
  all: try exact Hq.
  all: try (eapply quiet_same; [|done|exact Hq]; intros t; unfold stages; cbn;
            apply stage_insert_same; rewrite ?Hi; repeat (case_match; simplify_eq/=); done).
  all: try (eapply (quiet_leaves _ (qqs s)); [done|repeat case_match; done| |exact Hq]; intros w Hw; cbn;
            by rewrite ?lookup_insert_ne, ?lookup_delete_ne).
  - eapply quiet_same; [|done|exact Hq]. intros t. apply andb_true_iff in Hcall as [H1 H2].
    apply stage_insert_same. by destruct (threads s !! i) as [[]|], p.
  - eapply quiet_same; [|done|exact Hq]. intros t. unfold stages. cbn.
    transitivity (stage (q !! t)); [|by eapply stage_notify; [exact Hi| |exact Hb]].
    destruct all; [by apply (notify_all_lookup stage), stage_wake|done].
  - eapply quiet_same; [|done|exact Hq]. intros t. by eapply stage_notify; [exact Hi| |exact Hb].
  - (* the helper ends: its owner has pushed *)
    assert (Hown : forall w m, stages s w = Some (Some m) -> w <> owner /\ m <> i).
    { intros w m Hw. destruct (Hq _ _ Hw) as [Hqw _]. assert (w <> owner) by (intros ->; congruence). split; [done|].
      intros ->. destruct (Hh2 w i) as [[Hr|Hr] _].
      - revert Hw. unfold stages, roles. by destruct (threads s !! w) as [[]|]; cbn; intros [=]; subst.
      - unfold roles in Hr. rewrite Hi in Hr. cbn in Hr. by injection Hr as <-.
      - unfold roles in Hr. by rewrite Hi in Hr. }
    intros w m. unfold stages. cbn. destruct (decide (w = i)) as [->|Hw]; [by rewrite lookup_insert_eq|].
    rewrite lookup_insert_ne by done. intros Hm. destruct (Hown _ _ Hm). rewrite !lookup_insert_ne by done. by apply Hq.
  - eapply quiet_same; [|done|exact Hq]. intros t. apply stage_insert_same. rewrite Hb. symmetry. by apply stage_wake.
  - intros w m. unfold stages. cbn. assert (n <> i) by congruence.
    destruct (decide (w = n)) as [->|Hwn]; [by rewrite lookup_insert_eq|]. rewrite lookup_insert_ne by done.
    destruct (decide (w = i)) as [->|Hwi].
    + rewrite lookup_insert_eq. cbn. intros [= <-]. rewrite !lookup_insert_eq. done.
    + rewrite !lookup_insert_ne by done. intros Hm. destruct (Hq _ _ Hm) as [? Hn]. split; [done|].
      destruct (decide (m = n)) as [->|]; [by rewrite lookup_insert_eq|]. rewrite lookup_insert_ne by done.
      destruct (decide (m = i)) as [->|]; [by rewrite lookup_insert_eq|]. by rewrite lookup_insert_ne.
Qed.

Lemma traced_helper s i n :
  @reachable _ _ (agent_machine false) s -> threads s !! i = Some (S_trace n) ->
  (threads s !! n = Some (N_lock i) \/ threads s !! n = Some (N_pop i)) /\ qqs s !! i = Some [] /\ n <> i.
Proof.
  intros Hr Hi. assert (Hq : wf s /\ quiet (stages s) (qqs s)).
  { revert Hr. apply (@reachable_invariant _ _ (agent_machine false) (fun s => wf s /\ quiet (stages s) (qqs s))).
    - intros s1 Hs1. split; [apply (wf_reachable false); exists s1, []; by split|]. cbn in Hs1. subst. by intros w m.
    - intros a s1 s2 [Hw Hq] Hs. split; [|exact (exec_quiet false a s1 s2 Hw Hq Hs)].
      destruct Hw as (Hd & Hh & He). destruct (exec_helpers_ok _ _ _ _ Hd Hh Hs). split; [done|]. split; [done|].
      eapply exec_exits_ok; [exact He|exact Hs]. }
  destruct Hq as [Hw Hq]. destruct (Hq i n) as [Hqi Hst]; [unfold stages; by rewrite Hi|].
  destruct (helper_of s i n Hw) as [Hn|Hn]; [unfold roles; by rewrite Hi| |].
  - split; [done|]. split; [done|]. intros ->. rewrite Hi in Hn. by destruct Hn.
  - destruct Hst. unfold stages. by rewrite Hn.
Qed.

(** *** The measure: what the threads inside [pending] have to do, and the helper for them *)

Definition weight (p : pc) : nat :=
  match p with
  | Pend_push _ => 5 | Pend_lock => 4 | Pend_wait false => 3 | Pend_wait true => 1
  | N_pop _ | S_trace _ => 1
  | _ => 0
  end.

Definition work (s : sys) : nat := map_fold (fun _ p acc => weight p + acc)%nat 0%nat (threads s).

Lemma work_update (ths : gmap nat pc) u p p' :
  ths !! u = Some p ->
  (map_fold (fun _ q acc => weight q + acc) 0 (<[u := p']> ths) + weight p
   = weight p' + map_fold (fun _ q acc => weight q + acc) 0 ths)%nat.
Proof.
  intros Hu. rewrite (map_fold_delete_L (fun _ q acc => weight q + acc)%nat 0%nat u p ths) by (done || (intros; lia)).
  rewrite <- (insert_delete_eq ths u), map_fold_insert_L; [lia|intros; lia|apply lookup_delete_eq].
Qed.

(** A dump being traced, in which no thread has entered [pending] since [s0]. *)
Definition in_dump (i n : nat) (s0 s : sys) : Prop :=
  @reachable _ _ (agent_machine false) s /\ dead s = false /\ threads s !! i = Some (S_trace n)
  /\ forall u q, threads s !! u = Some q -> in_pending q = true ->
       exists q0, threads s0 !! u = Some q0 /\ in_pending q0 = true.

(** The JVM has answered. *)
Definition answered (i n : nat) (s : sys) : Prop :=
  @reachable _ _ (agent_machine false) s /\ dead s = false /\ threads s !! i = Some (S_push n).

(** A step of a thread other than the owner, which does not enter [pending]. *)
Lemma in_dump_step i n s0 a u p p' s s' :
  in_dump i n s0 s -> agent_exec false a s = Some s' -> dead s' = dead s -> threads s' = <[u := p']> (threads s) ->
  threads s !! u = Some p -> u <> i -> (in_pending p' = true -> in_pending p = true) -> (weight p' < weight p)%nat ->
  in_dump i n s0 s' /\ (work s' < work s)%nat.
Proof.
  intros (Hr & Hd & Hi & Hp) Ha Hds Ht Hu Hne Hin Hw. split; [split; [|split_and!]|].
  - eapply (@reachable_step _ _ (agent_machine false)); [exact Hr|exact Ha].
  - congruence.
  - by rewrite Ht, lookup_insert_ne.
  - intros v q. rewrite Ht. intros [[<- <-]|[_ Hv]]%lookup_insert_Some Hq; eauto.
  - unfold work. rewrite Ht. pose proof (work_update _ _ _ p' Hu). lia.
Qed.

Lemma dump_progress i n s0 s :
  in_dump i n s0 s ->
  exists a s', agent_exec false a s = Some s' /\ helps i n s0 a
    /\ (answered i n s' \/ in_dump i n s0 s') /\ (work s' < work s)%nat.
Proof.
  intros Hs. pose proof Hs as (Hr & Hd & Hi & Hp). destruct (mutex_free_reachable _ Hr) as [Hm _].
  destruct (traced_helper s i n Hr Hi) as (Hn & Hq & Hne).
  destruct (answerable_or s) as [Ha|(u & q & Hu & _ & Hin)].
  { assert (E : agent_exec false (Answer i) s = Some (safepoint_trace i n s)).
    { unfold agent_exec, answer. by rewrite Hd, Ha, Hi. }
    exists (Answer i), (safepoint_trace i n s). split; [done|]. split; [unfold helps; auto|]. split.
    - left. split; [eapply (@reachable_step _ _ (agent_machine false)); [exact Hr|exact E]|]. split; [done|].
      cbn. by rewrite lookup_insert_eq.
    - unfold work. cbn. pose proof (work_update _ _ _ (S_push n) Hi) as Hw. cbn in Hw. lia. }
  assert (Hui : u <> i) by (intros ->; rewrite Hi in Hu; by injection Hu as <-).
  destruct (Hp u q Hu Hin) as (q0 & Hu0 & Hq0).
  assert (Hhelp : forall c, helps i n s0 (Run u c)) by (intros c; unfold helps; eauto 10).
  assert (Hself : forall s' p', run_thread u None s = Some s' -> dead s' = dead s -> threads s' = <[u := p']> (threads s) ->
    (weight p' < weight q)%nat -> exists a s', agent_exec false a s = Some s' /\ helps i n s0 a
      /\ (answered i n s' \/ in_dump i n s0 s') /\ (work s' < work s)%nat).
  { intros s' p' Hrun Hds Ht Hw. assert (E : agent_exec false (Run u None) s = Some s') by (unfold agent_exec; by rewrite Hd).
    destruct (in_dump_step i n s0 _ u q p' s s' Hs E Hds Ht Hu Hui (fun _ => Hin) Hw). exists (Run u None), s'. auto. }
  unfold run_thread in Hself. rewrite Hu in Hself. unfold pending_wait, pending_finish, pending in Hself. rewrite Hm in Hself.
  destruct q as [tm| |[]| | | | | | | | | | | | | | | | | | |]; try done.
  - eapply Hself; [done|done|done|]. case_match; cbn; lia.
  - eapply Hself; [done|done|done|]. cbn; lia.
  - eapply Hself; [done|done|done|]. cbn; lia.
  - destruct Hn as [Hn|Hn].
    + assert (Hnu : u <> n) by (intros ->; congruence).
      assert (E : agent_exec false (Run n (Some u)) s
        = Some (with_mutex None (with_threads (<[u := Pend_wait true]> (<[n := N_pop i]> (threads s))) s))).
      { unfold agent_exec, run_thread, notify. rewrite Hd, Hn, Hm. unfold notify_one.
        by rewrite lookup_insert_ne, Hu by done. }
      eexists (Run n (Some u)), _. split; [exact E|]. split; [unfold helps; auto|]. split.
      * right. split; [eapply (@reachable_step _ _ (agent_machine false)); [exact Hr|exact E]|]. split; [done|]. cbn. split.
        -- by rewrite !lookup_insert_ne.
        -- intros v q'. intros [[<- <-]|[_ [[<- <-]|[_ Hv]]%lookup_insert_Some]]%lookup_insert_Some Hq'; [eauto|done|eauto].
      * unfold work. cbn. pose proof (work_update (threads s) n _ (N_pop i) Hn) as W1.
        pose proof (work_update (<[n := N_pop i]> (threads s)) u (Pend_wait false) (Pend_wait true)) as W2.
        rewrite lookup_insert_ne in W2 by done. specialize (W2 Hu). cbn in W1, W2. lia.
    + assert (E : agent_exec false (Timeout n) s = Some (goto n (N_lock i) s)).
      { unfold agent_exec, timeout_thread. by rewrite Hd, Hn, Hq. }
      destruct (in_dump_step i n s0 _ n _ (N_lock i) s _ Hs E eq_refl eq_refl Hn Hne) as [H1 H2]; [done|cbn; lia|].
      exists (Timeout n), (goto n (N_lock i) s). split; [done|]. split; [unfold helps; auto|]. auto.
Qed.

(** C20. A dump can be finished, in programs that never call [notify(true)]: whenever [stack_trace(true)] is running in a
    [safepoint_worker], and whatever the other threads of the process do meanwhile, there is a schedule of that
    worker, of its helper, of the threads that are inside [pending] and of the JVM, in which the helper wakes those that
    sleep there, they leave [pending], the JVM answers, and the worker comes to the end of its function with the queue
    [qq] gone. *)
Theorem dump_can_finish (s : sys) (i n : nat) :
  @reachable _ _ (agent_machine false) s -> dead s = false -> threads s !! i = Some (S_trace n) ->
  can_finish i n s s.
Proof.
  intros Hr Hd Hi.
  destruct (@can_reach_by _ _ (agent_machine false) (in_dump i n s) (answered i n) (helps i n s) work) with (s := s)
    as (acts & s1 & Hrun & (Hr1 & Hd1 & Hi1) & Hacts & _).
  - intros s1. apply dump_progress.
  - split_and!; eauto.
  - pose proof (wf_reachable _ _ Hr1) as Hwf. destruct (mutex_free_reachable _ Hr1) as [Hm _].
    assert (Hn := helper_of s1 i n Hwf ltac:(unfold roles; by rewrite Hi1)).
    assert (Hne : n <> i) by (intros ->; rewrite Hi1 in Hn; intuition congruence).
    destruct (finish_push i n Hne s s1 Hd1 Hm Hi1 Hn) as (acts' & s' & Ha & Hr' & H).
    exists (acts ++ acts'), s'. split; [by apply Forall_app|]. split; [|done].
    rewrite (@run_app _ _ (agent_machine false)), Hrun. exact Hr'.
Qed.

(** C19. The queue of a dump outlives its helper: in every reachable state no thread has used a queue that was gone,
    and a helper at work has an owner that is still before or at its [join], with the queue in its frame. *)
Theorem helper_queue_alive (b : bool) (s : sys) :
  @reachable _ _ (agent_machine b) s ->
  dangling s = false
  /\ forall n w, threads s !! n = Some (N_lock w) \/ threads s !! n = Some (N_pop w) ->
       is_Some (qqs s !! w)
       /\ (threads s !! w = Some (S_trace n) \/ threads s !! w = Some (S_push n)
           \/ threads s !! w = Some (S_join n)).
Proof.
  intros (Hd & [Hh _] & _)%wf_reachable. split; [done|]. intros n w Hn.
  assert (Hr : roles s n = Helper_of w) by (unfold roles; by destruct Hn as [-> | ->]).
  destruct (Hh _ _ Hr) as [Hw Hq]. split; [done|]. revert Hw. unfold roles.
  destruct (threads s !! w) as [[]|]; cbn; intros [=]; subst; auto.
Qed.

(** C21. One stack trace per garbage collection: in every reachable state, whatever the schedule, the collections that
    started are those already traced, those being traced and those waiting in [_queue]. *)
Theorem gc_traced_once (b : bool) (s : sys) :
  @reachable _ _ (agent_machine b) s ->
  gc_events s = (gc_traces s + count tracing (threads s) + length (gc_queue s))%nat.
Proof.
  apply (@reachable_invariant _ _ (agent_machine b) gc_accounted).
  - by intros ? ->.
  - intros a s1 s2. apply exec_gc_accounted.
Qed.

(** The [worker] ends only once the agent is unloaded; a [safepoint_worker] ends only then or after a dump, and once the
    agent is unloaded a thread that waits on an empty queue ends after one more timeout. *)
Theorem agent_threads_end (b : bool) (s : sys) (i : nat) :
  @reachable _ _ (agent_machine b) s ->
  (threads s !! i = Some W_ret -> stop_ s = true)
  /\ (threads s !! i = Some S_ret -> stop_ s = true \/ (0 < full_traces s)%nat)
  /\ (stop_ s = true -> dead s = false -> threads s !! i = Some W_pop \/ threads s !! i = Some S_pop ->
      exists s', @run _ _ (agent_machine b) [Timeout i; Run i None] s = Some s'
                 /\ (threads s' !! i = Some W_ret \/ threads s' !! i = Some S_ret)).
Proof.
  intros (_ & _ & He)%wf_reachable. destruct (He i) as [H1 _]. unfold may_exit in H1.
  split; [by intros Hi; rewrite Hi in H1|]. split; [by intros Hi; rewrite Hi in H1|].
  intros Hs Hd Hi. simpl. unfold agent_exec, timeout_thread. rewrite Hd.
  destruct Hi as [Hi|Hi]; rewrite Hi; cbn [dead goto with_threads]; rewrite Hd;
    unfold run_thread; cbn [threads goto with_threads]; rewrite lookup_insert_eq;
    eexists; (split; [reflexivity|]); unfold worker_check, safepoint_check; cbn; rewrite Hs, lookup_insert_eq; auto.
Qed.

(** C30. [notify(true)] wedges [mem_fuller]: it returns with [c_mutex_] locked, and in every later state, whatever happens,
    the mutex is still locked, and every thread that is in [pending] or about to notify is still there, those
    the broadcast woke included. *)
Theorem notify_all_wedges (b : bool) (s s1 s' : sys) (j t : nat) (c : option nat) (acts : list action) :
  threads s !! j = Some (Notify_lock true) -> agent_exec b (Run j c) s = Some s1 ->
  @run _ _ (agent_machine b) acts s1 = Some s' ->
  c_mutex_ s' = Some j /\ (needs_mutex (threads s1 !! t) = true -> needs_mutex (threads s' !! t) = true).
Proof.
  intros Hj Hs Hr. assert (Hm : c_mutex_ s1 = Some j).
  { unfold agent_exec, run_thread, notify in Hs. rewrite Hj in Hs. destruct (dead s), (c_mutex_ s); try done.
    apply bind_Some in Hs as (ths & _ & [= <-]). done. }
  split; [|intros Ht].
  - revert Hm Hr. apply (@run_invariant _ _ (agent_machine b) (fun s => c_mutex_ s = Some j)).
    intros a s2 s3. apply exec_locked.
  - refine (proj2 (@run_invariant _ _ (agent_machine b)
      (fun s => c_mutex_ s = Some j /\ needs_mutex (threads s !! t) = true) _ _ _ _ (conj Hm Ht) Hr)).
    intros a s2 s3 [H1 H2] H3.
    exact (exec_wedged b a s2 s3 j t H1 H2 H3).
Qed.

(** A dump serves the threads that sleep during it, and nobody afterwards: when no thread is in a dump or
    about to notify, and none starts to, a thread that sleeps in [pending] sleeps for ever, spurious wakeups
    apart, and if the JVM has to stop it, the JVM answers no [stack_trace] any more: the [worker] hangs at the next
    collection. The [safepoint_worker] ends after its first dump. *)
Theorem pending_stranded (b : bool) (s s' : sys) (t : nat) (acts : list action) :
  (forall u, silent (threads s !! u) = true) -> Forall (fun a => silent_action a = true) acts ->
  threads s !! t = Some (Pend_wait false) -> @run _ _ (agent_machine b) acts s = Some s' ->
  threads s' !! t = Some (Pend_wait false)
  /\ (safepoint_needs t = true -> forall i, agent_exec b (Answer i) s' = None).
Proof.
  intros Hq Ha Ht Hr. assert (H : threads s' !! t = Some (Pend_wait false)).
  { revert s Hq Ht Hr. induction Ha as [|a acts Ha _ IH]; intros s Hq Ht; simpl; [by intros [= <-]|].
    destruct (agent_exec b a s) as [s1|] eqn:E; [|done].
    destruct (exec_silent _ _ _ _ _ Hq Ha E Ht) as [Hq1 Ht1]. by apply IH. }
  split; [done|]. intros Hn i. unfold agent_exec, answer. destruct (dead s'); [done|].
  assert (answerable s' = false) as ->; [|done]. apply bool_decide_eq_false. intros Hall.
  specialize (Hall t _ H). unfold in_the_way in Hall. by rewrite Hn in Hall.
Qed.

End jvm.

(** ** Witnesses *)

(** The JVM has to stop the threads 1 and 3. *)
Definition jvm_needs (u : nat) : bool := (u =? 1)%nat || (u =? 3)%nat.

(** The state a schedule reaches. *)
Definition demo (b : bool) (acts : list action) : sys :=
  default sys_init (@run _ _ (agent_machine jvm_needs b) acts sys_init).

Lemma safepoint_demo_reachable b acts :
  is_Some (@run _ _ (agent_machine jvm_needs b) acts sys_init) -> @reachable _ _ (agent_machine jvm_needs b) (demo b acts).
Proof. intros [s Hs]. exists sys_init, acts. split; [done|]. unfold demo. by rewrite Hs. Qed.

(** Thread 1 is pending; the [safepoint_worker] 0 finds its request and starts the helper 2. *)
Definition dump_schedule : list action :=
  [Call 1 (Pend_push 7); Run 1 None; Run 1 None; Call 0 S_start; Run 0 None; Run 0 None; Spawn 0 2].

(** The helper wakes thread 1, the dump ends; then thread 3 is pending. *)
Definition late_pending_schedule : list action :=
  dump_schedule ++ [Run 2 (Some 1%nat); Run 1 None; Answer 0; Run 0 None; Run 2 None; Run 0 None;
                    Call 3 (Pend_push 8); Run 3 None; Run 3 None].

(** Two collections; the [worker] 4 traces one of them. *)
Definition gc_schedule : list action := [Gc 1; Call 4 W_start; Run 4 None; Gc 2; Run 4 None; Unload].

Definition sleeping_pair : list action :=
  [Call 1 (Pend_push 7); Run 1 None; Run 1 None; Call 2 (Notify_lock true)].

Ltac safepoint_reachable := apply safepoint_demo_reachable; vm_compute; eauto.

(** The [safepoint_worker] waits for the JVM, which waits for thread 1, which sleeps. *)
Lemma no_thread_stuck_witness :
  let s := demo false dump_schedule in
  can_move jvm_needs false s 0
  \/ (exists n, S_trace 2 = S_join n /\ can_move jvm_needs false s n)
  \/ ((S_trace 2 = W_trace \/ exists n, S_trace 2 = S_trace n)
      /\ ((exists s', agent_exec jvm_needs false (Answer 0) s = Some s')
          \/ exists u q, threads s !! u = Some q /\ jvm_needs u = true /\ in_pending q = true
               /\ (can_move jvm_needs false s u \/ q = Pend_wait false))).
Proof.
  intros s. apply (no_thread_stuck jvm_needs s 0 (S_trace 2)); [safepoint_reachable|done|done|done|done|].
  by intros [].
Defined.

Lemma dump_can_finish_witness :
  answerable jvm_needs (demo false dump_schedule) = false
  /\ can_finish jvm_needs 0 2 (demo false dump_schedule) (demo false dump_schedule).
Proof. split; [done|]. apply dump_can_finish; [safepoint_reachable|done|done]. Defined.

Lemma helper_queue_alive_witness :
  is_Some (qqs (demo true dump_schedule) !! 0%nat) /\ dangling (demo true dump_schedule) = false.
Proof.
  destruct (helper_queue_alive jvm_needs true (demo true dump_schedule) ltac:(safepoint_reachable)) as [H1 H2].
  split; [|exact H1]. apply (H2 2%nat 0%nat). by left.
Defined.

Lemma gc_traced_once_witness :
  gc_events (demo true gc_schedule) = 2%nat /\ count tracing (threads (demo true gc_schedule)) = 1%nat
  /\ gc_events (demo true gc_schedule)
     = (gc_traces (demo true gc_schedule) + count tracing (threads (demo true gc_schedule))
        + length (gc_queue (demo true gc_schedule)))%nat.
Proof. split; [done|]. split; [done|]. apply (gc_traced_once jvm_needs true). safepoint_reachable. Defined.

Lemma agent_threads_end_witness :
  threads (demo false late_pending_schedule) !! 0%nat = Some S_ret
  /\ (stop_ (demo false late_pending_schedule) = true \/ (0 < full_traces (demo false late_pending_schedule))%nat).
Proof.
  split; [done|].
  apply (agent_threads_end jvm_needs false (demo false late_pending_schedule) 0); [safepoint_reachable|done].
Defined.

(** Thread 2 broadcasts: thread 1 wakes up, and can never return; nor can a later caller, thread 3. *)
Lemma notify_all_wedges_witness :
  let s := demo true sleeping_pair in
  let s1 := default s (agent_exec jvm_needs true (Run 2 (Some 1%nat)) s) in
  let s' := default s (@run _ _ (agent_machine jvm_needs true) [Call 3 (Pend_push 8); Run 3 None; Gc 1] s1) in
  threads s1 !! 1%nat = Some (Pend_wait true) /\ c_mutex_ s' = Some 2%nat /\ needs_mutex (threads s' !! 1%nat) = true.
Proof.
  intros s s1 s'. split; [done|].
  destruct (notify_all_wedges jvm_needs true s s1 s' 2 1 (Some 1%nat) [Call 3 (Pend_push 8); Run 3 None; Gc 1]
              eq_refl eq_refl eq_refl) as [H1 H2].
  split; [exact H1|]. by apply H2.
Defined.

(** After the dump thread 3 sleeps, and whatever a garbage collection or another request brings it stays asleep, and
    the [worker] 4, which traces, gets no answer. *)
Definition stranded_schedule : list action :=
  [Gc 3; Call 4 W_start; Run 4 None; Run 4 None; Call 1 (Pend_push 9); Run 1 None; Unload].

Definition stranded : sys := demo false (late_pending_schedule ++ stranded_schedule).

Lemma pending_stranded_witness :
  threads stranded !! 4%nat = Some W_trace /\ threads stranded !! 3%nat = Some (Pend_wait false)
  /\ agent_exec jvm_needs false (Answer 4) stranded = None.
Proof.
  split; [vm_compute; reflexivity|].
  destruct (pending_stranded jvm_needs false (demo false late_pending_schedule) stranded 3 stranded_schedule) as [H1 H2].
  - apply pool_forall; vm_compute; reflexivity.
  - repeat constructor.
  - vm_compute; reflexivity.
  - vm_compute; reflexivity.
  - split; [exact H1|]. apply H2. reflexivity.
Defined.
