(* ===== verification/Inject.v ===== *)
(** * The injector's program ([src/src/tt.cpp])

    What [main] does with the pieces of [Tt.v]: the way from the ELF header to the list of libraries, the
    symbol over the whole list, and the call. The second half of the file models the search in the
    relocations, [find_sym_in_rel] and [get_dyn_info], which [main] does not call.

    The globals start at 0. Structures in the tracee are described by predicates on its memory
    ([executable_at], [chain_at], [library_ok]); the fuel of the loops bounds the number of structures they
    go through. *)

From S2P Require Import Prelude.
From S2P Require Import Tt.

Section program.
Context (garbage : list byte) (sym0 : Elf32_Sym).

Definition globals0 : globals := Globals 0 0 0 0 0 0 0.

(** ["mtrace"] *)
Definition sym_name : list byte :=
  [Byte.x6d; Byte.x74; Byte.x72; Byte.x61; Byte.x63; Byte.x65].

(** ** [main] *)

(** [main] from the attached process [m], [oldregs] up to the wait for its call of [mtrace]: [err] says that [errno]
    is not 0. The address is not tested. *)
Definition main_call (m : memory) (oldregs : user_regs_struct) (err : bool) (fuel : nat)
    : option (prog print (memory * user_regs_struct)) :=
  map ← get_linkmap m fuel;
  p ← find_symbol garbage sym0 m map sym_name globals0 fuel;
  Some (sym_addr ← p; ptrace_call m oldregs sym_addr err).

(** What [ptrace] answers to the three requests whose failure ends the injector. *)
Record answers_to : Type := Rcs { attach_rc : Z; cont_rc : Z; detach_rc : Z }.

(** How the injector ends: with a status, and the tracee as it leaves it; or it waits for ever. *)
Inductive ending : Type :=
| Exits (status : Z) (tracee : memory * user_regs_struct)
| Waiting.

(** [ptrace_attach]: the registers saved in [oldregs]; [None] is [exit(-1)]. *)
Definition ptrace_attach (rc : Z) (regs : user_regs_struct) : option user_regs_struct :=
  if rc <? 0 then None else Some regs.

(** [ptrace_detach]: the registers are put back; the status of the exit, or of the one of [main]. *)
Definition ptrace_detach (rc : Z) (oldregs : user_regs_struct) (t : memory * user_regs_struct) : ending :=
  Exits (if rc <? 0 then -1 else 0) (t.1, oldregs).

(** [main] from the process [m], [regs]. [ptrace_cont] exits when its request fails. *)
Definition main (m : memory) (regs : user_regs_struct) (err : bool) (rcs : answers_to) (stat1 stat2 : Z)
    (answers : list (option Z)) (fuel : nat) : option (prog print ending) :=
  match ptrace_attach (attach_rc rcs) regs with
  | None => Some (mret (Exits (-1) (m, regs)))
  | Some oldregs =>
      p ← main_call m oldregs err fuel;
      Some (
        r ← p;
        mret (if cont_rc rcs <? 0 then Exits (-1) r
              else
                match ptrace_call_waits stat1 stat2 answers with
                | Some _ => ptrace_detach (detach_rc rcs) oldregs r
                | None => Waiting
                end))
  end.

(** ** Relocations *)

Record Elf32_Rel : Type := Rel { r_offset : Z; r_info : Z }.

Definition rel_of (bs : list byte) : Elf32_Rel :=
  let '(offset, bs) := get_u 4 bs in let '(info, _) := get_u 4 bs in Rel offset info.

Definition sizeof_rel : Z := 8.

Definition read_rel (m : memory) (a : Z) : Elf32_Rel := rel_of (ptrace_read m a sizeof_rel).

Definition ELF32_R_SYM (info : Z) : Z := Z.shiftr info 8.

(** The global variable [dyn_addr]: [get_linkmap] and [get_sym_info] declare locals of that name, and nothing
    assigns the global. *)
Definition dyn_addr : Z := 0.

(** The [switch] of [get_dyn_info]: no case for [DT_HASH]. *)
Definition dyn_info_case (dyn : Elf32_Dyn) (g : globals) : globals :=
  let '(Globals nc st str jr trs rs nr) := g in
  match d_tag dyn with
  | 6 => Globals nc (d_un dyn) str jr trs rs nr
  | 5 => Globals nc st (d_un dyn) jr trs rs nr
  | 23 => Globals nc st str (d_un dyn) trs rs nr
  | 2 => Globals nc st str jr (d_un dyn) rs nr
  | 9 | 19 => Globals nc st str jr trs (d_un dyn) nr
  | _ => g
  end.

(** Its loop, from entry [i]. *)
Fixpoint dyn_info_loop (m : memory) (addr i : Z) (g : globals) (fuel : nat) : option globals :=
  match fuel with
  | O => None
  | S fuel' =>
      let dyn := read_dyn m (wrapU 32 (addr + i * sizeof_dyn)) in
      if d_tag dyn =? 0 then Some g else dyn_info_loop m addr (i + 1) (dyn_info_case dyn g) fuel'
  end.

Definition get_dyn_info (m : memory) (addr : Z) (g : globals) (fuel : nat) : option (prog print globals) :=
  g' ← dyn_info_loop m addr 0 g fuel; Some (set_nrels g').

(** The loop of [find_sym_in_rel], from index [i] (an [int]) with [k] turns left. *)
Fixpoint search_rel (m : memory) (g : globals) (name : list byte) (i : Z) (k : nat)
    : prog print (option Elf32_Rel) :=
  match k with
  | O => mret None
  | S k' =>
      let rel := read_rel m (wrapU 32 (jmprel g + i * sizeof_rel)) in
      let next := i' ← add_int32 i 1; search_rel m g name i' k' in
      if ELF32_R_SYM (r_info rel) =? 0 then next
      else
        let sym := read_sym m (wrapU 32 (symtab g + ELF32_R_SYM (r_info rel) * sizeof_sym)) in
        str ← or_undef Out_of_bounds (ptrace_readstr m (wrapU 32 (strtab g + st_name sym)) garbage);
        eq ← or_undef Out_of_bounds (strcmp_eq str name);
        if (eq : bool) then mret (Some rel) else next
  end.

Definition find_sym_in_rel (m : memory) (name : list byte) (g : globals) (fuel : nat)
    : option (prog print (Z * globals)) :=
  p ← get_dyn_info m dyn_addr g fuel;
  Some (
    g' ← p;
    r ← search_rel m g' name 0 (Z.to_nat (nrels g'));
    mret (match r with Some rel => r_offset rel | None => 0 end, g')).

(** ** What lies in memory *)

(** A loaded library: its entry in the list, its name, its dynamic section and its symbols with their names. *)
Record library : Type := Lib {
  lib_lm : link_map;
  lib_name : list byte;
  lib_dyn : list Elf32_Dyn;
  lib_table : list (Elf32_Sym * list byte);
}.

(** The global variables after the section of a library was read. *)
Definition sym_info (m : memory) (l : library) (g : globals) : globals :=
  fold_left (fun g d => sym_info_case m d g) (lib_dyn l) g.

(** The library is as the code expects it: short names, and a section that sets every variable the search needs,
    whatever the library before left in them. *)
Definition library_ok (m : memory) (l : library) : Prop :=
  string_at m (l_name (lib_lm l)) (lib_name l) /\ (length (lib_name l) < 64)%nat
  /\ section_at m (l_ld (lib_lm l)) (lib_dyn l)
  /\ Forall (fun e => (length e.2 < 64)%nat) (lib_table l)
  /\ forall g, nchains (sym_info m l g) = Z.of_nat (length (lib_table l)) /\ relsize (sym_info m l g) <> 0
               /\ table_at m (sym_info m l g) 0 (lib_table l).

(** The libraries after [l] in the list that starts there. *)
Fixpoint chain_at (m : memory) (l : library) (libs : list library) : Prop :=
  match libs with
  | [] => l_next (lib_lm l) = 0
  | l' :: libs' =>
      l_next (lib_lm l) <> 0 /\ read_lm m (l_next (lib_lm l)) = lib_lm l' /\ chain_at m l' libs'
  end.

(** The way from the ELF header to the list: [nph] program headers before the dynamic one, which gives the address
    [da] of the dynamic section; [nd] entries there before the one of the global offset table, whose second word is
    the address of the list. *)
Definition executable_at (m : memory) (lm : link_map) (nph nd : nat) : Prop :=
  let phdr k := ptrace_read m (wrapU 32 (wrapU 32 (IMAGE_ADDR + e_phoff (ptrace_read m IMAGE_ADDR sizeof_ehdr))
                                         + Z.of_nat k * sizeof_phdr)) sizeof_phdr in
  let da := p_vaddr (phdr nph) in
  let dyn k := read_dyn m (da + Z.of_nat k * sizeof_dyn) in
  (forall k, (k < nph)%nat -> p_type (phdr k) <> 2) /\ p_type (phdr nph) = 2
  /\ (forall k, (k < nd)%nat -> d_tag (dyn k) <> 3) /\ d_tag (dyn nd) = 3
  /\ lm = read_lm m (get_u 4 (ptrace_read m (wrapU 32 (d_un (dyn nd) + 4)) 4)).1.

(** ** The reference *)

(** The address a library gives to a name, 0 when it gives none. *)
Definition value (name : list byte) (l : library) : Z :=
  match lookup_symbol name (lib_table l) with
  | Some sym => wrapU 32 (l_addr (lib_lm l) + st_value sym)
  | None => 0
  end.

(** The libraries that are searched: the first two, and those after them that have a name. *)
Definition searched (libs : list library) : list library :=
  take 2 libs ++ filter (fun l => lib_name l <> []) (drop 2 libs).

Definition resolve (name : list byte) (libs : list library) : Z :=
  default 0 (find (fun v => negb (v =? 0)) (map (value name) (searched libs))).

(** The relocation of a name: the first one whose symbol has it. *)
Fixpoint relocs_at (m : memory) (g : globals) (i : Z) (tab : list (Elf32_Rel * list byte)) : Prop :=
  match tab with
  | [] => True
  | (rel, s) :: tab' =>
      read_rel m (wrapU 32 (jmprel g + i * sizeof_rel)) = rel
      /\ (ELF32_R_SYM (r_info rel) <> 0 ->
            string_at m (wrapU 32 (strtab g + st_name (read_sym m
              (wrapU 32 (symtab g + ELF32_R_SYM (r_info rel) * sizeof_sym))))) s)
      /\ relocs_at m g (i + 1) tab'
  end.

Definition lookup_reloc (name : list byte) (tab : list (Elf32_Rel * list byte)) : option Elf32_Rel :=
  fst <$> find (fun e => negb (ELF32_R_SYM (r_info e.1) =? 0) && bool_decide (e.2 = name)) tab.

(** ** Lemmas: the list of libraries *)

Lemma find_dynamic_spec m a n fuel :
  wrapU 32 a = a -> (n < fuel)%nat ->
  (forall k, (k < n)%nat -> p_type (ptrace_read m (wrapU 32 (a + Z.of_nat k * sizeof_phdr)) sizeof_phdr) <> 2) ->
  p_type (ptrace_read m (wrapU 32 (a + Z.of_nat n * sizeof_phdr)) sizeof_phdr) = 2 ->
  find_dynamic m a fuel = Some (p_vaddr (ptrace_read m (wrapU 32 (a + Z.of_nat n * sizeof_phdr)) sizeof_phdr)).
Proof.
  revert a fuel. induction n as [|n IH]; intros a [|fuel] Ha Hf Hb He; try lia; cbn [find_dynamic].
  - rewrite Z.add_0_r, Ha in *. by rewrite He.
  - pose proof (Hb 0%nat ltac:(lia)) as H0. rewrite Z.add_0_r, Ha in H0. apply Z.eqb_neq in H0. rewrite H0.
    assert (E : forall k, wrapU 32 (wrapU 32 (a + sizeof_phdr) + Z.of_nat k * sizeof_phdr)
                          = wrapU 32 (a + Z.of_nat (S k) * sizeof_phdr))
      by (intros k; rewrite wrapU_add_l; f_equal; lia).
    rewrite IH, E; [done| |lia| |by rewrite E].
    + unfold wrapU. by rewrite Zmod_mod.
    + intros k Hk. rewrite E. apply Hb. lia.
Qed.

Lemma find_dynamic_none m a fuel :
  wrapU 32 a = a ->
  (forall k, (k < fuel)%nat -> p_type (ptrace_read m (wrapU 32 (a + Z.of_nat k * sizeof_phdr)) sizeof_phdr) <> 2) ->
  find_dynamic m a fuel = None.
Proof.
  revert a. induction fuel as [|fuel IH]; intros a Ha Hb; cbn [find_dynamic]; [done|].
  pose proof (Hb 0%nat ltac:(lia)) as H0. rewrite Z.add_0_r, Ha in H0. apply Z.eqb_neq in H0. rewrite H0.
  apply IH; [unfold wrapU; by rewrite Zmod_mod|]. intros k Hk. rewrite wrapU_add_l.
  replace (a + sizeof_phdr + Z.of_nat k * sizeof_phdr) with (a + Z.of_nat (S k) * sizeof_phdr) by lia.
  apply Hb. lia.
Qed.

Lemma find_pltgot_spec m da i dyn n fuel :
  d_tag dyn <> 3 -> (S n < fuel)%nat ->
  (forall k, (k < n)%nat -> d_tag (read_dyn m (da + (i + Z.of_nat k) * sizeof_dyn)) <> 3) ->
  d_tag (read_dyn m (da + (i + Z.of_nat n) * sizeof_dyn)) = 3 ->
  find_pltgot m da i dyn fuel = Some (read_dyn m (da + (i + Z.of_nat n) * sizeof_dyn)).
Proof.
  revert i dyn fuel. induction n as [|n IH]; intros i dyn fuel Hd Hf Hb He; (destruct fuel as [|fuel]; [lia|]);
    cbn [find_pltgot]; apply Z.eqb_neq in Hd; rewrite Hd.
  - rewrite Z.add_0_r in *. destruct fuel as [|fuel]; [lia|]. cbn [find_pltgot]. by rewrite He.
  - assert (E : forall k, (i + 1 + Z.of_nat k) = i + Z.of_nat (S k)) by lia.
    rewrite IH, E; [done| |lia| |by rewrite E].
    + specialize (Hb 0%nat ltac:(lia)). by rewrite Z.add_0_r in Hb.
    + intros k Hk. rewrite E. apply Hb. lia.
Qed.

Lemma get_linkmap_spec m lm nph nd fuel :
  executable_at m lm nph nd -> (nph < fuel)%nat -> (S nd < fuel)%nat -> get_linkmap m fuel = Some lm.
Proof.
  unfold executable_at, get_linkmap. set (a := wrapU 32 (IMAGE_ADDR + _)).
  intros (Hb & Hp & Hd & He & ->) Hf1 Hf2.
  assert (Ha : wrapU 32 a = a) by (unfold a, wrapU; by rewrite Zmod_mod).
  rewrite (find_dynamic_spec m a nph fuel) by done. cbn [mbind option_bind].
  set (da := p_vaddr _) in *. destruct nd as [|nd].
  - rewrite Z.add_0_r in *. destruct fuel as [|fuel]; [lia|]. cbn [find_pltgot]. by rewrite He.
  - pose proof (Hd 0%nat ltac:(lia)) as H0. rewrite Z.add_0_r in H0.
    rewrite (find_pltgot_spec m da 0 _ (S nd) fuel); [done|done|lia|done|done].
Qed.

(** ** Lemmas: the symbol *)

(** A symbol table depends on two of the globals only. *)
Lemma table_at_same m g g' i tab :
  symtab g' = symtab g -> strtab g' = strtab g -> table_at m g i tab -> table_at m g' i tab.
Proof.
  intros H1 H2. revert i. induction tab as [|[sym s] tab IH]; intros i; [done|]. cbn [table_at].
  rewrite H1, H2. intros (? & ? & ?). auto.
Qed.

Lemma find_in_library m l name g fuel :
  length garbage = 64%nat -> Forall nonzero name -> library_ok m l -> (length (lib_dyn l) < fuel)%nat ->
  exists log g', find_symbol_in_linkmap garbage sym0 m (lib_lm l) name g fuel = Some (log, Done (value name l, g')).
Proof.
  intros Hg Hname (Hn & Hnl & Hs & Hshort & Hok) Hf. unfold find_symbol_in_linkmap, get_sym_info.
  rewrite (sym_info_section m _ g _ _ Hs Hf). cbn [mbind option_bind].
  destruct (Hok g) as (Hc & Hr & Ht). fold (sym_info m l g). set (g1 := sym_info m l g) in *.
  unfold set_nrels. apply Z.eqb_neq in Hr. rewrite Hr. rewrite bind_ret_l. cbn [nchains].
  rewrite Hc. replace (Z.of_nat (length (lib_table l)) <? 0) with false by (symmetry; apply Z.ltb_ge; lia).
  cbn [emit_if]. rewrite bind_ret_l, Nat2Z.id.
  rewrite (search_symbol_spec garbage m _ (lib_lm l) (lib_name l) name 0 (lib_table l)); try done.
  - rewrite bind_done. unfold value. by destruct (lookup_symbol name (lib_table l)); eexists _, _.
  - by apply (table_at_same m g1).
Qed.

Definition nonzero_addr (v : Z) : bool := negb (v =? 0).

Lemma find_loop_found m lm name a g fuel :
  a <> 0 -> find_symbol_loop garbage sym0 m lm name a g (S fuel) = Some (mret a).
Proof. intros Ha. cbn [find_symbol_loop]. apply Z.eqb_neq in Ha. by rewrite Ha. Qed.

Lemma find_loop_spec m l libs name g bound fuel :
  length garbage = 64%nat -> Forall nonzero name -> chain_at m l libs ->
  Forall (library_ok m) libs -> Forall (fun l => (length (lib_dyn l) <= bound)%nat) libs ->
  (bound + length libs < fuel)%nat ->
  exists log, find_symbol_loop garbage sym0 m (lib_lm l) name 0 g fuel
    = Some (log, Done (default 0 (find nonzero_addr (map (value name) (filter (fun l => lib_name l <> []) libs))))).
Proof.
  intros Hg Hname. revert l g fuel. induction libs as [|l' libs IH]; intros l g [|fuel] Hc Hok Hb Hf; try lia;
    cbn [find_symbol_loop chain_at] in *.
  - rewrite Hc. cbn. by eexists.
  - destruct Hc as (Hn & -> & Hc). apply Forall_cons in Hok as [Hl Hok]. apply Forall_cons in Hb as [Hb1 Hb].
    cbn [length] in Hf. apply Z.eqb_neq in Hn. rewrite Hn. cbn [orb negb].
    pose proof Hl as (Hs & Hsl & _).
    destruct (ptrace_readstr_short m _ garbage _ Hg Hs Hsl) as [tl ->]. destruct Hs as [Hnz _].
    cbn [mbind option_bind]. rewrite buffer_str_app by done. rewrite filter_cons. destruct (lib_name l') as [|c str] eqn:En.
    + rewrite decide_False by (intros H; by apply H). apply IH; [done|done|done|lia].
    + rewrite decide_True by done.
      destruct (find_in_library m l' name g fuel Hg Hname Hl ltac:(lia)) as (log & g' & ->).
      cbn [map find]. unfold nonzero_addr at 1. destruct (Z.eqb_spec (value name l') 0) as [->|Hv]; cbn [negb].
      * destruct (IH l' g' fuel Hc Hok Hb ltac:(lia)) as [log' ->]. by eexists.
      * destruct fuel as [|fuel]; [lia|]. rewrite find_loop_found by done. cbn. by eexists.
Qed.

Lemma find_symbol_spec m l libs name g bound fuel :
  length garbage = 64%nat -> Forall nonzero name -> chain_at m l libs -> Forall (library_ok m) (l :: libs) ->
  Forall (fun l => (length (lib_dyn l) <= bound)%nat) (l :: libs) -> (bound + length libs < fuel)%nat ->
  exists log, find_symbol garbage sym0 m (lib_lm l) name g fuel = Some (log, Done (resolve name (l :: libs))).
Proof.
  intros Hg Hname Hc Hok Hb Hf. unfold find_symbol, resolve, searched. fold nonzero_addr.
  apply Forall_cons in Hok as [Hl Hok]. apply Forall_cons in Hb as [Hbl Hb].
  destruct (find_in_library m l name g fuel Hg Hname Hl ltac:(lia)) as (log & g' & ->).
  cbn [map find filter list_filter take drop app]. unfold nonzero_addr at 1.
  destruct (Z.eqb_spec (value name l) 0) as [Hv|Hv]; cbn [negb].
  - destruct libs as [|l2 libs]; cbn [chain_at] in Hc.
    + rewrite Hc. cbn. by eexists.
    + destruct Hc as (Hn & -> & Hc). apply Forall_cons in Hok as [Hl2 Hok]. apply Forall_cons in Hb as [Hb2 Hb].
      cbn [length] in Hf. apply Z.eqb_neq in Hn. rewrite Hn.
      destruct (find_in_library m l2 name g' fuel Hg Hname Hl2 ltac:(lia)) as (log2 & g2 & ->).
      cbn [map find filter list_filter take drop app]. unfold nonzero_addr at 1.
      destruct (Z.eqb_spec (value name l2) 0) as [Hv2|Hv2]; cbn [negb].
      * rewrite Hv2. destruct (find_loop_spec m l2 libs name g2 bound fuel) as [log3 ->]; [done..|lia|].
        rewrite take_0, drop_0. by eexists.
      * destruct fuel as [|fuel]; [lia|]. rewrite find_loop_found by done. cbn. by eexists.
  - by eexists.
Qed.


(** ** Lemmas: the call *)

(** The return address that [ptrace_call] pushes. *)
Lemma ptrace_call_spec m regs addr :
  esp regs mod 4 = 0 -> 4 <= esp regs < 2 ^ 32 ->
  (forall x, esp regs - 4 <= x < esp regs -> is_Some (m !! x)) ->
  exists m', ptrace_call m regs addr false
    = ([], Done (m', Regs (eax regs) (ecx regs) (edx regs) (esp regs - 4) addr))
    /\ mapped_at m' (esp regs - 4) (le_split 4 0x41414140)
    /\ (forall x, x < esp regs - 4 \/ esp regs <= x -> m' !! x = m !! x).
Proof.
  intros H4 Hb Hm. unfold ptrace_call, ptrace_push, ptrace_write.
  rewrite (wrapU_small 32) by lia.
  assert (E : esp regs - 4 - (esp regs - 4) mod 4 = esp regs - 4) by (Z.to_euclidean_division_equations; lia).
  rewrite E. destruct (write_words_spec m (esp regs - 4) (le_split 4 0x41414140) 1) as (m' & Hw & Hmap & Hf);
    [lia|lia|rewrite length_le_split; lia|intros x Hx; apply Hm; lia|].
  exists m'. change (turns 4) with 1%nat. rewrite Hw. split; [done|]. split; [exact Hmap|].
  intros x Hx. apply Hf. lia.
Qed.

Lemma waits_forever stat1 stat2 answers :
  WIFSIGNALED stat2 = false ->
  Forall (fun a => match a with Some st => WIFSIGNALED st = false | None => True end) answers ->
  ptrace_call_waits stat1 stat2 answers = None.
Proof.
  intros H2 Ha. unfold ptrace_call_waits, ptrace_cont.
  destruct (wait_until WIFSTOPPED stat1 answers) as [rest|] eqn:E; [|done]. cbn.
  apply wait_until_suffix in E as [used ->]. apply Forall_app in Ha as [_ Ha]. by apply wait_until_None.
Qed.

(** ** Properties *)

(** C17. The injector end to end: on an executable whose list of libraries is as the code expects it, with 4 mapped bytes
    below an aligned stack pointer, the tracee is left with the return address on its stack and [eip] at what the
    list gives for [mtrace]: the value in the first of the searched libraries that defines it, and 0 when none does
    (the result is not tested). When the call comes back instead of killing the tracee, the injector never
    gets to [ptrace_detach], whatever [waitpid] answers. *)
Theorem main_calls_mtrace (m : memory) (oldregs : user_regs_struct) (l : library) (libs : list library)
    (nph nd bound fuel : nat) :
  length garbage = 64%nat ->
  executable_at m (lib_lm l) nph nd -> chain_at m l libs -> Forall (library_ok m) (l :: libs) ->
  Forall (fun l => (length (lib_dyn l) <= bound)%nat) (l :: libs) ->
  (nph < fuel)%nat -> (S nd < fuel)%nat -> (bound + length libs < fuel)%nat ->
  esp oldregs mod 4 = 0 -> 4 <= esp oldregs < 2 ^ 32 ->
  (forall x, esp oldregs - 4 <= x < esp oldregs -> is_Some (m !! x)) ->
  exists log m' regs',
    main_call m oldregs false fuel = Some (log, Done (m', regs'))
    /\ regs' = Regs (eax oldregs) (ecx oldregs) (edx oldregs) (esp oldregs - 4) (resolve sym_name (l :: libs))
    /\ mapped_at m' (esp regs') (le_split 4 0x41414140)
    /\ (forall x, x < esp regs' \/ esp oldregs <= x -> m' !! x = m !! x)
    /\ forall rcs stat1 stat2 answers,
         0 <= attach_rc rcs -> 0 <= cont_rc rcs -> WIFSIGNALED stat2 = false ->
         Forall (fun a => match a with Some st => WIFSIGNALED st = false | None => True end) answers ->
         main m oldregs false rcs stat1 stat2 answers fuel = Some (log, Done Waiting).
Proof.
  intros Hg He Hc Hok Hb Hf1 Hf2 Hf3 H4 Hesp Hm.
  assert (Hname : Forall nonzero sym_name) by by repeat constructor.
  destruct (find_symbol_spec m l libs sym_name globals0 bound fuel Hg Hname Hc Hok Hb Hf3) as [log Hs].
  destruct (ptrace_call_spec m oldregs (resolve sym_name (l :: libs)) H4 Hesp Hm) as (m' & Hcall & Hmap & Hfr).
  assert (E : main_call m oldregs false fuel
    = Some (log ++ [], Done (m', Regs (eax oldregs) (ecx oldregs) (edx oldregs) (esp oldregs - 4)
                               (resolve sym_name (l :: libs))))).
  { unfold main_call. rewrite (get_linkmap_spec m _ nph nd fuel He Hf1 Hf2). cbn [mbind option_bind].
    rewrite Hs. cbv [mbind option_bind prog_bind]. by rewrite Hcall. }
  rewrite app_nil_r in E. eexists log, m', _. split; [exact E|]. split; [done|]. split; [exact Hmap|].
  split; [exact Hfr|]. intros rcs stat1 stat2 answers R1 R2 H2 Ha. unfold main, ptrace_attach.
  rewrite (proj2 (Z.ltb_ge _ _) R1), (proj2 (Z.ltb_ge _ _) R2), E, (waits_forever _ _ _ H2 Ha).
  cbn. by rewrite app_nil_r.
Qed.

(** How the injector exits, whatever the tracee holds: without having touched it, when it cannot attach; with the
    tracee's registers changed and not put back, when the tracee cannot be continued; and otherwise with the
    registers put back, but never the word of the stack that the return address was written to. *)
Theorem main_exits (m : memory) (regs : user_regs_struct) (err : bool) (rcs : answers_to) (stat1 stat2 status : Z)
    (answers : list (option Z)) (fuel : nat) (log : list print) (t : memory * user_regs_struct) :
  main m regs err rcs stat1 stat2 answers fuel = Some (log, Done (Exits status t)) ->
  (attach_rc rcs < 0 /\ status = -1 /\ t = (m, regs) /\ log = [])
  \/ exists r, main_call m regs err fuel = Some (log, Done r) /\ 0 <= attach_rc rcs
       /\ ((cont_rc rcs < 0 /\ status = -1 /\ t = r)
           \/ (0 <= cont_rc rcs /\ ptrace_call_waits stat1 stat2 answers <> None
               /\ status = (if detach_rc rcs <? 0 then -1 else 0) /\ t = (r.1, regs))).
Proof.
  unfold main, ptrace_attach. destruct (Z.ltb_spec (attach_rc rcs) 0) as [Ha|Ha].
  { intros [= <- <- <-]. by left. }
  destruct (main_call m regs err fuel) as [[l [r|u|e]]|]; cbn; try done. rewrite app_nil_r. intros H. right. exists r.
  destruct (Z.ltb_spec (cont_rc rcs) 0) as [Hc|Hc]; [injection H as <- <- <-; auto 10|].
  destruct (ptrace_call_waits stat1 stat2 answers) as [a|]; [|done]. unfold ptrace_detach in H.
  injection H as <- <- <-. split_and!; [done|done|]. right. by split_and!.
Qed.

(** [get_linkmap] follows the headers to the list of libraries when they are there; on an executable without a
    dynamic program header (a static one) it does not stop at the number of headers and goes on through memory, for
    as long as no word there looks like the type of one. *)
Theorem get_linkmap_walks (m : memory) (fuel : nat) :
  (forall lm nph nd, executable_at m lm nph nd -> (nph < fuel)%nat -> (S nd < fuel)%nat ->
     get_linkmap m fuel = Some lm)
  /\ ((forall k, (k < fuel)%nat ->
        p_type (ptrace_read m (wrapU 32 (wrapU 32 (IMAGE_ADDR + e_phoff (ptrace_read m IMAGE_ADDR sizeof_ehdr))
                                         + Z.of_nat k * sizeof_phdr)) sizeof_phdr) <> 2) ->
      get_linkmap m fuel = None).
Proof.
  split; [intros; by eapply get_linkmap_spec|]. intros Hk. unfold get_linkmap.
  rewrite find_dynamic_none; [done|unfold wrapU; by rewrite Zmod_mod|exact Hk].
Qed.

Lemma dyn_info_astray m g fuel i :
  0 <= i -> (i + Z.of_nat fuel) * sizeof_dyn <= 2 ^ 32 ->
  (forall x, i * sizeof_dyn <= x < (i + Z.of_nat fuel) * sizeof_dyn -> m !! x = None) ->
  dyn_info_loop m dyn_addr i g fuel = None.
Proof.
  unfold sizeof_dyn, dyn_addr. revert g i. induction fuel as [|fuel IH]; intros g i Hi Hb Hm; [done|].
  cbn [dyn_info_loop]. rewrite wrapU_small by (unfold sizeof_dyn; lia).
  unfold read_dyn, ptrace_read, sizeof_dyn. change (turns 8) with 2%nat. cbn [read_words].
  unfold peektext at 1. rewrite (wrapU_small 32 (0 + i * 8)), Hm by lia.
  replace (d_tag _ =? 0) with false by done. apply IH; [lia|lia|]. intros x Hx. apply Hm. lia.
Qed.

(** The search in the relocations starts at address 0: no function assigns the global [dyn_addr], so that as long
    as nothing is mapped in the first [8 * fuel] bytes (as on Linux, where the first pages never are)
    [find_sym_in_rel] reads -1 tags there and does not get to its search. *)
Theorem find_sym_in_rel_astray (m : memory) (name : list byte) (g : globals) (fuel : nat) :
  Z.of_nat fuel * sizeof_dyn <= 2 ^ 32 -> (forall x, 0 <= x < Z.of_nat fuel * sizeof_dyn -> m !! x = None) ->
  find_sym_in_rel m name g fuel = None.
Proof.
  intros Hf Hm. unfold find_sym_in_rel, get_dyn_info.
  by rewrite dyn_info_astray by (try done; unfold sizeof_dyn in *; try lia; intros; apply Hm; lia).
Qed.

Lemma search_rel_spec m g name i tab :
  length garbage = 64%nat -> Forall nonzero name -> relocs_at m g i tab ->
  Forall (fun e => (length e.2 < 64)%nat) tab -> 0 <= i -> i + Z.of_nat (length tab) < 2 ^ 31 ->
  search_rel m g name i (length tab) = ([], Done (lookup_reloc name tab)).
Proof.
  intros Hg Hname. revert i. induction tab as [|[rel s] tab IH]; intros i Ht Hlen Hi Hb; [done|].
  cbn [relocs_at] in Ht. destruct Ht as (Hrel & Hs & Ht). apply Forall_cons in Hlen as [Hl Hlen].
  cbn [length] in Hb. cbn [search_rel length fst snd] in *. rewrite Hrel. unfold lookup_reloc. cbn [find fst snd].
  assert (Hi1 : in_sint 32 (i + 1) = true) by (unfold in_sint; apply andb_true_iff; rewrite Z.leb_le, Z.ltb_lt; lia).
  assert (Hnext : (i' ← add_int32 i 1; search_rel m g name i' (length tab)) = ([], Done (lookup_reloc name tab))).
  { rewrite add_int32_ok, bind_ret_l by done. apply IH; [done|done|lia|lia]. }
  destruct (Z.eqb_spec (ELF32_R_SYM (r_info rel)) 0) as [|Hne]; cbn [negb andb]; [exact Hnext|].
  specialize (Hs Hne). destruct (ptrace_readstr_short m _ garbage s Hg Hs Hl) as [tl ->].
  destruct Hs as [Hs _]. cbn [or_undef]. rewrite bind_ret_l, strcmp_eq_spec by done. cbn [or_undef]. rewrite bind_ret_l.
  case_bool_decide; [done|exact Hnext].
Qed.

(** The loop of [find_sym_in_rel] is the lookup in the relocation table: it stays in its buffers and on [int], and returns
    the first relocation with a symbol of the name asked for, or none. *)
Theorem search_rel_is_lookup (m : memory) (g : globals) (name : list byte) (tab : list (Elf32_Rel * list byte)) :
  length garbage = 64%nat -> Forall nonzero name -> relocs_at m g 0 tab ->
  Forall (fun e => (length e.2 < 64)%nat) tab -> nrels g = Z.of_nat (length tab) -> nrels g < 2 ^ 31 ->
  search_rel m g name 0 (Z.to_nat (nrels g)) = ([], Done (lookup_reloc name tab)).
Proof. intros Hg Hn Ht Hl E Hb. rewrite E in *. rewrite Nat2Z.id. apply search_rel_spec; try done. Qed.

End program.

(** ** Witnesses *)

(** Checks that a C string and its padding lie in memory. *)
Definition string_check (m : memory) (a : Z) (s pad : list byte) : bool :=
  forallb (fun b => negb (byte.unsigned b =? 0)) s
  && bool_decide ((length (s ++ Byte.x00 :: pad) `mod` 4 = 0)%nat) && lies_at m a (s ++ Byte.x00 :: pad).

Lemma string_check_at m a s pad : string_check m a s pad = true -> string_at m a s.
Proof.
  unfold string_check. intros [[H1 H2]%andb_true_iff H3]%andb_true_iff. apply bool_decide_eq_true in H2.
  split.
  - apply Forall_forall. intros b Hb%list_elem_of_In. rewrite forallb_forall in H1. specialize (H1 _ Hb).
    apply negb_true_iff, Z.eqb_neq in H1. exact H1.
  - exists pad, (length (s ++ Byte.x00 :: pad) / 4)%nat. split; [|by apply lies_at_mapped].
    pose proof (Nat.div_mod_eq (length (s ++ Byte.x00 :: pad)) 4). lia.
Qed.

Definition words (ws : list Z) : list byte := concat (map (le_split 4) ws).

(** An executable with two program headers and two libraries: the first without a name, which defines ["foo"], and
    the second, ["foo"], at 1000, which defines ["mtrace"]. A stack ends at 8200. *)
Definition process : memory :=
  store (IMAGE_ADDR + 28) (words [52])
  (store (IMAGE_ADDR + 52) (words [1; 0; 0; 0; 0; 0; 0; 0; 2; 0; 4096])
  (store 4096 (words [1; 0; 3; 4352])
  (store 4356 (words [4608])
  (store 4608 (words [0; 5120; 4640; 4864; 0])
  (store 4640 (words [6; 5376; 5; 5632; 4; 5888; 19; 8; 0; 0])
  (store 4864 (words [1000; 5136; 4896; 0; 4608])
  (store 4896 (words [6; 6144; 5; 5632; 4; 5904; 19; 8; 0; 0])
  (store 5120 (words [0])
  (store 5136 (name_foo ++ bytes [0])
  (store 5376 (words [4; 64; 8; 0])
  (store 5636 (name_foo ++ bytes [0] ++ name_mtrace ++ bytes [0; 0])
  (store 5892 (words [1])
  (store 5908 (words [2])
  (store 6144 (words [4; 0; 0; 0; 8; 96; 8; 0])
  (store 8192 (words [0; 0]) ∅))))))))))))))).

Definition lib1 : library :=
  Lib (Lm 0 5120 4640 4864 0) [] [Dyn 6 5376; Dyn 5 5632; Dyn 4 5888; Dyn 19 8] [(Sym 4 64 8, name_foo)].

Definition lib2 : library :=
  Lib (Lm 1000 5136 4896 0 4608) name_foo [Dyn 6 6144; Dyn 5 5632; Dyn 4 5904; Dyn 19 8]
    [(Sym 4 0 0, name_foo); (Sym 8 96 8, name_mtrace)].

Ltac string_here pad := apply (string_check_at _ _ _ pad); vm_compute; reflexivity.

Lemma process_lib1 : library_ok process lib1.
Proof.
  split; [string_here (bytes [0; 0; 0])|]. split; [cbn; lia|].
  split; [repeat (split; [vm_compute; (reflexivity || discriminate)|]); by vm_compute|].
  split; [repeat constructor; cbn; lia|]. intros g. destruct g as [nc st str jr trs rs nr].
  split; [by vm_compute|]. split; [vm_compute; discriminate|].
  split; [by vm_compute|]. split; [|done]. intros _. string_here (@nil byte).
Qed.

Lemma process_lib2 : library_ok process lib2.
Proof.
  split; [string_here (@nil byte)|]. split; [cbn; lia|].
  split; [repeat (split; [vm_compute; (reflexivity || discriminate)|]); by vm_compute|].
  split; [repeat constructor; cbn; lia|]. intros g. destruct g as [nc st str jr trs rs nr].
  split; [by vm_compute|]. split; [vm_compute; discriminate|].
  split; [by vm_compute|]. split; [intros [=]|].
  split; [by vm_compute|]. split; [|done]. intros _. string_here (bytes [0]).
Qed.

Lemma process_executable : executable_at process (lib_lm lib1) 1 1.
Proof.
  split; [intros k Hk; assert (k = 0%nat) as -> by lia; vm_compute; discriminate|].
  split; [by vm_compute|]. split; [intros k Hk; assert (k = 0%nat) as -> by lia; vm_compute; discriminate|].
  split; by vm_compute.
Qed.

Definition process_regs : user_regs_struct := Regs 1 2 3 8200 4000.

(** The injector makes the process call 1096 = 1000 + 96, and waits for ever. *)
Lemma main_calls_mtrace_witness :
  resolve sym_name [lib1; lib2] = 1096
  /\ exists log m' regs',
      main_call heap_garbage (Sym 0 0 0) process process_regs false 8 = Some (log, Done (m', regs'))
      /\ regs' = Regs 1 2 3 8196 1096 /\ mapped_at m' (esp regs') (le_split 4 0x41414140)
      /\ (forall x, x < esp regs' \/ 8200 <= x -> m' !! x = process !! x)
      /\ forall rcs stat1 stat2 answers,
           0 <= attach_rc rcs -> 0 <= cont_rc rcs -> WIFSIGNALED stat2 = false ->
           Forall (fun a => match a with Some st => WIFSIGNALED st = false | None => True end) answers ->
           main heap_garbage (Sym 0 0 0) process process_regs false rcs stat1 stat2 answers 8 = Some (log, Done Waiting).
Proof.
  split; [by vm_compute|].
  apply (main_calls_mtrace heap_garbage (Sym 0 0 0) process process_regs lib1 [lib2] 1 1 4 8);
    [done|exact process_executable|by vm_compute| |repeat constructor|lia|lia|cbn; lia|done|cbn; lia|].
  - constructor; [exact process_lib1|constructor; [exact process_lib2|constructor]].
  - cbn [esp process_regs]. intros x Hx. assert (x = 8196 \/ x = 8197 \/ x = 8198 \/ x = 8199) as Hc by lia.
    destruct Hc as [->|[->|[->| ->]]]; vm_compute; eauto.
Defined.

Definition exited (o : option (prog print ending)) : bool :=
  match o with Some (_, Done (Exits _ _)) => true | _ => false end.

(** The tracee dies of the signal 11 of the call, and the injector detaches. *)
Lemma main_exits_witness :
  exists log t r,
    main heap_garbage (Sym 0 0 0) process process_regs false (Rcs 0 0 (-1)) 0x137f 0 [Some 11] 8
      = Some (log, Done (Exits (-1) t))
    /\ main_call heap_garbage (Sym 0 0 0) process process_regs false 8 = Some (log, Done r) /\ t = (r.1, process_regs).
Proof.
  assert (H : exited (main heap_garbage (Sym 0 0 0) process process_regs false (Rcs 0 0 (-1)) 0x137f 0 [Some 11] 8) = true)
    by (vm_compute; reflexivity).
  destruct (main heap_garbage (Sym 0 0 0) process process_regs false (Rcs 0 0 (-1)) 0x137f 0 [Some 11] 8)
    as [[log [[status t|]|u|e]]|] eqn:E; [|discriminate H..].
  destruct (main_exits heap_garbage (Sym 0 0 0) process process_regs false (Rcs 0 0 (-1)) 0x137f 0 status [Some 11] 8 log t E)
    as [(Hrc & _)|(r & Hr & _ & [(Hrc & _)|(_ & _ & Hs & Ht)])]; [cbn in Hrc; lia|cbn in Hrc; lia|].
  exists log, t, r. cbn in Hs. rewrite Hs. split; [reflexivity|]. split; [exact Hr|exact Ht].
Defined.

Lemma get_linkmap_walks_witness : get_linkmap process 8 = Some (lib_lm lib1) /\ get_linkmap ∅ 8 = None.
Proof.
  split; [apply (proj1 (get_linkmap_walks process 8) _ 1%nat 1%nat); [exact process_executable|lia|lia]|].
  apply (proj2 (get_linkmap_walks ∅ 8)). intros k Hk.
  do 8 (destruct k as [|k]; [vm_compute; discriminate|]). lia.
Defined.

Lemma store_none a bs m x : x < a -> m !! x = None -> store a bs m !! x = None.
Proof.
  revert a. induction bs as [|b bs IH]; intros a Hx Hm; cbn; [done|].
  rewrite lookup_insert_ne by lia. apply IH; [lia|done].
Qed.

Lemma find_sym_in_rel_astray_witness : find_sym_in_rel heap_garbage process name_mtrace globals0 512 = None.
Proof.
  apply (find_sym_in_rel_astray heap_garbage process name_mtrace globals0 512); [by vm_compute|].
  unfold sizeof_dyn. intros x Hx. unfold process, IMAGE_ADDR. repeat (apply store_none; [lia|]). done.
Defined.

(** A relocation without a symbol and one of symbol 1 of the second library, which is ["mtrace"]. *)
Definition rel_process : memory := store 7168 (words [9; 0; 12; 0x107]) process.

Definition rel_globals : globals := Globals 0 6144 5632 7168 16 8 2.

Lemma search_rel_is_lookup_witness :
  search_rel heap_garbage rel_process rel_globals name_mtrace 0 2
  = ([], Done (Some (Rel 12 0x107))).
Proof.
  apply (search_rel_is_lookup heap_garbage rel_process rel_globals name_mtrace
           [(Rel 9 0, []); (Rel 12 0x107, name_mtrace)]);
    [done|by repeat constructor| |by repeat constructor; cbn; lia|done|done].
  split; [by vm_compute|]. split; [intros []; by vm_compute|].
  split; [by vm_compute|]. split; [|done]. intros _. string_here (bytes [0]).
Defined.
