(* ===== verification/Sketch.v ===== *)
(** * The sketch of a 64-bit injector ([src/src/trace.h])

    [trace.h] is a draft that nothing includes: an injector for 64-bit programs that finds symbols in the libraries of
    the tracee, makes it call [dlopen] and puts its registers and its stack back. It uses functions that the
    repository does not have: [ptrace_getdata], [ptrace_setdata], [ptrace_getstr] and [ptrace_getregs] are
    operations of the class [Ptrace], next to the requests of [ptrace] itself with what they answer, and [error_msg]
    is a variable, which may return or not. No law is assumed of any of them. The ELF structures are those of 64-bit
    programs, and addresses are computed modulo 2^64. *)

From S2P Require Import Prelude.

(** The registers the draft uses; [others] are the remaining ones. *)
Record user_regs : Type := Regs {
  rsp : Z;
  rdi : Z;
  rsi : Z;
  rip : Z;
  others : list Z;
}.

(** The functions on a tracee in state [T]: a read is what the buffer holds afterwards, and a request of [ptrace], like
    [waitpid], answers a number. *)
Class Ptrace (T : Type) : Type := {
  ptrace_getdata : T -> Z -> nat -> list byte;
  ptrace_setdata : T -> Z -> list byte -> T;
  ptrace_getstr : T -> Z -> nat -> list byte;
  ptrace_getregs : T -> user_regs;
  (** [ptrace(PTRACE_ATTACH)], [ptrace(PTRACE_SETREGS)] and [ptrace(PTRACE_CONT)] *)
  ptrace_attach_request : T -> Z * T;
  ptrace_setregs : T -> user_regs -> Z * T;
  ptrace_cont : T -> Z * T;
  (** [waitpid]: the tracee once it stopped, or ended, and its status *)
  waitpid : T -> Z * T;
}.

(** What the functions print, apart from addresses and registers. *)
Inductive message : Type :=
| Attach_error
| Setregs_1_failed
| Cont_failed
| Setregs_2_failed
| Start_inject
| Inject_done
| No_dynamic
| No_gotplt
| Invalid_ent
| Nothing_found
| Symbol_found (name : list byte)
| Invalid_l_name
| Invalid_name
| Start_search (name : list byte).

(** ** ELF structures *)

Definition sizeof_Ehdr : nat := 64.
Definition sizeof_Phdr : nat := 56.
Definition sizeof_Dyn : nat := 16.
Definition sizeof_Sym : nat := 24.
Definition sizeof_Rel : nat := 16.
Definition sizeof_Rela : nat := 24.
Definition sizeof_Addr : Z := 8.
Definition sizeof_link_map : nat := 40.

Definition PT_DYNAMIC : Z := 2.
Definition DT_NULL : Z := 0.
Definition DT_PLTGOT : Z := 3.
Definition DT_SYMINSZ : Z := 0x6ffffdfe.

(** The unsigned field of [n] bytes at offset [off] of a structure. *)
Definition field (off n : nat) (bs : list byte) : Z := le_combine (take n (drop off bs)).

(** [struct link_map] *)
Record link_map : Type := Link_map {
  l_addr : Z;
  l_name : Z;
  l_ld : Z;
  l_next : Z;
  l_prev : Z;
}.

Definition link_map_of (bs : list byte) : link_map :=
  Link_map (field 0 8 bs) (field 8 8 bs) (field 16 8 bs) (field 24 8 bs) (field 32 8 bs).

Section sketch.
Context {T : Type} `{P : Ptrace T}.

(** [STRLEN] and [IMAGE_ADDR], which the draft does not define. *)
Context (STRLEN : nat) (IMAGE_ADDR : Z).

(** [error_msg], which it does not have. *)
Context (error_msg : message -> prog message unit).

Definition error_if (c : bool) (m : message) : prog message unit := if c then error_msg m else mret tt.

(** [ptrace_attach]: the registers saved in [oldregs], and the tracee. *)
Definition ptrace_attach (t : T) : prog message (user_regs * T) :=
  let '(rc, t) := ptrace_attach_request t in
  _ ← error_if (rc <? 0) Attach_error;
  let '(_, t) := waitpid t in
  mret (ptrace_getregs t, t).

(** ** [get_linkmap] *)

(** The loop on the program headers, from index [i], [k] turns left: the last header read and [dyn_addr]. *)
Fixpoint find_dynamic (t : T) (phdr_addr i : Z) (k : nat) (phdr : option (list byte)) (dyn_addr : Z)
    : option (list byte) * Z :=
  match k with
  | O => (phdr, dyn_addr)
  | S k' =>
      let phdr := ptrace_getdata t (wrapU 64 (phdr_addr + i * Z.of_nat sizeof_Phdr)) sizeof_Phdr in
      if field 0 4 phdr =? PT_DYNAMIC then (Some phdr, field 16 8 phdr)
      else find_dynamic t phdr_addr (i + 1) k' (Some phdr) dyn_addr
  end.

(** The loop on the dynamic section: [gotplt], which stays uninitialised when the section has none. *)
Fixpoint find_gotplt (t : T) (dyn_addr i : Z) (k : nat) : option Z :=
  match k with
  | O => None
  | S k' =>
      let dyn := ptrace_getdata t (wrapU 64 (dyn_addr + i * Z.of_nat sizeof_Dyn)) sizeof_Dyn in
      if field 0 8 dyn =? DT_PLTGOT then Some (field 8 8 dyn) else find_gotplt t dyn_addr (i + 1) k'
  end.

(** [dyn_addr] is a global variable. The bound of the second loop comes from the last header read, which is
    uninitialised memory when there is none. *)
Definition get_linkmap (t : T) (dyn_addr : Z) : prog message Z :=
  let ehdr := ptrace_getdata t IMAGE_ADDR sizeof_Ehdr in
  let phdr_addr := wrapU 64 (IMAGE_ADDR + field 32 8 ehdr) in
  let '(phdr, dyn_addr) := find_dynamic t phdr_addr 0 (Z.to_nat (field 56 2 ehdr)) None dyn_addr in
  _ ← error_if (dyn_addr =? 0) No_dynamic;
  phdr ← or_undef Uninitialised phdr;
  gotplt ← or_undef Uninitialised
    (find_gotplt t dyn_addr 0 (S (Z.to_nat (field 40 8 phdr / Z.of_nat sizeof_Dyn))));
  _ ← error_if (gotplt =? 0) No_gotplt;
  mret (field 0 8 (ptrace_getdata t (wrapU 64 (gotplt + sizeof_Addr)) 8)).

(** ** [handle_one_lmap] *)

(** The local variables, which start uninitialised. *)
Record dyn_vars : Type := Vars {
  symtab : option Z;
  syment : option Z;
  symsz : option Z;
  strtab : option Z;
  jmprel : option Z;
  relpltsz : option Z;
  reldyn : option Z;
  reldynsz : option Z;
  relent : option Z;
}.

Definition no_vars : dyn_vars := Vars None None None None None None None None None.

(** The [switch] on [d_tag]. *)
Definition dyn_case (tag v : Z) (x : dyn_vars) : dyn_vars :=
  let '(Vars a b c d e f g h i) := x in
  if tag =? 6 then Vars (Some v) b c d e f g h i
  else if tag =? 11 then Vars a (Some v) c d e f g h i
  else if tag =? DT_SYMINSZ then Vars a b (Some v) d e f g h i
  else if tag =? 5 then Vars a b c (Some v) e f g h i
  else if tag =? 23 then Vars a b c d (Some v) f g h i
  else if tag =? 2 then Vars a b c d e (Some v) g h i
  else if (tag =? 17) || (tag =? 7) then Vars a b c d e f (Some v) h i
  else if (tag =? 19) || (tag =? 9) then Vars a b c d e f g h (Some v)
  else if (tag =? 18) || (tag =? 8) then Vars a b c d e f g (Some v) i
  else x.

(** The loop: [dyn_addr] is an integer, and grows by the number of words of an entry. None when the fuel does
    not suffice. *)
Fixpoint dyn_loop (fuel : nat) (t : T) (dyn_addr : Z) (x : dyn_vars) : option dyn_vars :=
  match fuel with
  | O => None
  | S fuel' =>
      let dyn := ptrace_getdata t dyn_addr sizeof_Dyn in
      if field 0 8 dyn =? DT_NULL then Some x
      else
        dyn_loop fuel' t (wrapU 64 (dyn_addr + Z.of_nat sizeof_Dyn / sizeof_Addr))
          (dyn_case (field 0 8 dyn) (field 8 8 dyn) x)
  end.

(** [struct lmap_result] *)
Record lmap_result : Type := Lmap {
  r_symtab : Z;
  r_strtab : Z;
  r_jmprel : Z;
  r_reldyn : Z;
  r_link_addr : Z;
  nsymbols : Z;
  nrelplts : Z;
  nreldyns : Z;
}.

Definition handle_one_lmap (fuel : nat) (t : T) (lm : link_map) : option (prog message (option lmap_result)) :=
  x ← dyn_loop fuel t (l_ld lm) no_vars;
  Some (
    syment ← or_undef Uninitialised (syment x);
    relent ← or_undef Uninitialised (relent x);
    if (syment =? 0) || (relent =? 0) then _ ← emit Invalid_ent; mret None
    else
      symtab ← or_undef Uninitialised (symtab x);
      strtab ← or_undef Uninitialised (strtab x);
      jmprel ← or_undef Uninitialised (jmprel x);
      reldyn ← or_undef Uninitialised (reldyn x);
      symsz ← or_undef Uninitialised (symsz x);
      relpltsz ← or_undef Uninitialised (relpltsz x);
      reldynsz ← or_undef Uninitialised (reldynsz x);
      mret (Some (Lmap symtab strtab jmprel reldyn (l_addr lm) (symsz / syment) (relpltsz / relent)
                    (reldynsz / relent)))).

(** ** Symbols *)

(** [buf] after [ptrace_getstr(pid, addr, buf, 128)]: undefined when the string does not fit in the buffer. *)
Definition read_name (t : T) (addr : Z) : option (list byte) :=
  let s := c_str (ptrace_getstr t addr 128) in if (S (length s) <=? STRLEN)%nat then Some s else None.

(** [buf[0] && (32 > buf[0] || 127 == buf[0])], with a signed [char]. *)
Definition unprintable (buf : list byte) : bool :=
  match buf with
  | [] => false
  | b :: _ => (wrapS 8 (byte.unsigned b) <? 32) || (byte.unsigned b =? 127)
  end.

(** What a turn of the search does: goes on, or returns. *)
Inductive turn : Type :=
| Next
| Return (sym_addr : Z)
| Undef (u : ub_kind).

(** The body of the loop of [find_symbol_in_linkmap]. *)
Definition symbol_turn (t : T) (lmret : lmap_result) (sym_name : list byte) (i : Z) : list message * turn :=
  let sym := ptrace_getdata t (wrapU 64 (r_symtab lmret + i * Z.of_nat sizeof_Sym)) sizeof_Sym in
  let st_name := field 0 4 sym in
  let st_value := field 8 8 sym in
  let st_size := field 16 8 sym in
  if (st_name =? 0) && (st_size =? 0) && (st_value =? 0) then ([], Next)
  else
    match read_name t (wrapU 64 (r_strtab lmret + st_name)) with
    | None => ([], Undef Out_of_bounds)
    | Some buf =>
        if unprintable buf then ([Nothing_found], Return 0)
        else if bool_decide (buf = sym_name) then
          ([Symbol_found buf], if st_value =? 0 then Next else Return (wrapU 64 (r_link_addr lmret + st_value)))
        else ([], Next)
    end.

(** The loop [for (i = 0; i >= 0; i++)]: it has no end of its own but the overflow of [i]. *)
Fixpoint symbol_loop (fuel : nat) (t : T) (lmret : lmap_result) (sym_name : list byte) (i : Z)
    : option (prog message Z) :=
  match fuel with
  | O => None
  | S fuel' =>
      let '(msgs, r) := symbol_turn t lmret sym_name i in
      match r with
      | Return a => Some (msgs, Done a)
      | Undef u => Some (msgs, Undefined u)
      | Next =>
          if in_sint 32 (i + 1) then
            '(msgs', r') ← symbol_loop fuel' t lmret sym_name (i + 1); Some (msgs ++ msgs', r')
          else Some (msgs, Undefined Signed_overflow)
      end
  end.

Definition find_symbol_in_linkmap (fuel : nat) (t : T) (lm : link_map) (sym_name : list byte)
    : option (prog message Z) :=
  '(msgs, r) ← handle_one_lmap fuel t lm;
  match r with
  | Done (Some lmret) =>
      '(msgs', r') ← symbol_loop fuel t lmret sym_name 0; Some (msgs ++ msgs', r')
  | Done None => Some (msgs, Undefined Null_pointer)
  | Undefined u => Some (msgs, Undefined u)
  | Raised e => Some (msgs, Raised e)
  end.

(** [find_symbol]: the list of libraries, from [lm_addr]. *)
Fixpoint find_symbol (fuel : nat) (t : T) (lm_addr : Z) (sym_name : list byte) : option (prog message Z) :=
  match fuel with
  | O => None
  | S fuel' =>
      if lm_addr =? 0 then Some ([], Done 0)
      else
        let lmap := link_map_of (ptrace_getdata t lm_addr sizeof_link_map) in
        let go_on msgs := '(msgs', r) ← find_symbol fuel' t (l_next lmap) sym_name; Some (msgs ++ msgs', r) in
        if l_name lmap =? 0 then go_on [Invalid_l_name]
        else
          match read_name t (l_name lmap) with
          | None => Some ([], Undefined Out_of_bounds)
          | Some [] => go_on [Invalid_name]
          | Some buf =>
              '(msgs, r) ← find_symbol_in_linkmap fuel' t lmap sym_name;
              match r with
              | Done sym_addr =>
                  if negb (sym_addr =? 0) then Some (Start_search buf :: msgs, Done sym_addr)
                  else go_on (Start_search buf :: msgs)
              | r => Some (Start_search buf :: msgs, r)
              end
          end
  end.

(** A read of [n] bytes into a block of [block] bytes. *)
Definition read_into (block n : nat) : prog message unit := if (n <=? block)%nat then mret tt else undef Out_of_bounds.

(** The loop of [find_sym_in_rel], from index [i], [k] turns left: an entry of [sizeof(Elf_Rela)] bytes is read
    into [rel], a block of [sizeof(Elf_Rel)] bytes. *)
Fixpoint rel_loop (t : T) (lmret : lmap_result) (sym_name : list byte) (i : Z) (k : nat) : prog message Z :=
  match k with
  | O => mret 0
  | S k' =>
      _ ← read_into sizeof_Rel sizeof_Rela;
      let rel := ptrace_getdata t (wrapU 64 (r_jmprel lmret + i * Z.of_nat sizeof_Rela)) sizeof_Rela in
      let sym :=
        ptrace_getdata t (wrapU 64 (r_symtab lmret + Z.shiftr (field 8 8 rel) 32 * Z.of_nat sizeof_Sym)) sizeof_Sym in
      let str := c_str (ptrace_getstr t (wrapU 64 (r_strtab lmret + field 0 4 sym)) STRLEN) in
      if bool_decide (str = sym_name) then mret (field 0 8 rel) else rel_loop t lmret sym_name (i + 1) k'
  end.

(** [find_sym_in_rel]: [lmret] is what [get_dyn_info], which the draft does not have, returns. *)
Definition find_sym_in_rel (t : T) (lmret : lmap_result) (sym_name : list byte) : prog message Z :=
  rel_loop t lmret sym_name 0 (Z.to_nat (nrelplts lmret)).

(** ** [inject_code] *)

(** [RTLD_NOW|RTLD_GLOBAL|RTLD_NODELETE] *)
Definition dlopen_flags : Z := Z.lor (Z.lor 0x2 0x100) 0x1000.

Definition ret_addr : Z := 0x666.

(** The second of the two places on the stack. *)
Definition path_addr (regs : user_regs) : Z := wrapU 64 (rsp regs + Z.of_nat STRLEN).

(** The registers and the stack that are saved. *)
Definition saved (t : T) : user_regs * list byte * list byte :=
  let regs := ptrace_getregs t in
  (regs, ptrace_getdata t (path_addr regs) STRLEN, ptrace_getdata t (rsp regs) STRLEN).

(** The tracee is made ready for the call, and let run until it stops or ends. *)
Definition prepare (t : T) (dlopen_addr : Z) (libc_path : list byte) : prog message T :=
  let regs := ptrace_getregs t in
  let t := ptrace_setdata t (rsp regs) (le_split 8 ret_addr) in
  let t := ptrace_setdata t (path_addr regs) (libc_path ++ [Byte.x00]) in
  let '(rc, t) :=
    ptrace_setregs t (Regs (rsp regs) (path_addr regs) dlopen_flags (wrapU 64 (dlopen_addr + 2)) (others regs)) in
  _ ← error_if (rc <? 0) Setregs_1_failed;
  let '(rc, t) := ptrace_cont t in
  _ ← error_if (rc <? 0) Cont_failed;
  let '(status, t) := waitpid t in
  mret t.

(** The tracee is put back, whatever happened to it. *)
Definition restore (s : user_regs * list byte * list byte) (t : T) : prog message T :=
  let '(saved_regs, sbuf1, sbuf2) := s in
  let '(rc, t) := ptrace_setregs t saved_regs in
  _ ← error_if (rc <? 0) Setregs_2_failed;
  let t := ptrace_setdata t (path_addr saved_regs) sbuf1 in
  mret (ptrace_setdata t (rsp saved_regs) sbuf2).

Definition inject_code (t : T) (dlopen_addr : Z) (libc_path : list byte) : prog message T :=
  _ ← emit Start_inject;
  t' ← prepare t dlopen_addr libc_path;
  t' ← restore (saved t) t';
  _ ← emit Inject_done;
  mret t'.

(** ** The statements outside the functions *)

(** The first group: the two symbols and [dlopen], then the injection. The result is [old_sym_addr], [new_sym_addr] and
    the tracee; [map] is the address of the list of libraries. *)
Definition load_hook (fuel : nat) (t : T) (map : Z) (oldfunname newfunname dlopen_name libpath : list byte)
    : option (prog message (Z * Z * T)) :=
  old ← find_symbol fuel t map oldfunname;
  new ← find_symbol fuel t map newfunname;
  dlopen ← find_symbol fuel t map dlopen_name;
  Some (
    old_sym_addr ← old; new_sym_addr ← new; dlopen_addr ← dlopen;
    t' ← inject_code t dlopen_addr libpath;
    mret (old_sym_addr, new_sym_addr, t')).

(** The second group, up to the detachment: the result is [target_addr] and the tracee. *)
Definition patch_got (t : T) (lmret : lmap_result) (oldfunname : list byte) (new_sym_addr : Z) : prog message (Z * T) :=
  old_rel_addr ← find_sym_in_rel t lmret oldfunname;
  mret (field 0 8 (ptrace_getdata t old_rel_addr 8), ptrace_setdata t old_rel_addr (le_split 8 new_sym_addr)).

(** ** Properties *)

(** The eight bytes two bytes into an entry. *)
Lemma straddling_tag tag v more :
  0 <= tag < 2 ^ 64 ->
  field 0 8 (drop 2 (le_split 8 tag ++ le_split 8 v ++ more)) = tag / 2 ^ 16 + v mod 2 ^ 16 * 2 ^ 48.
Proof.
  intros Ht. unfold field. rewrite drop_0. rewrite drop_app_le by (rewrite length_le_split; lia).
  rewrite take_app_ge by (rewrite length_drop, length_le_split; lia).
  rewrite length_drop, length_le_split, take_app_le by (rewrite length_le_split; lia).
  rewrite le_combine_app_add, length_drop, length_le_split, le_combine_firstn, skipn_le_split, !le_combine_split by lia.
  rewrite Z.shiftr_div_pow2 by lia.
  replace (8 * Z.of_nat 2) with 16 by lia. replace (Z.of_nat (8 - 2) * 8) with 48 by lia.
  replace (8 * Z.of_nat (8 - 2)) with 48 by lia. replace (Z.of_nat 8 * 8) with 64 by lia.
  replace (8 * Z.of_nat (8 - (8 - 2))) with 16 by lia.
  rewrite (Z.mod_small (tag / 2 ^ 16)).
  2:{ split; [apply Z.div_pos; lia|]. apply Z.div_lt_upper_bound; lia. }
  f_equal. f_equal. apply Z.mod_mod_divide. by exists (2 ^ 48).
Qed.

(** The loop on a dynamic section reads its second entry two bytes after the first instead of sixteen: what
    it takes for a tag is made of the first entry. With a tag of less than 16 bits, either the first entry's value ends in
    16 zero bits, and the loop ends there, or the second turn finds nothing. [more] is the start of the second entry. *)
Theorem dyn_loop_out_of_step (fuel : nat) (t : T) (dyn_addr tag v : Z) (more : list byte) (x : dyn_vars) :
  0 < tag < 2 ^ 16 -> 0 <= v < 2 ^ 64 -> 0 <= dyn_addr < 2 ^ 64 - 4 ->
  ptrace_getdata t dyn_addr 16 = le_split 8 tag ++ le_split 8 v ->
  ptrace_getdata t (dyn_addr + 2) 16 = drop 2 (le_split 8 tag ++ le_split 8 v ++ more) ->
  dyn_loop (S (S fuel)) t dyn_addr x
  = if v mod 2 ^ 16 =? 0 then Some (dyn_case tag v x) else dyn_loop fuel t (dyn_addr + 4) (dyn_case tag v x).
Proof.
  intros Ht Hv Ha E E2.
  assert (F1 : field 0 8 (ptrace_getdata t dyn_addr 16) = tag).
  { unfold field. rewrite E, drop_0, take_app_length' by (by rewrite length_le_split).
    rewrite le_combine_split, Z.mod_small; [done|lia]. }
  assert (F2 : field 8 8 (ptrace_getdata t dyn_addr 16) = v).
  { unfold field. rewrite E, drop_app_length' by (by rewrite length_le_split).
    rewrite take_ge by (by rewrite length_le_split). rewrite le_combine_split, Z.mod_small; [done|lia]. }
  cbn [dyn_loop]. unfold sizeof_Dyn, sizeof_Addr, DT_NULL. change (Z.of_nat 16 / 8) with 2.
  rewrite (wrapU_small 64 (dyn_addr + 2)) by lia. rewrite (wrapU_small 64 (dyn_addr + 2 + 2)) by lia.
  rewrite F1, F2, E2, straddling_tag by lia. rewrite (Z.div_small tag) by lia. rewrite Z.add_0_l.
  rewrite (proj2 (Z.eqb_neq tag 0)) by lia. pose proof (Z.mod_pos_bound v (2 ^ 16) ltac:(lia)).
  destruct (Z.eqb_spec (v mod 2 ^ 16) 0) as [->|Hn]; [done|].
  set (w := v mod 2 ^ 16 * 2 ^ 48). assert (2 ^ 48 <= w) by (subst w; nia).
  rewrite (proj2 (Z.eqb_neq w 0)) by lia. replace (dyn_addr + 2 + 2) with (dyn_addr + 4) by lia.
  f_equal. unfold dyn_case at 1, DT_SYMINSZ. destruct (dyn_case tag v x).
  repeat (rewrite (proj2 (Z.eqb_neq w _)) by lia). done.
Qed.

(** The search through a symbol table skips the entries that are not the one, and returns what the first turn that
    does not go on returns; as long as every turn goes on nothing ends it but the overflow of [i]. *)
Theorem symbol_loop_first (t : T) (lmret : lmap_result) (sym_name : list byte) (n : nat) (fuel : nat) :
  Z.of_nat n < 2 ^ 31 -> (n < fuel)%nat ->
  (forall j, 0 <= j < Z.of_nat n -> (symbol_turn t lmret sym_name j).2 = Next) ->
  exists msgs, match (symbol_turn t lmret sym_name (Z.of_nat n)).2 with
  | Return a => symbol_loop fuel t lmret sym_name 0 = Some (msgs, Done a)
  | Undef u => symbol_loop fuel t lmret sym_name 0 = Some (msgs, Undefined u)
  | Next => Z.of_nat n = 2 ^ 31 - 1 -> symbol_loop fuel t lmret sym_name 0 = Some (msgs, Undefined Signed_overflow)
  end.
Proof.
  intros Hn Hf Hs.
  assert (H : forall k i fuel, (k < fuel)%nat -> 0 <= i -> i + Z.of_nat k = Z.of_nat n ->
    exists msgs, match (symbol_turn t lmret sym_name (Z.of_nat n)).2 with
    | Return a => symbol_loop fuel t lmret sym_name i = Some (msgs, Done a)
    | Undef u => symbol_loop fuel t lmret sym_name i = Some (msgs, Undefined u)
    | Next => Z.of_nat n = 2 ^ 31 - 1 -> symbol_loop fuel t lmret sym_name i = Some (msgs, Undefined Signed_overflow)
    end).
  { clear fuel Hf. induction k as [|k IH]; intros i [|fuel] Hf Hi Hk; try lia; cbn [symbol_loop].
    - replace i with (Z.of_nat n) by lia. destruct (symbol_turn t lmret sym_name (Z.of_nat n)) as [msgs r]. cbn [snd].
      destruct r; [|by exists msgs..]. exists msgs. intros E. rewrite E. done.
    - destruct (IH (i + 1) fuel ltac:(lia) ltac:(lia) ltac:(lia)) as [msgs' IH'].
      pose proof (Hs i ltac:(lia)) as Hi'. destruct (symbol_turn t lmret sym_name i) as [msgs r]. cbn in Hi'. subst r.
      assert (Hin : in_sint 32 (i + 1) = true) by (unfold in_sint; bool_solve; lia). rewrite Hin.
      exists (msgs ++ msgs'). destruct (symbol_turn t lmret sym_name (Z.of_nat n)).2.
      + intros E. by rewrite IH'.
      + by rewrite IH'.
      + by rewrite IH'. }
  apply (H n 0 fuel); lia.
Qed.

(** A library with relocations makes [find_sym_in_rel] write past the end of its block. *)
Theorem find_sym_in_rel_overflows (t : T) (lmret : lmap_result) (sym_name : list byte) :
  find_sym_in_rel t lmret sym_name = if 0 <? nrelplts lmret then undef Out_of_bounds else mret 0.
Proof.
  unfold find_sym_in_rel. destruct (Z.ltb_spec 0 (nrelplts lmret)).
  - destruct (Z.to_nat (nrelplts lmret)) eqn:E; [lia|done].
  - replace (Z.to_nat (nrelplts lmret)) with 0%nat by lia. done.
Qed.

(** The group of statements that redirects a function never redirects one: either the search in the relocations writes
    past the end of its block, or it answers 0, and the new address is written at the address 0 of the tracee, whatever
    function was asked for. *)
Theorem patch_got_astray (t : T) (lmret : lmap_result) (oldfunname : list byte) (new_sym_addr : Z) :
  patch_got t lmret oldfunname new_sym_addr
  = if 0 <? nrelplts lmret then undef Out_of_bounds
    else mret (field 0 8 (ptrace_getdata t 0 8), ptrace_setdata t 0 (le_split 8 new_sym_addr)).
Proof. unfold patch_got. rewrite find_sym_in_rel_overflows. by destruct (0 <? nrelplts lmret). Qed.

End sketch.

(** ** A concrete tracee *)

(** Bytes by address, strings of at most [n] bytes, and a called function that does nothing. *)
Record tracee : Type := Tracee {
  memory : Z -> byte;
  registers : user_regs;
}.

Definition read_bytes (m : Z -> byte) (a : Z) (n : nat) : list byte := map (fun k => m (a + Z.of_nat k)) (seq 0 n).

Definition write_bytes (m : Z -> byte) (a : Z) (bs : list byte) : Z -> byte := fun b =>
  if a <=? b then match bs !! Z.to_nat (b - a) with Some x => x | None => m b end else m b.

#[export] Instance demo_ptrace : Ptrace tracee :=
  {| ptrace_getdata t a n := read_bytes (memory t) a n;
     ptrace_setdata t a bs := Tracee (write_bytes (memory t) a bs) (registers t);
     ptrace_getstr t a n := read_bytes (memory t) a n;
     ptrace_getregs t := registers t;
     ptrace_attach_request t := (0, t);
     ptrace_setregs t r := (0, Tracee (memory t) r);
     ptrace_cont t := (0, t);
     waitpid t := (0, t) |}.

(** A tracee with stack at 1000, a dynamic section at 32 that starts with the symbol table, and a symbol table at 64 whose
    second entry is a function at 7 with the name at 200. *)
Definition demo_tracee : tracee :=
  Tracee (write_bytes (write_bytes (write_bytes (fun _ => Byte.x00) 32 (le_split 8 6 ++ le_split 8 64)) 88
            (le_split 8 200 ++ le_split 8 7 ++ le_split 8 12)) 200 [Byte.x66])
    (Regs 1000 1 2 3 []).

Definition demo_lmret : lmap_result := Lmap 64 0 0 0 4096 2 1 0.

(** ** Witnesses *)

(** With a path that fits, the tracee of the demonstration is put back; with one that does not, the end of the path stays
    on its stack, above the part that is put back. *)
Example inject_code_demo :
  let stack t := (registers t, read_bytes (memory t) 1000 64) in
  match inject_code 16 emit demo_tracee 5000 [Byte.x2f] with
  | (_, Done t) => stack t = stack demo_tracee
  | _ => False
  end
  /\ match inject_code 8 emit demo_tracee 5000 (repeat Byte.x2f 10) with
     | (_, Done t) => read_bytes (memory t) 1016 3 = [Byte.x2f; Byte.x2f; Byte.x00]
                      /\ read_bytes (memory t) 1000 16 = read_bytes (memory demo_tracee) 1000 16
     | _ => False
     end.
Proof. vm_compute. auto. Qed.

Lemma dyn_loop_out_of_step_witness :
  dyn_loop 2 demo_tracee 32 no_vars = dyn_loop 0 demo_tracee 36 (dyn_case 6 64 no_vars).
Proof.
  by apply (dyn_loop_out_of_step 0 demo_tracee 32 6 64 [Byte.x00; Byte.x00] no_vars); [lia|lia|lia|vm_compute..].
Defined.

Lemma symbol_loop_first_witness :
  exists msgs, symbol_loop 64 5 demo_tracee demo_lmret [Byte.x66] 0 = Some (msgs, Done 4103).
Proof.
  destruct (symbol_loop_first 64 demo_tracee demo_lmret [Byte.x66] 1 5) as [msgs H]; [lia|lia|..].
  - intros j Hj. replace j with 0 by lia. by vm_compute.
  - exists msgs. assert (Ht : (symbol_turn 64 demo_tracee demo_lmret [Byte.x66] (Z.of_nat 1)).2 = Return 4103)
      by by vm_compute.
    by rewrite Ht in H.
Defined.
